(* ===== verification/_CoqProject ===== *)
-Q . S2P
Prelude.v
Async.v
Std_text.v
Fast_buf.v
Transport.v
Buf_reader.v
Chunked.v
Http_api.v
Error.v
Limit.v
Http11.v
Mpsc.v
Share.v
Accounts.v
Channels.v
Handles.v
Codec.v
Stalls.v
Dialogue.v
Streams.v
Machine.v
Client.v
Client_spec.v
Client_proofs.v
Client_session.v
Client_talk.v
Client_progress.v
Client_drop.v
Server.v
Server_spec.v
Server_proofs.v
Server_session.v
Server_faults.v
Server_talk.v
Server_progress.v
Conversation.v
