(* ===== verification/Prelude.v ===== *)
(** * hreq-h1, verified: root of the development

    hreq-h1 is an HTTP/1.1 client and server over any byte transport.  This
    library models the whole of its code under src/src/ as Rocq functions and
    proves what a user relies on: heads and bodies arrive whole and in order
    however the transport cuts its reads and writes, no poll of a connection
    loops or panics, a connection is a sequence of whole exchanges, a client
    and a server on one connection understand each other, and only its user
    can keep a connection over a live transport from going on.

    ** The program, and where it is modelled

    A connection is one task that owns the transport (a client's) or a codec
    behind a mutex that several tasks poll (a server's).  The user's handles
    reach it through bounded channels only.

<<
   user      SendRequest, ResponseFuture, SendResponse     Client, Server
             SendStream, RecvStream       share.rs         Share, Handles
   channels  Sender, Receiver             mpsc.rs          Mpsc, Channels
   states    SendReq, Bidirect, ...       client.rs        Client
             RecvReq, Bidirect, ...       server.rs        Server
   heads     poll_for_crlfcrlf, ...       http11.rs        Http11
   framing   LimitRead, LimitWrite        limit.rs         Limit
             ChunkedDecoder, -Encoder     chunked.rs       Chunked
   buffers   BufIo                        buf_reader.rs    Buf_reader
             FastBuf, ConsumeBuf          fast_buf.rs      Fast_buf
   errors    Error, err_closed            error.rs lib.rs  Error
>>

    A Rust type is a Record or an Inductive type with its fields or variants,
    in a Module of its name; a method is a Definition of the same name in it;
    a loop's body is a definition that ends in [_turn], iterated with fuel
    ([iter] of Async.v).  A poll function [fn(&mut self, cx, ..) ->
    Poll<io::Result<A>>] is [io St A]: a function from the mutable state to a
    result and the state it leaves, whatever the result.  A panic and an
    exhausted loop are results of their own ([exec]).  An [async fn] is its
    state machine, one constructor per await ([SendStream.send_stage]).

    Beneath the components: this file has bytes, slices indexed by [Z] and
    the tactics; Async.v the vocabulary above and its program logic ([wp]:
    total correctness, [swp]: but for the named panics, [keeps]: frames,
    [yields]: frames, with what being [Pending] costs);
    Std_text.v the text functions of the standard library.  What is not in
    the repository is a parameter, with its documented behaviour as the laws
    of a class: the transport (Transport.v), and the crates http and httparse
    (Http_api.v).  Both files end with a concrete instance, on which the
    witnesses and the concrete sessions run.

    Codec.v holds what the two connections share.  Of each connection there
    are four files: the code (Client.v, Server.v), the abstract machine it
    implements (Client_spec.v: [Protocol], Server_spec.v: [Service], with
    their runs from Machine.v), the proof that every poll is a run of the
    machine (_proofs), and the interplay with the user (_session), where the
    promises are stated.  A session lists the calls of its user, and the
    history that explains it has the same calls: of every channel, what the
    machine takes is what those calls put on it (Accounts.v).  A server's
    session also notes whether a poll has returned an error, without which
    its history has no failure.  Client_drop.v has the end of a client
    connection, Server_faults.v two laws of what the server gets wrong.
    Client_progress.v and Server_progress.v say what a connection can wait
    for, on the accounts of Stalls.v.

    The two ends meet in Conversation.v.  Dialogue.v says what a reader makes
    of a stream of messages; Streams.v what the user says through the
    [SendStream] of a message, and what the connection takes of it;
    Client_talk.v and Server_talk.v that what a connection writes is the
    stream of the messages its user said ([client_wrote], [server_wrote]).

    ** What is shown

    - The conversation.  [conversation]: of a client and a server that read
      each other's bytes, and no poll of the server having failed, the n-th
      response at the client answers its n-th request at the server, and both
      bodies arrive as they were said, on any interleaving of polls and calls
      and any segmentation; an idle client has all its responses.
      [requests_arrive] and [responses_arrive] are its two directions, each
      against a peer of which only the bytes matter.  They suppose of the
      parser that it reads from a head what the writer meant by it, as to the
      body ([requests_understood], [responses_understood]), and of the users
      that the pieces of a body are those its headers announce ([polite]).
      That the first supposition can fail of a response is [no_length_stalls].
    - The connections.  [client_poll_refines] and [server_poll_refines]: one
      poll ends, does not panic (but for one named panic of the client), and
      is a run of the abstract machine; when it is [Pending], nothing was left
      to do but to wait for the user, or for the transport (a live one has
      used up a stall in this poll), and it will be woken; when it fails,
      the run broke off in front of its next step or part of the way through
      it.  [client_session_refines] and [server_session_refines]: any
      interleaving of polls and calls of the user after a handshake is a
      history with these calls, the wires carry exactly its bytes, and the
      requests, the answers and the pieces of bodies in it are, channel by
      channel and in order, those that the user put there.
      [client_exchanges_are_whole] and [server_exchanges_are_whole]: such a
      history is a sequence of whole exchanges, and at most one under way.
      [error_is_forwarded], [send_request_cases], [send_response_cases],
      [accept_waits_for_handles] and [dropped_connection_tells_all] are the
      promises to single callers.
    - Progress.  A transport may promise to hold a caller up only so often
      ([live] and [stalls] of Transport.v; other transports are not excluded,
      but nothing is said of their progress).  Over such a one
      [client_settles] and [server_settles]: at most as many polls are held
      up, and the next one returns or waits for the user ([waits_for_user]).
      [client_completes] and [server_completes] say it of whole sessions, by
      counting their polls that were held up ([paced]), and a client that
      waits for a request has every one before answered.
      [every_request_is_answered] is that of a conversation: each request
      then has its own response, whole.  A server's handle that flushes a
      body is not covered, as [flush_spins] shows.
    - Round trips.  [chunked_roundtrip], [message_roundtrip] and
      [written_head_is_found]: what one end writes the other reads back, for
      every segmentation, stall pattern and buffer size, and what follows on
      the connection is left there.  [framing_agrees]: both ends derive the
      same framing from the headers of a request, and from those of a response
      that has one of the two; of a response with neither they do not.
    - Reading.  [limit_read_to_end] and [content_length_truncated] for every
      framing; [decoder_runs_automaton] against a byte-at-a-time reference;
      [poll_for_crlfcrlf_takes_head]; [reads_follow_the_stream] for any mix
      of reads, peeks, consumes and takes.
    - Writing.  [writes_keep_order] and [poll_write_all_resumes]: every
      buffer once and in order; [poll_send_data_cases] and
      [content_length_never_exceeded] for body data.
    - Channels.  [channel_is_fifo], [bound_is_kept] and [no_lost_wakeup] over
      a transition system of tasks; [recv_stream_in_order].
    - Bounds.  [chunk_size_bounded], [heads_fit_or_fail],
      [guard_appends_only].
    - Where the code falls short: [informational_is_final],
      [response_made_up], [truncated_body_ends_cleanly], [stalled_last_piece_fails],
      [content_length_overrun], [flush_spins], [zero_write_spins],
      [full_read_buffer_panics], [owned_data_unchecked], [sender_drop_race].
      Each is a theorem about the definitions as they are: the first two and
      the last by a concrete run, the others as laws that name what brings
      them about; the theorems above hold in spite of these.

    ** Bounds and fuel

    Integers are [Z] at the width of the code: [u64] and [usize] arithmetic
    goes through [uadd], [usub] and the like, which panic or wrap as the
    build profile says ([Profile]); theorems hold for both.  Fuel bounds each
    loop of one poll; the theorems of termination say that enough exists
    ([enough_exists] and [server_enough_exists]) or name it (a measure of what
    is buffered and queued), and hold for any larger amount.  The read buffer
    panics when it is full at [MAX_CAPACITY], so the theorems on sessions
    assume that what the peer ever sends fits beneath it ([fits] of Codec.v);
    the assumption is on the whole stream because [BufIo] does not reclaim
    consumed bytes in front of an unread one.

    ** What is not modelled, and why

    - The [Debug] instances and the output of [trace!], [debug!], [warn!]:
      they have no effect on the state.
    - The lock: it is held for the whole of a poll and never across an await,
      so that a poll is one step; a poisoned lock needs a panic first.
    - The drop of a server's codec and its transport with the last hold: the
      handles of its channels are all gone by then.  Other drops are modelled
      where the owner of a value gives it up ([drop_state], [drop_handle],
      [drop_connection] of both sides).
    - [unsafe impl Send] and [Sync], which have no behaviour.
    - Tests, fuzz targets and the example: they only call the library. *)

From Stdlib Require Export ZArith Lia.
From Stdlib.Strings Require Export Byte.
From stdpp Require Export base list gmap strings option.

#[global] Open Scope Z_scope.

(** ** Bytes and Z-indexed lists *)

Abbreviation byte := Byte.byte.
Abbreviation bytes := (list Byte.byte).

#[export] Instance byte_eq_dec : EqDecision byte := Byte.byte_eq_dec.

(** The bytes of a string literal. *)
Definition bs (s : string) : bytes := String.list_byte_of_string s.

(** [slice.len()] as a machine-sized number, and the two halves of a slice. *)
Definition zlen {A} (l : list A) : Z := Z.of_nat (length l).
Definition ztake {A} (n : Z) (l : list A) : list A := take (Z.to_nat n) l.
Definition zdrop {A} (n : Z) (l : list A) : list A := drop (Z.to_nat n) l.

#[global] Arguments zlen : simpl never.
#[global] Arguments ztake : simpl never.
#[global] Arguments zdrop : simpl never.

Section ZLists.
Context {A : Type}.
Implicit Types (l k : list A) (n m : Z).

Lemma omap_some l : omap id (Some <$> l) = l.
Proof. induction l as [|x l IH]; csimpl; [done | by rewrite IH]. Qed.

Lemma zlen_nonneg l : 0 <= zlen l.
Proof. unfold zlen. lia. Qed.

Lemma zlen_nil : zlen (@nil A) = 0.
Proof. done. Qed.

Lemma zlen_cons x l : zlen (x :: l) = 1 + zlen l.
Proof. unfold zlen. simpl length. lia. Qed.

Lemma zlen_app l k : zlen (l ++ k) = zlen l + zlen k.
Proof. unfold zlen. rewrite length_app. lia. Qed.

Lemma zlen_replicate (c : nat) (x : A) : zlen (replicate c x) = Z.of_nat c.
Proof. unfold zlen. by rewrite length_replicate. Qed.

Lemma zlen_fmap {B} (f : A -> B) l : zlen (f <$> l) = zlen l.
Proof. unfold zlen. by rewrite length_fmap. Qed.

Lemma zlen_zero l : zlen l = 0 <-> l = [].
Proof. unfold zlen. destruct l; simpl; split; intros; try done; lia. Qed.

Lemma zlen_ztake n l : 0 <= n -> zlen (ztake n l) = n `min` zlen l.
Proof. unfold zlen, ztake. rewrite length_take. lia. Qed.

Lemma zlen_ztake_le n l : 0 <= n <= zlen l -> zlen (ztake n l) = n.
Proof. intros. rewrite zlen_ztake; lia. Qed.

Lemma zlen_zdrop n l : 0 <= n <= zlen l -> zlen (zdrop n l) = zlen l - n.
Proof. unfold zlen, zdrop. rewrite length_drop. lia. Qed.

Lemma ztake_zdrop n l : ztake n l ++ zdrop n l = l.
Proof. apply take_drop. Qed.

Lemma ztake_zdrop_len n l : 0 <= n -> ztake n l ++ zdrop (zlen (ztake n l)) l = l.
Proof.
  intros. unfold ztake, zdrop, zlen. rewrite length_take, Nat2Z.id.
  destruct (Nat.min_spec (Z.to_nat n) (length l)) as [[? ->]|[? ->]].
  - apply take_drop.
  - rewrite take_ge by lia. rewrite drop_all. apply app_nil_r.
Qed.

Lemma ztake_all n l : zlen l <= n -> ztake n l = l.
Proof. unfold zlen, ztake. intros. apply take_ge. lia. Qed.

Lemma zdrop_all n l : zlen l <= n -> zdrop n l = [].
Proof. unfold zlen, zdrop. intros. apply drop_ge. lia. Qed.

Lemma zdrop_0 l : zdrop 0 l = l.
Proof. done. Qed.

Lemma ztake_0 l : ztake 0 l = [].
Proof. done. Qed.

Lemma zdrop_zdrop n m l : 0 <= n -> 0 <= m -> zdrop m (zdrop n l) = zdrop (n + m) l.
Proof. unfold zdrop. intros. rewrite drop_drop. f_equal. lia. Qed.

Lemma zdrop_app_le n l k : 0 <= n <= zlen l -> zdrop n (l ++ k) = zdrop n l ++ k.
Proof. unfold zdrop, zlen. intros. apply drop_app_le. lia. Qed.

Lemma ztake_app_le n l k : 0 <= n <= zlen l -> ztake n (l ++ k) = ztake n l.
Proof. unfold ztake, zlen. intros. apply take_app_le. lia. Qed.

Lemma zdrop_app_length l k : zdrop (zlen l) (l ++ k) = k.
Proof. unfold zdrop, zlen. rewrite Nat2Z.id. apply drop_app_length. Qed.

Lemma ztake_app_length l k : ztake (zlen l) (l ++ k) = l.
Proof. unfold ztake, zlen. rewrite Nat2Z.id. apply take_app_length. Qed.

Lemma ztake_prefix_app n l k : ztake n l ++ zdrop n l ++ k = l ++ k.
Proof. by rewrite app_assoc, ztake_zdrop. Qed.

Lemma fmap_ztake {B} (f : A -> B) n l : f <$> ztake n l = ztake n (f <$> l).
Proof. unfold ztake. by rewrite firstn_map. Qed.

Lemma fmap_zdrop {B} (f : A -> B) n l : f <$> zdrop n l = zdrop n (f <$> l).
Proof. unfold zdrop. by rewrite skipn_map. Qed.
End ZLists.

(** Rewriting with lengths: [autorewrite with zlist] normalises [zlen] of the
    list constructors; [zlia] also knows lengths are not negative. *)
Create Rewrite HintDb zlist.
#[export] Hint Rewrite @zlen_nil @zlen_cons @zlen_app @zlen_replicate @zlen_fmap : zlist.
#[export] Hint Rewrite @zdrop_0 @ztake_0 @app_nil_r : zlist.

Ltac zlen_facts :=
  repeat match goal with
  | |- context [zlen ?l] =>
      lazymatch goal with
      | _ : 0 <= zlen l |- _ => fail
      | _ => pose proof (zlen_nonneg l)
      end
  | _ : context [zlen ?l] |- _ =>
      lazymatch goal with
      | _ : 0 <= zlen l |- _ => fail
      | _ => pose proof (zlen_nonneg l)
      end
  end.

Ltac zlia := autorewrite with zlist in *; zlen_facts; lia.
