(* ===== verification/Async.v ===== *)
(** * The vocabulary of polled I/O

    What the sources use of Rust's standard library to write polled,
    fallible, panicking code: [std::io::Error], [Poll] with [ready!] and [?],
    machine integers, [assert!], [loop].  Nothing here maps to a line of the
    repository; every component is written in these terms.

    - [exec A] is a run of synchronous code: it returns, panics, or the fuel
      given to one of its loops is used up.
    - [io St A] is a poll function over the mutable state [St]: what the Rust
      function writes as [-> Poll<io::Result<A>>] with [&mut] arguments.  The
      state survives [Pending] and [Err]: mutations made before an early
      return are visible to the caller, as they are in the code.
    - [wp] is total correctness: no panic, no exhausted fuel.  [swp P] allows
      the panics in [P], and nothing else that is not a result.
    - [keeps I] is a frame: whatever the outcome, the state moves along [I];
      [yields W P] is the frame [W], with [P] for a run that is [Pending]. *)

From S2P Require Import Prelude.

(** ** [std::io::Error] *)

(** [std::io::ErrorKind]: the kinds the sources name, and the others. *)
Inductive ErrorKind :=
  | UnexpectedEof | ConnectionReset | ConnectionAborted | NotConnected
  | InvalidData | WriteZero | Other | OtherKind (code : Z).

#[export] Instance ErrorKind_eq_dec : EqDecision ErrorKind.
Proof. solve_decision. Defined.

(** A [format!] call, not rendered: its literal pieces and its arguments. *)
Inductive fmt := Lit (s : string) | Num (n : Z) | CharDebug (b : byte).

#[export] Instance fmt_eq_dec : EqDecision fmt.
Proof. solve_decision. Defined.

Record io_error := io_error_new { err_kind : ErrorKind; err_msg : list fmt }.

#[export] Instance io_error_eq_dec : EqDecision io_error.
Proof. solve_decision. Defined.

(** ** [Result] and [Poll] *)

Inductive result (A E : Type) := Ok (a : A) | Err (e : E).
Arguments Ok {_ _} _.
Arguments Err {_ _} _.

Abbreviation io_result A := (result A io_error).

Inductive poll (A : Type) := Pending | Ready (a : A).
Arguments Pending {_}.
Arguments Ready {_} _.

(** ** Synchronous runs *)

Inductive panic :=
  | PAssert (msg : string)   (* assert!, panic!, expect, unwrap *)
  | POverflow                (* integer overflow in a checked build *)
  | PIndex                   (* slice index out of range *)
  | PCapacity                (* Vec capacity overflow *)
  | PUninit.                 (* a read of memory that was never written *)

Inductive exec (A : Type) := Done (a : A) | Panic (p : panic) | NoFuel.
Arguments Done {_} _.
Arguments Panic {_} _.
Arguments NoFuel {_}.

#[export] Instance exec_ret : MRet exec := fun A a => Done a.
#[export] Instance exec_bind : MBind exec := fun A B f m =>
  match m with Done a => f a | Panic p => Panic p | NoFuel => NoFuel end.

Definition assert_ (b : bool) (msg : string) : exec unit :=
  if b then Done tt else Panic (PAssert msg).

(** [Option::expect] and [Option::unwrap]. *)
Definition expect {A} (o : option A) (msg : string) : exec A :=
  match o with Some a => Done a | None => Panic (PAssert msg) end.

(** ** Machine integers: 64-bit [usize] and [u64] *)

Definition u64_max : Z := 2 ^ 64 - 1.
Definition isize_max : Z := 2 ^ 63 - 1.

(** Cargo's [overflow-checks]: on in the dev profile, off in release, where
    arithmetic wraps. *)
Class Profile := { overflow_checks : bool }.

Definition dev : Profile := {| overflow_checks := true |}.
Definition release : Profile := {| overflow_checks := false |}.

Section Arith.
Context {prof : Profile}.

Definition uadd (a b : Z) : exec Z :=
  if a + b <=? u64_max then Done (a + b)
  else if overflow_checks then Panic POverflow else Done ((a + b) `mod` 2 ^ 64).

Definition usub (a b : Z) : exec Z :=
  if b <=? a then Done (a - b)
  else if overflow_checks then Panic POverflow else Done ((a - b) `mod` 2 ^ 64).

Lemma uadd_ok a b : a + b <= u64_max -> uadd a b = Done (a + b).
Proof. intros. unfold uadd. by rewrite (proj2 (Z.leb_le _ _)). Qed.

Lemma usub_ok a b : b <= a -> usub a b = Done (a - b).
Proof. intros. unfold usub. by rewrite (proj2 (Z.leb_le _ _)). Qed.
End Arith.

(** ** Poll functions over a state *)

Definition io (St A : Type) : Type := St -> exec (poll (io_result A) * St).

#[export] Instance io_ret {St} : MRet (io St) := fun A a st => Done (Ready (Ok a), st).

(** Sequencing is [ready!(m)?]: [Pending] and [Err] return early. *)
#[export] Instance io_bind {St} : MBind (io St) := fun A B f m st =>
  match m st with
  | Done (Ready (Ok a), st') => f a st'
  | Done (Ready (Err e), st') => Done (Ready (Err e), st')
  | Done (Pending, st') => Done (Pending, st')
  | Panic p => Panic p
  | NoFuel => NoFuel
  end.

Section Ops.
Context {St : Type}.

Definition io_err {A} (e : io_error) : io St A := fun st => Done (Ready (Err e), st).
Definition io_pending {A} : io St A := fun st => Done (Pending, st).
Definition get : io St St := fun st => Done (Ready (Ok st), st).
Definition modify (f : St -> St) : io St unit := fun st => Done (Ready (Ok tt), f st).

(** A synchronous run inside a poll function. *)
Definition lift {A} (m : exec A) : io St A := fun st => a ← m; Done (Ready (Ok a), st).

(** A call whose [Poll<io::Result<_>>] the caller matches on itself. *)
Definition raw {A} (m : io St A) : io St (poll (io_result A)) := fun st =>
  '(r, st') ← m st; Done (Ready (Ok r), st').

(** [return r]. *)
Definition io_return {A} (r : poll (io_result A)) : io St A := fun st => Done (r, st).

(** [res?] on a result already at hand. *)
Definition io_of {A} (r : io_result A) : io St A := io_return (Ready r).

(** [loop { .. }] with loop-local variables [X]: the body continues with
    [inl x] and breaks with [inr a]. *)
Fixpoint iter {X A} (fuel : nat) (body : X -> io St (X + A)) (x : X) : io St A :=
  match fuel with
  | O => fun _ => NoFuel
  | S fuel' => r ← body x;
      match r with inl x' => iter fuel' body x' | inr a => mret a end
  end.

(** [poll_fn(f).await]: the executor polls again until the result is ready. *)
Fixpoint await {A} (polls : nat) (m : io St A) : io St A := fun st =>
  match polls with
  | O => NoFuel
  | S polls' => '(r, st') ← m st;
      match r with Pending => await polls' m st' | _ => Done (r, st') end
  end.
End Ops.

(** A poll function on one field of a larger state. *)
Definition zoom {St T A} (field : St -> T) (set : T -> St -> St) (m : io T A) : io St A :=
  fun st => '(r, t) ← m (field st); Done (r, set t st).

Abbreviation on_fst := (zoom fst (fun a p => (a, snd p))).
Abbreviation on_snd := (zoom snd (fun b p => (fst p, b))).

(** ** Total correctness *)

Definition ewp {A} (m : exec A) (Q : A -> Prop) : Prop :=
  match m with Done a => Q a | _ => False end.

Definition wp {St A} (m : io St A) (st : St) (Q : poll (io_result A) -> St -> Prop) : Prop :=
  ewp (m st) (fun p => Q p.1 p.2).

(** What remains of a postcondition once the result is known to be passed on
    by an early return. *)
Definition early {St A B} (Q : poll (io_result B) -> St -> Prop)
    (K : A -> St -> Prop) (r : poll (io_result A)) (st : St) : Prop :=
  match r with
  | Ready (Ok a) => K a st
  | Ready (Err e) => Q (Ready (Err e)) st
  | Pending => Q Pending st
  end.

Section EwpRules.
Lemma ewp_mono {A} (m : exec A) (P Q : A -> Prop) :
  ewp m P -> (forall a, P a -> Q a) -> ewp m Q.
Proof. destruct m; simpl; auto. Qed.

Lemma ewp_bind {A B} (m : exec A) (f : A -> exec B) (Q : B -> Prop) :
  ewp m (fun a => ewp (f a) Q) -> ewp (m ≫= f) Q.
Proof. by destruct m. Qed.

Lemma ewp_done {A} (m : exec A) (Q : A -> Prop) : ewp m Q -> exists a, m = Done a /\ Q a.
Proof. destruct m; simpl; [eauto | done | done]. Qed.

Lemma ewp_assert b msg (Q : unit -> Prop) : b = true -> Q tt -> ewp (assert_ b msg) Q.
Proof. intros ->. done. Qed.

Lemma ewp_uadd {prof : Profile} a b (Q : Z -> Prop) :
  a + b <= u64_max -> Q (a + b) -> ewp (uadd a b) Q.
Proof. intros. by rewrite uadd_ok. Qed.

Lemma ewp_usub {prof : Profile} a b (Q : Z -> Prop) :
  b <= a -> Q (a - b) -> ewp (usub a b) Q.
Proof. intros. by rewrite usub_ok. Qed.
End EwpRules.

Section WpRules.
Context {St : Type}.
Implicit Types (st : St).

Lemma wp_mono {A} (m : io St A) st (P Q : poll (io_result A) -> St -> Prop) :
  wp m st P -> (forall r st', P r st' -> Q r st') -> wp m st Q.
Proof. unfold wp. intros H ?. eapply ewp_mono; [apply H | auto]. Qed.

Lemma wp_ret {A} (a : A) st Q : Q (Ready (Ok a)) st -> wp (mret a) st Q.
Proof. done. Qed.

Lemma wp_bind {A B} (m : io St A) (f : A -> io St B) st Q :
  wp m st (early Q (fun a st' => wp (f a) st' Q)) -> wp (m ≫= f) st Q.
Proof.
  unfold wp, mbind, io_bind. destruct (m st) as [[[|[a|e]] st']|p|]; simpl; auto.
Qed.

Lemma wp_assoc {A B C} (m : io St A) (f : A -> io St B) (g : B -> io St C) st Q :
  wp ((m ≫= f) ≫= g) st Q -> wp (m ≫= fun a => f a ≫= g) st Q.
Proof. unfold wp, mbind, io_bind. by destruct (m st) as [[[|[a|e]] st']|p|]. Qed.

Lemma wp_err {A} e st (Q : poll (io_result A) -> St -> Prop) :
  Q (Ready (Err e)) st -> wp (io_err e) st Q.
Proof. done. Qed.

Lemma wp_pending {A} st (Q : poll (io_result A) -> St -> Prop) : Q Pending st -> wp io_pending st Q.
Proof. done. Qed.

Lemma wp_return {A} r st (Q : poll (io_result A) -> St -> Prop) : Q r st -> wp (io_return r) st Q.
Proof. done. Qed.

Lemma wp_of {A} r st (Q : poll (io_result A) -> St -> Prop) : Q (Ready r) st -> wp (io_of r) st Q.
Proof. done. Qed.

Lemma wp_get st Q : Q (Ready (Ok st)) st -> wp get st Q.
Proof. done. Qed.

Lemma wp_modify f st Q : Q (Ready (Ok tt)) (f st) -> wp (modify f) st Q.
Proof. done. Qed.

Lemma wp_lift {A} (m : exec A) st (Q : poll (io_result A) -> St -> Prop) :
  ewp m (fun a => Q (Ready (Ok a)) st) -> wp (lift m) st Q.
Proof. unfold wp, lift. by destruct m. Qed.

Lemma wp_raw {A} (m : io St A) st Q :
  wp m st (fun r st' => Q (Ready (Ok r)) st') -> wp (raw m) st Q.
Proof. unfold wp, raw. by destruct (m st) as [[]| |]. Qed.

Lemma wp_zoom {T A} (field : St -> T) set (m : io T A) st Q :
  wp m (field st) (fun r t => Q r (set t st)) -> wp (zoom field set m) st Q.
Proof. unfold wp, zoom. by destruct (m (field st)) as [[]| |]. Qed.

(** A loop whose body lowers a measure at every turn it continues ends within
    that much fuel. *)
Lemma wp_iter {X A} (I : X -> St -> Prop) (mu : X -> St -> nat)
    (body : X -> io St (X + A)) Q fuel x st :
  (forall x st, I x st ->
     wp (body x) st (early Q (fun c st' =>
       match c with
       | inl x' => I x' st' /\ (mu x' st' < mu x st)%nat
       | inr a => Q (Ready (Ok a)) st'
       end))) ->
  I x st -> (mu x st < fuel)%nat -> wp (iter fuel body x) st Q.
Proof.
  intros Hbody. revert x st. induction fuel as [|fuel IH]; intros x st HI Hmu; [lia|].
  simpl. apply wp_bind. eapply wp_mono; [by apply Hbody|].
  intros [|[[x'|a]|e]] st'; simpl; auto.
  intros [HI' Hlt]. apply IH; [done | lia].
Qed.

(** Awaiting ends when every [Pending] lowers a measure. *)
Lemma wp_await {A} (I : St -> Prop) (mu : St -> nat) (m : io St A) Q polls st :
  (forall st, I st -> wp m st (fun r st' =>
     match r with Pending => I st' /\ (mu st' < mu st)%nat | _ => Q r st' end)) ->
  I st -> (mu st < polls)%nat -> wp (await polls m) st Q.
Proof.
  intros Hm. revert st. induction polls as [|polls IH]; intros st HI Hmu; [lia|].
  specialize (Hm st HI) as Hst. unfold wp in *. simpl.
  apply ewp_done in Hst as ([r st'] & -> & Hr). simpl in *.
  destruct r as [|r]; [|done]. apply IH; [apply Hr | lia].
Qed.

(** Fuel is only a bound: a loop that finishes with some fuel gives the same
    result with more. *)
Lemma iter_fuel_mono {X A} (body : X -> io St (X + A)) f1 f2 x st p :
  (f1 <= f2)%nat -> iter f1 body x st = Done p -> iter f2 body x st = Done p.
Proof.
  revert f2 x st. induction f1 as [|f1 IH]; intros [|f2] x st Hle; simpl; try done; [lia|].
  unfold mbind, io_bind. destruct (body x st) as [[[|[[x'|a]|e]] st']| |]; try done.
  apply IH. lia.
Qed.
End WpRules.

(** ** Total correctness up to some panics *)

Definition swp {St A} (P : panic -> Prop) (m : io St A) (st : St)
    (Q : poll (io_result A) -> St -> Prop) : Prop :=
  match m st with Done p => Q p.1 p.2 | Panic p => P p | NoFuel => False end.

Section SwpRules.
Context {St : Type} (P : panic -> Prop).
Implicit Types (st : St).

Lemma swp_of_wp {A} (m : io St A) st Q : wp m st Q -> swp P m st Q.
Proof. unfold wp, swp. by destruct (m st). Qed.

Lemma swp_mono {A} (m : io St A) st (Q Q' : poll (io_result A) -> St -> Prop) :
  swp P m st Q -> (forall r st', Q r st' -> Q' r st') -> swp P m st Q'.
Proof. unfold swp. destruct (m st) as [[r st']|p|]; auto. Qed.

Lemma swp_bind {A B} (m : io St A) (f : A -> io St B) st Q :
  swp P m st (early Q (fun a st' => swp P (f a) st' Q)) -> swp P (m ≫= f) st Q.
Proof.
  unfold swp, mbind, io_bind. destruct (m st) as [[[|[a|e]] st']|p|]; simpl; auto.
Qed.

Lemma swp_raw {A} (m : io St A) st Q :
  swp P m st (fun r st' => Q (Ready (Ok r)) st') -> swp P (raw m) st Q.
Proof. unfold swp, raw. by destruct (m st) as [[]| |]. Qed.

Lemma swp_lift {A} (m : exec A) st (Q : poll (io_result A) -> St -> Prop) :
  match m with Done a => Q (Ready (Ok a)) st | Panic p => P p | NoFuel => False end ->
  swp P (lift m) st Q.
Proof. unfold swp, lift. by destruct m. Qed.

Lemma swp_zoom {T A} (field : St -> T) set (m : io T A) st Q :
  swp P m (field st) (fun r t => Q r (set t st)) -> swp P (zoom field set m) st Q.
Proof. unfold swp, zoom. by destruct (m (field st)) as [[]| |]. Qed.

Lemma swp_iter {X A} (I : X -> St -> Prop) (mu : X -> St -> nat)
    (body : X -> io St (X + A)) Q fuel x st :
  (forall x st, I x st ->
     swp P (body x) st (early Q (fun c st' =>
       match c with
       | inl x' => I x' st' /\ (mu x' st' < mu x st)%nat
       | inr a => Q (Ready (Ok a)) st'
       end))) ->
  I x st -> (mu x st < fuel)%nat -> swp P (iter fuel body x) st Q.
Proof.
  intros Hbody. revert x st. induction fuel as [|fuel IH]; intros x st HI Hmu; [lia|].
  simpl. apply swp_bind. eapply swp_mono; [by apply Hbody|].
  intros [|[[x'|a]|e]] st'; simpl; auto.
  intros [HI' Hlt]. apply IH; [done | lia].
Qed.
End SwpRules.

(** ** Frames *)

Definition keeps {St A} (I : St -> St -> Prop) (m : io St A) : Prop :=
  forall st r st', m st = Done (r, st') -> I st st'.

Section Keeps.
Context {St : Type} (I : St -> St -> Prop) `{!PreOrder I}.

Lemma keeps_ret {A} (a : A) : keeps I (mret a).
Proof. by intros st r st' [= <- <-]. Qed.

Lemma keeps_return {A} (r : poll (io_result A)) : keeps I (io_return r).
Proof. by intros st r' st' [= <- <-]. Qed.

Lemma keeps_err {A} e : keeps I (io_err (A := A) e).
Proof. by intros st r st' [= <- <-]. Qed.

Lemma keeps_pending {A} : keeps I (io_pending (A := A)).
Proof. by intros st r st' [= <- <-]. Qed.

Lemma keeps_get : keeps I get.
Proof. by intros st r st' [= <- <-]. Qed.

Lemma keeps_modify f : (forall st, I st (f st)) -> keeps I (modify f).
Proof. by intros Hf st r st' [= <- <-]. Qed.

Lemma keeps_lift {A} (m : exec A) : keeps I (lift m).
Proof. intros st r st'. unfold lift. destruct m; by intros [= <- <-]. Qed.

Lemma keeps_raw {A} (m : io St A) : keeps I m -> keeps I (raw m).
Proof.
  intros Hm st r st'. unfold raw. destruct (m st) as [[r1 st1]| |] eqn:E; [|done..].
  intros [= <- <-]. by eapply Hm.
Qed.

Lemma keeps_bind {A B} (m : io St A) (f : A -> io St B) :
  keeps I m -> (forall a, keeps I (f a)) -> keeps I (m ≫= f).
Proof.
  intros Hm Hf st r st'. unfold mbind, io_bind.
  destruct (m st) as [[[|[a|e]] st1]| |] eqn:E; try done.
  - intros [= <- <-]. by eapply Hm.
  - intros E2. transitivity st1; [by eapply Hm | by eapply Hf].
  - intros [= <- <-]. by eapply Hm.
Qed.

Lemma keeps_iter {X A} fuel (body : X -> io St (X + A)) x :
  (forall x, keeps I (body x)) -> keeps I (iter fuel body x).
Proof.
  intros Hb. revert x. induction fuel as [|fuel IH]; intros x; [done|].
  simpl. apply keeps_bind; [done|]. intros [x'|a]; [apply IH | apply keeps_ret].
Qed.

Lemma keeps_zoom {T A} (J : T -> T -> Prop) (field : St -> T) set (m : io T A) :
  (forall st t, J (field st) t -> I st (set t st)) -> keeps J m -> keeps I (zoom field set m).
Proof.
  intros Hs Hm st r st'. unfold zoom. destruct (m (field st)) as [[r1 t]| |] eqn:E; [|done..].
  intros [= <- <-]. apply Hs. by eapply Hm.
Qed.

(** A frame holds at the end of a run. *)
Lemma wp_keeps {A} (m : io St A) st Q :
  keeps I m -> wp m st Q -> wp m st (fun r st' => Q r st' /\ I st st').
Proof.
  unfold wp. intros Hm Hq. destruct (m st) as [[r st']| |] eqn:E; [|done..]. split; [done|].
  by eapply Hm.
Qed.
End Keeps.

(** On pairs: only the second component is framed. *)
Definition snd_rel {A B} (I : B -> B -> Prop) (p q : A * B) : Prop := I (snd p) (snd q).

#[export] Instance snd_rel_preorder {A B} (I : B -> B -> Prop) : PreOrder I -> PreOrder (snd_rel (A := A) I).
Proof. intros [Hr Ht]. split; unfold snd_rel; [by intros ? | intros p q r; apply Ht]. Qed.

Definition fst_rel {A B} (I : A -> A -> Prop) (p q : A * B) : Prop := I (fst p) (fst q).

#[export] Instance fst_rel_preorder {A B} (I : A -> A -> Prop) : PreOrder I -> PreOrder (fst_rel (B := B) I).
Proof. intros [Hr Ht]. split; unfold fst_rel; [by intros ? | intros p q r; apply Ht]. Qed.

Lemma keeps_on_fst {A B C} (I : B -> B -> Prop) `{!PreOrder I} (m : io A C) : keeps (snd_rel I) (on_fst m).
Proof. apply (keeps_zoom _ (fun _ _ => True)); [|done]. intros [a b] a' _. unfold snd_rel. simpl. reflexivity. Qed.

Lemma keeps_on_snd {A B C} (I : B -> B -> Prop) (m : io B C) :
  keeps I m -> keeps (snd_rel (A := A) I) (on_snd m).
Proof. by apply keeps_zoom. Qed.

(** Runs, step by step. *)
Lemma run_bind {St A B} (m : io St A) (f : A -> io St B) st a st' :
  m st = Done (Ready (Ok a), st') -> (m ≫= f) st = f a st'.
Proof. unfold mbind, io_bind. by intros ->. Qed.

Lemma run_bind_pending {St A B} (m : io St A) (f : A -> io St B) st st' :
  m st = Done (Pending, st') -> (m ≫= f) st = Done (Pending, st').
Proof. unfold mbind, io_bind. by intros ->. Qed.

Lemma run_raw {St A} (m : io St A) st r st' : m st = Done (r, st') -> raw m st = Done (Ready (Ok r), st').
Proof. unfold raw. by intros ->. Qed.

Lemma run_zoom {St T A} (field : St -> T) set (m : io T A) st r t :
  m (field st) = Done (r, t) -> zoom field set m st = Done (r, set t st).
Proof. unfold zoom. by intros ->. Qed.

Lemma bind_done {St A B} (m : io St A) (f : A -> io St B) st r st' : (m ≫= f) st = Done (r, st') ->
  exists r1 st1, m st = Done (r1, st1) /\
    match r1 with Ready (Ok a) => f a st1 = Done (r, st') | _ => st' = st1 end.
Proof.
  unfold mbind, io_bind. destruct (m st) as [[r1 st1]| |]; try done. intros E. exists r1, st1. split; [done|].
  destruct r1 as [|[a|e]]; congruence.
Qed.

Lemma bind_ok {St A B} (m : io St A) (f : A -> io St B) st b st' : (m ≫= f) st = Done (Ready (Ok b), st') ->
  exists a st1, m st = Done (Ready (Ok a), st1) /\ f a st1 = Done (Ready (Ok b), st').
Proof.
  unfold mbind, io_bind. destruct (m st) as [[[|[a|e]] st1]| |]; try done. intros E. by exists a, st1.
Qed.

Create HintDb keeps discriminated.

Ltac keeps_step :=
  lazymatch goal with
  | |- keeps _ (_ ≫= _) => apply keeps_bind; [exact _| |intros ?]
  | |- keeps _ (mret _) => apply keeps_ret; exact _
  | |- keeps _ (io_err _) => apply keeps_err; exact _
  | |- keeps _ io_pending => apply keeps_pending; exact _
  | |- keeps _ (io_return _) => apply keeps_return; exact _
  | |- keeps _ (io_of _) => apply keeps_return; exact _
  | |- keeps _ get => apply keeps_get; exact _
  | |- keeps _ (lift _) => apply keeps_lift; exact _
  | |- keeps _ (raw _) => apply keeps_raw
  | |- keeps _ (iter _ _ _) => apply keeps_iter; [exact _|intros ?]
  | |- keeps _ (match ?x with _ => _ end) => destruct x
  | |- keeps (snd_rel _) (zoom fst _ _) => apply keeps_on_fst; exact _
  | |- keeps (snd_rel _) (zoom snd _ _) => apply keeps_on_snd
  | |- keeps _ (let _ := _ in _) => cbv zeta
  end.
Ltac keeps_tac := repeat first [progress keeps_step | solve [eauto 3 with keeps]].

(** ** What being [Pending] costs *)

(** Every run is framed by [W], and those that are [Pending] by the stronger
    [P], which no step before them can spoil. *)
Definition yields {St A} (W P : St -> St -> Prop) (m : io St A) : Prop :=
  forall st r st', m st = Done (r, st') -> W st st' /\ (r = Pending -> P st st').

Section Yields.
Context {St : Type} (W P : St -> St -> Prop) `{!PreOrder W}.
Context (HP : forall a b c, W a b -> P b c -> P a c).

Lemma yields_keeps {A} (m : io St A) : yields W P m -> keeps W m.
Proof. intros Hm st r st' E. by eapply Hm. Qed.

Lemma yields_ready {A} (m : io St A) : keeps W m -> (forall st st', m st <> Done (Pending, st')) -> yields W P m.
Proof. intros Hk Hn st r st' E. split; [by eapply Hk|]. intros ->. by destruct (Hn st st'). Qed.

Lemma yields_ret {A} (a : A) : yields W P (mret a).
Proof. by apply yields_ready; [apply keeps_ret|]. Qed.

Lemma yields_return {A} (v : io_result A) : yields W P (io_of v).
Proof. by apply yields_ready; [apply keeps_return|]. Qed.

Lemma yields_err {A} e : yields W P (io_err (A := A) e).
Proof. by apply yields_ready; [apply keeps_err|]. Qed.

Lemma yields_get : yields W P get.
Proof. by apply yields_ready; [apply keeps_get|]. Qed.

Lemma yields_modify f : (forall st, W st (f st)) -> yields W P (modify f).
Proof. intros Hf. by apply yields_ready; [apply keeps_modify|]. Qed.

Lemma yields_lift {A} (m : exec A) : yields W P (lift m).
Proof. apply yields_ready; [by apply keeps_lift|]. intros st st'. unfold lift. by destruct m. Qed.

Lemma yields_bind {A B} (m : io St A) (f : A -> io St B) :
  yields W P m -> (forall a, yields W P (f a)) -> yields W P (m ≫= f).
Proof.
  intros Hm Hf st r st'. unfold mbind, io_bind. destruct (m st) as [[r1 st1]| |] eqn:E; [|done..].
  destruct (Hm _ _ _ E) as [H1 H2]. destruct r1 as [|[a|e]].
  - intros [= <- <-]. auto.
  - intros E1. destruct (Hf a _ _ _ E1) as [H3 H4]. split; [by etransitivity|]. intros Hp. eapply HP; [exact H1|by apply H4].
  - by intros [= <- <-].
Qed.

Lemma yields_iter {X A} fuel (body : X -> io St (X + A)) x :
  (forall x, yields W P (body x)) -> yields W P (iter fuel body x).
Proof.
  intros Hb. revert x. induction fuel as [|fuel IH]; intros x; [done|].
  simpl. apply yields_bind; [done|]. intros [x'|a]; [apply IH | apply yields_ret].
Qed.

(** A call whose result is matched on: [Pending] is passed on by hand. *)
Lemma yields_raw {A B} (P' : St -> St -> Prop) (m : io St A) (f : poll (io_result A) -> io St B) :
  yields W P' m ->
  (forall st st1 r st', W st st1 -> P' st st1 -> f Pending st1 = Done (r, st') -> W st st' /\ P st st') ->
  (forall v, yields W P (f (Ready v))) -> yields W P (raw m ≫= f).
Proof.
  intros Hm Hp Hf st r st'. unfold mbind, io_bind, raw.
  destruct (m st) as [[r1 st1]| |] eqn:E; simpl; [|done..]. destruct (Hm _ _ _ E) as [H1 H2]. destruct r1 as [|v].
  - intros E1. destruct (Hp st st1 r st' H1 (H2 eq_refl) E1). by split.
  - intros E1. destruct (Hf v _ _ _ E1) as [H3 H4]. split; [by etransitivity|]. intros Hr. eapply HP; [exact H1|by apply H4].
Qed.

Lemma yields_zoom {T A} (W' P' : T -> T -> Prop) (field : St -> T) set (m : io T A) :
  (forall st t, W' (field st) t -> W st (set t st)) -> (forall st t, P' (field st) t -> P st (set t st)) ->
  yields W' P' m -> yields W P (zoom field set m).
Proof.
  intros Hw Hs Hm st r st'. unfold zoom. destruct (m (field st)) as [[r1 t]| |] eqn:E; [|done..].
  intros [= <- <-]. destruct (Hm _ _ _ E) as [H1 H2]. split; [by apply Hw|]. intros Hp. by apply Hs, H2.
Qed.

(** With a total correctness result. *)
Lemma wp_yields {A} (m : io St A) st Q :
  yields W P m -> wp m st Q -> wp m st (fun r st' => Q r st' /\ W st st' /\ (r = Pending -> P st st')).
Proof.
  unfold wp. intros Hm Hq. destruct (m st) as [[r st']| |] eqn:E; [|done..]. split; [done|]. by apply Hm.
Qed.
End Yields.

Create HintDb yields discriminated.

Ltac yields_step :=
  lazymatch goal with
  | |- yields _ _ (raw _ ≫= _) => fail
  | |- yields _ _ (_ ≫= _) => apply yields_bind; [exact _|solve [eauto 2 with yields]| |intros ?]
  | |- yields _ _ (mret _) => apply yields_ret; exact _
  | |- yields _ _ (io_err _) => apply yields_err; exact _
  | |- yields _ _ (io_return (Ready _)) => apply yields_return; exact _
  | |- yields _ _ (io_of _) => apply yields_return; exact _
  | |- yields _ _ get => apply yields_get; exact _
  | |- yields _ _ (lift _) => apply yields_lift; exact _
  | |- yields _ _ (iter _ _ _) => apply yields_iter; [exact _|solve [eauto 2 with yields]|intros ?]
  | |- yields _ _ (match ?x with _ => _ end) => destruct x
  | |- yields _ _ (let _ := _ in _) => cbv zeta
  end.
Ltac yields_tac := repeat first [solve [eauto 3 with yields] | progress yields_step].

(** ** Automation: one step of a poll function at a time *)

Ltac wp_step :=
  lazymatch goal with
  | |- wp (_ ≫= _) _ _ => apply wp_bind
  | |- wp (mret _) _ _ => apply wp_ret
  | |- wp (io_err _) _ _ => apply wp_err
  | |- wp io_pending _ _ => apply wp_pending
  | |- wp (io_return _) _ _ => apply wp_return
  | |- wp (io_of _) _ _ => apply wp_of
  | |- wp get _ _ => apply wp_get
  | |- wp (modify _) _ _ => apply wp_modify
  | |- wp (lift _) _ _ => apply wp_lift
  | |- wp (raw _) _ _ => apply wp_raw
  | |- wp (zoom _ _ _) _ _ => apply wp_zoom
  | |- early _ _ _ _ => progress (unfold early; cbn beta iota)
  | |- ewp (Done _) _ => simpl
  | |- ewp (_ ≫= _) _ => apply ewp_bind
  | |- ewp (assert_ _ _) _ => apply ewp_assert
  | |- ewp (uadd _ _) _ => apply ewp_uadd; [by unfold isize_max, u64_max in *; lia|]
  | |- ewp (usub _ _) _ => apply ewp_usub; [lia|]
  end.
Ltac wp_steps := repeat wp_step; cbn [fst snd].

(** Case analysis on what the code branches on. *)
Ltac wp_case :=
  match goal with
  | |- wp (match ?r with _ => _ end) _ _ => destruct r eqn:?
  | |- early _ _ ?r _ => destruct r as [|[?|?]]; simpl
  end.
