(* ===== verification/Std_text.v ===== *)
(** * Text in the standard library

    The parts of [core::str], [core::num] and [core::fmt] that the sources
    call on header values and chunk sizes: [from_str_radix], [str::parse] for
    unsigned integers, [trim], [contains], and the formatting of integers in
    a radix.  A [str] is its UTF-8 bytes. *)

From S2P Require Import Prelude.
From S2P Require Import Async.

Definition byte_val (c : byte) : Z := Z.of_N (Byte.to_N c).

(** [char::to_digit]. *)
Definition to_digit (radix : Z) (c : byte) : option Z :=
  let n := byte_val c in
  let d := if (48 <=? n) && (n <=? 57) then n - 48
           else if (97 <=? n) && (n <=? 122) then n - 87
           else if (65 <=? n) && (n <=? 90) then n - 55
           else radix in
  if d <? radix then Some d else None.

(** [char::from_digit], lower case. *)
Definition from_digit (d : Z) : byte :=
  default Byte.x00 (Byte.of_N (Z.to_N (if d <? 10 then 48 + d else 87 + d))).

(** The digits after [acc], with the overflow check of 64-bit parsing. *)
Fixpoint parse_digits (radix acc : Z) (l : bytes) : option Z :=
  match l with
  | [] => Some acc
  | c :: l' =>
      d ← to_digit radix c;
      let acc' := acc * radix + d in
      if acc' <=? u64_max then parse_digits radix acc' l' else None
  end.

(** [u64::from_str_radix] and [usize::from_str_radix]: a leading [+] is
    accepted, an empty number is not. *)
Definition from_str_radix (radix : Z) (s : bytes) : option Z :=
  match s with
  | [] => None
  | c :: l =>
      if Byte.eqb c "+"%byte then
        match l with [] => None | _ => parse_digits radix 0 l end
      else parse_digits radix 0 s
  end.

(** [str::parse::<u64>]. *)
Definition parse_u64 (s : bytes) : option Z := from_str_radix 10 s.

(** [str::trim] on ASCII text. *)
Definition is_whitespace (c : byte) : bool :=
  let n := byte_val c in ((9 <=? n) && (n <=? 13)) || (n =? 32).

Fixpoint trim_start (s : bytes) : bytes :=
  match s with
  | c :: l => if is_whitespace c then trim_start l else s
  | [] => []
  end.

Definition trim (s : bytes) : bytes := reverse (trim_start (reverse (trim_start s))).

(** [str::contains]. *)
Fixpoint is_prefix (p s : bytes) : bool :=
  match p, s with
  | [], _ => true
  | a :: p', b :: s' => Byte.eqb a b && is_prefix p' s'
  | _ :: _, [] => false
  end.

Fixpoint contains (p s : bytes) : bool :=
  is_prefix p s || match s with [] => false | _ :: s' => contains p s' end.

(** Formatting in a radix, without leading zeros; 64 digits are enough for a
    64-bit integer in any radix. *)
Fixpoint fmt_digits (fuel : nat) (radix n : Z) (acc : bytes) : bytes :=
  match fuel with
  | O => acc
  | S fuel' =>
      let acc' := from_digit (n `mod` radix) :: acc in
      if n / radix =? 0 then acc' else fmt_digits fuel' radix (n / radix) acc'
  end.

(** [{}] and [{:x}]. *)
Definition fmt_dec (n : Z) : bytes := fmt_digits 64 10 n [].
Definition fmt_hex (n : Z) : bytes := fmt_digits 64 16 n [].

(** ** Facts *)

Lemma byte_eqb_spec (a b : byte) : reflect (a = b) (Byte.eqb a b).
Proof.
  destruct (Byte.eqb a b) eqn:E; constructor.
  - by apply Byte.byte_dec_bl.
  - intros ->. by rewrite (Byte.byte_dec_lb eq_refl) in E.
Qed.

Lemma byte_eqb_refl (a : byte) : Byte.eqb a a = true.
Proof. by destruct (byte_eqb_spec a a). Qed.

Lemma byte_eqb_ne (a b : byte) : a <> b -> Byte.eqb a b = false.
Proof. by destruct (byte_eqb_spec a b). Qed.

(** A fact about every byte is checked by running it on all of them. *)
Definition all_bytes (P : byte -> bool) : bool :=
  forallb (fun n => match Byte.of_N (N.of_nat n) with Some b => P b | None => true end) (seq 0 256).

Lemma all_bytes_spec P : all_bytes P = true -> forall b, P b = true.
Proof.
  unfold all_bytes. rewrite forallb_forall. intros Hall b.
  specialize (Hall (N.to_nat (Byte.to_N b))). rewrite N2Nat.id, Byte.of_to_N in Hall.
  apply Hall. apply List.in_seq. pose proof (Byte.to_N_bounded b). lia.
Qed.

Lemma to_digit_range radix c d : 0 <= radix -> to_digit radix c = Some d -> 0 <= d < radix.
Proof.
  intros Hr. unfold to_digit. set (n := byte_val c).
  assert (0 <= n) by (unfold n, byte_val; lia).
  repeat match goal with |- context [if ?b then _ else _] => destruct b eqn:? end;
    intros [= <-]; lia.
Qed.

Lemma to_from_digit radix d : 0 <= d < radix -> radix <= 16 -> to_digit radix (from_digit d) = Some d.
Proof.
  intros Hd Hr.
  assert (to_digit 16 (from_digit d) = Some d) as E.
  { assert (d = 0 \/ d = 1 \/ d = 2 \/ d = 3 \/ d = 4 \/ d = 5 \/ d = 6 \/ d = 7 \/ d = 8 \/ d = 9
      \/ d = 10 \/ d = 11 \/ d = 12 \/ d = 13 \/ d = 14 \/ d = 15) as Hc by lia.
    repeat (destruct Hc as [->|Hc]; [reflexivity|]). by subst d. }
  revert E. unfold to_digit. generalize (byte_val (from_digit d)). intros n.
  repeat match goal with |- context [if ?b then _ else _] => destruct b eqn:? end;
    intros [= <-]; try done; f_equal; lia.
Qed.

Lemma parse_digits_app radix a l k :
  parse_digits radix a (l ++ k) = a' ← parse_digits radix a l; parse_digits radix a' k.
Proof.
  revert a. induction l as [|c l IH]; intros a; simpl; [done|].
  destruct (to_digit radix c); simpl; [|done]. case_match; [apply IH | done].
Qed.

(** Formatting gives digits that parse back, at most [k] of them. *)
Lemma fmt_digits_parse fuel radix n acc : 2 <= radix <= 16 -> 0 <= n <= u64_max ->
  n < radix ^ Z.of_nat fuel -> (0 < fuel)%nat ->
  exists ds, fmt_digits fuel radix n acc = ds ++ acc /\ parse_digits radix 0 ds = Some n /\
    Forall (fun c => is_Some (to_digit radix c)) ds /\ ds <> [] /\
    (forall k, 0 < k -> n < radix ^ k -> zlen ds <= k).
Proof.
  intros Hr. revert n acc. induction fuel as [|fuel IH]; intros n acc Hn Hlt Hf; [lia|]. simpl.
  assert (Hmod : 0 <= n `mod` radix < radix) by (apply Z.mod_pos_bound; lia).
  assert (Hdig : to_digit radix (from_digit (n `mod` radix)) = Some (n `mod` radix))
    by (apply to_from_digit; lia).
  pose proof (Z.div_mod n radix). destruct (Z.eqb_spec (n / radix) 0) as [E|E].
  - exists [from_digit (n `mod` radix)]. split; [done|]. simpl. rewrite Hdig. simpl.
    rewrite (proj2 (Z.leb_le _ _)) by lia. split_and!; [f_equal; lia|by constructor|done|].
    intros k Hk _. rewrite zlen_cons, zlen_nil. lia.
  - assert (0 < n / radix) by (pose proof (Z.div_pos n radix); lia).
    assert (n / radix <= n) by (apply Z.div_le_upper_bound; nia).
    rewrite Nat2Z.inj_succ, Z.pow_succ_r in Hlt by lia.
    assert (n / radix < radix ^ Z.of_nat fuel) by (apply Z.div_lt_upper_bound; lia).
    assert (0 < fuel)%nat by (destruct fuel; [simpl in *; lia | lia]).
    destruct (IH (n / radix) (from_digit (n `mod` radix) :: acc)) as (ds & -> & Hp & Hall & Hne & Hk);
      try lia.
    exists (ds ++ [from_digit (n `mod` radix)]). rewrite <- app_assoc. split; [done|].
    rewrite parse_digits_app, Hp. simpl. rewrite Hdig. simpl.
    replace (n / radix * radix + n `mod` radix) with n by lia.
    rewrite (proj2 (Z.leb_le _ _)) by lia. split_and!; [done| |by destruct ds|].
    + apply Forall_app. split; [done|]. by constructor.
    + intros k Hk0 Hlt'. rewrite zlen_app, zlen_cons, zlen_nil.
      destruct (Z.eq_dec k 1) as [->|]; [rewrite Z.pow_1_r in Hlt'; rewrite Z.div_small in E; lia|].
      enough (zlen ds <= k - 1) by lia. apply Hk; [lia|].
      apply Z.div_lt_upper_bound; [lia|]. rewrite <- Z.pow_succ_r by lia.
      by replace (Z.succ (k - 1)) with k by lia.
Qed.

(** A number whose digits are [l] is below [radix ^ |l|]. *)
Lemma parse_digits_max radix a l n : a <= u64_max -> parse_digits radix a l = Some n -> n <= u64_max.
Proof.
  revert a. induction l as [|c l IH]; intros a Ha; simpl; [by intros [= <-]|].
  destruct (to_digit radix c) as [d|]; [|done]. simpl.
  destruct (Z.leb_spec (a * radix + d) u64_max); [by apply IH|done].
Qed.

Lemma parse_digits_bound radix a l n : 2 <= radix -> 0 <= a -> parse_digits radix a l = Some n ->
  0 <= n < (a + 1) * radix ^ zlen l.
Proof.
  intros Hr. revert a. induction l as [|c l IH]; intros a Ha; simpl.
  - intros [= <-]. change (zlen (@nil byte)) with 0. rewrite Z.pow_0_r. lia.
  - destruct (to_digit radix c) as [d|] eqn:E; simpl; [|done].
    apply to_digit_range in E; [|lia]. case_match; [|done]. intros Hp%IH; [|nia].
    pose proof (zlen_nonneg l). rewrite zlen_cons, Z.pow_add_r, Z.pow_1_r by lia.
    assert (0 < radix ^ zlen l) by (apply Z.pow_pos_nonneg; lia). nia.
Qed.

(** Digits few enough not to overflow always parse. *)
Lemma parse_u64_range s n : parse_u64 s = Some n -> 0 <= n <= u64_max.
Proof.
  assert (forall l, parse_digits 10 0 l = Some n -> 0 <= n <= u64_max).
  { intros l Hl. split; [apply parse_digits_bound in Hl; lia|]. eapply parse_digits_max; [|done]. done. }
  unfold parse_u64, from_str_radix. destruct s as [|c l]; [done|].
  case_match; [destruct l; [done|]|]; eauto.
Qed.

Lemma parse_digits_total radix l a : 2 <= radix -> 0 <= a ->
  (a + 1) * radix ^ zlen l <= u64_max + 1 ->
  Forall (fun c => is_Some (to_digit radix c)) l -> is_Some (parse_digits radix a l).
Proof.
  intros Hr. revert a. induction l as [|c l IH]; intros a Ha Hb Hall; [done|].
  apply Forall_cons_1 in Hall as [[d E] Hall]. simpl. rewrite E. simpl.
  apply to_digit_range in E; [|lia].
  pose proof (zlen_nonneg l). rewrite zlen_cons, Z.pow_add_r, Z.pow_1_r in Hb by lia.
  assert (0 < radix ^ zlen l) by (apply Z.pow_pos_nonneg; lia).
  rewrite (proj2 (Z.leb_le _ _)) by nia. apply IH; [nia|nia|done].
Qed.
