(* ===== verification/Fast_buf.v ===== *)
(** * Buffers (src/fast_buf.rs)

    [Vec] is a [Vec<u8>] whose memory may be uninitialised: a cell that was
    never written reads as [None], and so does a cell that [set_len] exposes.
    [ConsumeBuf] is a buffer with a moving read pointer; [FastBuf] resizes
    without zeroing, through the guard [FastBufRef], whose drop sets the
    length back.  The lemmas show that the guard never leaves an unwritten
    cell inside the buffer's length. *)

From S2P Require Import Prelude.
From S2P Require Import Async.

Definition MAX_CAPACITY : Z := 10 * 1024 * 1024.

(** ** [Vec<u8>] *)

Module Vec.
Record t := mk { data : list (option byte); cap : Z }.

Definition len (v : t) : Z := zlen (data v).

Definition with_capacity (capacity : Z) : exec t :=
  if capacity <=? isize_max then Done (mk [] capacity) else Panic PCapacity.

(** [Vec::reserve]: nothing when the spare capacity is enough, else the
    amortised growth of the standard library. *)
Definition reserve (additional : Z) (v : t) : exec t :=
  if additional <=? cap v - len v then Done v
  else
    let new_cap := 8 `max` ((cap v * 2) `max` (len v + additional)) in
    if new_cap <=? isize_max then Done (mk (data v) new_cap) else Panic PCapacity.

(** [Vec::set_len] (unsafe): cells past the old length are not initialised. *)
Definition set_len (n : Z) (v : t) : t :=
  mk (ztake n (data v) ++ replicate (Z.to_nat (n - len v)) None) (cap v).

(** Reading the vector as bytes. *)
Fixpoint init (cells : list (option byte)) : exec bytes :=
  match cells with
  | [] => Done []
  | Some b :: rest => l ← init rest; Done (b :: l)
  | None :: _ => Panic PUninit
  end.

(** Writing [src] at [pos], as much as fits in the length. *)
Definition write_at (pos : Z) (src : bytes) (v : t) : t :=
  let src := ztake (len v - pos) src in
  mk (ztake pos (data v) ++ (Some <$> src) ++ zdrop (pos + zlen src) (data v)) (cap v).

(** [holds v c]: the vector is exactly the initialised bytes [c]. *)
Definition holds (v : t) (c : bytes) : Prop := data v = Some <$> c.

Definition wf (v : t) : Prop := len v <= cap v <= isize_max.

Lemma init_holds v c : holds v c -> init (data v) = Done c.
Proof.
  unfold holds. intros ->. induction c as [|b c IH]; [done|].
  simpl. change (list_fmap _ _ Some c) with (Some <$> c). by rewrite IH.
Qed.

Lemma init_inv cells c : init cells = Done c -> cells = Some <$> c.
Proof.
  revert c. induction cells as [|[b|] cells IH]; intros c; simpl; [by intros [= <-]| |done].
  destruct (init cells) eqn:E; simpl; try done. intros [= <-]. by rewrite (IH _ eq_refl).
Qed.

Lemma holds_len v c : holds v c -> len v = zlen c.
Proof. unfold holds, len. intros ->. by rewrite zlen_fmap. Qed.

Lemma len_set_len n v : 0 <= n -> len (set_len n v) = n.
Proof. intros. unfold set_len, len. simpl. rewrite zlen_app, zlen_ztake, zlen_replicate; zlia. Qed.

Lemma set_len_shrink_holds n v c d :
  n = zlen c -> data v = (Some <$> c) ++ d -> holds (set_len n v) c.
Proof.
  intros -> E. unfold holds, set_len. simpl. rewrite E.
  assert (zlen (Some <$> c) = zlen c) as Hl by apply zlen_fmap.
  rewrite <- Hl at 1. rewrite ztake_app_length.
  replace (Z.to_nat _) with 0%nat; [by rewrite app_nil_r|].
  unfold len. rewrite E. zlia.
Qed.

(** Writing right after the initialised bytes, into a vector sized up. *)
Lemma write_at_data v c d src :
  data v = (Some <$> c) ++ d -> zlen src <= zlen d ->
  data (write_at (zlen c) src v) = (Some <$> (c ++ src)) ++ zdrop (zlen src) d.
Proof.
  intros E Hle. unfold write_at, len. cbn [data]. rewrite E.
  assert (zlen (Some <$> c) = zlen c) as Hl by apply zlen_fmap.
  rewrite (ztake_all _ src) by zlia.
  rewrite <- Hl at 1. rewrite ztake_app_length, fmap_app, <- app_assoc. do 2 f_equal.
  rewrite <- zdrop_zdrop by zlia. by rewrite <- Hl, zdrop_app_length.
Qed.
End Vec.

(** ** [ConsumeBuf] *)

Module ConsumeBuf.
Record t := mk { buf : bytes; pos : Z }.

Definition new (b : bytes) : t := mk b 0.

Definition len {prof : Profile} (s : t) : exec Z := usub (zlen (buf s)) (pos s).

Definition is_empty {prof : Profile} (s : t) : exec bool := n ← len s; Done (n =? 0).

Definition consume {prof : Profile} (amount : Z) (s : t) : exec t :=
  new_pos ← uadd (pos s) amount;
  assert_ (new_pos <=? zlen (buf s)) "new_pos <= self.buf.len()" ≫= fun _ =>
  Done (mk (buf s) new_pos).

(** [Deref]: [&self.buf[self.pos..]]. *)
Definition deref (s : t) : exec bytes :=
  if pos s <=? zlen (buf s) then Done (zdrop (pos s) (buf s)) else Panic PIndex.

Definition wf (s : t) : Prop := 0 <= pos s <= zlen (buf s) /\ zlen (buf s) <= isize_max.

(** The bytes not yet consumed. *)
Definition left (s : t) : bytes := zdrop (pos s) (buf s).

Section Lemmas.
Context {prof : Profile}.

Lemma new_wf b : zlen b <= isize_max -> wf (new b).
Proof. unfold wf. simpl. zlia. Qed.

Lemma cb_deref_ok s : wf s -> deref s = Done (left s).
Proof. unfold wf, deref. intros. by rewrite (proj2 (Z.leb_le _ _)) by lia. Qed.

Lemma left_len s : wf s -> zlen (left s) = zlen (buf s) - pos s.
Proof. unfold wf, left. intros. apply zlen_zdrop. lia. Qed.

Lemma is_empty_ok s : wf s -> is_empty s = Done (bool_decide (left s = [])).
Proof.
  intros Hwf. unfold is_empty, len. rewrite usub_ok by (unfold wf in *; lia). simpl.
  f_equal. rewrite <- left_len by done. case_bool_decide as E.
  - by rewrite E.
  - apply Z.eqb_neq. by rewrite zlen_zero.
Qed.

Lemma cb_consume_ok s n : wf s -> 0 <= n <= zlen (left s) ->
  exists s', consume n s = Done s' /\ wf s' /\ left s' = zdrop n (left s).
Proof.
  intros Hwf Hn. pose proof (left_len s Hwf). unfold wf in Hwf.
  exists (mk (buf s) (pos s + n)). unfold consume.
  rewrite uadd_ok by (unfold isize_max, u64_max in *; lia). simpl.
  rewrite (proj2 (Z.leb_le _ _)) by lia. simpl. split; [done|].
  unfold wf, left. simpl. rewrite zdrop_zdrop by lia. split; [lia | done].
Qed.
End Lemmas.
End ConsumeBuf.

(** ** [FastBufRef]: the guard over a buffer sized up to its capacity *)

Module FastBufRef.
Record t := mk { buf : Vec.t; cur_len : Z }.

Section Defs.
Context {prof : Profile}.

Definition extend_from_slice (slice : bytes) (r : t) : exec t :=
  n ← uadd (cur_len r) (zlen slice);
  assert_ (n <=? Vec.len (buf r)) "FastBuf::extend_from_slice not enough len" ≫= fun _ =>
  Done (mk (Vec.write_at (cur_len r) slice (buf r)) n).

(** [Drop]: the length is set back to what was written. *)
Definition drop (r : t) : Vec.t := Vec.set_len (cur_len r) (buf r).

(** [unsafe fn extend(mut self, amount)]: consumes, hence drops, the guard. *)
Definition extend (amount : Z) (r : t) : exec Vec.t :=
  n ← uadd (cur_len r) amount;
  assert_ (n <=? Vec.len (buf r)) "FastBuf::extend with not enough len" ≫= fun _ =>
  Done (drop (mk (buf r) n)).
End Defs.

(** [Deref]: the length of [&self.buf[..]]. *)
Definition len (r : t) : Z := Vec.len (buf r).

(** A callee that is handed [&mut self.buf[from..]] writes [src] at its front. *)
Definition written (from : Z) (src : bytes) (r : t) : t :=
  mk (Vec.write_at from src (buf r)) (cur_len r).
End FastBufRef.

(** ** [FastBuf] *)

Module FastBuf.
Definition t := Vec.t.

Definition with_capacity (capacity : Z) : exec t := Vec.with_capacity capacity.

Definition capacity (b : t) : Z := Vec.cap b.

Definition len (b : t) : Z := Vec.len b.

Definition empty (b : t) : t := Vec.set_len 0 b.

Definition into_vec (b : t) : exec bytes := Vec.init (Vec.data b).

(** [Deref]: [&(self.0)[..]]. *)
Definition deref (b : t) : exec bytes := Vec.init (Vec.data b).

Section Defs.
Context {prof : Profile}.

Definition ensure_capacity (cap : Z) (b : t) : exec t :=
  if Vec.cap b <? cap then
    additional ← usub cap (Vec.cap b);
    Vec.reserve additional b
  else Done b.

(** [borrow]'s first part: room for more when the buffer is full. *)
Definition more_room (b : t) : exec t :=
  if Vec.len b =? Vec.cap b then
    let max := MAX_CAPACITY `min` (Vec.cap b * 2) in
    additional ← usub max (Vec.cap b);
    Vec.reserve additional b
  else Done b.

Definition borrow (b : t) : exec FastBufRef.t :=
  assert_ (0 <? Vec.cap b) "FastBuf::borrow() with 0 capacity" ≫= fun _ =>
  let len_at_start := Vec.len b in
  b ← more_room b;
  assert_ (len_at_start <? Vec.cap b) "self.0.capacity() > len_at_start" ≫= fun _ =>
  Done (FastBufRef.mk (Vec.set_len (Vec.cap b) b) len_at_start).
End Defs.

(** What the other components may assume of a buffer that holds [c]. *)
Definition is_buf (b : t) (c : bytes) : Prop := Vec.wf b /\ Vec.holds b c.

(** A guard over a buffer holding [c], with [spare] cells to write to. *)
Definition is_ref (r : FastBufRef.t) (c : bytes) (spare : Z) : Prop :=
  exists d, Vec.data (FastBufRef.buf r) = (Some <$> c) ++ d /\
    zlen d = spare /\ FastBufRef.cur_len r = zlen c /\
    zlen c + spare = Vec.cap (FastBufRef.buf r) /\ zlen c + spare <= isize_max.

Section Lemmas.
Context {prof : Profile}.

Lemma with_capacity_ok n : 0 <= n <= isize_max ->
  exists b, with_capacity n = Done b /\ is_buf b [] /\ capacity b = n.
Proof.
  intros. exists (Vec.mk [] n). unfold with_capacity, Vec.with_capacity.
  rewrite (proj2 (Z.leb_le _ _)) by lia. repeat split; unfold Vec.len; simpl; zlia.
Qed.

Lemma deref_ok b c : is_buf b c -> deref b = Done c.
Proof. intros [_ H]. by apply Vec.init_holds. Qed.

Lemma into_vec_ok b c : is_buf b c -> into_vec b = Done c.
Proof. apply deref_ok. Qed.

Lemma len_ok b c : is_buf b c -> len b = zlen c.
Proof. intros [_ H]. by apply Vec.holds_len. Qed.

Lemma empty_ok b c : is_buf b c -> is_buf (empty b) [] /\ capacity (empty b) = capacity b.
Proof.
  intros [Hwf H]. split; [|done]. split.
  - unfold Vec.wf, empty in *. rewrite Vec.len_set_len by lia. simpl. unfold Vec.len in *. zlia.
  - by apply (Vec.set_len_shrink_holds 0 b [] (Vec.data b)).
Qed.

Lemma reserve_ok n b c : is_buf b c -> 0 <= n ->
  Vec.cap b * 2 <= isize_max -> Vec.len b + n <= isize_max ->
  exists b', Vec.reserve n b = Done b' /\ is_buf b' c /\
    Vec.cap b <= Vec.cap b' /\ Vec.len b + n <= Vec.cap b'.
Proof.
  intros [Hwf H] Hn Hg Hm. unfold Vec.reserve, Vec.wf in *.
  destruct (Z.leb_spec n (Vec.cap b - Vec.len b)).
  - exists b. repeat split; auto; lia.
  - set (nc := 8 `max` _). assert (nc <= isize_max) by (unfold isize_max in *; lia).
    rewrite (proj2 (Z.leb_le _ _)) by lia. eexists. split; [done|].
    unfold is_buf, Vec.wf, Vec.len, Vec.holds in *. simpl. repeat split; try done; lia.
Qed.

Lemma ensure_capacity_ok n b c : is_buf b c -> n <= MAX_CAPACITY ->
  exists b', ensure_capacity n b = Done b' /\ is_buf b' c /\ capacity b <= capacity b'.
Proof.
  intros Hb Hn. pose proof Hb as [Hwf _]. unfold ensure_capacity, capacity, Vec.wf in *.
  destruct (Z.ltb_spec (Vec.cap b) n); [|by exists b].
  rewrite usub_ok by lia. simpl.
  destruct (reserve_ok (n - Vec.cap b) b c) as (b' & -> & ? & ? & _); auto; unfold MAX_CAPACITY, isize_max in *; try lia.
  by exists b'.
Qed.

Lemma more_room_ok b c : is_buf b c -> 0 < capacity b ->
  zlen c < capacity b \/ capacity b < MAX_CAPACITY ->
  exists b', more_room b = Done b' /\ is_buf b' c /\ capacity b <= capacity b' /\
    zlen c < capacity b' /\ (zlen c < capacity b -> capacity b' = capacity b).
Proof.
  intros Hb Hcap Hroom. pose proof (len_ok _ _ Hb) as Hlen. unfold len, capacity, more_room in *.
  pose proof Hb as [Hwf _]. unfold Vec.wf in Hwf.
  destruct (Z.eqb_spec (Vec.len b) (Vec.cap b)); [|exists b; repeat split; auto; try lia; apply Hb].
  destruct Hroom; [lia|]. rewrite usub_ok by lia. simpl.
  destruct (reserve_ok (MAX_CAPACITY `min` (Vec.cap b * 2) - Vec.cap b) b c)
    as (b' & -> & ? & ? & ?); auto; unfold MAX_CAPACITY, isize_max in *; try lia.
  exists b'. repeat split; try (by apply H0); lia.
Qed.

(** [borrow] succeeds while the buffer may still grow. *)
Lemma borrow_ok b c : is_buf b c -> 0 < capacity b -> zlen c < capacity b \/ capacity b < MAX_CAPACITY ->
  exists r spare, borrow b = Done r /\ is_ref r c spare /\
    0 < spare /\ capacity b <= zlen c + spare /\
    (zlen c < capacity b -> zlen c + spare = capacity b).
Proof.
  intros Hb Hcap Hroom.
  destruct (more_room_ok b c Hb Hcap Hroom) as (b' & E & [Hwf' Hh'] & Hle & Hlt & Hsame).
  pose proof (len_ok _ _ Hb) as Hlen. pose proof (Vec.holds_len _ _ Hh') as Hlen'.
  unfold borrow, capacity, len in *. rewrite (proj2 (Z.ltb_lt _ _)) by lia. simpl.
  rewrite E. simpl. rewrite Hlen, (proj2 (Z.ltb_lt _ _)) by lia. simpl.
  eexists _, (Vec.cap b' - zlen c). split; [done|]. split; [|repeat split; lia].
  - exists (replicate (Z.to_nat (Vec.cap b' - Vec.len b')) None).
    unfold Vec.wf, Vec.holds, Vec.set_len in *. cbn [FastBufRef.buf FastBufRef.cur_len Vec.data Vec.cap].
    rewrite Hlen', zlen_replicate, Hh', ztake_all by (rewrite zlen_fmap; lia).
    repeat split; try done; lia.
Qed.

Lemma is_ref_len r c spare : is_ref r c spare -> FastBufRef.len r = zlen c + spare.
Proof.
  intros (d & E & Hd & _). unfold FastBufRef.len, Vec.len. rewrite E. zlia.
Qed.

Lemma extend_from_slice_ok r c spare s : is_ref r c spare -> zlen s <= spare ->
  exists r', FastBufRef.extend_from_slice s r = Done r' /\ is_ref r' (c ++ s) (spare - zlen s).
Proof.
  intros Hr Hs. pose proof (is_ref_len _ _ _ Hr) as Hl.
  destruct Hr as (d & E & Hd & Hc & Hcap). unfold FastBufRef.extend_from_slice.
  unfold FastBufRef.len in Hl. rewrite uadd_ok by (unfold isize_max, u64_max in *; zlia).
  simpl. rewrite (proj2 (Z.leb_le _ _)) by lia. simpl. eexists. split; [done|].
  rewrite Hc. exists (zdrop (zlen s) d). simpl. split; [apply Vec.write_at_data; [done|lia]|].
  rewrite zlen_zdrop by zlia. repeat split; zlia.
Qed.

Lemma drop_ok r c spare : is_ref r c spare ->
  is_buf (FastBufRef.drop r) c /\ capacity (FastBufRef.drop r) = zlen c + spare.
Proof.
  intros (d & E & Hd & Hc & Hcap). unfold FastBufRef.drop, capacity.
  split; [|simpl; lia]. split.
  - unfold Vec.wf. rewrite Vec.len_set_len by zlia. simpl. zlia.
  - by apply Vec.set_len_shrink_holds with d.
Qed.

(** The contract of [unsafe fn extend]: the [amount] bytes after the buffer's
    were written. *)
Lemma extend_ok r c spare s : is_ref r c spare -> zlen s <= spare ->
  exists b, FastBufRef.extend (zlen s) (FastBufRef.written (zlen c) s r) = Done b /\
    is_buf b (c ++ s) /\ capacity b = zlen c + spare.
Proof.
  intros Hr Hs. pose proof (is_ref_len _ _ _ Hr) as Hl.
  destruct Hr as (d & E & Hd & Hc & Hcap).
  pose proof (Vec.write_at_data _ c d s E) as E'. rewrite Hd in E'. specialize (E' Hs).
  set (w := Vec.write_at (zlen c) s (FastBufRef.buf r)) in *.
  assert (Hw : Vec.len w = zlen c + spare).
  { unfold Vec.len. rewrite E', zlen_app, zlen_fmap, zlen_zdrop; zlia. }
  unfold FastBufRef.extend, FastBufRef.written. cbn [FastBufRef.cur_len FastBufRef.buf].
  rewrite Hc, uadd_ok by (unfold isize_max, u64_max in *; zlia). simpl. fold w.
  rewrite Hw, (proj2 (Z.leb_le _ _)) by lia. simpl. eexists. split; [done|].
  unfold FastBufRef.drop, capacity, is_buf. simpl. split; [|lia]. split.
  - unfold Vec.wf. rewrite Vec.len_set_len by zlia. simpl. zlia.
  - apply Vec.set_len_shrink_holds with (zdrop (zlen s) d); [zlia | done].
Qed.
End Lemmas.
End FastBuf.

(** ** Properties *)

Section Properties.
Context {prof : Profile}.

(** A guard used as the encoders use it: some slices, then the drop. *)
Fixpoint extend_all (slices : list bytes) (r : FastBufRef.t) : exec FastBufRef.t :=
  match slices with
  | [] => Done r
  | s :: rest => r ← FastBufRef.extend_from_slice s r; extend_all rest r
  end.

Definition guarded (slices : list bytes) (b : FastBuf.t) : exec FastBuf.t :=
  r ← FastBuf.borrow b; r ← extend_all slices r; Done (FastBufRef.drop r).

Lemma extend_all_run slices r c spare : FastBuf.is_ref r c spare ->
  Forall (fun s => zlen s <= isize_max) slices ->
  if zlen (concat slices) <=? spare
  then exists r', extend_all slices r = Done r' /\
         FastBuf.is_ref r' (c ++ concat slices) (spare - zlen (concat slices))
  else extend_all slices r = Panic (PAssert "FastBuf::extend_from_slice not enough len").
Proof.
  intros Hr Hall. revert r c spare Hr. induction Hall as [|s slices Hs Hall IH]; intros r c spare Hr; simpl.
  - pose proof Hr as (d & _ & Hd & _). change (zlen (@nil byte)) with 0.
    pose proof (zlen_nonneg d). rewrite (proj2 (Z.leb_le _ _)) by (rewrite <- Hd; unfold zlen; lia).
    rewrite app_nil_r, Z.sub_0_r. by exists r.
  - rewrite zlen_app. pose proof (zlen_nonneg (concat slices)). pose proof (zlen_nonneg s).
    destruct (Z.leb_spec (zlen s) spare) as [Hle|Hgt].
    + destruct (FastBuf.extend_from_slice_ok r c spare s Hr Hle) as (r' & -> & Hr'). simpl.
      specialize (IH r' (c ++ s) (spare - zlen s) Hr').
      replace (zlen (concat slices) <=? spare - zlen s) with (zlen s + zlen (concat slices) <=? spare) in IH
        by (destruct (Z.leb_spec (zlen s + zlen (concat slices)) spare); symmetry;
            [apply Z.leb_le|apply Z.leb_gt]; lia).
      case_match; [|done]. destruct IH as (r2 & -> & Hr2). exists r2. split; [done|].
      rewrite <- app_assoc in Hr2. by replace (spare - (zlen s + zlen (concat slices)))
        with (spare - zlen s - zlen (concat slices)) by lia.
    + rewrite (proj2 (Z.leb_gt _ _)) by lia. pose proof (FastBuf.is_ref_len _ _ _ Hr) as Hl.
      destruct Hr as (d & _ & Hd & Hcur & _ & Hmax). unfold FastBufRef.extend_from_slice, FastBufRef.len in *.
      pose proof (zlen_nonneg d).
      rewrite uadd_ok by (unfold isize_max, u64_max in *; zlia). simpl.
      by rewrite (proj2 (Z.leb_gt _ _)) by lia.
Qed.

(** C36. The guard never exposes memory that was not written: borrowing a
    buffer that holds [c], appending slices and dropping the guard leaves a
    buffer that holds exactly [c] and the slices, every byte initialised; a
    slice too many for the spare capacity is a panic, never an overrun.
    A borrow always has spare capacity to offer, never less than before. *)
Theorem guard_appends_only b c slices :
  FastBuf.is_buf b c -> 0 < FastBuf.capacity b ->
  zlen c < FastBuf.capacity b \/ FastBuf.capacity b < MAX_CAPACITY ->
  Forall (fun s => zlen s <= isize_max) slices ->
  exists spare, 0 < spare /\ FastBuf.capacity b <= zlen c + spare /\
    if zlen (concat slices) <=? spare
    then exists b', guarded slices b = Done b' /\ FastBuf.capacity b' = zlen c + spare /\
           FastBuf.deref b' = Done (c ++ concat slices) /\ FastBuf.len b' = zlen c + zlen (concat slices)
    else guarded slices b = Panic (PAssert "FastBuf::extend_from_slice not enough len").
Proof.
  intros Hb Hcap Hroom Hall.
  destruct (FastBuf.borrow_ok b c Hb Hcap Hroom) as (r & spare & E & Hr & Hpos & Hle & _).
  exists spare. split; [done|]. split; [done|]. unfold guarded. rewrite E. simpl.
  pose proof (extend_all_run slices r c spare Hr Hall) as Hx. case_match; [|by rewrite Hx].
  destruct Hx as (r' & -> & Hr'). simpl. destruct (FastBuf.drop_ok _ _ _ Hr') as [Hd Hc].
  exists (FastBufRef.drop r'). split; [done|]. rewrite (FastBuf.len_ok _ _ Hd), Hc, zlen_app.
  split; [lia|]. split; [by apply FastBuf.deref_ok | done].
Qed.

(** [ensure_capacity] does not ensure the capacity: the difference to the
    current capacity is reserved on top of the length, so that with enough
    spare capacity nothing happens at all, however much was asked for; only
    a full buffer gets what it asked for. *)
Theorem ensure_capacity_effect b c n :
  FastBuf.is_buf b c -> FastBuf.capacity b < n -> FastBuf.capacity b * 2 <= isize_max -> n <= isize_max ->
  (n - FastBuf.capacity b <= FastBuf.capacity b - zlen c -> FastBuf.ensure_capacity n b = Done b) /\
  (zlen c = FastBuf.capacity b -> exists b', FastBuf.ensure_capacity n b = Done b' /\
     FastBuf.is_buf b' c /\ n <= FastBuf.capacity b').
Proof.
  intros Hb Hn Hcap Hmax. pose proof (FastBuf.len_ok _ _ Hb) as Hl.
  unfold FastBuf.ensure_capacity, FastBuf.capacity, FastBuf.len in *.
  rewrite (proj2 (Z.ltb_lt _ _)), usub_ok by lia. simpl. split; intros Hlen.
  - unfold Vec.reserve. by rewrite Hl, (proj2 (Z.leb_le _ _)) by lia.
  - destruct (FastBuf.reserve_ok (n - Vec.cap b) b c) as (b' & -> & Hb' & _ & Hle); auto; try lia.
    exists b'. split; [done|]. split; [done|]. unfold FastBuf.capacity. lia.
Qed.
End Properties.

(** A full buffer at the maximum capacity cannot be borrowed any more, in
    either build profile. *)
Lemma borrow_full_panics {prof : Profile} b c : FastBuf.is_buf b c ->
  zlen c = FastBuf.capacity b -> MAX_CAPACITY <= FastBuf.capacity b ->
  exists p, FastBuf.borrow b = Panic p.
Proof.
  intros Hb Hfull Hmax. pose proof (FastBuf.len_ok _ _ Hb) as Hl. pose proof Hb as [[_ Hcap] _].
  unfold FastBuf.borrow, FastBuf.more_room, FastBuf.capacity, FastBuf.len in *.
  assert (0 < MAX_CAPACITY) by done.
  rewrite (proj2 (Z.ltb_lt 0 _)) by lia. simpl. rewrite Hl, Hfull, Z.eqb_refl. simpl.
  rewrite Z.min_l by lia. unfold usub.
  destruct (Z.leb_spec (Vec.cap b) MAX_CAPACITY) as [Hle|Hgt]; simpl.
  - unfold Vec.reserve. rewrite Hl, Hfull, (proj2 (Z.leb_le _ _)) by lia. simpl.
    rewrite (proj2 (Z.ltb_ge _ _)) by lia. by eexists.
  - destruct overflow_checks; simpl; [by eexists|]. unfold Vec.reserve.
    assert (Hmod : (MAX_CAPACITY - Vec.cap b) `mod` 2 ^ 64 = MAX_CAPACITY - Vec.cap b + 2 ^ 64).
    { rewrite <- (Z_mod_plus_full _ 1). rewrite Z.mod_small; unfold isize_max in *; lia. }
    rewrite Hmod, Hl, Hfull. unfold isize_max in *.
    rewrite (proj2 (Z.leb_gt _ _)) by lia. rewrite (proj2 (Z.leb_gt _ _)) by lia. by eexists.
Qed.

(** *** Witnesses *)

Lemma guard_appends_only_witness :
  exists spare, 0 < spare /\ 4 <= 2 + spare /\
    if zlen (concat [bs "cd"; bs "ef"]) <=? spare
    then exists b', guarded (prof := dev) [bs "cd"; bs "ef"] (Vec.mk (Some <$> bs "ab") 4) = Done b' /\
           FastBuf.capacity b' = 2 + spare /\ FastBuf.deref b' = Done (bs "abcdef") /\ FastBuf.len b' = 6
    else guarded (prof := dev) [bs "cd"; bs "ef"] (Vec.mk (Some <$> bs "ab") 4) =
         Panic (PAssert "FastBuf::extend_from_slice not enough len").
Proof.
  apply (guard_appends_only (prof := dev) (Vec.mk (Some <$> bs "ab") 4) (bs "ab") [bs "cd"; bs "ef"]).
  - split; [split; discriminate | reflexivity].
  - reflexivity.
  - left. reflexivity.
  - repeat constructor; discriminate.
Defined.

Lemma ensure_capacity_effect_witness :
  (4 <= 12 -> FastBuf.ensure_capacity (prof := dev) 20 (Vec.mk (Some <$> bs "abcd") 16) =
              Done (Vec.mk (Some <$> bs "abcd") 16)) /\
  (4 = 16 -> exists b', FastBuf.ensure_capacity (prof := dev) 20 (Vec.mk (Some <$> bs "abcd") 16) = Done b' /\
     FastBuf.is_buf b' (bs "abcd") /\ 20 <= FastBuf.capacity b').
Proof.
  apply (ensure_capacity_effect (prof := dev) (Vec.mk (Some <$> bs "abcd") 16) (bs "abcd") 20).
  - split; [split; discriminate | reflexivity].
  - reflexivity.
  - discriminate.
  - discriminate.
Defined.
