(* ===== verification/Transport.v ===== *)
(** * The transport, a parameter

    The library runs over any [S: AsyncRead + AsyncWrite] ([futures_io]).
    [AsyncRead] and [AsyncWrite] are the traits' operations; [ReadSpec],
    [WriteSpec] and [DuplexSpec] state their documented contracts over ghost
    observations of the transport (the bytes still to come, the bytes the
    transport has accepted).  [Script] is a concrete transport, driven by
    lists of events, that satisfies all of them: the witnesses run on it. *)

From S2P Require Import Prelude.
From S2P Require Import Async.

(** [poll_read(cx, buf)] with [buf.len() = n]: the bytes put into [buf]. *)
Class AsyncRead (S : Type) := poll_read : Z -> S -> poll (io_result bytes) * S.

Class AsyncWrite (S : Type) := {
  poll_write : bytes -> S -> poll (io_result Z) * S;
  poll_flush : S -> poll (io_result unit) * S;
  poll_close : S -> poll (io_result unit) * S;
}.

(** A read delivers the next bytes of the stream, at most as many as fit, and
    none into a non-empty buffer only at the end of the stream.  A transport
    for which [r_live] is true is [Pending], or fails, at most [r_stalls]
    more times; nothing is asked of the others. *)
Class ReadSpec (S : Type) `{AsyncRead S} := {
  r_stream : S -> bytes;
  r_live : bool;
  r_stalls : S -> nat;
  read_ok : forall n s,
    match poll_read n s with
    | (Ready (Ok d), s') =>
        zlen d <= 0 `max` n /\ r_stream s = d ++ r_stream s' /\ (0 < n -> d = [] -> r_stream s = []) /\
        (r_live = true -> (r_stalls s' <= r_stalls s)%nat)
    | (_, s') => r_stream s' = r_stream s /\ (r_live = true -> (r_stalls s' < r_stalls s)%nat)
    end;
}.

(** The errors the transport itself may report. *)
Definition raises (S : Type) `{AsyncRead S} (e : io_error) : Prop :=
  exists n (s s' : S), poll_read n s = (Ready (Err e), s').

(** A write of a non-empty buffer accepts some of its front; a flush that is
    ready leaves nothing accepted unflushed.  A transport for which [w_live]
    is true holds back a write or a flush at most [w_stalls] more times. *)
Class WriteSpec (S : Type) `{AsyncWrite S} := {
  w_sent : S -> bytes;
  w_flushed : S -> Z;
  w_live : bool;
  w_stalls : S -> nat;
  write_ok : forall d s, d <> [] ->
    match poll_write d s with
    | (Ready (Ok n), s') => 0 < n <= zlen d /\ w_sent s' = w_sent s ++ ztake n d
    | (_, s') => w_sent s' = w_sent s
    end;
  flush_ok : forall s,
    match poll_flush s with
    | (Ready (Ok tt), s') => w_sent s' = w_sent s /\ w_flushed s' = zlen (w_sent s')
    | (_, s') => w_sent s' = w_sent s
    end;
  write_calms : forall d s, w_live = true ->
    match poll_write d s with
    | (Pending, s') => (w_stalls s' < w_stalls s)%nat
    | (_, s') => (w_stalls s' <= w_stalls s)%nat
    end;
  flush_calms : forall s, w_live = true ->
    match poll_flush s with
    | (Pending, s') => (w_stalls s' < w_stalls s)%nat
    | (_, s') => (w_stalls s' <= w_stalls s)%nat
    end;
}.

(** The two directions do not disturb each other. *)
Class DuplexSpec (S : Type) `{ReadSpec S, WriteSpec S} := {
  read_sent : forall n s, w_sent (poll_read n s).2 = w_sent s;
  write_stream : forall d s, r_stream (poll_write d s).2 = r_stream s;
  flush_stream : forall s, r_stream (poll_flush s).2 = r_stream s;
  write_stalls : forall d s, r_stalls (poll_write d s).2 = r_stalls s;
  flush_stalls : forall s, r_stalls (poll_flush s).2 = r_stalls s;
  read_stalls : forall n s, w_stalls (poll_read n s).2 = w_stalls s;
}.

(** A transport that is live in both directions, and how often it may still
    hold a connection up. *)
Definition live (S : Type) `{DuplexSpec S} : Prop := r_live = true /\ w_live = true.
Definition stalls {S : Type} `{DuplexSpec S} (s : S) : nat := r_stalls s + w_stalls s.

Section Stalls.
Context {S : Type} `{DuplexSpec S}.
Implicit Types (s : S).

Lemma read_spends n s : live S ->
  (stalls (poll_read n s).2 <= stalls s)%nat /\
  ((poll_read n s).1 = Pending -> (stalls (poll_read n s).2 < stalls s)%nat).
Proof.
  intros [Hl _]. pose proof (read_ok n s) as Hr. pose proof (read_stalls n s) as Hw. unfold stalls.
  destruct (poll_read n s) as [[|[d|e]] s']; simpl in *; rewrite Hw.
  - destruct Hr as [_ Hr]. specialize (Hr Hl). split; lia.
  - destruct Hr as (_ & _ & _ & Hr). specialize (Hr Hl). split; [lia|done].
  - destruct Hr as [_ Hr]. specialize (Hr Hl). split; [lia|done].
Qed.

Lemma write_spends d s : live S ->
  (stalls (poll_write d s).2 <= stalls s)%nat /\
  ((poll_write d s).1 = Pending -> (stalls (poll_write d s).2 < stalls s)%nat).
Proof.
  intros [_ Hl]. pose proof (write_calms d s Hl) as Hw. pose proof (write_stalls d s) as Hr. unfold stalls.
  destruct (poll_write d s) as [[|v] s']; simpl in *; rewrite Hr; (split; [lia|]); intros ?; [lia|done].
Qed.

Lemma flush_spends s : live S ->
  (stalls (poll_flush s).2 <= stalls s)%nat /\
  ((poll_flush s).1 = Pending -> (stalls (poll_flush s).2 < stalls s)%nat).
Proof.
  intros [_ Hl]. pose proof (flush_calms s Hl) as Hw. pose proof (flush_stalls s) as Hr. unfold stalls.
  destruct (poll_flush s) as [[|v] s']; simpl in *; rewrite Hr; (split; [lia|]); intros ?; [lia|done].
Qed.
End Stalls.

(** ** A scripted transport *)

Module Script.

Inductive rd_event := RPending | RData (b : byte) (l : bytes) | RErr (e : io_error).
Inductive wr_event := WPending | WAccept (n : nat) | WErr (e : io_error).
Inductive fl_event := FPending | FErr (e : io_error).

Record t := mk {
  rd : list rd_event;     (* then end of file *)
  wr : list wr_event;     (* then everything is accepted *)
  fl : list fl_event;     (* then ready *)
  out : bytes;
  flushed : Z;
}.

(** A peer that sends the given segments, then closes; writes never block. *)
Definition data (s : bytes) : list rd_event :=
  match s with [] => [] | b :: l => [RData b l] end.

Definition peer (segments : list bytes) : t := mk (segments ≫= data) [] [] [] 0.

Definition read (n : Z) (s : t) : poll (io_result bytes) * t :=
  match rd s with
  | [] => (Ready (Ok []), s)
  | RPending :: r => (Pending, mk r (wr s) (fl s) (out s) (flushed s))
  | RErr e :: r => (Ready (Err e), mk r (wr s) (fl s) (out s) (flushed s))
  | RData b l :: r =>
      (Ready (Ok (ztake n (b :: l))),
       mk (data (zdrop n (b :: l)) ++ r) (wr s) (fl s) (out s) (flushed s))
  end.

Definition write (d : bytes) (s : t) : poll (io_result Z) * t :=
  match wr s with
  | WPending :: w => (Pending, mk (rd s) w (fl s) (out s) (flushed s))
  | WErr e :: w => (Ready (Err e), mk (rd s) w (fl s) (out s) (flushed s))
  | WAccept k :: w =>
      let n := Z.of_nat (S k) `min` zlen d in
      (Ready (Ok n), mk (rd s) w (fl s) (out s ++ ztake n d) (flushed s))
  | [] => (Ready (Ok (zlen d)), mk (rd s) [] (fl s) (out s ++ d) (flushed s))
  end.

Definition flush (s : t) : poll (io_result unit) * t :=
  match fl s with
  | FPending :: f => (Pending, mk (rd s) (wr s) f (out s) (flushed s))
  | FErr e :: f => (Ready (Err e), mk (rd s) (wr s) f (out s) (flushed s))
  | [] => (Ready (Ok tt), mk (rd s) (wr s) [] (out s) (zlen (out s)))
  end.

#[global] Instance script_read : AsyncRead t := read.
#[global] Instance script_write : AsyncWrite t :=
  {| poll_write := write; poll_flush := flush; poll_close := flush |}.

Definition stream_of (e : rd_event) : bytes :=
  match e with RData b l => b :: l | _ => [] end.

Definition stall_of (e : rd_event) : nat :=
  match e with RData _ _ => 0 | _ => 1 end.

Lemma stream_data s : data s ≫= stream_of = s.
Proof. destruct s; [done|]. simpl. by rewrite app_nil_r. Qed.

#[global] Instance script_read_spec : ReadSpec t.
Proof.
  refine {| r_stream s := rd s ≫= stream_of; r_live := true;
            r_stalls s := sum_list_with stall_of (rd s) |}.
  intros n [[|[|b l|e] r] w f o fl]; unfold poll_read, script_read, read; simpl;
    try (split; [done|]; intros _; lia).
  { split; [zlia | done]. }
  assert (Hne : 0 < n -> ztake n (b :: l) <> []).
  { intros Hn. unfold ztake. destruct (Z.to_nat n) eqn:E; [lia|]. done. }
  split.
  { destruct (Z.le_gt_cases 0 n); [rewrite zlen_ztake; lia|]. unfold ztake.
    replace (Z.to_nat n) with 0%nat by lia. change (zlen (take 0 (b :: l))) with 0. lia. }
  split; [|split; [intros Hn ?; by destruct (Hne Hn)|]].
  - rewrite bind_app, stream_data, app_assoc, ztake_zdrop. done.
  - intros _. rewrite sum_list_with_app. by destruct (zdrop n (b :: l)).
Defined.

#[global] Instance script_write_spec : WriteSpec t.
Proof.
  refine {| w_sent := out; w_flushed := flushed; w_live := true;
            w_stalls s := (length (wr s) + length (fl s))%nat |}.
  - intros d [r [|[|k|e] w] f o fl] Hd; unfold poll_write; simpl; try done.
    + assert (zlen d <> 0) by by rewrite zlen_zero.
      rewrite ztake_all by lia. split; [zlia | done].
    + assert (zlen d <> 0) by by rewrite zlen_zero. split; [zlia | done].
  - by intros [r w [|[|e] f] o fl].
  - intros d [r [|[|k|e] w] f o fl] _; unfold poll_write; simpl; lia.
  - intros [r w [|[|e] f] o fl] _; simpl; lia.
Defined.

#[global] Instance script_duplex : DuplexSpec t.
Proof.
  split.
  - by intros n [[|[|b l|e] r] w f o fl].
  - by intros d [r [|[|k|e] w] f o fl].
  - by intros [r w [|[|e] f] o fl].
  - by intros d [r [|[|k|e] w] f o fl].
  - by intros [r w [|[|e] f] o fl].
  - by intros n [[|[|b l|e] r] w f o fl].
Qed.

End Script.
