(* ===== verification/Buf_reader.v ===== *)
(** * Buffered transport (src/buf_reader.rs)

    [BufIo] owns the transport, a read buffer with a read position, and the
    tail of a half-finished write.  The read side delivers exactly the bytes
    of the transport in order, whatever the mix of reads and peeks
    ([incoming]); the write side hands every accepted buffer to the transport
    in order, however often it is interrupted ([outgoing]).  An operation that
    is [Pending] has used up a stall of the transport ([held]). *)

From S2P Require Import Prelude.
From S2P Require Import Async.
From S2P Require Import Fast_buf.
From S2P Require Import Transport.

(** [&buf[from..]]. *)
Definition slice_from (from : Z) (l : bytes) : exec bytes :=
  if from <=? zlen l then Done (zdrop from l) else Panic PIndex.

Module BufIo.

Record t (R : Type) := mk {
  inner : R;
  buf : FastBuf.t;
  pos : Z;
  pending_rx : bool;
  pending_tx : bool;
  write_buf : option ConsumeBuf.t;
  need_flush : bool;
}.
Arguments mk {R}.
Arguments inner {R} _.
Arguments buf {R} _.
Arguments pos {R} _.
Arguments pending_rx {R} _.
Arguments pending_tx {R} _.
Arguments write_buf {R} _.
Arguments need_flush {R} _.

Section Setters.
Context {R : Type}.
Implicit Types (b : t R).
Definition set_inner (i : R) b := mk i (buf b) (pos b) (pending_rx b) (pending_tx b) (write_buf b) (need_flush b).
Definition set_buf v b : t R := mk (inner b) v (pos b) (pending_rx b) (pending_tx b) (write_buf b) (need_flush b).
Definition set_pos p b : t R := mk (inner b) (buf b) p (pending_rx b) (pending_tx b) (write_buf b) (need_flush b).
Definition set_pending_rx x b : t R := mk (inner b) (buf b) (pos b) x (pending_tx b) (write_buf b) (need_flush b).
Definition set_pending_tx x b : t R := mk (inner b) (buf b) (pos b) (pending_rx b) x (write_buf b) (need_flush b).
Definition set_write_buf w b : t R := mk (inner b) (buf b) (pos b) (pending_rx b) (pending_tx b) w (need_flush b).
Definition set_need_flush x b : t R := mk (inner b) (buf b) (pos b) (pending_rx b) (pending_tx b) (write_buf b) x.
End Setters.

Section Defs.
Context {prof : Profile} {R : Type} `{AsyncRead R, AsyncWrite R}.

Definition with_capacity (capacity : Z) (inner : R) : exec (t R) :=
  v ← FastBuf.with_capacity capacity;
  Done (mk inner v 0 false false None false).

Definition ensure_read_capacity (capacity : Z) (this : t R) : exec (t R) :=
  v ← FastBuf.ensure_capacity capacity (buf this); Done (set_buf v this).

(** [Pin::new(&mut this.inner).poll_*]. *)
Definition inner_read (n : Z) : io (t R) bytes := fun b =>
  let '(r, i) := poll_read n (inner b) in Done (r, set_inner i b).
Definition inner_write (d : bytes) : io (t R) Z := fun b =>
  let '(r, i) := poll_write d (inner b) in Done (r, set_inner i b).
Definition inner_flush : io (t R) unit := fun b =>
  let '(r, i) := poll_flush (inner b) in Done (r, set_inner i b).
Definition inner_close : io (t R) unit := fun b =>
  let '(r, i) := poll_close (inner b) in Done (r, set_inner i b).

(** ** The write side *)

(** One turn of the loop over [this.write_buf]. *)
Definition finish_write_turn (_ : unit) : io (t R) (unit + unit) :=
  this ← get;
  match write_buf this with
  | None => mret (inr tt)
  | Some cb =>
      empty ← lift (ConsumeBuf.is_empty cb);
      if (empty : bool) then mret (inr tt)
      else
        d ← lift (ConsumeBuf.deref cb);
        r ← raw (inner_write d);
        match r with
        | Pending => modify (set_pending_tx true);; io_pending
        | Ready v =>
            modify (set_pending_tx false);;
            amount ← io_of v;
            cb' ← lift (ConsumeBuf.consume amount cb);
            modify (set_write_buf (Some cb'));;
            mret (inl tt)
        end
  end.

(** The flush that is still needed. *)
Definition finish_flush : io (t R) unit :=
  this ← get;
  if need_flush this then
    r ← raw inner_flush;
    match r with
    | Pending => modify (set_pending_tx true);; io_pending
    | Ready v =>
        modify (set_pending_tx false);;
        io_of v;;
        modify (set_need_flush false)
    end
  else mret tt.

Definition poll_finish_pending_write (fuel : nat) : io (t R) unit :=
  this ← get;
  (match write_buf this with
   | Some _ => iter fuel finish_write_turn tt;; modify (set_write_buf None)
   | None => mret tt
   end);;
  finish_flush.

Definition can_poll_write (this : t R) : bool :=
  bool_decide (write_buf this = None) && negb (need_flush this) && negb (pending_tx this).

(** One turn of [poll_write_all]'s loop at [pos]. *)
Definition write_all_turn (buf : bytes) (flush : bool) (pos : Z) : io (t R) (Z + unit) :=
  if pos =? zlen buf then mret (inr tt)
  else
    rest ← lift (slice_from pos buf);
    r ← raw (inner_write rest);
    match r with
    | Pending =>
        modify (fun this => set_need_flush flush
                 (set_write_buf (Some (ConsumeBuf.new rest)) (set_pending_tx true this)));;
        io_pending
    | Ready (Err e) => modify (set_pending_tx false);; io_err e
    | Ready (Ok amount) =>
        modify (set_pending_tx false);;
        pos' ← lift (uadd pos amount);
        mret (inl pos')
    end.

(** [poll_write_all] once it has taken [buf]: the loop, then the flush. *)
Definition write_taken (fuel : nat) (buf : bytes) (flush : bool) : io (t R) unit :=
  iter fuel (write_all_turn buf flush) 0;;
  if flush then
    r ← raw inner_flush;
    match r with
    | Pending =>
        modify (fun this => set_need_flush true (set_pending_tx true this));;
        io_pending
    | Ready v => modify (set_pending_tx false);; io_of v
    end
  else mret tt.

(** [buf: &mut Option<&[u8]>] is the second part of the state. *)
Definition poll_write_all (fuel : nat) (flush : bool) : io (t R * option bytes) unit :=
  on_fst (poll_finish_pending_write fuel);;
  st ← get;
  lift (assert_ (bool_decide (write_buf st.1 = None)) "this.write_buf.is_none()");;
  lift (assert_ (negb (need_flush st.1)) "!this.need_flush");;
  match st.2 with
  | None => mret tt
  | Some buf =>
      modify (fun st => (st.1, None));;
      on_fst (write_taken fuel buf flush)
  end.

(** [impl AsyncWrite for BufIo]: the three operations share their shape. *)
Definition after_pending {A} (fuel : nat) (op : io (t R) A) : io (t R) A :=
  poll_finish_pending_write fuel;;
  r ← raw op;
  match r with
  | Pending => modify (set_pending_tx true);; io_pending
  | Ready v => modify (set_pending_tx false);; io_of v
  end.
Definition bio_poll_write (fuel : nat) (d : bytes) : io (t R) Z := after_pending fuel (inner_write d).
Definition bio_poll_flush (fuel : nat) : io (t R) unit := after_pending fuel inner_flush.
Definition bio_poll_close (fuel : nat) : io (t R) unit := after_pending fuel inner_close.

(** ** The read side *)

(** [&this.buf[this.pos..]]. *)
Definition unread_slice : io (t R) bytes :=
  this ← get;
  v ← lift (FastBuf.deref (buf this));
  lift (slice_from (pos this) v).

Definition poll_fill_buf (force_append : bool) : io (t R) bytes :=
  this ← get;
  let cur_len := FastBuf.len (buf this) in
  (if (cur_len =? 0) || force_append then
     bref ← lift (FastBuf.borrow (buf this));
     r ← raw (inner_read (FastBufRef.len bref - cur_len));
     match r with
     | Pending =>
         modify (fun this => set_buf (FastBufRef.drop bref) (set_pending_rx true this));;
         io_pending
     | Ready (Err e) =>
         modify (fun this => set_buf (FastBufRef.drop bref) (set_pending_rx false this));;
         io_err e
     | Ready (Ok d) =>
         modify (set_pending_rx false);;
         v ← lift (FastBufRef.extend (zlen d) (FastBufRef.written cur_len d bref));
         modify (set_buf v)
     end
   else mret tt);;
  unread_slice.

Definition can_take_read_buf (this : t R) : bool := pos this =? 0.

Definition take_read_buf (this : t R) : exec (bytes * t R) :=
  replace ← FastBuf.with_capacity (FastBuf.capacity (buf this));
  v ← FastBuf.into_vec (buf this);
  Done (v, set_pos 0 (set_buf replace this)).

Definition consume (amount : Z) (this : t R) : exec (t R) :=
  new_pos ← uadd (pos this) amount;
  assert_ (new_pos <=? FastBuf.len (buf this)) "new_pos <= this.buf.len()" ≫= fun _ =>
  Done (if new_pos =? FastBuf.len (buf this)
        then set_buf (FastBuf.empty (buf this)) (set_pos 0 this)
        else set_pos new_pos this).

(** [poll_read] of [impl AsyncRead for BufIo] is this function. *)
Definition poll_read_buf (n : Z) : io (t R) bytes :=
  this ← get;
  has_amount ← lift (usub (FastBuf.len (buf this)) (pos this));
  if 0 <? has_amount then
    v ← lift (FastBuf.deref (buf this));
    rest ← lift (slice_from (pos this) v);
    let d := ztake n rest in
    new_pos ← lift (uadd (pos this) (zlen d));
    modify (set_pos new_pos);;
    (if new_pos =? FastBuf.len (buf this)
     then modify (fun this => set_buf (FastBuf.empty (buf this)) (set_pos 0 this))
     else mret tt);;
    mret d
  else
    r ← raw (inner_read n);
    match r with
    | Pending => modify (set_pending_rx true);; io_pending
    | Ready v => modify (set_pending_rx false);; io_of v
    end.
End Defs.

(** ** The read side delivers the stream *)

Section ReadLemmas.
Context {prof : Profile} {R : Type} `{ReadSpec R} `{!AsyncWrite R}.
Implicit Types (b : t R) (r : poll (io_result bytes)).

(** The initialised bytes of the read buffer, and those not yet consumed. *)
Definition contents b : bytes := omap id (Vec.data (buf b)).
Definition buffered b : bytes := zdrop (pos b) (contents b).

(** Everything the reader of [b] is still to see. *)
Definition incoming b : bytes := buffered b ++ r_stream (inner b).

(** The read position is inside the buffer, and back at 0 once all is used. *)
Definition rd_wf b : Prop :=
  FastBuf.is_buf (buf b) (contents b) /\ 0 < FastBuf.capacity (buf b) /\ 0 <= pos b /\ (pos b < zlen (contents b) \/ pos b = 0).

(** What the buffer holds, used or not, and what may still be added to it:
    the read buffer never outgrows this. *)
Definition span b : Z := zlen (contents b) + zlen (r_stream (inner b)).

(** How often the transport may still stall: not more, or less, than before. *)
Definition calm b b' : Prop :=
  r_live = true -> (r_stalls (inner b') <= r_stalls (inner b))%nat.
Definition stalled b b' : Prop :=
  r_live = true -> (r_stalls (inner b') < r_stalls (inner b))%nat.

(** What a read of at most [n] bytes does to the stream. *)
Definition delivers (n : Z) b r b' : Prop :=
  match r with
  | Ready (Ok d) => zlen d <= n /\ incoming b = d ++ incoming b' /\
      (d = [] -> incoming b = []) /\ calm b b'
  | Ready (Err e) => incoming b' = incoming b /\ raises R e /\ stalled b b'
  | Pending => incoming b' = incoming b /\ pending_rx b' = true /\ stalled b b'
  end.

(** The fields of the write side. *)
Definition tx_fields b := (pending_tx b, write_buf b, need_flush b).

Lemma contents_eq b c : FastBuf.is_buf (buf b) c -> contents b = c.
Proof.
  intros [_ Hh]. unfold contents. rewrite Hh. apply omap_some.
Qed.

Lemma rd_wf_buf b c : FastBuf.is_buf (buf b) c -> 0 < FastBuf.capacity (buf b) ->
  0 <= pos b -> pos b < zlen c \/ pos b = 0 -> rd_wf b.
Proof. intros Hb ???. unfold rd_wf. rewrite (contents_eq b c) by done. auto. Qed.

Lemma with_capacity_wf n (i : R) : 0 < n <= isize_max ->
  exists b, with_capacity n i = Done b /\ rd_wf b /\ incoming b = r_stream i /\
    FastBuf.capacity (buf b) = n /\ tx_fields b = (false, None, false) /\ inner b = i /\
    pending_rx b = false.
Proof.
  intros. destruct (FastBuf.with_capacity_ok n) as (v & E & Hb & Hc); [lia|].
  unfold with_capacity. rewrite E. simpl. eexists. split; [done|].
  assert (contents (mk i v 0 false false None false) = []) as Hn by (apply contents_eq; exact Hb).
  unfold incoming, buffered. rewrite Hn.
  split; [apply rd_wf_buf with []; simpl; auto; lia | by repeat split].
Qed.

Lemma buffered_len b : rd_wf b -> zlen (buffered b) = zlen (contents b) - pos b.
Proof. intros (_ & _ & ? & ?). unfold buffered. rewrite zlen_zdrop; zlia. Qed.

Lemma inner_read_wp n b (Q : poll (io_result bytes) -> t R -> Prop) : 0 < n ->
  (forall r i, match r with
     | Ready (Ok d) => zlen d <= n /\ r_stream (inner b) = d ++ r_stream i /\
                       (d = [] -> r_stream (inner b) = []) /\ calm b (set_inner i b)
     | Ready (Err e) => r_stream i = r_stream (inner b) /\ raises R e /\ stalled b (set_inner i b)
     | Pending => r_stream i = r_stream (inner b) /\ stalled b (set_inner i b)
     end -> Q r (set_inner i b)) ->
  wp (inner_read n) b Q.
Proof.
  intros Hn HQ. unfold wp, inner_read. pose proof (read_ok n (inner b)) as Hr.
  rewrite Z.max_r in Hr by lia.
  destruct (poll_read n (inner b)) as [r i] eqn:E. simpl. apply HQ. destruct r as [|[d|e]]; [done| |].
  - destruct Hr as (? & ? & Hnil & ?). split_and!; auto.
  - destruct Hr as [? Hr]. split; [done|]. split; [by exists n, (inner b), i | exact Hr].
Qed.

Lemma span_eq b : rd_wf b -> span b = pos b + zlen (incoming b).
Proof. intros Hb. unfold span, incoming. rewrite zlen_app, buffered_len by done. lia. Qed.

Lemma poll_read_buf_wp n b : rd_wf b -> 0 < n ->
  wp (poll_read_buf n) b (fun r b' =>
    rd_wf b' /\ tx_fields b' = tx_fields b /\ delivers n b r b' /\ span b' <= span b).
Proof.
  intros Hwf Hn. pose proof (buffered_len b Hwf) as Hlen.
  destruct Hwf as (Hb & Hcap & Hpos & Hin).
  pose proof (FastBuf.len_ok _ _ Hb) as Hl. pose proof (zlen_nonneg (contents b)).
  unfold poll_read_buf. wp_steps. rewrite Hl. wp_steps.
  destruct (Z.ltb_spec 0 (zlen (contents b) - pos b)) as [Hlt|Hge].
  - wp_steps. rewrite (FastBuf.deref_ok _ _ Hb). wp_steps.
    unfold slice_from at 1. rewrite (proj2 (Z.leb_le _ _)) by lia. simpl.
    set (d := ztake n (zdrop (pos b) (contents b))).
    assert (Hd : zlen d = n `min` (zlen (contents b) - pos b)).
    { unfold d. rewrite zlen_ztake, zlen_zdrop; lia. }
    assert (Hz : zlen (contents b) <= isize_max).
    { destruct Hb as [Hw _]. unfold Vec.wf, FastBuf.len in *. lia. }
    wp_steps.
    assert (Hsplit : incoming b = d ++ zdrop (pos b + zlen d) (contents b) ++ r_stream (inner b)).
    { unfold incoming, buffered. rewrite app_assoc. f_equal.
      rewrite <- (zdrop_zdrop (pos b)) by zlia. symmetry. apply ztake_zdrop_len. lia. }
    assert (Hd0 : d <> []) by (rewrite <- zlen_zero; lia).
    destruct (Z.eqb_spec (pos b + zlen d) (zlen (contents b))).
    + wp_steps. destruct (FastBuf.empty_ok _ _ Hb) as [He Hec].
      set (b' := set_buf _ _). assert (contents b' = []) by (apply contents_eq; exact He).
      split; [apply rd_wf_buf with []; simpl; auto; lia|]. split; [done|].
      unfold delivers. split; [|unfold span; rewrite H2; change (zlen (@nil byte)) with 0; simpl; lia].
      rewrite Hsplit. split; [lia|]. split; [|by split; [|intros _]].
      unfold incoming, buffered. rewrite zdrop_all by lia. by rewrite H2.
    + wp_steps. split; [apply rd_wf_buf with (contents b); simpl; auto; lia|].
      split; [done|]. unfold delivers. split; [|by unfold span]. rewrite Hsplit. split; [lia|].
      split; [done|]. by split; [|intros _].
  - assert (Hnil : buffered b = []) by (apply zlen_zero; zlia).
    wp_steps. apply inner_read_wp; [done|]. intros r i Hr. wp_steps.
    assert (Hwf : forall x, rd_wf (set_pending_rx x (set_inner i b))) by done.
    destruct r as [|[d|e]]; wp_steps; (split; [apply Hwf|]); (split; [done|]); (split;
      [unfold delivers, incoming, buffered, contents in *; simpl;
       fold (contents b) in *; rewrite Hnil; simpl; tauto|
       unfold span, contents; simpl; rewrite ?(proj1 Hr); try lia]).
    destruct Hr as (_ & -> & _). zlia.
Qed.

(** What a fill does: the unread bytes grow by [d], the next bytes of the
    stream; [d] is empty only at the end of the stream, if a read was made. *)
Definition fills (force_append : bool) b r b' : Prop :=
  match r with
  | Ready (Ok v) =>
      v = buffered b' /\ incoming b' = incoming b /\
      exists d, buffered b' = buffered b ++ d /\ r_stream (inner b) = d ++ r_stream (inner b') /\
        (force_append = true \/ contents b = [] -> d = [] -> r_stream (inner b) = []) /\ calm b b'
  | Ready (Err e) => incoming b' = incoming b /\ buffered b' = buffered b /\ raises R e /\ stalled b b'
  | Pending =>
      incoming b' = incoming b /\ buffered b' = buffered b /\ pending_rx b' = true /\ stalled b b'
  end.

Lemma contents_nil_iff b : rd_wf b -> FastBuf.len (buf b) = 0 <-> contents b = [].
Proof. intros (Hb & _). by rewrite (FastBuf.len_ok _ _ Hb), zlen_zero. Qed.

(** The end of [poll_fill_buf]: the slice from the read position. *)
Lemma buf_slice_ok b (Q : poll (io_result bytes) -> t R -> Prop) : rd_wf b ->
  Q (Ready (Ok (buffered b))) b ->
  wp unread_slice b Q.
Proof.
  intros (Hb & _ & ? & ?) HQ. unfold unread_slice. wp_steps. rewrite (FastBuf.deref_ok _ _ Hb). wp_steps.
  unfold slice_from. rewrite (proj2 (Z.leb_le _ _)) by zlia. done.
Qed.

(** Appending [d] to the buffer. *)
Lemma append_wf b v d (i : R) : rd_wf b -> FastBuf.is_buf v (contents b ++ d) ->
  FastBuf.capacity (buf b) <= FastBuf.capacity v ->
  let b' := set_buf v (set_pending_rx false (set_inner i b)) in
  rd_wf b' /\ buffered b' = buffered b ++ d.
Proof.
  intros (Hb & Hcap & Hpos & Hin) Hv Hle b'.
  assert (Hc : contents b' = contents b ++ d) by (apply contents_eq; exact Hv).
  split.
  - apply rd_wf_buf with (contents b ++ d); subst b'; simpl; auto; zlia.
  - unfold buffered. rewrite Hc. simpl. apply zdrop_app_le. zlia.
Qed.

(** The early returns of [poll_fill_buf]: the guard is dropped. *)
Lemma drop_guard_wf b bref spare x (i : R) : rd_wf b -> FastBuf.is_ref bref (contents b) spare ->
  FastBuf.capacity (buf b) <= zlen (contents b) + spare ->
  let b' := set_buf (FastBufRef.drop bref) (set_pending_rx x (set_inner i b)) in
  rd_wf b' /\ buffered b' = buffered b.
Proof.
  intros (Hb & Hcap & Hpos & Hin) Hr Hle b'. destruct (FastBuf.drop_ok _ _ _ Hr) as [Hd Hc].
  assert (Hcont : contents b' = contents b) by (apply contents_eq; exact Hd).
  split; [|unfold buffered; by rewrite Hcont].
  apply rd_wf_buf with (contents b); [exact Hd | | exact Hpos | exact Hin].
  change (0 < FastBuf.capacity (FastBufRef.drop bref)). lia.
Qed.

Lemma poll_fill_buf_wp force_append b : rd_wf b ->
  (force_append = true ->
     zlen (contents b) < FastBuf.capacity (buf b) \/ FastBuf.capacity (buf b) < MAX_CAPACITY) ->
  wp (poll_fill_buf force_append) b (fun r b' =>
    rd_wf b' /\ tx_fields b' = tx_fields b /\ pos b' = pos b /\ fills force_append b r b').
Proof.
  intros Hwf Hroom. pose proof (contents_nil_iff b Hwf) as Hnil. pose proof Hwf as (Hb & Hcap & _).
  pose proof (FastBuf.len_ok _ _ Hb) as Hl.
  unfold poll_fill_buf. apply wp_bind, wp_get. simpl. apply wp_bind.
  destruct ((FastBuf.len (buf b) =? 0) || force_append) eqn:Hread.
  - destruct (FastBuf.borrow_ok (buf b) (contents b)) as (bref & spare & E & Hr & Hsp & Hle & _); auto.
    { apply orb_prop in Hread as [H1%Z.eqb_eq|H1]; [left; lia | auto]. }
    wp_steps. rewrite E. wp_steps. rewrite (FastBuf.is_ref_len _ _ _ Hr), Hl.
    replace (zlen (contents b) + spare - zlen (contents b)) with spare by lia.
    apply inner_read_wp; [done|]. intros r i Hread_ok. wp_steps. destruct r as [|[d|e]].
    + destruct (drop_guard_wf b bref spare true i Hwf Hr Hle) as [? Hbuf].
      wp_steps. do 3 (split; [done|]). unfold fills, incoming. rewrite Hbuf. simpl.
      destruct Hread_ok as [-> ?]. auto.
    + destruct Hread_ok as (Hlen & Hs & Hd & Hcalm).
      destruct (FastBuf.extend_ok bref (contents b) spare d Hr Hlen) as (v & Ev & Hv & Hvc).
      wp_steps. rewrite Ev. wp_steps.
      destruct (append_wf b v d i Hwf Hv) as [Hwf' Hbuf']; [lia|].
      apply buf_slice_ok; [done|]. do 3 (split; [done|]).
      unfold fills, incoming. rewrite Hbuf'. simpl. split; [done|].
      split; [by rewrite Hs, app_assoc|]. exists d. auto.
    + destruct (drop_guard_wf b bref spare false i Hwf Hr Hle) as [? Hbuf].
      wp_steps. do 3 (split; [done|]). unfold fills, incoming. rewrite Hbuf. simpl.
      destruct Hread_ok as [-> ?]. auto.
  - apply orb_false_elim in Hread as [H1%Z.eqb_neq ->].
    wp_steps. apply buf_slice_ok; [done|]. do 3 (split; [done|]). unfold fills.
    split; [done|]. split; [done|]. exists []. rewrite app_nil_r. split; [done|]. split; [done|].
    split; [|by intros _]. intros [|]; [done|]. by apply Hnil in H2.
Qed.

Lemma consume_ok n b : rd_wf b -> 0 <= n <= zlen (buffered b) ->
  exists b', consume n b = Done b' /\ rd_wf b' /\ tx_fields b' = tx_fields b /\
    inner b' = inner b /\ buffered b' = zdrop n (buffered b) /\
    incoming b = ztake n (buffered b) ++ incoming b' /\ pending_rx b' = pending_rx b /\ span b' <= span b.
Proof.
  intros Hwf Hn. pose proof (buffered_len b Hwf) as Hlen. pose proof Hwf as (Hb & Hcap & Hpos & Hin).
  pose proof (FastBuf.len_ok _ _ Hb) as Hl.
  assert (zlen (contents b) <= isize_max).
  { destruct Hb as [Hw _]. unfold Vec.wf, FastBuf.len in *. lia. }
  unfold consume. rewrite uadd_ok by (unfold isize_max, u64_max in *; lia). simpl.
  rewrite Hl, (proj2 (Z.leb_le _ _)) by lia. simpl. eexists. split; [done|].
  destruct (Z.eqb_spec (pos b + n) (zlen (contents b))) as [He|].
  - destruct (FastBuf.empty_ok _ _ Hb) as [Hb' Hc']. set (b' := set_buf _ _).
    assert (Hc : contents b' = []) by (apply contents_eq; exact Hb').
    assert (Hd : zdrop n (buffered b) = []) by (apply zdrop_all; lia).
    assert (Hbf : buffered b' = []) by (unfold buffered; by rewrite Hc).
    split; [apply rd_wf_buf with []; subst b'; simpl; auto; lia|]. rewrite Hd.
    repeat split; auto; [|unfold span; rewrite Hc; subst b'; simpl; zlia].
    unfold incoming. rewrite Hbf. simpl. f_equal. symmetry. apply ztake_all. lia.
  - set (b' := set_pos _ _).
    assert (Hbf : buffered b' = zdrop n (buffered b)).
    { unfold buffered. subst b'. simpl. rewrite zdrop_zdrop; [done | lia | lia]. }
    split; [apply rd_wf_buf with (contents b); subst b'; simpl; auto; lia|].
    repeat split; auto; [|by unfold span, contents; subst b'].
    unfold incoming. by rewrite Hbf, ztake_prefix_app.
Qed.

Lemma ensure_read_capacity_ok n b : rd_wf b -> n <= MAX_CAPACITY ->
  exists b', ensure_read_capacity n b = Done b' /\ rd_wf b' /\ tx_fields b' = tx_fields b /\
    inner b' = inner b /\ pos b' = pos b /\ contents b' = contents b /\ pending_rx b' = pending_rx b.
Proof.
  intros (Hb & Hcap & Hpos & Hin) Hn. destruct (FastBuf.ensure_capacity_ok n (buf b) (contents b) Hb Hn) as (v & E & Hv & Hle).
  unfold ensure_read_capacity. rewrite E. simpl. eexists. split; [done|].
  assert (Hc : contents (set_buf v b) = contents b) by (apply contents_eq; exact Hv).
  split; [|by split_and!]. apply rd_wf_buf with (contents b); [exact Hv| |done|done]. simpl. lia.
Qed.

Lemma take_read_buf_ok b : rd_wf b -> can_take_read_buf b = true ->
  exists b', take_read_buf b = Done (buffered b, b') /\ rd_wf b' /\ tx_fields b' = tx_fields b /\
    incoming b = buffered b ++ incoming b' /\ buffered b' = [] /\ inner b' = inner b /\ pos b' = 0.
Proof.
  intros (Hb & Hcap & Hpos & Hin) Ht%Z.eqb_eq.
  assert (FastBuf.capacity (buf b) <= isize_max) by (destruct Hb as [Hw _]; apply Hw).
  destruct (FastBuf.with_capacity_ok (FastBuf.capacity (buf b))) as (v & E & Hv & Hc); [lia|].
  unfold take_read_buf. rewrite E. simpl. rewrite (FastBuf.into_vec_ok _ _ Hb). simpl.
  assert (buffered b = contents b) as -> by (unfold buffered; by rewrite Ht).
  set (b' := set_pos _ _). assert (Hcn : contents b' = []) by (apply contents_eq; exact Hv).
  exists b'. split; [done|]. unfold incoming, buffered at 2. rewrite Hcn.
  split; [apply rd_wf_buf with []; subst b'; simpl; auto; lia|].
  unfold buffered. rewrite Hcn, Ht. auto.
Qed.
End ReadLemmas.

(** ** The write side sends every accepted buffer, in order *)

Section WriteLemmas.
Context {prof : Profile} {R : Type} `{DuplexSpec R}.
Implicit Types (b : t R).

(** The tail of a half-finished write. *)
Definition unsent b : bytes :=
  match write_buf b with Some cb => ConsumeBuf.left cb | None => [] end.

(** Everything the writer of [b] has handed over. *)
Definition outgoing b : bytes := w_sent (inner b) ++ unsent b.

(** A write is recorded as pending only while there is something to finish. *)
Definition tx_wf b : Prop :=
  (match write_buf b with Some cb => ConsumeBuf.wf cb | None => True end) /\
  (pending_tx b = true -> unsent b <> [] \/ need_flush b = true).

(** The fields of the read side, and what is still to be read. *)
Definition rx_fields b := (buf b, pos b, pending_rx b, r_stream (inner b)).

Lemma inner_write_wp d b (Q : poll (io_result Z) -> t R -> Prop) : d <> [] ->
  (forall r i, match r with
     | Ready (Ok n) => 0 < n <= zlen d /\ w_sent i = w_sent (inner b) ++ ztake n d
     | _ => w_sent i = w_sent (inner b)
     end -> r_stream i = r_stream (inner b) -> Q r (set_inner i b)) ->
  wp (inner_write d) b Q.
Proof.
  intros Hd HQ. unfold wp, inner_write. pose proof (write_ok d (inner b) Hd) as Hw.
  pose proof (write_stream d (inner b)) as Hs.
  destruct (poll_write d (inner b)) as [r i]. simpl in *. apply HQ; [|done]. by destruct r as [|[|]].
Qed.

Lemma inner_flush_wp b (Q : poll (io_result unit) -> t R -> Prop) :
  (forall r i, w_sent i = w_sent (inner b) ->
     (r = Ready (Ok tt) -> w_flushed i = zlen (w_sent i)) ->
     r_stream i = r_stream (inner b) -> Q r (set_inner i b)) ->
  wp inner_flush b Q.
Proof.
  intros HQ. unfold wp, inner_flush. pose proof (flush_ok (inner b)) as Hf.
  pose proof (flush_stream (inner b)) as Hs.
  destruct (poll_flush (inner b)) as [r i]. simpl in *.
  destruct r as [|[[]|]]; apply HQ; try done; [apply Hf | intros _; apply Hf].
Qed.

Lemma can_poll_write_iff b : can_poll_write b = true <->
  write_buf b = None /\ need_flush b = false /\ pending_tx b = false.
Proof.
  unfold can_poll_write. rewrite !andb_true_iff, !negb_true_iff, bool_decide_eq_true. tauto.
Qed.

(** The loop over [write_buf]. *)
Lemma finish_write_loop_wp fuel b : tx_wf b -> is_Some (write_buf b) ->
  zlen (unsent b) < Z.of_nat fuel ->
  wp (iter fuel finish_write_turn tt) b (fun r b' =>
    tx_wf b' /\ rx_fields b' = rx_fields b /\ outgoing b' = outgoing b /\
    need_flush b' = need_flush b /\
    match r with
    | Ready (Ok _) => unsent b' = []
    | Pending => pending_tx b' = true /\ is_Some (write_buf b')
    | Ready (Err _) => True
    end).
Proof.
  intros Hwf Hsome Hfuel.
  apply (wp_iter (fun _ b' => tx_wf b' /\ rx_fields b' = rx_fields b /\ outgoing b' = outgoing b /\
      need_flush b' = need_flush b /\ is_Some (write_buf b'))
    (fun _ b' => length (unsent b'))); [|auto 10|unfold zlen in Hfuel; lia].
  clear Hwf Hsome Hfuel. intros [] b1 ([Hcb Htx] & Hrx & Hout & Hnf & [cb Hw]). rewrite Hw in Hcb.
  assert (Hun : unsent b1 = ConsumeBuf.left cb) by (unfold unsent; by rewrite Hw).
  unfold finish_write_turn. wp_steps. rewrite Hw. wp_steps.
  rewrite (ConsumeBuf.is_empty_ok cb Hcb). wp_steps. case_bool_decide as Hempty.
  - wp_steps. split; [split; [by rewrite Hw|done]|]. repeat split; auto. by rewrite Hun.
  - wp_steps. rewrite (ConsumeBuf.cb_deref_ok cb Hcb). wp_steps.
    apply inner_write_wp; [done|]. intros r i Hr Hs. wp_steps.
    assert (Hout1 : outgoing b1 = w_sent (inner b1) ++ ConsumeBuf.left cb) by by rewrite <- Hun.
    destruct r as [|[n|e]].
    + wp_steps. unfold tx_wf, outgoing, rx_fields, unsent in *. simpl. rewrite Hw in *. simpl in *.
      split_and!; eauto; congruence.
    + destruct Hr as [Hn Hsent]. wp_steps.
      destruct (ConsumeBuf.cb_consume_ok cb n Hcb) as (cb' & E & Hcb' & Hleft); [lia|].
      rewrite E. wp_steps. unfold tx_wf, outgoing, rx_fields, unsent in *. simpl. rewrite Hw in *.
      simpl in *. rewrite Hleft, Hsent, Hs, <- app_assoc, ztake_zdrop.
      split; [split_and!; eauto; congruence|].
      assert (zlen (zdrop n (ConsumeBuf.left cb)) = zlen (ConsumeBuf.left cb) - n)
        by (apply zlen_zdrop; lia).
      unfold zlen in *. lia.
    + wp_steps. unfold tx_wf, outgoing, rx_fields, unsent in *. simpl. rewrite Hw in *. simpl in *.
      split_and!; eauto; congruence.
Qed.

(** What [poll_finish_pending_write] promises. *)
Definition finished b (r : poll (io_result unit)) b' : Prop :=
  tx_wf b' /\ rx_fields b' = rx_fields b /\ outgoing b' = outgoing b /\
  match r with
  | Ready (Ok _) => can_poll_write b' = true /\ unsent b' = [] /\
      (need_flush b = true -> w_flushed (inner b') = zlen (w_sent (inner b')))
  | Pending => pending_tx b' = true /\ can_poll_write b' = false
  | Ready (Err _) => True
  end.

Lemma not_can_poll_write b : pending_tx b = true -> can_poll_write b = false.
Proof. intros E. unfold can_poll_write. by rewrite E, andb_false_r. Qed.

(** The flush at the end of [poll_finish_pending_write]. *)
Lemma finish_flush_wp b : tx_wf b -> write_buf b = None ->
  wp finish_flush b (finished b).
Proof.
  intros [_ Htx] Hw. assert (Hun : unsent b = []) by (unfold unsent; by rewrite Hw).
  unfold finish_flush. wp_steps. destruct (need_flush b) eqn:Hnf.
  - wp_steps. apply inner_flush_wp. intros r i Hsent Hfl Hs. wp_steps.
    destruct r as [|[[]|e]]; wp_steps;
      unfold finished, tx_wf, outgoing, rx_fields, unsent in *; simpl; rewrite Hw in *; simpl in *.
    + rewrite not_can_poll_write by done. split_and!; eauto; congruence.
    + rewrite can_poll_write_iff. simpl. split_and!; eauto; congruence.
    + split_and!; eauto; congruence.
  - wp_steps. unfold finished. rewrite can_poll_write_iff.
    assert (pending_tx b = false).
    { destruct (pending_tx b); [|done]. destruct (Htx eq_refl); congruence. }
    unfold tx_wf. rewrite Hw. split_and!; eauto; congruence.
Qed.

Lemma poll_finish_pending_write_wp fuel b : tx_wf b -> zlen (unsent b) < Z.of_nat fuel ->
  wp (poll_finish_pending_write fuel) b (finished b).
Proof.
  intros Hwf Hfuel. unfold poll_finish_pending_write. wp_steps.
  destruct (write_buf b) as [cb|] eqn:Hw; [|wp_steps; by apply finish_flush_wp].
  apply wp_bind. eapply wp_mono; [apply finish_write_loop_wp; [done | by rewrite Hw | done]|].
  intros r b1 (Hwf1 & Hrx & Hout & Hnf & Hr). destruct r as [|[[]|e]]; wp_steps.
  - destruct Hr as [Hp _]. unfold finished. rewrite not_can_poll_write by done. auto.
  - assert (Hu1 : unsent (set_write_buf None b1) = []) by done.
    eapply wp_mono; [apply finish_flush_wp; [|done]|].
    + destruct Hwf1 as [_ Htx]. split; [done|]. intros Hp. rewrite Hu1. right.
      by destruct (Htx Hp) as [|].
    + intros r' b'. unfold finished. simpl. rewrite <- Hnf, <- Hrx.
      assert (outgoing (set_write_buf None b1) = outgoing b) as ->.
      { rewrite <- Hout. unfold outgoing. by rewrite Hr, Hu1. }
      done.
  - by unfold finished.
Qed.

(** Nothing pending: [poll_finish_pending_write] does nothing. *)
Lemma poll_finish_idle fuel b : can_poll_write b = true ->
  poll_finish_pending_write fuel b = Done (Ready (Ok tt), b).
Proof.
  intros (Hw & Hn & _)%can_poll_write_iff. unfold poll_finish_pending_write, finish_flush, mbind, io_bind, get.
  rewrite Hw. cbn. by rewrite Hn.
Qed.

(** The loop of [poll_write_all]: [d] is written from [p] on. *)
Definition write_all_inv b (d : bytes) (p : Z) b1 : Prop :=
  0 <= p <= zlen d /\ rx_fields b1 = rx_fields b /\ write_buf b1 = None /\
  need_flush b1 = false /\ pending_tx b1 = false /\
  w_sent (inner b1) = w_sent (inner b) ++ ztake p d.

Lemma write_all_loop_wp fuel flush d b :
  can_poll_write b = true -> zlen d < Z.of_nat fuel -> zlen d <= isize_max ->
  wp (iter fuel (write_all_turn d flush) 0) b (fun r b' =>
    match r with
    | Ready (Ok _) => write_all_inv b d (zlen d) b'
    | Pending => pending_tx b' = true /\ tx_wf b' /\ rx_fields b' = rx_fields b /\
        outgoing b' = outgoing b ++ d /\ need_flush b' = flush /\ zlen (unsent b') <= zlen d
    | Ready (Err _) => exists p, write_all_inv b d p b'
    end).
Proof.
  intros (Hw & Hn & Hp)%can_poll_write_iff Hfuel Hmax.
  assert (Hout : outgoing b = w_sent (inner b)) by (unfold outgoing, unsent; by rewrite Hw, app_nil_r).
  apply (wp_iter (write_all_inv b d) (fun p _ => Z.to_nat (zlen d - p)));
    [|unfold write_all_inv; rewrite ztake_0, app_nil_r; zlen_facts; split_and!; auto; lia
     |zlen_facts; lia].
  intros p b1 Hinv. pose proof Hinv as (Hpd & Hrx & Hw1 & Hn1 & Hp1 & Hsent).
  unfold write_all_turn. destruct (Z.eqb_spec p (zlen d)) as [->|Hne]; [by wp_steps|].
  wp_steps. unfold slice_from. rewrite (proj2 (Z.leb_le _ _)) by lia. wp_steps.
  assert (Hrest : zlen (zdrop p d) = zlen d - p) by (apply zlen_zdrop; lia).
  apply inner_write_wp; [rewrite <- zlen_zero; lia|]. intros r i Hr Hs.
  assert (Hrx' : forall x, (buf b1, pos b1, pending_rx b1, r_stream i) = x -> rx_fields b1 = x)
    by (intros x <-; unfold rx_fields; by rewrite Hs).
  destruct r as [|[n|e]]; wp_steps.
  - unfold tx_wf, outgoing, unsent, rx_fields in *. simpl. rewrite Hs, Hr, Hsent, <- app_assoc.
    unfold ConsumeBuf.left, ConsumeBuf.wf. simpl. rewrite zdrop_0, ztake_zdrop, Hw, app_nil_r.
    split_and!; auto; try lia.
    intros _. left. rewrite <- zlen_zero. lia.
  - destruct Hr as [Hnn Hi]. wp_steps. split; [|zlia].
    unfold write_all_inv, rx_fields in *. simpl. rewrite Hs, Hi, Hsent, <- app_assoc.
    split_and!; auto; try lia. f_equal. rewrite <- (ztake_zdrop p d) at 3.
    rewrite <- (ztake_zdrop n (zdrop p d)) at 2. rewrite app_assoc.
    set (x := ztake p d ++ ztake n (zdrop p d)).
    replace (p + n) with (zlen x); [by rewrite ztake_app_length|].
    unfold x. rewrite zlen_app, !zlen_ztake_le; lia.
  - exists p. unfold write_all_inv, rx_fields in *. simpl. rewrite Hs, Hr. split_and!; auto; lia.
Qed.

(** What becomes of a buffer [d] that [poll_write_all] has taken. *)
Definition took (flush : bool) b (d : bytes) (r : poll (io_result unit)) b' : Prop :=
  tx_wf b' /\ rx_fields b' = rx_fields b /\
  match r with
  | Ready (Ok _) => outgoing b' = outgoing b ++ d /\ unsent b' = [] /\ can_poll_write b' = true /\
      (flush = true -> w_flushed (inner b') = zlen (w_sent (inner b')))
  | Pending => pending_tx b' = true /\ outgoing b' = outgoing b ++ d /\ need_flush b' = flush /\
      zlen (unsent b') <= zlen d
  | Ready (Err _) => exists k, k `prefix_of` d /\ outgoing b' = outgoing b ++ k
  end.

Lemma write_all_inv_out b d p b1 : can_poll_write b = true -> write_all_inv b d p b1 ->
  tx_wf b1 /\ rx_fields b1 = rx_fields b /\ outgoing b1 = outgoing b ++ ztake p d /\
  can_poll_write b1 = true /\ unsent b1 = [].
Proof.
  intros (Hw & Hn & Hp)%can_poll_write_iff (_ & Hrx & Hw1 & Hn1 & Hp1 & Hsent).
  rewrite can_poll_write_iff. unfold tx_wf, outgoing, unsent. rewrite Hw, Hw1, Hn1, Hp1, !app_nil_r.
  split_and!; try done.
Qed.

Lemma write_taken_wp fuel flush d b :
  can_poll_write b = true -> zlen d < Z.of_nat fuel -> zlen d <= isize_max ->
  wp (write_taken fuel d flush) b (took flush b d).
Proof.
  intros Hcan Hfuel Hmax. unfold write_taken. apply wp_bind.
  eapply wp_mono; [by apply write_all_loop_wp|]. intros r b1 Hr. destruct r as [|[[]|e]]; wp_steps.
  - unfold took. tauto.
  - apply write_all_inv_out in Hr as (Hwf & Hrx & Hout & Hc1 & Hu1); [|done].
    rewrite ztake_all in Hout by lia. destruct flush; [|by wp_steps; unfold took].
    pose proof (proj1 (can_poll_write_iff b1) Hc1) as (Hw1 & Hn1 & Hp1).
    wp_steps. apply inner_flush_wp. intros r i Hsent Hfl Hs. wp_steps.
    destruct r as [|[[]|e]]; wp_steps; unfold took, tx_wf, outgoing, rx_fields, unsent in *; simpl;
      rewrite ?can_poll_write_iff, ?Hw1 in *; simpl in *; rewrite ?app_nil_r, ?Hsent, ?Hs in *.
    + split_and!; auto. change (zlen (@nil byte)) with 0. apply zlen_nonneg.
    + split_and!; auto.
    + split_and!; auto. exists d. by split.
  - destruct Hr as (p & Hr). apply write_all_inv_out in Hr as (Hwf & Hrx & Hout & Hc1 & Hu1); [|done].
    split; [done|]. split; [done|]. exists (ztake p d). split; [|done].
    exists (zdrop p d). by rewrite ztake_zdrop.
Qed.

(** What [poll_write_all] promises of the buffer [o] it is given, and [o'],
    what it left of it. *)
Definition wrote_all (flush : bool) b (o : option bytes) (r : poll (io_result unit))
    b' (o' : option bytes) : Prop :=
  tx_wf b' /\ rx_fields b' = rx_fields b /\
  match r with
  | Ready (Ok _) => o' = None /\ outgoing b' = outgoing b ++ default [] o /\ unsent b' = [] /\
      can_poll_write b' = true /\
      (flush = true -> is_Some o -> w_flushed (inner b') = zlen (w_sent (inner b')))
  | Pending => pending_tx b' = true /\ (can_poll_write b = true -> o' = None) /\
      (o' = o /\ outgoing b' = outgoing b \/
       o' = None /\ is_Some o /\ outgoing b' = outgoing b ++ default [] o /\ need_flush b' = flush)
  | Ready (Err _) => exists k, k `prefix_of` default [] o /\ outgoing b' = outgoing b ++ k
  end.

(** From a state where nothing is pending, finishing is a no-op. *)
Lemma finish_or_idle_wp fuel b : tx_wf b -> zlen (unsent b) < Z.of_nat fuel ->
  wp (poll_finish_pending_write fuel) b (fun r b1 =>
    finished b r b1 /\ (can_poll_write b = true -> r = Ready (Ok tt) /\ b1 = b)).
Proof.
  intros Hwf Hf. pose proof (poll_finish_pending_write_wp fuel b Hwf Hf) as Hfin.
  unfold wp in *. apply ewp_done in Hfin as ([r b1] & Hrun & Hfin). rewrite Hrun. simpl.
  split; [done|]. intros Hc. rewrite poll_finish_idle in Hrun by done. by injection Hrun as <- <-.
Qed.

Lemma poll_write_all_wp fuel flush b o : tx_wf b -> zlen (unsent b) < Z.of_nat fuel ->
  zlen (default [] o) < Z.of_nat fuel -> zlen (default [] o) <= isize_max ->
  wp (poll_write_all fuel flush) (b, o) (fun r st => wrote_all flush b o r st.1 st.2).
Proof.
  intros Hwf Hf1 Hf2 Hmax. unfold poll_write_all. apply wp_bind, wp_zoom.
  eapply wp_mono; [by apply finish_or_idle_wp|]. simpl.
  intros r b1 ((Hwf1 & Hrx & Hout & Hr) & Hidle). destruct r as [|[[]|e]]; simpl.
  - unfold wrote_all. split_and!; auto; try apply Hr. intros Hc. by destruct (Hidle Hc).
  - destruct Hr as (Hc1 & Hu1 & Hfl). pose proof (proj1 (can_poll_write_iff b1) Hc1) as (Hw1 & Hn1 & _).
    wp_steps; [cbn; by rewrite Hw1 | cbn; by rewrite Hn1 |]. cbn [fst snd].
    destruct o as [d|]; wp_steps.
    + cbn [fst]. eapply wp_mono; [by apply write_taken_wp|]. intros r b2 (Hwf2 & Hrx2 & Hr2).
      simpl. unfold wrote_all. rewrite <- Hout, <- Hrx. split; [done|]. split; [done|].
      destruct r as [|[[]|e]]; simpl; [|split_and!; auto; tauto|done].
      split_and!; try tauto. right. split_and!; try tauto. eauto.
    + unfold wrote_all. simpl. rewrite app_nil_r. split_and!; auto. by intros _ [].
  - unfold wrote_all. split_and!; auto. exists []. rewrite app_nil_r. split; [apply prefix_nil | done].
Qed.

(** With nothing pending the buffer is always taken over. *)
Lemma poll_write_idle_wp fuel flush b d : can_poll_write b = true ->
  zlen d < Z.of_nat fuel -> zlen d <= isize_max ->
  wp (poll_write_all fuel flush) (b, Some d) (fun r st => st.2 = None /\ took flush b d r st.1).
Proof.
  intros Hc Hf Hmax. unfold poll_write_all. apply wp_bind, wp_zoom. unfold wp at 1.
  rewrite poll_finish_idle by done. simpl. pose proof Hc as (Hw & Hn & _)%can_poll_write_iff.
  wp_steps; [cbn; by rewrite Hw | cbn; by rewrite Hn |]. cbn [fst snd]. wp_steps.
  eapply wp_mono; [by apply write_taken_wp|]. by intros r b'.
Qed.
End WriteLemmas.

(** ** What reads leave alone *)

Section ReadFrames.
Context {prof : Profile} {R : Type} `{DuplexSpec R}.
Implicit Types (b : t R).

(** Reading does not touch the write side, and keeps the buffer's bound. *)
Definition tx_same b b' : Prop := tx_fields b' = tx_fields b /\ w_sent (inner b') = w_sent (inner b).
Definition within b b' : Prop := rd_wf b -> rd_wf b' /\ span b' <= span b.
Definition rd_frame b b' : Prop := tx_same b b' /\ within b b'.

#[global] Instance tx_same_preorder : PreOrder tx_same.
Proof. split; [done|]. intros a b c [Ha Hb] [Hc Hd]. split; congruence. Qed.

#[global] Instance within_preorder : PreOrder within.
Proof.
  split; [by intros b Hb|]. intros a b c Hab Hbc Ha. destruct (Hab Ha) as [Hb ?].
  destruct (Hbc Hb). split; [done|lia].
Qed.

#[global] Instance rd_frame_preorder : PreOrder rd_frame.
Proof.
  split; [by split|]. intros a b c [Ha Hb] [Hc Hd]. split; by etransitivity.
Qed.

Lemma outgoing_frame b b' : tx_same b b' -> outgoing b' = outgoing b.
Proof. intros [Ht Hs]. unfold tx_fields in Ht. injection Ht as _ Hw _. unfold outgoing, unsent. by rewrite Hw, Hs. Qed.

Lemma keeps_inner_read n : keeps tx_same (inner_read n).
Proof.
  intros b r b'. unfold inner_read. pose proof (read_sent n (inner b)) as Hs.
  destruct (poll_read n (inner b)). intros [= <- <-]. by split.
Qed.

Lemma keeps_tx_modify (f : t R -> t R) : (forall b, tx_same b (f b)) -> keeps tx_same (modify f).
Proof. apply keeps_modify. Qed.

Hint Resolve keeps_inner_read : keeps.
Hint Extern 1 (keeps tx_same (modify _)) => apply keeps_tx_modify; by intros [] : keeps.

Lemma poll_read_buf_tx n : keeps tx_same (poll_read_buf n).
Proof. unfold poll_read_buf. keeps_tac. Qed.

(** An inner read changes nothing the bound depends on, except the stream. *)
Lemma inner_read_within n b r b' : inner_read n b = Done (r, b') ->
  buf b' = buf b /\ pos b' = pos b /\
  match r with
  | Ready (Ok d) => zlen d <= 0 `max` n /\ r_stream (inner b) = d ++ r_stream (inner b')
  | _ => r_stream (inner b') = r_stream (inner b)
  end.
Proof.
  unfold inner_read. pose proof (read_ok n (inner b)) as Hr.
  destruct (poll_read n (inner b)) as [r1 i]. intros [= <- <-]. simpl. do 2 (split; [done|]).
  destruct r1 as [|[d|e]]; tauto.
Qed.

Lemma within_same b b' : buf b' = buf b -> pos b' = pos b ->
  zlen (r_stream (inner b')) <= zlen (r_stream (inner b)) -> within b b'.
Proof.
  intros Hbuf Hpos Hle Hb. unfold rd_wf, span, contents in *. rewrite Hbuf, Hpos. split; [done|lia].
Qed.

Lemma poll_read_buf_within n : keeps within (poll_read_buf n).
Proof.
  intros b r b' E Hb. destruct (Z.lt_ge_cases 0 n) as [Hn|Hn].
  { pose proof (poll_read_buf_wp n b Hb Hn) as Hwp. unfold wp in Hwp. rewrite E in Hwp. simpl in Hwp. tauto. }
  pose proof Hb as (Hbuf & Hcap & Hpos & Hin). pose proof (FastBuf.len_ok _ _ Hbuf) as Hl.
  pose proof (zlen_nonneg (contents b)).
  assert (Hwp : wp (poll_read_buf n) b (fun _ b' => within b b')).
  { unfold poll_read_buf. wp_steps. rewrite Hl. wp_steps.
    destruct (Z.ltb_spec 0 (zlen (contents b) - pos b)) as [Hlt|Hge].
    - wp_steps. rewrite (FastBuf.deref_ok _ _ Hbuf). wp_steps.
      unfold slice_from at 1. rewrite (proj2 (Z.leb_le _ _)) by lia. simpl.
      assert (zlen (contents b) <= isize_max) by (destruct Hbuf as [Hw _]; unfold Vec.wf, FastBuf.len in *; lia).
      assert (Hz : ztake n (zdrop (pos b) (contents b)) = []) by (unfold ztake; by replace (Z.to_nat n) with 0%nat by lia).
      rewrite Hz. change (zlen (@nil byte)) with 0. wp_steps. rewrite Z.add_0_r.
      rewrite (proj2 (Z.eqb_neq _ _)) by lia. wp_steps. by apply within_same.
    - wp_steps. unfold wp at 1. unfold ewp. destruct (inner_read n b) as [[r1 b1]| |] eqn:E1;
        unfold inner_read in E1; destruct (poll_read n (inner b)) eqn:Ep; try done.
      destruct (inner_read_within n b r1 b1) as (? & ? & Hr); [unfold inner_read; by rewrite Ep|].
      simpl. assert (zlen (r_stream (inner b1)) <= zlen (r_stream (inner b))).
      { destruct r1 as [|[d|e]]; [by rewrite Hr|destruct Hr as [_ ->]; zlia|by rewrite Hr]. }
      destruct r1 as [|v]; wp_steps; by apply within_same. }
  unfold wp in Hwp. rewrite E in Hwp. by apply Hwp.
Qed.

Lemma poll_read_buf_frame n : keeps rd_frame (poll_read_buf n).
Proof. intros b r b' E. split; [by eapply poll_read_buf_tx | by eapply poll_read_buf_within]. Qed.

Lemma poll_fill_buf_tx force : keeps tx_same (poll_fill_buf force).
Proof. unfold poll_fill_buf, unread_slice. keeps_tac. Qed.
End ReadFrames.

#[global] Hint Resolve poll_read_buf_tx poll_read_buf_within poll_read_buf_frame poll_fill_buf_tx : keeps.

(** ** What the transport is given to do *)

Section Yields.
Context {prof : Profile} {R : Type} `{DuplexSpec R}.
Implicit Types (b : t R).

(** The transport does not get more stalls; and one of them was spent. *)
Definition lasts b b' : Prop := live R -> (stalls (inner b') <= stalls (inner b))%nat.
Definition spent b b' : Prop := live R -> (stalls (inner b') < stalls (inner b))%nat.

(** It holds the connection up, which is noted. *)
Definition held (flag : t R -> bool) b b' : Prop := flag b' = true /\ spent b b'.

#[global] Instance lasts_preorder : PreOrder lasts.
Proof. split; [by intros b _|]. intros a b c Hab Hbc Hl. specialize (Hab Hl). specialize (Hbc Hl). lia. Qed.

Lemma lasts_spent a b c : lasts a b -> spent b c -> spent a c.
Proof. intros Hab Hbc Hl. specialize (Hab Hl). specialize (Hbc Hl). lia. Qed.

Lemma lasts_held flag a b c : lasts a b -> held flag b c -> held flag a c.
Proof. intros Hab [Hf Hbc]. split; [done|]. by eapply lasts_spent. Qed.

Hint Resolve lasts_spent lasts_held : yields.
Hint Extern 1 (yields lasts _ (modify _)) => apply yields_modify; intros ? _; apply Nat.le_refl : yields.

Lemma inner_read_yields n : yields lasts spent (inner_read n).
Proof.
  intros b r b'. unfold inner_read. pose proof (read_spends n (inner b)) as Hr.
  destruct (poll_read n (inner b)). intros [= <- <-]. split; [intros Hl|intros Hp Hl]; by apply Hr.
Qed.

Lemma inner_write_yields d : yields lasts spent (inner_write d).
Proof.
  intros b r b'. unfold inner_write. pose proof (write_spends d (inner b)) as Hr.
  destruct (poll_write d (inner b)). intros [= <- <-]. split; [intros Hl|intros Hp Hl]; by apply Hr.
Qed.

Lemma inner_flush_yields : yields lasts spent inner_flush.
Proof.
  intros b r b'. unfold inner_flush. pose proof (flush_spends (inner b)) as Hr.
  destruct (poll_flush (inner b)). intros [= <- <-]. split; [intros Hl|intros Hp Hl]; by apply Hr.
Qed.

Ltac held_up := eapply yields_raw;
  [exact _|solve [eauto 2 with yields]|solve [apply inner_read_yields | apply inner_write_yields | apply inner_flush_yields]
  |intros b b1 r b' Hw Hs [= <- <-]; by split|intros [?|?]].

Lemma finish_write_turn_yields x : yields lasts (held pending_tx) (finish_write_turn x).
Proof. unfold finish_write_turn. yields_tac. held_up; yields_tac. Qed.

Lemma finish_flush_yields : yields lasts (held pending_tx) finish_flush.
Proof. unfold finish_flush. yields_tac. held_up; yields_tac. Qed.

Hint Resolve finish_write_turn_yields finish_flush_yields : yields.

Lemma poll_finish_pending_write_yields fuel : yields lasts (held pending_tx) (poll_finish_pending_write fuel).
Proof. unfold poll_finish_pending_write. yields_tac. Qed.

Lemma write_all_turn_yields d flush p : yields lasts (held pending_tx) (write_all_turn d flush p).
Proof. unfold write_all_turn. yields_tac. held_up; yields_tac. Qed.

Hint Resolve write_all_turn_yields : yields.

Lemma write_taken_yields fuel d flush : yields lasts (held pending_tx) (write_taken fuel d flush).
Proof. unfold write_taken. yields_tac. held_up; yields_tac. Qed.

Lemma poll_write_all_yields fuel flush : yields (St := t R * option bytes) (fst_rel lasts) (fst_rel (held pending_tx)) (poll_write_all fuel flush).
Proof.
  assert (HP : forall a b c : t R * option bytes, fst_rel lasts a b -> fst_rel (held pending_tx) b c -> fst_rel (held pending_tx) a c)
    by (intros a b c; apply lasts_held).
  assert (Hon : forall A (m : io (t R) A), yields lasts (held pending_tx) m ->
    yields (St := t R * option bytes) (fst_rel lasts) (fst_rel (held pending_tx)) (on_fst m))
    by (intros A m Hm; by apply (yields_zoom _ _ lasts (held pending_tx))).
  assert (Hmod : yields (St := t R * option bytes) (fst_rel lasts) (fst_rel (held pending_tx)) (modify (fun st => (st.1, None))))
    by (by apply yields_modify; intros [b o] _; apply Nat.le_refl).
  pose proof poll_finish_pending_write_yields. pose proof write_taken_yields.
  unfold poll_write_all. yields_tac.
Qed.

Lemma poll_read_buf_yields n : yields lasts (held pending_rx) (poll_read_buf n).
Proof. unfold poll_read_buf. yields_tac. held_up; yields_tac. Qed.

Lemma poll_fill_buf_yields force : yields lasts (held pending_rx) (poll_fill_buf force).
Proof. unfold poll_fill_buf, unread_slice. yields_tac. held_up; yields_tac. Qed.
End Yields.

#[global] Hint Resolve lasts_spent lasts_held : yields.
#[global] Hint Resolve poll_finish_pending_write_yields write_taken_yields poll_read_buf_yields poll_fill_buf_yields : yields.
End BufIo.

(** ** Properties *)

Section Properties.
Context {prof : Profile} {R : Type} `{DuplexSpec R}.
Implicit Types (b : BufIo.t R).

(** The operations of the read side, with the bytes each hands out. *)
Inductive rx_step b : bytes -> BufIo.t R -> Prop :=
  | rx_read n r b' : 0 < n -> BufIo.poll_read_buf n b = Done (r, b') ->
      rx_step b (match r with Ready (Ok d) => d | _ => [] end) b'
  | rx_fill force_append r b' : BufIo.poll_fill_buf force_append b = Done (r, b') -> rx_step b [] b'
  | rx_consume n b' : 0 <= n <= isize_max -> BufIo.consume n b = Done b' -> rx_step b (ztake n (BufIo.buffered b)) b'
  | rx_take v b' : BufIo.can_take_read_buf b = true -> BufIo.take_read_buf b = Done (v, b') ->
      rx_step b v b'.

Inductive rx_steps b : bytes -> BufIo.t R -> Prop :=
  | rx_none : rx_steps b [] b
  | rx_more d b1 ds b2 : rx_steps b ds b1 -> rx_step b1 d b2 -> rx_steps b (ds ++ d) b2.

Lemma poll_fill_buf_done force b r b' : BufIo.rd_wf b -> BufIo.poll_fill_buf force b = Done (r, b') ->
  BufIo.rd_wf b' /\ BufIo.incoming b' = BufIo.incoming b.
Proof.
  intros Hb Hrun.
  destruct (decide (force = true /\ ~ (zlen (BufIo.contents b) < FastBuf.capacity (BufIo.buf b) \/
      FastBuf.capacity (BufIo.buf b) < MAX_CAPACITY))) as [[-> Hfull]|Hroom].
  - exfalso. pose proof Hb as (Hbuf & _). pose proof (FastBuf.len_ok _ _ Hbuf) as Hl.
    pose proof Hbuf as [[? _] _]. unfold FastBuf.len, FastBuf.capacity in *.
    destruct (borrow_full_panics _ _ Hbuf) as [p Hp]; [unfold FastBuf.capacity; lia..|].
    unfold BufIo.poll_fill_buf, mbind, io_bind, get, lift in Hrun. rewrite orb_true_r, Hp in Hrun. done.
  - pose proof (BufIo.poll_fill_buf_wp force b Hb) as Hwp. unfold wp in Hwp. rewrite Hrun in Hwp.
    destruct Hwp as (Hwf & _ & _ & Hf).
    { intros ->. destruct (decide (zlen (BufIo.contents b) < FastBuf.capacity (BufIo.buf b) \/
        FastBuf.capacity (BufIo.buf b) < MAX_CAPACITY)); [done|]. exfalso. by apply Hroom. }
    split; [done|]. destruct r as [|[v|e]]; simpl in Hf; tauto.
Qed.

Lemma consume_done n b b' : BufIo.rd_wf b -> 0 <= n <= isize_max -> BufIo.consume n b = Done b' ->
  BufIo.rd_wf b' /\ BufIo.incoming b = ztake n (BufIo.buffered b) ++ BufIo.incoming b'.
Proof.
  intros Hb Hn Hrun. pose proof (BufIo.buffered_len b Hb) as Hlen.
  assert (Hle : n <= zlen (BufIo.buffered b)).
  { pose proof Hb as (Hbuf & _ & Hp & Hin). rewrite Hlen. pose proof (FastBuf.len_ok _ _ Hbuf) as Hl.
    pose proof Hbuf as [[Hcap Hmax] _]. pose proof (zlen_nonneg (BufIo.contents b)). unfold BufIo.consume, FastBuf.len in *.
    destruct (Z.le_gt_cases n (zlen (BufIo.contents b) - BufIo.pos b)); [done|].
    rewrite uadd_ok in Hrun by (unfold isize_max, u64_max in *; lia). simpl in Hrun.
    by rewrite Hl, (proj2 (Z.leb_gt _ _)) in Hrun by lia. }
  destruct (BufIo.consume_ok n b Hb) as (b2 & E & Hwf & _ & _ & _ & Hin & _); [lia|].
  rewrite E in Hrun. by injection Hrun as <-.
Qed.

Lemma rx_step_ok b d b' : BufIo.rd_wf b -> rx_step b d b' ->
  BufIo.rd_wf b' /\ BufIo.incoming b = d ++ BufIo.incoming b'.
Proof.
  intros Hb [n r b1 Hn Hrun|force r b1 Hrun|n b1 Hn Hrun|v b1 Ht Hrun].
  - pose proof (BufIo.poll_read_buf_wp n b Hb Hn) as Hwp. unfold wp in Hwp. rewrite Hrun in Hwp.
    destruct Hwp as (Hwf & _ & Hd & _). split; [done|].
    destruct r as [|[v|e]]; simpl in Hd; simpl; [symmetry|..|symmetry]; tauto.
  - destruct (poll_fill_buf_done force b r b1 Hb Hrun) as [Hwf Hin]. split; [done|]. by rewrite Hin.
  - by apply consume_done.
  - destruct (BufIo.take_read_buf_ok b Hb Ht) as (b2 & E & Hwf & _ & Hin & _).
    rewrite E in Hrun. by injection Hrun as <- <-.
Qed.

(** C20. The read side is the transport's stream, whatever the mix of
    operations: reads, peeks with [poll_fill_buf] (appending or not),
    [consume] and [take_read_buf], interrupted or failing at any point.  In
    every run, the bytes handed out so far, followed by what is still to come,
    are the stream: no byte is lost, repeated or reordered. *)
Theorem reads_follow_the_stream b ds b' : BufIo.rd_wf b -> rx_steps b ds b' ->
  BufIo.rd_wf b' /\ BufIo.incoming b = ds ++ BufIo.incoming b'.
Proof.
  intros Hb Hrun. induction Hrun as [|d b1 ds b2 _ IH Hstep]; [done|].
  destruct IH as [Hb1 ->]. apply rx_step_ok in Hstep as [Hb2 ->]; [|done].
  by rewrite app_assoc.
Qed.

(** The operations of the write side that a connection uses, with the bytes
    each takes over from its caller, while none of them fails. *)
Inductive tx_step b : bytes -> BufIo.t R -> Prop :=
  | tx_write_all fuel flush o r o' b' :
      zlen (BufIo.unsent b) < Z.of_nat fuel -> zlen (default [] o) < Z.of_nat fuel ->
      zlen (default [] o) <= isize_max ->
      BufIo.poll_write_all fuel flush (b, o) = Done (r, (b', o')) ->
      (forall e, r <> Ready (Err e)) ->
      tx_step b (match o' with None => default [] o | Some _ => [] end) b'
  | tx_finish fuel r b' : zlen (BufIo.unsent b) < Z.of_nat fuel ->
      BufIo.poll_finish_pending_write fuel b = Done (r, b') ->
      (forall e, r <> Ready (Err e)) -> tx_step b [] b'.

Inductive tx_steps b : bytes -> BufIo.t R -> Prop :=
  | tx_none : tx_steps b [] b
  | tx_more d b1 ds b2 : tx_steps b ds b1 -> tx_step b1 d b2 -> tx_steps b (ds ++ d) b2.

Lemma tx_step_ok b d b' : BufIo.tx_wf b -> tx_step b d b' ->
  BufIo.tx_wf b' /\ BufIo.rx_fields b' = BufIo.rx_fields b /\
  BufIo.outgoing b' = BufIo.outgoing b ++ d.
Proof.
  intros Hb [fuel flush o r o' b1 Hf1 Hf2 Hmax Hrun Hne|fuel r b1 Hf Hrun Hne].
  - pose proof (BufIo.poll_write_all_wp fuel flush b o Hb Hf1 Hf2 Hmax) as Hwp.
    unfold wp in Hwp. rewrite Hrun in Hwp. destruct Hwp as (Hwf & Hrx & Hr). simpl in *.
    split; [done|]. split; [done|]. destruct r as [|[[]|e]]; [| |by destruct (Hne e)].
    + destruct Hr as (_ & _ & [[-> ->]|(-> & _ & -> & _)]); [|done].
      destruct o; simpl; by rewrite app_nil_r.
    + by destruct Hr as (-> & -> & _).
  - pose proof (BufIo.poll_finish_pending_write_wp fuel b Hb Hf) as Hwp.
    unfold wp in Hwp. rewrite Hrun in Hwp. destruct Hwp as (Hwf & Hrx & Hout & _). simpl in *.
    rewrite Hout, app_nil_r. done.
Qed.

(** C19. The write side sends every buffer exactly once and in order, however
    often the transport accepts only a part or is not ready: over any run of
    [poll_write_all] and [poll_finish_pending_write] calls that report no
    error, what the transport has accepted plus the tail that is kept for
    later is what it had before plus the buffers taken over so far; and when
    [can_poll_write] allows the next write, all of it has reached the
    transport.  The read side is never disturbed. *)
Theorem writes_keep_order b ds b' : BufIo.tx_wf b -> tx_steps b ds b' ->
  BufIo.tx_wf b' /\ BufIo.rx_fields b' = BufIo.rx_fields b /\
  w_sent (BufIo.inner b') ++ BufIo.unsent b' = w_sent (BufIo.inner b) ++ BufIo.unsent b ++ ds /\
  (BufIo.can_poll_write b' = true ->
   w_sent (BufIo.inner b') = w_sent (BufIo.inner b) ++ BufIo.unsent b ++ ds).
Proof.
  intros Hb Hrun.
  assert (Hall : BufIo.tx_wf b' /\ BufIo.rx_fields b' = BufIo.rx_fields b /\
    BufIo.outgoing b' = BufIo.outgoing b ++ ds).
  { induction Hrun as [|d b1 ds b2 _ IH Hstep]; [by rewrite app_nil_r|].
    destruct IH as (Hb1 & Hrx1 & Hout1). apply tx_step_ok in Hstep as (Hb2 & Hrx2 & Hout2); [|done].
    split; [done|]. split; [congruence|]. by rewrite Hout2, Hout1, app_assoc. }
  destruct Hall as (Hwf & Hrx & Hout). unfold BufIo.outgoing in Hout. rewrite <- app_assoc in Hout.
  split_and!; auto. intros (Hw & _)%BufIo.can_poll_write_iff. rewrite <- Hout.
  unfold BufIo.unsent. by rewrite Hw, app_nil_r.
Qed.

(** C22. [poll_write_all] is resumable: whatever the poll answers, the buffer
    is either still the caller's or has been taken over whole.  Taken over and
    [Pending], its tail is kept with the flush that was asked for; [Ready]
    means every byte was accepted by the transport and, with [flush], flushed;
    a failure leaves a front of the buffer sent.  A poll that may write at
    once always takes the buffer.  It always ends, without panicking. *)
Theorem poll_write_all_resumes fuel flush b o :
  BufIo.tx_wf b -> zlen (BufIo.unsent b) < Z.of_nat fuel ->
  zlen (default [] o) < Z.of_nat fuel -> zlen (default [] o) <= isize_max ->
  wp (BufIo.poll_write_all fuel flush) (b, o) (fun r st =>
    let '(b', o') := st in
    BufIo.tx_wf b' /\ BufIo.rx_fields b' = BufIo.rx_fields b /\
    match r with
    | Ready (Ok _) => o' = None /\ BufIo.can_poll_write b' = true /\
        w_sent (BufIo.inner b') = w_sent (BufIo.inner b) ++ BufIo.unsent b ++ default [] o /\
        (flush = true -> is_Some o -> w_flushed (BufIo.inner b') = zlen (w_sent (BufIo.inner b')))
    | Pending => BufIo.can_poll_write b' = false /\ (BufIo.can_poll_write b = true -> o' = None) /\
        (o' = o /\ BufIo.outgoing b' = BufIo.outgoing b \/
         o' = None /\ BufIo.outgoing b' = BufIo.outgoing b ++ default [] o /\
         BufIo.need_flush b' = flush)
    | Ready (Err _) => exists k, k `prefix_of` default [] o /\
        BufIo.outgoing b' = BufIo.outgoing b ++ k
    end).
Proof.
  intros Hb Hf1 Hf2 Hmax. eapply wp_mono; [by apply BufIo.poll_write_all_wp|].
  intros r [b' o'] (Hwf & Hrx & Hr). cbn [fst snd] in *. do 2 (split; [done|]).
  destruct r as [|[[]|e]]; [|destruct Hr as (-> & Hout & Hun & Hcan & Hfl)|done].
  - destruct Hr as (Hp & Hcan & Hr). split; [by apply BufIo.not_can_poll_write|]. split; [done|].
    destruct Hr as [?|(-> & _ & ? & ?)]; [by left|by right].
  - do 2 (split; [done|]). split; [|done]. unfold BufIo.outgoing in Hout.
    by rewrite Hun, app_nil_r, <- app_assoc in Hout.
Qed.
End Properties.

(** A transport that accepts no byte of a write ([Ok(0)], which
    [AsyncWrite] allows) makes the write side spin: the loop that finishes a
    pending write never ends, however much fuel it is given, where a writer
    is expected to give up with [WriteZero]. *)
Theorem zero_write_spins {prof : Profile} {R : Type} `{AsyncRead R, AsyncWrite R} fuel
    (b : BufIo.t R) (cb : ConsumeBuf.t) :
  (forall d s, poll_write d s = (Ready (Ok 0), s)) ->
  BufIo.write_buf b = Some cb -> ConsumeBuf.wf cb -> ConsumeBuf.left cb <> [] ->
  BufIo.poll_finish_pending_write fuel b = NoFuel.
Proof.
  intros Hzero Hw Hcb Hleft. pose proof (zlen_nonneg (ConsumeBuf.left cb)).
  destruct (ConsumeBuf.cb_consume_ok cb 0 Hcb) as (cb' & E & Hcb' & Hl); [lia|].
  assert (cb' = cb) as ->.
  { unfold ConsumeBuf.consume in E. destruct Hcb as [? ?]. destruct cb as [l p]. simpl in *.
    rewrite uadd_ok in E by (unfold isize_max, u64_max in *; lia). simpl in E.
    rewrite Z.add_0_r, (proj2 (Z.leb_le _ _)) in E by lia. by injection E as <-. }
  assert (Hturn : forall b1, BufIo.write_buf b1 = Some cb ->
    exists b2, BufIo.finish_write_turn tt b1 = Done (Ready (Ok (inl tt)), b2) /\
      BufIo.write_buf b2 = Some cb).
  { intros b1 Hb1. exists (BufIo.set_write_buf (Some cb) (BufIo.set_pending_tx false
      (BufIo.set_inner (BufIo.inner b1) b1))). split; [|done].
    unfold BufIo.finish_write_turn, mbind, io_bind, get, lift. rewrite Hb1.
    rewrite (ConsumeBuf.is_empty_ok cb Hcb), bool_decide_eq_false_2 by done. simpl.
    rewrite (ConsumeBuf.cb_deref_ok cb Hcb). simpl. unfold raw, BufIo.inner_write. simpl.
    rewrite Hzero. simpl. rewrite E. done. }
  assert (Hloop : forall f b1, BufIo.write_buf b1 = Some cb -> iter f BufIo.finish_write_turn tt b1 = NoFuel).
  { induction f as [|f IH]; intros b1 Hb1; [done|]. simpl. unfold mbind, io_bind.
    destruct (Hturn b1 Hb1) as (b2 & -> & Hb2). by apply IH. }
  unfold BufIo.poll_finish_pending_write, mbind, io_bind, get. rewrite Hw.
  by rewrite Hloop.
Qed.

(** Consuming a part of the unread bytes only moves the position. *)
Lemma consume_part {prof : Profile} {R : Type} `{AsyncRead R, AsyncWrite R} n (b : BufIo.t R) :
  BufIo.rd_wf b -> 0 <= n < zlen (BufIo.contents b) - BufIo.pos b ->
  BufIo.consume n b = Done (BufIo.set_pos (BufIo.pos b + n) b).
Proof.
  intros (Hbuf & _ & Hp & Hin) Hn. pose proof (FastBuf.len_ok _ _ Hbuf) as Hl.
  pose proof Hbuf as [[Hcl Hcap] _]. unfold BufIo.consume, FastBuf.len, FastBuf.capacity in *.
  rewrite uadd_ok by (unfold isize_max, u64_max in *; lia). simpl.
  by rewrite Hl, (proj2 (Z.leb_le _ _)), (proj2 (Z.eqb_neq _ _)) by lia.
Qed.

(** Consumed bytes at the front of the read buffer are not reclaimed while
    a byte behind them is unread: consuming a part keeps the whole contents
    in place, so pipelined messages that never end where a read ends make the
    buffer grow, and a full buffer at [MAX_CAPACITY] panics on the next
    appending read, however few of its bytes are still unread. *)
Theorem full_read_buffer_panics {prof : Profile} {R : Type} `{AsyncRead R, AsyncWrite R} n (b b' : BufIo.t R) :
  BufIo.rd_wf b -> zlen (BufIo.contents b) = FastBuf.capacity (BufIo.buf b) ->
  MAX_CAPACITY <= FastBuf.capacity (BufIo.buf b) ->
  0 <= n < zlen (BufIo.buffered b) -> BufIo.consume n b = Done b' ->
  BufIo.buf b' = BufIo.buf b /\ zlen (BufIo.buffered b') = zlen (BufIo.buffered b) - n /\
  exists p, BufIo.poll_fill_buf true b' = Panic p.
Proof.
  intros Hb Hfull Hmax Hn Hrun. pose proof (BufIo.buffered_len b Hb) as Hlen.
  rewrite consume_part in Hrun by (done || lia). injection Hrun as <-.
  pose proof Hb as (Hbuf & _ & Hp & _). split; [done|]. split.
  - unfold BufIo.buffered, BufIo.contents in *. simpl. rewrite !zlen_zdrop by lia. lia.
  - destruct (borrow_full_panics _ _ Hbuf) as [p E]; [done|done|]. exists p.
    unfold BufIo.poll_fill_buf, mbind, io_bind, get, lift. simpl. by rewrite orb_true_r, E.
Qed.

(** *** Witnesses *)

Module BufExample.

Definition conn : BufIo.t Script.t :=
  BufIo.mk (Script.mk (Script.data (bs "GET ") ++ Script.RPending :: Script.data (bs "/ HTTP"))
    [Script.WAccept 2; Script.WPending; Script.WAccept 0] [Script.FPending] [] 0)
    (Vec.mk [] 8) 0 false false None false.

(** Peek, consume two bytes, read one, a stall, an appending peek. *)
Definition after_peek : BufIo.t Script.t :=
  BufIo.mk (Script.mk (Script.RPending :: Script.data (bs "/ HTTP"))
    [Script.WAccept 2; Script.WPending; Script.WAccept 0] [Script.FPending] [] 0)
    (Vec.mk (Some <$> bs "GET ") 8) 0 false false None false.
Definition after_consume : BufIo.t Script.t := BufIo.set_pos 2 after_peek.
Definition after_read : BufIo.t Script.t := BufIo.set_pos 3 after_peek.

(** A write of "Hello" of which three bytes are accepted, then two stalls. *)
Definition written : BufIo.t Script.t :=
  BufIo.mk (Script.mk (Script.data (bs "GET ") ++ Script.RPending :: Script.data (bs "/ HTTP"))
    [Script.WAccept 0] [Script.FPending] (bs "Hel") 0)
    (Vec.mk [] 8) 0 false true (Some (ConsumeBuf.new (bs "lo"))) true.

Lemma conn_rd_wf : BufIo.rd_wf conn.
Proof. repeat split; vm_compute; auto; discriminate. Qed.

Lemma conn_tx_wf : BufIo.tx_wf conn.
Proof. by split. Qed.

(** Ten megabytes, of which the last two bytes are unread. *)
Definition full_data : bytes := replicate (Z.to_nat MAX_CAPACITY) Byte.x00.
Definition full : BufIo.t Script.t :=
  BufIo.mk (Script.peer []) (Vec.mk (Some <$> full_data) MAX_CAPACITY) (MAX_CAPACITY - 2) false false None false.

Lemma full_len : zlen full_data = MAX_CAPACITY.
Proof. unfold full_data. rewrite zlen_replicate. apply Z2Nat.id. discriminate. Qed.

Lemma full_is_buf : FastBuf.is_buf (BufIo.buf full) full_data.
Proof.
  split; [|reflexivity]. unfold Vec.wf, Vec.len, full. cbn [BufIo.buf Vec.data Vec.cap].
  rewrite zlen_fmap, full_len. split; [lia|discriminate].
Qed.

Lemma full_contents : BufIo.contents full = full_data.
Proof. apply BufIo.contents_eq. exact full_is_buf. Qed.

Lemma full_wf : BufIo.rd_wf full.
Proof.
  apply (BufIo.rd_wf_buf full full_data full_is_buf).
  - reflexivity.
  - discriminate.
  - left. rewrite full_len. reflexivity.
Qed.

Lemma full_buffered : zlen (BufIo.buffered full) = 2.
Proof. rewrite (BufIo.buffered_len full full_wf), full_contents, full_len. reflexivity. Qed.

Lemma full_consume : BufIo.consume (prof := release) 1 full = Done (BufIo.set_pos (MAX_CAPACITY - 1) full).
Proof.
  rewrite consume_part; [|exact full_wf|].
  - cbn [full BufIo.pos]. by replace (MAX_CAPACITY - 2 + 1) with (MAX_CAPACITY - 1) by lia.
  - rewrite full_contents, full_len. cbn [full BufIo.pos]. lia.
Qed.
End BufExample.

Lemma reads_follow_the_stream_witness :
  BufIo.rd_wf BufExample.after_read /\
  BufIo.incoming BufExample.conn = bs "GET" ++ BufIo.incoming BufExample.after_read.
Proof.
  apply (reads_follow_the_stream (prof := dev)); [exact BufExample.conn_rd_wf|].
  apply (rx_more (prof := dev) _ (bs "T") BufExample.after_consume (bs "GE")).
  - apply (rx_more (prof := dev) _ (bs "GE") BufExample.after_peek []).
    + apply (rx_more (prof := dev) _ [] BufExample.conn []); [apply rx_none|].
      apply (rx_fill (prof := dev) _ false (Ready (Ok (bs "GET ")))). vm_compute. reflexivity.
    + apply (rx_consume (prof := dev) BufExample.after_peek 2); [split; discriminate|]. reflexivity.
  - apply (rx_read (prof := dev) _ 1 (Ready (Ok (bs "T")))); [reflexivity|]. vm_compute. reflexivity.
Defined.

Lemma writes_keep_order_witness :
  BufIo.tx_wf BufExample.written /\
  BufIo.rx_fields BufExample.written = BufIo.rx_fields BufExample.conn /\
  bs "Hel" ++ bs "lo" = [] ++ [] ++ bs "Hello" /\
  (BufIo.can_poll_write BufExample.written = true -> bs "Hel" = [] ++ [] ++ bs "Hello").
Proof.
  assert (Hrun : tx_steps (prof := dev) BufExample.conn (bs "Hello") BufExample.written).
  { apply (tx_more (prof := dev) _ (bs "Hello") BufExample.conn []); [apply tx_none|].
    apply (tx_write_all (prof := dev) _ 10 true (Some (bs "Hello")) Pending None).
    - reflexivity.
    - reflexivity.
    - discriminate.
    - vm_compute. reflexivity.
    - discriminate. }
  exact (writes_keep_order (prof := dev) BufExample.conn (bs "Hello") BufExample.written
    BufExample.conn_tx_wf Hrun).
Defined.

Lemma poll_write_all_resumes_witness :
  BufIo.poll_write_all (prof := dev) 10 true (BufExample.conn, Some (bs "Hello")) =
    Done (Pending, (BufExample.written, None)) /\
  BufIo.tx_wf BufExample.written /\ BufIo.can_poll_write BufExample.written = false /\
  BufIo.outgoing BufExample.written = BufIo.outgoing BufExample.conn ++ bs "Hello".
Proof.
  assert (E : BufIo.poll_write_all (prof := dev) 10 true (BufExample.conn, Some (bs "Hello")) =
    Done (Pending, (BufExample.written, None))) by (vm_compute; reflexivity).
  split; [exact E|].
  pose proof (poll_write_all_resumes (prof := dev) 10 true BufExample.conn (Some (bs "Hello"))
    BufExample.conn_tx_wf eq_refl eq_refl ltac:(discriminate)) as H.
  unfold wp in H. rewrite E in H. simpl in H.
  destruct H as (Hwf & _ & Hcan & _ & [[Hno _]|(_ & Hout & _)]); [discriminate|].
  split; [exact Hwf|]. split; [exact Hcan | exact Hout].
Defined.

(** A transport that never accepts a byte. *)
Module Stuck.
#[local] Instance stuck_read : AsyncRead unit := fun _ s => (Pending, s).
#[local] Instance stuck_write : AsyncWrite unit :=
  {| poll_write _ s := (Ready (Ok 0), s); poll_flush s := (Ready (Ok tt), s);
     poll_close s := (Ready (Ok tt), s) |}.

Definition conn : BufIo.t unit :=
  BufIo.mk tt (Vec.mk [] 8) 0 false true (Some (ConsumeBuf.new (bs "lo"))) false.

Lemma zero_write_spins_witness : BufIo.poll_finish_pending_write (prof := dev) 1000 conn = NoFuel.
Proof.
  apply (zero_write_spins (prof := dev) 1000 conn (ConsumeBuf.new (bs "lo"))).
  - reflexivity.
  - reflexivity.
  - repeat split; discriminate.
  - discriminate.
Defined.
End Stuck.

Lemma full_read_buffer_panics_witness :
  BufIo.buf (BufIo.set_pos (MAX_CAPACITY - 1) BufExample.full) = BufIo.buf BufExample.full /\
  zlen (BufIo.buffered (BufIo.set_pos (MAX_CAPACITY - 1) BufExample.full)) =
    zlen (BufIo.buffered BufExample.full) - 1 /\
  exists p, BufIo.poll_fill_buf (prof := release) true (BufIo.set_pos (MAX_CAPACITY - 1) BufExample.full) = Panic p.
Proof.
  apply (full_read_buffer_panics (prof := release) 1).
  - exact BufExample.full_wf.
  - rewrite BufExample.full_contents. exact BufExample.full_len.
  - discriminate.
  - rewrite BufExample.full_buffered. split; [discriminate | reflexivity].
  - exact BufExample.full_consume.
Defined.
