(* ===== verification/Chunked.v ===== *)
(** * Chunked transfer coding (src/chunked.rs)

    [ChunkedDecoder] reads a [transfer-encoding: chunked] body through a
    [BufIo]; [ChunkedEncoder] writes one.  The decoder is resumable: it may be
    interrupted by [Pending] at every byte.  Its reference is [feed], the
    automaton that takes one byte at a time: whatever the segmentation of the
    transport and the sizes of the caller's buffers, a poll of the decoder
    runs the automaton over the bytes it consumes. *)

From S2P Require Import Prelude.
From S2P Require Import Async.
From S2P Require Import Std_text.
From S2P Require Import Fast_buf.
From S2P Require Import Transport.
From S2P Require Import Buf_reader.

Abbreviation CR := Byte.x0d.
Abbreviation LF := Byte.x0a.
Definition CRLF : bytes := [CR; LF].

Inductive DecoderState := ChunkSize | ChunkSizeLf | Chunk | ChunkLf | End.

#[export] Instance DecoderState_eq_dec : EqDecision DecoderState.
Proof. solve_decision. Defined.

Module ChunkedDecoder.

Record t := mk {
  amount_left : Z;
  state : DecoderState;
  chunk_size_buf : bytes;
}.

Definition new : t := mk 0 ChunkSize [].

Definition is_end (d : t) : bool := bool_decide (state d = End).

Definition set_state (s : DecoderState) (d : t) : t := mk (amount_left d) s (chunk_size_buf d).

(** [c == ';' || c == '\r'] *)
Definition ends_size (c : byte) : bool := Byte.eqb c ";"%byte || Byte.eqb c CR.

(** The sixteen comparisons, lower and upper case. *)
Definition is_size_char (c : byte) : bool :=
  existsb (Byte.eqb c) (bs "0123456789abcdefABCDEF").

Definition eof_in_size : io_error := io_error_new UnexpectedEof [Lit "EOF while reading chunk size"].
Definition eof_before_lf : io_error := io_error_new UnexpectedEof [Lit "EOF before finding lf"].
Definition unexpected_char (c : byte) : io_error :=
  io_error_new InvalidData [Lit "Unexpected char in chunk size: "; CharDebug c].
Definition too_many_chars : io_error := io_error_new InvalidData [Lit "Too many chars in chunk size"].
Definition not_a_number : io_error := io_error_new InvalidData [Lit "Not a number in chunk size"].

(** The digits collected are ASCII, for which [from_utf8_lossy] is the
    identity. *)
Definition chunk_size (buf : bytes) : option Z := from_str_radix 16 (trim buf).

(** What follows [poll_chunk_size] in [poll_read]. *)
Definition start_chunk (d : t) : result t io_error :=
  match chunk_size (chunk_size_buf d) with
  | None => Err not_a_number
  | Some n => Ok (mk n (if n =? 0 then End else ChunkSizeLf) [])
  end.

Section Defs.
Context {prof : Profile} {R : Type} `{AsyncRead R, AsyncWrite R}.

(** [Pin::new(&mut *recv).poll_read(cx, ..)] *)
Definition recv_read (n : Z) : io (t * BufIo.t R) bytes := on_snd (BufIo.poll_read_buf n).

(** One turn of the loop of [poll_chunk_size]. *)
Definition chunk_size_turn (_ : unit) : io (t * BufIo.t R) (unit + unit) :=
  one ← recv_read 1;
  match one with
  | [] => io_err eof_in_size
  | c :: _ =>
      if ends_size c then mret (inr tt)
      else if is_size_char c then
        on_fst (modify (fun d => mk (amount_left d) (state d) (chunk_size_buf d ++ [c])));;
        self ← on_fst get;
        if 10 <? zlen (chunk_size_buf self) then io_err too_many_chars
        else mret (inl tt)
      else io_err (unexpected_char c)
  end.

Definition poll_chunk_size (fuel : nat) : io (t * BufIo.t R) unit := iter fuel chunk_size_turn tt.

(** One turn of the loop of [poll_skip_until_lf]. *)
Definition skip_turn (_ : unit) : io (t * BufIo.t R) (unit + unit) :=
  one ← recv_read 1;
  match one with
  | [] => io_err eof_before_lf
  | c :: _ => if Byte.eqb c LF then mret (inr tt) else mret (inl tt)
  end.

Definition poll_skip_until_lf (fuel : nat) : io (t * BufIo.t R) unit := iter fuel skip_turn tt.

(** One turn of the loop of [poll_read], for a buffer of [n] bytes. *)
Definition read_turn (fuel : nat) (n : Z) (_ : unit) : io (t * BufIo.t R) (unit + bytes) :=
  self ← on_fst get;
  match state self with
  | ChunkSize =>
      poll_chunk_size fuel;;
      self ← on_fst get;
      self ← io_of (start_chunk self);
      on_fst (modify (fun _ => self));;
      mret (inl tt)
  | ChunkSizeLf =>
      poll_skip_until_lf fuel;;
      on_fst (modify (set_state Chunk));;
      mret (inl tt)
  | Chunk =>
      let to_read := amount_left self `min` n in
      d ← recv_read to_read;
      left ← lift (usub (amount_left self) (zlen d));
      on_fst (modify (fun self => mk left (state self) (chunk_size_buf self)));;
      (if left =? 0 then on_fst (modify (set_state ChunkLf)) else mret tt);;
      mret (inr d)
  | ChunkLf =>
      poll_skip_until_lf fuel;;
      on_fst (modify (set_state ChunkSize));;
      mret (inl tt)
  | End => mret (inr [])
  end.

Definition poll_read (fuel : nat) (n : Z) : io (t * BufIo.t R) bytes :=
  lift (assert_ (0 <? n) "Chunk read with empty buf");;
  iter fuel (read_turn fuel n) tt.

Definition read (fuel polls : nat) (n : Z) : io (t * BufIo.t R) bytes :=
  await polls (poll_read fuel n).
End Defs.

(** The decoder only reads. *)
Section Frame.
Context {prof : Profile} {R : Type} `{DuplexSpec R}.

Lemma recv_read_frame n : keeps (snd_rel BufIo.rd_frame) (recv_read (R := R) n).
Proof. unfold recv_read. keeps_tac. Qed.

Hint Resolve recv_read_frame : keeps.

Lemma chunked_poll_read_frame fuel n : keeps (snd_rel BufIo.rd_frame) (poll_read (R := R) fuel n).
Proof.
  assert (Hsize : keeps (snd_rel BufIo.rd_frame) (poll_chunk_size (R := R) fuel))
    by (unfold poll_chunk_size, chunk_size_turn; keeps_tac).
  assert (Hskip : keeps (snd_rel BufIo.rd_frame) (poll_skip_until_lf (R := R) fuel))
    by (unfold poll_skip_until_lf, skip_turn; keeps_tac).
  unfold poll_read, read_turn. keeps_tac.
Qed.
End Frame.

#[global] Hint Resolve chunked_poll_read_frame : keeps.
End ChunkedDecoder.

(** ** The encoder *)

Module ChunkedEncoder.
Section Defs.
Context {prof : Profile}.

Definition write_chunk (buf : bytes) (out : FastBuf.t) : exec FastBuf.t :=
  match buf with
  | [] => Done out
  | _ =>
      into ← FastBuf.borrow out;
      let header := fmt_hex (zlen buf) ++ CRLF in
      into ← FastBufRef.extend_from_slice header into;
      into ← FastBufRef.extend_from_slice buf into;
      into ← FastBufRef.extend_from_slice CRLF into;
      Done (FastBufRef.drop into)
  end.

Definition END : bytes := bs "0" ++ CRLF ++ CRLF.

Definition write_finish (out : FastBuf.t) : exec FastBuf.t :=
  into ← FastBuf.borrow out;
  into ← FastBufRef.extend_from_slice END into;
  Done (FastBufRef.drop into).
End Defs.
End ChunkedEncoder.

(** ** The decoder runs a byte automaton *)

Module DecoderSpec.
Import ChunkedDecoder.

(** One byte of the coded stream: the next state and the body byte it gives,
    or the error it is; nothing is read in state [End]. *)
Definition feed (d : t) (c : byte) : option (result (t * bytes) io_error) :=
  match state d with
  | ChunkSize =>
      if ends_size c then
        match start_chunk d with Ok d' => Some (Ok (d', [])) | Err e => Some (Err e) end
      else if is_size_char c then
        let buf := chunk_size_buf d ++ [c] in
        if 10 <? zlen buf then Some (Err too_many_chars)
        else Some (Ok (mk (amount_left d) ChunkSize buf, []))
      else Some (Err (unexpected_char c))
  | ChunkSizeLf => Some (Ok (if Byte.eqb c LF then set_state Chunk d else d, []))
  | Chunk =>
      let left := amount_left d - 1 in
      Some (Ok (mk left (if left =? 0 then ChunkLf else Chunk) (chunk_size_buf d), [c]))
  | ChunkLf => Some (Ok (if Byte.eqb c LF then set_state ChunkSize d else d, []))
  | End => None
  end.

Fixpoint feeds (d : t) (p : bytes) : option (result (t * bytes) io_error) :=
  match p with
  | [] => Some (Ok (d, []))
  | c :: p' =>
      match feed d c with
      | Some (Ok (d', o)) =>
          match feeds d' p' with
          | Some (Ok (d'', o')) => Some (Ok (d'', o ++ o'))
          | r => r
          end
      | r => r
      end
  end.

(** [p] leads from [d] to [d'] and carries the body bytes [o]. *)
Definition reached (d : t) (p : bytes) (d' : t) (o : bytes) : Prop :=
  feeds d p = Some (Ok (d', o)).

Lemma reached_nil d : reached d [] d [].
Proof. done. Qed.

Lemma feeds_app d p d' o q : reached d p d' o ->
  feeds d (p ++ q) = match feeds d' q with
                     | Some (Ok (d'', o')) => Some (Ok (d'', o ++ o'))
                     | r => r
                     end.
Proof.
  unfold reached. revert d o. induction p as [|c p IH]; intros d o; simpl.
  - intros [= <- <-]. by repeat case_match.
  - destruct (feed d c) as [[[d1 o1]|e]|]; try done.
    destruct (feeds d1 p) as [[[d2 o2]|e]|] eqn:E; try done. intros [= -> <-].
    rewrite (IH d1 o2 E). repeat case_match; try done. by rewrite app_assoc.
Qed.

Lemma reached_trans d p d' o q d'' o' :
  reached d p d' o -> reached d' q d'' o' -> reached d (p ++ q) d'' (o ++ o').
Proof. intros H1 H2. unfold reached. by rewrite (feeds_app _ _ _ _ _ H1), H2. Qed.

(** A step without output, at the end of a run without output. *)
Lemma reached_snoc d p d' c d'' : reached d p d' [] -> feed d' c = Some (Ok (d'', [])) ->
  reached d (p ++ [c]) d'' [].
Proof. intros H1 H2. apply (reached_trans _ _ _ [] _ _ [] H1). unfold reached. simpl. by rewrite H2. Qed.

Lemma failed_snoc d p d' c e : reached d p d' [] -> feed d' c = Some (Err e) ->
  feeds d (p ++ [c]) = Some (Err e).
Proof. intros H1 H2. rewrite (feeds_app _ _ _ _ _ H1). simpl. by rewrite H2. Qed.

(** A run of chunk data. *)
Lemma reached_data d data : state d = Chunk -> zlen data <= amount_left d ->
  reached d data (mk (amount_left d - zlen data)
    (if (amount_left d - zlen data =? 0) && negb (zlen data =? 0) then ChunkLf else Chunk)
    (chunk_size_buf d)) data.
Proof.
  revert d. induction data as [|c data IH]; intros d Hs Hle; unfold reached.
  - simpl. rewrite andb_false_r, Z.sub_0_r, <- Hs. by destruct d.
  - pose proof (zlen_nonneg data). rewrite zlen_cons in *. simpl. unfold feed. rewrite Hs.
    destruct data as [|c' data].
    + change (zlen (@nil byte)) with 0 in *. simpl.
      rewrite andb_true_r. by replace (amount_left d - (1 + 0)) with (amount_left d - 1) by lia.
    + rewrite zlen_cons in *. pose proof (zlen_nonneg data).
      rewrite (proj2 (Z.eqb_neq (amount_left d - 1) 0)) by lia.
      specialize (IH (mk (amount_left d - 1) Chunk (chunk_size_buf d)) eq_refl).
      simpl amount_left in IH. rewrite IH by lia. simpl.
      replace (amount_left d - 1 - (1 + zlen data)) with (amount_left d - (1 + (1 + zlen data))) by lia.
      by rewrite !(proj2 (Z.eqb_neq (_ + _) 0)) by lia.
Qed.

(** Chunks announced are not empty. *)
Definition dec_wf (d : t) : Prop :=
  (state d = Chunk \/ state d = ChunkSizeLf) -> 0 < amount_left d.

Lemma from_str_radix_nonneg s n : from_str_radix 16 s = Some n -> 0 <= n.
Proof.
  assert (forall l, parse_digits 16 0 l = Some n -> 0 <= n)
    by (intros l Hl%parse_digits_bound; lia).
  unfold from_str_radix. destruct s as [|c l]; [done|].
  case_match; [destruct l; [done|]|]; eauto.
Qed.

Lemma start_chunk_wf d d' : start_chunk d = Ok d' -> dec_wf d'.
Proof.
  unfold start_chunk, chunk_size. destruct (from_str_radix _ _) as [n|] eqn:E; [|done].
  apply from_str_radix_nonneg in E. intros [= <-]. unfold dec_wf. simpl.
  destruct (Z.eqb_spec n 0); intros [|]; try done; lia.
Qed.

Section Refinement.
Context {prof : Profile} {R : Type} `{ReadSpec R} `{!AsyncWrite R}.
Implicit Types (b : BufIo.t R) (d : t).

(** [b'] is [b] after [p] was read from it. *)
Definition read_off b (p : bytes) b' : Prop :=
  BufIo.rd_wf b' /\ BufIo.tx_fields b' = BufIo.tx_fields b /\
  BufIo.incoming b = p ++ BufIo.incoming b' /\ BufIo.calm b b'.

Lemma read_off_refl b : BufIo.rd_wf b -> read_off b [] b.
Proof. intros Hwf. split; [done|]. split; [done|]. by split; [|intros _]. Qed.

Lemma read_off_trans b p b1 q b2 : read_off b p b1 -> read_off b1 q b2 -> read_off b (p ++ q) b2.
Proof.
  intros (_ & Ht1 & Hi1 & Hc1) (Hw2 & Ht2 & Hi2 & Hc2). split; [done|]. split; [congruence|].
  split; [by rewrite Hi1, Hi2, app_assoc|]. intros E. specialize (Hc1 E). specialize (Hc2 E). lia.
Qed.

(** A read of at most [n] bytes, as part of a longer run. *)
Lemma poll_read_off_wp n d b : BufIo.rd_wf b -> 0 < n ->
  wp (recv_read n) (d, b) (fun r st =>
    st.1 = d /\
    match r with
    | Ready (Ok o) => read_off b o st.2 /\ zlen o <= n /\ (o = [] -> BufIo.incoming st.2 = [])
    | Ready (Err e) => read_off b [] st.2 /\ raises R e
    | Pending => read_off b [] st.2 /\ BufIo.stalled b st.2
    end).
Proof.
  intros Hwf Hn. apply wp_zoom. eapply wp_mono; [by apply BufIo.poll_read_buf_wp|].
  intros r b' (Hw & Ht & Hd & _). simpl. split; [done|].
  assert (Hcalm : BufIo.stalled b b' -> BufIo.calm b b')
    by (intros Hs E; specialize (Hs E); lia).
  destruct r as [|[o|e]]; simpl in Hd; unfold read_off.
  - destruct Hd as (-> & _ & Hs). split_and!; auto.
  - destruct Hd as (Hlen & Hi & He & Hc). split_and!; auto.
    intros ->. rewrite (He eq_refl) in Hi. by symmetry.
  - destruct Hd as (-> & ? & Hs). split_and!; auto.
Qed.

(** The end of the stream where the coding does not allow it. *)
Definition truncated d b (e : io_error) : Prop :=
  BufIo.incoming b = [] /\ match state d with
  | ChunkSize => e = eof_in_size
  | ChunkSizeLf | ChunkLf => e = eof_before_lf
  | _ => False
  end.

(** A poll that is [Pending], or fails: it stopped somewhere on the way. *)
Definition stopped {A} d b (r : poll (io_result A)) d' b' : Prop :=
  exists p, read_off b p b' /\
  match r with
  | Pending => reached d p d' [] /\ BufIo.stalled b b'
  | Ready (Err e) =>
      feeds d p = Some (Err e) \/ (reached d p d' [] /\ (raises R e \/ truncated d' b' e))
  | Ready (Ok _) => False
  end.

Definition is_ok {A} (r : poll (io_result A)) : bool :=
  match r with Ready (Ok _) => true | _ => false end.

Lemma stopped_before {A} d b p d1 b1 (r : poll (io_result A)) d2 b2 :
  read_off b p b1 -> reached d p d1 [] -> stopped d1 b1 r d2 b2 -> stopped d b r d2 b2.
Proof.
  intros Ho Hr (q & Ho' & Hq). exists (p ++ q). split; [by eapply read_off_trans|].
  destruct r as [|[a|e]]; [|done|].
  - destruct Hq as [Hq Hst]. split; [by apply (reached_trans _ _ _ [] _ _ [] Hr)|].
    destruct Ho as (_ & _ & _ & Hc). intros E. specialize (Hc E). specialize (Hst E). lia.
  - destruct Hq as [Hf|[Hq He]].
    + left. by rewrite (feeds_app _ _ _ _ _ Hr), Hf.
    + right. split; [by apply (reached_trans _ _ _ [] _ _ [] Hr) | done].
Qed.

(** The one-byte read of both loops. *)
Lemma one_byte_wp d b (Q : poll (io_result bytes) -> t * BufIo.t R -> Prop) : BufIo.rd_wf b ->
  (forall b', read_off b [] b' -> BufIo.stalled b b' -> Q Pending (d, b')) ->
  (forall b' e, read_off b [] b' -> raises R e -> Q (Ready (Err e)) (d, b')) ->
  (forall b', read_off b [] b' -> BufIo.incoming b' = [] -> Q (Ready (Ok [])) (d, b')) ->
  (forall b' c, read_off b [c] b' -> Q (Ready (Ok [c])) (d, b')) ->
  wp (recv_read 1) (d, b) Q.
Proof.
  intros Hwf H1 H2 H3 H4. eapply wp_mono; [by apply poll_read_off_wp|].
  intros r [d' b'] [Hd Hr]. cbn [fst snd] in *. subst d'.
  destruct r as [|[o|e]]; [by destruct Hr; apply H1| |by destruct Hr; apply H2].
  destruct Hr as (Ho & Hlen & He). destruct o as [|c [|c' o]]; [by apply H3; auto|by apply H4|].
  rewrite !zlen_cons in Hlen. pose proof (zlen_nonneg o). lia.
Qed.

(** Where a loop is after reading [p]: nothing put out yet. *)
Definition on_way d b (s : DecoderState) d1 b1 : Prop :=
  exists p, read_off b p b1 /\ reached d p d1 [] /\ state d1 = s.

Lemma on_way_stop {A} d b s d1 b1 b2 (r : poll (io_result A)) :
  on_way d b s d1 b1 -> read_off b1 [] b2 ->
  match r with
  | Pending => BufIo.stalled b1 b2
  | Ready (Err e) => raises R e \/ truncated d1 b2 e
  | Ready (Ok _) => False
  end -> stopped d b r d1 b2.
Proof.
  intros (p & Ho & Hr & Hs) Ho2 Hc. eapply stopped_before; [done..|].
  exists []. split; [done|]. destruct r as [|[|]]; [done|done|]. right. by split.
Qed.

Lemma poll_chunk_size_wp fuel d b : BufIo.rd_wf b -> state d = ChunkSize ->
  zlen (BufIo.incoming b) < Z.of_nat fuel ->
  wp (poll_chunk_size fuel) (d, b) (fun r st =>
    if is_ok r then exists d1 b1 c, on_way d b ChunkSize d1 b1 /\ read_off b1 [c] st.2 /\
      ends_size c = true /\ st.1 = d1
    else stopped d b r st.1 st.2).
Proof.
  intros Hwf Hs Hf. unfold poll_chunk_size.
  apply (wp_iter (fun _ st => on_way d b ChunkSize st.1 st.2)
           (fun _ st => length (BufIo.incoming st.2)));
    [|exists []; by split; [apply read_off_refl|]|unfold zlen in Hf; simpl; lia].
  intros x [d1 b1] Hway. simpl in Hway. pose proof Hway as (p & Ho & Hr & Hs1).
  unfold chunk_size_turn. wp_steps. apply one_byte_wp; [apply Ho|..].
  - intros b2 Ho2 Hst. wp_steps. by eapply on_way_stop.
  - intros b2 e Ho2 He. wp_steps. eapply on_way_stop; eauto.
  - intros b2 Ho2 Hnil. wp_steps. eapply on_way_stop; eauto.
    right. split; [done|]. cbn. by rewrite Hs1.
  - intros b2 c Ho2. wp_steps.
    assert (Hfeed : forall o, feed d1 c = o -> feed d1 c = o) by done.
    unfold feed at 1 in Hfeed. rewrite Hs1 in Hfeed.
    destruct (ends_size c) eqn:Hc; [wp_steps; simpl; eauto 10|].
    destruct (is_size_char c) eqn:Hx.
    + wp_steps. cbn [fst snd chunk_size_buf] in *.
      destruct (10 <? zlen (chunk_size_buf d1 ++ [c])) eqn:Hlen.
      * wp_steps. eapply stopped_before; [done..|]. exists [c]. split; [done|].
        left. simpl. by rewrite (Hfeed _ eq_refl).
      * wp_steps. rewrite Hs1 in *. split.
        { exists (p ++ [c]). split; [by eapply read_off_trans|]. split; [|done].
          by eapply reached_snoc; [|apply Hfeed]. }
        destruct Ho2 as (_ & _ & -> & _). rewrite length_app. simpl. lia.
    + wp_steps. eapply stopped_before; [done..|]. exists [c]. split; [done|].
      left. simpl. by rewrite (Hfeed _ eq_refl).
Qed.

Lemma poll_skip_until_lf_wp fuel d b s : BufIo.rd_wf b -> state d = s ->
  s = ChunkSizeLf \/ s = ChunkLf -> zlen (BufIo.incoming b) < Z.of_nat fuel ->
  wp (poll_skip_until_lf fuel) (d, b) (fun r st =>
    if is_ok r then exists b1, on_way d b s d b1 /\ read_off b1 [LF] st.2 /\ st.1 = d
    else stopped d b r st.1 st.2).
Proof.
  intros Hwf Hs Hlf Hf. unfold poll_skip_until_lf.
  apply (wp_iter (fun _ st => on_way d b s d st.2 /\ st.1 = d)
           (fun _ st => length (BufIo.incoming st.2)));
    [|split; [exists []; split; [apply read_off_refl|]|]; done|unfold zlen in Hf; simpl; lia].
  intros x [d1 b1] [Hway Hd]. cbn [fst snd] in *. subst d1. pose proof Hway as (p & Ho & Hr & _).
  unfold skip_turn. wp_steps. apply one_byte_wp; [apply Ho|..].
  - intros b2 Ho2 Hst. wp_steps. by eapply on_way_stop.
  - intros b2 e Ho2 He. wp_steps. eapply on_way_stop; eauto.
  - intros b2 Ho2 Hnil. wp_steps. eapply on_way_stop; eauto.
    right. split; [done|]. cbn. rewrite Hs. by destruct Hlf as [-> | ->].
  - intros b2 c Ho2. wp_steps. destruct (byte_eqb_spec c LF) as [->|Hne]; wp_steps.
    + simpl. eauto 10.
    + cbn [fst snd]. split; [split; [|done]|].
      * exists (p ++ [c]). split; [by eapply read_off_trans|]. split; [|done].
        eapply reached_snoc; [done|]. unfold feed. rewrite Hs, byte_eqb_ne by done.
        by destruct Hlf as [-> | ->].
      * destruct Ho2 as (_ & _ & -> & _). rewrite length_app. simpl. lia.
Qed.

(** What [poll_read] promises for a buffer of [n] bytes. *)
Definition read_spec (n : Z) d b (r : poll (io_result bytes)) d' b' : Prop :=
  match r with
  | Ready (Ok o) => exists p, read_off b p b' /\ reached d p d' o /\ zlen o <= n /\
      (o = [] -> is_end d' = true \/ (state d' = Chunk /\ BufIo.incoming b' = []))
  | _ => stopped d b r d' b'
  end.

(** A step of the automaton keeps the announced sizes positive. *)
Lemma feed_wf d c d' o : dec_wf d -> feed d c = Some (Ok (d', o)) -> dec_wf d'.
Proof.
  intros Hwf. unfold feed. destruct (state d) eqn:Hs.
  - repeat case_match; intros [= <- <-].
    + by eapply start_chunk_wf.
    + by intros [|].
  - intros [= <- <-]. case_match; intros _; apply Hwf; auto.
  - intros [= <- <-]. unfold dec_wf in *. rewrite Hs in Hwf. simpl.
    pose proof (Hwf (or_introl eq_refl)).
    destruct (Z.eqb_spec (amount_left d - 1) 0); intros [|]; try done; lia.
  - intros [= <- <-]. case_match; [by intros [|]|done].
  - done.
Qed.

Lemma reached_wf d p d' o : dec_wf d -> reached d p d' o -> dec_wf d'.
Proof.
  unfold reached. revert d o. induction p as [|c p IH]; intros d o Hwf; simpl.
  - by intros [= <- <-].
  - destruct (feed d c) as [[[d1 o1]|e]|] eqn:E; try done.
    destruct (feeds d1 p) as [[[d2 o2]|e]|] eqn:E2; try done. intros [= <- <-].
    eapply IH; [|done]. by eapply feed_wf.
Qed.

(** How many turns are left before one that returns. *)
Definition turns (d : t) : nat :=
  match state d with ChunkLf => 4 | ChunkSize => 3 | ChunkSizeLf => 2 | Chunk => 1 | End => 0 end.

Definition so_far d b (st : t * BufIo.t R) : Prop :=
  dec_wf st.1 /\ exists p, read_off b p st.2 /\ reached d p st.1 [].

Lemma so_far_stop n {A} d b d1 b1 (r : poll (io_result A)) d2 b2 (r' : poll (io_result bytes)) :
  so_far d b (d1, b1) -> stopped d1 b1 r d2 b2 ->
  match r, r' with Pending, Pending => True | Ready (Err e), Ready (Err e') => e = e' | _, _ => False end ->
  read_spec n d b r' d2 b2.
Proof.
  intros (_ & p & Ho & Hr) Hst Heq.
  assert (stopped d1 b1 r' d2 b2) as Hst'.
  { destruct Hst as (q & Hq & Hc). exists q. split; [done|].
    destruct r as [|[|e]], r' as [|[|e']]; try done. by subst e'. }
  unfold read_spec. destruct r' as [|[o|e]]; [by eapply stopped_before| |by eapply stopped_before].
  by destruct Hst' as (? & ? & ?).
Qed.

(** After the loops, one more byte changes the state. *)
Lemma so_far_step d b d1 b1 s d2 b2 c b3 d3 :
  so_far d b (d1, b1) -> on_way d1 b1 s d2 b2 -> read_off b2 [c] b3 ->
  feed d2 c = Some (Ok (d3, [])) -> so_far d b (d3, b3).
Proof.
  intros (Hwf & p & Ho & Hr) (q & Hq & Hrq & _) Hc Hfeed.
  assert (reached d (p ++ q ++ [c]) d3 []) as Hall.
  { apply (reached_trans _ _ _ [] _ _ [] Hr). by eapply reached_snoc. }
  split.
  - eapply feed_wf; [|done]. by eapply reached_wf.
  - exists (p ++ q ++ [c]). split; [|done]. do 2 (eapply read_off_trans; [done|]). done.
Qed.

Lemma read_off_le b p b' : read_off b p b' -> zlen (BufIo.incoming b') <= zlen (BufIo.incoming b).
Proof. intros (_ & _ & -> & _). zlia. Qed.

Lemma ok_or_stopped {A} (r : poll (io_result A)) :
  (exists a, r = Ready (Ok a)) \/ (is_ok r = false).
Proof. destruct r as [|[a|e]]; eauto. Qed.

(** What one turn of the loop of [poll_read] does. *)
Definition turn_post n d b (t0 : nat) : poll (io_result (unit + bytes)) -> t * BufIo.t R -> Prop :=
  early (fun r st => read_spec n d b r st.1 st.2) (fun x st =>
    match x with
    | inl _ => so_far d b st /\ (turns st.1 < t0)%nat
    | inr o => read_spec n d b (Ready (Ok o)) st.1 st.2
    end).

Lemma size_turn_wp fuel n d b d1 b1 : so_far d b (d1, b1) -> state d1 = ChunkSize ->
  zlen (BufIo.incoming b) < Z.of_nat fuel ->
  wp (read_turn fuel n tt) (d1, b1) (turn_post n d b (turns d1)).
Proof.
  intros Hso Hs Hf. pose proof Hso as (Hwf & p & Ho & Hr). cbn [fst snd] in *. unfold read_turn.
  wp_steps. rewrite Hs. wp_steps. pose proof (read_off_le _ _ _ Ho).
  eapply wp_mono; [apply poll_chunk_size_wp; [apply Ho | done | lia]|].
  intros r [d2 b2] Hpost. cbn [fst snd] in *.
  destruct r as [|[[]|e]];
    [by apply (so_far_stop n (A := unit) d b d1 b1 Pending d2 b2 Pending)|
    |by apply (so_far_stop n (A := unit) d b d1 b1 (Ready (Err e)) d2 b2 (Ready (Err e)))].
  destruct Hpost as (d' & b' & c & Hway & Hc & Hend & ->). simpl. wp_steps.
  pose proof Hway as (q & Hq & Hrq & Hs2).
  assert (Hfeed : feed d' c = match start_chunk d' with Ok x => Some (Ok (x, [])) | Err e => Some (Err e) end)
    by (unfold feed; by rewrite Hs2, Hend).
  cbn [fst]. destruct (start_chunk d') as [d3|e] eqn:Hst; simpl.
  - wp_steps. split; [by eapply so_far_step|]. cbn. unfold turns at 2. rewrite Hs.
    revert Hst. unfold start_chunk. case_match; [|done]. intros [= <-]. unfold turns. simpl.
    case_match; simpl; lia.
  - eapply stopped_before; [apply Ho|apply Hr|]. eapply stopped_before; [apply Hq|apply Hrq|].
    exists [c]. split; [done|]. left. simpl. by rewrite Hfeed.
Qed.

Lemma lf_turn_wp fuel n d b d1 b1 : so_far d b (d1, b1) ->
  state d1 = ChunkSizeLf \/ state d1 = ChunkLf -> zlen (BufIo.incoming b) < Z.of_nat fuel ->
  wp (read_turn fuel n tt) (d1, b1) (turn_post n d b (turns d1)).
Proof.
  intros Hso Hs Hf. pose proof Hso as (Hwf & p & Ho & Hr). cbn [fst snd] in *. unfold read_turn.
  pose proof (read_off_le _ _ _ Ho).
  destruct Hs as [Hs|Hs]; wp_steps; rewrite Hs; wp_steps;
    (eapply wp_mono; [eapply poll_skip_until_lf_wp; [apply Ho | exact Hs | auto | lia]|]);
    intros r [d2 b2] Hpost; cbn [fst snd] in *;
    (destruct r as [|[[]|e]];
      [by apply (so_far_stop n (A := unit) d b d1 b1 Pending d2 b2 Pending)|
      |by apply (so_far_stop n (A := unit) d b d1 b1 (Ready (Err e)) d2 b2 (Ready (Err e)))]);
    destruct Hpost as (b' & Hway & Hlf & ->); wp_steps;
    (split; [|cbn; unfold turns; rewrite Hs; simpl; lia]);
    (eapply so_far_step; [done|done|done|]); unfold feed; by rewrite Hs.
Qed.

Lemma data_turn_wp fuel n d b d1 b1 : so_far d b (d1, b1) -> state d1 = Chunk -> 0 < n ->
  wp (read_turn fuel n tt) (d1, b1) (turn_post n d b (turns d1)).
Proof.
  intros Hso Hs Hn. pose proof Hso as (Hwf & p & Ho & Hr). cbn [fst snd] in *. unfold read_turn.
  pose proof (Hwf (or_introl Hs)) as Hleft. cbn [fst] in Hleft.
  wp_steps. rewrite Hs. wp_steps.
  eapply wp_mono; [apply poll_read_off_wp; [apply Ho | lia]|].
  intros r [d2 b2] [Hd Hpost]. cbn [fst snd] in *. subst d2. destruct r as [|[o|e]]; simpl.
  - destruct Hpost. eapply stopped_before; [done..|]. by exists [].
  - destruct Hpost as (Ho2 & Hlen & Hnil).
    pose proof (reached_data d1 o Hs ltac:(lia)) as Hdata. pose proof (zlen_nonneg o).
    wp_steps.
    assert (Hspec : read_spec n d b (Ready (Ok o)) (mk (amount_left d1 - zlen o)
       (if (amount_left d1 - zlen o =? 0) && negb (zlen o =? 0) then ChunkLf else Chunk)
       (chunk_size_buf d1)) b2).
    { exists (p ++ o). split; [by eapply read_off_trans|].
      split; [by apply (reached_trans _ _ _ [] _ _ _ Hr)|]. split; [lia|].
      intros ->. right. cbn. rewrite andb_false_r. by split; [|apply Hnil]. }
    destruct (Z.eqb_spec (amount_left d1 - zlen o) 0); wp_steps; cbn [fst snd set_state] in *.
    + rewrite (proj2 (Z.eqb_neq (zlen o) 0)) in Hspec by lia. exact Hspec.
    + rewrite Hs. exact Hspec.
  - destruct Hpost as [Ho2 He]. eapply stopped_before; [done..|]. exists [].
    split; [done|]. right. split; [done|]. by left.
Qed.

(** [poll_read] runs the automaton over exactly the bytes it takes. *)
Lemma poll_read_wp fuel n d b : BufIo.rd_wf b -> dec_wf d -> 0 < n ->
  zlen (BufIo.incoming b) < Z.of_nat fuel -> (4 < fuel)%nat ->
  wp (poll_read fuel n) (d, b) (fun r st => read_spec n d b r st.1 st.2).
Proof.
  intros Hwf Hd Hn Hf Hf4. unfold poll_read. wp_steps; [by apply Z.ltb_lt|]. wp_steps.
  apply (wp_iter (fun _ st => so_far d b st) (fun _ st => turns st.1)).
  - intros [] [d1 b1] Hso. destruct (state d1) eqn:Hs.
    + by apply size_turn_wp.
    + apply lf_turn_wp; auto.
    + by apply data_turn_wp.
    + apply lf_turn_wp; auto.
    + pose proof Hso as (_ & p & Ho & Hr). unfold read_turn. wp_steps. rewrite Hs. wp_steps.
      exists p. split; [done|]. split; [done|]. split; [change (zlen (@nil byte)) with 0; lia|].
      intros _. left. unfold is_end. by rewrite bool_decide_true.
  - split; [done|]. exists []. by split; [apply read_off_refl|].
  - cbn. assert (turns d <= 4)%nat by (unfold turns; case_match; lia). lia.
Qed.
End Refinement.
End DecoderSpec.

(** ** The encoder, and the round trip *)

Module Coding.
Import ChunkedDecoder DecoderSpec.

(** The coding of one chunk, and of a body. *)
Definition coded (chunk : bytes) : bytes :=
  match chunk with [] => [] | _ => fmt_hex (zlen chunk) ++ CRLF ++ chunk ++ CRLF end.

Definition coded_body (chunks : list bytes) : bytes :=
  (chunks ≫= coded) ++ ChunkedEncoder.END.

(** Chunk sizes have at most ten hexadecimal digits. *)
Definition max_chunk : Z := 16 ^ 10.

Lemma fmt_hex_ok n : 0 <= n <= u64_max ->
  exists ds, fmt_hex n = ds /\ parse_digits 16 0 ds = Some n /\
    Forall (fun c => is_Some (to_digit 16 c)) ds /\ ds <> [] /\
    (forall k, 0 < k -> n < 16 ^ k -> zlen ds <= k).
Proof.
  intros Hn. destruct (fmt_digits_parse 64 16 n []) as (ds & E & Hp); [lia|done| |lia|].
  - eapply Z.le_lt_trans; [apply Hn|]. unfold u64_max. lia.
  - exists ds. unfold fmt_hex. by rewrite E, app_nil_r.
Qed.

Section Encoder.
Context {prof : Profile}.

(** Room for the coding is all that [write_chunk] needs. *)
Lemma write_chunk_ok chunk out c :
  FastBuf.is_buf out c -> zlen c + zlen (coded chunk) <= FastBuf.capacity out ->
  exists out', ChunkedEncoder.write_chunk chunk out = Done out' /\
    FastBuf.is_buf out' (c ++ coded chunk) /\ FastBuf.capacity out' = FastBuf.capacity out.
Proof.
  intros Hb Hroom. destruct chunk as [|x chunk].
  { exists out. rewrite app_nil_r. done. }
  set (d := x :: chunk) in *. unfold coded in *. cbn [d] in *. fold d in Hroom |- *.
  assert (zlen c < FastBuf.capacity out).
  { autorewrite with zlist in Hroom. zlen_facts. change (zlen CRLF) with 2 in *. lia. }
  pose proof (zlen_nonneg c).
  destruct (FastBuf.borrow_ok out c Hb) as (r & sp & E & Hr & _ & _ & Hsp); [lia|by left|].
  specialize (Hsp H). unfold ChunkedEncoder.write_chunk. fold d. rewrite E. simpl.
  rewrite !zlen_app in Hroom. change (zlen CRLF) with 2 in *.
  set (hd := fmt_hex (zlen d)) in *. zlen_facts.
  destruct (FastBuf.extend_from_slice_ok r c sp (hd ++ CRLF) Hr) as (r1 & -> & Hr1);
    [rewrite zlen_app; change (zlen CRLF) with 2; lia|]. simpl.
  rewrite zlen_app in Hr1. change (zlen CRLF) with 2 in *.
  destruct (FastBuf.extend_from_slice_ok _ _ _ d Hr1) as (r2 & -> & Hr2); [lia|]. simpl.
  destruct (FastBuf.extend_from_slice_ok _ _ _ CRLF Hr2) as (r3 & -> & Hr3);
    [change (zlen CRLF) with 2; lia|]. simpl.
  destruct (FastBuf.drop_ok _ _ _ Hr3) as [Hd Hc]. eexists. split; [done|].
  rewrite <- !app_assoc in Hd. split; [exact Hd|]. rewrite Hc, !zlen_app.
  change (zlen CRLF) with 2. lia.
Qed.

Lemma write_finish_ok out c :
  FastBuf.is_buf out c -> zlen c + 5 <= FastBuf.capacity out ->
  exists out', ChunkedEncoder.write_finish out = Done out' /\
    FastBuf.is_buf out' (c ++ ChunkedEncoder.END) /\
    FastBuf.capacity out' = FastBuf.capacity out.
Proof.
  intros Hb Hroom. pose proof (zlen_nonneg c).
  destruct (FastBuf.borrow_ok out c Hb) as (r & sp & E & Hr & _ & _ & Hsp); [lia|left; lia|].
  unfold ChunkedEncoder.write_finish. rewrite E. simpl.
  destruct (FastBuf.extend_from_slice_ok r c sp ChunkedEncoder.END Hr) as (r1 & -> & Hr1);
    [change (zlen _) with 5; lia|]. simpl.
  destruct (FastBuf.drop_ok _ _ _ Hr1) as [Hd Hc]. eexists. split; [done|]. split; [exact Hd|].
  rewrite Hc, zlen_app. change (zlen ChunkedEncoder.END) with 5. lia.
Qed.

(** The overhead of one chunk is bounded, whatever its size. *)
Lemma coded_overhead chunk : zlen chunk <= u64_max -> zlen (coded chunk) <= zlen chunk + 20.
Proof.
  intros Hle. destruct chunk as [|x chunk]; [change (zlen (coded [])) with 0; zlia|].
  unfold coded. rewrite !zlen_app. change (zlen CRLF) with 2.
  destruct (fmt_hex_ok (zlen (x :: chunk))) as (ds & -> & _ & _ & _ & Hk); [zlen_facts; lia|].
  specialize (Hk 16). unfold u64_max in *. lia.
Qed.
End Encoder.

(** *** The automaton undoes the coding *)

Definition idle (d : t) : Prop := state d = ChunkSize /\ chunk_size_buf d = [].

(** The bytes [is_size_char] lets through are the hexadecimal digits. *)
Definition hex_char_facts (c : byte) : bool :=
  eqb (is_size_char c) (match to_digit 16 c with Some _ => true | None => false end) &&
  (negb (is_size_char c) ||
   (negb (ends_size c) && negb (is_whitespace c) && negb (Byte.eqb c "+"%byte))).

Lemma hex_chars : all_bytes hex_char_facts = true.
Proof. vm_compute. reflexivity. Qed.

Lemma is_size_char_iff c : is_size_char c = true <-> is_Some (to_digit 16 c).
Proof.
  pose proof (all_bytes_spec _ hex_chars c) as Hall. unfold hex_char_facts in Hall.
  apply andb_true_iff in Hall as [Hall%eqb_prop _]. rewrite Hall.
  destruct (to_digit 16 c); split; try done; by intros [].
Qed.

Lemma hex_is_size_char c : is_Some (to_digit 16 c) -> is_size_char c = true /\ ends_size c = false
  /\ is_whitespace c = false /\ Byte.eqb c "+"%byte = false.
Proof.
  intros Hx%is_size_char_iff. pose proof (all_bytes_spec _ hex_chars c) as Hall.
  unfold hex_char_facts in Hall. rewrite Hx in Hall. simpl in Hall.
  rewrite !andb_true_iff, !negb_true_iff in Hall. tauto.
Qed.

Lemma trim_start_id l : Forall (fun c => is_whitespace c = false) l -> trim_start l = l.
Proof. destruct l as [|c l]; [done|]. intros [Hc _]%Forall_cons_1. simpl. by rewrite Hc. Qed.

Lemma trim_id l : Forall (fun c => is_whitespace c = false) l -> trim l = l.
Proof.
  intros Hl. unfold trim. rewrite (trim_start_id l) by done.
  rewrite trim_start_id; [apply reverse_involutive|]. by apply Forall_reverse.
Qed.

(** The value of a chunk size that is made of hexadecimal digits. *)
Lemma chunk_size_digits ds : Forall (fun c => is_Some (to_digit 16 c)) ds -> ds <> [] ->
  chunk_size ds = parse_digits 16 0 ds.
Proof.
  intros Hds Hne. unfold chunk_size. rewrite trim_id.
  - destruct ds as [|c ds]; [done|]. apply Forall_cons_1 in Hds as [Hc _].
    unfold from_str_radix. by destruct (hex_is_size_char c Hc) as (_ & _ & _ & ->).
  - eapply Forall_impl; [|exact Hds]. intros c Hc. by apply hex_is_size_char.
Qed.

Lemma reached_digits d ds : state d = ChunkSize -> Forall (fun c => is_Some (to_digit 16 c)) ds ->
  zlen (chunk_size_buf d ++ ds) <= 10 ->
  reached d ds (mk (amount_left d) ChunkSize (chunk_size_buf d ++ ds)) [].
Proof.
  revert d. induction ds as [|c ds IH]; intros d Hs Hds Hlen.
  { rewrite app_nil_r, <- Hs. by destruct d. }
  apply Forall_cons_1 in Hds as [Hc Hds]. destruct (hex_is_size_char c Hc) as (Hx & He & _).
  apply (reached_trans d [c] (mk (amount_left d) ChunkSize (chunk_size_buf d ++ [c])) [] ds _ []).
  - unfold reached. simpl. unfold feed. rewrite Hs, He, Hx.
    rewrite (proj2 (Z.ltb_ge _ _)); [done|]. rewrite zlen_app, !zlen_cons in *. zlen_facts.
    change (zlen (@nil byte)) with 0. lia.
  - specialize (IH (mk (amount_left d) ChunkSize (chunk_size_buf d ++ [c])) eq_refl Hds).
    simpl in IH. rewrite <- app_assoc in IH. by apply IH.
Qed.

(** A size line. *)
Lemma reached_size d n : idle d -> 0 <= n < max_chunk ->
  reached d (fmt_hex n ++ [CR]) (mk n (if n =? 0 then End else ChunkSizeLf) []) [].
Proof.
  intros [Hs Hb] Hn. unfold max_chunk in Hn.
  destruct (fmt_hex_ok n) as (ds & -> & Hp & Hds & Hne & Hk); [unfold u64_max; lia|].
  eapply reached_snoc.
  - apply reached_digits; [done|done|]. rewrite Hb. apply Hk; lia.
  - unfold feed, start_chunk. simpl. rewrite Hb. simpl. by rewrite chunk_size_digits, Hp.
Qed.

Lemma reached_chunk d chunk : idle d -> zlen chunk < max_chunk ->
  exists d', reached d (coded chunk) d' chunk /\ idle d'.
Proof.
  intros Hd Hlt. destruct chunk as [|x chunk]; [by exists d|].
  set (c := x :: chunk) in *. assert (Hpos : 0 < zlen c) by (subst c; rewrite zlen_cons; zlen_facts; lia).
  exists (mk 0 ChunkSize []). split; [|done].
  change (coded c) with (fmt_hex (zlen c) ++ CRLF ++ c ++ CRLF).
  replace (fmt_hex (zlen c) ++ CRLF ++ c ++ CRLF)
    with ((fmt_hex (zlen c) ++ [CR]) ++ [LF] ++ c ++ CRLF) by by rewrite <- app_assoc.
  eapply (reached_trans _ _ _ [] _ _ c); [apply reached_size; [done|lia]|].
  rewrite (proj2 (Z.eqb_neq _ _)) by lia.
  eapply (reached_trans _ [LF] (mk (zlen c) Chunk []) [] _ _ c); [done|].
  rewrite <- (app_nil_r c) at 3.
  eapply (reached_trans _ _ _ c); [by apply reached_data|].
  simpl. by rewrite Z.sub_diag.
Qed.

(** The automaton over a whole coded body: it gives the body back, and stops
    before the line feed of the last size line. *)
Lemma reached_body d chunks : idle d -> Forall (fun c => zlen c < max_chunk) chunks ->
  exists d', reached d ((chunks ≫= coded) ++ bs "0" ++ [CR]) d' (concat chunks) /\ is_end d' = true.
Proof.
  intros Hd Hall. revert d Hd. induction Hall as [|c chunks Hc Hall IH]; intros d Hd.
  - exists (mk 0 End []). split; [|done]. apply (reached_size d 0 Hd). unfold max_chunk. lia.
  - destruct (reached_chunk d c Hd Hc) as (d1 & Hr1 & Hd1).
    destruct (IH d1 Hd1) as (d2 & Hr2 & He). exists d2. split; [|done].
    simpl. rewrite <- app_assoc. by eapply reached_trans.
Qed.

(** A run of the automaton to the end is a bound for every other run over the
    same stream. *)
Lemma on_track d W e body p s t x : reached d W e body -> is_end e = true ->
  p ++ s = W ++ t -> feeds d p = Some x ->
  exists q d' o o2, W = p ++ q /\ s = q ++ t /\ x = Ok (d', o) /\ reached d' q e o2 /\ body = o ++ o2.
Proof.
  intros HW He Heq Hp. apply app_eq_inv in Heq as [(q & -> & ->)|(q & -> & ->)].
  - exists [], e, body, []. rewrite (feeds_app _ _ _ _ _ HW) in Hp.
    destruct q as [|c q]; [|simpl in Hp; unfold feed in Hp;
      unfold is_end in He; apply bool_decide_eq_true in He; by rewrite He in Hp].
    simpl in Hp. injection Hp as <-. rewrite !app_nil_r. split_and!; done.
  - destruct x as [[d' o]|err].
    + unfold reached in HW. rewrite (feeds_app _ _ _ _ _ Hp) in HW.
      destruct (feeds d' q) as [[[d2 o2]|]|] eqn:Eq; try done. injection HW as -> <-.
      exists q, d', o, o2. split_and!; done.
    + exfalso. revert HW Hp. unfold reached. clear. revert d body.
      induction p as [|c p IH]; intros d body; simpl; [done|].
      destruct (feed d c) as [[[d1 o1]|]|]; try done.
      destruct (feeds d1 (p ++ q)) as [[[d2 o2]|]|] eqn:E; try done.
      intros [= -> _]. destruct (feeds d1 p) as [[[]|]|] eqn:E'; try done. intros [= ->].
      by eapply IH.
Qed.

Section Reader.
Context {prof : Profile} {R : Type} `{ReadSpec R} `{!AsyncWrite R}.
Implicit Types (b : BufIo.t R) (d : t).

(** The caller's loop: [read] until it gives no bytes. *)
Definition read_to_end (fuel polls : nat) (n : Z) : io (t * BufIo.t R) bytes :=
  iter polls (fun acc =>
    o ← read fuel polls n;
    match o with [] => mret (inr acc) | _ => mret (inl (acc ++ o)) end) [].

Lemma read_spec_before n d b p d1 b1 o1 r d2 b2 : read_off b p b1 -> reached d p d1 o1 ->
  read_spec n d1 b1 r d2 b2 ->
  match r with
  | Ready (Ok o) => exists q, read_off b q b2 /\ reached d q d2 (o1 ++ o) /\ zlen o <= n /\
      (o = [] -> is_end d2 = true \/ (state d2 = Chunk /\ BufIo.incoming b2 = []))
  | Pending => exists q, read_off b q b2 /\ reached d q d2 o1 /\ BufIo.stalled b1 b2
  | Ready (Err e) => exists q, read_off b q b2 /\
      (feeds d q = Some (Err e) \/ reached d q d2 o1 /\ (raises R e \/ truncated d2 b2 e))
  end.
Proof.
  intros Ho Hr Hs. destruct r as [|[o|e]].
  - destruct Hs as (q & Hq & Hrq & Hst). exists (p ++ q). split; [by eapply read_off_trans|].
    split; [|done]. rewrite <- (app_nil_r o1). by eapply reached_trans.
  - destruct Hs as (q & Hq & Hrq & Hs). exists (p ++ q). split; [by eapply read_off_trans|].
    split; [by eapply reached_trans | done].
  - destruct Hs as (q & Hq & Hs). exists (p ++ q). split; [by eapply read_off_trans|].
    destruct Hs as [Hf|[Hrq Hs]].
    + left. by rewrite (feeds_app _ _ _ _ _ Hr), Hf.
    + right. split; [|done]. rewrite <- (app_nil_r o1). by eapply reached_trans.
Qed.

(** Where a reader is that has got [o] so far, on a stream that starts with
    the complete coding [W]. *)
Definition reading W t0 d0 b0 (o : bytes) (st : t * BufIo.t R) : Prop :=
  dec_wf d0 /\ BufIo.incoming b0 = W ++ t0 /\
  exists p, read_off b0 p st.2 /\ reached d0 p st.1 o.

Lemma reading_read_wp fuel polls n W t0 e body d0 b0 o st :
  reached d0 W e body -> is_end e = true -> t0 <> [] -> 0 < n -> r_live = true ->
  zlen (BufIo.incoming b0) < Z.of_nat fuel -> (4 < fuel)%nat ->
  (r_stalls (BufIo.inner b0) < polls)%nat -> reading W t0 d0 b0 o st ->
  wp (read fuel polls n) st (fun r st' =>
    match r with
    | Ready (Ok o') => reading W t0 d0 b0 (o ++ o') st' /\
        (o' = [] -> is_end st'.1 = true /\ o = body /\ BufIo.incoming st'.2 = t0)
    | Ready (Err e) => raises R e
    | Pending => False
    end).
Proof.
  intros HW He Ht0 Hn Hlive Hf Hf4 Hpolls Hst. unfold read.
  apply (wp_await (reading W t0 d0 b0 o) (fun st => r_stalls (BufIo.inner st.2))); [|done|].
  2: { destruct Hst as (_ & _ & p & (_ & _ & _ & Hc) & _). specialize (Hc Hlive). lia. }
  clear st Hst. intros [d b] (Hwf & Hin & p & Ho & Hr). cbn [fst snd] in *.
  eapply wp_mono; [apply poll_read_wp; try done;
    [apply Ho | by eapply reached_wf | pose proof (read_off_le _ _ _ Ho); lia]|].
  intros r [d2 b2] Hspec. cbn [fst snd] in *.
  pose proof (read_spec_before n d0 b0 p d b o r d2 b2 Ho Hr Hspec) as Hpost.
  assert (Htrack : forall q x, read_off b0 q b2 -> feeds d0 q = Some x ->
    exists q' d' o' o2, W = q ++ q' /\ BufIo.incoming b2 = q' ++ t0 /\ x = Ok (d', o') /\
      reached d' q' e o2 /\ body = o' ++ o2).
  { intros q x (_ & _ & Hq & _) Hx. eapply on_track; [done..| |done]. by rewrite <- Hq. }
  destruct r as [|[o'|err]].
  - destruct Hpost as (q & Hq & Hrq & Hs). split; [|by apply Hs].
    split; [done|]. split; [done|]. by exists q.
  - destruct Hpost as (q & Hq & Hrq & Hlen & Hnil). split; [split; [done|]; split; [done|]; by exists q|].
    intros ->. rewrite app_nil_r in Hrq.
    destruct (Htrack q _ Hq Hrq) as (q' & d' & o1 & o2 & -> & Hin' & [= <- <-] & Hrest & ->).
    destruct (Hnil eq_refl) as [Hend|[_ Hi]]; [|by rewrite Hi in Hin'; destruct q', t0].
    destruct q' as [|c q'].
    + unfold reached in Hrest. simpl in Hrest. injection Hrest as -> <-. by rewrite app_nil_r.
    + unfold reached in Hrest. simpl in Hrest. unfold feed in Hrest.
      unfold is_end in Hend. apply bool_decide_eq_true in Hend. by rewrite Hend in Hrest.
  - destruct Hpost as (q & Hq & [Hf'|[Hrq [Hra|[Hi _]]]]); [|done|].
    + by destruct (Htrack q _ Hq Hf') as (? & ? & ? & ? & _ & _ & [=] & _).
    + destruct (Htrack q _ Hq Hrq) as (q' & ? & ? & ? & _ & Hin' & _).
      rewrite Hi in Hin'. by destruct q', t0.
Qed.

(** Reading a coded body to its end gives the body, and leaves what follows
    the last size line. *)
Lemma read_to_end_wp fuel polls n W t0 e body d b :
  reached d W e body -> is_end e = true -> dec_wf d -> BufIo.rd_wf b ->
  BufIo.incoming b = W ++ t0 -> t0 <> [] -> 0 < n -> r_live = true ->
  zlen (BufIo.incoming b) < Z.of_nat fuel -> (4 < fuel)%nat ->
  (r_stalls (BufIo.inner b) < polls)%nat -> zlen body < Z.of_nat polls ->
  wp (read_to_end fuel polls n) (d, b) (fun r st =>
    match r with
    | Ready (Ok o) => o = body /\ is_end st.1 = true /\ BufIo.incoming st.2 = t0
    | Ready (Err e) => raises R e
    | Pending => False
    end).
Proof.
  intros HW He Hwf Hb Hin Ht0 Hn Hlive Hf Hf4 Hpolls Hlen. unfold read_to_end.
  apply (wp_iter (fun o st => reading W t0 d b o st /\ zlen o <= zlen body)
    (fun o _ => Z.to_nat (zlen body - zlen o))).
  - intros o st [Hst Hle]. wp_steps.
    eapply wp_mono; [by eapply (reading_read_wp fuel polls n W t0 e body d b o st)|].
    intros r st' Hr. destruct r as [|[o'|err]]; [done| |done]. destruct Hr as [Hrd Hnil].
    simpl. destruct o' as [|c o'].
    + destruct (Hnil eq_refl) as (? & ? & ?). wp_steps. done.
    + wp_steps. split; [split; [done|]|].
      * destruct Hrd as (_ & _ & p & (_ & _ & Hp & _) & Hr).
        destruct (on_track d W e body p (BufIo.incoming st'.2) t0 _ HW He ltac:(by rewrite <- Hp) Hr)
          as (_ & _ & o1 & o2 & _ & _ & [= _ <-] & _ & ->). zlia.
      * destruct Hrd as (_ & _ & p & (_ & _ & Hp & _) & Hr).
        destruct (on_track d W e body p (BufIo.incoming st'.2) t0 _ HW He ltac:(by rewrite <- Hp) Hr)
          as (_ & _ & o1 & o2 & _ & _ & [= _ <-] & _ & ->).
        rewrite !zlen_app, zlen_cons. zlen_facts. lia.
  - split; [split; [done|]; split; [done|]; exists []; by split; [apply read_off_refl|]|].
    change (zlen (@nil byte)) with 0. zlia.
  - change (zlen (@nil byte)) with 0. lia.
Qed.
End Reader.
End Coding.

(** ** Properties *)

Section Properties.
Context {prof : Profile}.

(** A sender that writes the chunks of a body one by one, then the end. *)
Fixpoint write_all_chunks (chunks : list bytes) (out : FastBuf.t) : exec FastBuf.t :=
  match chunks with
  | [] => ChunkedEncoder.write_finish out
  | c :: rest => out ← ChunkedEncoder.write_chunk c out; write_all_chunks rest out
  end.

Definition encode_body (cap : Z) (chunks : list bytes) : exec bytes :=
  out ← FastBuf.with_capacity cap;
  out ← write_all_chunks chunks out;
  FastBuf.into_vec out.

Lemma write_all_chunks_ok chunks out c : FastBuf.is_buf out c ->
  zlen c + zlen (Coding.coded_body chunks) <= FastBuf.capacity out ->
  exists out', write_all_chunks chunks out = Done out' /\
    FastBuf.is_buf out' (c ++ Coding.coded_body chunks).
Proof.
  unfold Coding.coded_body. revert out c. induction chunks as [|k chunks IH]; intros out c Hb Hroom.
  - destruct (Coding.write_finish_ok out c Hb Hroom) as (o & E & Ho & _). by exists o.
  - rewrite bind_cons, !zlen_app in Hroom. cbn [write_all_chunks]. zlen_facts.
    destruct (Coding.write_chunk_ok k out c Hb) as (o & -> & Ho & Hcap); [lia|]. simpl.
    destruct (IH o (c ++ Coding.coded k) Ho) as (o' & -> & Ho'); [rewrite Hcap, !zlen_app; lia|].
    exists o'. split; [done|].
    rewrite <- app_assoc in Ho' |- *. exact Ho'.
Qed.

Lemma encode_body_ok cap chunks : zlen (Coding.coded_body chunks) <= cap <= isize_max ->
  encode_body cap chunks = Done (Coding.coded_body chunks).
Proof.
  intros Hcap. unfold encode_body. pose proof (zlen_nonneg (Coding.coded_body chunks)).
  destruct (FastBuf.with_capacity_ok cap) as (v & -> & Hv & Hc); [lia|]. simpl.
  destruct (write_all_chunks_ok chunks v [] Hv) as (v' & -> & Hv'); [rewrite Hc, zlen_nil; lia|].
  by apply FastBuf.into_vec_ok.
Qed.

Context {R : Type} `{ReadSpec R} `{!AsyncWrite R}.

(** C15. A chunked body survives the trip: what the encoder writes, the decoder
    reads back, whatever the segmentation of the transport, its stalls and the
    size of the caller's buffer.  The loop of reads ends (it neither panics
    nor runs for ever), the only error it can give is one of the transport,
    and it leaves the transport right after the [CR] of the last size line:
    the line feed and the empty line that end the coding are not read. *)
Theorem chunked_roundtrip chunks cap wire tail fuel polls n (b : BufIo.t R) :
  Forall (fun c => zlen c < Coding.max_chunk) chunks ->
  encode_body cap chunks = Done wire ->
  zlen (Coding.coded_body chunks) <= cap <= isize_max ->
  BufIo.rd_wf b -> BufIo.incoming b = wire ++ tail -> r_live = true -> 0 < n ->
  zlen (BufIo.incoming b) < Z.of_nat fuel -> (4 < fuel)%nat ->
  (r_stalls (BufIo.inner b) < polls)%nat -> zlen (concat chunks) < Z.of_nat polls ->
  wp (Coding.read_to_end fuel polls n) (ChunkedDecoder.new, b) (fun r st =>
    match r with
    | Ready (Ok body) =>
        body = concat chunks /\ ChunkedDecoder.is_end st.1 = true /\
        BufIo.incoming st.2 = LF :: CR :: LF :: tail
    | Ready (Err e) => raises R e
    | Pending => False
    end).
Proof.
  intros Hall Henc Hcap Hb Hin Hlive Hn Hf Hf4 Hst Hpolls.
  rewrite encode_body_ok in Henc by done. injection Henc as <-.
  destruct (Coding.reached_body ChunkedDecoder.new chunks) as (e & Hr & He); [done..|].
  eapply Coding.read_to_end_wp; try done; [by intros [|]|].
  rewrite Hin. unfold Coding.coded_body. rewrite <- !app_assoc. done.
Qed.

(** C17. Every poll of the decoder is a run of the byte automaton [feed]: on
    success it has read some bytes off the stream, led by them from its state
    to its new state, and put out exactly the body bytes they carry, at most
    [n]; no bytes means the end of the body, or of the stream inside a chunk.
    On [Pending] it keeps all it has read, and an error is the automaton's, the
    transport's, or the end of the stream at a place where a size or a line
    feed is due.  The poll always ends, without panicking, and never touches
    the write side of the connection. *)
Theorem decoder_runs_automaton fuel n d (b : BufIo.t R) :
  BufIo.rd_wf b -> DecoderSpec.dec_wf d -> 0 < n ->
  zlen (BufIo.incoming b) < Z.of_nat fuel -> (4 < fuel)%nat ->
  wp (ChunkedDecoder.poll_read fuel n) (d, b) (fun r st =>
    let '(d', b') := st in
    exists p, BufIo.rd_wf b' /\ BufIo.tx_fields b' = BufIo.tx_fields b /\
      BufIo.incoming b = p ++ BufIo.incoming b' /\
      match r with
      | Ready (Ok o) =>
          DecoderSpec.feeds d p = Some (Ok (d', o)) /\ zlen o <= n /\
          (o = [] -> ChunkedDecoder.is_end d' = true \/
                     (ChunkedDecoder.state d' = Chunk /\ BufIo.incoming b' = []))
      | Pending => DecoderSpec.feeds d p = Some (Ok (d', []))
      | Ready (Err e) =>
          DecoderSpec.feeds d p = Some (Err e) \/
          DecoderSpec.feeds d p = Some (Ok (d', [])) /\
            (raises R e \/ DecoderSpec.truncated d' b' e)
      end).
Proof.
  intros. eapply wp_mono; [by apply DecoderSpec.poll_read_wp|].
  intros r [d' b'] Hr. cbn [fst snd] in Hr.
  destruct r as [|[o|e]]; destruct Hr as (p & (? & ? & ? & _) & Hr); exists p; split_and!; try done;
    by apply Hr.
Qed.
End Properties.


(** A size line in progress: only hexadecimal digits, at most ten. *)
Lemma size_run d p d' o : ChunkedDecoder.state d = ChunkSize ->
  Forall (fun c => ChunkedDecoder.ends_size c = false) p ->
  DecoderSpec.feeds d p = Some (Ok (d', o)) ->
  ChunkedDecoder.state d' = ChunkSize /\ o = [] /\
  ChunkedDecoder.chunk_size_buf d' = ChunkedDecoder.chunk_size_buf d ++ p /\
  Forall (fun c => ChunkedDecoder.is_size_char c = true) p /\
  (p <> [] -> zlen (ChunkedDecoder.chunk_size_buf d') <= 10).
Proof.
  intros Hs Hp. revert d d' o Hs. induction Hp as [|c p Hc Hp IH]; intros d d' o Hs; simpl.
  { intros [= <- <-]. rewrite app_nil_r. by split_and!. }
  unfold DecoderSpec.feed. rewrite Hs, Hc.
  destruct (ChunkedDecoder.is_size_char c) eqn:Hx; [|done].
  destruct (Z.ltb_spec 10 (zlen (ChunkedDecoder.chunk_size_buf d ++ [c]))); [done|].
  destruct (DecoderSpec.feeds _ p) as [[[d2 o2]|]|] eqn:E; try done. intros [= <- <-].
  apply IH in E as (Hs2 & -> & Hb & Hall & Hlen); [|done]. simpl in Hb.
  rewrite <- app_assoc in Hb. split_and!; auto. intros _.
  destruct p as [|c' p]; [by rewrite Hb | by apply Hlen].
Qed.

(** Chunk sizes cannot overflow: the digits the decoder lets through are
    at most ten and, once there is one, they make a size below [16 ^ 10],
    which fits a [usize]: "Not a number" is only ever an empty size. *)
Theorem chunk_size_bounded d p d' o :
  ChunkedDecoder.state d = ChunkSize -> ChunkedDecoder.chunk_size_buf d = [] ->
  Forall (fun c => ChunkedDecoder.ends_size c = false) p -> p <> [] ->
  DecoderSpec.feeds d p = Some (Ok (d', o)) ->
  zlen p <= 10 /\
  exists n, ChunkedDecoder.start_chunk d' =
      Ok (ChunkedDecoder.mk n (if n =? 0 then End else ChunkSizeLf) []) /\
    0 <= n < Coding.max_chunk.
Proof.
  intros Hs Hb Hp Hne Hf. apply size_run in Hf as (_ & _ & Hb' & Hall & Hlen); [|done|done].
  rewrite Hb in Hb'. simpl in Hb'. rewrite Hb' in Hlen. specialize (Hlen Hne). split; [done|].
  assert (Hdig : Forall (fun c => is_Some (to_digit 16 c)) p).
  { eapply Forall_impl; [|exact Hall]. intros c. apply Coding.is_size_char_iff. }
  assert (Hpow : 16 ^ zlen p <= 16 ^ 10) by (apply Z.pow_le_mono_r; lia).
  destruct (parse_digits_total 16 p 0) as [n Hn]; [lia|lia|unfold u64_max; lia|done|].
  exists n. unfold ChunkedDecoder.start_chunk. rewrite Hb', Coding.chunk_size_digits, Hn by done.
  split; [done|]. apply parse_digits_bound in Hn; [|lia|lia]. unfold Coding.max_chunk. lia.
Qed.

(** *** Witnesses *)

Module Example.

(** "Hello, world!" in two chunks, cut into segments that split a size line,
    a chunk and the end, with stalls in between. *)
Definition chunks : list bytes := [bs "Hello, "; bs "world!"].
Definition wire : bytes := Coding.coded_body chunks.
Definition script : Script.t :=
  Script.mk (Script.RPending :: Script.data (ztake 4 wire) ++ Script.RPending ::
    Script.data (ztake 11 (zdrop 4 wire)) ++ Script.data (zdrop 15 wire)) [] [] [] 0.
Definition conn : BufIo.t Script.t :=
  BufIo.mk script (Vec.mk [] 16) 0 false false None false.

Lemma coded_conn_wf : BufIo.rd_wf conn.
Proof. repeat split; vm_compute; auto; discriminate. Qed.
End Example.

Lemma chunked_roundtrip_witness :
  wp (Coding.read_to_end (prof := dev) 100 100 3) (ChunkedDecoder.new, Example.conn) (fun r st =>
    match r with
    | Ready (Ok body) =>
        body = bs "Hello, world!" /\ ChunkedDecoder.is_end st.1 = true /\
        BufIo.incoming st.2 = LF :: CR :: LF :: []
    | Ready (Err e) => raises Script.t e
    | Pending => False
    end).
Proof.
  apply (chunked_roundtrip (prof := dev) Example.chunks 64 Example.wire [] 100 100 3 Example.conn).
  - repeat constructor.
  - reflexivity.
  - split; discriminate.
  - exact Example.coded_conn_wf.
  - reflexivity.
  - reflexivity.
  - reflexivity.
  - reflexivity.
  - lia.
  - apply Nat.ltb_lt. vm_compute. reflexivity.
  - reflexivity.
Defined.

Lemma decoder_runs_automaton_witness :
  wp (ChunkedDecoder.poll_read (prof := dev) 50 3) (ChunkedDecoder.new, Example.conn) (fun r st =>
    let '(d', b') := st in
    exists p, BufIo.rd_wf b' /\ BufIo.tx_fields b' = BufIo.tx_fields Example.conn /\
      BufIo.incoming Example.conn = p ++ BufIo.incoming b' /\
      match r with
      | Ready (Ok o) =>
          DecoderSpec.feeds ChunkedDecoder.new p = Some (Ok (d', o)) /\ zlen o <= 3 /\
          (o = [] -> ChunkedDecoder.is_end d' = true \/
                     (ChunkedDecoder.state d' = Chunk /\ BufIo.incoming b' = []))
      | Pending => DecoderSpec.feeds ChunkedDecoder.new p = Some (Ok (d', []))
      | Ready (Err e) =>
          DecoderSpec.feeds ChunkedDecoder.new p = Some (Err e) \/
          DecoderSpec.feeds ChunkedDecoder.new p = Some (Ok (d', [])) /\
            (raises Script.t e \/ DecoderSpec.truncated d' b' e)
      end).
Proof.
  apply (decoder_runs_automaton (prof := dev)).
  - exact Example.coded_conn_wf.
  - by intros [|].
  - reflexivity.
  - reflexivity.
  - lia.
Defined.

Lemma chunk_size_bounded_witness :
  zlen (bs "fF0") <= 10 /\
  exists n, ChunkedDecoder.start_chunk (ChunkedDecoder.mk 0 ChunkSize (bs "fF0")) =
      Ok (ChunkedDecoder.mk n (if n =? 0 then End else ChunkSizeLf) []) /\
    0 <= n < Coding.max_chunk.
Proof.
  apply (chunk_size_bounded ChunkedDecoder.new (bs "fF0") _ []).
  - reflexivity.
  - reflexivity.
  - repeat constructor.
  - discriminate.
  - reflexivity.
Defined.
