(* ===== verification/Http_api.v ===== *)
(** * The [http] and [httparse] crates, parameters

    The types and functions of the two crates that the library calls.  They
    are not part of the repository: every definition that uses them takes
    them as the classes [Http] and [Httparse].  [Plain] is a concrete, small
    implementation on which the witnesses run; no theorem depends on it. *)

From S2P Require Import Prelude.
From S2P Require Import Async.
From S2P Require Import Std_text.

(** ** [http] *)

Class Http := {
  HeaderName : Type;
  HeaderValue : Type;
  HeaderMap : Type;
  Method : Type;
  Uri : Type;
  Version : Type;
  StatusCode : Type;
  http_error : Type;
  http_error_msg : http_error -> string;

  (* HeaderMap::get (the first value under a name), and iteration *)
  hm_get : HeaderMap -> string -> option HeaderValue;
  hm_iter : HeaderMap -> list (HeaderName * HeaderValue);
  hn_as_str : HeaderName -> bytes;
  hn_from_bytes : bytes -> option HeaderName;
  hv_to_str : HeaderValue -> option bytes;
  hv_as_bytes : HeaderValue -> bytes;
  hv_from_bytes : bytes -> option HeaderValue;

  HTTP_10 : Version;
  HTTP_11 : Version;
  version_eqb : Version -> Version -> bool;

  HEAD : Method;
  CONNECT : Method;
  method_eqb : Method -> Method -> bool;
  method_str : Method -> bytes;

  status_as_u16 : StatusCode -> Z;
  canonical_reason : StatusCode -> option bytes;
  is_informational : StatusCode -> bool;
  is_redirection : StatusCode -> bool;
  NO_CONTENT : StatusCode;
  NOT_MODIFIED : StatusCode;
  status_eqb : StatusCode -> StatusCode -> bool;

  uri_path_and_query : Uri -> option bytes;
  uri_scheme_str : Uri -> option bytes;
  uri_port_u16 : Uri -> option Z;
  uri_host : Uri -> option bytes;
  (* Uri::builder().path_and_query(p).build(), and without a path *)
  uri_build : option bytes -> result Uri http_error;

  (* http::Request<()> and http::Response<()> *)
  Request : Type;
  req_method : Request -> Method;
  req_uri : Request -> Uri;
  req_version : Request -> Version;
  req_headers : Request -> HeaderMap;
  Response : Type;
  res_status : Response -> StatusCode;
  res_version : Response -> Version;
  res_headers : Response -> HeaderMap;

  (* request::Builder and response::Builder; body(()) reports the first error *)
  ReqBuilder : Type;
  req_builder : ReqBuilder;
  reqb_version : Version -> ReqBuilder -> ReqBuilder;
  reqb_uri : Uri -> ReqBuilder -> ReqBuilder;
  reqb_method : bytes -> ReqBuilder -> ReqBuilder;
  reqb_header : HeaderName -> HeaderValue -> ReqBuilder -> ReqBuilder;
  reqb_body : ReqBuilder -> result Request http_error;
  ResBuilder : Type;
  res_builder : ResBuilder;
  resb_version : Version -> ResBuilder -> ResBuilder;
  resb_status : Z -> ResBuilder -> ResBuilder;
  resb_header : HeaderName -> HeaderValue -> ResBuilder -> ResBuilder;
  resb_body : ResBuilder -> result Response http_error;
}.

(** ** [httparse] *)

Inductive hp_status := Complete (n : Z) | Partial.

Record RawRequest := {
  raw_method : option bytes;
  raw_path : option bytes;
  raw_req_version : option Z;
  raw_req_headers : list (bytes * bytes);
}.

Record RawResponse := {
  raw_code : option Z;
  raw_res_version : option Z;
  raw_res_headers : list (bytes * bytes);
}.

(** [parse_*] with room for [slots] headers: the status, and what the parser
    has filled in when it stops. *)
Class Httparse := {
  hp_error : Type;
  hp_error_msg : hp_error -> string;
  parse_request : nat -> bytes -> result (hp_status * RawRequest) hp_error;
  parse_response : nat -> bytes -> result (hp_status * RawResponse) hp_error;
}.

(** ** A concrete implementation *)

Module Plain.

Definition header_map := list (bytes * bytes).

Definition lower (c : byte) : byte :=
  let n := byte_val c in
  if (65 <=? n) && (n <=? 90) then default c (Byte.of_N (Z.to_N (n + 32))) else c.

Definition get (h : header_map) (name : string) : option bytes :=
  snd <$> List.find (fun p => bool_decide (lower <$> p.1 = bs name)) h.

Definition visible (l : bytes) : bool :=
  forallb (fun c => ((32 <=? byte_val c) && (byte_val c <? 127)) || (byte_val c =? 9)) l.

Record uri := { u_pq : option bytes; u_scheme : option bytes; u_host : option bytes; u_port : option Z }.

Record request := { q_method : bytes; q_uri : uri; q_version : Z; q_headers : header_map }.
Record response := { s_status : Z; s_version : Z; s_headers : header_map }.

Definition reason (s : Z) : option bytes :=
  if s =? 200 then Some (bs "OK") else if s =? 204 then Some (bs "No Content")
  else if s =? 404 then Some (bs "Not Found") else None.

Definition empty_uri : uri := {| u_pq := None; u_scheme := None; u_host := None; u_port := None |}.

#[global] Instance plain_http : Http := {|
  HeaderName := bytes; HeaderValue := bytes; HeaderMap := header_map;
  Method := bytes; Uri := uri; Version := Z; StatusCode := Z;
  http_error := unit; http_error_msg _ := "http";
  hm_get := get; hm_iter := id;
  hn_as_str n := n;
  hn_from_bytes n := match n with [] => None | _ => Some (lower <$> n) end;
  hv_to_str v := if visible v then Some v else None;
  hv_as_bytes v := v;
  hv_from_bytes v := Some v;
  HTTP_10 := 10; HTTP_11 := 11; version_eqb := Z.eqb;
  HEAD := bs "HEAD"; CONNECT := bs "CONNECT";
  method_eqb m n := bool_decide (m = n); method_str m := m;
  status_as_u16 s := s; canonical_reason := reason;
  is_informational s := (100 <=? s) && (s <? 200);
  is_redirection s := (300 <=? s) && (s <? 400);
  NO_CONTENT := 204; NOT_MODIFIED := 304; status_eqb := Z.eqb;
  uri_path_and_query := u_pq; uri_scheme_str := u_scheme; uri_port_u16 := u_port; uri_host := u_host;
  uri_build p := Ok {| u_pq := p; u_scheme := None; u_host := None; u_port := None |};
  Request := request; req_method := q_method; req_uri := q_uri;
  req_version := q_version; req_headers := q_headers;
  Response := response; res_status := s_status; res_version := s_version; res_headers := s_headers;
  ReqBuilder := request;
  req_builder := {| q_method := bs "GET"; q_uri := empty_uri; q_version := 11; q_headers := [] |};
  reqb_version v q := {| q_method := q_method q; q_uri := q_uri q; q_version := v; q_headers := q_headers q |};
  reqb_uri u q := {| q_method := q_method q; q_uri := u; q_version := q_version q; q_headers := q_headers q |};
  reqb_method m q := {| q_method := m; q_uri := q_uri q; q_version := q_version q; q_headers := q_headers q |};
  reqb_header n v q :=
    {| q_method := q_method q; q_uri := q_uri q; q_version := q_version q; q_headers := q_headers q ++ [(n, v)] |};
  reqb_body q := Ok q;
  ResBuilder := response;
  res_builder := {| s_status := 200; s_version := 11; s_headers := [] |};
  resb_version v s := {| s_status := s_status s; s_version := v; s_headers := s_headers s |};
  resb_status c s := {| s_status := c; s_version := s_version s; s_headers := s_headers s |};
  resb_header n v s := {| s_status := s_status s; s_version := s_version s; s_headers := s_headers s ++ [(n, v)] |};
  resb_body s := Ok s;
|}.

(** A toy parser: the first line is split at spaces, the others at [": "];
    a head that does not end in an empty line is partial. *)
Fixpoint split_line (l : bytes) : option (bytes * bytes) :=
  match l with
  | [] => None
  | Byte.x0d :: Byte.x0a :: rest => Some ([], rest)
  | c :: rest => '(a, b) ← split_line rest; Some (c :: a, b)
  end.

Fixpoint split_at (sep : bytes) (l : bytes) : bytes * bytes :=
  if is_prefix sep l then ([], drop (length sep) l)
  else match l with [] => ([], []) | c :: rest => let '(a, b) := split_at sep rest in (c :: a, b) end.

Fixpoint skip_empty (l : bytes) : bytes :=
  match l with
  | Byte.x0d :: Byte.x0a :: rest => skip_empty rest
  | Byte.x0a :: rest => skip_empty rest
  | _ => l
  end.

Fixpoint header_lines (fuel : nat) (l : bytes) : option (list (bytes * bytes) * bytes) :=
  match fuel with
  | O => None
  | S fuel' =>
      '(line, rest) ← split_line l;
      match line with
      | [] => Some ([], rest)
      | _ => '(hs, rest) ← header_lines fuel' rest; Some (split_at (bs ": ") line :: hs, rest)
      end
  end.

Definition version_byte (v : bytes) : option Z :=
  match reverse v with c :: _ => to_digit 10 c | [] => None end.

Definition no_request : RawRequest :=
  {| raw_method := None; raw_path := None; raw_req_version := None; raw_req_headers := [] |}.

Definition no_response : RawResponse :=
  {| raw_code := None; raw_res_version := None; raw_res_headers := [] |}.

Definition parse_req (slots : nat) (l : bytes) : result (hp_status * RawRequest) unit :=
  match split_line (skip_empty l) with
  | None => Ok (Partial, no_request)
  | Some (first, rest) =>
      let '(m, r) := split_at (bs " ") first in
      let '(p, v) := split_at (bs " ") r in
      match header_lines (S slots) rest with
      | None => Ok (Partial, {| raw_method := Some m; raw_path := Some p;
                                raw_req_version := version_byte v; raw_req_headers := [] |})
      | Some (hs, rest') =>
          Ok (Complete (zlen l - zlen rest'),
              {| raw_method := Some m; raw_path := Some p;
                 raw_req_version := version_byte v; raw_req_headers := hs |})
      end
  end.

Definition parse_res (slots : nat) (l : bytes) : result (hp_status * RawResponse) unit :=
  match split_line (skip_empty l) with
  | None => Ok (Partial, no_response)
  | Some (first, rest) =>
      let '(v, r) := split_at (bs " ") first in
      let '(c, _) := split_at (bs " ") r in
      let code := from_str_radix 10 c in
      match header_lines (S slots) rest with
      | None => Ok (Partial, {| raw_code := code; raw_res_version := version_byte v; raw_res_headers := [] |})
      | Some (hs, rest') =>
          Ok (Complete (zlen l - zlen rest'),
              {| raw_code := code; raw_res_version := version_byte v; raw_res_headers := hs |})
      end
  end.

#[global] Instance plain_httparse : Httparse :=
  {| hp_error := unit; hp_error_msg _ := "httparse"; parse_request := parse_req; parse_response := parse_res |}.

End Plain.
