(* ===== verification/Error.v ===== *)
(** * Errors (src/error.rs, and [err_closed] of src/lib.rs) *)

From S2P Require Import Prelude.
From S2P Require Import Async.
From S2P Require Import Http_api.

Module Error.
Section Defs.
Context `{Http} `{Httparse}.

(** A user error carries its message, not rendered. *)
Inductive t :=
  | User (msg : list fmt)
  | Io (e : io_error)
  | Http11Parser (e : hp_error)
  | Http (e : http_error).

Definition into_io (e : t) : io_error :=
  match e with
  | Io i => i
  | User m => io_error_new Other m
  | Http11Parser e => io_error_new Other [Lit (hp_error_msg e)]
  | Http e => io_error_new Other [Lit (http_error_msg e)]
  end.

(** [impl fmt::Display]. *)
Definition display (e : t) : list fmt :=
  match e with
  | User v => v
  | Io v => err_msg v
  | Http11Parser v => [Lit "http11 parser: "; Lit (hp_error_msg v)]
  | Http v => [Lit "http api: "; Lit (http_error_msg v)]
  end.

(** [impl From<io::Error>]. *)
Definition from_io (e : io_error) : t := Io e.

(** [impl From<httparse::Error>] and [impl From<http::Error>]. *)
Definition from_httparse (e : hp_error) : t := Http11Parser e.
Definition from_http (e : http_error) : t := Http e.

Definition err_closed {A} (msg : string) : result A t :=
  Err (from_io (io_error_new NotConnected [Lit msg])).
End Defs.
End Error.
