(* ===== verification/Limit.v ===== *)
(** * Body framing (src/limit.rs, and [is_closed_kind] of src/share.rs)

    [LimitRead] and [LimitWrite] hold the framing that the headers of a
    message ask for: chunked, a content length, up to the end of the
    connection, or no body.  [owes] says what a reader is still to deliver of
    a stream and where it will stop. *)

From S2P Require Import Prelude.
From S2P Require Import Async.
From S2P Require Import Std_text.
From S2P Require Import Fast_buf.
From S2P Require Import Transport.
From S2P Require Import Buf_reader.
From S2P Require Import Chunked.
From S2P Require Import Http_api.
From S2P Require Import Error.

Definition is_closed_kind (kind : ErrorKind) : bool :=
  bool_decide (kind = UnexpectedEof) || bool_decide (kind = ConnectionReset) ||
  bool_decide (kind = ConnectionAborted).

(** ** What the headers say *)

Section Headers.
Context `{Http}.
Implicit Types (headers : HeaderMap).

Definition get_str headers (key : string) : option bytes := hm_get headers key ≫= hv_to_str.

(** [get_as::<u64>]. *)
Definition get_as headers (key : string) : option Z := get_str headers key ≫= parse_u64.

Definition is_chunked headers : bool :=
  default false ((fun h => negb (contains (bs "identity") h)) <$>
    (hm_get headers "transfer-encoding" ≫= hv_to_str)).

Definition is_keep_alive headers (dflt : bool) : bool :=
  default dflt (h ← hm_get headers "connection" ≫= hv_to_str;
    if bool_decide (h = bs "keep-alive") then Some true
    else if bool_decide (h = bs "close") then Some false
    else None).

Definition allow_reuse headers (version : Version) : bool :=
  if version_eqb version HTTP_11 then is_keep_alive headers true
  else is_keep_alive headers false.

Definition headers_indicate_body headers : bool :=
  is_chunked headers || bool_decide (is_Some (get_as headers "content-length")).

Lemma get_as_range headers key n : get_as headers key = Some n -> 0 <= n <= u64_max.
Proof. unfold get_as. destruct (get_str _ _) as [s|]; [|done]. apply parse_u64_range. Qed.
End Headers.

(** ** Readers *)

Definition empty_read_buf : string := "poll_read with len 0 buf".

Module ContentLengthRead.
Record t := mk { limit : Z; total : Z }.

Definition new (limit : Z) : t := mk limit 0.
Definition is_end (r : t) : bool := total r =? limit r.

Definition partial_body (r : t) : io_error := io_error_new UnexpectedEof
  [Lit "Partial body received "; Num (total r); Lit " bytes and expected "; Num (limit r)].

Section Defs.
Context {prof : Profile} {R : Type} `{AsyncRead R, AsyncWrite R}.

Definition poll_read (n : Z) : io (t * BufIo.t R) bytes :=
  lift (assert_ (0 <? n) empty_read_buf);;
  self ← on_fst get;
  left ← lift (usub (limit self) (total self));
  let left := left `min` u64_max in
  if left =? 0 then mret []
  else
    let max := n `min` left in
    d ← on_snd (BufIo.poll_read_buf max);
    if (0 <? left) && (zlen d =? 0) then io_err (partial_body self)
    else
      total' ← lift (uadd (total self) (zlen d));
      on_fst (modify (fun self => mk (limit self) total'));;
      mret d.
End Defs.
End ContentLengthRead.

Module ReadToEnd.
Record t := mk { reached_end : bool }.

Definition new : t := mk false.
Definition is_end (r : t) : bool := reached_end r.

Section Defs.
Context {prof : Profile} {R : Type} `{AsyncRead R, AsyncWrite R}.

Definition poll_read (n : Z) : io (t * BufIo.t R) bytes :=
  lift (assert_ (0 <? n) empty_read_buf);;
  self ← on_fst get;
  if reached_end self then mret []
  else
    r ← raw (on_snd (BufIo.poll_read_buf n));
    match r with
    | Pending => io_pending
    | Ready (Ok d) =>
        (if zlen d =? 0 then on_fst (modify (fun _ => mk true)) else mret tt);;
        mret d
    | Ready (Err e) =>
        if is_closed_kind (err_kind e) then on_fst (modify (fun _ => mk true));; mret []
        else io_err e
    end.
End Defs.
End ReadToEnd.

Module LimitRead.

Inductive t :=
  | ChunkedDecoder (v : ChunkedDecoder.t)
  | ContentLength (v : ContentLengthRead.t)
  | ReadToEnd (v : ReadToEnd.t)
  | NoBody.

Definition from_headers `{Http} (headers : HeaderMap) (is_server_response : bool) : t :=
  if is_chunked headers then ChunkedDecoder ChunkedDecoder.new
  else match get_as headers "content-length" with
  | Some size => ContentLength (ContentLengthRead.new size)
  | None => if is_server_response then ReadToEnd ReadToEnd.new else NoBody
  end.

Definition is_no_body (l : t) : bool :=
  match l with
  | ContentLength r => ContentLengthRead.limit r =? 0
  | NoBody => true
  | _ => false
  end.

Definition is_complete (l : t) : bool :=
  match l with
  | ChunkedDecoder v => ChunkedDecoder.is_end v
  | ContentLength v => ContentLengthRead.is_end v
  | ReadToEnd v => ReadToEnd.is_end v
  | NoBody => true
  end.

Definition body_size (l : t) : option Z :=
  match l with ContentLength v => Some (ContentLengthRead.limit v) | _ => None end.

Definition is_read_to_end (l : t) : bool := match l with ReadToEnd _ => true | _ => false end.

Definition is_reusable (l : t) : bool := is_complete l && negb (is_read_to_end l).

Definition can_read_entire_vec (l : t) : bool :=
  match l with ContentLength _ => true | _ => false end.

Section Defs.
Context {prof : Profile}.

Definition accept_entire_vec (buf : bytes) (l : t) : exec t :=
  match l with
  | ContentLength v =>
      total' ← uadd (ContentLengthRead.total v) (zlen buf);
      Done (ContentLength (ContentLengthRead.mk (ContentLengthRead.limit v) total'))
  | _ => Panic (PAssert "accept_entire_vec with wrong type of writer")
  end.

Context {R : Type} `{AsyncRead R, AsyncWrite R}.

(** A poll of the reader [v] inside the variant [wrap]. *)
Definition on_variant {V A} (wrap : V -> t) (v : V) (m : io (V * BufIo.t R) A) :
    io (t * BufIo.t R) A := fun st =>
  '(r, (v', recv)) ← m (v, snd st); Done (r, (wrap v', recv)).

Definition poll_read (fuel : nat) (n : Z) : io (t * BufIo.t R) bytes :=
  st ← get;
  match st.1 with
  | ChunkedDecoder v => on_variant ChunkedDecoder v (ChunkedDecoder.poll_read fuel n)
  | ContentLength v => on_variant ContentLength v (ContentLengthRead.poll_read n)
  | ReadToEnd v => on_variant ReadToEnd v (ReadToEnd.poll_read n)
  | NoBody => mret []
  end.
End Defs.
End LimitRead.

(** ** Writers *)

Module ContentLengthWrite.
Record t := mk { limit : Z; total : Z }.
Definition new (limit : Z) : t := mk limit 0.

Section Defs.
Context {prof : Profile} `{Http} `{Httparse}.

Definition too_long (v : t) : Error.t := Error.User
  [Lit "Body data longer than content-length header: "; Num (total v); Lit " > "; Num (limit v)].

(** The writer and the buffer as they are after the call, and its result. *)
Definition write (data : bytes) (v : t) (out : FastBuf.t) :
    exec (result unit Error.t * t * FastBuf.t) :=
  match data with
  | [] => Done (Ok tt, v, out)
  | _ =>
      total' ← uadd (total v) (zlen data);
      let v' := mk (limit v) total' in
      if limit v' <? total v' then Done (Err (too_long v'), v', out)
      else
        into ← FastBuf.borrow out;
        into ← FastBufRef.extend_from_slice data into;
        Done (Ok tt, v', FastBufRef.drop into)
  end.
End Defs.
End ContentLengthWrite.

Module LimitWrite.

Inductive t :=
  | ChunkedEncoder
  | ContentLength (v : ContentLengthWrite.t)
  | NoBody.

Definition from_headers `{Http} (headers : HeaderMap) : t :=
  if is_chunked headers then ChunkedEncoder
  else match get_as headers "content-length" with
  | Some limit => ContentLength (ContentLengthWrite.new limit)
  | None => NoBody
  end.

Definition overhead (l : t) : Z :=
  match l with ChunkedEncoder => 32 | ContentLength _ => 0 | NoBody => 0 end.

Definition is_no_body (l : t) : bool :=
  match l with
  | ContentLength w => ContentLengthWrite.limit w =? 0
  | NoBody => true
  | _ => false
  end.

Definition can_write_entire_vec (l : t) : bool :=
  match l with ContentLength _ => true | _ => false end.

Section Defs.
Context {prof : Profile}.

Definition accept_entire_vec (buf : bytes) (l : t) : exec t :=
  match l with
  | ContentLength v =>
      total' ← uadd (ContentLengthWrite.total v) (zlen buf);
      Done (ContentLength (ContentLengthWrite.mk (ContentLengthWrite.limit v) total'))
  | _ => Panic (PAssert "accept_entire_vec with wrong type of writer")
  end.

Context `{Http} `{Httparse}.

Definition write (data : bytes) (l : t) (out : FastBuf.t) :
    exec (result unit Error.t * t * FastBuf.t) :=
  match l with
  | ChunkedEncoder => out' ← ChunkedEncoder.write_chunk data out; Done (Ok tt, l, out')
  | ContentLength v =>
      '(r, v', out') ← ContentLengthWrite.write data v out; Done (r, ContentLength v', out')
  | NoBody => Done (Ok tt, l, out)
  end.

Definition finish (l : t) (out : FastBuf.t) : exec (result unit Error.t * FastBuf.t) :=
  match l with
  | ChunkedEncoder => out' ← ChunkedEncoder.write_finish out; Done (Ok tt, out')
  | ContentLength _ => Done (Ok tt, out)
  | NoBody => Done (Ok tt, out)
  end.
End Defs.
End LimitWrite.

(** ** Readers only read *)

Section ReadFrame.
Context {prof : Profile} {R : Type} `{DuplexSpec R}.

Lemma on_variant_frame {V} (wrap : V -> LimitRead.t) (v : V) (m : io (V * BufIo.t R) bytes) :
  keeps (snd_rel BufIo.rd_frame) m -> keeps (snd_rel BufIo.rd_frame) (LimitRead.on_variant wrap v m).
Proof.
  intros Hm [l b] r [l' b']. unfold LimitRead.on_variant. simpl.
  destruct (m (v, b)) as [[r1 [v1 b1]]| |] eqn:E; [|done..]. intros [= <- <- <-].
  by apply (Hm (v, b) r1 (v1, b1)).
Qed.

Lemma limit_read_frame fuel n : keeps (snd_rel BufIo.rd_frame) (LimitRead.poll_read (R := R) fuel n).
Proof.
  unfold LimitRead.poll_read. apply keeps_bind; [exact _|apply keeps_get; exact _|]. intros [[d|v|v|] b]; simpl;
    try apply on_variant_frame; unfold ContentLengthRead.poll_read, ReadToEnd.poll_read; keeps_tac.
Qed.
End ReadFrame.

#[export] Hint Resolve limit_read_frame : keeps.

(** *** A reader is [Pending] only when the transport is *)

Section ReadYields.
Context {prof : Profile} {R : Type} `{DuplexSpec R}.

Abbreviation rx_lasts := (snd_rel (BufIo.lasts (R := R))).
Abbreviation rx_held := (snd_rel (BufIo.held (R := R) BufIo.pending_rx)).

Lemma rx_lasts_held {V} (a b c : V * BufIo.t R) : rx_lasts a b -> rx_held b c -> rx_held a c.
Proof. apply BufIo.lasts_held. Qed.
Hint Resolve rx_lasts_held : yields.

Lemma recv_read_yields {V} n : yields (St := V * BufIo.t R) rx_lasts rx_held (on_snd (BufIo.poll_read_buf n)).
Proof. by apply (yields_zoom _ _ BufIo.lasts (BufIo.held BufIo.pending_rx)); [..|apply BufIo.poll_read_buf_yields]. Qed.

Lemma on_fst_yields {V A} (m : io V A) : (forall v v', m v <> Done (Pending, v')) -> yields (St := V * BufIo.t R) rx_lasts rx_held (on_fst m).
Proof.
  intros Hm. apply yields_ready; [by apply keeps_on_fst, _|]. intros [v b] [v' b']. unfold on_fst, zoom. simpl.
  destruct (m v) as [[[|x] v1]| |] eqn:E; try done. by destruct (Hm v v1).
Qed.

Hint Resolve recv_read_yields : yields.
Hint Extern 2 (yields _ _ (on_fst _)) => apply on_fst_yields; by intros ? ? : yields.

Lemma chunked_read_yields fuel n : yields rx_lasts rx_held (ChunkedDecoder.poll_read (R := R) fuel n).
Proof.
  unfold ChunkedDecoder.poll_read, ChunkedDecoder.read_turn, ChunkedDecoder.poll_chunk_size,
    ChunkedDecoder.chunk_size_turn, ChunkedDecoder.poll_skip_until_lf, ChunkedDecoder.skip_turn,
    ChunkedDecoder.recv_read. yields_tac.
Qed.

Lemma read_to_end_yields n : yields rx_lasts rx_held (ReadToEnd.poll_read (R := R) n).
Proof.
  unfold ReadToEnd.poll_read. yields_tac.
  eapply yields_raw; [exact _|solve [eauto 2 with yields]|apply recv_read_yields| |intros v].
  - intros b b1 r b' Hw Hs [= <- <-]. by split.
  - yields_tac.
Qed.

Lemma on_variant_yields {V} (wrap : V -> LimitRead.t) (v : V) (m : io (V * BufIo.t R) bytes) :
  yields rx_lasts rx_held m -> yields rx_lasts rx_held (LimitRead.on_variant wrap v m).
Proof.
  intros Hm [l b] r [l' b']. unfold LimitRead.on_variant. simpl.
  destruct (m (v, b)) as [[r1 [v1 b1]]| |] eqn:E; [|done..]. intros [= <- <- <-].
  by apply (Hm (v, b) r1 (v1, b1)).
Qed.

Lemma limit_read_yields fuel n : yields rx_lasts rx_held (LimitRead.poll_read (R := R) fuel n).
Proof.
  unfold LimitRead.poll_read. apply yields_bind; [exact _|exact rx_lasts_held|apply yields_get; exact _|].
  intros [[d|v|v|] b]; simpl; [apply on_variant_yields..|yields_tac].
  - apply chunked_read_yields.
  - unfold ContentLengthRead.poll_read. yields_tac.
  - apply read_to_end_yields.
Qed.
End ReadYields.

(** ** What a reader owes its caller *)

Section Reading.
Context {prof : Profile} {R : Type} `{ReadSpec R} `{!AsyncWrite R}.
Implicit Types (b : BufIo.t R) (l : LimitRead.t).

(** Of the stream [inc], [l] is still to deliver [body], and will then stop
    in front of [rest]. *)
Definition owes l (inc body rest : bytes) : Prop :=
  match l with
  | LimitRead.ChunkedDecoder d =>
      DecoderSpec.dec_wf d /\ exists w e, DecoderSpec.reached d w e body /\
        ChunkedDecoder.is_end e = true /\ inc = w ++ rest
  | LimitRead.ContentLength v =>
      0 <= ContentLengthRead.total v /\ ContentLengthRead.limit v <= u64_max /\
      zlen body = ContentLengthRead.limit v - ContentLengthRead.total v /\ inc = body ++ rest
  | LimitRead.ReadToEnd v =>
      if ReadToEnd.reached_end v then body = [] /\ inc = rest else body = inc /\ rest = []
  | LimitRead.NoBody => body = [] /\ inc = rest
  end.

(** The transport failed with an error that counts as the end. *)
Definition cut_off l (o : bytes) : Prop :=
  o = [] /\ (exists e, raises R e /\ is_closed_kind (err_kind e) = true) /\
  l = LimitRead.ReadToEnd (ReadToEnd.mk true).

(** The transport's stalls never come back, and a [Pending] uses one up. *)
Definition progress {A} b (r : poll (io_result A)) b' : Prop :=
  match r with
  | Pending => BufIo.stalled b b'
  | Ready (Ok _) => BufIo.calm b b'
  | Ready (Err _) => True
  end.

Lemma calm_refl b : BufIo.calm b b.
Proof. by intros _. Qed.

Definition pays l b (body rest : bytes) (n : Z) (r : poll (io_result bytes)) l' b' : Prop :=
  match r with
  | Ready (Ok o) => zlen o <= n /\
      ((exists body', body = o ++ body' /\ owes l' (BufIo.incoming b') body' rest /\
         (o = [] -> body = [] /\ LimitRead.is_complete l' = true)) \/ cut_off l' o)
  | Ready (Err e) => raises R e /\ owes l' (BufIo.incoming b') body rest
  | Pending => owes l' (BufIo.incoming b') body rest
  end.

(** *** Content length *)

Definition cl_wf (v : ContentLengthRead.t) : Prop :=
  0 <= ContentLengthRead.total v <= ContentLengthRead.limit v /\ ContentLengthRead.limit v <= u64_max.

Lemma content_length_read_wp n v b : BufIo.rd_wf b -> cl_wf v -> 0 < n ->
  wp (ContentLengthRead.poll_read n) (v, b) (fun r st =>
    BufIo.rd_wf st.2 /\ BufIo.tx_fields st.2 = BufIo.tx_fields b /\ cl_wf st.1 /\
    ContentLengthRead.limit st.1 = ContentLengthRead.limit v /\ progress b r st.2 /\
    match r with
    | Ready (Ok o) => zlen o <= n /\ BufIo.incoming b = o ++ BufIo.incoming st.2 /\
        ContentLengthRead.total st.1 = ContentLengthRead.total v + zlen o /\
        (o = [] -> ContentLengthRead.is_end v = true)
    | Ready (Err e) => st.1 = v /\ BufIo.incoming st.2 = BufIo.incoming b /\
        (raises R e \/ (e = ContentLengthRead.partial_body v /\ BufIo.incoming b = [] /\
                        ContentLengthRead.is_end v = false))
    | Pending => st.1 = v /\ BufIo.incoming st.2 = BufIo.incoming b
    end).
Proof.
  intros Hb [Hv Hmax] Hn. unfold ContentLengthRead.poll_read, ContentLengthRead.is_end.
  wp_steps; [by apply Z.ltb_lt|]. wp_steps. cbn [fst snd].
  rewrite Z.min_l by lia.
  destruct (Z.eqb_spec (ContentLengthRead.limit v - ContentLengthRead.total v) 0) as [He|He].
  { wp_steps. change (zlen (@nil byte)) with 0. rewrite (proj2 (Z.eqb_eq _ _)) by lia.
    unfold cl_wf, progress. split_and!; auto using calm_refl; lia. }
  rewrite (proj2 (Z.eqb_neq (ContentLengthRead.total v) _)) by lia.
  wp_steps. eapply wp_mono; [apply BufIo.poll_read_buf_wp; [done|lia]|].
  intros r b' (Hb' & Htx & Hd & _). cbn [fst snd]. unfold progress. destruct r as [|[d|e]]; simpl in Hd.
  - simpl. unfold cl_wf. split_and!; auto; try lia; tauto.
  - destruct Hd as (Hlen & Hin & Hnil & Hcalm). simpl. rewrite (proj2 (Z.ltb_lt 0 _)) by lia. simpl.
    destruct (Z.eqb_spec (zlen d) 0) as [Hz|Hz].
    + apply zlen_zero in Hz as ->. wp_steps. unfold cl_wf. specialize (Hnil eq_refl). rewrite Hnil in *.
      split_and!; auto; lia.
    + wp_steps. unfold cl_wf. simpl. zlen_facts. split_and!; auto; try lia.
      intros ->. by change (zlen (@nil byte)) with 0 in Hz.
  - simpl. unfold cl_wf. split_and!; auto; try lia; tauto.
Qed.

(** *** Up to the end *)

Lemma read_to_end_poll_wp n v b : BufIo.rd_wf b -> 0 < n ->
  wp (ReadToEnd.poll_read n) (v, b) (fun r st =>
    BufIo.rd_wf st.2 /\ BufIo.tx_fields st.2 = BufIo.tx_fields b /\ progress b r st.2 /\
    if ReadToEnd.reached_end v then r = Ready (Ok []) /\ st = (v, b)
    else match r with
    | Ready (Ok o) => zlen o <= n /\
        ((BufIo.incoming b = o ++ BufIo.incoming st.2 /\
          (o = [] -> BufIo.incoming b = []) /\
          ReadToEnd.reached_end st.1 = bool_decide (o = [])) \/
         (o = [] /\ (exists e, raises R e /\ is_closed_kind (err_kind e) = true) /\
          st.1 = ReadToEnd.mk true /\ BufIo.incoming st.2 = BufIo.incoming b))
    | Ready (Err e) => raises R e /\ is_closed_kind (err_kind e) = false /\ st.1 = v /\
        BufIo.incoming st.2 = BufIo.incoming b
    | Pending => st.1 = v /\ BufIo.incoming st.2 = BufIo.incoming b
    end).
Proof.
  intros Hb Hn. unfold ReadToEnd.poll_read. wp_steps; [by apply Z.ltb_lt|]. wp_steps. cbn [fst snd].
  destruct (ReadToEnd.reached_end v) eqn:Hv; [wp_steps; unfold progress; split_and!; auto using calm_refl|].
  wp_steps. eapply wp_mono; [by apply BufIo.poll_read_buf_wp|].
  intros r b' (Hb' & Htx & Hd & _). cbn [fst snd]. unfold progress. destruct r as [|[d|e]]; simpl in Hd; wp_steps.
  - split_and!; auto; tauto.
  - destruct Hd as (Hlen & Hin & Hnil & Hcalm). destruct (Z.eqb_spec (zlen d) 0) as [Hz|Hz].
    + apply zlen_zero in Hz as ->. wp_steps. split_and!; auto; left; by split_and!; auto.
    + wp_steps. split_and!; auto. left. split_and!; auto. rewrite Hv. symmetry.
      apply bool_decide_eq_false. by intros ->.
  - destruct Hd as (Hin & Hra & Hst).
    assert (BufIo.calm b b') by (intros E; specialize (Hst E); lia).
    destruct (is_closed_kind (err_kind e)) eqn:Hk; wp_steps.
    + change (zlen (@nil byte)) with 0. split_and!; [done..|lia|]. right. eauto 6.
    + split_and!; auto.
Qed.

(** *** All of them *)

Lemma on_variant_wp {V} (wrap : V -> LimitRead.t) (v : V) m l b
    (Q : poll (io_result bytes) -> LimitRead.t * BufIo.t R -> Prop) :
  wp m (v, b) (fun r st => Q r (wrap st.1, st.2)) ->
  wp (LimitRead.on_variant wrap v m) (l, b) Q.
Proof. unfold wp, LimitRead.on_variant. simpl. by destruct (m (v, b)) as [[r [v' b']]| |]. Qed.

Lemma chunked_pays fuel n d b body rest : BufIo.rd_wf b -> 0 < n ->
  owes (LimitRead.ChunkedDecoder d) (BufIo.incoming b) body rest ->
  zlen (BufIo.incoming b) < Z.of_nat fuel -> (4 < fuel)%nat ->
  wp (ChunkedDecoder.poll_read fuel n) (d, b) (fun r st =>
    BufIo.rd_wf st.2 /\ BufIo.tx_fields st.2 = BufIo.tx_fields b /\ progress b r st.2 /\
    zlen (BufIo.incoming st.2) <= zlen (BufIo.incoming b) /\
    pays (LimitRead.ChunkedDecoder d) b body rest n r (LimitRead.ChunkedDecoder st.1) st.2).
Proof.
  intros Hb Hn (Hd & w & e & Hw & He & Hin) Hf Hf4.
  eapply wp_mono; [by apply DecoderSpec.poll_read_wp|]. intros r [d' b'] Hr. cbn [fst snd] in *.
  assert (Htrack : forall p x, BufIo.incoming b = p ++ BufIo.incoming b' -> DecoderSpec.feeds d p = Some x ->
    exists q d1 o1 o2, BufIo.incoming b' = q ++ rest /\ x = Ok (d1, o1) /\
      DecoderSpec.reached d1 q e o2 /\ body = o1 ++ o2).
  { intros p x Hp Hx. destruct (Coding.on_track d w e body p (BufIo.incoming b') rest x)
      as (q & d1 & o1 & o2 & _ & ?); [done|done|congruence|done|]. by exists q, d1, o1, o2. }
  destruct r as [|[o|err]]; simpl.
  - destruct Hr as (p & (Hb' & Htx & Hp & _) & Hrp & Hst).
    destruct (Htrack p _ Hp Hrp) as (q & d1 & o1 & o2 & Hq & [= <- <-] & Hrest & ->).
    split_and!; auto; [rewrite Hp; zlia|by eapply DecoderSpec.reached_wf|]. by exists q, e.
  - destruct Hr as (p & (Hb' & Htx & Hp & Hcalm) & Hrp & Hlen & Hnil).
    destruct (Htrack p _ Hp Hrp) as (q & d1 & o1 & o2 & Hq & [= <- <-] & Hrest & ->).
    split_and!; auto; [rewrite Hp; zlia|]. left. exists o2. split; [done|]. split.
    { split; [by eapply DecoderSpec.reached_wf|]. by exists q, e. }
    intros ->. destruct q as [|c q].
    + unfold DecoderSpec.reached in Hrest. simpl in Hrest. injection Hrest as -> <-. done.
    + destruct (Hnil eq_refl) as [Hend|[_ Hi]]; [|by rewrite Hi in Hq].
      unfold DecoderSpec.reached in Hrest. simpl in Hrest. unfold DecoderSpec.feed in Hrest.
      unfold ChunkedDecoder.is_end in Hend. apply bool_decide_eq_true in Hend. by rewrite Hend in Hrest.
  - destruct Hr as (p & (Hb' & Htx & Hp & _) & [Hrp|[Hrp Herr]]).
    { by destruct (Htrack p _ Hp Hrp) as (? & ? & ? & ? & _ & [=] & _). }
    destruct (Htrack p _ Hp Hrp) as (q & d1 & o1 & o2 & Hq & [= <- <-] & Hrest & ->).
    split_and!; auto; [rewrite Hp; zlia| |by eapply DecoderSpec.reached_wf|by exists q, e].
    destruct Herr as [|[Hi Ht]]; [done|]. rewrite Hi in Hq. destruct q; [|done].
    unfold DecoderSpec.reached in Hrest. simpl in Hrest. injection Hrest as -> _.
    unfold ChunkedDecoder.is_end in He. apply bool_decide_eq_true in He. by rewrite He in Ht.
Qed.

Lemma owes_cl_wf v inc body rest : owes (LimitRead.ContentLength v) inc body rest -> cl_wf v.
Proof. intros (? & ? & ? & _). unfold cl_wf. zlen_facts. lia. Qed.

Lemma content_length_pays n v b body rest : BufIo.rd_wf b -> 0 < n ->
  owes (LimitRead.ContentLength v) (BufIo.incoming b) body rest ->
  wp (ContentLengthRead.poll_read n) (v, b) (fun r st =>
    BufIo.rd_wf st.2 /\ BufIo.tx_fields st.2 = BufIo.tx_fields b /\ progress b r st.2 /\
    zlen (BufIo.incoming st.2) <= zlen (BufIo.incoming b) /\
    pays (LimitRead.ContentLength v) b body rest n r (LimitRead.ContentLength st.1) st.2).
Proof.
  intros Hb Hn Ho. pose proof (owes_cl_wf v _ _ _ Ho) as Hv. destruct Ho as (Ht & Hmax & Hlen & Hin).
  eapply wp_mono; [by apply content_length_read_wp|].
  intros r [v' b'] (Hb' & Htx & [Hv' Hm'] & Hlim & Hpr & Hr). cbn [fst snd] in *.
  do 3 (split; [done|]). destruct r as [|[o|e]]; simpl.
  - destruct Hr as [-> Hi]. rewrite Hi. split_and!; try done.
  - destruct Hr as (Hn' & Hi & Htot & Hnil). split; [rewrite Hi; zlia|]. split; [done|]. left.
    assert (zlen o <= zlen body) by lia. rewrite Hi in Hin.
    assert (Hbody : body = o ++ zdrop (zlen o) body).
    { rewrite <- (ztake_zdrop (zlen o) body) at 1. f_equal.
      transitivity (ztake (zlen o) (body ++ rest)); [zlen_facts; by rewrite ztake_app_le by lia|].
      rewrite <- Hin. by rewrite ztake_app_length. }
    exists (zdrop (zlen o) body). split; [done|]. split; [split_and!; try lia|].
    + rewrite zlen_zdrop by zlia. lia.
    + rewrite Hbody, <- app_assoc in Hin. by apply app_inv_head in Hin.
    + intros ->. specialize (Hnil eq_refl). unfold ContentLengthRead.is_end in *.
      apply Z.eqb_eq in Hnil. change (zlen (@nil byte)) with 0 in *.
      split; [apply zlen_zero; lia | apply Z.eqb_eq; lia].
  - destruct Hr as (-> & Hi & [|(-> & Hnil & Hne)]); [rewrite Hi; split_and!; done|].
    rewrite Hnil in Hin. symmetry in Hin. apply app_nil in Hin as [-> _].
    change (zlen (@nil byte)) with 0 in Hlen. unfold ContentLengthRead.is_end in Hne. lia.
Qed.

Lemma read_to_end_pays n v b body rest : BufIo.rd_wf b -> 0 < n ->
  owes (LimitRead.ReadToEnd v) (BufIo.incoming b) body rest ->
  wp (ReadToEnd.poll_read n) (v, b) (fun r st =>
    BufIo.rd_wf st.2 /\ BufIo.tx_fields st.2 = BufIo.tx_fields b /\ progress b r st.2 /\
    zlen (BufIo.incoming st.2) <= zlen (BufIo.incoming b) /\
    pays (LimitRead.ReadToEnd v) b body rest n r (LimitRead.ReadToEnd st.1) st.2).
Proof.
  intros Hb Hn Ho. eapply wp_mono; [by apply read_to_end_poll_wp|].
  intros r [v' b'] (Hb' & Htx & Hpr & Hr). cbn [fst snd] in *. do 3 (split; [done|]).
  simpl in Ho. destruct (ReadToEnd.reached_end v) eqn:Hv.
  - destruct Hr as (-> & [= -> ->]). destruct Ho as [-> <-].
    simpl. split; [done|]. split; [change (zlen (@nil byte)) with 0; lia|].
    left. exists []. rewrite Hv. by split_and!.
  - destruct Ho as [-> ->]. destruct r as [|[o|e]]; simpl.
    + destruct Hr as [-> Hi]. by rewrite Hv, Hi.
    + destruct Hr as (Hlen & [(Hi & Hnil & He)|(-> & Hra & -> & Hi)]);
        (split; [rewrite Hi; zlia|]); (split; [done|]); [left|by right].
      exists (BufIo.incoming b'). rewrite He. split; [done|]. case_bool_decide as Ho; [|done].
      subst o. rewrite Hnil in Hi by done. simpl in Hi. rewrite <- Hi. split_and!; auto.
    + destruct Hr as (Hra & _ & -> & Hi). by rewrite Hv, Hi.
Qed.

Lemma limit_read_pays fuel n l b body rest : BufIo.rd_wf b -> 0 < n ->
  owes l (BufIo.incoming b) body rest ->
  zlen (BufIo.incoming b) < Z.of_nat fuel -> (4 < fuel)%nat ->
  wp (LimitRead.poll_read fuel n) (l, b) (fun r st =>
    BufIo.rd_wf st.2 /\ BufIo.tx_fields st.2 = BufIo.tx_fields b /\ progress b r st.2 /\
    zlen (BufIo.incoming st.2) <= zlen (BufIo.incoming b) /\
    pays l b body rest n r st.1 st.2).
Proof.
  intros Hb Hn Ho Hf Hf4. unfold LimitRead.poll_read. wp_steps. cbn [fst snd].
  destruct l as [d|v|v|]; [apply on_variant_wp..|].
  - by apply chunked_pays.
  - by apply content_length_pays.
  - by apply read_to_end_pays.
  - destruct Ho as [-> Ho]. wp_steps. do 2 (split; [done|]). split; [apply calm_refl|].
    split; [done|]. split; [change (zlen (@nil byte)) with 0; lia|]. left. exists []. by split_and!.
Qed.

(** *** Any reader, on any bytes *)

Definition limit_wf l : Prop :=
  match l with
  | LimitRead.ChunkedDecoder d => DecoderSpec.dec_wf d
  | LimitRead.ContentLength v => cl_wf v
  | _ => True
  end.

(** [l] takes the wire bytes [p], hands out the body bytes [o], and is then
    [l']; a [ReadToEnd] may also be cut off. *)
Definition reads l (p o : bytes) l' : Prop :=
  match l, l' with
  | LimitRead.ChunkedDecoder d, LimitRead.ChunkedDecoder d' => DecoderSpec.reached d p d' o
  | LimitRead.ContentLength v, LimitRead.ContentLength v' =>
      p = o /\ ContentLengthRead.limit v' = ContentLengthRead.limit v /\
      ContentLengthRead.total v' = ContentLengthRead.total v + zlen o
  | LimitRead.ReadToEnd v, LimitRead.ReadToEnd v' =>
      p = o /\ (ReadToEnd.reached_end v = true -> v' = v /\ o = []) /\
      (o <> [] -> ReadToEnd.reached_end v' = false)
  | LimitRead.NoBody, LimitRead.NoBody => p = [] /\ o = []
  | _, _ => False
  end.

Lemma reads_kind l p o l' : reads l p o l' -> LimitRead.is_read_to_end l' = LimitRead.is_read_to_end l.
Proof. by destruct l, l'. Qed.

Lemma reads_trans l p o l' p' o' l'' : LimitRead.is_read_to_end l = false ->
  reads l p o l' -> reads l' p' o' l'' -> reads l (p ++ p') (o ++ o') l''.
Proof.
  intros Hk. destruct l, l', l''; simpl; try done.
  - apply DecoderSpec.reached_trans.
  - intros (-> & Hl & Ht) (-> & Hl' & Ht'). rewrite Hl', Hl, Ht', Ht, zlen_app. split_and!; [done..|lia].
  - by intros [-> ->] [-> ->].
Qed.

Lemma reads_nil l : LimitRead.is_read_to_end l = false -> reads l [] [] l.
Proof.
  destruct l; simpl; try done. intros _. split_and!; [done|done|]. change (zlen (@nil byte)) with 0. lia.
Qed.

Lemma feed_out d c d' o : DecoderSpec.feed d c = Some (Ok (d', o)) -> zlen o <= 1.
Proof.
  unfold DecoderSpec.feed. destruct (ChunkedDecoder.state d); try (intros [= <- <-]; done); try done.
  destruct (ChunkedDecoder.ends_size c); [destruct (ChunkedDecoder.start_chunk d); by intros [= <- <-]|].
  destruct (ChunkedDecoder.is_size_char c); [|done]. destruct (10 <? _); by intros [= <- <-].
Qed.

(** Body bytes are bytes of the wire. *)
Lemma reached_out d p d' o : DecoderSpec.reached d p d' o -> zlen o <= zlen p.
Proof.
  unfold DecoderSpec.reached. revert d o. induction p as [|c p IH]; intros d o; simpl.
  - intros [= <- <-]. done.
  - destruct (DecoderSpec.feed d c) as [[[d1 o1]|e]|] eqn:E; try done.
    destruct (DecoderSpec.feeds d1 p) as [[[d2 o2]|e]|] eqn:E2; try done. intros [= -> <-].
    apply feed_out in E. specialize (IH d1 o2 E2). rewrite zlen_app, zlen_cons. lia.
Qed.

Lemma reads_out l p o l' : reads l p o l' -> zlen o <= zlen p.
Proof.
  destruct l, l'; simpl; try done.
  - apply reached_out.
  - by intros [-> _].
  - by intros [-> _].
  - by intros [-> ->].
Qed.

(** A poll of a reader, whatever is on the connection: what it hands out is
    what the framing makes of the bytes it takes.  It hands out nothing only
    when it is complete or the connection is exhausted. *)
Lemma limit_read_wp fuel n l b : BufIo.rd_wf b -> limit_wf l -> 0 < n ->
  zlen (BufIo.incoming b) < Z.of_nat fuel -> (4 < fuel)%nat ->
  wp (LimitRead.poll_read fuel n) (l, b) (fun r st =>
    BufIo.rd_wf st.2 /\ exists p, BufIo.incoming b = p ++ BufIo.incoming st.2 /\
    match r with
    | Ready (Ok o) => reads l p o st.1 /\ limit_wf st.1 /\ zlen o <= n /\
        (o = [] -> LimitRead.is_complete st.1 = true \/ BufIo.incoming st.2 = [])
    | Ready (Err e) => True
    | Pending => reads l p [] st.1 /\ limit_wf st.1
    end).
Proof.
  intros Hb Hl Hn Hf Hf4. unfold LimitRead.poll_read. wp_steps. cbn [fst snd].
  destruct l as [d|v|v|]; [apply on_variant_wp..|]; simpl in Hl.
  - eapply wp_mono; [by apply DecoderSpec.poll_read_wp|]. intros r [d' b'] Hr. cbn [fst snd] in *.
    destruct r as [|[o|e]]; simpl.
    + destruct Hr as (p & (Hb' & _ & Hp & _) & Hrp & _). split; [done|]. exists p.
      split_and!; auto. by eapply DecoderSpec.reached_wf.
    + destruct Hr as (p & (Hb' & _ & Hp & _) & Hrp & Hlen & Hnil). split; [done|]. exists p.
      split_and!; auto; [by eapply DecoderSpec.reached_wf|]. intros Ho. destruct (Hnil Ho) as [|[_ ?]]; auto.
    + destruct Hr as (p & (Hb' & _ & Hp & _) & _). split; [done|]. by exists p.
  - eapply wp_mono; [by apply content_length_read_wp|].
    intros r [v' b'] (Hb' & _ & Hv' & Hlim & _ & Hr). cbn [fst snd] in *. split; [done|].
    destruct r as [|[o|e]]; simpl.
    + destruct Hr as [-> Hi]. exists []. split_and!; auto. change (zlen (@nil byte)) with 0. lia.
    + destruct Hr as (? & ? & Htot & Hnil). exists o. split_and!; auto. intros Ho. left.
      specialize (Hnil Ho). subst o. unfold ContentLengthRead.is_end in *. apply Z.eqb_eq in Hnil.
      change (zlen (@nil byte)) with 0 in *. apply Z.eqb_eq. lia.
    + exists []. destruct Hr as (_ & Hi & _). by rewrite Hi.
  - eapply wp_mono; [by apply read_to_end_poll_wp|]. intros r [v' b'] (Hb' & _ & _ & Hr). cbn [fst snd] in *.
    split; [done|]. destruct (ReadToEnd.reached_end v) eqn:Hv.
    + destruct Hr as (-> & [= -> ->]). exists []. split; [done|]. simpl. split_and!; auto; [done|].
      change (zlen (@nil byte)) with 0. lia.
    + destruct r as [|[o|e]]; simpl.
      * destruct Hr as [-> Hi]. exists []. rewrite Hi. split; [done|]. split_and!; auto; by intros.
      * destruct Hr as (Hlen & [(Hi & Hnil & He)|(-> & Hra & -> & Hi)]).
        -- exists o. split; [done|]. rewrite He. split_and!; [done|congruence| |done|done|].
           ++ intros Hne. by apply bool_decide_eq_false.
           ++ intros ->. left. unfold ReadToEnd.is_end. by rewrite He.
        -- exists []. rewrite Hi. split; [done|]. split_and!; auto; [congruence|done].
      * exists []. destruct Hr as (_ & _ & _ & Hi). by rewrite Hi.
  - wp_steps. split; [done|]. exists []. split; [done|]. split; [done|]. split; [done|].
    change (zlen (@nil byte)) with 0. split; [lia|]. auto.
Qed.

(** *** Reading a body to its end *)

(** What a receiver does: read until nothing comes. *)
Definition read_body (fuel polls : nat) (n : Z) : io (LimitRead.t * BufIo.t R) bytes :=
  iter polls (fun o =>
    d ← await polls (LimitRead.poll_read fuel n);
    match d with [] => mret (inr o) | _ => mret (inl (o ++ d)) end) [].

Lemma owes_done l inc rest : owes l inc [] rest -> LimitRead.is_complete l = true -> inc = rest.
Proof.
  destruct l as [d|v|v|]; simpl.
  - intros (_ & w & e & Hw & _ & ->) He. destruct w as [|c w]; [done|].
    unfold DecoderSpec.reached in Hw. simpl in Hw. unfold DecoderSpec.feed in Hw.
    unfold ChunkedDecoder.is_end in He. apply bool_decide_eq_true in He. by rewrite He in Hw.
  - by intros (_ & _ & _ & ->).
  - unfold ReadToEnd.is_end. intros Ho E. rewrite E in Ho. apply Ho.
  - by intros [_ ->].
Qed.

(** Where the loop is once it has [o]. *)
Definition collected b0 (body rest o : bytes) (st : LimitRead.t * BufIo.t R) : Prop :=
  BufIo.rd_wf st.2 /\ BufIo.calm b0 st.2 /\ zlen (BufIo.incoming st.2) <= zlen (BufIo.incoming b0) /\
  exists body', body = o ++ body' /\ owes st.1 (BufIo.incoming st.2) body' rest.

Lemma collected_poll_wp fuel polls n b0 body rest o st : 0 < n -> r_live = true ->
  zlen (BufIo.incoming b0) < Z.of_nat fuel -> (4 < fuel)%nat ->
  (r_stalls (BufIo.inner b0) < polls)%nat -> collected b0 body rest o st ->
  wp (await polls (LimitRead.poll_read fuel n)) st (fun r st' =>
    match r with
    | Ready (Ok d) =>
        (collected b0 body rest (o ++ d) st' /\
         (d = [] -> body = o /\ LimitRead.is_complete st'.1 = true /\ BufIo.incoming st'.2 = rest)) \/
        (d = [] /\ o `prefix_of` body /\ cut_off st'.1 [])
    | Ready (Err e) => raises R e
    | Pending => False
    end).
Proof.
  intros Hn Hlive Hf Hf4 Hpolls Hst.
  apply (wp_await (collected b0 body rest o) (fun st => r_stalls (BufIo.inner st.2))); [|done|].
  2: { destruct Hst as (_ & Hc & _). specialize (Hc Hlive). lia. }
  clear st Hst. intros [l b] (Hwf & Hc & Hle & body' & -> & Ho). cbn [fst snd] in *.
  eapply wp_mono; [apply (limit_read_pays fuel n l b body' rest); try done; lia|].
  intros r [l' b'] (Hwf' & _ & Hpr & Hle' & Hpay). cbn [fst snd] in *.
  assert (Hcalm : BufIo.calm b b' -> BufIo.calm b0 b')
    by (intros Hcb E; specialize (Hc E); specialize (Hcb E); lia).
  destruct r as [|[d|e]]; simpl in Hpr, Hpay.
  - split; [|by apply Hpr]. split; [done|]. split; [|split; [cbn [fst snd]; lia|by exists body']].
    apply Hcalm. intros E. specialize (Hpr E). lia.
  - destruct Hpay as (_ & [(body2 & -> & Ho2 & Hnil)|(-> & Hcut)]).
    + left. split; [split_and!; auto; [cbn; lia|]|].
      * exists body2. by rewrite app_assoc.
      * intros ->. destruct (Hnil eq_refl) as [Hb2 He]. simpl in Hb2. subst body2.
        rewrite app_nil_r. split_and!; auto. by eapply owes_done.
    + right. split; [done|]. split; [by exists body'|by split].
  - apply Hpay.
Qed.

Lemma collected_len b0 body rest o st : collected b0 body rest o st -> zlen o <= zlen body.
Proof. intros (_ & _ & _ & body' & -> & _). zlia. Qed.
End Reading.

(** ** What a writer puts out *)

Section Writing.
Context {prof : Profile} `{Http} `{Httparse}.
Implicit Types (l : LimitWrite.t).

(** The wire form of one piece of data, and of the end. *)
Definition framed l (data : bytes) : bytes :=
  match l with
  | LimitWrite.ChunkedEncoder => Coding.coded data
  | LimitWrite.ContentLength _ => data
  | LimitWrite.NoBody => []
  end.

Definition closing l : bytes :=
  match l with LimitWrite.ChunkedEncoder => ChunkedEncoder.END | _ => [] end.

(** The writer once [data] was offered, and whether it was accepted. *)
Definition advanced l (data : bytes) : LimitWrite.t :=
  match l with
  | LimitWrite.ContentLength v => LimitWrite.ContentLength
      (ContentLengthWrite.mk (ContentLengthWrite.limit v) (ContentLengthWrite.total v + zlen data))
  | _ => l
  end.

Definition refuses l (data : bytes) : bool :=
  match l with
  | LimitWrite.ContentLength v => negb (zlen data =? 0) &&
      (ContentLengthWrite.limit v <? ContentLengthWrite.total v + zlen data)
  | _ => false
  end.

(** The counter of a content length has not wrapped around. *)
Definition in_range l (data : bytes) : Prop :=
  match l with
  | LimitWrite.ContentLength v => ContentLengthWrite.total v + zlen data <= u64_max
  | _ => True
  end.

Lemma content_length_write_ok v data out : FastBuf.is_buf out [] ->
  zlen data <= FastBuf.capacity out -> ContentLengthWrite.total v + zlen data <= u64_max ->
  let v' := ContentLengthWrite.mk (ContentLengthWrite.limit v) (ContentLengthWrite.total v + zlen data) in
  exists out', FastBuf.capacity out' = FastBuf.capacity out /\
    if refuses (LimitWrite.ContentLength v) data
    then ContentLengthWrite.write data v out = Done (Err (ContentLengthWrite.too_long v'), v', out')
    else ContentLengthWrite.write data v out = Done (Ok tt, v', out') /\ FastBuf.is_buf out' data.
Proof.
  intros Hb Hcap Hmax. destruct v as [limit total]. simpl in *. unfold ContentLengthWrite.write.
  destruct data as [|c data].
  { exists out. change (zlen (@nil byte)) with 0. rewrite Z.add_0_r. by split. }
  assert (Hne : zlen (c :: data) <> 0) by by rewrite zlen_zero.
  set (d := c :: data) in *. unfold refuses. rewrite (proj2 (Z.eqb_neq _ _)) by done. simpl.
  rewrite uadd_ok by done. simpl.
  destruct (limit <? total + zlen d); [by exists out|].
  pose proof (zlen_nonneg d).
  destruct (FastBuf.borrow_ok out [] Hb) as (r & sp & -> & Hr & Hsp & Hsp2 & Hsp3);
    [lia|left; change (zlen (@nil byte)) with 0; lia|].
  change (zlen (@nil byte)) with 0 in *. simpl.
  destruct (FastBuf.extend_from_slice_ok r [] sp d Hr) as (r' & -> & Hr'); [lia|]. simpl.
  destruct (FastBuf.drop_ok _ _ _ Hr') as [Hb' Hc']. exists (FastBufRef.drop r').
  simpl in Hb'. split; [rewrite Hc', zlen_app; change (zlen (@nil byte)) with 0; lia | done].
Qed.

(** A write into a fresh buffer of the size the sender computes. *)
Lemma limit_write_ok l data out : FastBuf.is_buf out [] ->
  FastBuf.capacity out = zlen data + LimitWrite.overhead l -> zlen data <= u64_max ->
  in_range l data ->
  exists out', FastBuf.capacity out' = FastBuf.capacity out /\
    if refuses l data
    then exists m, LimitWrite.write data l out = Done (Err (Error.User m), advanced l data, out')
    else LimitWrite.write data l out = Done (Ok tt, advanced l data, out') /\
         FastBuf.is_buf out' (framed l data).
Proof.
  intros Hb Hcap Hmax Hr. destruct l as [|v|]; simpl in *.
  - pose proof (Coding.coded_overhead data Hmax).
    destruct (Coding.write_chunk_ok data out [] Hb) as (o & -> & Ho & Hc);
      [change (zlen (@nil byte)) with 0; lia|]. simpl in *. by exists o.
  - destruct (content_length_write_ok v data out Hb) as (o & Ho & Hw); [lia|done|].
    exists o. split; [done|]. cbv zeta in Hw. simpl in Hw.
    destruct (negb _ && _); [rewrite Hw|destruct Hw as [-> ?]]; simpl; eauto.
  - by exists out.
Qed.

Lemma limit_finish_ok l data out : FastBuf.is_buf out (framed l data) ->
  FastBuf.capacity out = zlen data + LimitWrite.overhead l -> zlen data <= u64_max ->
  exists out', LimitWrite.finish l out = Done (Ok tt, out') /\
    FastBuf.is_buf out' (framed l data ++ closing l).
Proof.
  intros Hb Hcap Hmax. destruct l as [|v|]; simpl in *.
  - pose proof (Coding.coded_overhead data Hmax).
    destruct (Coding.write_finish_ok out _ Hb) as (o & -> & Ho & _); [lia|]. by exists o.
  - exists out. by rewrite app_nil_r.
  - by exists out.
Qed.
End Writing.

(** ** Properties *)

Section Properties.
Context {prof : Profile} {R : Type} `{ReadSpec R} `{!AsyncWrite R}.

(** C16. Whatever the framing, reading a body until nothing comes gives exactly
    the body the framing delimits and leaves the connection right in front of
    what follows it, with the reader complete, so that the connection can
    carry the next message; the loop ends and never panics.  The only ways
    out are an error of the transport, and, where the body runs to the end
    of the connection, an abort by the peer, which gives a front of the
    body. *)
Theorem limit_read_to_end fuel polls n l (b : BufIo.t R) body rest :
  BufIo.rd_wf b -> owes l (BufIo.incoming b) body rest -> 0 < n -> r_live = true ->
  zlen (BufIo.incoming b) < Z.of_nat fuel -> (4 < fuel)%nat ->
  (r_stalls (BufIo.inner b) < polls)%nat -> zlen body < Z.of_nat polls ->
  wp (read_body fuel polls n) (l, b) (fun r st =>
    match r with
    | Ready (Ok o) =>
        (o = body /\ LimitRead.is_complete st.1 = true /\ BufIo.incoming st.2 = rest) \/
        (o `prefix_of` body /\ cut_off (R := R) st.1 [])
    | Ready (Err e) => raises R e
    | Pending => False
    end).
Proof.
  intros Hb Ho Hn Hlive Hf Hf4 Hst Hpolls. unfold read_body.
  apply (wp_iter (collected b body rest) (fun o _ => Z.to_nat (zlen body - zlen o))).
  - intros o st Hcol. wp_steps.
    eapply wp_mono; [by apply (collected_poll_wp fuel polls n b body rest o st)|].
    intros r st' Hr. destruct r as [|[d|e]]; [done| |done]. simpl.
    destruct Hr as [[Hcol' Hnil]|(-> & Hpre & Hcut)]; [|wp_steps; by right].
    destruct d as [|c d]; wp_steps.
    + left. destruct (Hnil eq_refl) as (-> & ? & ?). done.
    + split; [done|]. apply collected_len in Hcol'. rewrite zlen_app, zlen_cons in *. zlen_facts. lia.
  - split; [done|]. split; [apply calm_refl|]. split; [done|]. by exists body.
  - change (zlen (@nil byte)) with 0. lia.
Qed.

(** C35. A body cut short is never taken for a whole one: while the connection
    holds fewer bytes than the content length still asks for, no poll makes
    the reader complete or reports the end, the shortage stays, and once the
    connection is exhausted an answer can only be an error: of the transport,
    or [UnexpectedEof] with the two lengths. *)
Theorem content_length_truncated n v (b : BufIo.t R) :
  BufIo.rd_wf b -> cl_wf v -> 0 < n ->
  zlen (BufIo.incoming b) < ContentLengthRead.limit v - ContentLengthRead.total v ->
  wp (ContentLengthRead.poll_read n) (v, b) (fun r st =>
    zlen (BufIo.incoming st.2) < ContentLengthRead.limit st.1 - ContentLengthRead.total st.1 /\
    cl_wf st.1 /\ ContentLengthRead.is_end st.1 = false /\
    match r with
    | Ready (Ok o) => o <> [] /\ BufIo.incoming b = o ++ BufIo.incoming st.2
    | Ready (Err e) => raises R e \/
        (BufIo.incoming b = [] /\ e = io_error_new UnexpectedEof
          [Lit "Partial body received "; Num (ContentLengthRead.total v);
           Lit " bytes and expected "; Num (ContentLengthRead.limit v)])
    | Pending => True
    end).
Proof.
  intros Hb Hv Hn Hshort. eapply wp_mono; [by apply content_length_read_wp|].
  intros r [v' b'] (_ & _ & Hv' & Hlim & _ & Hr). cbn [fst snd] in *.
  unfold ContentLengthRead.is_end in *. rewrite Hlim.
  assert (Hopen : forall w, zlen (BufIo.incoming b') < ContentLengthRead.limit v - w ->
    (w =? ContentLengthRead.limit v) = false)
    by (intros w; pose proof (zlen_nonneg (BufIo.incoming b')); intros; apply Z.eqb_neq; lia).
  destruct r as [|[o|e]].
  - destruct Hr as [-> Hi]. rewrite Hi in *. auto.
  - destruct Hr as (_ & Hi & Htot & Hnil). rewrite Htot.
    assert (zlen (BufIo.incoming b) = zlen o + zlen (BufIo.incoming b')) by (rewrite Hi; zlia).
    split_and!; auto; try lia; [apply Hopen; lia|].
    intros ->. specialize (Hnil eq_refl). apply Z.eqb_eq in Hnil.
    pose proof (zlen_nonneg (BufIo.incoming b)). lia.
  - destruct Hr as (-> & Hi & Hr). rewrite Hi in *. split_and!; auto.
    destruct Hr as [|(-> & ? & _)]; [by left|by right].
Qed.
End Properties.

(** C34. What each end makes of a message's headers.  For a request the two
    ends agree: its reader and its writer choose the same framing from the
    same headers, chunked before content length, with the same limit, always a
    64-bit number, and [headers_indicate_body] is whether it has a body at
    all.  The reader of a response makes the same choice if it has one of the
    two headers.  For a response with neither the two ends differ: the writer
    sends no body, and the reader takes all that follows up to the end of the
    connection for one, where the comment on [from_headers] says that there is
    none. *)
Theorem framing_agrees `{Http} (headers : HeaderMap) :
  match LimitRead.from_headers headers false, LimitWrite.from_headers headers with
  | LimitRead.ChunkedDecoder d, LimitWrite.ChunkedEncoder =>
      d = ChunkedDecoder.new /\ is_chunked headers = true
  | LimitRead.ContentLength r, LimitWrite.ContentLength w =>
      r = ContentLengthRead.new (ContentLengthWrite.limit w) /\
      w = ContentLengthWrite.new (ContentLengthRead.limit r) /\
      0 <= ContentLengthRead.limit r <= u64_max /\ is_chunked headers = false /\
      get_as headers "content-length" = Some (ContentLengthRead.limit r)
  | LimitRead.NoBody, LimitWrite.NoBody =>
      is_chunked headers = false /\ get_as headers "content-length" = None
  | _, _ => False
  end /\
  LimitRead.from_headers headers true =
    (if headers_indicate_body headers then LimitRead.from_headers headers false
     else LimitRead.ReadToEnd ReadToEnd.new) /\
  (headers_indicate_body headers = false <-> LimitRead.from_headers headers false = LimitRead.NoBody).
Proof.
  unfold LimitRead.from_headers, LimitWrite.from_headers, headers_indicate_body.
  destruct (is_chunked headers) eqn:Hc; [by split_and!|].
  destruct (get_as headers "content-length") as [size|] eqn:Hs; [|by split_and!].
  pose proof (get_as_range _ _ _ Hs). simpl. by split_and!; auto; try apply H0.
Qed.

(** *** Witnesses *)

Module LimitExample.

(** A content length of 5 with a pipelined request behind the body, and the
    same bytes for a length of 50. *)
Definition conn : BufIo.t Script.t :=
  BufIo.mk (Script.mk (Script.data (bs "He") ++ Script.RPending :: Script.data (bs "lloGET /")) [] [] [] 0)
    (Vec.mk [] 16) 0 false false None false.

Lemma limit_conn_wf : BufIo.rd_wf conn.
Proof. repeat split; vm_compute; auto; discriminate. Qed.

Definition reader : LimitRead.t := LimitRead.from_headers [(bs "Content-Length", bs "5")] false.
End LimitExample.

Lemma limit_read_to_end_witness :
  wp (read_body (prof := dev) 100 100 3) (LimitExample.reader, LimitExample.conn) (fun r st =>
    match r with
    | Ready (Ok o) =>
        (o = bs "Hello" /\ LimitRead.is_complete st.1 = true /\ BufIo.incoming st.2 = bs "GET /") \/
        (o `prefix_of` bs "Hello" /\ cut_off (R := Script.t) st.1 [])
    | Ready (Err e) => raises Script.t e
    | Pending => False
    end).
Proof.
  apply (limit_read_to_end (prof := dev)).
  - exact LimitExample.limit_conn_wf.
  - split; [discriminate|]. split; [discriminate|]. split; reflexivity.
  - reflexivity.
  - reflexivity.
  - reflexivity.
  - lia.
  - apply Nat.ltb_lt. vm_compute. reflexivity.
  - reflexivity.
Defined.

Lemma content_length_truncated_witness :
  wp (ContentLengthRead.poll_read (prof := dev) 20) (ContentLengthRead.new 50, LimitExample.conn) (fun r st =>
    zlen (BufIo.incoming st.2) < ContentLengthRead.limit st.1 - ContentLengthRead.total st.1 /\
    cl_wf st.1 /\ ContentLengthRead.is_end st.1 = false /\
    match r with
    | Ready (Ok o) => o <> [] /\ BufIo.incoming LimitExample.conn = o ++ BufIo.incoming st.2
    | Ready (Err e) => raises Script.t e \/
        (BufIo.incoming LimitExample.conn = [] /\ e = io_error_new UnexpectedEof
          [Lit "Partial body received "; Num 0; Lit " bytes and expected "; Num 50])
    | Pending => True
    end).
Proof.
  apply (content_length_truncated (prof := dev) 20 (ContentLengthRead.new 50)).
  - exact LimitExample.limit_conn_wf.
  - repeat split; discriminate.
  - reflexivity.
  - reflexivity.
Defined.
