(* ===== verification/Http11.v ===== *)
(** * HTTP/1.x heads (src/http11.rs)

    Writing request and response heads, parsing them, and [poll_for_crlfcrlf],
    which looks for the end of a head in the read buffer.  The search is the
    automaton [head_step], one byte at a time; [head_end] runs it over a whole
    stream. *)

From S2P Require Import Prelude.
From S2P Require Import Async.
From S2P Require Import Std_text.
From S2P Require Import Fast_buf.
From S2P Require Import Transport.
From S2P Require Import Buf_reader.
From S2P Require Import Chunked.
From S2P Require Import Http_api.

Definition READ_BUF_INIT_SIZE : Z := 16384.

(** ** [std::io::Cursor] over a slice *)

Module Cursor.

(** The slice's length, and what has been written to its front. *)
Record t := mk { room : Z; out : bytes }.

Definition write_zero : io_error := io_error_new WriteZero [Lit "failed to write whole buffer"].

(** [write_all]: what fits is written even when it fails. *)
Definition write_all (d : bytes) (w : t) : io_result unit * t :=
  if zlen (out w) + zlen d <=? room w then (Ok tt, mk (room w) (out w ++ d))
  else (Err write_zero, mk (room w) (out w ++ ztake (room w - zlen (out w)) d)).

(** [write!] of several pieces: one [write_all] after the other. *)
Fixpoint write_fmt (pieces : list bytes) (w : t) : io_result unit * t :=
  match pieces with
  | [] => (Ok tt, w)
  | p :: rest =>
      match write_all p w with
      | (Ok _, w') => write_fmt rest w'
      | (Err e, w') => (Err e, w')
      end
  end.

(** [m?; k]. *)
Definition and_then (m : t -> io_result unit * t) (k : t -> io_result unit * t) (w : t) :
    io_result unit * t :=
  match m w with (Ok _, w') => k w' | (Err e, w') => (Err e, w') end.

Definition done (w : t) : io_result unit * t := (Ok tt, w).

(** [for x in l { body?; }] *)
Fixpoint for_each {A} (l : list A) (body : A -> t -> io_result unit * t) : t -> io_result unit * t :=
  match l with [] => done | x :: rest => and_then (body x) (for_each rest body) end.

(** [Ok(w.position())], and the slice. *)
Definition finish (r : io_result unit * t) : io_result Z * bytes :=
  match r with
  | (Ok _, w) => (Ok (zlen (out w)), out w)
  | (Err e, w) => (Err e, out w)
  end.
End Cursor.

Notation "m ;;? k" := (Cursor.and_then m k) (at level 100, k at level 200, right associativity).

(** ** Writing heads *)

Section Write.
Context `{Http}.

Definition unsupported_version : string := "Unsupported http version".

Definition version_str (v : Version) : exec bytes :=
  if version_eqb v HTTP_10 then Done (bs "1.0")
  else if version_eqb v HTTP_11 then Done (bs "1.1")
  else Panic (PAssert unsupported_version).

Definition write_headers (headers : list (HeaderName * HeaderValue)) : Cursor.t -> io_result unit * Cursor.t :=
  Cursor.for_each headers (fun '(name, value) =>
    Cursor.write_fmt [hn_as_str name; bs ": "] ;;?
    Cursor.write_all (hv_as_bytes value) ;;?
    Cursor.write_fmt [CRLF]).

(** The last header called [host], if there is one. *)
Definition find_host (headers : list (HeaderName * HeaderValue)) : option HeaderValue :=
  fold_left (fun host '(name, value) =>
    if bool_decide (hn_as_str name = bs "host") then Some value else host) headers None.

Definition default_port (uri : Uri) : Z :=
  match uri_scheme_str uri with
  | Some s => if bool_decide (s = bs "https") then 443
              else if bool_decide (s = bs "http") then 80 else 0
  | None => 0
  end.

Definition explicit_port (uri : Uri) : Z :=
  match uri_port_u16 uri with
  | Some p => if p =? default_port uri then 0 else p
  | None => 0
  end.

Definition write_host (req : Request) : Cursor.t -> io_result unit * Cursor.t :=
  match find_host (hm_iter (req_headers req)) with
  | Some _ => Cursor.done
  | None =>
      match uri_host (req_uri req) with
      | Some h =>
          Cursor.write_fmt [bs "host: "; h] ;;?
          (if negb (explicit_port (req_uri req) =? 0)
           then Cursor.write_fmt [bs ":"; fmt_dec (explicit_port (req_uri req))]
           else Cursor.done) ;;?
          Cursor.write_fmt [CRLF]
      | None => Cursor.done
      end
  end.

(** [buf] is a slice of length [n]; the result, and what its front holds. *)
Definition write_http1x_req (req : Request) (n : Z) : exec (io_result Z * bytes) :=
  let pq := default (bs "/") (uri_path_and_query (req_uri req)) in
  ver ← version_str (req_version req);
  Done (Cursor.finish ((
    Cursor.write_fmt [method_str (req_method req); bs " "; pq; bs " HTTP/"; ver; CRLF] ;;?
    write_host req ;;?
    write_headers (hm_iter (req_headers req)) ;;?
    Cursor.write_fmt [CRLF]) (Cursor.mk n []))).

Definition write_http1x_res (res : Response) (n : Z) : exec (io_result Z * bytes) :=
  ver ← version_str (res_version res);
  Done (Cursor.finish ((
    Cursor.write_fmt [bs "HTTP/"; ver; bs " "; fmt_dec (status_as_u16 (res_status res)); bs " ";
      default (bs "Unknown") (canonical_reason (res_status res)); CRLF] ;;?
    write_headers (hm_iter (res_headers res)) ;;?
    Cursor.write_fmt [CRLF]) (Cursor.mk n []))).
End Write.

(** ** Parsing heads *)

Section Parse.
Context `{Http} `{Httparse}.

Definition version_of (v : option Z) : Version :=
  match v with
  | Some v => if v =? 0 then HTTP_10 else HTTP_11
  | None => HTTP_11
  end.

Definition parse_failed (e : hp_error) : io_error := io_error_new InvalidData [Lit (hp_error_msg e)].
Definition build_failed (e : http_error) : io_error := io_error_new InvalidData [Lit (http_error_msg e)].

Definition is_partial (s : hp_status) : bool := match s with Partial => true | Complete _ => false end.

(** The headers that are kept: bad names and values are dropped. *)
Definition header_of (head : bytes * bytes) : option (HeaderName * HeaderValue) :=
  match hn_from_bytes head.1, hv_from_bytes head.2 with
  | Some name, Some value => Some (name, value)
  | _, _ => None
  end.

Definition try_parse_res (buf : bytes) (end_of_stream : bool) : io_result (option Response) :=
  match parse_response 128 buf with
  | Err e => Err (parse_failed e)
  | Ok (status, parser) =>
      if is_partial status && negb end_of_stream then Ok None
      else
        let bld := resb_version (version_of (raw_res_version parser)) res_builder in
        let bld := match raw_code parser with Some code => resb_status code bld | None => bld end in
        let bld := fold_left (fun bld head =>
          if bool_decide (head.1 = []) && end_of_stream then bld
          else match header_of head with
               | Some (name, value) => resb_header name value bld
               | None => bld
               end) (raw_res_headers parser) bld in
        match resb_body bld with
        | Ok built => Ok (Some built)
        | Err e => Err (build_failed e)
        end
  end.

Definition try_parse_req (buf : bytes) (_ : bool) : io_result (option Request) :=
  match parse_request 128 buf with
  | Err e => Err (parse_failed e)
  | Ok (status, parser) =>
      if is_partial status then Ok None
      else
        let bld := reqb_version
          (if bool_decide (raw_req_version parser = Some 1) then HTTP_11 else HTTP_10) req_builder in
        match uri_build (raw_path parser) with
        | Err e => Err (build_failed e)
        | Ok uri =>
            let bld := reqb_uri uri bld in
            let bld := match raw_method parser with Some m => reqb_method m bld | None => bld end in
            let bld := fold_left (fun bld head =>
              match header_of head with
              | Some (name, value) => reqb_header name value bld
              | None => bld
              end) (raw_req_headers parser) bld in
            match reqb_body bld with
            | Ok built => Ok (Some built)
            | Err e => Err (build_failed e)
            end
        end
  end.
End Parse.

(** ** Finding the end of a head *)

Definition END_OF_HEADER : bytes := CRLF ++ CRLF.

(** [end_index] after the byte [c]. *)
Definition head_step (end_index : Z) (c : byte) : Z :=
  if bool_decide (END_OF_HEADER !! Z.to_nat end_index = Some c) then end_index + 1
  else if (end_index =? 0) && Byte.eqb c LF then 3
  else if 0 <? end_index then 0
  else end_index.

Definition no_head_length : io_error := io_error_new UnexpectedEof [Lit "EOF and no header length"].
Definition no_header_found : io_error :=
  io_error_new InvalidData [Lit "No header found in "; Num READ_BUF_INIT_SIZE; Lit " bytes"].

Inductive scanned :=
  | Found (buf_index : Z)
  | Failed (e : io_error)
  | NeedMore (end_index buf_index : Z).

(** The inner loop; [rest] is [buf[buf_index..]]. *)
Fixpoint scan (end_of_stream : bool) (end_index buf_index : Z) (rest : bytes) : scanned :=
  if (end_index =? zlen END_OF_HEADER) || (end_of_stream && (0 <? buf_index)) then Found buf_index
  else if end_of_stream && (buf_index =? 0) then Failed no_head_length
  else if buf_index =? READ_BUF_INIT_SIZE then Failed no_header_found
  else match rest with
       | [] => NeedMore end_index buf_index
       | c :: rest' => scan end_of_stream (head_step end_index c) (buf_index + 1) rest'
       end.

Section Poll.
Context {prof : Profile} {R : Type} `{AsyncRead R, AsyncWrite R}.

(** [Pin::new(&mut *io).consume(amount)] *)
Definition io_consume (amount : Z) : io (BufIo.t R) unit := fun b =>
  b' ← BufIo.consume amount b; Done (Ready (Ok tt), b').

(** One turn of the outer loop; its variables are [end_index], [buf_index]
    and [force_append]. *)
Definition crlfcrlf_turn {T} (f : bytes -> bool -> T) (v : Z * Z * bool) :
    io (BufIo.t R) ((Z * Z * bool) + T) :=
  let '(end_index, buf_index, force_append) := v in
  buf ← BufIo.poll_fill_buf force_append;
  let end_of_stream := zlen buf =? buf_index in
  match scan end_of_stream end_index buf_index (zdrop buf_index buf) with
  | Found i =>
      let ret := f (ztake i buf) end_of_stream in
      io_consume i;;
      mret (inr ret)
  | Failed e => io_err e
  | NeedMore end_index buf_index => mret (inl (end_index, buf_index, true))
  end.

Definition poll_for_crlfcrlf {T} (fuel : nat) (f : bytes -> bool -> T) : io (BufIo.t R) T :=
  iter fuel (crlfcrlf_turn f) (0, 0, false).
End Poll.

(** ** The search is the automaton *)

Section Scan.

(** Where the head that starts [s] ends, [end_index] and [buf_index] bytes
    in. *)
Fixpoint head_end_from (end_index buf_index : Z) (s : bytes) : option Z :=
  if end_index =? 4 then Some buf_index
  else match s with
       | [] => None
       | c :: s' => head_end_from (head_step end_index c) (buf_index + 1) s'
       end.

Definition head_end (s : bytes) : option Z := head_end_from 0 0 s.

Lemma head_end_from_range ei bi s i : head_end_from ei bi s = Some i -> bi <= i <= bi + zlen s.
Proof.
  revert ei bi. induction s as [|c s IH]; intros ei bi; simpl.
  - change (zlen (@nil byte)) with 0. case_match; [|done]. intros [= ->]. lia.
  - rewrite zlen_cons. pose proof (zlen_nonneg s). case_match; [intros [= ->]; lia|].
    intros Hi%IH. lia.
Qed.

Lemma scan_more ei bi s : 0 <= bi <= READ_BUF_INIT_SIZE ->
  match scan false ei bi s with
  | Found i => i <= READ_BUF_INIT_SIZE /\ forall t, head_end_from ei bi (s ++ t) = Some i
  | Failed e => e = no_header_found /\
      READ_BUF_INIT_SIZE <= bi + zlen s /\
      forall t i, head_end_from ei bi (s ++ t) = Some i -> READ_BUF_INIT_SIZE < i
  | NeedMore ei' bi' => bi' = bi + zlen s /\ bi' < READ_BUF_INIT_SIZE /\ ei' <> 4 /\
      forall t, head_end_from ei bi (s ++ t) = head_end_from ei' bi' t
  end.
Proof.
  revert ei bi. induction s as [|c s IH]; intros ei bi Hbi; simpl.
  - change (zlen (@nil byte)) with 0. change (zlen END_OF_HEADER) with 4.
    destruct (Z.eqb_spec ei 4) as [->|He]; simpl.
    { split; [lia|]. by intros []. }
    destruct (Z.eqb_spec bi READ_BUF_INIT_SIZE) as [->|Hb].
    { split; [done|]. split; [lia|]. intros t i.
      destruct t as [|c t]; simpl; rewrite (proj2 (Z.eqb_neq ei 4)) by done; [done|].
      intros Hi%head_end_from_range. lia. }
    split; [lia|]. split; [lia|]. by split.
  - change (zlen END_OF_HEADER) with 4. destruct (Z.eqb_spec ei 4) as [->|He]; simpl.
    { split; [lia|done]. }
    rewrite zlen_cons. pose proof (zlen_nonneg s).
    destruct (Z.eqb_spec bi READ_BUF_INIT_SIZE) as [->|Hb].
    { split; [done|]. split; [lia|]. intros t i Hi%head_end_from_range. lia. }
    specialize (IH (head_step ei c) (bi + 1) ltac:(lia)).
    destruct (scan false (head_step ei c) (bi + 1) s); [done| |].
    + destruct IH as (? & ? & ?). split_and!; auto. lia.
    + destruct IH as (? & ? & ? & ?). split_and!; auto. lia.
Qed.

(** Every head that is found ends in an empty line. *)
Lemma head_step_suffix ei c p : 0 <= ei <= 3 ->
  (ei = 1 -> [CR] `suffix_of` p) -> (ei = 2 -> CRLF `suffix_of` p) ->
  (ei = 3 -> [CR; LF; CR] `suffix_of` p \/ [LF] `suffix_of` p) ->
  let ei' := head_step ei c in
  0 <= ei' <= 4 /\ (ei' = 1 -> [CR] `suffix_of` p ++ [c]) /\ (ei' = 2 -> CRLF `suffix_of` p ++ [c]) /\
  (ei' = 3 -> [CR; LF; CR] `suffix_of` p ++ [c] \/ [LF] `suffix_of` p ++ [c]) /\
  (ei' = 4 -> END_OF_HEADER `suffix_of` p ++ [c] \/ [LF; LF] `suffix_of` p ++ [c]).
Proof.
  intros He H1 H2 H3. cbv zeta.
  assert (Hs : forall x y, x `suffix_of` p -> x ++ [c] = y -> y `suffix_of` p ++ [c])
    by (intros x y [k ->] <-; exists k; by rewrite app_assoc).
  assert (He' : ei = 0 \/ ei = 1 \/ ei = 2 \/ ei = 3) by lia.
  assert (Hc : [c] `suffix_of` p ++ [c]) by by exists p.
  unfold head_step. case_bool_decide as Hm.
  - destruct He' as [-> | [-> | [-> | ->]]]; simpl in Hm; injection Hm as <-; simpl;
      (split; [lia|]); split_and!; intros; try lia; eauto.
    destruct (H3 eq_refl); eauto.
  - destruct (Byte.eqb c LF) eqn:Hlf.
    + destruct (byte_eqb_spec c LF) as [->|]; [|done].
      destruct He' as [-> | [-> | [-> | ->]]]; simpl; (split; [lia|]); split_and!; intros; try lia; eauto.
    + destruct He' as [-> | [-> | [-> | ->]]]; simpl; (split; [lia|]); split_and!; intros; try lia; eauto.
Qed.
End Scan.

(** ** Heads as the library writes them *)

Section Lines.

Definition plain_byte (c : byte) : Prop := c <> CR /\ c <> LF.

(** Lines as they may appear in a head: not empty, no line break inside. *)
Definition plain_line (l : bytes) : Prop := l <> [] /\ Forall plain_byte l.

Definition head_of (lines : list bytes) : bytes := (lines ≫= fun l => l ++ CRLF) ++ CRLF.

Lemma head_step_plain ei c : 0 <= ei <= 3 -> plain_byte c -> head_step ei c = 0.
Proof.
  intros He [Hcr Hlf]. unfold head_step. rewrite (byte_eqb_ne c LF) by done.
  assert (He' : ei = 0 \/ ei = 1 \/ ei = 2 \/ ei = 3) by lia.
  case_bool_decide as Hm; [|by destruct He' as [-> | [-> | [-> | ->]]]].
  destruct He' as [-> | [-> | [-> | ->]]]; simpl in Hm; by injection Hm as <-.
Qed.

Lemma head_end_plain ei bi l s : 0 <= ei <= 3 -> plain_line l ->
  head_end_from ei bi (l ++ s) = head_end_from 0 (bi + zlen l) s.
Proof.
  intros He [Hne Hl]. revert ei bi He. induction Hl as [|c l Hc Hl IH]; intros ei bi He; [done|].
  simpl. rewrite (proj2 (Z.eqb_neq ei 4)) by lia. rewrite head_step_plain by done.
  rewrite zlen_cons. destruct l as [|c' l].
  - change (zlen (@nil byte)) with 0. by rewrite Z.add_0_r.
  - rewrite IH by (done || lia). f_equal. lia.
Qed.

Lemma head_end_lines ei bi lines s : ei = 2 \/ (ei = 0 /\ lines <> []) -> Forall plain_line lines ->
  head_end_from ei bi (head_of lines ++ s) = Some (bi + zlen (head_of lines)).
Proof.
  intros He Hall. unfold head_of. revert ei bi He.
  induction Hall as [|l lines Hl Hall IH]; intros ei bi He.
  - destruct He as [->|[_ ?]]; [|done]. destruct s; simpl; f_equal;
      change (zlen CRLF) with 2; lia.
  - rewrite bind_cons, <- !app_assoc.
    rewrite head_end_plain by (done || lia).
    assert (Hstep : forall k t, head_end_from 0 k (CRLF ++ t) = head_end_from 2 (k + 1 + 1) t) by done.
    rewrite Hstep, (app_assoc _ CRLF s), IH by auto. f_equal.
    rewrite !zlen_app. change (zlen CRLF) with 2. lia.
Qed.

(** A head is found exactly where it ends. *)
Lemma head_end_head_of lines s : lines <> [] -> Forall plain_line lines ->
  head_end (head_of lines ++ s) = Some (zlen (head_of lines)).
Proof. intros. unfold head_end. rewrite head_end_lines by auto. f_equal. Qed.
End Lines.

(** ** What the writers put out *)

Section Emits.

(** [m] writes [d]; without the room for it, it fails with [WriteZero]. *)
Definition emits (m : Cursor.t -> io_result unit * Cursor.t) (d : bytes) : Prop :=
  forall w, zlen (Cursor.out w) <= Cursor.room w ->
    if zlen (Cursor.out w) + zlen d <=? Cursor.room w
    then m w = (Ok tt, Cursor.mk (Cursor.room w) (Cursor.out w ++ d))
    else exists w', m w = (Err Cursor.write_zero, w') /\ zlen (Cursor.out w') <= Cursor.room w.

Lemma emits_done : emits Cursor.done [].
Proof.
  intros [n o] Hw. simpl in *. change (zlen (@nil byte)) with 0.
  rewrite (proj2 (Z.leb_le _ _)) by lia. by rewrite app_nil_r.
Qed.

Lemma emits_write_all d : emits (Cursor.write_all d) d.
Proof.
  intros [n o] Hw. unfold Cursor.write_all. simpl in *. case_match; [done|].
  eexists. split; [done|]. simpl. rewrite zlen_app, zlen_ztake by lia. lia.
Qed.

Lemma emits_and_then m k d e : emits m d -> emits k e -> emits (m ;;? k) (d ++ e).
Proof.
  intros Hm Hk [n o] Hw. unfold Cursor.and_then. specialize (Hm _ Hw). simpl in *.
  rewrite zlen_app. pose proof (zlen_nonneg d). pose proof (zlen_nonneg e).
  destruct (Z.leb_spec (zlen o + zlen d) n) as [Hle|Hgt].
  - rewrite Hm. specialize (Hk (Cursor.mk n (o ++ d))). simpl in Hk. rewrite zlen_app in Hk.
    specialize (Hk Hle). rewrite Z.add_assoc. case_match; [by rewrite Hk, app_assoc|done].
  - destruct Hm as (w' & -> & ?). rewrite (proj2 (Z.leb_gt _ _)) by lia. by exists w'.
Qed.

Lemma emits_write_fmt pieces : emits (Cursor.write_fmt pieces) (concat pieces).
Proof.
  induction pieces as [|p pieces IH]; [exact emits_done|].
  exact (emits_and_then (Cursor.write_all p) (Cursor.write_fmt pieces) p (concat pieces)
    (emits_write_all p) IH).
Qed.

Lemma emits_for_each {A} (l : list A) body (d : A -> bytes) :
  (forall x, emits (body x) (d x)) -> emits (Cursor.for_each l body) (l ≫= d).
Proof. intros Hb. induction l as [|x l IH]; [exact emits_done|]. by apply emits_and_then. Qed.

(** What [Cursor.finish] makes of a writer that starts on an empty slice. *)
Lemma emits_finish m d n : emits m d -> 0 <= n ->
  if zlen d <=? n then Cursor.finish (m (Cursor.mk n [])) = (Ok (zlen d), d)
  else exists o, Cursor.finish (m (Cursor.mk n [])) = (Err Cursor.write_zero, o) /\ zlen o <= n.
Proof.
  intros Hm Hn. specialize (Hm (Cursor.mk n [])). simpl in Hm. change (zlen (@nil byte)) with 0 in Hm.
  specialize (Hm Hn). rewrite Z.add_0_l in Hm. case_match; [by rewrite Hm|].
  destruct Hm as (w & -> & ?). by exists (Cursor.out w).
Qed.

Lemma emits_eq m d e : emits m d -> d = e -> emits m e.
Proof. by intros ? <-. Qed.
End Emits.

Ltac emits_tac := eapply emits_eq;
  [repeat lazymatch goal with
   | |- emits (Cursor.and_then _ _) _ => apply emits_and_then
   | |- emits (Cursor.write_fmt _) _ => apply emits_write_fmt
   | |- emits (Cursor.write_all _) _ => apply emits_write_all
   | |- emits Cursor.done _ => apply emits_done
   | |- emits (if ?c then _ else _) _ => destruct c
   | |- emits _ _ => eassumption
   end | cbn [concat]; rewrite ?bind_cons, ?app_nil_r, <- ?app_assoc; try reflexivity].

Section Render.
Context `{Http}.

Definition header_line (h : HeaderName * HeaderValue) : bytes :=
  hn_as_str h.1 ++ bs ": " ++ hv_as_bytes h.2.

Definition host_line (req : Request) : list bytes :=
  match find_host (hm_iter (req_headers req)), uri_host (req_uri req) with
  | None, Some h => [bs "host: " ++ h ++
      if explicit_port (req_uri req) =? 0 then [] else bs ":" ++ fmt_dec (explicit_port (req_uri req))]
  | _, _ => []
  end.

Definition request_lines (req : Request) (ver : bytes) : list bytes :=
  (method_str (req_method req) ++ bs " " ++ default (bs "/") (uri_path_and_query (req_uri req)) ++
   bs " HTTP/" ++ ver) :: host_line req ++ (header_line <$> hm_iter (req_headers req)).

Definition response_lines (res : Response) (ver : bytes) : list bytes :=
  (bs "HTTP/" ++ ver ++ bs " " ++ fmt_dec (status_as_u16 (res_status res)) ++ bs " " ++
   default (bs "Unknown") (canonical_reason (res_status res))) ::
  (header_line <$> hm_iter (res_headers res)).

Lemma write_headers_emits headers :
  emits (write_headers headers) ((header_line <$> headers) ≫= fun l => l ++ CRLF).
Proof.
  eapply emits_eq; [apply (emits_for_each _ _ (fun h => header_line h ++ CRLF))|].
  - intros [name value]. emits_tac. unfold header_line. simpl. by rewrite <- !app_assoc.
  - induction headers as [|h headers IH]; [done|]. cbn. by rewrite IH.
Qed.

Lemma write_host_emits req : emits (write_host req) (host_line req ≫= fun l => l ++ CRLF).
Proof.
  unfold write_host, host_line. destruct (find_host _); [apply emits_done|].
  destruct (uri_host _) as [h|]; [|apply emits_done].
  destruct (explicit_port _ =? 0); cbn [negb]; emits_tac.
Qed.

(** The writers render the lines of the head, or fail for want of room. *)
Lemma write_http1x_req_ok req ver n : version_str (req_version req) = Done ver -> 0 <= n ->
  let head := head_of (request_lines req ver) in
  exists r, write_http1x_req req n = Done r /\
    if zlen head <=? n then r = (Ok (zlen head), head)
    else r.1 = Err Cursor.write_zero /\ zlen r.2 <= n.
Proof.
  intros Hv Hn head. unfold write_http1x_req. rewrite Hv. cbn [mbind exec_bind]. eexists. split; [done|].
  match goal with |- context [Cursor.finish (?m _)] => assert (Hm : emits m head) end.
  - pose proof (write_headers_emits (hm_iter (req_headers req))). pose proof (write_host_emits req).
    emits_tac. unfold head, head_of, request_lines. rewrite bind_cons, bind_app. cbn [concat].
    rewrite ?app_nil_r, <- !app_assoc. done.
  - apply (emits_finish _ _ n) in Hm; [|done]. case_match; [done|]. by destruct Hm as (o & -> & ?).
Qed.

Lemma write_http1x_res_ok res ver n : version_str (res_version res) = Done ver -> 0 <= n ->
  let head := head_of (response_lines res ver) in
  exists r, write_http1x_res res n = Done r /\
    if zlen head <=? n then r = (Ok (zlen head), head)
    else r.1 = Err Cursor.write_zero /\ zlen r.2 <= n.
Proof.
  intros Hv Hn head. unfold write_http1x_res. rewrite Hv. cbn [mbind exec_bind]. eexists. split; [done|].
  match goal with |- context [Cursor.finish (?m _)] => assert (Hm : emits m head) end.
  - pose proof (write_headers_emits (hm_iter (res_headers res))). emits_tac. unfold head, head_of, response_lines. rewrite bind_cons. cbn [concat].
    rewrite ?app_nil_r, <- !app_assoc. done.
  - apply (emits_finish _ _ n) in Hm; [|done]. case_match; [done|]. by destruct Hm as (o & -> & ?).
Qed.
End Render.

(** ** [poll_for_crlfcrlf] *)

Section PollLemmas.
Context {prof : Profile} {R : Type} `{ReadSpec R} `{!AsyncWrite R} {T : Type}.
Implicit Types (b : BufIo.t R) (f : bytes -> bool -> T).

(** What a call promises: the head [f] is shown is taken off the connection,
    nothing else is. *)
Definition took_head f b (r : poll (io_result T)) b' : Prop :=
  match r with
  | Ready (Ok ret) => exists head, BufIo.incoming b = head ++ BufIo.incoming b' /\
      ((head_end (BufIo.incoming b) = Some (zlen head) /\ zlen head <= READ_BUF_INIT_SIZE /\
        ret = f head false) \/
       (BufIo.incoming b' = [] /\ head <> [] /\ head_end head = None /\ ret = f head true))
  | Ready (Err e) => BufIo.incoming b' = BufIo.incoming b /\
      (raises R e \/
       (e = no_header_found /\ READ_BUF_INIT_SIZE <= zlen (BufIo.incoming b) /\
        forall i, head_end (BufIo.incoming b) = Some i -> READ_BUF_INIT_SIZE < i) \/
       (e = no_head_length /\ BufIo.incoming b = []))
  | Pending => BufIo.incoming b' = BufIo.incoming b /\ BufIo.pending_rx b' = true
  end.

Definition rd_step b (r : poll (io_result T)) b' : Prop :=
  BufIo.rd_wf b' /\ BufIo.tx_fields b' = BufIo.tx_fields b /\ BufIo.span b' <= BufIo.span b /\
  match r with Ready (Ok _) => BufIo.calm b b' | _ => BufIo.stalled b b' \/ BufIo.calm b b' end.

(** The outer loop's invariant. *)
Definition searching b (v : Z * Z * bool) b1 : Prop :=
  let '(ei, bi, force) := v in
  BufIo.rd_wf b1 /\ BufIo.tx_fields b1 = BufIo.tx_fields b /\ BufIo.incoming b1 = BufIo.incoming b /\
  BufIo.pos b1 = BufIo.pos b /\ BufIo.calm b b1 /\ BufIo.span b1 <= BufIo.span b /\
  if force then
    bi = zlen (BufIo.buffered b1) /\ 0 <= bi < READ_BUF_INIT_SIZE /\ ei <> 4 /\
    forall t, head_end (BufIo.buffered b1 ++ t) = head_end_from ei bi t
  else v = (0, 0, false) /\ BufIo.buffered b1 = BufIo.buffered b.

Lemma io_consume_wp n b (Q : poll (io_result unit) -> BufIo.t R -> Prop) : BufIo.rd_wf b ->
  0 <= n <= zlen (BufIo.buffered b) ->
  (forall b', BufIo.rd_wf b' -> BufIo.tx_fields b' = BufIo.tx_fields b ->
     BufIo.inner b' = BufIo.inner b -> BufIo.span b' <= BufIo.span b ->
     BufIo.incoming b = ztake n (BufIo.buffered b) ++ BufIo.incoming b' -> Q (Ready (Ok tt)) b') ->
  wp (io_consume n) b Q.
Proof.
  intros Hb Hn HQ. destruct (BufIo.consume_ok n b Hb Hn) as (b' & E & ? & ? & ? & _ & ? & _ & ?).
  unfold wp, io_consume. rewrite E. simpl. by apply HQ.
Qed.

(** A turn that starts the scan at [buf_index] of the bytes [v] it has. *)
Lemma after_fill_wp f b b1 ei bi (Q : poll (io_result ((Z * Z * bool) + T)) -> BufIo.t R -> Prop) :
  let v := BufIo.buffered b1 in
  BufIo.rd_wf b1 -> BufIo.tx_fields b1 = BufIo.tx_fields b -> BufIo.incoming b1 = BufIo.incoming b ->
  BufIo.calm b b1 -> BufIo.span b1 <= BufIo.span b -> 0 <= bi < READ_BUF_INIT_SIZE -> bi <= zlen v -> ei <> 4 ->
  (forall t, head_end (ztake bi v ++ t) = head_end_from ei bi t) ->
  (bi = zlen v -> r_stream (BufIo.inner b1) = []) ->
  (forall e, e = no_header_found \/ e = no_head_length ->
     rd_step b (Ready (Err e)) b1 -> took_head f b (Ready (Err e)) b1 -> Q (Ready (Err e)) b1) ->
  (forall ret b2, rd_step b (Ready (Ok ret)) b2 -> took_head f b (Ready (Ok ret)) b2 ->
     Q (Ready (Ok (inr ret))) b2) ->
  (forall ei', bi < zlen v -> zlen v < READ_BUF_INIT_SIZE -> ei' <> 4 ->
     (forall t, head_end (v ++ t) = head_end_from ei' (zlen v) t) ->
     Q (Ready (Ok (inl (ei', zlen v, true)))) b1) ->
  wp (match scan (zlen v =? bi) ei bi (zdrop bi v) with
      | Found i => io_consume i;; mret (inr (f (ztake i v) (zlen v =? bi)))
      | Failed e => io_err e
      | NeedMore ei bi => mret (inl (ei, bi, true))
      end) b1 Q.
Proof.
  intros v Hb1 Htx Hin Hcalm Hspan Hbi Hle Hei Hscan Heos Qerr Qfound Qmore.
  assert (Hv : BufIo.incoming b = v ++ r_stream (BufIo.inner b1)) by by rewrite <- Hin.
  destruct (Z.eqb_spec (zlen v) bi) as [Heq|Hne].
  - subst bi. specialize (Heos eq_refl). rewrite Heos, app_nil_r in Hv.
    rewrite zdrop_all by lia. cbn [scan]. change (zlen END_OF_HEADER) with 4.
    rewrite (proj2 (Z.eqb_neq ei 4)) by done. cbn [orb andb].
    destruct (Z.ltb_spec 0 (zlen v)) as [Hpos|Hz].
    + rewrite ztake_all by lia. wp_steps. apply io_consume_wp; [done|fold v; lia|].
      intros b2 Hb2 Ht2 Hi2 Hsp2 Hinc. fold v in Hinc. rewrite ztake_all, Hin, Hv in Hinc by lia. wp_steps.
      apply Qfound; [split_and!; [done|congruence|lia|]|].
      * intros E. rewrite Hi2. by apply Hcalm.
      * exists v. split; [congruence|]. right.
        assert (BufIo.incoming b2 = []).
        { rewrite <- (app_nil_r v) in Hinc at 1. by apply app_inv_head in Hinc. }
        split_and!; [done|rewrite <- zlen_zero; lia| |done].
        rewrite <- (app_nil_r v) at 1. specialize (Hscan []). rewrite ztake_all in Hscan by lia.
        rewrite Hscan. simpl. by rewrite (proj2 (Z.eqb_neq ei 4)).
    + pose proof (zlen_nonneg v). rewrite (proj2 (Z.eqb_eq (zlen v) 0)) by lia. wp_steps.
      apply Qerr; [auto|split_and!; auto|]. split; [done|]. right. right. split; [done|].
      rewrite Hv. apply zlen_zero. lia.
  - assert (Hdrop : zlen (zdrop bi v) = zlen v - bi) by (apply zlen_zdrop; lia).
    pose proof (scan_more ei bi (zdrop bi v) ltac:(lia)) as Hs.
    assert (Hrun : forall t, head_end (v ++ t) = head_end_from ei bi (zdrop bi v ++ t)).
    { intros t. rewrite <- Hscan. f_equal. rewrite app_assoc, ztake_zdrop. done. }
    destruct (scan false ei bi (zdrop bi v)) as [i|e|ei' bi'].
    + destruct Hs as [Hi Hs]. specialize (Hrun []) as H1. rewrite Hs, app_nil_r in H1.
      assert (Hrange : 0 <= i <= zlen v) by (apply head_end_from_range in H1; lia).
      wp_steps. apply io_consume_wp; [done|fold v; lia|]. intros b2 Hb2 Ht2 Hi2 Hsp2 Hinc. wp_steps.
      fold v in Hinc. rewrite Hin in Hinc. assert (Hti : zlen (ztake i v) = i) by (rewrite zlen_ztake_le; lia).
      apply Qfound; [split_and!; [done|congruence|lia|intros E; rewrite Hi2; by apply Hcalm]|].
      exists (ztake i v). split; [done|]. left. rewrite Hti. split_and!; auto.
      rewrite Hv, Hrun. apply Hs.
    + destruct Hs as (-> & Hlen & Hs). wp_steps. apply Qerr; [auto|split_and!; auto|]. split; [done|].
      right. left. split; [done|]. rewrite Hv, zlen_app. pose proof (zlen_nonneg (r_stream (BufIo.inner b1))).
      split; [lia|]. intros i. rewrite Hrun. apply Hs.
    + destruct Hs as (-> & Hlt & Hei' & Hs). wp_steps.
      replace (bi + zlen (zdrop bi v)) with (zlen v) in * by lia. apply Qmore; auto; [lia|].
      intros t. by rewrite Hrun, Hs.
Qed.

Lemma took_head_same f b b1 (r : poll (io_result T)) :
  BufIo.incoming b1 = BufIo.incoming b ->
  match r with
  | Ready (Err e) => raises R e
  | Pending => BufIo.pending_rx b1 = true
  | Ready (Ok _) => False
  end -> took_head f b r b1.
Proof. intros Hin. destruct r as [|[|e]]; simpl; auto. done. Qed.

(** The fuel each turn uses up: bytes still to be read, and the first turn. *)
Definition head_fuel (v : Z * Z * bool) b : nat :=
  length (r_stream (BufIo.inner b)) + (if v.2 then 0 else 1).

(** A fill that leaves nothing behind [j], where the search stands, has
    reached the end of the stream. *)
Lemma fill_adds_nothing (force : bool) j b1 b2 (d : bytes) : BufIo.rd_wf b1 ->
  zlen (BufIo.buffered b2) = zlen (BufIo.buffered b1) + zlen d ->
  r_stream (BufIo.inner b1) = d ++ r_stream (BufIo.inner b2) ->
  (force = true \/ BufIo.contents b1 = [] -> d = [] -> r_stream (BufIo.inner b1) = []) ->
  j = zlen (BufIo.buffered b2) -> (if force then j = zlen (BufIo.buffered b1) else j = 0) ->
  r_stream (BufIo.inner b2) = [].
Proof.
  intros Hb1 Hlen Hs Hd Hj Hf. pose proof (BufIo.buffered_len b1 Hb1). destruct Hb1 as (_ & _ & ? & ?).
  pose proof (zlen_nonneg d). pose proof (zlen_nonneg (BufIo.buffered b1)).
  assert (d = []) as -> by (apply zlen_zero; destruct force; lia). rewrite Hs in Hd. apply Hd; [|done].
  destruct force; [by left|right]. apply zlen_zero. lia.
Qed.

Lemma crlfcrlf_turn_wp f b v b1 :
  BufIo.pos b + READ_BUF_INIT_SIZE <= MAX_CAPACITY -> searching b v b1 ->
  wp (crlfcrlf_turn f v) b1 (early (fun r b2 => rd_step b r b2 /\ took_head f b r b2)
    (fun c b2 => match c with
     | inl v' => searching b v' b2 /\ (head_fuel v' b2 < head_fuel v b1)%nat
     | inr ret => rd_step b (Ready (Ok ret)) b2 /\ took_head f b (Ready (Ok ret)) b2
     end)).
Proof.
  intros Hroom. destruct v as [[ei bi] force]. intros (Hb1 & Htx & Hin & Hpos & Hcalm & Hspan & Hv).
  unfold crlfcrlf_turn. apply wp_bind. eapply wp_mono.
  { apply BufIo.poll_fill_buf_wp; [done|]. intros ->. destruct Hv as (Hbi & Hlt & _).
    pose proof (BufIo.buffered_len b1 Hb1). pose proof Hb1 as ([Hw Hh] & _).
    pose proof (FastBuf.len_ok _ _ (conj Hw Hh)). unfold Vec.wf, FastBuf.len, FastBuf.capacity in *. lia. }
  intros r b2 (Hb2 & Htx2 & Hpos2 & Hr).
  assert (Hcalm2 : BufIo.calm b1 b2 -> BufIo.calm b b2)
    by (intros Hc E; specialize (Hc E); specialize (Hcalm E); lia).
  assert (Hspan2 : BufIo.span b2 <= BufIo.span b).
  { transitivity (BufIo.span b1); [|done]. rewrite !BufIo.span_eq by done. rewrite Hpos2.
    assert (BufIo.incoming b2 = BufIo.incoming b1) as -> by (destruct r as [|[|]]; simpl in Hr; tauto). done. }
  destruct r as [|[v|e]]; cbn [early].
  - destruct Hr as (Hi & _ & Hp & Hst).
    assert (BufIo.calm b b2) by (apply Hcalm2; intros E; specialize (Hst E); lia).
    split; [split_and!; auto; congruence|]. apply took_head_same; [congruence|done].
  - destruct Hr as (-> & Hi & d & Hbuf & Hs & Hd & Hc).
    assert (Hlen : zlen (BufIo.buffered b2) = zlen (BufIo.buffered b1) + zlen d) by (rewrite Hbuf; zlia).
    assert (Hstream : length (r_stream (BufIo.inner b1)) =
                      (length d + length (r_stream (BufIo.inner b2)))%nat) by by rewrite Hs, length_app.
    pose proof (fun j => fill_adds_nothing force j b1 b2 d Hb1 Hlen Hs Hd) as Hnil.
    apply (after_fill_wp f b b2 ei bi); auto; try congruence.
    + destruct force; [apply Hv|]. destruct Hv as [[= -> ->] _]. unfold READ_BUF_INIT_SIZE. lia.
    + destruct force; [destruct Hv as (-> & _); zlia|]. destruct Hv as [[= -> ->] _]. zlia.
    + destruct force; [apply Hv|]. by destruct Hv as [[= -> ->] _].
    + destruct force; [|by destruct Hv as [[= -> ->] _]]. destruct Hv as (-> & _ & _ & Hv).
      intros t. by rewrite Hbuf, ztake_app_length.
    + intros Hj. apply (Hnil bi Hj). destruct force; [apply Hv|]. by destruct Hv as [[= -> ->] _].
    + intros e _ Hst Htook. by split.
    + intros ret b3 Hst Htook. by split.
    + intros ei' Hlt Hmax Hei' Hrun. split.
      * do 6 (split; [first [done | congruence | by apply Hcalm2]|]).
        split; [done|]. split; [zlia|]. by split.
      * unfold head_fuel. cbn [snd]. destruct force; [|lia]. destruct Hv as (-> & _).
        unfold zlen in *. lia.
  - destruct Hr as (Hi & _ & Hra & Hst).
    assert (BufIo.calm b b2) by (apply Hcalm2; intros E; specialize (Hst E); lia).
    split; [split_and!; auto; congruence|]. apply took_head_same; [congruence|done].
Qed.

Lemma poll_for_crlfcrlf_wp fuel f b : BufIo.rd_wf b ->
  BufIo.pos b + READ_BUF_INIT_SIZE <= MAX_CAPACITY ->
  zlen (BufIo.incoming b) + 1 < Z.of_nat fuel ->
  wp (poll_for_crlfcrlf fuel f) b (fun r b' => rd_step b r b' /\ took_head f b r b').
Proof.
  intros Hb Hroom Hfuel. unfold poll_for_crlfcrlf.
  apply (wp_iter (searching b) head_fuel).
  - intros v b1 Hv. eapply wp_mono; [by apply crlfcrlf_turn_wp|].
    intros r b2. destruct r as [|[c|e]]; cbn [early]; auto.
  - split_and!; auto; [by intros _ | lia].
  - unfold head_fuel, BufIo.incoming in *. rewrite zlen_app in Hfuel. cbn [snd].
    pose proof (zlen_nonneg (BufIo.buffered b)). unfold zlen in *. lia.
Qed.
End PollLemmas.

(** The search only reads. *)
Section HeadFrame.
Context {prof : Profile} {R : Type} `{DuplexSpec R} {T : Type}.

Lemma io_consume_tx n : keeps BufIo.tx_same (io_consume (R := R) n).
Proof.
  intros b r b'. unfold io_consume, BufIo.consume.
  destruct (uadd _ _) as [p|p|]; simpl; try done. destruct (assert_ _ _); simpl; try done.
  destruct (p =? _); by intros [= <- <-].
Qed.

Lemma io_consume_yields n : yields BufIo.lasts (BufIo.held BufIo.pending_rx) (io_consume (R := R) n).
Proof.
  apply yields_ready; [intros b r b'|intros b b']; unfold io_consume, BufIo.consume;
    (destruct (uadd _ _) as [p|p|]; simpl; try done); (destruct (assert_ _ _); simpl; try done).
  intros [= _ <-] _. by destruct (p =? _).
Qed.

Lemma poll_for_crlfcrlf_yields fuel (f : bytes -> bool -> T) :
  yields BufIo.lasts (BufIo.held BufIo.pending_rx) (poll_for_crlfcrlf (R := R) fuel f).
Proof. pose proof io_consume_yields. unfold poll_for_crlfcrlf, crlfcrlf_turn. yields_tac. Qed.

Lemma poll_for_crlfcrlf_tx fuel (f : bytes -> bool -> T) :
  keeps BufIo.tx_same (poll_for_crlfcrlf (R := R) fuel f).
Proof.
  pose proof io_consume_tx. unfold poll_for_crlfcrlf, crlfcrlf_turn. keeps_tac.
Qed.
End HeadFrame.

#[export] Hint Resolve poll_for_crlfcrlf_tx : keeps.

(** ** Properties *)

(** Whatever ends a search with success ends in an empty line. *)
Lemma head_end_from_suffix ei p s i : 0 <= ei <= 4 ->
  (ei = 1 -> [CR] `suffix_of` p) -> (ei = 2 -> CRLF `suffix_of` p) ->
  (ei = 3 -> [CR; LF; CR] `suffix_of` p \/ [LF] `suffix_of` p) ->
  (ei = 4 -> END_OF_HEADER `suffix_of` p \/ [LF; LF] `suffix_of` p) ->
  head_end_from ei (zlen p) s = Some i ->
  END_OF_HEADER `suffix_of` ztake i (p ++ s) \/ [LF; LF] `suffix_of` ztake i (p ++ s).
Proof.
  revert ei p. induction s as [|c s IH]; intros ei p He H1 H2 H3 H4; simpl;
    destruct (Z.eqb_spec ei 4) as [->|Hne]; try done.
  - intros [= <-]. rewrite ztake_app_length. auto.
  - intros [= <-]. rewrite ztake_app_length. auto.
  - intros Hi. destruct (head_step_suffix ei c p) as (? & ? & ? & ? & ?); auto; [lia|].
    replace (p ++ c :: s) with ((p ++ [c]) ++ s) by by rewrite <- app_assoc.
    apply (IH (head_step ei c)); auto. rewrite zlen_app, zlen_cons.
    change (zlen (@nil byte)) with 0. by rewrite Z.add_0_r.
Qed.

(** The end of a head is sound: wherever [poll_for_crlfcrlf]'s search says
    a head ends, the bytes up to there end in an empty line, [\r\n\r\n] or the
    tolerated [\n\n]. *)
Theorem head_end_sound s i : head_end s = Some i ->
  0 < i <= zlen s /\
  (END_OF_HEADER `suffix_of` ztake i s \/ [LF; LF] `suffix_of` ztake i s).
Proof.
  intros Hi. pose proof (head_end_from_range _ _ _ _ Hi) as Hr.
  assert (Hsuf : END_OF_HEADER `suffix_of` ztake i s \/ [LF; LF] `suffix_of` ztake i s).
  { by apply (head_end_from_suffix 0 [] s i); try lia. }
  split; [|done]. split; [|lia]. destruct (Z.eq_dec i 0) as [->|]; [|lia].
  rewrite ztake_0 in Hsuf. by destruct Hsuf as [[[] ?]|[[] ?]].
Qed.

Section Properties.
Context {prof : Profile} {R : Type} `{ReadSpec R} `{!AsyncWrite R} {T : Type}.

(** C18. [poll_for_crlfcrlf] takes exactly one head off the connection,
    however the transport cuts the stream: the callback is shown the bytes up
    to the first end of a head, which must come within
    [READ_BUF_INIT_SIZE] bytes, or all the bytes there are when the stream ends
    first; those and no others are consumed.  On [Pending] and on every error
    nothing is consumed, so the next poll starts over; the errors are the
    transport's, a head that is too long, and a stream that ends before its
    first byte.  The poll always ends and never panics. *)
Theorem poll_for_crlfcrlf_takes_head fuel (f : bytes -> bool -> T) (b : BufIo.t R) :
  BufIo.rd_wf b -> BufIo.pos b + READ_BUF_INIT_SIZE <= MAX_CAPACITY ->
  zlen (BufIo.incoming b) + 1 < Z.of_nat fuel ->
  wp (poll_for_crlfcrlf fuel f) b (fun r b' =>
    BufIo.rd_wf b' /\ BufIo.tx_fields b' = BufIo.tx_fields b /\
    match r with
    | Ready (Ok ret) => exists head, BufIo.incoming b = head ++ BufIo.incoming b' /\
        ((head_end (BufIo.incoming b) = Some (zlen head) /\ zlen head <= READ_BUF_INIT_SIZE /\
          ret = f head false) \/
         (BufIo.incoming b' = [] /\ head <> [] /\ head_end head = None /\ ret = f head true))
    | Ready (Err e) => BufIo.incoming b' = BufIo.incoming b /\
        (raises R e \/
         (e = no_header_found /\ READ_BUF_INIT_SIZE <= zlen (BufIo.incoming b) /\
          forall i, head_end (BufIo.incoming b) = Some i -> READ_BUF_INIT_SIZE < i) \/
         (e = no_head_length /\ BufIo.incoming b = []))
    | Pending => BufIo.incoming b' = BufIo.incoming b /\ BufIo.pending_rx b' = true
    end).
Proof.
  intros Hb Hroom Hfuel. eapply wp_mono; [by apply poll_for_crlfcrlf_wp|].
  by intros r b' ((? & ? & _) & ?).
Qed.

Context `{Http}.

(** A head as one of the two writers put it into a slice of [room] bytes, of a
    message whose lines have no line breaks inside. *)
Definition written_head (room : Z) (head : bytes) : Prop :=
  (exists req ver, version_str (req_version req) = Done ver /\
     Forall plain_line (request_lines req ver) /\
     write_http1x_req req room = Done (Ok (zlen head), head)) \/
  (exists res ver, version_str (res_version res) = Done ver /\
     Forall plain_line (response_lines res ver) /\
     write_http1x_res res room = Done (Ok (zlen head), head)).

Lemma written_head_end room head s : 0 <= room -> written_head room head ->
  head_end (head ++ s) = Some (zlen head) /\ head <> [].
Proof.
  assert (Hne : forall lines, head_of lines <> []) by (intros lines E; by apply app_nil in E as [_ ?]).
  intros Hroom [(req & ver & Hv & Hl & Hw)|(res & ver & Hv & Hl & Hw)].
  - destruct (write_http1x_req_ok req ver room Hv Hroom) as (r & E & Hr). rewrite E in Hw.
    injection Hw as ->. case_match; [injection Hr as _ ->; split; [by apply head_end_head_of|done]|].
    by destruct Hr as [? _].
  - destruct (write_http1x_res_ok res ver room Hv Hroom) as (r & E & Hr). rewrite E in Hw.
    injection Hw as ->. case_match; [injection Hr as _ ->; split; [by apply head_end_head_of|done]|].
    by destruct Hr as [? _].
Qed.

(** C21. Heads survive the trip: a request or response head that the library
    wrote, of at most [READ_BUF_INIT_SIZE] bytes, is found by the library at
    the other end exactly as it was written, and what follows it is left on
    the connection, whatever the segmentation. *)
Theorem written_head_is_found fuel room (f : bytes -> bool -> T) (b : BufIo.t R) head rest :
  0 <= room -> written_head room head -> zlen head <= READ_BUF_INIT_SIZE ->
  BufIo.rd_wf b -> BufIo.pos b + READ_BUF_INIT_SIZE <= MAX_CAPACITY ->
  BufIo.incoming b = head ++ rest -> zlen (BufIo.incoming b) + 1 < Z.of_nat fuel ->
  wp (poll_for_crlfcrlf fuel f) b (fun r b' =>
    match r with
    | Ready (Ok ret) => ret = f head false /\ BufIo.incoming b' = rest
    | Ready (Err e) => raises R e /\ BufIo.incoming b' = head ++ rest
    | Pending => BufIo.incoming b' = head ++ rest
    end).
Proof.
  intros Hroom0 Hw Hmax Hb Hroom Hin Hfuel.
  pose proof (written_head_end room head rest Hroom0 Hw) as [He Hne].
  pose proof (written_head_end room head [] Hroom0 Hw) as [He' _].
  eapply wp_mono; [by apply (poll_for_crlfcrlf_wp fuel f b)|]. intros r b' (_ & Hr).
  destruct r as [|[ret|e]]; unfold took_head in Hr; rewrite ?Hin in Hr.
  - apply Hr.
  - destruct Hr as (h & Hh & [(Hlen & _ & ->)|(Hn & _ & Hnone & _)]).
    + rewrite He in Hlen. injection Hlen as Hlen.
      apply app_inj_1 in Hh as [-> ->]; [done|]. unfold zlen in Hlen. lia.
    + rewrite Hn, app_nil_r in Hh. rewrite <- Hh, He in Hnone. done.
  - destruct Hr as [-> [Hra|[(_ & _ & Hlong)|[_ Hnil]]]]; [done| |].
    + specialize (Hlong _ He). lia.
    + by apply app_nil in Hnil as [-> _].
Qed.
End Properties.

(** The writers never write past their slice and never give a part of a
    head for a whole one: for a supported version they return the length of
    the complete head they have put at the front of the slice, exactly when
    it fits, and [WriteZero] otherwise; no other outcome exists.  The host
    line comes from the URI only if no header gives one. *)
Theorem heads_fit_or_fail `{Http} (req : Request) (res : Response) ver ver' n :
  version_str (req_version req) = Done ver -> version_str (res_version res) = Done ver' -> 0 <= n ->
  (let head := head_of (request_lines req ver) in
   exists r, write_http1x_req req n = Done r /\ zlen r.2 <= n /\
     if zlen head <=? n then r = (Ok (zlen head), head) else r.1 = Err Cursor.write_zero) /\
  (let head := head_of (response_lines res ver') in
   exists r, write_http1x_res res n = Done r /\ zlen r.2 <= n /\
     if zlen head <=? n then r = (Ok (zlen head), head) else r.1 = Err Cursor.write_zero).
Proof.
  intros Hv Hv' Hn. split; cbv zeta.
  - destruct (write_http1x_req_ok req ver n Hv Hn) as (r & E & Hr). exists r. split; [done|].
    destruct (Z.leb_spec (zlen (head_of (request_lines req ver))) n); [by subst r|].
    by destruct Hr.
  - destruct (write_http1x_res_ok res ver' n Hv' Hn) as (r & E & Hr). exists r. split; [done|].
    destruct (Z.leb_spec (zlen (head_of (response_lines res ver'))) n); [by subst r|].
    by destruct Hr.
Qed.

(** What parsing a head can come to: an error is always [InvalidData]; a
    request is absent exactly when the parser has not seen all of it, a
    response only if in addition the stream has not ended; and headers whose
    name or value the [http] crate refuses are left out, never an error. *)
Theorem parse_outcomes `{Http} `{Httparse} buf end_of_stream :
  match try_parse_req buf end_of_stream with
  | Err e => err_kind e = InvalidData
  | Ok None => exists p, parse_request 128 buf = Ok (Partial, p)
  | Ok (Some req) => exists n p uri, parse_request 128 buf = Ok (Complete n, p) /\
      uri_build (raw_path p) = Ok uri /\
      reqb_body (fold_left (fun bld '(name, value) => reqb_header name value bld)
        (omap header_of (raw_req_headers p))
        (from_option reqb_method id (raw_method p) (reqb_uri uri (reqb_version
          (if bool_decide (raw_req_version p = Some 1) then HTTP_11 else HTTP_10) req_builder)))) = Ok req
  end /\
  match try_parse_res buf end_of_stream with
  | Err e => err_kind e = InvalidData
  | Ok None => end_of_stream = false /\ exists p, parse_response 128 buf = Ok (Partial, p)
  | Ok (Some _) => exists st p, parse_response 128 buf = Ok (st, p) /\
      (is_partial st = true -> end_of_stream = true)
  end.
Proof.
  split.
  - unfold try_parse_req. destruct (parse_request 128 buf) as [[st p]|e]; [|done].
    destruct st as [n|]; [|by exists p]. simpl. destruct (uri_build (raw_path p)) as [uri|] eqn:Hu; [|done].
    assert (Hfold : forall hs bld,
      fold_left (fun bld head => match header_of head with
                                 | Some (name, value) => reqb_header name value bld
                                 | None => bld end) hs bld =
      fold_left (fun bld '(name, value) => reqb_header name value bld) (omap header_of hs) bld).
    { induction hs as [|h hs IH]; intros bld; [done|]. simpl.
      destruct (header_of h) as [[name value]|]; apply IH. }
    rewrite Hfold. match goal with |- context [match reqb_body ?x with _ => _ end] => destruct (reqb_body x) eqn:E end; [|done].
    exists n, p, uri. split; [done|]. split; [done|]. rewrite <- E. f_equal. f_equal.
    by destruct (raw_method p).
  - unfold try_parse_res. destruct (parse_response 128 buf) as [[st p]|e]; [|done].
    destruct (is_partial st && negb end_of_stream) eqn:Hp.
    + apply andb_prop in Hp as [Hst He]. split; [by destruct end_of_stream|]. exists p. by destruct st.
    + match goal with |- context [match resb_body ?x with _ => _ end] => destruct (resb_body x) end; [|done].
      exists st, p. split; [done|]. intros Hst. rewrite Hst in Hp. by destruct end_of_stream.
Qed.

(** *** Witnesses *)

Module HeadExample.
Import Plain.

Definition req : Request (Http := plain_http) :=
  {| q_method := bs "GET"; q_uri := {| u_pq := Some (bs "/a?b"); u_scheme := Some (bs "http");
       u_host := Some (bs "example.com"); u_port := Some 8080 |};
     q_version := 11; q_headers := [(bs "accept", bs "*/*")] |}.

Definition res : Response (Http := plain_http) :=
  {| s_status := 204; s_version := 10; s_headers := [] |}.

Definition text : bytes :=
  bs "GET /a?b HTTP/1.1" ++ CRLF ++ bs "host: example.com:8080" ++ CRLF ++ bs "accept: */*" ++ CRLF ++ CRLF.

Lemma text_ok : write_http1x_req req 100 = Done (Ok (zlen text), text).
Proof. vm_compute. reflexivity. Qed.

(** The head arrives in two segments, with a stall and a body behind it. *)
Definition conn : BufIo.t Script.t :=
  BufIo.mk (Script.mk (Script.data (ztake 57 text) ++ Script.RPending ::
    Script.data (zdrop 57 text ++ bs "body")) [] [] [] 0) (Vec.mk [] 32) 0 false false None false.

Lemma head_conn_wf : BufIo.rd_wf conn.
Proof. repeat split; vm_compute; auto; discriminate. Qed.
End HeadExample.

Lemma head_end_sound_witness :
  0 < 58 <= zlen (HeadExample.text ++ bs "body") /\
  (END_OF_HEADER `suffix_of` ztake 58 (HeadExample.text ++ bs "body") \/
   [LF; LF] `suffix_of` ztake 58 (HeadExample.text ++ bs "body")).
Proof. apply head_end_sound. vm_compute. reflexivity. Defined.

Lemma poll_for_crlfcrlf_takes_head_witness :
  wp (poll_for_crlfcrlf (prof := dev) 100 (fun head _ => head)) HeadExample.conn (fun r b' =>
    BufIo.rd_wf b' /\ BufIo.tx_fields b' = BufIo.tx_fields HeadExample.conn /\
    match r with
    | Ready (Ok ret) => exists head, BufIo.incoming HeadExample.conn = head ++ BufIo.incoming b' /\
        ((head_end (BufIo.incoming HeadExample.conn) = Some (zlen head) /\
          zlen head <= READ_BUF_INIT_SIZE /\ ret = head) \/
         (BufIo.incoming b' = [] /\ head <> [] /\ head_end head = None /\ ret = head))
    | Ready (Err e) => BufIo.incoming b' = BufIo.incoming HeadExample.conn /\
        (raises Script.t e \/
         (e = no_header_found /\ READ_BUF_INIT_SIZE <= zlen (BufIo.incoming HeadExample.conn) /\
          forall i, head_end (BufIo.incoming HeadExample.conn) = Some i -> READ_BUF_INIT_SIZE < i) \/
         (e = no_head_length /\ BufIo.incoming HeadExample.conn = []))
    | Pending => BufIo.incoming b' = BufIo.incoming HeadExample.conn /\ BufIo.pending_rx b' = true
    end).
Proof.
  apply (poll_for_crlfcrlf_takes_head (prof := dev) 100 (fun head _ => head) HeadExample.conn).
  - exact HeadExample.head_conn_wf.
  - discriminate.
  - reflexivity.
Defined.

Lemma written_head_is_found_witness :
  wp (poll_for_crlfcrlf (prof := dev) 100 (fun head _ => head)) HeadExample.conn (fun r b' =>
    match r with
    | Ready (Ok ret) => ret = HeadExample.text /\ BufIo.incoming b' = bs "body"
    | Ready (Err e) => raises Script.t e /\ BufIo.incoming b' = HeadExample.text ++ bs "body"
    | Pending => BufIo.incoming b' = HeadExample.text ++ bs "body"
    end).
Proof.
  apply (written_head_is_found (prof := dev) (H1 := Plain.plain_http) 100 100 (fun head _ => head)).
  - discriminate.
  - left. exists HeadExample.req, (bs "1.1"). split; [reflexivity|].
    split; [|exact HeadExample.text_ok].
    repeat (constructor; [split; [discriminate | repeat (constructor; [split; discriminate|]); constructor]|]).
    constructor.
  - discriminate.
  - exact HeadExample.head_conn_wf.
  - discriminate.
  - reflexivity.
  - reflexivity.
Defined.

Lemma heads_fit_or_fail_witness :
  (let head := head_of (request_lines HeadExample.req (bs "1.1")) in
   exists r, write_http1x_req HeadExample.req 100 = Done r /\ zlen r.2 <= 100 /\
     if zlen head <=? 100 then r = (Ok (zlen head), head) else r.1 = Err Cursor.write_zero) /\
  (let head := head_of (response_lines HeadExample.res (bs "1.0")) in
   exists r, write_http1x_res HeadExample.res 100 = Done r /\ zlen r.2 <= 100 /\
     if zlen head <=? 100 then r = (Ok (zlen head), head) else r.1 = Err Cursor.write_zero).
Proof. apply heads_fit_or_fail; [reflexivity | reflexivity | discriminate]. Defined.
