(* ===== verification/Mpsc.v ===== *)
(** * Channels (src/mpsc.rs)

    A bounded queue with any number of senders and receivers.  [Inner] is
    what the mutex protects; [Mpsc.t] adds the handle counts that the code
    reads off its [Arc]s and [Weak]s: the receivers hold the queue alive, the
    senders only hold it weakly.  Every operation returns the wakers it wakes.
    [System] puts tasks around a channel, parked until they are woken, and
    shows that nobody sleeps past an event: if a sender is dropped in one
    step.  [Race] splits that drop in the two steps it really has. *)

From S2P Require Import Prelude.
From S2P Require Import Async.

(** [std::task::Waker], by the task it wakes. *)
Definition waker := nat.

(** ** What the mutex protects *)

Module Inner.
Record t (T : Type) := mk {
  queue : list T;
  ended : bool;
  bound : Z;
  wakers : list waker;
}.
Arguments mk {T}.
Arguments queue {T} _.
Arguments ended {T} _.
Arguments bound {T} _.
Arguments wakers {T} _.

Section Defs.
Context {T : Type}.
Implicit Types (i : t T).

Definition new (bound : Z) : t T := mk [] false bound [].

(** [cx.waker().clone()] pushed if [register]. *)
Definition register_waker (cx : waker) (register : bool) i : t T :=
  if register then mk (queue i) (ended i) (bound i) (wakers i ++ [cx]) else i.

Definition poll_ready (cx : waker) (register : bool) i : poll bool * t T :=
  if negb (ended i) && (bound i <=? Z.of_nat (length (queue i)))
  then (Pending, register_waker cx register i)
  else (Ready true, i).

(** The wakers woken, and the queue without them. *)
Definition wake_all i : t T * list waker := (mk (queue i) (ended i) (bound i) [], wakers i).

Definition enqueue (x : T) i : t T * list waker :=
  wake_all (if ended i then i else mk (queue i ++ [x]) (ended i) (bound i) (wakers i)).

Definition poll_dequeue (cx : waker) (register : bool) i : poll (option T) * t T * list waker :=
  match queue i with
  | x :: q => let '(i', woken) := wake_all (mk q (ended i) (bound i) (wakers i)) in
              (Ready (Some x), i', woken)
  | [] => (Pending, register_waker cx register i, [])
  end.
End Defs.
End Inner.

(** ** Channels and their handles *)

Module Mpsc.
Record t (T : Type) := mk {
  inner : Inner.t T;
  receivers : nat;     (* strong count of [inner], and of [count] *)
  senders : nat;       (* weak count of [inner] *)
}.
Arguments mk {T}.
Arguments inner {T} _.
Arguments receivers {T} _.
Arguments senders {T} _.

Section Defs.
Context {T : Type}.
Implicit Types (c : t T).

Definition set_inner (i : Inner.t T) c : t T := mk i (receivers c) (senders c).

(** [Receiver::new]: one receiver, one sender. *)
Definition new (bound : Z) : t T := mk (Inner.new bound) 1 1.

(** [Weak::upgrade]. *)
Definition upgrade c : option (Inner.t T) := if decide (receivers c = 0%nat) then None else Some (inner c).

Definition poll_recv (cx : waker) (register : bool) c : poll (option T) * t T * list waker :=
  let '(r, i, woken) := Inner.poll_dequeue cx register (inner c) in
  (match r with
   | Pending => if decide (senders c = 0%nat) then Ready None else Pending
   | r => r
   end, set_inner i c, woken).

Definition poll_ready (cx : waker) (register : bool) c : poll bool * t T :=
  match upgrade c with
  | Some i => let '(r, i') := Inner.poll_ready cx register i in (r, set_inner i' c)
  | None => (Ready false, c)
  end.

Definition send (x : T) c : bool * t T * list waker :=
  match upgrade c with
  | Some i => let '(i', woken) := Inner.enqueue x i in (true, set_inner i' c, woken)
  | None => (false, c, [])
  end.

Definition len c : Z :=
  match upgrade c with Some i => Z.of_nat (length (Inner.queue i)) | None => 0 end.

Definition is_empty c : bool := len c =? 0.

Definition clone_sender c : t T := mk (inner c) (receivers c) (S (senders c)).
Definition clone_receiver c : t T := mk (inner c) (S (receivers c)) (senders c).

(** [Drop for Sender]: its body, then the drop of its [Weak]. *)
Definition drop_sender_body c : t T * list waker :=
  match upgrade c with
  | Some i => let '(i', woken) := Inner.wake_all i in (set_inner i' c, woken)
  | None => (c, [])
  end.
Definition drop_weak c : t T := mk (inner c) (receivers c) (pred (senders c)).
Definition drop_sender c : t T * list waker :=
  let '(c', woken) := drop_sender_body c in (drop_weak c', woken).

(** [Drop for Receiver], and the drop of its [Arc]s. *)
Definition drop_receiver c : t T * list waker :=
  let i := inner c in
  let i := if decide (receivers c = 1%nat)
           then Inner.mk [] true (Inner.bound i) (Inner.wakers i) else i in
  let '(i', woken) := Inner.wake_all i in
  (mk i' (pred (receivers c)) (senders c), woken).
End Defs.
End Mpsc.

(** ** A channel's history *)

Section History.
Context {T : Type}.
Implicit Types (c : Mpsc.t T).

(** The operations on a channel, with what each puts in and takes out. *)
Inductive ch_step c : list T -> list T -> Mpsc.t T -> Prop :=
  | ch_send x ok c' w : Mpsc.senders c <> 0%nat -> Mpsc.send x c = (ok, c', w) -> ch_step c [x] [] c'
  | ch_recv cx register r c' w : Mpsc.receivers c <> 0%nat ->
      Mpsc.poll_recv cx register c = (r, c', w) ->
      ch_step c [] (match r with Ready (Some x) => [x] | _ => [] end) c'
  | ch_ready cx register r c' : Mpsc.senders c <> 0%nat ->
      Mpsc.poll_ready cx register c = (r, c') -> ch_step c [] [] c'
  | ch_clone_sender : Mpsc.senders c <> 0%nat -> ch_step c [] [] (Mpsc.clone_sender c)
  | ch_clone_receiver : Mpsc.receivers c <> 0%nat -> ch_step c [] [] (Mpsc.clone_receiver c)
  | ch_drop_sender c' w : Mpsc.senders c <> 0%nat -> Mpsc.drop_sender c = (c', w) -> ch_step c [] [] c'
  | ch_drop_receiver c' w : Mpsc.receivers c <> 0%nat -> Mpsc.drop_receiver c = (c', w) ->
      ch_step c [] [] c'.

Inductive ch_run : list T -> list T -> Mpsc.t T -> Prop :=
  | ch_new bound : ch_run [] [] (Mpsc.new bound)
  | ch_more ins outs c i o c' : ch_run ins outs c -> ch_step c i o c' -> ch_run (ins ++ i) (outs ++ o) c'.

(** While a receiver is left, the queue is what was sent and not received. *)
Definition in_order (ins outs : list T) c : Prop :=
  (Mpsc.receivers c <> 0%nat -> Inner.ended (Mpsc.inner c) = false /\
     ins = outs ++ Inner.queue (Mpsc.inner c)) /\
  outs `prefix_of` ins.

Lemma in_order_more ins outs c i o c' : in_order ins outs c ->
  (Mpsc.receivers c' <> 0%nat -> Mpsc.receivers c <> 0%nat /\
     Inner.ended (Mpsc.inner c') = Inner.ended (Mpsc.inner c) /\
     Inner.queue (Mpsc.inner c) ++ i = o ++ Inner.queue (Mpsc.inner c')) ->
  (o <> [] -> Mpsc.receivers c' <> 0%nat) ->
  in_order (ins ++ i) (outs ++ o) c'.
Proof.
  intros [Hq Hpre] Hstep Ho. split.
  - intros Hr. destruct (Hstep Hr) as (Hr0 & He & Hqi). destruct (Hq Hr0) as [Hend ->].
    rewrite He. split; [done|]. by rewrite <- !app_assoc, Hqi.
  - destruct (decide (o = [])) as [->|Hne].
    + rewrite app_nil_r. by apply prefix_app_r.
    + destruct (Hstep (Ho Hne)) as (Hr0 & _ & Hqi). destruct (Hq Hr0) as [_ ->].
      rewrite <- app_assoc, Hqi, app_assoc. by apply prefix_app_r.
Qed.

Lemma ch_step_order ins outs c i o c' : in_order ins outs c -> ch_step c i o c' ->
  in_order (ins ++ i) (outs ++ o) c'.
Proof.
  intros Hin Hstep. pose proof Hin as [Hq _]. apply (in_order_more ins outs c); [done|..];
    destruct Hstep as [x ok c' w Hs E|cx reg r c' w Hr E|cx reg r c' Hs E|Hs|Hr|c' w Hs E|c' w Hr E];
    try done.
  - unfold Mpsc.send, Mpsc.upgrade in E. intros Hr. case_decide as Hz.
    + injection E as _ <- _. done.
    + destruct (Hq Hz) as [Hend _]. unfold Inner.enqueue in E. rewrite Hend in E. simpl in E.
      injection E as _ <- _. split_and!; auto.
  - unfold Mpsc.poll_recv, Inner.poll_dequeue in E. intros _.
    destruct (Inner.queue (Mpsc.inner c)) as [|x q] eqn:Eq; simpl in E; injection E as <- <- _.
    + destruct (decide _); simpl; unfold Inner.register_waker; destruct reg; simpl; by rewrite Eq.
    + simpl. by rewrite app_nil_r.
  - unfold Mpsc.poll_ready, Mpsc.upgrade in E. intros Hr. case_decide as Hz.
    + by injection E as _ <-.
    + unfold Inner.poll_ready in E. destruct (negb _ && _); injection E as _ <-; simpl;
        unfold Inner.register_waker; try destruct reg; simpl; by rewrite app_nil_r.
  - intros Hr. by rewrite app_nil_r.
  - intros _. by rewrite app_nil_r.
  - unfold Mpsc.drop_sender, Mpsc.drop_sender_body, Mpsc.upgrade in E. intros Hr. case_decide as Hz;
      simpl in E; injection E as <- _; [done|]. by rewrite app_nil_r.
  - unfold Mpsc.drop_receiver in E. simpl in E. injection E as <- _. simpl. intros Hr0.
    rewrite decide_False by lia. by rewrite app_nil_r.
  - unfold Mpsc.poll_recv, Inner.poll_dequeue in E. intros _.
    destruct (Inner.queue (Mpsc.inner c)); simpl in E; by injection E as _ <- _.
Qed.

(** C24. Channels are first in, first out: at any point of any history, with
    any number of senders and receivers coming and going, what was received is
    a front of what was sent, in order; and while a receiver is left, the
    queue holds exactly the rest. *)
Theorem channel_is_fifo ins outs c : ch_run ins outs c ->
  outs `prefix_of` ins /\
  (Mpsc.receivers c <> 0%nat -> ins = outs ++ Inner.queue (Mpsc.inner c)).
Proof.
  intros Hrun. assert (Hin : in_order ins outs c).
  { induction Hrun as [bound|ins outs c i o c' _ IH Hstep]; [by split|].
    by eapply ch_step_order. }
  destruct Hin as [Hq Hpre]. split; [done|]. intros Hr. by destruct (Hq Hr).
Qed.
End History.

(** ** Channels without their wakers *)

Section Still.
Context {T : Type}.
Implicit Types (c : Mpsc.t T).

(** What a channel holds, and who holds it. *)
Definition still c : Mpsc.t T :=
  Mpsc.mk (Inner.mk (Inner.queue (Mpsc.inner c)) (Inner.ended (Mpsc.inner c)) (Inner.bound (Mpsc.inner c)) [])
    (Mpsc.receivers c) (Mpsc.senders c).

Definition queue_of c : list T := Inner.queue (Mpsc.inner c).
Definition wakers_of c : list waker := Inner.wakers (Mpsc.inner c).
Definition set_queue (q : list T) c : Mpsc.t T :=
  Mpsc.mk (Inner.mk q (Inner.ended (Mpsc.inner c)) (Inner.bound (Mpsc.inner c)) (wakers_of c))
    (Mpsc.receivers c) (Mpsc.senders c).

(** The operations, as functions on that. *)
Definition push (x : T) c : Mpsc.t T :=
  if decide (Mpsc.receivers c = 0%nat) then c
  else if Inner.ended (Mpsc.inner c) then c else set_queue (queue_of c ++ [x]) c.
Definition pop c : Mpsc.t T := set_queue (tail (queue_of c)) c.
Definition close_tx c : Mpsc.t T := Mpsc.mk (Mpsc.inner c) (Mpsc.receivers c) (pred (Mpsc.senders c)).
Definition close_rx c : Mpsc.t T :=
  Mpsc.mk (if decide (Mpsc.receivers c = 1%nat)
           then Inner.mk [] true (Inner.bound (Mpsc.inner c)) (wakers_of c) else Mpsc.inner c)
    (pred (Mpsc.receivers c)) (Mpsc.senders c).

Lemma still_queue c : queue_of (still c) = queue_of c.
Proof. done. Qed.

Lemma still_send x c ok c' l : Mpsc.send x c = (ok, c', l) ->
  still c' = push x (still c) /\ ok = bool_decide (Mpsc.receivers c <> 0%nat).
Proof.
  unfold Mpsc.send, Mpsc.upgrade, push. simpl. case_decide as Hr.
  - intros [= <- <- _]. split; [done|]. symmetry. by apply bool_decide_eq_false; intros [].
  - unfold Inner.enqueue. destruct (Inner.ended _) eqn:He; simpl; intros [= <- <- _];
      rewrite bool_decide_true by done; unfold still, set_queue; simpl; by rewrite He.
Qed.

Lemma still_recv cx register c r c' l : Mpsc.poll_recv cx register c = (r, c', l) ->
  match r with
  | Ready (Some x) => queue_of c = x :: queue_of c' /\ still c' = pop (still c)
  | Ready None => queue_of c = [] /\ Mpsc.senders c = 0%nat /\ still c' = still c
  | Pending => queue_of c = [] /\ Mpsc.senders c <> 0%nat /\ still c' = still c /\
      (register = true -> cx ∈ wakers_of c')
  end.
Proof.
  unfold Mpsc.poll_recv, Inner.poll_dequeue, queue_of, pop, queue_of.
  destruct (Inner.queue (Mpsc.inner c)) as [|x q] eqn:Eq; simpl; intros [= <- <- _].
  - unfold Inner.register_waker. destruct (decide _); unfold still;
      destruct register; simpl; rewrite ?Eq; split_and!; try done.
    intros _. unfold wakers_of. simpl. rewrite elem_of_app, list_elem_of_singleton. auto.
  - unfold still, set_queue, wakers_of. simpl. by rewrite Eq.
Qed.

Lemma still_ready cx c r c' : Mpsc.poll_ready cx true c = (r, c') ->
  still c' = still c /\ (r = Pending -> cx ∈ wakers_of c' /\ queue_of c' = queue_of c /\
    Mpsc.receivers c <> 0%nat /\ Inner.bound (Mpsc.inner c) <= Z.of_nat (length (queue_of c))).
Proof.
  unfold Mpsc.poll_ready, Mpsc.upgrade. case_decide; [by intros [= <- <-]|].
  unfold Inner.poll_ready. destruct (negb _ && _) eqn:E; intros [= <- <-]; [|by destruct c as [[]]].
  split; [done|]. intros _. unfold wakers_of, Inner.register_waker. simpl. split_and!; [|done|done|].
  - rewrite elem_of_app, list_elem_of_singleton. auto.
  - apply andb_prop in E as [_ E%Z.leb_le]. done.
Qed.

(** A task waits for a message: there is none, and somebody can still send
    one; or for room: there is none, and somebody can still make some. *)
Definition awaits (register : bool) cx c : Prop :=
  queue_of c = [] /\ Mpsc.senders c <> 0%nat /\ (register = true -> cx ∈ wakers_of c).
Definition backed_up cx c : Prop :=
  Mpsc.receivers c <> 0%nat /\ Inner.bound (Mpsc.inner c) <= Z.of_nat (length (queue_of c)) /\ cx ∈ wakers_of c.

Lemma recv_awaits cx register c c' l : Mpsc.poll_recv cx register c = (Pending, c', l) -> awaits register cx c'.
Proof.
  intros (Hq & Hn & Hs & Hw)%still_recv. pose proof (f_equal queue_of Hs) as Hq'. pose proof (f_equal Mpsc.senders Hs) as Hn'.
  cbn in Hq', Hn'. unfold awaits, queue_of in *. by rewrite Hq', Hn'.
Qed.

Lemma ready_backed_up cx c c' : Mpsc.poll_ready cx true c = (Pending, c') -> backed_up cx c'.
Proof.
  intros [Hs Hp]%still_ready. destruct (Hp eq_refl) as (Hw & Hq & Hr & Hb). pose proof (f_equal Mpsc.receivers Hs) as Hr'.
  pose proof (f_equal (fun c => Inner.bound (Mpsc.inner c)) Hs) as Hb'. cbn in Hr', Hb'. unfold backed_up. by rewrite Hq, Hr', Hb'.
Qed.

Lemma still_drop_sender c c' l : Mpsc.drop_sender c = (c', l) -> still c' = close_tx (still c).
Proof.
  unfold Mpsc.drop_sender, Mpsc.drop_sender_body, Mpsc.upgrade. case_decide; by intros [= <- _].
Qed.

Lemma still_drop_receiver c c' l : Mpsc.drop_receiver c = (c', l) -> still c' = close_rx (still c).
Proof.
  unfold Mpsc.drop_receiver, close_rx, still. simpl. intros [= <- _]. simpl. by case_decide.
Qed.
End Still.

(** ** Tasks that sleep until they are woken *)

Module System.
Section Defs.
Context {T : Type}.

(** The tasks parked after a [Pending] from [poll_recv], and from
    [poll_ready], with [register]; a wake-up ends both. *)
Record t := mk { ch : Mpsc.t T; asleep_rx : gset waker; asleep_tx : gset waker }.

Definition awake (s : t) (w : waker) : Prop := (w ∉ asleep_rx s) /\ (w ∉ asleep_tx s).

Definition wake (woken : list waker) (s : t) (c : Mpsc.t T) : t :=
  mk c (asleep_rx s ∖ list_to_set woken) (asleep_tx s ∖ list_to_set woken).

Definition park_rx (w : waker) (pending : bool) (s : t) : t :=
  if pending then mk (ch s) ({[w]} ∪ asleep_rx s) (asleep_tx s) else s.
Definition park_tx (w : waker) (pending : bool) (s : t) : t :=
  if pending then mk (ch s) (asleep_rx s) ({[w]} ∪ asleep_tx s) else s.

Definition is_pending {A} (r : poll A) : bool := match r with Pending => true | _ => false end.

(** One operation of a task that is awake; [drop_sender] is left open. *)
Inductive op_step (s : t) : t -> Prop :=
  | op_recv w r c' woken : awake s w -> Mpsc.receivers (ch s) <> 0%nat ->
      Mpsc.poll_recv w true (ch s) = (r, c', woken) ->
      op_step s (park_rx w (is_pending r) (wake woken s c'))
  | op_ready w r c' : awake s w -> Mpsc.senders (ch s) <> 0%nat ->
      Mpsc.poll_ready w true (ch s) = (r, c') ->
      op_step s (park_tx w (is_pending r) (wake [] s c'))
  | op_send x ok c' woken : Mpsc.senders (ch s) <> 0%nat ->
      Mpsc.send x (ch s) = (ok, c', woken) -> op_step s (wake woken s c')
  | op_clone_sender : Mpsc.senders (ch s) <> 0%nat -> op_step s (wake [] s (Mpsc.clone_sender (ch s)))
  | op_clone_receiver : Mpsc.receivers (ch s) <> 0%nat ->
      op_step s (wake [] s (Mpsc.clone_receiver (ch s)))
  | op_drop_receiver c' woken : Mpsc.receivers (ch s) <> 0%nat ->
      Mpsc.drop_receiver (ch s) = (c', woken) -> op_step s (wake woken s c').

Inductive step (s : t) : t -> Prop :=
  | step_op s' : op_step s s' -> step s s'
  | step_drop_sender c' woken : Mpsc.senders (ch s) <> 0%nat ->
      Mpsc.drop_sender (ch s) = (c', woken) -> step s (wake woken s c').

Inductive reachable : t -> Prop :=
  | reach_new bound : reachable (mk (Mpsc.new bound) ∅ ∅)
  | reach_step s s' : reachable s -> step s s' -> reachable s'.

(** Sleepers are registered, and have reason to sleep. *)
Definition may_sleep_rx (c : Mpsc.t T) (w : waker) : Prop :=
  w ∈ Inner.wakers (Mpsc.inner c) /\ Inner.queue (Mpsc.inner c) = [] /\ Mpsc.senders c <> 0%nat /\
  Mpsc.receivers c <> 0%nat.

Definition may_sleep_tx (c : Mpsc.t T) (w : waker) : Prop :=
  w ∈ Inner.wakers (Mpsc.inner c) /\ Mpsc.receivers c <> 0%nat /\
  Inner.ended (Mpsc.inner c) = false /\
  Inner.bound (Mpsc.inner c) <= Z.of_nat (length (Inner.queue (Mpsc.inner c))).

Definition sound (s : t) : Prop :=
  (forall w, w ∈ asleep_rx s -> may_sleep_rx (ch s) w) /\
  (forall w, w ∈ asleep_tx s -> may_sleep_tx (ch s) w).

(** An operation that wakes every registered task leaves no sleeper. *)
Lemma wake_all_sound s c' : sound s -> sound (wake (Inner.wakers (Mpsc.inner (ch s))) s c').
Proof.
  intros [Hr Ht]. split; intros w; simpl; rewrite elem_of_difference, elem_of_list_to_set.
  - intros [Hin Hno]. by destruct (Hr w Hin).
  - intros [Hin Hno]. by destruct (Ht w Hin).
Qed.

(** An operation that wakes nobody must leave the sleepers their reasons. *)
Lemma wake_none_sound s c' : sound s ->
  (forall w, may_sleep_rx (ch s) w -> may_sleep_rx c' w) ->
  (forall w, may_sleep_tx (ch s) w -> may_sleep_tx c' w) ->
  sound (wake [] s c').
Proof.
  intros [Hr Ht] Hkr Hkt. unfold wake. rewrite list_to_set_nil, !difference_empty_L.
  split; simpl; auto.
Qed.

Lemma park_rx_sound w p s : sound s -> (p = true -> may_sleep_rx (ch s) w) -> sound (park_rx w p s).
Proof.
  intros [Hr Ht] Hw. destruct p; [|done]. split; simpl; [|done].
  intros w'. rewrite elem_of_union, elem_of_singleton. intros [->|?]; auto.
Qed.

Lemma park_tx_sound w p s : sound s -> (p = true -> may_sleep_tx (ch s) w) -> sound (park_tx w p s).
Proof.
  intros [Hr Ht] Hw. destruct p; [|done]. split; simpl; [done|].
  intros w'. rewrite elem_of_union, elem_of_singleton. intros [->|?]; auto.
Qed.

Lemma registered (w : waker) l : w ∈ (l ++ [w])%list.
Proof. rewrite elem_of_app, list_elem_of_singleton. auto. Qed.

Lemma op_step_sound s s' : sound s -> op_step s s' -> sound s'.
Proof.
  intros Hs [w r c' woken Hw Hr E|w r c' Hw Hsn E|x ok c' woken Hsn E|Hsn|Hr|c' woken Hr E].
  - unfold Mpsc.poll_recv, Inner.poll_dequeue in E.
    destruct (Inner.queue (Mpsc.inner (ch s))) as [|x q] eqn:Eq; simpl in E; injection E as <- <- <-.
    + apply park_rx_sound.
      * apply wake_none_sound; [done| |]; intros w' Hm; unfold may_sleep_rx, may_sleep_tx in *; simpl;
          rewrite elem_of_app; tauto.
      * destruct (decide _) as [|Hsn]; [done|]. intros _. split_and!; [|done..]. apply registered.
    + by apply wake_all_sound.
  - unfold Mpsc.poll_ready, Mpsc.upgrade in E. case_decide as Hz.
    + injection E as <- <-. by apply wake_none_sound.
    + unfold Inner.poll_ready in E. destruct (negb _ && _) eqn:Hfull; injection E as <- <-.
      * apply andb_prop in Hfull as [Hend%negb_true_iff Hfull%Z.leb_le]. apply park_tx_sound.
        -- apply wake_none_sound; [done| |]; intros w' Hm; unfold may_sleep_rx, may_sleep_tx in *; simpl;
             rewrite elem_of_app; tauto.
        -- intros _. split_and!; [|done|done|done]. apply registered.
      * apply wake_none_sound; [done| |]; by intros.
  - unfold Mpsc.send, Mpsc.upgrade in E. case_decide as Hz.
    + injection E as _ <- <-. by apply wake_none_sound.
    + unfold Inner.enqueue in E. destruct (Inner.ended _); injection E as _ <- <-; by apply wake_all_sound.
  - apply wake_none_sound; [done| |]; intros w; unfold may_sleep_rx, may_sleep_tx; simpl; intuition lia.
  - apply wake_none_sound; [done| |]; intros w; unfold may_sleep_rx, may_sleep_tx; simpl; intuition lia.
  - unfold Mpsc.drop_receiver in E. destruct (decide _); injection E as <- <-; by apply wake_all_sound.
Qed.

Lemma step_sound s s' : sound s -> step s s' -> sound s'.
Proof.
  intros Hs [s1 Hop|c' woken Hsn E]; [by eapply op_step_sound|].
  unfold Mpsc.drop_sender, Mpsc.drop_sender_body, Mpsc.upgrade in E. case_decide as Hz; injection E as <- <-.
  - destruct Hs as [Hrx Htx]. unfold wake. rewrite list_to_set_nil, !difference_empty_L.
    split; simpl; intros w Hw; [by destruct (Hrx w Hw) as (_ & _ & _ & ?)|].
    by destruct (Htx w Hw) as (_ & ? & _).
  - by apply wake_all_sound.
Qed.

Lemma reachable_sound s : reachable s -> sound s.
Proof.
  intros Hs. induction Hs as [bound|s s' _ IH Hstep]; [by split|by eapply step_sound].
Qed.

(** C27. No wake-up is lost: in every reachable state, a task that sleeps
    after a [Pending] of [poll_recv] or [poll_ready] would get [Pending] again
    if it were polled: whatever makes the poll ready (an item, room, the
    last sender or the last receiver going away) has woken it. *)
Theorem no_lost_wakeup s w : reachable s ->
  (w ∈ asleep_rx s -> (Mpsc.poll_recv w true (ch s)).1.1 = Pending) /\
  (w ∈ asleep_tx s -> (Mpsc.poll_ready w true (ch s)).1 = Pending).
Proof.
  intros [Hrx Htx]%reachable_sound. split; intros Hw.
  - destruct (Hrx w Hw) as (_ & Hq & Hsn & _). unfold Mpsc.poll_recv, Inner.poll_dequeue.
    rewrite Hq. simpl. by rewrite decide_False.
  - destruct (Htx w Hw) as (_ & Hr & He & Hfull). unfold Mpsc.poll_ready, Mpsc.upgrade.
    rewrite decide_False by done. unfold Inner.poll_ready. by rewrite He, (proj2 (Z.leb_le _ _)).
Qed.

(** Backpressure: if every [send] comes from a task that [poll_ready] has
    just told to go ahead, the queue never grows past its bound. *)
Theorem bound_is_kept (c : Mpsc.t T) w x r c1 ok c2 woken : 0 < Inner.bound (Mpsc.inner c) ->
  Mpsc.poll_ready w true c = (Ready r, c1) -> Mpsc.send x c1 = (ok, c2, woken) ->
  r = ok /\ (Mpsc.receivers c <> 0%nat -> Inner.ended (Mpsc.inner c) = false ->
    Z.of_nat (length (Inner.queue (Mpsc.inner c2))) <= Inner.bound (Mpsc.inner c2) /\
    Inner.queue (Mpsc.inner c2) = Inner.queue (Mpsc.inner c) ++ [x]).
Proof.
  intros Hb Hready Hsend. unfold Mpsc.poll_ready, Mpsc.upgrade in Hready.
  case_decide as Hz.
  - injection Hready as <- <-. unfold Mpsc.send, Mpsc.upgrade in Hsend.
    rewrite decide_True in Hsend by done. by injection Hsend as <- _ _.
  - unfold Inner.poll_ready in Hready. destruct (negb _ && _) eqn:Hfull; [done|].
    injection Hready as <- <-. unfold Mpsc.send, Mpsc.upgrade in Hsend. simpl in Hsend.
    rewrite decide_False in Hsend by done. unfold Inner.enqueue in Hsend. simpl in Hsend.
    injection Hsend as <- <- _. split; [done|]. intros _ He. rewrite He in *. simpl.
    split; [|done]. simpl in Hfull. apply Z.leb_gt in Hfull. rewrite length_app. simpl. lia.
Qed.
End Defs.
End System.

(** ** The drop of a sender, in its two steps *)

Module Race.
Section Defs.
Context {T : Type}.

(** The body of [Drop for Sender] wakes; the [Weak] is dropped after it,
    outside the lock.  [dropping] counts the senders in between. *)
Inductive step : System.t (T := T) * nat -> System.t (T := T) * nat -> Prop :=
  | race_op s s' n : (n < Mpsc.senders (System.ch s))%nat -> System.op_step s s' ->
      step (s, n) (s', n)
  | race_recv s w r c' woken n : System.awake s w -> Mpsc.receivers (System.ch s) <> 0%nat ->
      Mpsc.poll_recv w true (System.ch s) = (r, c', woken) ->
      step (s, n) (System.park_rx w (System.is_pending r) (System.wake woken s c'), n)
  | race_drop_body s c' woken n : (n < Mpsc.senders (System.ch s))%nat ->
      Mpsc.drop_sender_body (System.ch s) = (c', woken) ->
      step (s, n) (System.wake woken s c', S n)
  | race_drop_weak s n : step (s, S n) (System.wake [] s (Mpsc.drop_weak (System.ch s)), n).

Inductive reachable : System.t (T := T) * nat -> Prop :=
  | race_new bound : reachable (System.mk (Mpsc.new bound) ∅ ∅, 0%nat)
  | race_more s s' : reachable s -> step s s' -> reachable s'.

(** With the drop of a sender in its two steps a wake-up can be lost: a
    receiver polled between the wake-up and the drop of the [Weak] goes back
    to sleep on a channel that is about to have no senders, and nobody is
    left to wake it, although the next poll would tell it that the channel
    is closed. *)
Theorem sender_drop_race : exists s w,
  reachable (s, 0%nat) /\ w ∈ System.asleep_rx s /\
  Mpsc.senders (System.ch s) = 0%nat /\ Mpsc.receivers (System.ch s) = 1%nat /\
  (Mpsc.poll_recv w true (System.ch s)).1.1 = Ready None.
Proof.
  pose (c := Mpsc.new (T := T) 1).
  pose (c1 := Mpsc.mk (Inner.mk [] false 1 [7%nat]) 1 1 : Mpsc.t T).
  pose (s0 := System.wake [] (System.mk c ∅ ∅) c).
  pose (s1 := System.park_rx 7%nat true (System.wake [] s0 c1)).
  exists (System.wake [] s1 (Mpsc.drop_weak c1)), 7%nat. split; [|split; [|by split_and!]].
  - apply (race_more (s1, 1%nat)); [|apply race_drop_weak].
    apply (race_more (s0, 1%nat)).
    + apply (race_more (System.mk c ∅ ∅, 0%nat)); [apply race_new|].
      apply race_drop_body; [simpl; lia | done].
    + apply (race_recv s0 7%nat Pending c1 [] 1%nat); [|done|done].
      split; simpl; set_solver.
  - simpl. set_solver.
Qed.
End Defs.
End Race.

(** ** Witnesses *)

Module ChannelExample.
(** Two items sent, one received. *)
Definition start : Mpsc.t Z := Mpsc.new 1.
Definition holding (q : list Z) : Mpsc.t Z := Mpsc.mk (Inner.mk q false 1 []) 1 1.

(** A receiver asleep on the empty channel. *)
Definition sleeping : System.t := System.mk (Mpsc.mk (Inner.mk [] false 1 [7%nat]) 1 1 : Mpsc.t Z) {[7%nat]} ∅.

Lemma run_ok : ch_run [10; 20] [10] (holding [20]).
Proof.
  apply (ch_more [10; 20] [] (holding [10; 20]) [] [10]).
  - apply (ch_more [10] [] (holding [10]) [20] []).
    + apply (ch_more [] [] start [10] []); [apply ch_new|].
      apply (ch_send _ 10 true _ []); [discriminate | reflexivity].
    + apply (ch_send _ 20 true _ []); [discriminate | reflexivity].
  - apply (ch_recv _ 7%nat true (Ready (Some 10)) _ []); [discriminate | reflexivity].
Qed.

Lemma sleeping_ok : System.reachable sleeping.
Proof.
  assert (E : sleeping = System.park_rx 7%nat true
    (System.wake [] (System.mk (Mpsc.new 1) ∅ ∅) (System.ch sleeping))) by (vm_compute; reflexivity).
  rewrite E. apply (System.reach_step (System.mk (Mpsc.new 1) ∅ ∅)); [apply System.reach_new|].
  apply System.step_op.
  apply (System.op_recv _ 7%nat Pending (System.ch sleeping) []); [|discriminate | reflexivity].
  split; simpl; set_solver.
Qed.
End ChannelExample.

Lemma channel_is_fifo_witness :
  [10] `prefix_of` [10; 20] /\
  (Mpsc.receivers (ChannelExample.holding [20]) <> 0%nat ->
   [10; 20] = [10] ++ Inner.queue (Mpsc.inner (ChannelExample.holding [20]))).
Proof. apply (channel_is_fifo [10; 20] [10] (ChannelExample.holding [20])). exact ChannelExample.run_ok. Defined.

Lemma no_lost_wakeup_witness :
  (7%nat ∈ System.asleep_rx ChannelExample.sleeping ->
   (Mpsc.poll_recv 7%nat true (System.ch ChannelExample.sleeping)).1.1 = Pending) /\
  (7%nat ∈ System.asleep_tx ChannelExample.sleeping ->
   (Mpsc.poll_ready 7%nat true (System.ch ChannelExample.sleeping)).1 = Pending).
Proof. apply System.no_lost_wakeup. exact ChannelExample.sleeping_ok. Defined.

Lemma bound_is_kept_witness :
  true = true /\
  (Mpsc.receivers ChannelExample.start <> 0%nat ->
   Inner.ended (Mpsc.inner ChannelExample.start) = false ->
   1 <= 1 /\ [5] = [] ++ [5]).
Proof.
  apply (System.bound_is_kept ChannelExample.start 7%nat 5 true ChannelExample.start true
    (ChannelExample.holding [5]) []); reflexivity.
Defined.
