(* ===== verification/Share.v ===== *)
(** * Body streams (src/share.rs)

    [SendStream] frames body data and hands it to the connection through a
    channel; [RecvStream] hands out what the connection received.  On a
    server both also drive the connection: [poll_drive_external] is the
    interface [DriveExternal], which the server implements.

    Channels live in a store the handles share; [World] says where a larger
    state keeps it.  An [async fn] is a state machine: [do_send]'s stages are
    [send_stage]. *)

From S2P Require Import Prelude.
From S2P Require Import Async.
From S2P Require Import Std_text.
From S2P Require Import Fast_buf.
From S2P Require Import Transport.
From S2P Require Import Buf_reader.
From S2P Require Import Chunked.
From S2P Require Import Http_api.
From S2P Require Import Error.
From S2P Require Import Limit.
From S2P Require Import Mpsc.

(** ** Functions that fail with the library's [Error] *)

Definition api (E St A : Type) : Type := St -> exec (poll (result A E) * St).

#[export] Instance api_ret {E St} : MRet (api E St) | 100 := fun A a st => Done (Ready (Ok a), st).
#[export] Instance api_bind {E St} : MBind (api E St) | 100 := fun A B f m st =>
  match m st with
  | Done (Ready (Ok a), st') => f a st'
  | Done (Ready (Err e), st') => Done (Ready (Err e), st')
  | Done (Pending, st') => Done (Pending, st')
  | Panic p => Panic p
  | NoFuel => NoFuel
  end.

Section Api.
Context {E St : Type}.
Definition api_err {A} (e : E) : api E St A := fun st => Done (Ready (Err e), st).
Definition api_pending {A} : api E St A := fun st => Done (Pending, st).
Definition api_get : api E St St := fun st => Done (Ready (Ok st), st).
Definition api_put (st : St) : api E St unit := fun _ => Done (Ready (Ok tt), st).
Definition api_lift {A} (m : exec A) : api E St A := fun st => a ← m; Done (Ready (Ok a), st).

(** [?] on an [io::Result], through [From<io::Error>]. *)
Definition api_io {A} (from : io_error -> E) (m : io St A) : api E St A := fun st =>
  '(r, st') ← m st;
  Done (match r with
        | Pending => Pending
        | Ready (Ok a) => Ready (Ok a)
        | Ready (Err e) => Ready (Err (from e))
        end, st').

(** The loop of an [async fn] between two of its awaits. *)
Fixpoint api_iter {X A} (fuel : nat) (body : X -> api E St (X + A)) (x : X) : api E St A :=
  match fuel with
  | O => fun _ => NoFuel
  | S fuel' => r ← body x;
      match r with inl x' => api_iter fuel' body x' | inr a => mret a end
  end.
End Api.

(** ** The shared store *)

Definition chan_id := nat.

Record lens (W A : Type) := { view : W -> A; put : A -> W -> W }.
Arguments view {W A} _.
Arguments put {W A} _.

(** Channels for bodies to be sent, and for bodies received. *)
Class World (W : Type) := {
  out_chans : lens W (gmap chan_id (Mpsc.t (bytes * bool)));
  in_chans : lens W (gmap chan_id (Mpsc.t (io_result bytes)));
  wake : list waker -> W -> W;
}.

(** A name no channel of the store has. *)
Definition fresh_chan {T} (m : gmap chan_id T) : chan_id := map_fold (fun k _ n => Nat.max (S k) n) 0%nat m.

Lemma fresh_chan_above {T} (m : gmap chan_id T) k x : m !! k = Some x -> (k < fresh_chan m)%nat.
Proof.
  unfold fresh_chan. revert k x. apply (map_fold_weak_ind (fun n m => forall k x, m !! k = Some x -> (k < n)%nat)).
  - intros k x. by rewrite lookup_empty.
  - intros i y m' n Hi IH k x. rewrite lookup_insert_Some. intros [[<- _]|[_ Hk]]; [lia|].
    specialize (IH k x Hk). lia.
Qed.

Lemma fresh_chan_none {T} (m : gmap chan_id T) : m !! fresh_chan m = None.
Proof. destruct (m !! fresh_chan m) as [x|] eqn:E; [|done]. apply fresh_chan_above in E. lia. Qed.

(** An operation on the channel [id]; a handle always has its channel. *)
Definition on_chan {W T A} `{World W} (L : lens W (gmap chan_id (Mpsc.t T))) (id : chan_id)
    (op : Mpsc.t T -> A * Mpsc.t T * list waker) (w : W) : exec (A * W) :=
  match view L w !! id with
  | Some c => let '(a, c', woken) := op c in
              Done (a, wake woken (put L (<[id := c']> (view L w)) w))
  | None => Panic (PAssert "dangling channel")
  end.

Section ChannelOps.
Context {W T : Type} `{World W} (L : lens W (gmap chan_id (Mpsc.t T))).

Definition poll_recv_chan (id : chan_id) (cx : waker) (register : bool) : io W (option T) := fun w =>
  '(r, w') ← on_chan L id (Mpsc.poll_recv cx register) w;
  Done (match r with Pending => Pending | Ready v => Ready (Ok v) end, w').

Definition poll_ready_chan (id : chan_id) (cx : waker) : io W bool := fun w =>
  '(r, w') ← on_chan L id (fun c => let '(r, c') := Mpsc.poll_ready cx true c in (r, c', [])) w;
  Done (match r with Pending => Pending | Ready v => Ready (Ok v) end, w').

Definition send_chan (id : chan_id) (x : T) : io W bool := fun w =>
  '(sent, w') ← on_chan L id (Mpsc.send x) w; Done (Ready (Ok sent), w').

(** [Receiver::new], and the drops of the two handles. *)
Definition new_chan (bound : Z) : io W chan_id := fun w =>
  let id := fresh_chan (view L w) in
  Done (Ready (Ok id), put L (<[id := Mpsc.new bound]> (view L w)) w).

Definition drop_tx_chan (id : chan_id) : io W unit := fun w =>
  '(_, w') ← on_chan L id (fun c => let '(c', woken) := Mpsc.drop_sender c in (tt, c', woken)) w;
  Done (Ready (Ok tt), w').

Definition drop_rx_chan (id : chan_id) : io W unit := fun w =>
  '(_, w') ← on_chan L id (fun c => let '(c', woken) := Mpsc.drop_receiver c in (tt, c', woken)) w;
  Done (Ready (Ok tt), w').
End ChannelOps.

(** ** Data to send *)

Inductive Data := Shared (v : bytes) | Owned (v : bytes) | Empty.

Module Data.
Definition is_owned (d : Data) : bool := match d with Owned _ => true | _ => false end.

Definition is_empty (d : Data) : bool :=
  match d with
  | Shared v => bool_decide (v = [])
  | Owned v => bool_decide (v = [])
  | Empty => true
  end.

Definition len (d : Data) : Z := match d with Shared v => zlen v | Owned v => zlen v | Empty => 0 end.

(** What is left behind, and the vector. *)
Definition take_owned (d : Data) : exec (bytes * Data) :=
  match d with
  | Owned v => Done (v, Empty)
  | _ => Panic (PAssert "Can't take_owned")
  end.

Definition deref (d : Data) : exec bytes :=
  match d with
  | Shared v => Done v
  | Owned v => Done v
  | Empty => Panic (PAssert "Can't deref a Data::Empty")
  end.
End Data.

(** ** [SendStream] *)

Module SendStream.

Record t := mk {
  tx_body : chan_id;
  limit : LimitWrite.t;
  ended : bool;
  drive_external : bool;
}.

Definition new (tx_body : chan_id) (limit : LimitWrite.t) (ended drive_external : bool) : t :=
  mk tx_body limit ended drive_external.

Definition set_limit (l : LimitWrite.t) (s : t) : t := mk (tx_body s) l (ended s) (drive_external s).
Definition set_ended (e : bool) (s : t) : t := mk (tx_body s) (limit s) e (drive_external s).

Definition connection_closed : io_error := io_error_new ConnectionAborted [Lit "Connection closed"].

Section Defs.
Context {prof : Profile} `{Http} `{Httparse}.

Definition not_expected : Error.t := Error.User [Lit "Body data is not expected"].

(** The second branch of [to_send]: shared data, and chunked bodies.  [this]
    is returned as it is when the branch is left, [?] included. *)
Definition frame (data : Data) (end_ : bool) (this : t) : exec (result bytes Error.t * t) :=
  capacity ← uadd (Data.len data) (LimitWrite.overhead (limit this));
  chunk ← FastBuf.with_capacity capacity;
  d ← Data.deref data;
  '(r, l, chunk) ← LimitWrite.write d (limit this) chunk;
  let this := set_limit l this in
  match r with
  | Err e => Done (Err e, this)
  | Ok _ =>
      if end_ then
        let this := set_ended true this in
        '(r, chunk) ← LimitWrite.finish (limit this) chunk;
        match r with
        | Err e => Done (Err e, this)
        | Ok _ => v ← FastBuf.into_vec chunk; Done (Ok v, this)
        end
      else v ← FastBuf.into_vec chunk; Done (Ok v, this)
  end.

(** [to_send], with what is left of [data]. *)
Definition to_send (data : Data) (end_ : bool) (this : t) : exec (result bytes Error.t * Data * t) :=
  if Data.is_owned data && LimitWrite.can_write_entire_vec (limit this) then
    '(v, data) ← Data.take_owned data;
    l ← LimitWrite.accept_entire_vec v (limit this);
    Done (Ok v, data, set_limit l this)
  else
    '(r, this) ← frame data end_ this; Done (r, data, this).

Context {W : Type} `{World W}.

Definition send_state : Type := t * Data * W.

(** A poll function on the world. *)
Definition on_world {A} (m : io W A) : api Error.t send_state A := fun st =>
  let '(this, data, w) := st in
  '(r, w') ← api_io Error.from_io m w; Done (r, (this, data, w')).

Definition poll_send_data (cx : waker) (end_ : bool) : api Error.t send_state unit :=
  st ← api_get;
  let '(this, data, _) := st in
  if ended this && end_ && Data.is_empty data then mret tt
  else if ended this then api_err not_expected
  else
    ready ← on_world (poll_ready_chan out_chans (tx_body this) cx);
    if negb ready then api_err (Error.from_io connection_closed)
    else
      '(r, data, this) ← api_lift (to_send data end_ this);
      st ← api_get;
      api_put (this, data, st.2);;
      match r with
      | Err e => api_err e
      | Ok v =>
          sent ← on_world (send_chan out_chans (tx_body this) (v, end_));
          if negb sent then api_err (Error.from_io connection_closed) else mret tt
      end.
End Defs.

(** *** [do_send] *)

Section DoSend.
Context {prof : Profile} `{Http} `{Httparse} {W : Type} `{World W}.

(** [DriveExternal::poll_drive_external], which the server provides. *)
Context (poll_drive_external : waker -> io W unit).

Definition poll_drive_server (cx : waker) : api Error.t send_state unit :=
  st ← api_get;
  if drive_external st.1.1 then on_world (poll_drive_external cx) else mret tt.

(** The await that a suspended [do_send] resumes at. *)
Inductive send_stage := DriveBefore | SendData | DriveAfter | Flush.

(** [self.tx_body.is_empty()] *)
Definition queue_is_empty (this : t) (w : W) : bool :=
  match view out_chans w !! tx_body this with Some c => Mpsc.is_empty c | None => true end.

(** One poll of the future: on [Pending] the stage tells where it stands. *)
Fixpoint poll_do_send (fuel : nat) (cx : waker) (end_ : bool) (stage : send_stage)
    (st : send_state) : exec (poll (result unit Error.t) * send_stage * send_state) :=
  match fuel with
  | O => NoFuel
  | S fuel' =>
      let continue (m : api Error.t send_state unit) (next : send_stage) :=
        '(r, st') ← m st;
        match r with
        | Ready (Ok _) => poll_do_send fuel' cx end_ next st'
        | r => Done (r, stage, st')
        end in
      match stage with
      | DriveBefore => continue (poll_drive_server cx) SendData
      | SendData => continue (poll_send_data cx end_) DriveAfter
      | DriveAfter => continue (poll_drive_server cx) Flush
      | Flush =>
          let '(this, _, w) := st in
          if ended this && drive_external this && negb (queue_is_empty this w)
          then continue (poll_drive_server cx) Flush
          else Done (Ready (Ok tt), stage, st)
      end
  end.

(** [send_data] and [send_data_owned] only wrap the data. *)
Definition send_data (data : bytes) : Data := Shared data.
Definition send_data_owned (data : bytes) : Data := Owned data.
End DoSend.
End SendStream.

(** ** [RecvStream] *)

Module RecvStream.

Record t := mk {
  rx_body : chan_id;
  ready : option ConsumeBuf.t;
  ended : bool;
  drive_external : bool;
}.

Definition new (rx_body : chan_id) (ended drive_external : bool) : t := mk rx_body None ended drive_external.

Definition is_end_stream (s : t) : bool := ended s.

Definition set_ready (r : option ConsumeBuf.t) (s : t) : t := mk (rx_body s) r (ended s) (drive_external s).
Definition set_ended (e : bool) (s : t) : t := mk (rx_body s) (ready s) e (drive_external s).

Section Defs.
Context {prof : Profile} {W : Type} `{World W}.

(** One turn of the loop, for a buffer of [n] bytes. *)
Definition body_data_turn (cx : waker) (n : Z) (_ : unit) : io (t * W) (unit + bytes) :=
  this ← on_fst get;
  match ready this with
  | Some r =>
      d ← lift (ConsumeBuf.deref r);
      let d := ztake n d in
      r ← lift (ConsumeBuf.consume (zlen d) r);
      empty ← lift (ConsumeBuf.is_empty r);
      on_fst (modify (set_ready (if empty : bool then None else Some r)));;
      mret (inr d)
  | None =>
      v ← on_snd (poll_recv_chan in_chans (rx_body this) cx true);
      match v with
      | None => on_fst (modify (set_ended true));; mret (inr [])
      | Some v =>
          v ← io_of v;
          on_fst (modify (set_ready (Some (ConsumeBuf.new v))));;
          mret (inl tt)
      end
  end.

Definition poll_body_data (fuel : nat) (cx : waker) (n : Z) : io (t * W) bytes :=
  this ← on_fst get;
  if ended this then mret [] else iter fuel (body_data_turn cx n) tt.

Context (poll_drive_external : waker -> io W unit).

Definition poll_drive_server (cx : waker) : io (t * W) unit :=
  this ← on_fst get;
  if drive_external this then on_snd (poll_drive_external cx) else mret tt.

Definition poll_read (fuel : nat) (cx : waker) (n : Z) : io (t * W) bytes :=
  lift (assert_ (0 <? n) "poll_read with empty buf");;
  poll_drive_server cx;;
  poll_body_data fuel cx n.

(** [read], polled. *)
Definition read (fuel : nat) (cx : waker) (n : Z) : api Error.t (t * W) bytes :=
  api_io Error.from_io (poll_read fuel cx n).
End Defs.
End RecvStream.

(** ** What [to_send] puts on the channel *)

Section Framing.
Context {prof : Profile} `{Http} `{Httparse}.
Implicit Types (this : SendStream.t).

Definition data_bytes (d : Data) : bytes := match d with Shared v => v | Owned v => v | Empty => [] end.

(** Data that fits a vector together with the overhead of a chunk. *)
Definition sendable this (d : Data) : Prop :=
  d <> Empty /\ zlen (data_bytes d) + 32 <= isize_max /\ in_range (SendStream.limit this) (data_bytes d).

(** Does the owned-data shortcut apply? *)
Definition shortcut this (d : Data) : bool :=
  Data.is_owned d && LimitWrite.can_write_entire_vec (SendStream.limit this).

(** The stream once [d] was offered. *)
Definition after_send this (d : Data) (end_ : bool) : SendStream.t :=
  SendStream.set_ended (SendStream.ended this || (end_ && negb (shortcut this d)))
    (SendStream.set_limit (advanced (SendStream.limit this) (data_bytes d)) this).

Lemma overhead_range l : 0 <= LimitWrite.overhead l <= 32.
Proof. destruct l; simpl; lia. Qed.

Lemma framed_advanced l d x : framed (advanced l d) x = framed l x.
Proof. by destruct l. Qed.

Lemma closing_advanced l d : closing (advanced l d) = closing l.
Proof. by destruct l. Qed.

Lemma overhead_advanced l d : LimitWrite.overhead (advanced l d) = LimitWrite.overhead l.
Proof. by destruct l. Qed.

Lemma frame_ok this d end_ : sendable this d ->
  if refuses (SendStream.limit this) (data_bytes d)
  then exists m, SendStream.frame d end_ this = Done (Err (Error.User m),
         SendStream.set_limit (advanced (SendStream.limit this) (data_bytes d)) this)
  else SendStream.frame d end_ this = Done (
         Ok (framed (SendStream.limit this) (data_bytes d) ++
             if end_ then closing (SendStream.limit this) else []),
         SendStream.set_ended (SendStream.ended this || end_)
           (SendStream.set_limit (advanced (SendStream.limit this) (data_bytes d)) this)).
Proof.
  intros (Hd & Hlen & Hr). set (l := SendStream.limit this) in *. set (v := data_bytes d) in *.
  pose proof (overhead_range l). pose proof (zlen_nonneg v).
  assert (Hl : Data.len d = zlen v) by by destruct d.
  assert (Hv : Data.deref d = Done v) by by destruct d.
  unfold SendStream.frame. fold l. rewrite Hl, uadd_ok by (unfold isize_max, u64_max in *; lia).
  simpl. destruct (FastBuf.with_capacity_ok (zlen v + LimitWrite.overhead l)) as (out & -> & Hb & Hc);
    [lia|]. simpl. rewrite Hv. simpl.
  destruct (limit_write_ok l v out Hb Hc) as (out' & Hc' & Hw); [unfold isize_max, u64_max in *; lia|done|].
  destruct (refuses l v); [destruct Hw as (m & ->); simpl; by exists m|].
  destruct Hw as [-> Hb']. simpl. destruct end_.
  - rewrite <- (framed_advanced l v v) in Hb'.
    destruct (limit_finish_ok (advanced l v) v out' Hb') as (out2 & -> & Hb2).
    { rewrite overhead_advanced. lia. }
    { unfold isize_max, u64_max in *. lia. }
    simpl. rewrite (FastBuf.into_vec_ok _ _ Hb2). simpl.
    by rewrite framed_advanced, closing_advanced, orb_true_r.
  - rewrite (FastBuf.into_vec_ok _ _ Hb'). simpl. rewrite app_nil_r, orb_false_r. by destruct this.
Qed.

(** Every outcome of [to_send]; it never panics. *)
Lemma to_send_ok this d end_ : sendable this d ->
  exists rest, SendStream.to_send d end_ this =
    (if shortcut this d
     then Done (Ok (data_bytes d), rest, after_send this d end_)
     else '(r, this') ← SendStream.frame d end_ this; Done (r, rest, this')).
Proof.
  intros Hs. pose proof Hs as (Hd & Hlen & Hr). unfold SendStream.to_send, shortcut.
  destruct (Data.is_owned d && _) eqn:E; [|by exists d].
  apply andb_prop in E as [Ho Hcl]. destruct d as [|v|]; try done. exists Empty. simpl.
  unfold after_send, shortcut. simpl. rewrite Hcl, andb_false_r, orb_false_r. simpl in Hr.
  destruct (SendStream.limit this) as [|w|] eqn:El; try done. simpl in *. rewrite uadd_ok by done.
  simpl. by destruct this.
Qed.

(** *** A whole message *)

(** Sending some pieces and a last one, as long as nothing fails. *)
Fixpoint send_pieces (pieces : list Data) (last : Data) this : exec (result (list bytes) Error.t * SendStream.t) :=
  match pieces with
  | [] =>
      '(r, _, this) ← SendStream.to_send last true this;
      Done (match r with Ok v => Ok [v] | Err e => Err e end, this)
  | d :: pieces =>
      '(r, _, this) ← SendStream.to_send d false this;
      match r with
      | Err e => Done (Err e, this)
      | Ok v =>
          '(r, this) ← send_pieces pieces last this;
          Done (match r with Ok vs => Ok (v :: vs) | Err e => Err e end, this)
      end
  end.

(** One accepted piece, on either path. *)
Lemma to_send_accepts this d end_ v rest this' : sendable this d ->
  SendStream.to_send d end_ this = Done (Ok v, rest, this') ->
  SendStream.limit this' = advanced (SendStream.limit this) (data_bytes d) /\
  v = framed (SendStream.limit this) (data_bytes d) ++
      (if end_ then closing (SendStream.limit this) else []).
Proof.
  intros Hs Hrun. destruct (to_send_ok this d end_ Hs) as (rest' & E). rewrite E in Hrun.
  destruct (shortcut this d) eqn:Hsc.
  - injection Hrun as <- _ <-. split; [done|]. unfold shortcut in Hsc.
    apply andb_prop in Hsc as [_ Hcl]. destruct (SendStream.limit this); try done. simpl.
    destruct end_; by rewrite app_nil_r.
  - pose proof (frame_ok this d end_ Hs) as Hf. destruct (refuses _ _); [destruct Hf as (m & Hf)|];
      rewrite Hf in Hrun; simpl in Hrun; [done|]. injection Hrun as <- _ <-. done.
Qed.

Definition all_bytes_of (pieces : list Data) (last : Data) : bytes :=
  concat (data_bytes <$> pieces) ++ data_bytes last.

Lemma in_range_more l d x : in_range l (d ++ x) -> in_range l d /\ in_range (advanced l d) x.
Proof. destruct l as [|w|]; simpl; [done| |done]. rewrite zlen_app. zlen_facts. lia. Qed.

Lemma send_pieces_ok pieces last this msgs this' :
  Forall (fun d => d <> Empty /\ zlen (data_bytes d) + 32 <= isize_max) (pieces ++ [last]) ->
  in_range (SendStream.limit this) (all_bytes_of pieces last) ->
  send_pieces pieces last this = Done (Ok msgs, this') ->
  concat msgs = match SendStream.limit this with
                | LimitWrite.ChunkedEncoder => Coding.coded_body (data_bytes <$> (pieces ++ [last]))
                | LimitWrite.ContentLength _ => all_bytes_of pieces last
                | LimitWrite.NoBody => []
                end /\
  SendStream.limit this' = advanced (SendStream.limit this) (all_bytes_of pieces last).
Proof.
  unfold all_bytes_of. revert this msgs. induction pieces as [|d pieces IH]; intros this msgs Hall Hr Hrun.
  - apply Forall_singleton in Hall as [Hne Hlen]. simpl in *.
    destruct (SendStream.to_send last true this) as [[[r rest] this1]| |] eqn:E; try done. simpl in Hrun.
    destruct r as [v|e]; [|done]. injection Hrun as <- <-.
    apply to_send_accepts in E as [Hl ->]; [|by split]. split; [|done]. simpl. rewrite app_nil_r.
    destruct (SendStream.limit this); simpl; rewrite ?app_nil_r; try done.
    unfold Coding.coded_body. simpl. by rewrite app_nil_r.
  - simpl in Hall. apply Forall_cons_1 in Hall as [[Hne Hlen] Hall]. simpl in Hr, Hrun.
    rewrite <- app_assoc in Hr. apply in_range_more in Hr as [Hr1 Hr2].
    destruct (SendStream.to_send d false this) as [[[r rest] this1]| |] eqn:E; try done. simpl in Hrun.
    destruct r as [v|e]; [|done]. apply to_send_accepts in E as [Hl ->]; [|by split].
    destruct (send_pieces pieces last this1) as [[r2 this2]| |] eqn:E2; try done. simpl in Hrun.
    destruct r2 as [vs|e2]; [|done]. injection Hrun as <- <-.
    apply IH in E2 as [Hc Hl2]; [|done|by rewrite Hl]. rewrite Hl in Hc, Hl2. cbn [concat]. rewrite Hc, Hl2.
    simpl. rewrite app_nil_r, <- app_assoc. split.
    + destruct (SendStream.limit this); simpl; try done.
      unfold Coding.coded_body. simpl. by rewrite app_assoc.
    + destruct (SendStream.limit this); simpl; try done. by rewrite (zlen_app (data_bytes d)), Z.add_assoc.
Qed.
End Framing.

(** ** Properties of [SendStream] *)

Section SendProperties.
Context {prof : Profile} `{Http} `{Httparse}.
Implicit Types (this : SendStream.t).

(** C23. A message survives the trip: whatever its headers, the pieces a
    [SendStream] puts on its channel, one after the other, are a stream of
    which a receiver that looks at the same headers is owed exactly the data
    that was sent, and nothing of what follows on the connection; a body that
    the headers do not announce is sent as nothing.  After a chunked body the
    line end and the empty line of the coding are left over. *)
Theorem message_roundtrip headers pieces last this msgs this' tail :
  SendStream.limit this = LimitWrite.from_headers headers ->
  Forall (fun d => d <> Empty /\ zlen (data_bytes d) < Coding.max_chunk) (pieces ++ [last]) ->
  zlen (all_bytes_of pieces last) <= u64_max ->
  (forall w, LimitWrite.from_headers headers = LimitWrite.ContentLength w ->
     zlen (all_bytes_of pieces last) = ContentLengthWrite.limit w) ->
  send_pieces pieces last this = Done (Ok msgs, this') ->
  match LimitWrite.from_headers headers with
  | LimitWrite.ChunkedEncoder =>
      owes (LimitRead.from_headers headers false) (concat msgs ++ tail)
        (all_bytes_of pieces last) (LF :: CR :: LF :: tail)
  | LimitWrite.ContentLength _ =>
      owes (LimitRead.from_headers headers false) (concat msgs ++ tail)
        (all_bytes_of pieces last) tail
  | LimitWrite.NoBody => owes (LimitRead.from_headers headers false) (concat msgs ++ tail) [] tail
  end.
Proof.
  intros Hl Hall Hmax Hcl Hrun.
  assert (Hall' : Forall (fun d => d <> Empty /\ zlen (data_bytes d) + 32 <= isize_max) (pieces ++ [last])).
  { eapply Forall_impl; [|exact Hall]. intros d [? ?]. split; [done|].
    unfold Coding.max_chunk, isize_max in *. lia. }
  assert (Hchunks : Forall (fun c => zlen c < Coding.max_chunk) (data_bytes <$> (pieces ++ [last]))).
  { rewrite Forall_fmap. eapply Forall_impl; [|exact Hall]. by intros d [_ ?]. }
  assert (Hbody : concat (data_bytes <$> (pieces ++ [last])) = all_bytes_of pieces last).
  { unfold all_bytes_of. rewrite fmap_app, concat_app. simpl. by rewrite app_nil_r. }
  pose proof (zlen_nonneg (all_bytes_of pieces last)).
  apply send_pieces_ok in Hrun as [Hc _]; [|done|].
  - rewrite Hl in Hc. unfold LimitWrite.from_headers, LimitRead.from_headers in *.
    destruct (is_chunked headers); [|destruct (get_as headers "content-length") as [n|]].
    + destruct (Coding.reached_body ChunkedDecoder.new _ ltac:(done) Hchunks) as (e & Hr & He).
      rewrite Hbody in Hr. split; [by intros [|]|]. eexists _, e. split; [exact Hr|]. split; [done|].
      rewrite Hc. unfold Coding.coded_body. by rewrite <- !app_assoc.
    + rewrite Hc. specialize (Hcl _ eq_refl). simpl in *. split_and!; lia || done.
    + by rewrite Hc.
  - rewrite Hl. unfold LimitWrite.from_headers.
    destruct (is_chunked headers); [done|]. by destruct (get_as headers "content-length").
Qed.

(** Attempts to send shared data, going on after refusals: the vectors that
    were handed over, and the stream. *)
Fixpoint attempts (l : list (bytes * bool)) this : exec (list bytes * SendStream.t) :=
  match l with
  | [] => Done ([], this)
  | (d, end_) :: l =>
      '(r, _, this) ← SendStream.to_send (Shared d) end_ this;
      '(vs, this) ← attempts l this;
      Done (match r with Ok v => v :: vs | Err _ => vs end, this)
  end.

(** C28. A content length is a promise that shared data cannot break: whatever
    is offered, in whatever pieces and however often after a refusal, the
    bytes handed to the connection never exceed the limit; a piece that would
    is refused whole with a user error; and nothing panics. *)
Theorem content_length_never_exceeded l limit this :
  SendStream.limit this = LimitWrite.ContentLength (ContentLengthWrite.new limit) -> 0 <= limit ->
  Forall (fun p : bytes * bool => zlen p.1 + 32 <= isize_max) l ->
  zlen (concat (fst <$> l)) <= u64_max ->
  exists vs this', attempts l this = Done (vs, this') /\ zlen (concat vs) <= limit.
Proof.
  intros Hl Hlim Hall Hmax.
  enough (Hgen : forall total sent, sent <= total -> sent <= limit -> 0 <= total ->
    SendStream.limit this = LimitWrite.ContentLength (ContentLengthWrite.mk limit total) ->
    total + zlen (concat (fst <$> l)) <= u64_max ->
    exists vs this', attempts l this = Done (vs, this') /\ sent + zlen (concat vs) <= limit).
  { destruct (Hgen 0 0) as (vs & this' & ? & ?); try lia; [done|]. exists vs, this'. split; [done|lia]. }
  clear Hl Hmax. revert this. induction Hall as [|[d end_] l Hd Hall IH]; intros this total sent Hst Hsl Ht Hl Hmax.
  - exists [], this. split; [done|]. change (zlen (concat [])) with 0. lia.
  - rewrite fmap_cons in Hmax. cbn [fst concat] in Hd, Hmax. rewrite zlen_app in Hmax.
    pose proof (zlen_nonneg d).
    pose proof (zlen_nonneg (concat (fst <$> l))).
    assert (Hs : sendable this (Shared d)).
    { split; [done|]. split; [done|]. rewrite Hl. simpl. lia. }
    pose proof (frame_ok this (Shared d) end_ Hs) as Hf. simpl in Hf. rewrite Hl in Hf. simpl in Hf.
    assert (Hnil : d = [] -> zlen d = 0) by (intros ->; done).
    cbn [attempts]. unfold SendStream.to_send. cbn [Data.is_owned andb].
    destruct (negb (zlen d =? 0) && (limit <? total + zlen d)) eqn:Href.
    + destruct Hf as (m & ->). cbn [mbind exec_bind].
      destruct (IH (SendStream.set_limit (LimitWrite.ContentLength
        (ContentLengthWrite.mk limit (total + zlen d))) this) (total + zlen d) sent)
        as (vs & this' & -> & Hv); try lia; [done|]. by exists vs, this'.
    + rewrite Hf. cbn [mbind exec_bind].
      destruct (IH (SendStream.set_ended (SendStream.ended this || end_) (SendStream.set_limit
        (LimitWrite.ContentLength (ContentLengthWrite.mk limit (total + zlen d))) this))
        (total + zlen d) (sent + zlen d)) as (vs & this' & -> & Hv); try lia; [done|].
      eexists _, this'. split; [done|]. destruct end_; rewrite app_nil_r; cbn [concat]; rewrite zlen_app; lia.
Qed.

(** Owned data is not checked against the content length: it is handed
    over whole however far it exceeds the limit, and the flag that it was the
    last piece does not end the stream, so that more data is accepted after
    the end; the documentation promises a user error for both. *)
Theorem owned_data_unchecked v end_ this w :
  SendStream.limit this = LimitWrite.ContentLength w ->
  zlen v + 32 <= isize_max -> ContentLengthWrite.total w + zlen v <= u64_max ->
  exists this', SendStream.to_send (Owned v) end_ this = Done (Ok v, Empty, this') /\
    SendStream.ended this' = SendStream.ended this /\
    SendStream.limit this' = LimitWrite.ContentLength
      (ContentLengthWrite.mk (ContentLengthWrite.limit w) (ContentLengthWrite.total w + zlen v)).
Proof.
  intros Hl Hlen Hr. unfold SendStream.to_send. rewrite Hl. simpl. rewrite uadd_ok by done. simpl.
  eexists. split; [done|]. by split.
Qed.
End SendProperties.

(** ** Streams in a world *)

(** What a store must satisfy: the two sets of channels are separate fields,
    and waking tasks does not touch them. *)
Class WorldLaws (W : Type) `{World W} := {
  out_put : forall x (w : W), view out_chans (put out_chans x w) = x;
  in_put : forall x (w : W), view in_chans (put in_chans x w) = x;
  out_wake : forall l (w : W), view out_chans (wake l w) = view out_chans w;
  in_wake : forall l (w : W), view in_chans (wake l w) = view in_chans w;
}.

Section WorldLemmas.
Context {W : Type} `{WorldLaws W}.

Lemma on_chan_in {A} id op w (c c' : Mpsc.t (io_result bytes)) (a : A) woken :
  view in_chans w !! id = Some c -> op c = (a, c', woken) ->
  exists w', on_chan in_chans id op w = Done (a, w') /\ view in_chans w' = <[id := c']> (view in_chans w).
Proof.
  intros Hc Hop. unfold on_chan. rewrite Hc, Hop. eexists. split; [done|].
  by rewrite in_wake, in_put.
Qed.

Lemma on_chan_out {A} id op w (c c' : Mpsc.t (bytes * bool)) (a : A) woken :
  view out_chans w !! id = Some c -> op c = (a, c', woken) ->
  exists w', on_chan out_chans id op w = Done (a, w') /\ view out_chans w' = <[id := c']> (view out_chans w).
Proof.
  intros Hc Hop. unfold on_chan. rewrite Hc, Hop. eexists. split; [done|].
  by rewrite out_wake, out_put.
Qed.
End WorldLemmas.

Section RecvProperties.
Context {prof : Profile} {W : Type} `{WorldLaws W}.
Implicit Types (this : RecvStream.t) (w : W) (c : Mpsc.t (io_result bytes)).

(** The bytes ahead of the first error in a queue. *)
Fixpoint ok_bytes (q : list (io_result bytes)) : bytes :=
  match q with Ok v :: q => v ++ ok_bytes q | _ => [] end.

(** What a [RecvStream] holds: the rest of the vector it is at, and the queue. *)
Definition held this c : bytes :=
  match RecvStream.ready this with Some r => ConsumeBuf.left r | None => [] end ++
  ok_bytes (Inner.queue (Mpsc.inner c)).

(** Vectors on the channel are not empty, and not longer than a vector. *)
Definition recv_wf this c : Prop :=
  (match RecvStream.ready this with
   | Some r => ConsumeBuf.wf r /\ ConsumeBuf.left r <> []
   | None => True
   end) /\
  Forall (fun v => match v with Ok v => v <> [] /\ zlen v <= isize_max | Err _ => True end)
    (Inner.queue (Mpsc.inner c)).

Definition body_data n this c (r : poll (io_result bytes)) this' c' : Prop :=
  recv_wf this' c' /\ RecvStream.rx_body this' = RecvStream.rx_body this /\
  match r with
  | Ready (Ok d) => zlen d <= n /\ held this c = d ++ held this' c' /\
      (d = [] -> RecvStream.ended this' = true /\ Inner.queue (Mpsc.inner c) = [] /\
                 RecvStream.ready this = None /\ Mpsc.senders c = 0%nat)
  | Ready (Err e) => held this c = [] /\ exists q, Inner.queue (Mpsc.inner c) = Err e :: q
  | Pending => this' = this /\ held this c = [] /\ Mpsc.senders c <> 0%nat
  end.

Lemma ready_turn_wp cx n this w c r : RecvStream.ready this = Some r -> recv_wf this c -> 0 < n ->
  wp (RecvStream.body_data_turn cx n tt) (this, w) (fun res st =>
    st.2 = w /\ exists d, res = Ready (Ok (inr d)) /\ d <> [] /\ body_data n this c (Ready (Ok d)) st.1 c).
Proof.
  intros Hr [Hwf Hq] Hn. rewrite Hr in Hwf. destruct Hwf as [Hcb Hne].
  unfold RecvStream.body_data_turn. wp_steps. rewrite Hr.
  wp_steps. rewrite (ConsumeBuf.cb_deref_ok r Hcb). wp_steps.
  set (d := ztake n (ConsumeBuf.left r)).
  assert (Hd : zlen d = n `min` zlen (ConsumeBuf.left r)) by (unfold d; apply zlen_ztake; lia).
  assert (Hlen : zlen (ConsumeBuf.left r) <> 0) by by rewrite zlen_zero.
  pose proof (zlen_nonneg (ConsumeBuf.left r)).
  destruct (ConsumeBuf.cb_consume_ok r (zlen d) Hcb) as (r' & E & Hcb' & Hl'); [lia|].
  rewrite E. wp_steps. rewrite (ConsumeBuf.is_empty_ok r' Hcb'). wp_steps. split; [done|].
  assert (Hsplit : ConsumeBuf.left r = d ++ ConsumeBuf.left r').
  { rewrite Hl'. symmetry. apply ztake_zdrop_len. lia. }
  assert (Hdne : d <> []) by (rewrite <- zlen_zero; lia).
  exists d. split; [done|]. split; [done|]. split; [|split; [done|split; [lia|split; [|done]]]].
  - split; [|done]. simpl. by case_bool_decide.
  - unfold held. rewrite Hr. simpl. rewrite Hsplit, <- app_assoc. f_equal. f_equal.
    case_bool_decide as Hnil; [|done]. by rewrite Hnil.
Qed.

(** A poll of the channel, and what follows. *)
Lemma recv_turn_wp cx n this w c (Q : poll (io_result (unit + bytes)) -> RecvStream.t * W -> Prop) :
  RecvStream.ready this = None -> view in_chans w !! RecvStream.rx_body this = Some c -> recv_wf this c ->
  (forall w' v q c', view in_chans w' = <[RecvStream.rx_body this := c']> (view in_chans w) ->
     Inner.queue (Mpsc.inner c) = Ok v :: q -> Inner.queue (Mpsc.inner c') = q ->
     Q (Ready (Ok (inl tt))) (RecvStream.set_ready (Some (ConsumeBuf.new v)) this, w')) ->
  (forall r this' w' c', view in_chans w' = <[RecvStream.rx_body this := c']> (view in_chans w) ->
     body_data n this c r this' c' -> 0 < n ->
     Q match r with
       | Ready (Ok d) => Ready (Ok (inr d)) | Ready (Err e) => Ready (Err e) | Pending => Pending
       end (this', w')) ->
  0 < n -> wp (RecvStream.body_data_turn cx n tt) (this, w) Q.
Proof.
  intros Hr Hc [_ Hq] Qmore Qdone Hn. unfold RecvStream.body_data_turn. wp_steps. rewrite Hr. wp_steps.
  unfold wp, poll_recv_chan. simpl.
  destruct (Mpsc.poll_recv cx true c) as [[r c'] woken] eqn:E.
  destruct (on_chan_in _ (Mpsc.poll_recv cx true) w c c' r woken Hc E) as (w' & -> & Hw'). simpl.
  assert (Hheld : Inner.queue (Mpsc.inner c) = [] -> held this c = [])
    by (intros Eq; unfold held; by rewrite Hr, Eq).
  unfold Mpsc.poll_recv, Inner.poll_dequeue in E.
  destruct (Inner.queue (Mpsc.inner c)) as [|[v|e] q] eqn:Eq; simpl in E; injection E as <- <- _.
  - destruct (decide (Mpsc.senders c = 0%nat)) as [Hs|Hs]; simpl.
    + apply (Qdone (Ready (Ok [])) _ w' _ Hw'); [|done]. split; [split; simpl; rewrite ?Hr, ?Eq; done|].
      split; [done|]. split; [change (zlen (@nil byte)) with 0; lia|]. split; [|auto].
      unfold held at 2. simpl. rewrite Hr, Eq. by apply Hheld.
    + apply (Qdone Pending _ w' _ Hw'); [|done]. split; [split; simpl; rewrite ?Hr, ?Eq; done|]. auto.
  - by apply (Qmore w' v q _ Hw').
  - apply (Qdone (Ready (Err e)) _ w' _ Hw'); [|done]. apply Forall_cons_1 in Hq as [_ Hq].
    split; [split; simpl; rewrite ?Hr; done|]. split; [done|]. unfold held. rewrite Hr, Eq. eauto.
Qed.

(** C25. A [RecvStream] delivers the body in order: the bytes a poll hands out
    are the next of those it holds and no more than asked for; it is [Pending]
    only when it holds nothing while the connection may still send, reports
    the end only once everything was delivered and the sending side is gone,
    and an error of the connection only after all bytes ahead of it.  The poll
    always ends, without panicking. *)
Theorem recv_stream_in_order fuel cx n this w c :
  RecvStream.ended this = false -> view in_chans w !! RecvStream.rx_body this = Some c ->
  recv_wf this c -> 0 < n -> (1 < fuel)%nat ->
  wp (RecvStream.poll_body_data fuel cx n) (this, w) (fun r st =>
    exists c', view in_chans st.2 !! RecvStream.rx_body this = Some c' /\
      recv_wf st.1 c' /\ RecvStream.rx_body st.1 = RecvStream.rx_body this /\
      match r with
      | Ready (Ok d) => zlen d <= n /\ held this c = d ++ held st.1 c' /\
          (d = [] -> RecvStream.ended st.1 = true /\ Inner.queue (Mpsc.inner c) = [] /\
                     RecvStream.ready this = None /\ Mpsc.senders c = 0%nat)
      | Ready (Err e) => held this c = [] /\ exists q, Inner.queue (Mpsc.inner c) = Err e :: q
      | Pending => st.1 = this /\ held this c = [] /\ Mpsc.senders c <> 0%nat
      end).
Proof.
  intros He Hc Hwf Hn Hfuel. unfold RecvStream.poll_body_data. wp_steps. rewrite He.
  destruct fuel as [|[|fuel]]; [lia|lia|]. cbn [iter]. apply wp_bind.
  destruct (RecvStream.ready this) as [r|] eqn:Hr.
  { eapply wp_mono; [by eapply ready_turn_wp|].
    intros res [this' w'] (Hw' & d & -> & Hne & Hb & Hrx & Hd). cbn [fst snd] in *. subst w'.
    wp_steps. exists c. destruct Hd as (? & ? & _). split_and!; done. }
  apply (recv_turn_wp cx n this w c); [done|done|done| | |done].
  - intros w' v q c' Hw' Hq Hq'. cbn [early]. destruct Hwf as [_ Hall]. rewrite Hq in Hall.
    apply Forall_cons_1 in Hall as [[Hv Hmax] Hall]. set (this1 := RecvStream.set_ready _ this).
    assert (Hleft : ConsumeBuf.left (ConsumeBuf.new v) = v) by (unfold ConsumeBuf.left; by rewrite zdrop_0).
    assert (Hwf1 : recv_wf this1 c').
    { split; simpl; [|by rewrite Hq']. split; [by apply ConsumeBuf.new_wf|]. by rewrite Hleft. }
    assert (Hheld : held this c = held this1 c').
    { unfold held. simpl. rewrite Hr, Hq, Hq', Hleft. done. }
    apply wp_bind. eapply wp_mono; [apply (ready_turn_wp cx n this1 w' c' (ConsumeBuf.new v)); done|].
    intros res [this' w2] (Hw2 & d & -> & Hne & Hb & Hrx & Hd). cbn [fst snd] in *. subst w2.
    wp_steps. exists c'. rewrite Hw', lookup_insert_eq. rewrite Hheld.
    destruct Hd as (? & ? & _). split_and!; done.
  - intros r this' w' c' Hw' (Hb & Hrx & Hd) _.
    destruct r as [|[d|e]]; rewrite ?Hr in Hd; cbn [early]; wp_steps; exists c';
      rewrite Hw', lookup_insert_eq; split_and!; first [done | apply Hd].
Qed.
End RecvProperties.

Section SendPoll.
Context {prof : Profile} `{Http} `{Httparse} {W : Type} `{WorldLaws W}.
Implicit Types (this : SendStream.t) (w : W) (c : Mpsc.t (bytes * bool)).

(** The queue once the vector [v] was sent; a closed one swallows it. *)
Definition pushed c (v : bytes * bool) : list (bytes * bool) :=
  if Inner.ended (Mpsc.inner c) then Inner.queue (Mpsc.inner c) else Inner.queue (Mpsc.inner c) ++ [v].

Definition is_full c : bool :=
  negb (Inner.ended (Mpsc.inner c)) &&
  (Inner.bound (Mpsc.inner c) <=? Z.of_nat (length (Inner.queue (Mpsc.inner c)))).

(** C26. One poll of a send, on every branch: after the end only the empty last
    piece is accepted, as a no-op; a connection that is gone is
    [ConnectionAborted]; a full channel is [Pending] with the task registered
    and the data untouched; otherwise the data is framed, and either refused
    with the user error, or put on the channel as one message, exactly once. *)
Theorem poll_send_data_cases cx end_ this d w c :
  view out_chans w !! SendStream.tx_body this = Some c -> sendable this d ->
  exists r this' rest w' c',
    SendStream.poll_send_data cx end_ (this, d, w) = Done (r, (this', rest, w')) /\
    view out_chans w' !! SendStream.tx_body this = Some c' /\
    if SendStream.ended this then
      this' = this /\ rest = d /\ w' = w /\
      r = (if end_ && Data.is_empty d then Ready (Ok tt) else Ready (Err SendStream.not_expected))
    else if decide (Mpsc.receivers c = 0%nat) then
      this' = this /\ rest = d /\ c' = c /\
      r = Ready (Err (Error.Io (io_error_new ConnectionAborted [Lit "Connection closed"])))
    else if is_full c then
      this' = this /\ rest = d /\ r = Pending /\
      Inner.queue (Mpsc.inner c') = Inner.queue (Mpsc.inner c) /\ cx ∈ Inner.wakers (Mpsc.inner c')
    else match SendStream.to_send d end_ this with
    | Done (Ok v, rest2, this2) =>
        this' = this2 /\ rest = rest2 /\ r = Ready (Ok tt) /\
        Inner.queue (Mpsc.inner c') = pushed c (v, end_)
    | Done (Err e, rest2, this2) =>
        this' = this2 /\ rest = rest2 /\ r = Ready (Err e) /\
        Inner.queue (Mpsc.inner c') = Inner.queue (Mpsc.inner c)
    | _ => False
    end.
Proof.
  intros Hc Hs. unfold SendStream.poll_send_data, mbind, api_bind, api_get.
  destruct (SendStream.ended this) eqn:He; cbn [andb].
  { destruct (end_ && Data.is_empty d) eqn:Hn; cbn [andb]; rewrite ?Hn;
      (eexists _, this, d, w, c; split; [done|]; by split_and!). }
  unfold SendStream.on_world at 1, api_io, poll_ready_chan.
  destruct (Mpsc.poll_ready cx true c) as [r c1] eqn:E.
  destruct (on_chan_out (SendStream.tx_body this) (fun c => let '(r, c') := Mpsc.poll_ready cx true c in
    (r, c', [])) w c c1 r [] Hc) as (w1 & -> & Hw1); [by rewrite E|]. simpl.
  assert (Hc1 : view out_chans w1 !! SendStream.tx_body this = Some c1)
    by (rewrite Hw1; apply lookup_insert_eq).
  unfold Mpsc.poll_ready, Mpsc.upgrade in E. destruct (decide (Mpsc.receivers c = 0%nat)) as [Hz|Hz].
  { injection E as <- <-. simpl. eexists _, this, d, w1, c. by split_and!. }
  unfold Inner.poll_ready in E. unfold is_full. destruct (negb _ && _); injection E as <- <-; simpl.
  { eexists _, this, d, w1, _. split; [done|]. split; [exact Hc1|]. split_and!; try done.
    simpl. rewrite elem_of_app, list_elem_of_singleton. auto. }
  replace (Mpsc.set_inner (Mpsc.inner c) c) with c in Hc1 by by destruct c.
  assert (Hto : exists r rest this2, SendStream.to_send d end_ this = Done (r, rest, this2) /\
    SendStream.tx_body this2 = SendStream.tx_body this).
  { destruct (to_send_ok this d end_ Hs) as (rest & ->). destruct (shortcut this d); [eauto|].
    pose proof (frame_ok this d end_ Hs) as Hf.
    destruct (refuses _ _); [destruct Hf as (m & ->)|rewrite Hf]; simpl; eauto. }
  destruct Hto as (r & rest & this2 & -> & Htx). unfold api_lift, api_put. simpl.
  destruct r as [v|e]; simpl.
  - unfold SendStream.on_world, api_io, send_chan. rewrite Htx.
    destruct (Mpsc.send (v, end_) c) as [[sent c2] woken] eqn:E.
    destruct (on_chan_out _ (Mpsc.send (v, end_)) w1 c c2 sent woken Hc1 E) as (w2 & -> & Hw2). simpl.
    unfold Mpsc.send, Mpsc.upgrade, Inner.enqueue in E. rewrite decide_False in E by done.
    injection E as <- <- _. simpl. eexists _, this2, rest, w2, _. split; [done|].
    rewrite Hw2. split; [apply lookup_insert_eq|]. split_and!; try done.
    unfold pushed. by destruct (Inner.ended (Mpsc.inner c)).
  - eexists _, this2, rest, w1, _. split; [done|]. split; [exact Hc1|]. by split_and!.
Qed.
End SendPoll.

(** *** Witnesses *)

Module ShareExample.

Record store := mk {
  outs : gmap chan_id (Mpsc.t (bytes * bool));
  ins : gmap chan_id (Mpsc.t (io_result bytes));
  woken : list waker;
}.

#[global] Instance store_world : World store := {|
  out_chans := {| view := outs; put x w := mk x (ins w) (woken w) |};
  in_chans := {| view := ins; put x w := mk (outs w) x (woken w) |};
  wake l w := mk (outs w) (ins w) (woken w ++ l);
|}.

#[global] Instance store_laws : WorldLaws store.
Proof. by split. Qed.

(** A chunked message in two pieces. *)
Definition headers : HeaderMap (Http := Plain.plain_http) := [(bs "transfer-encoding", bs "chunked")].
Definition stream : SendStream.t := SendStream.new 0%nat (LimitWrite.from_headers headers) false false.
Definition pieces : list Data := [Owned (bs "Hello, ")].
Definition last : Data := Shared (bs "world!").
Definition msgs : list bytes := [Coding.coded (bs "Hello, "); Coding.coded (bs "world!") ++ ChunkedEncoder.END].

Definition limited : SendStream.t :=
  SendStream.new 0%nat (LimitWrite.ContentLength (ContentLengthWrite.new 5)) false false.

(** A channel to the connection, and one with two vectors from it. *)
Definition out_chan : Mpsc.t (bytes * bool) := Mpsc.new 1.
Definition in_chan : Mpsc.t (io_result bytes) :=
  Mpsc.mk (Inner.mk [Ok (bs "abc"); Ok (bs "d")] false 1 []) 1 1.
Definition world : store := mk {[0%nat := out_chan]} {[0%nat := in_chan]} [].
Definition receiver : RecvStream.t := RecvStream.new 0%nat false false.
End ShareExample.

Lemma message_roundtrip_witness :
  owes (LimitRead.from_headers ShareExample.headers false) (concat ShareExample.msgs ++ bs "GET")
    (bs "Hello, world!") (LF :: CR :: LF :: bs "GET").
Proof.
  apply (message_roundtrip (prof := dev) (H := Plain.plain_http) (H0 := Plain.plain_httparse)
    ShareExample.headers ShareExample.pieces ShareExample.last ShareExample.stream ShareExample.msgs
    (SendStream.set_ended true ShareExample.stream) (bs "GET")).
  - reflexivity.
  - repeat constructor; discriminate.
  - discriminate.
  - intros w E. vm_compute in E. discriminate.
  - reflexivity.
Defined.

Lemma content_length_never_exceeded_witness :
  exists vs this', attempts (prof := dev) (H := Plain.plain_http) (H0 := Plain.plain_httparse)
    [(bs "abc", false); (bs "def", false); (bs "d", true)] ShareExample.limited = Done (vs, this') /\
    zlen (concat vs) <= 5.
Proof.
  apply (content_length_never_exceeded (prof := dev) (H := Plain.plain_http) (H0 := Plain.plain_httparse)
    [(bs "abc", false); (bs "def", false); (bs "d", true)] 5 ShareExample.limited).
  - reflexivity.
  - discriminate.
  - repeat constructor; discriminate.
  - discriminate.
Defined.

Lemma owned_data_unchecked_witness :
  exists this', SendStream.to_send (prof := dev) (H := Plain.plain_http) (H0 := Plain.plain_httparse)
      (Owned (bs "too long")) true ShareExample.limited = Done (Ok (bs "too long"), Empty, this') /\
    SendStream.ended this' = false /\
    SendStream.limit this' = LimitWrite.ContentLength (ContentLengthWrite.mk 5 8).
Proof.
  apply (owned_data_unchecked (prof := dev) (H := Plain.plain_http) (H0 := Plain.plain_httparse)
    (bs "too long") true ShareExample.limited (ContentLengthWrite.new 5)).
  - reflexivity.
  - discriminate.
  - discriminate.
Defined.

Lemma recv_stream_in_order_witness :
  wp (RecvStream.poll_body_data (prof := dev) 2 7%nat 2) (ShareExample.receiver, ShareExample.world) (fun r st =>
    exists c', view in_chans st.2 !! 0%nat = Some c' /\
      recv_wf st.1 c' /\ RecvStream.rx_body st.1 = 0%nat /\
      match r with
      | Ready (Ok d) => zlen d <= 2 /\ bs "abcd" = d ++ held st.1 c' /\
          (d = [] -> RecvStream.ended st.1 = true /\ Inner.queue (Mpsc.inner ShareExample.in_chan) = [] /\
                     (None : option ConsumeBuf.t) = None /\ 1%nat = 0%nat)
      | Ready (Err e) => bs "abcd" = [] /\ exists q, Inner.queue (Mpsc.inner ShareExample.in_chan) = Err e :: q
      | Pending => st.1 = ShareExample.receiver /\ bs "abcd" = [] /\ 1%nat <> 0%nat
      end).
Proof.
  apply (recv_stream_in_order (prof := dev) 2 7%nat 2 ShareExample.receiver ShareExample.world
    ShareExample.in_chan).
  - reflexivity.
  - reflexivity.
  - split; [exact I|]. repeat constructor; discriminate.
  - reflexivity.
  - lia.
Defined.

Lemma poll_send_data_cases_witness :
  exists r this' rest w' c',
    SendStream.poll_send_data (prof := dev) (H := Plain.plain_http) (H0 := Plain.plain_httparse)
      7%nat true (ShareExample.stream, ShareExample.last, ShareExample.world) = Done (r, (this', rest, w')) /\
    view out_chans w' !! 0%nat = Some c' /\
    this' = SendStream.set_ended true ShareExample.stream /\ rest = ShareExample.last /\ r = Ready (Ok tt) /\
    Inner.queue (Mpsc.inner c') = [(Coding.coded (bs "world!") ++ ChunkedEncoder.END, true)].
Proof.
  apply (poll_send_data_cases (prof := dev) (H := Plain.plain_http) (H0 := Plain.plain_httparse)
    7%nat true ShareExample.stream ShareExample.last ShareExample.world ShareExample.out_chan).
  - reflexivity.
  - split; [discriminate|]. split; [discriminate | exact I].
Defined.
