(* ===== verification/Accounts.v ===== *)
(** * What was put on a channel, and what was taken from it

    Two sides share a channel: one gives, the other draws from the front, or
    drops the receiver and with it what is left.  However their turns
    interleave, what was given is what was drawn and what the channel still
    holds ([account]).  The specifications of the two connections use it for
    the pieces of bodies and for the answers of a server, which the user gives
    and the connection draws. *)

From S2P Require Import Prelude.
From S2P Require Import Async.
From S2P Require Import Mpsc.

Section Accounts.
Context {T : Type}.
Implicit Types (c : Mpsc.t T) (o : option (Mpsc.t T)) (said got : list T).

(** What a channel holds, if there is one. *)
Definition held o : list T := from_option queue_of [] o.

(** What a turn put at its end. *)
Definition put_in o o' : list T := drop (length (held o)) (held o').

(** A turn of the side that gives.  A call that fails may take the receiver
    of its channel with it; without a receiver nothing is put. *)
Definition gives o o' : Prop :=
  match o with
  | None => True
  | Some c => exists c', o' = Some c' /\
      (queue_of c `prefix_of` queue_of c' \/ queue_of c' = [] /\ Mpsc.receivers c' = 0%nat) /\
      (Mpsc.receivers c = 0%nat -> Mpsc.receivers c' = 0%nat /\ queue_of c' `prefix_of` queue_of c)
  end.

(** A turn of the side that draws, which took [l]. *)
Definition drawn (l : list T) o o' : Prop :=
  match o with
  | None => l = [] /\ held o' = []
  | Some c => exists c', o' = Some c' /\ (Mpsc.receivers c = 0%nat -> Mpsc.receivers c' = 0%nat) /\
      exists q, queue_of c = l ++ q /\ (queue_of c' = q \/ queue_of c' = [] /\ Mpsc.receivers c' = 0%nat)
  end.

(** [said] was given, [got] was drawn. *)
Definition account said got o : Prop :=
  match o with
  | None => said = [] /\ got = []
  | Some c => said = got ++ queue_of c \/ (Mpsc.receivers c = 0%nat /\ queue_of c = [] /\ got `prefix_of` said)
  end.

Lemma gives_refl o : gives o o.
Proof. destruct o as [c|]; simpl; eauto 6. Qed.

Lemma gives_trans o1 o2 o3 : gives o1 o2 -> gives o2 o3 -> gives o1 o3.
Proof.
  destruct o1 as [c1|]; [|done]. intros (c2 & -> & H12 & R12) (c3 & -> & H23 & R23). exists c3. split; [done|]. split.
  - destruct H12 as [H12|[Hq Hr]].
    + destruct H23 as [H23|H23]; [left; by etransitivity|by right].
    + destruct (R23 Hr) as [Hr3 Hq3]. right. split; [|done]. rewrite Hq in Hq3. by apply prefix_nil_inv in Hq3.
  - intros Hr. destruct (R12 Hr) as [Hr2 Hq2], (R23 Hr2) as [Hr3 Hq3]. split; [done|]. by etransitivity.
Qed.

#[export] Instance gives_preorder : PreOrder gives.
Proof. split; [intros o; apply gives_refl|intros o1 o2 o3; apply gives_trans]. Qed.

Lemma gives_push v c : gives (Some c) (Some (push v c)).
Proof.
  exists (push v c). split; [done|]. unfold push. case_decide as Hr; [by split; [left|]|]. destruct (Inner.ended _); [by split; [left|]|].
  split; [left; by apply prefix_app_r|done].
Qed.

(** A channel whose queue and receivers are as before. *)
Lemma gives_same c c' : queue_of c' = queue_of c -> Mpsc.receivers c' = Mpsc.receivers c -> gives (Some c) (Some c').
Proof. intros Hq Hr. exists c'. split; [done|]. rewrite Hq, Hr. split; [by left|done]. Qed.

(** Each turn adds to one side of the account. *)
Lemma account_gives said got o o' : account said got o -> gives o o' -> account (said ++ put_in o o') got o'.
Proof.
  destruct o as [c|]; simpl.
  - intros Ha (c' & -> & Hq & Hr). unfold put_in. simpl.
    assert (Hlost : queue_of c' = [] -> Mpsc.receivers c' = 0%nat -> got `prefix_of` said ++ drop (length (queue_of c)) (queue_of c')).
    { intros -> _. rewrite drop_nil, app_nil_r. destruct Ha as [-> |(_ & _ & ?)]; [by apply prefix_app_r|done]. }
    destruct Hq as [[k Hk]|[Hq Hz]]; [|right; split_and!; auto].
    destruct Ha as [-> |(Hz & Hn & Hp)]; [left; by rewrite Hk, drop_app_length, app_assoc|].
    destruct (Hr Hz) as [Hz' Hq']. rewrite Hn in Hq'. apply prefix_nil_inv in Hq'. right. split_and!; auto.
  - intros [-> ->] _. unfold put_in. simpl. destruct o' as [c'|]; simpl; [by left|done].
Qed.

Lemma account_drawn said got l o o' : account said got o -> drawn l o o' -> account said (got ++ l) o'.
Proof.
  destruct o as [c|]; simpl.
  - intros Ha (c' & -> & Hr & q & Hq & Hq'). simpl. destruct Ha as [-> |(Hz & Hn & Hp)].
    + rewrite Hq, app_assoc. destruct Hq' as [-> |[Hq' Hz]]; [by left|right]. split_and!; [done..|by apply prefix_app_r].
    + rewrite Hn in Hq. symmetry in Hq. apply app_nil in Hq as [-> ->]. rewrite app_nil_r. right.
      split_and!; [auto| |done]. by destruct Hq' as [|[? _]].
  - intros [-> ->] [-> Hh]. destruct o' as [c'|]; simpl in *; [left; by rewrite Hh|done].
Qed.

Lemma account_prefix said got o : account said got o -> got `prefix_of` said.
Proof. destruct o as [c|]; simpl; [intros [-> |(_ & _ & ?)]; [by apply prefix_app_r|done]|by intros [-> ->]]. Qed.

Lemma drawn_trans l1 l2 o1 o2 o3 : drawn l1 o1 o2 -> drawn l2 o2 o3 -> drawn (l1 ++ l2) o1 o3.
Proof.
  destruct o1 as [c1|]; simpl.
  - intros (c2 & -> & R1 & q1 & E1 & H1) (c3 & -> & R2 & q2 & E2 & H2). exists c3. split; [done|]. split; [auto|].
    destruct H1 as [H1|[H1 Hz]].
    + exists q2. by rewrite E1, <- app_assoc, <- E2, H1.
    + rewrite H1 in E2. symmetry in E2. apply app_nil in E2 as [-> ->]. exists q1. rewrite app_nil_r. split; [done|].
      right. split; [by destruct H2 as [|[? _]]|auto].
  - intros [-> Hh]. destruct o2 as [c2|]; simpl; [|done]. simpl in Hh. intros (c3 & -> & _ & q & Hq & Hq'). rewrite Hh in Hq.
    symmetry in Hq. apply app_nil in Hq as [-> ->]. split; [done|]. by destruct Hq' as [|[? _]].
Qed.

Lemma drawn_refl o : drawn [] o o.
Proof. destruct o as [c|]; simpl; [|done]. exists c. split; [done|]. split; [done|]. exists (queue_of c). auto. Qed.

Lemma drawn_pop c v q : queue_of c = v :: q -> drawn [v] (Some c) (Some (pop c)).
Proof.
  intros Hq. exists (pop c). split; [done|]. split; [done|]. exists q. split; [done|]. left. unfold pop, queue_of in *. simpl. by rewrite Hq.
Qed.

Lemma drawn_close_rx c : drawn [] (Some c) (Some (close_rx c)).
Proof.
  exists (close_rx c). split; [done|]. unfold close_rx. simpl. split; [lia|]. exists (queue_of c). split; [done|].
  unfold queue_of. simpl. case_decide as Hr; [right; simpl; split; [done|lia]|by left].
Qed.

(** Nothing was said on a channel that was not there. *)
Lemma account_new o : held o = [] -> account [] [] o.
Proof. destruct o as [c|]; simpl; [|done]. intros ->. by left. Qed.

(** All that was put on a channel in the turns [us], each of them given by
    the states around it. *)
Definition put_on {W} (chan : W -> option (Mpsc.t T)) (us : list (W * W)) : list T :=
  us ≫= fun u => put_in (chan u.1) (chan u.2).

Lemma put_on_snoc {W} (chan : W -> option (Mpsc.t T)) us w w' :
  put_on chan (us ++ [(w, w')]) = put_on chan us ++ put_in (chan w) (chan w').
Proof. unfold put_on. rewrite bind_app. simpl. by rewrite app_nil_r. Qed.
End Accounts.
