(* ===== verification/Channels.v ===== *)
(** * The channels of a connection

    The user's handles and the connection only meet in channels.  [world] is
    the store of all channels of one connection: one for what the user asks
    of the connection ([Q]: requests for a client, the hold on the connection
    for a server), those for responses ([A] is what they carry), those for
    bodies to be sent and those for bodies received.  Every operation, of a
    handle or of the connection, is a function on it.  The second part says
    what each operation does to the channels, wakers aside: [moved f] is the
    effect [f] on [still_world], [grows] what a poll leaves as it was. *)

From S2P Require Import Prelude.
From S2P Require Import Async.
From S2P Require Import Mpsc.
From S2P Require Import Share.

Record world (Q A : Type) := mk_world {
  reqs : Mpsc.t Q;
  ress : gmap chan_id (Mpsc.t A);
  outs : gmap chan_id (Mpsc.t (bytes * bool));
  ins : gmap chan_id (Mpsc.t (io_result bytes));
  woken : list waker;
}.
Arguments mk_world {Q A}.
Arguments reqs {Q A} _.
Arguments ress {Q A} _.
Arguments outs {Q A} _.
Arguments ins {Q A} _.
Arguments woken {Q A} _.

#[export] Instance channels_world {Q A} : World (world Q A) := {|
  out_chans := {| view := outs; put x w := mk_world (reqs w) (ress w) x (ins w) (woken w) |};
  in_chans := {| view := ins; put x w := mk_world (reqs w) (ress w) (outs w) x (woken w) |};
  wake l w := mk_world (reqs w) (ress w) (outs w) (ins w) (woken w ++ l);
|}.

Section Operations.
Context {Q A : Type}.
Implicit Types (w : world Q A).

Definition res_chans : lens (world Q A) (gmap chan_id (Mpsc.t A)) :=
  {| view := ress; put x w := mk_world (reqs w) x (outs w) (ins w) (woken w) |}.

(** An operation on the channel to the connection. *)
Definition on_reqs {B} (op : Mpsc.t Q -> B * Mpsc.t Q * list waker) w : B * world Q A :=
  let '(a, c, l) := op (reqs w) in (a, wake l (mk_world c (ress w) (outs w) (ins w) (woken w))).

Definition poll_recv_req (cx : waker) : io (world Q A) (option Q) := fun w =>
  let '(r, w') := on_reqs (Mpsc.poll_recv cx true) w in
  Done (match r with Pending => Pending | Ready v => Ready (Ok v) end, w').

(** The connection's end of it, dropped. *)
Definition drop_rx_reqs : io (world Q A) unit := fun w =>
  let '(_, w') := on_reqs (fun q => let '(q', l) := Mpsc.drop_receiver q in (tt, q', l)) w in
  Done (Ready (Ok tt), w').

(** [drop(o)] for a handle that may have been taken. *)
Definition drop_opt (drop : chan_id -> io (world Q A) unit) (o : option chan_id) : io (world Q A) unit :=
  match o with Some id => drop id | None => mret tt end.

Fixpoint drop_each {B} (drop : B -> io (world Q A) unit) (l : list B) : io (world Q A) unit :=
  match l with [] => mret tt | x :: l => drop x;; drop_each drop l end.
End Operations.

(** ** The channels, without their wakers *)

Section Worlds.
Context {Q A : Type}.
Implicit Types (w : world Q A).

Definition still_world w : world Q A :=
  mk_world (still (reqs w)) (still <$> ress w) (still <$> outs w) (still <$> ins w) [].

Definition at_reqs (f : Mpsc.t Q -> Mpsc.t Q) w : world Q A :=
  mk_world (f (reqs w)) (ress w) (outs w) (ins w) (woken w).
Definition at_res (id : chan_id) (f : Mpsc.t A -> Mpsc.t A) w : world Q A :=
  mk_world (reqs w) (alter f id (ress w)) (outs w) (ins w) (woken w).
Definition at_out (id : chan_id) (f : Mpsc.t (bytes * bool) -> Mpsc.t (bytes * bool)) w : world Q A :=
  mk_world (reqs w) (ress w) (alter f id (outs w)) (ins w) (woken w).
Definition at_in (id : chan_id) (f : Mpsc.t (io_result bytes) -> Mpsc.t (io_result bytes)) w : world Q A :=
  mk_world (reqs w) (ress w) (outs w) (alter f id (ins w)) (woken w).
Definition new_in (id : chan_id) w : world Q A :=
  mk_world (reqs w) (ress w) (outs w) (<[id := Mpsc.new 1]> (ins w)) (woken w).

Definition new_res (id : chan_id) w : world Q A :=
  mk_world (reqs w) (<[id := Mpsc.new 1]> (ress w)) (outs w) (ins w) (woken w).

(** A poll only adds channels and takes from the queues it reads. *)
Record grows w w' : Prop := {
  g_reqs : queue_of (reqs w') `suffix_of` queue_of (reqs w);
  g_res : forall id, is_Some (ress w !! id) -> is_Some (ress w' !! id);
  g_in : forall id, is_Some (ins w !! id) -> is_Some (ins w' !! id);
  g_out : forall id, is_Some (outs w !! id) -> is_Some (outs w' !! id);
  g_outq : forall id c', outs w' !! id = Some c' ->
    exists c, outs w !! id = Some c /\ queue_of c' `suffix_of` queue_of c;
}.

#[export] Instance grows_preorder : PreOrder grows.
Proof.
  split.
  - intros w. split; eauto.
  - intros w1 w2 w3 [A1 A2 A3 A4 A5] [B1 B2 B3 B4 B5]. split; eauto; [by etransitivity|].
    intros id c Hc. destruct (B5 id c Hc) as (c2 & Hc2 & ?). destruct (A5 id c2 Hc2) as (c1 & ? & ?).
    exists c1. split; [done|]. by etransitivity.
Qed.

Lemma still_insert {T} (m : gmap chan_id (Mpsc.t T)) id c c' f : m !! id = Some c ->
  still c' = f (still c) -> still <$> <[id := c']> m = alter f id (still <$> m).
Proof.
  intros Hc Hf. apply map_eq. intros j. rewrite lookup_fmap. destruct (decide (id = j)) as [<-|Hj].
  - rewrite lookup_insert_eq, lookup_alter_eq, lookup_fmap, Hc. simpl. by rewrite Hf.
  - by rewrite lookup_insert_ne, lookup_alter_ne, lookup_fmap by done.
Qed.

Lemma insert_is_some {T} (m : gmap chan_id T) id x j : is_Some (m !! j) -> is_Some (<[id := x]> m !! j).
Proof.
  intros. destruct (decide (id = j)) as [<-|]; [by rewrite lookup_insert_eq|by rewrite lookup_insert_ne].
Qed.

(** What an operation did to the channels. *)
Definition moved (f : world Q A -> world Q A) w w' : Prop := still_world w' = f (still_world w) /\ grows w w'.

Lemma moved_trans f g w1 w2 w3 : moved f w1 w2 -> moved g w2 w3 -> moved (fun w => g (f w)) w1 w3.
Proof. intros [E1 G1] [E2 G2]. split; [by rewrite E2, E1|by etransitivity]. Qed.

Lemma on_in_moved {B} id (op : Mpsc.t (io_result bytes) -> B * Mpsc.t (io_result bytes) * list waker) f w :
  is_Some (ins w !! id) ->
  (forall c a c' l, ins w !! id = Some c -> op c = (a, c', l) -> still c' = f (still c)) ->
  exists c a c' l w', ins w !! id = Some c /\ op c = (a, c', l) /\
    on_chan in_chans id op w = Done (a, w') /\ moved (at_in id f) w w' /\ ins w' !! id = Some c' /\
    ress w' = ress w /\ outs w' = outs w /\ reqs w' = reqs w.
Proof.
  intros [c Hc] Hop. destruct (op c) as [[a c'] l] eqn:E. specialize (Hop c a c' l Hc E).
  exists c, a, c', l. unfold on_chan. simpl. rewrite Hc, E. eexists. split_and!; try done; [split|].
  - unfold still_world, at_in. simpl. by rewrite (still_insert _ id c c' f).
  - split; simpl; eauto using insert_is_some.
  - simpl. apply lookup_insert_eq.
Qed.

Lemma on_res_moved {B} id (op : Mpsc.t A -> B * Mpsc.t A * list waker) f w :
  is_Some (ress w !! id) ->
  (forall c a c' l, ress w !! id = Some c -> op c = (a, c', l) -> still c' = f (still c)) ->
  exists c a c' l w', ress w !! id = Some c /\ op c = (a, c', l) /\
    on_chan res_chans id op w = Done (a, w') /\ moved (at_res id f) w w' /\ ress w' !! id = Some c' /\
    ins w' = ins w /\ outs w' = outs w /\ reqs w' = reqs w.
Proof.
  intros [c Hc] Hop. destruct (op c) as [[a c'] l] eqn:E. specialize (Hop c a c' l Hc E).
  exists c, a, c', l. unfold on_chan. simpl. rewrite Hc, E. eexists. split_and!; try done; [split|].
  - unfold still_world, at_res. simpl. by rewrite (still_insert _ id c c' f).
  - split; simpl; eauto using insert_is_some.
  - simpl. apply lookup_insert_eq.
Qed.

Lemma on_out_moved {B} id (op : Mpsc.t (bytes * bool) -> B * Mpsc.t (bytes * bool) * list waker) f w :
  is_Some (outs w !! id) ->
  (forall c a c' l, outs w !! id = Some c -> op c = (a, c', l) ->
     still c' = f (still c) /\ queue_of c' `suffix_of` queue_of c) ->
  exists c a c' l w', outs w !! id = Some c /\ op c = (a, c', l) /\
    on_chan out_chans id op w = Done (a, w') /\ moved (at_out id f) w w' /\ outs w' !! id = Some c' /\
    ress w' = ress w /\ ins w' = ins w /\ reqs w' = reqs w.
Proof.
  intros [c Hc] Hop. destruct (op c) as [[a c'] l] eqn:E. destruct (Hop c a c' l Hc E) as [Hop1 Hop2].
  exists c, a, c', l. unfold on_chan. simpl. rewrite Hc, E. eexists. split_and!; try done; [split|].
  - unfold still_world, at_out. simpl. by rewrite (still_insert _ id c c' f).
  - split; simpl; eauto using insert_is_some. intros j cj. destruct (decide (id = j)) as [<-|Hj].
    + rewrite lookup_insert_eq. intros [= <-]. eauto.
    + rewrite lookup_insert_ne by done. eauto.
  - simpl. apply lookup_insert_eq.
Qed.

(** The operations as they are called. *)
Definition moves {B} (f : world Q A -> world Q A) w (r : poll (io_result B)) w' : Prop :=
  (exists a, r = Ready (Ok a)) /\ moved f w w'.

Lemma alter_still {T} (m : gmap chan_id (Mpsc.t T)) id : alter (fun c => c) id m = m.
Proof. apply alter_id. done. Qed.

Lemma send_in_wp id x w : is_Some (ins w !! id) ->
  wp (send_chan in_chans id x) w (moves (at_in id (push x)) w).
Proof.
  intros Hid. destruct (on_in_moved id (Mpsc.send x) (push x) w Hid) as (c & a & c' & l & w' & _ & _ & E & ? & _).
  { intros. by eapply still_send. }
  unfold wp, send_chan. rewrite E. simpl. split; [eauto | done].
Qed.

Lemma drop_tx_in_wp id w : is_Some (ins w !! id) -> wp (drop_tx_chan in_chans id) w (moves (at_in id close_tx) w).
Proof.
  intros Hid. set (op := fun c : Mpsc.t (io_result bytes) => let '(c', l) := Mpsc.drop_sender c in (tt, c', l)).
  destruct (on_in_moved id op close_tx w Hid) as (c & a & c' & l & w' & _ & _ & E & ? & _).
  { intros c a c' l _. unfold op. destruct (Mpsc.drop_sender c) eqn:E. intros [= _ <- _]. by eapply still_drop_sender. }
  unfold wp, drop_tx_chan. fold op. rewrite E. simpl. split; [eauto | done].
Qed.

Lemma drop_rx_in_wp id w : is_Some (ins w !! id) -> wp (drop_rx_chan in_chans id) w (moves (at_in id close_rx) w).
Proof.
  intros Hid. set (op := fun c : Mpsc.t (io_result bytes) => let '(c', l) := Mpsc.drop_receiver c in (tt, c', l)).
  destruct (on_in_moved id op close_rx w Hid) as (c & a & c' & l & w' & _ & _ & E & ? & _).
  { intros c a c' l _. unfold op. destruct (Mpsc.drop_receiver c) eqn:E. intros [= _ <- _]. by eapply still_drop_receiver. }
  unfold wp, drop_rx_chan. fold op. rewrite E. simpl. split; [eauto | done].
Qed.

Lemma ready_in_wp id cx w : is_Some (ins w !! id) ->
  wp (poll_ready_chan in_chans id cx) w (fun r w' => moved (fun w => w) w w' /\
    match r with
    | Ready (Err _) => False
    | Ready (Ok _) => True
    | Pending => exists c', ins w' !! id = Some c' /\ backed_up cx c'
    end).
Proof.
  intros Hid. set (op := fun c : Mpsc.t (io_result bytes) => let '(r, c') := Mpsc.poll_ready cx true c in (r, c', @nil waker)).
  destruct (on_in_moved id op (fun c => c) w Hid) as (c & a & c' & l & w' & Hc & Hop & E & [Hs Hg] & Hc' & _).
  { intros c a c' l _. unfold op. destruct (Mpsc.poll_ready cx true c) eqn:E. intros [= _ <- _].
    by eapply still_ready in E as [? _]. }
  unfold wp, poll_ready_chan. fold op. rewrite E. simpl. split.
  - split; [|done]. rewrite Hs. unfold at_in. rewrite alter_still. by destruct (still_world w).
  - unfold op in Hop. destruct (Mpsc.poll_ready cx true c) as [r1 c1] eqn:Er. injection Hop as -> -> _.
    destruct a; [|done]. exists c'. split; [done|]. by eapply ready_backed_up.
Qed.

Lemma new_in_wp w : wp (new_chan in_chans 1) w (fun r w' => exists id, r = Ready (Ok id) /\
  ins w !! id = None /\ is_Some (ins w' !! id) /\ moved (new_in id) w w' /\ ress w' = ress w).
Proof.
  unfold wp, new_chan. simpl. eexists. split; [done|]. split; [apply fresh_chan_none|].
  split; [by rewrite lookup_insert_eq|]. split; [|done]. split.
  - unfold still_world, new_in. simpl. by rewrite fmap_insert.
  - split; simpl; eauto using insert_is_some.
Qed.

Lemma send_res_wp id x w : is_Some (ress w !! id) ->
  wp (send_chan res_chans id x) w (fun r w' => moved (at_res id (push x)) w w' /\ ins w' = ins w /\
    exists c, ress w !! id = Some c /\ r = Ready (Ok (bool_decide (Mpsc.receivers c <> 0%nat)))).
Proof.
  intros Hid. destruct (on_res_moved id (Mpsc.send x) (push x) w Hid) as (c & a & c' & l & w' & Hc & Hop & E & ? & _ & ? & _).
  { intros. by eapply still_send. }
  unfold wp, send_chan. rewrite E. simpl. split; [done|]. split; [done|]. exists c. split; [done|].
  apply still_send in Hop as [_ ->]. done.
Qed.

Lemma drop_tx_res_wp id w : is_Some (ress w !! id) -> wp (drop_tx_chan res_chans id) w (moves (at_res id close_tx) w).
Proof.
  intros Hid. set (op := fun c : Mpsc.t A => let '(c', l) := Mpsc.drop_sender c in (tt, c', l)).
  destruct (on_res_moved id op close_tx w Hid) as (c & a & c' & l & w' & _ & _ & E & ? & _).
  { intros c a c' l _. unfold op. destruct (Mpsc.drop_sender c) eqn:E. intros [= _ <- _]. by eapply still_drop_sender. }
  unfold wp, drop_tx_chan. fold op. rewrite E. simpl. split; [eauto | done].
Qed.

Lemma recv_out_wp id cx register w : is_Some (outs w !! id) ->
  wp (poll_recv_chan out_chans id cx register) w (fun r w' =>
    match r with
    | Ready (Ok (Some v)) => exists c q c', outs w !! id = Some c /\ queue_of c = v :: q /\
        moved (at_out id pop) w w' /\ outs w' !! id = Some c' /\ queue_of c' = q
    | Ready (Ok None) => moved (fun w => w) w w'
    | Ready (Err _) => False
    | Pending => moved (fun w => w) w w' /\ exists c', outs w' !! id = Some c' /\ awaits register cx c'
    end).
Proof.
  intros [c0 Hc0]. destruct (Mpsc.poll_recv cx register c0) as [[r0 c1] l0] eqn:E0. pose proof E0 as Er.
  apply still_recv in E0.
  destruct (on_out_moved id (Mpsc.poll_recv cx register)
    (match r0 with Ready (Some _) => pop | _ => fun c => c end) w) as
    (c & a & c' & l & w' & Hc & Hop & E & Hm & Hc' & _); [by exists c0| |].
  { intros c a c' l Hc Hop. rewrite Hc0 in Hc. injection Hc as <-. rewrite Er in Hop.
    injection Hop as <- <- _. destruct r0 as [|[v|]].
    - destruct E0 as (? & _ & Hs & _). split; [done|]. by rewrite <- (still_queue c1), Hs, still_queue.
    - destruct E0 as [Hq Hs]. split; [done|]. exists [v]. done.
    - destruct E0 as (? & _ & Hs). split; [done|]. by rewrite <- (still_queue c1), Hs, still_queue. }
  rewrite Hc0 in Hc. injection Hc as <-. rewrite Er in Hop. injection Hop as <- <- _.
  unfold wp, poll_recv_chan. rewrite E. simpl.
  assert (Hid : moved (at_out id (fun c => c)) w w' -> moved (fun w => w) w w').
  { intros [Hs Hg]. split; [|done]. rewrite Hs. unfold at_out. rewrite alter_still. by destruct (still_world w). }
  destruct r0 as [|[v|]].
  - split; [by apply Hid|]. exists c1. split; [done|]. by eapply recv_awaits.
  - destruct E0 as [Hq _]. by exists c0, (queue_of c1), c1.
  - by apply Hid.
Qed.

Lemma recv_res_wp id cx register w : is_Some (ress w !! id) ->
  wp (poll_recv_chan res_chans id cx register) w (fun r w' =>
    match r with
    | Ready (Ok (Some v)) => exists c q, ress w !! id = Some c /\ queue_of c = v :: q /\ moved (at_res id pop) w w'
    | Ready (Ok None) => moved (fun w => w) w w'
    | Ready (Err _) => False
    | Pending => moved (fun w => w) w w' /\ exists c', ress w' !! id = Some c' /\ awaits register cx c'
    end).
Proof.
  intros [c0 Hc0]. destruct (Mpsc.poll_recv cx register c0) as [[r0 c1] l0] eqn:E0. pose proof E0 as Er.
  apply still_recv in E0.
  destruct (on_res_moved id (Mpsc.poll_recv cx register)
    (match r0 with Ready (Some _) => pop | _ => fun c => c end) w) as
    (c & a & c' & l & w' & Hc & Hop & E & Hm & Hc' & _); [by exists c0| |].
  { intros c a c' l Hc Hop. rewrite Hc0 in Hc. injection Hc as <-. rewrite Er in Hop.
    injection Hop as <- <- _. destruct r0 as [|[v|]]; by destruct_and? E0. }
  rewrite Hc0 in Hc. injection Hc as <-. rewrite Er in Hop. injection Hop as <- <- _.
  unfold wp, poll_recv_chan. rewrite E. simpl.
  assert (Hid : moved (at_res id (fun c => c)) w w' -> moved (fun w => w) w w').
  { intros [Hs Hg]. split; [|done]. rewrite Hs. unfold at_res. rewrite alter_still. by destruct (still_world w). }
  destruct r0 as [|[v|]].
  - split; [by apply Hid|]. exists c1. split; [done|]. by eapply recv_awaits.
  - destruct E0 as [Hq _]. by exists c0, (queue_of c1).
  - by apply Hid.
Qed.

Lemma drop_rx_out_wp id w : is_Some (outs w !! id) -> wp (drop_rx_chan out_chans id) w (moves (at_out id close_rx) w).
Proof.
  intros Hid. set (op := fun c : Mpsc.t (bytes * bool) => let '(c', l) := Mpsc.drop_receiver c in (tt, c', l)).
  destruct (on_out_moved id op close_rx w Hid) as (c & a & c' & l & w' & _ & _ & E & ? & _).
  { intros c a c' l _. unfold op. destruct (Mpsc.drop_receiver c) as [c1 l1] eqn:E. intros [= _ <- _].
    pose proof E as Hs. apply still_drop_receiver in Hs. split; [done|].
    rewrite <- (still_queue c1), Hs. unfold close_rx, queue_of. simpl. case_decide; simpl; [apply suffix_nil|done]. }
  unfold wp, drop_rx_chan. fold op. rewrite E. simpl. split; [eauto | done].
Qed.

Lemma recv_req_wp cx w : wp (poll_recv_req cx) w (fun r w' => outs w' = outs w /\ ress w' = ress w /\
  match r with
  | Ready (Ok (Some h)) => exists q, queue_of (reqs w) = h :: q /\ queue_of (reqs w') = q /\
      moved (at_reqs pop) w w'
  | Ready (Ok None) => moved (fun w => w) w w' /\ queue_of (reqs w) = [] /\ Mpsc.senders (reqs w) = 0%nat
  | Ready (Err _) => False
  | Pending => moved (fun w => w) w w' /\ awaits true cx (reqs w')
  end).
Proof.
  unfold wp, poll_recv_req, on_reqs. destruct (Mpsc.poll_recv cx true (reqs w)) as [[r c'] l] eqn:E.
  pose proof E as Ea. apply still_recv in E. simpl. split; [done|]. split; [done|].
  assert (Hg : queue_of c' `suffix_of` queue_of (reqs w) ->
    grows w (wake l (mk_world c' (ress w) (outs w) (ins w) (woken w)))) by (split; simpl; eauto).
  destruct r as [|[h|]].
  - destruct E as (Hq & _ & Hs & _). split; [split|by eapply recv_awaits].
    + unfold still_world. simpl. by rewrite Hs.
    + apply Hg. by rewrite <- (still_queue c'), Hs, still_queue.
  - destruct E as [Hq Hs]. exists (queue_of c'). split; [done|]. split; [done|]. split.
    + unfold still_world, at_reqs. simpl. by rewrite Hs.
    + apply Hg. by exists [h].
  - destruct E as (Hq & Hn & Hs). split; [split|done].
    + unfold still_world. simpl. by rewrite Hs.
    + apply Hg. by rewrite <- (still_queue c'), Hs, still_queue.
Qed.

(** Fuel for the messages to be sent. *)
Definition out_fuel (fuel : nat) w : Prop :=
  forall id ch, outs w !! id = Some ch -> (length (queue_of ch) + 3 < fuel)%nat /\
    Forall (fun v => zlen v.1 < Z.of_nat fuel) (queue_of ch).

Lemma out_fuel_exists w : exists n, forall m, (n <= m)%nat -> out_fuel m w.
Proof.
  assert (Hq : forall q : list (bytes * bool), exists n, forall m, (n <= m)%nat -> (length q + 3 < m)%nat /\
    Forall (fun v => zlen v.1 < Z.of_nat m) q).
  { induction q as [|v q [n Hn]].
    - exists 4%nat. intros m Hm. split; [simpl; lia|constructor].
    - exists (S (n + Z.to_nat (zlen v.1))). intros m Hm. destruct (Hn (pred m)) as [Hl Hf]; [lia|].
      split; [simpl; lia|]. pose proof (zlen_nonneg v.1). constructor; [lia|].
      eapply Forall_impl; [|exact Hf]. simpl. lia. }
  unfold out_fuel. induction (outs w) as [|id ch mp Hid [n Hn]] using map_ind.
    - exists 0%nat. intros m _ id ch. by rewrite lookup_empty.
    - destruct (Hq (queue_of ch)) as [n' Hn']. exists (n + n')%nat. intros m Hm id' ch'.
      rewrite lookup_insert_Some. intros [[<- <-]|[_ Hl]]; [apply Hn'; lia|apply (Hn m ltac:(lia) id' ch' Hl)].
Qed.

End Worlds.
