(* ===== verification/Handles.v ===== *)
(** * What the user's handles do to the channels

    The handles of both connections only ever add channels, take messages,
    and send small enough pieces of bodies: [widens].  Requests and responses
    are queued by calls of their own (Client_session.v, Server_session.v). *)

From S2P Require Import Prelude.
From S2P Require Import Async.
From S2P Require Import Fast_buf.
From S2P Require Import Chunked.
From S2P Require Import Http_api.
From S2P Require Import Error.
From S2P Require Import Limit.
From S2P Require Import Mpsc.
From S2P Require Import Share.
From S2P Require Import Channels.

Definition small (v : bytes * bool) : Prop := zlen v.1 <= isize_max.

Section Widens.
Context {Q A : Type}.
Implicit Types (w : world Q A).

Record widens w w' : Prop := {
  wd_res : forall id, is_Some (ress w !! id) -> is_Some (ress w' !! id);
  wd_in : forall id, is_Some (ins w !! id) -> is_Some (ins w' !! id);
  wd_out : forall id, is_Some (outs w !! id) -> is_Some (outs w' !! id);
  wd_reqs : queue_of (reqs w') = queue_of (reqs w);
  wd_resq : forall id c', ress w' !! id = Some c' -> queue_of c' = [] \/
    exists c, ress w !! id = Some c /\ queue_of c' `suffix_of` queue_of c;
  wd_small : (forall id c, outs w !! id = Some c -> Forall small (queue_of c)) ->
    forall id c, outs w' !! id = Some c -> Forall small (queue_of c);
}.

#[export] Instance widens_preorder : PreOrder widens.
Proof.
  split; [intros w; split; eauto|].
  intros w1 w2 w3 [A1 A2 A3 A4 A5 A6] [B1 B2 B3 B4 B5 B6]. split; eauto; [congruence|].
  intros id c Hc. destruct (B5 id c Hc) as [|(c2 & Hc2 & Hq)]; [by left|].
  destruct (A5 id c2 Hc2) as [Hn|(c1 & ? & ?)].
  - left. rewrite Hn in Hq. by apply suffix_nil_inv in Hq.
  - right. exists c1. split; [done|]. by etransitivity.
Qed.

(** One map of channels changes at [id]. *)
Lemma set_res_widens id c l w :
  queue_of c = [] \/ (exists c0, ress w !! id = Some c0 /\ queue_of c `suffix_of` queue_of c0) ->
  widens w (wake l (put res_chans (<[id := c]> (ress w)) w)).
Proof.
  intros Hc. split; simpl; eauto using insert_is_some. intros j cj. rewrite lookup_insert_Some.
  intros [[<- <-]|[_ Hj]]; [done|eauto].
Qed.

Lemma set_in_widens id c l w : widens w (wake l (put in_chans (<[id := c]> (ins w)) w)).
Proof. split; simpl; eauto using insert_is_some. Qed.

Lemma set_out_widens id c l w :
  ((forall c0, outs w !! id = Some c0 -> Forall small (queue_of c0)) -> Forall small (queue_of c)) ->
  widens w (wake l (put out_chans (<[id := c]> (outs w)) w)).
Proof.
  intros Hc. split; simpl; eauto using insert_is_some. intros Ho j cj. rewrite lookup_insert_Some.
  intros [[<- <-]|[_ Hj]]; [|by eapply Ho]. apply Hc. intros c0. apply Ho.
Qed.

Lemma wake_nil w : wake [] w = w.
Proof. destruct w. unfold wake, channels_world. simpl. by rewrite app_nil_r. Qed.

(** The operations on one channel. *)
Lemma on_res_widens {B} id (op : Mpsc.t A -> B * Mpsc.t A * list waker) w a w' :
  (forall c a c' l, op c = (a, c', l) -> queue_of c' `suffix_of` queue_of c) ->
  on_chan res_chans id op w = Done (a, w') -> widens w w'.
Proof.
  intros Hop. unfold on_chan. simpl. destruct (ress w !! id) as [c|] eqn:Hc; [|done].
  destruct (op c) as [[? c'] l] eqn:E. intros [= _ <-]. apply set_res_widens. right. eauto.
Qed.

Lemma on_in_widens {B} id (op : Mpsc.t (io_result bytes) -> B * Mpsc.t (io_result bytes) * list waker) w a w' :
  on_chan in_chans id op w = Done (a, w') -> widens w w'.
Proof.
  unfold on_chan. simpl. destruct (ins w !! id) as [c|]; [|done]. destruct (op c) as [[? c'] l].
  intros [= _ <-]. apply set_in_widens.
Qed.

Lemma on_out_widens {B} id (op : Mpsc.t (bytes * bool) -> B * Mpsc.t (bytes * bool) * list waker) w a w' :
  (forall c a c' l, op c = (a, c', l) -> Forall small (queue_of c) -> Forall small (queue_of c')) ->
  on_chan out_chans id op w = Done (a, w') -> widens w w'.
Proof.
  intros Hop. unfold on_chan. simpl. destruct (outs w !! id) as [c|] eqn:Hc; [|done].
  destruct (op c) as [[? c'] l] eqn:E. intros [= _ <-]. apply set_out_widens. intros Ho. eauto.
Qed.

(** What the operations do to a queue. *)
Lemma queue_drop_sender {T} (c c' : Mpsc.t T) l : Mpsc.drop_sender c = (c', l) -> queue_of c' = queue_of c.
Proof. intros E%still_drop_sender. by rewrite <- (still_queue c'), E. Qed.

Lemma queue_drop_receiver {T} (c c' : Mpsc.t T) l : Mpsc.drop_receiver c = (c', l) ->
  queue_of c' `suffix_of` queue_of c.
Proof.
  intros E%still_drop_receiver. rewrite <- (still_queue c'), E. unfold close_rx, queue_of. simpl.
  case_decide; simpl; [apply suffix_nil|done].
Qed.

Lemma queue_recv {T} cx register (c c' : Mpsc.t T) r l : Mpsc.poll_recv cx register c = (r, c', l) ->
  queue_of c' `suffix_of` queue_of c.
Proof.
  intros E%still_recv. destruct r as [|[x|]].
  - destruct E as (_ & _ & E & _). by rewrite <- (still_queue c'), E.
  - destruct E as [-> _]. by exists [x].
  - destruct E as (_ & _ & E). by rewrite <- (still_queue c'), E.
Qed.

Lemma queue_ready {T} cx (c c' : Mpsc.t T) r : Mpsc.poll_ready cx true c = (r, c') -> queue_of c' = queue_of c.
Proof. intros [E _]%still_ready. by rewrite <- (still_queue c'), E. Qed.

Lemma queue_send {T} (x : T) (c c' : Mpsc.t T) ok l : Mpsc.send x c = (ok, c', l) ->
  queue_of c' = queue_of c \/ queue_of c' = queue_of c ++ [x].
Proof.
  intros [E _]%still_send. rewrite <- (still_queue c'), E. unfold push, set_queue, queue_of.
  repeat (case_decide || case_match); simpl; auto.
Qed.

(** As poll functions. *)
Ltac on_one_chan :=
  let E := fresh "E" in
  intros w ? w'; unfold poll_recv_chan, poll_ready_chan, send_chan, drop_tx_chan, drop_rx_chan;
  destruct (on_chan _ _ _ w) as [[? ?]| |] eqn:E; try done; intros [= _ <-]; revert E;
  first [apply on_res_widens | apply on_in_widens | apply on_out_widens];
  intros c a0 c' l.

Lemma recv_res_widens id cx register : keeps widens (poll_recv_chan (W := world Q A) res_chans id cx register).
Proof. on_one_chan. apply queue_recv. Qed.
Lemma drop_rx_res_widens id : keeps widens (drop_rx_chan (W := world Q A) res_chans id).
Proof. on_one_chan. destruct (Mpsc.drop_receiver c) eqn:E. intros [= _ <- _]. by eapply queue_drop_receiver. Qed.
Lemma drop_tx_res_widens id : keeps widens (drop_tx_chan (W := world Q A) res_chans id).
Proof. on_one_chan. destruct (Mpsc.drop_sender c) eqn:E. apply queue_drop_sender in E. intros [= _ <- _]. by rewrite E. Qed.
Lemma recv_in_widens id cx register : keeps widens (poll_recv_chan (W := world Q A) in_chans id cx register).
Proof. on_one_chan. Qed.
Lemma drop_rx_in_widens id : keeps widens (drop_rx_chan (W := world Q A) in_chans id).
Proof. on_one_chan. Qed.
Lemma drop_tx_in_widens id : keeps widens (drop_tx_chan (W := world Q A) in_chans id).
Proof. on_one_chan. Qed.
Lemma drop_rx_out_widens id : keeps widens (drop_rx_chan (W := world Q A) out_chans id).
Proof.
  on_one_chan. destruct (Mpsc.drop_receiver c) eqn:E. intros [= _ <- _] Hc.
  apply queue_drop_receiver in E as [k Hk]. rewrite Hk in Hc. by apply Forall_app in Hc as [_ ?].
Qed.
Lemma drop_tx_out_widens id : keeps widens (drop_tx_chan (W := world Q A) out_chans id).
Proof. on_one_chan. destruct (Mpsc.drop_sender c) eqn:E. apply queue_drop_sender in E. intros [= _ <- _]. by rewrite E. Qed.
Lemma ready_out_widens id cx : keeps widens (poll_ready_chan (W := world Q A) out_chans id cx).
Proof. on_one_chan. destruct (Mpsc.poll_ready cx true c) eqn:E. apply queue_ready in E. intros [= _ <- _]. by rewrite E. Qed.
Lemma send_out_widens id v : small v -> keeps widens (send_chan (W := world Q A) out_chans id v).
Proof.
  intros Hv. on_one_chan. intros E Hc. apply queue_send in E as [-> | ->]; [done|].
  apply Forall_app. split; [done|by constructor].
Qed.
Lemma new_res_widens : keeps widens (new_chan (W := world Q A) res_chans 1).
Proof.
  intros w r w' [= _ <-].
  pose proof (set_res_widens (fresh_chan (ress w)) (Mpsc.new 1) [] w (or_introl eq_refl)) as Hw. by rewrite wake_nil in Hw.
Qed.
Lemma new_out_widens : keeps widens (new_chan (W := world Q A) out_chans 1).
Proof.
  intros w r w' [= _ <-].
  pose proof (set_out_widens (fresh_chan (outs w)) (Mpsc.new 1) [] w (fun _ => List.Forall_nil _)) as Hw.
  by rewrite wake_nil in Hw.
Qed.

Lemma drop_each_widens {B} (drop : B -> io (world Q A) unit) l :
  (forall x, keeps widens (drop x)) -> keeps widens (drop_each drop l).
Proof. intros Hd. induction l as [|x l IH]; simpl; keeps_tac; auto. Qed.

Lemma poll_body_data_widens {prof : Profile} fuel cx n :
  keeps (snd_rel widens) (RecvStream.poll_body_data (W := world Q A) fuel cx n).
Proof. unfold RecvStream.poll_body_data, RecvStream.body_data_turn. keeps_tac. apply recv_in_widens. Qed.

(** *** Sending a piece of a body *)

Context {prof : Profile} `{Http} `{Httparse}.

Lemma framed_fits l d (end_ : bool) : zlen d + 32 <= isize_max ->
  zlen (framed l d ++ if end_ then closing l else []) <= isize_max.
Proof.
  intros Hd. pose proof (zlen_nonneg d). rewrite zlen_app.
  assert (zlen (framed l d) <= zlen d + 20).
  { destruct l; simpl; [|lia|change (zlen (@nil byte)) with 0; lia].
    apply Coding.coded_overhead. unfold isize_max, u64_max in *. lia. }
  assert (zlen (if end_ then closing l else []) <= 5) by (destruct end_, l; simpl; by vm_compute).
  lia.
Qed.

Lemma send_data_widens cx end_ this d w r this' rest w' : sendable this d ->
  SendStream.poll_send_data cx end_ (this, d, w) = Done (r, (this', rest, w')) -> widens w w'.
Proof.
  intros Hs. unfold SendStream.poll_send_data, mbind, api_bind, api_get.
  destruct (_ && _); [by intros [= _ _ _ <-]|]. destruct (SendStream.ended this); [by intros [= _ _ _ <-]|].
  unfold SendStream.on_world at 1, api_io.
  destruct (poll_ready_chan _ _ _ w) as [[r1 w1]| |] eqn:E1; try done. apply ready_out_widens in E1. simpl.
  destruct r1 as [|[[]|e]]; simpl; [by intros [= _ _ _ <-]| |by intros [= _ _ _ <-]..].
  unfold api_lift, api_put. simpl. destruct (SendStream.to_send d end_ this) as [[[[v|e] rest2] this2]| |] eqn:Et;
    simpl; try done; [|by intros [= _ _ _ <-]].
  destruct (to_send_accepts _ _ _ _ _ _ Hs Et) as [_ ->].
  unfold SendStream.on_world, api_io. destruct (send_chan _ _ _ w1) as [[r2 w2]| |] eqn:E2; try done.
  apply send_out_widens in E2; [|apply framed_fits; apply Hs].
  intros E. assert (w' = w2) as -> by by destruct r2 as [|[[]|e2]]; injection E.
  by transitivity w1.
Qed.
End Widens.

#[export] Hint Resolve recv_res_widens drop_rx_res_widens drop_tx_res_widens recv_in_widens drop_rx_in_widens
  drop_tx_in_widens drop_rx_out_widens drop_tx_out_widens ready_out_widens new_res_widens new_out_widens : keeps.
