(* ===== verification/Codec.v ===== *)
(** * What the two connections share

    [conn] holds a method's mutable arguments: [&mut self], the transport and
    the channels; the [on_*] functions run an operation on one of them.
    [write_all] is the way both connections use [BufIo::poll_write_all].  The
    second part says when the buffers are in order, and that reading and
    writing keep them so. *)

From S2P Require Import Prelude.
From S2P Require Import Async.
From S2P Require Import Fast_buf.
From S2P Require Import Transport.
From S2P Require Import Buf_reader.
From S2P Require Import Http_api.
From S2P Require Import Error.
From S2P Require Import Limit.
From S2P Require Import Http11.
From S2P Require Import Mpsc.
From S2P Require Import Share.
From S2P Require Import Channels.

(** A method's mutable arguments. *)
Record conn (W R Self : Type) := mk_conn { self : Self; bio : BufIo.t R; wld : W }.
Arguments mk_conn {W R Self}.
Arguments self {W R Self} _.
Arguments bio {W R Self} _.
Arguments wld {W R Self} _.

Section Focus.
Context {W R Self : Type}.
Implicit Types (c : conn W R Self).
Definition set_self (x : Self) c : conn W R Self := mk_conn x (bio c) (wld c).
Definition set_bio b c : conn W R Self := mk_conn (self c) b (wld c).
Definition set_wld w c : conn W R Self := mk_conn (self c) (bio c) w.

Definition on_self {A} (m : io Self A) : io (conn W R Self) A := zoom self set_self m.
Definition on_bio {A} (m : io (BufIo.t R) A) : io (conn W R Self) A := zoom bio set_bio m.
Definition on_world {A} (m : io W A) : io (conn W R Self) A := zoom wld set_wld m.

(** A method of a component of [self]. *)
Definition on_part {P A} (wrap : P -> Self) (p : P) (m : io (conn W R P) A) : io (conn W R Self) A := fun c =>
  '(r, c') ← m (mk_conn p (bio c) (wld c)); Done (r, mk_conn (wrap (self c')) (bio c') (wld c')).

(** Values that an early return drops. *)
Definition or_drop {A} (m : io (conn W R Self) A) (drop : io W unit) : io (conn W R Self) A := fun c =>
  '(r, c') ← m c;
  match r with
  | Ready (Err e) => '(_, c'') ← on_world drop c'; Done (Ready (Err e), c'')
  | _ => Done (r, c')
  end.
End Focus.

Section Writing.
Context {prof : Profile} {R : Type} `{AsyncRead R, AsyncWrite R}.

(** [io.poll_write_all(cx, &mut Some(d), flush)]: the result is matched on;
    [Pending] must have taken the bytes over. *)
Definition write_all (fuel : nat) (d : bytes) (flush : bool) : io (BufIo.t R) (poll (io_result unit)) := fun b =>
  '(r, (b', to_send)) ← BufIo.poll_write_all fuel flush (b, Some d);
  match r with
  | Pending => _ ← assert_ (bool_decide (to_send = None)) "to_send.is_none()"; Done (Ready (Ok r), b')
  | _ => Done (Ready (Ok r), b')
  end.

End Writing.

(** ** Stepping through a handler *)

Section Focused.
Context {W R : Type}.

Lemma wp_on_world {Self A} (m : io W A) (c : conn W R Self) Q :
  wp m (wld c) (fun r w => Q r (set_wld w c)) -> wp (on_world m) c Q.
Proof. apply wp_zoom. Qed.

Lemma wp_on_bio {Self A} (m : io (BufIo.t R) A) (c : conn W R Self) Q :
  wp m (bio c) (fun r b => Q r (set_bio b c)) -> wp (on_bio m) c Q.
Proof. apply wp_zoom. Qed.

Lemma wp_on_self {Self A} (m : io Self A) (c : conn W R Self) Q :
  wp m (self c) (fun r x => Q r (set_self x c)) -> wp (on_self m) c Q.
Proof. apply wp_zoom. Qed.

Lemma wp_get_self {Self A} (f : Self -> io (conn W R Self) A) c Q :
  wp (f (self c)) c Q -> wp (on_self get ≫= f) c Q.
Proof. unfold wp, mbind, io_bind, on_self, zoom, get. simpl. by destruct c. Qed.

End Focused.

Ltac conn_step :=
  lazymatch goal with
  | |- wp (on_self get ≫= _) _ _ => apply wp_get_self
  | |- wp (on_self _) _ _ => apply wp_on_self
  | |- wp (on_world _) _ _ => fail
  | |- wp (on_bio _) _ _ => fail
  | |- _ => wp_step
  end.
Ltac conn_steps := repeat conn_step; cbn [fst snd self bio wld set_self set_bio set_wld] in *.

(** The head at the front of a stream: up to its first end, or the whole
    stream if it ends first. *)
Definition takes_head (inc head rest : bytes) (eos : bool) : Prop :=
  inc = head ++ rest /\
  if eos then rest = [] /\ head <> [] /\ head_end head = None
  else head_end inc = Some (zlen head) /\ zlen head <= READ_BUF_INIT_SIZE.

(** ** In order *)

Section InOrder.
Context {prof : Profile} {W R : Type} `{DuplexSpec R}.
Implicit Types (b : BufIo.t R).

(** The buffers are sound, and the read buffer has room: the connection's
    stream fits it with a head to spare. *)
Definition io_wf b : Prop :=
  BufIo.rd_wf b /\ BufIo.tx_wf b /\ BufIo.span b + READ_BUF_INIT_SIZE <= MAX_CAPACITY.

(** Fuel for the loops on the buffers: for the bytes to come and those to send. *)
Definition io_room (fuel : nat) b : Prop :=
  2 * zlen (BufIo.incoming b) + 8 < Z.of_nat fuel /\ zlen (BufIo.unsent b) < Z.of_nat fuel.

(** How often the transport may still stall, if it is live; and that it holds
    the connection up, with fewer stalls left. *)
Definition within (budget : nat) b : Prop := live R -> (stalls (BufIo.inner b) <= budget)%nat.
Definition on_hold (budget : nat) (flag : BufIo.t R -> bool) b : Prop :=
  flag b = true /\ (live R -> (stalls (BufIo.inner b) < budget)%nat).

Definition io_fuel (fuel budget : nat) b : Prop :=
  2 * zlen (BufIo.incoming b) + 8 < Z.of_nat fuel /\ zlen (BufIo.unsent b) < Z.of_nat fuel /\ within budget b.

(** A transport whose stream leaves that room, and the buffers of a new
    connection. *)
Definition fits (io : R) : Prop := zlen (r_stream io) + READ_BUF_INIT_SIZE <= MAX_CAPACITY.

Lemma fresh_buffers (io : R) : fits io -> exists b, BufIo.with_capacity READ_BUF_INIT_SIZE io = Done b /\ io_wf b /\
  BufIo.incoming b = r_stream io /\ BufIo.outgoing b = w_sent io.
Proof.
  intros Hf.
  destruct (BufIo.with_capacity_wf READ_BUF_INIT_SIZE io) as (b & -> & Hb & Hi & _ & Ht & Hio & Hp); [by vm_compute|].
  exists b. split; [done|]. unfold BufIo.tx_fields in Ht. injection Ht as Hp' Hw Hn.
  assert (Hsp : BufIo.span b = zlen (r_stream io)).
  { rewrite BufIo.span_eq, Hi by done. pose proof (BufIo.buffered_len b Hb) as Hlen. unfold BufIo.incoming in Hi.
    rewrite Hio in Hi. apply (f_equal zlen) in Hi. rewrite zlen_app in Hi. destruct Hb as (_ & _ & ? & ?). lia. }
  split; [|split; [done|]].
  - split; [done|]. unfold fits in Hf. split; [|lia]. split; [by rewrite Hw|]. by rewrite Hp'.
  - unfold BufIo.outgoing, BufIo.unsent. by rewrite Hw, Hio, app_nil_r.
Qed.

Context {fuel budget : nat}.

Lemma io_fuel_room b : io_room fuel b -> within budget b -> io_fuel fuel budget b.
Proof. by intros [? ?]. Qed.

Lemma within_lasts b b' : within budget b -> BufIo.lasts b b' -> within budget b'.
Proof. intros Hw Hb Hl. specialize (Hw Hl). specialize (Hb Hl). lia. Qed.

Lemma held_on_hold flag b b' : within budget b -> BufIo.held flag b b' -> on_hold budget flag b'.
Proof. intros Hw [Hf Hb]. split; [done|]. intros Hl. specialize (Hw Hl). specialize (Hb Hl). lia. Qed.

Lemma on_hold_lasts flag b b' : on_hold budget flag b -> flag b' = flag b -> BufIo.lasts b b' -> on_hold budget flag b'.
Proof. intros [Hf Hw] Hb' Hb. split; [congruence|]. intros Hl. specialize (Hw Hl). specialize (Hb Hl). lia. Qed.

(** Writes do not touch what is read. *)
Lemma io_wf_tx b b' : io_wf b -> BufIo.tx_wf b' -> BufIo.rx_fields b' = BufIo.rx_fields b ->
  io_wf b' /\ BufIo.incoming b' = BufIo.incoming b.
Proof.
  intros (Hrd & _ & Hsp) Htx Hrx. unfold BufIo.rx_fields in Hrx. injection Hrx as Hb Hp _ Hs.
  unfold io_wf, BufIo.rd_wf, BufIo.span, BufIo.incoming, BufIo.buffered, BufIo.contents in *.
  by rewrite Hb, Hp, Hs.
Qed.

Lemma wp_or_drop {Self A} (m : io (conn W R Self) A) drop c Q :
  wp m c (fun r c' => match r with
    | Ready (Err e) => wp (on_world drop) c' (fun _ c'' => Q (Ready (Err e)) c'')
    | _ => Q r c'
    end) -> wp (or_drop m drop) c Q.
Proof.
  unfold wp, or_drop. destruct (m c) as [[[|[a|e]] c']| |]; simpl; try done.
  by destruct (on_world drop c') as [[? ?]| |].
Qed.

(** *** Writing *)

Definition took_over flush b d (r : poll (io_result unit)) b' : Prop :=
  BufIo.took flush b d r b' /\ BufIo.lasts b b' /\ (r = Pending -> BufIo.held BufIo.pending_tx b b').

Lemma write_all_wp flush d b : BufIo.can_poll_write b = true ->
  zlen d < Z.of_nat fuel -> zlen d <= isize_max ->
  wp (write_all fuel d flush) b (fun r b' => exists r', r = Ready (Ok r') /\ took_over flush b d r' b').
Proof.
  intros Hc Hf Hm. pose proof (BufIo.poll_write_idle_wp fuel flush b d Hc Hf Hm) as Hw.
  apply (wp_yields _ _ _ _ _ (BufIo.poll_write_all_yields fuel flush)) in Hw.
  unfold wp, write_all in *. destruct (BufIo.poll_write_all fuel flush (b, Some d)) as [[r [b' o]]| |]; [|done..].
  simpl in Hw. destruct Hw as ([-> Ht] & Hl & Hp). destruct r as [|v]; simpl; (eexists; split; [done|]); by split_and!.
Qed.

(** A buffer that was taken over is one step of the machine. *)
Lemma took_wf flush b d r b' : io_wf b -> io_fuel fuel budget b -> zlen d < Z.of_nat fuel ->
  took_over flush b d r b' -> io_wf b' /\ BufIo.incoming b' = BufIo.incoming b /\
  BufIo.outgoing b `prefix_of` BufIo.outgoing b' /\
  (BufIo.pending_rx b' = BufIo.pending_rx b /\ BufIo.lasts b b') /\ BufIo.pos b' = BufIo.pos b /\
  match r with
  | Ready (Ok _) => io_fuel fuel budget b' /\ BufIo.outgoing b' = BufIo.outgoing b ++ d /\ BufIo.can_poll_write b' = true
  | Pending => io_fuel fuel budget b' /\ BufIo.outgoing b' = BufIo.outgoing b ++ d /\ on_hold budget BufIo.pending_tx b'
  | Ready (Err _) => exists d', d' `prefix_of` d /\ BufIo.outgoing b' = BufIo.outgoing b ++ d'
  end.
Proof.
  intros Hwf (Hf1 & Hf2 & Hf3) Hd ((Htx & Hrx & Hr) & Hl & Hp). pose proof (within_lasts _ _ Hf3 Hl) as Hf3'.
  destruct (io_wf_tx b b' Hwf Htx Hrx) as [Hwf' Hin].
  split; [done|]. split; [done|]. unfold io_fuel. rewrite Hin. split.
  { destruct r as [|[[]|e]].
    - destruct Hr as (_ & -> & _). by apply prefix_app_r.
    - destruct Hr as (-> & _). by apply prefix_app_r.
    - destruct Hr as (k & _ & ->). by apply prefix_app_r. }
  unfold BufIo.rx_fields in Hrx. injection Hrx as _ Hpos Hprx _. split; [done|]. split; [done|].
  destruct r as [|[[]|e]]; [| |done].
  - destruct Hr as (? & ? & _ & ?). split; [split_and!; [lia|lia|done]|]. split; [done|]. eapply held_on_hold; [exact Hf3|by apply Hp].
  - destruct Hr as (? & -> & ? & _). change (zlen (@nil byte)) with 0. pose proof (zlen_nonneg d). split; [split_and!; [lia|lia|done]|done].
Qed.

Lemma span_room b : io_wf b -> BufIo.pos b + READ_BUF_INIT_SIZE <= MAX_CAPACITY.
Proof. intros (Hrd & _ & Hsp). rewrite BufIo.span_eq in Hsp by done. pose proof (zlen_nonneg (BufIo.incoming b)). lia. Qed.

(** A read side step keeps the buffers in order. *)
Lemma io_wf_rx b b' : io_wf b -> io_fuel fuel budget b -> BufIo.rd_wf b' -> BufIo.tx_same b b' ->
  BufIo.span b' <= BufIo.span b -> zlen (BufIo.incoming b') <= zlen (BufIo.incoming b) -> BufIo.lasts b b' ->
  io_wf b' /\ io_fuel fuel budget b' /\ BufIo.outgoing b' = BufIo.outgoing b /\
  BufIo.can_poll_write b' = BufIo.can_poll_write b.
Proof.
  intros (Hrd & Htx & Hsp) (Hf1 & Hf2 & Hf3) Hrd' Hs Hsp' Hlen Hl. pose proof (within_lasts _ _ Hf3 Hl) as Hf3'.
  pose proof (BufIo.outgoing_frame b b' Hs) as Ho. destruct Hs as [Hs _]. unfold BufIo.tx_fields in Hs.
  injection Hs as Hp Hw Hn.
  unfold io_wf, io_fuel, BufIo.tx_wf, BufIo.can_poll_write, BufIo.unsent in *. rewrite Hp, Hw, Hn.
  assert (BufIo.span b' + READ_BUF_INIT_SIZE <= MAX_CAPACITY) by lia.
  assert (2 * zlen (BufIo.incoming b') + 8 < Z.of_nat fuel) by lia. tauto.
Qed.

(** A buffer of [n] bytes is lent, filled with [d] and taken as a vector. *)
Lemma lent_buffer n : 0 < n <= isize_max ->
  exists v r, FastBuf.with_capacity n = Done v /\ FastBuf.borrow v = Done r /\ FastBufRef.len r = n /\
  forall d, zlen d <= n -> exists v', FastBufRef.extend (zlen d) (FastBufRef.written 0 d r) = Done v' /\
    FastBuf.into_vec v' = Done d.
Proof.
  intros Hn. destruct (FastBuf.with_capacity_ok n) as (v & Ev & Hv & Hc); [lia|].
  destruct (FastBuf.borrow_ok v [] Hv) as (r & sp & Er & Hr & _ & _ & Hs);
    [lia|left; change (zlen (@nil byte)) with 0; lia|].
  change (zlen (@nil byte)) with 0 in *. exists v, r. do 2 (split; [done|]).
  rewrite (FastBuf.is_ref_len _ _ _ Hr). change (zlen (@nil byte)) with 0. split; [lia|].
  intros d Hd. destruct (FastBuf.extend_ok r [] sp d Hr) as (v' & E & Hv' & _); [lia|].
  exists v'. split; [exact E|]. by apply FastBuf.into_vec_ok.
Qed.

Lemma swp_get_self P {Self A} (f : Self -> io (conn W R Self) A) c Q :
  swp P (f (self c)) c Q -> swp P (on_self get ≫= f) c Q.
Proof. unfold swp, mbind, io_bind, on_self, zoom, get. simpl. by destruct c. Qed.

Lemma swp_on_part P {Self Part A} (wrap : Part -> Self) p (m : io (conn W R Part) A) c Q :
  swp P m (mk_conn p (bio c) (wld c)) (fun r c' => Q r (mk_conn (wrap (self c')) (bio c') (wld c'))) ->
  swp P (on_part wrap p m) c Q.
Proof. unfold swp, on_part. by destruct (m _) as [[]| |]. Qed.

Lemma wp_on_part {Self Part A} (wrap : Part -> Self) p (m : io (conn W R Part) A) c Q :
  wp m (mk_conn p (bio c) (wld c)) (fun r c' => Q r (mk_conn (wrap (self c')) (bio c') (wld c'))) ->
  wp (on_part wrap p m) c Q.
Proof. unfold wp, on_part. by destruct (m _) as [[]| |]. Qed.

End InOrder.
