(* ===== verification/Stalls.v ===== *)
(** * What a poll costs the transport

    A transport that is live in both directions has a number of [stalls]
    left.  No operation on a connection gives it more: [calm] is that frame,
    with the rules by which it holds of the operations that both connections
    are made of. *)

From S2P Require Import Prelude.
From S2P Require Import Async.
From S2P Require Import Transport.
From S2P Require Import Buf_reader.
From S2P Require Import Limit.
From S2P Require Import Http11.
From S2P Require Import Mpsc.
From S2P Require Import Codec.

Section Calm.
Context {prof : Profile} {W R : Type} `{DuplexSpec R}.

(** [stalls_left] is the measure of everything that waits for the transport. *)
Definition stalls_left {Self} (c : conn W R Self) : nat := stalls (BufIo.inner (bio c)).
Definition calm {Self} (c c' : conn W R Self) : Prop := BufIo.lasts (bio c) (bio c').

#[export] Instance calm_preorder {Self} : PreOrder (calm (Self := Self)).
Proof. split; unfold calm; [by intros c ?|]. intros a b c Hab Hbc. by etransitivity. Qed.

Lemma calm_bio {Self A} (m : io (BufIo.t R) A) : keeps BufIo.lasts m -> keeps (calm (Self := Self)) (on_bio m).
Proof. intros Hm. by apply (keeps_zoom _ BufIo.lasts). Qed.

(** What does not touch the transport. *)
Lemma calm_world {Self A} (m : io W A) : keeps (calm (Self := Self)) (on_world m).
Proof. apply (keeps_zoom _ (fun _ _ => True)); [|done]. by intros c w _ ?. Qed.
Lemma calm_self {Self A} (m : io Self A) : keeps (calm (Self := Self)) (on_self m).
Proof. apply (keeps_zoom _ (fun _ _ => True)); [|done]. by intros c x _ ?. Qed.

(** A part of a connection has the same transport. *)
Lemma calm_part {Self Part A} (wrap : Part -> Self) p (m : io (conn W R Part) A) :
  keeps calm m -> keeps calm (on_part wrap p m).
Proof.
  intros Hm c r c'. unfold on_part. destruct (m _) as [[r1 c1]| |] eqn:E; [|done..]. intros [= _ <-].
  by apply Hm in E.
Qed.

Lemma calm_or_drop {Self A} (m : io (conn W R Self) A) (drop : io W unit) : keeps calm m -> keeps calm (or_drop m drop).
Proof.
  intros Hm c r c'. unfold or_drop. destruct (m c) as [[r1 c1]| |] eqn:E; [|done..]. apply Hm in E.
  destruct r1 as [|[a|e]]; simpl; try (by intros [= _ <-]).
  destruct (on_world drop c1) as [[r2 c2]| |] eqn:E2; [|done..]. intros [= _ <-]. apply calm_world in E2.
  by etransitivity.
Qed.

(** The body reader of a connection, wherever it keeps it. *)
Lemma calm_limit_read {Self} (get_limit : Self -> LimitRead.t) set_limit fuel n :
  keeps calm (fun c : conn W R Self =>
    '(r, (l, b)) ← LimitRead.poll_read fuel n (get_limit (self c), bio c);
    Done (r, mk_conn (set_limit l (self c)) b (wld c))).
Proof.
  intros c r c'. destruct (LimitRead.poll_read fuel n _) as [[r1 [l b]]| |] eqn:E; [|done..]. intros [= _ <-].
  by apply limit_read_yields in E as [? _].
Qed.

(** The operations of the buffered transport. *)
Lemma write_all_calm fuel d flush : keeps BufIo.lasts (write_all (R := R) fuel d flush).
Proof.
  intros b r b'. unfold write_all. destruct (BufIo.poll_write_all fuel flush _) as [[r1 [b1 o]]| |] eqn:E; [|done..].
  apply BufIo.poll_write_all_yields in E as [Hl _].
  destruct r1 as [|v]; simpl; [destruct (assert_ _ _); [|done..]|]; by intros [= _ <-].
Qed.

Lemma finish_calm fuel : keeps BufIo.lasts (BufIo.poll_finish_pending_write (R := R) fuel).
Proof. eapply yields_keeps, BufIo.poll_finish_pending_write_yields. Qed.
Lemma fill_buf_calm force : keeps BufIo.lasts (BufIo.poll_fill_buf (R := R) force).
Proof. eapply yields_keeps, BufIo.poll_fill_buf_yields. Qed.
Lemma crlfcrlf_calm {A} fuel (f : bytes -> bool -> A) : keeps BufIo.lasts (poll_for_crlfcrlf (R := R) fuel f).
Proof. eapply yields_keeps, poll_for_crlfcrlf_yields. Qed.
End Calm.

#[export] Hint Resolve calm_bio calm_world calm_self calm_part calm_or_drop : keeps.
#[export] Hint Resolve write_all_calm finish_calm fill_buf_calm crlfcrlf_calm : keeps.

(** ** What a task waits for can be decided *)

#[export] Instance nil_dec {A} (l : list A) : Decision (l = []).
Proof. destruct l; [by left|by right]. Defined.
#[export] Instance awaits_dec {T} register cx (ch : Mpsc.t T) : Decision (awaits register cx ch).
Proof. unfold awaits. apply _. Defined.
#[export] Instance backed_up_dec {T} cx (ch : Mpsc.t T) : Decision (backed_up cx ch).
Proof. unfold backed_up. apply _. Defined.
#[export] Instance held_by_dec {A} (P : A -> Prop) (o : option A) : (forall x, Decision (P x)) -> Decision (from_option P False o).
Proof. intros ?. destruct o; simpl; apply _. Defined.
#[export] Instance none_dec {A} (o : option A) : Decision (o = None).
Proof. destruct o; [by right|by left]. Defined.
