(* ===== verification/Dialogue.v ===== *)
(** * Messages on a wire

    One end writes messages, head after head, each with its body framed as
    its headers say; the other end takes a head, then reads the body, and so
    on.  Here is what the two have to do with each other, whoever they are:
    [said] is a message as it was written, [heard] as it was read, [listens]
    what reading a stream comes to.  A reader hears what was said, message by
    message: [listens_said].  What a chunked body leaves on the connection
    ([leftover]) ends up in front of the next head. *)

From S2P Require Import Prelude.
From S2P Require Import Async.
From S2P Require Import Std_text.
From S2P Require Import Fast_buf.
From S2P Require Import Transport.
From S2P Require Import Buf_reader.
From S2P Require Import Chunked.
From S2P Require Import Http_api.
From S2P Require Import Error.
From S2P Require Import Limit.
From S2P Require Import Http11.
From S2P Require Import Codec.

(** ** A body on the wire *)

Section Bodies.
Implicit Types (l : LimitWrite.t).

(** What the decoder leaves behind the end of a chunked body. *)
Definition line_ends : bytes := [LF; CR; LF].
Definition leftover l : bytes := match l with LimitWrite.ChunkedEncoder => line_ends | _ => [] end.

(** [data], or a part of it, written with the framing [l]; to the end if
    [fin]. *)
Definition says l (wire data : bytes) (fin : bool) : Prop :=
  match l with
  | LimitWrite.ChunkedEncoder => exists ds, Forall (fun d => zlen d < Coding.max_chunk) ds /\ data = concat ds /\
      wire = (ds ≫= Coding.coded) ++ (if fin then ChunkedEncoder.END else [])
  | LimitWrite.ContentLength v => wire = data /\ ContentLengthWrite.limit v <= u64_max /\
      zlen data <= ContentLengthWrite.limit v /\ (fin = true -> zlen data = ContentLengthWrite.limit v)
  | LimitWrite.NoBody => wire = [] /\ data = []
  end.

(** All of the body: the end was written, or can be told without. *)
Definition all_said l (data : bytes) (fin : bool) : Prop :=
  fin = true \/
  match l with
  | LimitWrite.ChunkedEncoder => False
  | LimitWrite.ContentLength v => zlen data = ContentLengthWrite.limit v
  | LimitWrite.NoBody => True
  end.

(** The reader of a framing; [None] if there is nothing to read. *)
Definition reader_of l : option LimitRead.t :=
  if LimitWrite.is_no_body l then None
  else match l with
  | LimitWrite.ChunkedEncoder => Some (LimitRead.ChunkedDecoder ChunkedDecoder.new)
  | LimitWrite.ContentLength v => Some (LimitRead.ContentLength (ContentLengthRead.new (ContentLengthWrite.limit v)))
  | LimitWrite.NoBody => None
  end.

(** A body that was read whole. *)
Definition reads_whole (r : option LimitRead.t) (wire body : bytes) : Prop :=
  match r with
  | None => wire = [] /\ body = []
  | Some r => exists r', reads r wire body r' /\ LimitRead.is_complete r' = true /\ LimitRead.is_read_to_end r = false
  end.

Lemma reached_end_unique d w d' o e w' o' s s' : DecoderSpec.reached d w d' o -> ChunkedDecoder.is_end d' = true ->
  DecoderSpec.reached d w' e o' -> ChunkedDecoder.is_end e = true -> w ++ s = w' ++ s' -> o = o' /\ s = s'.
Proof.
  assert (Hmore : forall d w d' o k e o', DecoderSpec.reached d w d' o -> ChunkedDecoder.is_end d' = true ->
    DecoderSpec.reached d (w ++ k) e o' -> o = o' /\ k = []).
  { clear. intros d w d' o k e o' Hr He Hr'. unfold DecoderSpec.reached in Hr'. rewrite (DecoderSpec.feeds_app _ _ _ _ _ Hr) in Hr'.
    destruct k as [|c k]; [simpl in Hr'; rewrite app_nil_r in Hr'; by injection Hr' as _ <-|].
    apply bool_decide_eq_true in He. simpl in Hr'. unfold DecoderSpec.feed in Hr'. by rewrite He in Hr'. }
  intros Hr He Hr' He' Hs. apply app_eq_inv in Hs as [(k & -> & ->)|(k & -> & ->)].
  - destruct (Hmore _ _ _ _ k _ _ Hr' He' Hr) as [-> ->]. done.
  - destruct (Hmore _ _ _ _ k _ _ Hr He Hr') as [-> ->]. done.
Qed.

(** What a whole reading of a stream in which a body was owed has read. *)
Lemma owes_reads r inc body rest w o r' s : owes r inc body rest -> LimitRead.is_read_to_end r = false ->
  reads r w o r' -> LimitRead.is_complete r' = true -> inc = w ++ s -> o = body /\ s = rest.
Proof.
  intros Ho Hk Hr Hc ->. destruct r as [d|v|v|], r' as [d'|v'|v'|]; simpl in *; try done.
  - destruct Ho as (_ & w' & e & Hr' & He & Hs). by eapply reached_end_unique.
  - destruct Ho as (_ & _ & Hlen & Hs), Hr as (-> & Hl & Ht). unfold ContentLengthRead.is_end in Hc.
    apply Z.eqb_eq in Hc. assert (zlen o = zlen body) by lia.
    apply app_inj_1 in Hs; [done|]. unfold zlen in *. lia.
  - destruct Hr as [-> ->]. by destruct Ho as [-> <-].
Qed.

(** What was said can be read: with something added to what was not said to
    the end, a reader is owed the data, and stops in front of the leftover. *)
Lemma says_owed l wire data fin r : says l wire data fin -> reader_of l = Some r ->
  exists more body, (fin = true -> more = []) /\ ((fin = false /\ zlen wire < zlen body) \/
      body = data /\ (all_said l data fin \/ zlen (leftover l) < zlen more)) /\
    forall tail, owes r (wire ++ more ++ tail) body (leftover l ++ tail).
Proof.
  unfold reader_of. destruct l as [|v|]; simpl; [| |done].
  - intros (ds & Hds & -> & ->) [= <-]. exists (if fin then [] else ChunkedEncoder.END), (concat ds).
    split; [by intros ->|]. split; [right; split; [done|]; destruct fin; [by left; left|right; by vm_compute]|]. intros tail. split; [by intros [|]|].
    destruct (Coding.reached_body ChunkedDecoder.new ds ltac:(done) Hds) as (e & Hr & He).
    eexists _, e. split; [exact Hr|]. split; [done|]. rewrite <- !app_assoc. by destruct fin.
  - destruct (ContentLengthWrite.limit v =? 0) eqn:Ez; [done|]. intros (-> & Hmax & Hle & Hfin) [= <-].
    set (gap := ContentLengthWrite.limit v - zlen data).
    exists (replicate (Z.to_nat gap) LF), (data ++ replicate (Z.to_nat gap) LF).
    split; [intros E%Hfin; unfold gap; by rewrite E, Z.sub_diag|]. split.
    + destruct (decide (gap = 0)) as [E|]; [right; rewrite E; simpl; rewrite app_nil_r; split; [done|left; right; unfold gap in E; lia]|left].
      destruct fin; [specialize (Hfin eq_refl); unfold gap in *; lia|]. split; [done|].
      rewrite zlen_app, zlen_replicate. unfold gap in *. lia.
    + intros tail. simpl. pose proof (zlen_nonneg data). split; [lia|]. split; [done|].
      rewrite zlen_app, zlen_replicate, <- app_assoc. unfold gap. split; [lia|done].
Qed.

Lemma says_nothing l wire data fin : says l wire data fin -> reader_of l = None -> wire = [] /\ data = [].
Proof.
  unfold reader_of. destruct l as [|v|]; simpl; [done| |by intros [-> ->]].
  destruct (Z.eqb_spec (ContentLengthWrite.limit v) 0) as [E|]; [|done]. intros (-> & _ & Hle & _) _.
  pose proof (zlen_nonneg data). assert (data = []) as -> by (apply zlen_zero; lia). done.
Qed.

(** A whole reading of what was said has read what was said, and leaves what
    follows: [s], or nothing if it was not said to the end. *)
Lemma said_is_read l wire data fin w o s r : says l wire data fin -> reads_whole (reader_of l) w o ->
  wire ++ s = w ++ r -> fin = true \/ s = [] ->
  o = data /\ all_said l data fin /\ if fin then r = leftover l ++ s else r `prefix_of` leftover l.
Proof.
  intros Hs Hr E Hfin. destruct (reader_of l) as [rd|] eqn:Erd; simpl in Hr.
  - destruct Hr as (rd' & Hr & Hc & Hk). destruct (says_owed _ _ _ _ _ Hs Erd) as (more & body & Hmore & Hd & Ho).
    pose proof (reads_out _ _ _ _ Hr) as Hlen. destruct fin.
    + rewrite Hmore in Ho by done. specialize (Ho s). simpl in Ho.
      destruct (owes_reads _ _ _ _ _ _ _ r Ho Hk Hr Hc E) as [-> ->]. split; [|by split; [left|]]. by destruct Hd as [[? _]|[? _]].
    + destruct Hfin as [| ->]; [done|]. specialize (Ho []). rewrite !app_nil_r in *. subst wire.
      destruct (owes_reads _ _ _ _ w o _ (r ++ more) Ho Hk Hr Hc) as [-> Hrest]; [by rewrite app_assoc|].
      pose proof (zlen_nonneg r). destruct Hd as [[_ Hd]|[-> Hall]]; [rewrite zlen_app in Hd; lia|].
      split; [done|]. split; [|by exists more]. destruct Hall as [|Hall]; [done|]. rewrite <- Hrest, zlen_app in Hall. lia.
  - destruct Hr as [-> ->], (says_nothing _ _ _ _ Hs Erd) as [-> ->]. simpl in E. subst s. split; [done|].
    assert (all_said l [] fin).
    { right. unfold reader_of in Erd. destruct l as [|v|]; simpl in *; try done. by destruct (Z.eqb_spec (ContentLengthWrite.limit v) 0). }
    split; [done|]. destruct fin; [unfold reader_of in Erd; by destruct l|]. destruct Hfin as [| ->]; [done|apply prefix_nil].
Qed.
End Bodies.

(** ** Messages *)

Section Messages.

(** A message as it is written. *)
Record said := Said {
  s_head : bytes; s_limit : LimitWrite.t;
  s_wire : bytes; s_data : bytes; s_fin : bool;   (* its body on the wire, what it is, is it all *)
}.

Definition plain_head (head : bytes) : Prop :=
  exists lines, lines <> [] /\ Forall plain_line lines /\ head = head_of lines.
Definition said_ok (m : said) : Prop :=
  plain_head (s_head m) /\ says (s_limit m) (s_wire m) (s_data m) (s_fin m).
Definition stream_of (ms : list said) : bytes := ms ≫= fun m => s_head m ++ s_wire m.

(** A message is written after the one before it is finished. *)
Fixpoint in_turn (ms : list said) : Prop :=
  match ms with [] => True | m :: ms => (s_fin m = true \/ ms = []) /\ in_turn ms end.

Lemma in_turn_last ms1 ms2 : Forall (fun m => s_fin m = true) ms1 -> (length ms2 <= 1)%nat -> in_turn (ms1 ++ ms2).
Proof.
  intros Hf Hl. induction Hf as [|m ms1 Hm _ IH]; [|simpl; by split; [left|]].
  destruct ms2 as [|m [|]]; simpl in *; [done|by split; [right|]|lia].
Qed.

(** A message as it is read; [h_eos] if the stream ended in its head. *)
Record heard := Heard {
  h_head : bytes; h_eos : bool; h_reader : option LimitRead.t;
  h_wire : bytes; h_body : bytes;
}.

Inductive listens : bytes -> list heard -> bytes -> Prop :=
  | listens_nil inc : listens inc [] inc
  | listens_cons inc h inc' hs rest :
      takes_head inc (h_head h) (h_wire h ++ inc') (h_eos h) ->
      reads_whole (h_reader h) (h_wire h) (h_body h) ->
      listens inc' hs rest -> listens inc (h :: hs) rest.

(** What may stand in front of a head, and what may be left at the end. *)
Definition gap (lo : bytes) : Prop := lo = [] \/ lo = line_ends.
Definition in_front (lo : bytes) (ms : list said) : Prop := lo `prefix_of` line_ends /\ (ms <> [] -> gap lo).

Definition heard_as (m : said) (h : heard) : Prop :=
  (exists lo, gap lo /\ h_head h = lo ++ s_head m) /\ h_eos h = false /\ h_body h = s_data m /\
  all_said (s_limit m) (s_data m) (s_fin m).
(** The end of a stream taken for a head. *)
Definition phantom (h : heard) : Prop := h_eos h = true /\ h_head h `prefix_of` line_ends.

(** The reader sees the framing that the writer meant. *)
Definition understands (ms : list said) (hs : list heard) : Prop :=
  forall i m h lo, ms !! i = Some m -> hs !! i = Some h -> gap lo -> h_eos h = false -> h_head h = lo ++ s_head m ->
    h_reader h = reader_of (s_limit m).

Lemma gap_prefix lo : gap lo -> lo `prefix_of` line_ends.
Proof. intros [-> | ->]; [apply prefix_nil|done]. Qed.

Lemma leftover_gap l : gap (leftover l).
Proof. destruct l; [by right|by left..]. Qed.

Lemma head_end_gap lo head s : gap lo -> plain_head head -> head_end (lo ++ head ++ s) = Some (zlen (lo ++ head)).
Proof.
  intros Hlo (lines & Hne & Hl & ->). destruct Hlo as [-> | ->]; [by apply (head_end_head_of lines s)|].
  destruct lines as [|l lines]; [done|]. rewrite (zlen_app line_ends). change (zlen line_ends) with 3.
  transitivity (head_end_from 3 3 (head_of (l :: lines) ++ s)); [done|].
  rewrite <- (head_end_lines 0 3 (l :: lines) s) by auto. apply Forall_cons_1 in Hl as [Hl _].
  unfold head_of. rewrite bind_cons, <- !app_assoc. by rewrite (head_end_plain 3 _ l), (head_end_plain 0 _ l) by (done || lia).
Qed.

Lemma takes_message lo head s h rest eos : gap lo -> plain_head head -> takes_head (lo ++ head ++ s) h rest eos ->
  eos = false /\ h = lo ++ head /\ rest = s.
Proof.
  intros Hlo Hh [E Ht]. pose proof (head_end_gap lo head s Hlo Hh) as He. destruct eos.
  - destruct Ht as (-> & _ & Hn). rewrite app_nil_r in E. by rewrite <- E, He in Hn.
  - split; [done|]. destruct Ht as [Hl _]. rewrite He in Hl. injection Hl as Hl. rewrite app_assoc in E.
    apply app_inj_1 in E as [-> ->]; [done|]. unfold zlen in Hl. lia.
Qed.

Lemma takes_end lo h rest eos : lo `prefix_of` line_ends -> takes_head lo h rest eos ->
  eos = true /\ h = lo /\ rest = [] /\ lo <> [].
Proof.
  intros Hp [E Ht]. assert (Hn : head_end lo = None).
  { destruct Hp as [k Hk]. destruct lo as [|a [|b [|c [|]]]]; try done; injection Hk; intros; by subst. }
  destruct eos; [|by rewrite Hn in Ht; destruct Ht]. destruct Ht as (-> & Hne & _). rewrite app_nil_r in E. by subst.
Qed.

(** A reader hears the messages in order, each whole and as it was said; past
    the last one it can only take the end of the stream for a head. *)
Lemma listens_said hs : forall lo ms rest, in_front lo ms -> Forall said_ok ms -> in_turn ms -> understands ms hs ->
  listens (lo ++ stream_of ms) hs rest ->
  exists hs1 hs2, hs = hs1 ++ hs2 /\ Forall2 heard_as (take (length hs1) ms) hs1 /\
    ((hs2 = [] /\ exists lo', in_front lo' (drop (length hs1) ms) /\ rest = lo' ++ stream_of (drop (length hs1) ms)) \/
     (exists h, hs2 = [h] /\ phantom h /\ rest = [] /\ drop (length hs1) ms = [])).
Proof.
  induction hs as [|h hs IH]; intros lo ms rest [Hlo Hgap] Hok Hturn Hu Hl.
  { exists [], []. split; [done|]. split; [constructor|]. left. split; [done|]. exists lo. split; [done|]. by inversion Hl. }
  inversion Hl as [|inc h' inc' hs' rest' Ht Hr Hl']; subst. destruct ms as [|m ms].
  - simpl in Ht. rewrite app_nil_r in Ht. apply takes_end in Ht as (He & Hh & Hw & _); [|done].
    apply app_nil in Hw as [Hw ->]. exists [], [h]. split.
    + destruct hs as [|h2 hs]; [done|]. inversion Hl' as [|inc2 h2' inc2' hs2 rest2 Ht2 _ _]; subst.
      apply takes_end in Ht2 as (_ & _ & _ & ?); [done|apply prefix_nil].
    + split; [constructor|]. right. exists h. split; [done|]. split; [split; [done|by rewrite Hh]|]. split; [|done].
      destruct hs as [|h2 hs]; [by inversion Hl'|]. inversion Hl' as [|inc2 h2' inc2' hs2 rest2 Ht2 _ _]; subst.
      apply takes_end in Ht2 as (_ & _ & _ & ?); [done|apply prefix_nil].
  - specialize (Hgap ltac:(done)). apply Forall_cons_1 in Hok as [[Hh Hs] Hok]. destruct Hturn as [Hfin Hturn].
    assert (E : lo ++ stream_of (m :: ms) = lo ++ s_head m ++ (s_wire m ++ stream_of ms))
      by (unfold stream_of; by rewrite bind_cons, <- !app_assoc).
    rewrite E in Ht. destruct (takes_message _ _ _ _ _ _ Hgap Hh Ht) as (He & Hhead & Hwire).
    rewrite (Hu 0%nat m h lo) in Hr by done.
    destruct (said_is_read _ _ _ _ _ _ (stream_of ms) inc' Hs Hr) as (Hd & Hall' & Hrest); [done|destruct Hfin as [?| ->]; [by left|by right]|].
    assert (Hfront : exists lo', in_front lo' ms /\ inc' = lo' ++ stream_of ms).
    { destruct (s_fin m).
      - exists (leftover (s_limit m)). pose proof (leftover_gap (s_limit m)). split; [split; [by apply gap_prefix|done]|done].
      - destruct Hfin as [| ->]; [done|]. exists inc'. rewrite app_nil_r. split; [|done]. split; [|done].
        etransitivity; [exact Hrest|]. apply gap_prefix, leftover_gap. }
    destruct Hfront as (lo' & Hfront & ->).
    destruct (IH lo' ms rest) as (hs1 & hs2 & -> & Hall & Hend); try done.
    { intros i. apply (Hu (S i)). }
    exists (h :: hs1), hs2. split; [done|]. split; [|exact Hend]. simpl. constructor; [|done].
    split; [by exists lo|by split].
Qed.

(** What is taken for a head after some messages is the next one. *)
Lemma next_message lo ms h rest eos : in_front lo ms -> Forall said_ok ms -> takes_head (lo ++ stream_of ms) h rest eos ->
  (exists m k, ms = m :: k /\ eos = false /\ exists lo', gap lo' /\ h = lo' ++ s_head m) \/
  (eos = true /\ h `prefix_of` line_ends).
Proof.
  intros [Hlo Hgap] Hok Ht. destruct ms as [|m ms].
  - simpl in Ht. rewrite app_nil_r in Ht. apply takes_end in Ht as (-> & -> & _); [by right|done].
  - left. exists m, ms. split; [done|]. specialize (Hgap ltac:(done)). apply Forall_cons_1 in Hok as [[Hh _] _].
    assert (E : lo ++ stream_of (m :: ms) = lo ++ s_head m ++ (s_wire m ++ stream_of ms))
      by (unfold stream_of; by rewrite bind_cons, <- !app_assoc).
    rewrite E in Ht. apply takes_message in Ht as (-> & -> & _); [|done..]. eauto.
Qed.
End Messages.
