(* ===== verification/Streams.v ===== *)
(** * What the user says through body streams

    A body is sent through a [SendStream], piece by piece, over a channel
    that the connection takes them from.  [speech] is a stream with the pieces
    it accepted; [polite] a piece that fits what the headers announce.  As
    long as the user is polite, what the connection takes from a channel is
    the framing of what was said, piece by piece and in order, and it is the
    whole of it once the last piece was taken: [carries], [taken_says]. *)

From S2P Require Import Prelude.
From S2P Require Import Async.
From S2P Require Import Fast_buf.
From S2P Require Import Chunked.
From S2P Require Import Http_api.
From S2P Require Import Error.
From S2P Require Import Limit.
From S2P Require Import Mpsc.
From S2P Require Import Share.
From S2P Require Import Accounts.
From S2P Require Import Channels.
From S2P Require Import Handles.
From S2P Require Import Dialogue.

Abbreviation piece := (bytes * bool)%type.
Abbreviation body_chan := (Mpsc.t (bytes * bool)).

(** ** What was said *)

Section Speech.
Implicit Types (l : LimitWrite.t) (said : list piece).

Record speech := Speech { sp_stream : SendStream.t; sp_said : list piece }.

(** A framing before anything was written. *)
Definition initial l : LimitWrite.t :=
  match l with LimitWrite.ContentLength v => LimitWrite.ContentLength (ContentLengthWrite.new (ContentLengthWrite.limit v)) | _ => l end.

Definition framing_of (sp : speech) : LimitWrite.t := initial (SendStream.limit (sp_stream sp)).
Definition data_of said : bytes := concat (fst <$> said).
Definition ended_by said : bool := existsb snd said.

(** The pieces as they are put on the channel. *)
Definition put_piece l (p : piece) : piece := (framed l p.1 ++ if p.2 then closing l else [], p.2).
Definition put_of l said : list piece := put_piece l <$> said.

(** What may be said next: nothing after the end, and with a content-length
    not more than it, and the end where it is reached. *)
Definition polite (sp : speech) (d : bytes) (end_ : bool) : Prop :=
  SendStream.ended (sp_stream sp) = false /\ ended_by (sp_said sp) = false /\
  match framing_of sp with
  | LimitWrite.ChunkedEncoder => zlen d < Coding.max_chunk
  | LimitWrite.ContentLength v =>
      let total := zlen (data_of (sp_said sp)) + zlen d in
      total <= ContentLengthWrite.limit v /\ (end_ = true -> total = ContentLengthWrite.limit v)
  | LimitWrite.NoBody => d = []
  end.

(** Pieces said politely. *)
Definition only_last_ends said : Prop :=
  exists ds, said = (., false) <$> ds \/ exists d, said = ((., false) <$> ds) ++ [(d, true)].
Definition proper l said : Prop :=
  only_last_ends said /\
  match l with
  | LimitWrite.ChunkedEncoder => Forall (fun p => zlen p.1 < Coding.max_chunk) said
  | LimitWrite.ContentLength v => zlen (data_of said) <= ContentLengthWrite.limit v /\
      (ended_by said = true -> zlen (data_of said) = ContentLengthWrite.limit v)
  | LimitWrite.NoBody => data_of said = []
  end.

Lemma data_of_app s1 s2 : data_of (s1 ++ s2) = data_of s1 ++ data_of s2.
Proof. unfold data_of. by rewrite fmap_app, concat_app. Qed.
Lemma data_of_one d end_ : data_of [(d, end_)] = d.
Proof. apply app_nil_r. Qed.
Lemma ended_by_app s1 s2 : ended_by (s1 ++ s2) = ended_by s1 || ended_by s2.
Proof. apply existsb_app. Qed.

Lemma ended_by_false (ds : list bytes) : ended_by ((., false) <$> ds) = false.
Proof. by induction ds. Qed.

Lemma only_last_ends_snoc said d end_ : only_last_ends said -> ended_by said = false -> only_last_ends (said ++ [(d, end_)]).
Proof.
  intros (ds & [-> |(d' & ->)]) He.
  - destruct end_; [exists ds; right; eauto|]. exists (ds ++ [d]). left. by rewrite fmap_app.
  - rewrite ended_by_app in He. simpl in He. by rewrite orb_true_r in He.
Qed.

Lemma proper_polite sp d end_ : proper (framing_of sp) (sp_said sp) -> polite sp d end_ ->
  proper (framing_of sp) (sp_said sp ++ [(d, end_)]).
Proof.
  intros [Ho Hp] (_ & He & Hd). split; [by apply only_last_ends_snoc|].
  rewrite data_of_app, data_of_one, ended_by_app, He. destruct (framing_of sp) as [|v|].
  - apply Forall_app. split; [done|by constructor].
  - rewrite zlen_app. simpl. rewrite orb_false_r. exact Hd.
  - by rewrite Hp, Hd.
Qed.

(** A front of what was said: not ended, or all of it. *)
Lemma only_last_ends_front said said' : only_last_ends said -> said' `prefix_of` said ->
  only_last_ends said' /\ (ended_by said' = true -> said' = said).
Proof.
  intros (ds & Hs) [k Hk].
  assert (Hfront : forall ds' k' : list piece, (., false) <$> ds = ds' ++ k' -> only_last_ends ds' /\ ended_by ds' = false).
  { intros ds' k' E. apply fmap_app_inv in E as (a & b & -> & _ & _). split; [by exists a; left|apply ended_by_false]. }
  destruct Hs as [-> |(d & ->)].
  - destruct (Hfront said' k) as [? ->]; done.
  - destruct (decide (k = [])) as [->|Hne]; [rewrite app_nil_r in Hk; subst; split; [exists ds; right; eauto|done]|].
    destruct (exists_last Hne) as (k' & x & ->). rewrite app_assoc in Hk. apply app_inj_tail in Hk as [Hk _].
    destruct (Hfront said' k') as [? ->]; done.
Qed.

Lemma proper_front l said said' : proper l said -> said' `prefix_of` said -> proper l said'.
Proof.
  intros [Ho Hp] Hpre. destruct (only_last_ends_front _ _ Ho Hpre) as [Ho' He]. split; [done|]. destruct Hpre as [k Hk].
  destruct l as [|v|].
  - rewrite Hk in Hp. by apply Forall_app in Hp as [? _].
  - destruct (ended_by said') eqn:E; [rewrite He by done; rewrite He in E by done; by rewrite E in Hp|].
    split; [|done]. rewrite Hk, data_of_app, zlen_app in Hp. zlen_facts. lia.
  - rewrite Hk, data_of_app in Hp. by apply app_nil in Hp as [? _].
Qed.

(** The framing of pieces said politely. *)
Lemma proper_says l said : proper l said -> (forall v, l = LimitWrite.ContentLength v -> ContentLengthWrite.limit v <= u64_max) ->
  says l (data_of (put_of l said)) (data_of said) (ended_by said).
Proof.
  intros [(ds & Ho) Hp] Hmax. unfold data_of at 1, put_of. destruct l as [|v|]; simpl.
  - exists (fst <$> said). split; [by rewrite Forall_fmap|]. split; [done|].
    assert (Hds : forall es : list bytes, concat (fst <$> (put_piece LimitWrite.ChunkedEncoder <$> ((., false) <$> es))) = es ≫= Coding.coded).
    { induction es as [|e es IH]; [done|]. rewrite bind_cons, <- IH. simpl. by rewrite app_nil_r. }
    assert (Hfst : forall es : list bytes, fst <$> ((., false) <$> es) = es).
    { induction es as [|e es IH]; [done|]. simpl. by f_equal. }
    destruct Ho as [-> |(d & ->)].
    + by rewrite ended_by_false, Hds, Hfst, app_nil_r.
    + rewrite ended_by_app. simpl. rewrite orb_true_r, !fmap_app, concat_app, Hds, Hfst, bind_app. simpl.
      by rewrite !app_nil_r, app_assoc.
  - split; [|split; [by apply Hmax|done]]. unfold data_of. clear. induction said as [|[d e] said IH]; [done|].
    simpl in *. f_equal; [by destruct e; rewrite app_nil_r|exact IH].
  - split; [|done]. clear. induction said as [|[d e] said IH]; [done|]. simpl. by destruct e.
Qed.
End Speech.

(** ** What the connection takes *)

Section Taking.
Implicit Types (c : body_chan) (o : gmap chan_id body_chan).

(** Senders never see the end of a channel before its receiver is gone. *)
Definition open_ok c : Prop := Mpsc.receivers c <> 0%nat -> Inner.ended (Mpsc.inner c) = false.

(** [l] was taken from the channel; the receiver may be dropped. *)
Definition takes (l : list piece) c c' : Prop :=
  (exists q, queue_of c = l ++ q /\ (queue_of c' = q \/ queue_of c' = [] /\ Mpsc.receivers c' = 0%nat)) /\
  (Mpsc.receivers c = 0%nat -> Mpsc.receivers c' = 0%nat) /\ (open_ok c -> open_ok c').

(** So for all channels of bodies. *)
Definition draws (f : chan_id -> list piece) o o' : Prop :=
  (forall id, o !! id = None -> f id = []) /\
  forall id c, o !! id = Some c -> exists c', o' !! id = Some c' /\ takes (f id) c c'.

Definition nothing (_ : chan_id) : list piece := [].
Abbreviation calm := (draws nothing).

Lemma takes_refl c : takes [] c c.
Proof. split; [exists (queue_of c); auto|done]. Qed.

Lemma takes_trans l1 l2 c1 c2 c3 : takes l1 c1 c2 -> takes l2 c2 c3 -> takes (l1 ++ l2) c1 c3.
Proof.
  intros ((q1 & E1 & H1) & R1 & O1) ((q2 & E2 & H2) & R2 & O2). split; [|auto]. destruct H1 as [H1|[H1 Hr]].
  - exists q2. by rewrite E1, <- app_assoc, <- E2, H1.
  - rewrite H1 in E2. symmetry in E2. apply app_nil in E2 as [-> ->]. exists q1. rewrite app_nil_r.
    split; [done|]. right. split; [by destruct H2 as [|[? _]]|auto].
Qed.

Lemma takes_pop c v q : queue_of c = v :: q -> takes [v] c (pop c).
Proof. intros E. split; [|done]. exists q. split; [done|]. left. unfold pop, queue_of in *. simpl. by rewrite E. Qed.

Lemma takes_close_rx c : takes [] c (close_rx c).
Proof.
  unfold close_rx. split; [|split].
  - exists (queue_of c). split; [done|]. unfold queue_of. simpl. case_decide as E; [right; simpl; split; [done|lia]|by left].
  - simpl. lia.
  - unfold open_ok. simpl. case_decide; simpl; [lia|]. intros Ho ?. apply Ho. lia.
Qed.

Lemma takes_same c c' : queue_of c' = queue_of c -> Mpsc.receivers c' = Mpsc.receivers c ->
  Inner.ended (Mpsc.inner c') = Inner.ended (Mpsc.inner c) -> takes [] c c'.
Proof. intros Eq Er Ee. unfold takes, open_ok. rewrite Eq, Er, Ee. split; [exists (queue_of c); auto|done]. Qed.

Lemma draws_trans f g h o1 o2 o3 : draws f o1 o2 -> draws g o2 o3 -> (forall id, h id = f id ++ g id) ->
  (forall id, o1 !! id = None -> g id = []) -> draws h o1 o3.
Proof.
  intros [F1 D1] [F2 D2] Hh Hg. split; [intros id Hid; rewrite Hh, F1, Hg by done; done|].
  intros id c Hc. destruct (D1 id c Hc) as (c2 & Hc2 & T1), (D2 id c2 Hc2) as (c3 & ? & T2).
  exists c3. split; [done|]. rewrite Hh. by eapply takes_trans.
Qed.

#[export] Instance calm_preorder : PreOrder calm.
Proof.
  split; [intros o; split; [done|]; intros id c ?; exists c; split; [done|apply takes_refl]|].
  intros o1 o2 o3 H1 H2. eapply draws_trans; [exact H1|exact H2|done|done].
Qed.

(** One channel changes. *)
Definition from_one (id : chan_id) (l : list piece) : chan_id -> list piece := fun j => if decide (j = id) then l else [].

Lemma draws_insert o id c c' l : o !! id = Some c -> takes l c c' -> draws (from_one id l) o (<[id := c']> o).
Proof.
  intros Hc Ht. unfold from_one. split; [intros j Hj; case_decide; congruence|]. intros j cj Hj.
  destruct (decide (j = id)) as [->|Hne]; [rewrite lookup_insert_eq|rewrite lookup_insert_ne by done]; [|eauto using takes_refl].
  rewrite Hc in Hj. injection Hj as <-. eauto.
Qed.

Lemma draws_alter o id f l : (forall c, o !! id = Some c -> takes l c (f c)) -> (o !! id = None -> l = []) ->
  draws (from_one id l) o (alter f id o).
Proof.
  intros Hf Hn. unfold from_one. split; [intros j Hj; case_decide; subst; auto|]. intros j cj Hj.
  destruct (decide (j = id)) as [->|Hne]; [rewrite lookup_alter_eq, Hj|rewrite lookup_alter_ne, Hj by done]; simpl; eauto using takes_refl.
Qed.

Lemma draws_ext f g o o' : draws f o o' -> (forall id, g id = f id) -> draws g o o'.
Proof. intros [F D] E. split; intros id; rewrite E; auto. Qed.

(** On the account of one channel. *)
Lemma draws_drawn f o o' id : draws f o o' -> (o !! id = None -> o' !! id = None) -> drawn (f id) (o !! id) (o' !! id).
Proof.
  intros [Hn Hd] Hk. destruct (o !! id) as [c|] eqn:Hc; simpl; [|by rewrite Hn, Hk].
  destruct (Hd id c Hc) as (c' & -> & Hq & Hr & _). exists c'. by split_and!.
Qed.

Lemma draws_gives o o' id : draws nothing o o' -> gives (o !! id) (o' !! id).
Proof.
  intros [_ Hd]. destruct (o !! id) as [c|] eqn:Hc; simpl; [|done]. destruct (Hd id c Hc) as (c' & -> & (q & Hq & Hq') & Hr & _).
  exists c'. split; [done|]. change (queue_of c = q) in Hq. subst q. split; [destruct Hq' as [-> |?]; [by left|by right]|].
  intros Hz. split; [auto|]. destruct Hq' as [-> |[-> _]]; [done|apply prefix_nil].
Qed.

Lemma from_one_nil id j : from_one id [] j = nothing j.
Proof. unfold from_one. by case_decide. Qed.

Lemma calm_alter o id f : (forall c, takes [] c (f c)) -> calm o (alter f id o).
Proof. intros Hf. eapply draws_ext; [apply (draws_alter o id f []); auto|]. intros j. by rewrite from_one_nil. Qed.

Lemma calm_insert_new o id c : o !! id = None -> calm o (<[id := c]> o).
Proof.
  intros Hn. split; [done|]. intros j cj Hj. exists cj. split; [|apply takes_refl].
  rewrite lookup_insert_ne by congruence. done.
Qed.
End Taking.

(** ** What the channels carry *)

Section Carrying.
Implicit Types (c : body_chan) (o : gmap chan_id body_chan) (m : gmap chan_id speech) (taken : chan_id -> list piece).

(** What was put on a channel was taken from it, or is in it; the rest is
    lost once its receiver is gone. *)
Definition carried (taken : list piece) c (put : list piece) : Prop :=
  open_ok c /\
  (put = taken ++ queue_of c \/ Mpsc.receivers c = 0%nat /\ queue_of c = [] /\ taken `prefix_of` put).

Definition sound (id : chan_id) (sp : speech) : Prop :=
  SendStream.tx_body (sp_stream sp) = id /\ proper (framing_of sp) (sp_said sp) /\
  forall v, framing_of sp = LimitWrite.ContentLength v -> ContentLengthWrite.limit v <= u64_max.

Record carries taken m o : Prop := {
  cs_speech : forall id sp, m !! id = Some sp -> sound id sp /\
    exists c, o !! id = Some c /\ carried (taken id) c (put_of (framing_of sp) (sp_said sp));
  cs_known : forall id, o !! id = None -> taken id = [];
}.

Lemma carried_takes t l c c' put : carried t c put -> takes l c c' -> carried (t ++ l) c' put.
Proof.
  intros [Ho Hc] ((q & E & Hq) & Hr & Ho'). split; [auto|]. destruct Hc as [-> |(Hz & Hn & Hp)].
  - rewrite E, app_assoc. destruct Hq as [-> |[Hq Hz]]; [by left|]. right. by split_and!; [| |apply prefix_app_r].
  - rewrite Hn in E. symmetry in E. apply app_nil in E as [-> ->]. rewrite app_nil_r. right. split_and!; [auto| |done].
    by destruct Hq as [|[? _]].
Qed.

Lemma carries_draws taken taken' m o o' f : carries taken m o -> draws f o o' ->
  (forall id, taken' id = taken id ++ f id) -> carries taken' m o'.
Proof.
  intros [Hs Hk] [F D] E. split.
  - intros id sp Hsp. destruct (Hs id sp Hsp) as (Hok & c & Hc & Hcar). destruct (D id c Hc) as (c' & Hc' & Ht).
    split; [done|]. exists c'. split; [done|]. rewrite E. by eapply carried_takes.
  - intros id Hid. destruct (o !! id) as [c|] eqn:Hc; [destruct (D id c Hc) as (? & ? & _); congruence|].
    by rewrite E, Hk, F.
Qed.

Lemma carries_calm taken m o o' : carries taken m o -> draws nothing o o' -> carries taken m o'.
Proof. intros Hc Hd. eapply carries_draws; [done..|]. intros id. by rewrite app_nil_r. Qed.

(** A new stream. *)
Lemma carries_new taken m o o' c s : carries taken m o -> draws nothing o o' -> let id := SendStream.tx_body s in
  o !! id = None -> o' !! id = Some c -> queue_of c = [] -> open_ok c -> sound id (Speech s []) ->
  carries taken (<[id := Speech s []]> m) o'.
Proof.
  intros Hc Hd id Hn Hid Hq Hok Hs. pose proof (cs_known _ _ _ Hc id Hn) as Ht.
  apply (carries_calm _ _ _ o') in Hc as [Hs' Hk]; [|done]. split; [|done]. intros j sp. rewrite lookup_insert_Some.
  intros [[<- <-]|[_ Hj]]; [|auto]. split; [done|]. exists c. split; [done|]. split; [done|]. left. by rewrite Ht, Hq.
Qed.

(** What was taken is the framing of a front of what was said, and the end
    is only taken with all of it. *)
Lemma taken_says taken m o id sp : carries taken m o -> m !! id = Some sp ->
  exists said, said `prefix_of` sp_said sp /\
    says (framing_of sp) (data_of (taken id)) (data_of said) (ended_by (taken id)) /\
    (ended_by (taken id) = true -> said = sp_said sp).
Proof.
  intros [Hs _] Hsp. destruct (Hs id sp Hsp) as ((_ & Hp & Hmax) & c & _ & _ & Hc). set (l := framing_of sp) in *.
  assert (Hpre : taken id `prefix_of` put_of l (sp_said sp)) by (destruct Hc as [-> |(_ & _ & ?)]; [by apply prefix_app_r|done]).
  destruct Hpre as [k Hk]. symmetry in Hk. unfold put_of in Hk. symmetry in Hk. apply fmap_app_inv in Hk as (said & rest & -> & _ & E).
  assert (Hpre : said `prefix_of` sp_said sp) by (exists rest; done). exists said. split; [done|].
  assert (He : ended_by (put_piece l <$> said) = ended_by said) by (clear; induction said as [|p s IH]; [done|]; unfold ended_by in *; simpl; by f_equal).
  rewrite He. split; [apply proper_says; [by eapply proper_front|done]|]. by apply (only_last_ends_front _ _ (proj1 Hp)).
Qed.
End Carrying.

(** All of a front of what was said, if it is complete on the wire. *)
Lemma all_said_front l wire said said' fin : proper l said -> said' `prefix_of` said -> says l wire (data_of said') fin ->
  (fin = true -> said' = said) -> all_said l (data_of said') fin -> data_of said' = data_of said.
Proof.
  intros [_ Hp] [k ->] Hs Hf [Hfin|Ha]; [by rewrite <- (Hf Hfin)|]. destruct l as [|v|]; [done|..].
  - rewrite data_of_app, zlen_app in *. zlen_facts. pose proof (zlen_nonneg (data_of k)).
    assert (data_of k = []) as -> by (apply zlen_zero; lia). by rewrite app_nil_r.
  - rewrite Hp. rewrite data_of_app in Hp. by apply app_nil in Hp as [-> _].
Qed.

(** ** Channels of their own *)

Section Owners.

(** Pieces of many bodies, with the channels they came from. *)
Definition from_chan (id : chan_id) (l : list (chan_id * bytes * bool)) : list piece :=
  omap (fun p => if decide (p.1.1 = id) then Some (p.1.2, p.2) else None) l.
Definition strip (l : list (chan_id * bytes * bool)) : list piece := (fun p => (p.1.2, p.2)) <$> l.

Lemma from_chan_app id l l' : from_chan id (l ++ l') = from_chan id l ++ from_chan id l'.
Proof. apply omap_app. Qed.

(** The pieces of each owner come from its own channel, and these differ. *)
Definition owned (g : option chan_id * list (chan_id * bytes * bool)) : Prop := Forall (fun p => g.1 = Some p.1.1) g.2.

Lemma from_chan_own id l : owned (Some id, l) -> from_chan id l = strip l.
Proof.
  unfold owned. simpl. induction 1 as [|p l [= E] _ IH]; [done|]. simpl. rewrite decide_True by done. by f_equal.
Qed.

Lemma from_chan_other id g : owned g -> g.1 <> Some id -> from_chan id g.2 = [].
Proof.
  unfold owned. intros Ho Hne. induction Ho as [|p l E _ IH]; [done|]. simpl. rewrite decide_False by congruence. done.
Qed.

Lemma from_chan_others id G : Forall owned G -> id ∉ omap fst G -> from_chan id (concat (snd <$> G)) = [].
Proof.
  induction 1 as [|g G Hg _ IH]; [done|]. intros Hid. simpl. rewrite from_chan_app.
  rewrite from_chan_other; [|done|intros E; apply Hid; simpl; rewrite E; by left].
  apply IH. intros Hin. apply Hid. destruct g as [[j|] l]; simpl; [by right|exact Hin].
Qed.

Lemma from_chan_owner G id l : Forall owned G -> NoDup (omap fst G) -> (Some id, l) ∈ G ->
  from_chan id (concat (snd <$> G)) = strip l.
Proof.
  intros Ho Hd (G1 & G2 & ->)%list_elem_of_split. rewrite omap_app in Hd.
  change (omap fst ((Some id, l) :: G2)) with (id :: omap fst G2) in Hd.
  apply list.NoDup_app in Hd as (_ & Hd1 & Hd2). apply Forall_app in Ho as [Ho1 [Hg Ho2]%Forall_cons_1].
  rewrite fmap_app, concat_app, from_chan_app, fmap_cons. cbn [concat snd]. rewrite from_chan_app, (from_chan_own id l) by done.
  apply list.NoDup_cons in Hd2 as [Hd2 _]. rewrite (from_chan_others id G2) by done.
  rewrite (from_chan_others id G1); [by rewrite app_nil_r|done|]. intros Hin. apply (Hd1 id Hin). by left.
Qed.
End Owners.

(** The framing that headers ask for. *)
Section Headers.
Context `{Http}.

Lemma initial_from_headers headers : initial (LimitWrite.from_headers headers) = LimitWrite.from_headers headers.
Proof. unfold LimitWrite.from_headers. destruct (is_chunked _); [done|]. by destruct (get_as _ _). Qed.

Lemma sound_new headers s : SendStream.limit s = LimitWrite.from_headers headers ->
  sound (SendStream.tx_body s) (Speech s []).
Proof.
  intros E. unfold sound, framing_of. cbn [sp_stream sp_said]. rewrite E, initial_from_headers. unfold LimitWrite.from_headers.
  split; [done|]. split.
  - split; [by exists []; left|]. destruct (is_chunked _); [done|]. destruct (get_as _ _) as [n|] eqn:En; [|done].
    apply get_as_range in En. simpl. change (zlen (data_of [])) with 0. split; [lia|done].
  - intros v. destruct (is_chunked _); [done|]. destruct (get_as _ _) as [n|] eqn:En; [|done].
    apply get_as_range in En. intros [= <-]. simpl. lia.
Qed.
End Headers.

(** ** Calls that leave bodies alone *)

Section Calm.
Context {Q A : Type}.
Implicit Types (w : world Q A).

(** Nothing is put on a body's channel, and nothing taken; a receiver may be
    dropped. *)
Definition leaves_bodies w w' : Prop := draws nothing (outs w) (outs w').

#[export] Instance leaves_bodies_preorder : PreOrder leaves_bodies.
Proof. split; [intros w|intros w1 w2 w3]; unfold leaves_bodies; [reflexivity|apply transitivity]. Qed.

Lemma on_out_leaves {B} id (op : body_chan -> B * body_chan * list waker) w a w' :
  (forall c a c' l, op c = (a, c', l) -> takes [] (still c) (still c')) ->
  on_chan out_chans id op w = Done (a, w') -> leaves_bodies w w'.
Proof.
  intros Hop. unfold on_chan. simpl. destruct (outs w !! id) as [c|] eqn:Hc; [|done].
  destruct (op c) as [[? c'] l] eqn:E. intros [= _ <-]. apply Hop in E.
  eapply draws_ext; [by apply (draws_insert _ id c c' [])|]. intros j. by rewrite from_one_nil.
Qed.

Lemma on_res_leaves {B} id (op : Mpsc.t A -> B * Mpsc.t A * list waker) w a w' :
  on_chan res_chans id op w = Done (a, w') -> leaves_bodies w w'.
Proof.
  unfold on_chan. simpl. destruct (ress w !! id) as [c|]; [|done]. destruct (op c) as [[? c'] l]. intros [= _ <-]. unfold leaves_bodies. simpl. reflexivity.
Qed.

Lemma on_in_leaves {B} id (op : Mpsc.t (io_result bytes) -> B * Mpsc.t (io_result bytes) * list waker) w a w' :
  on_chan in_chans id op w = Done (a, w') -> leaves_bodies w w'.
Proof.
  unfold on_chan. simpl. destruct (ins w !! id) as [c|]; [|done]. destruct (op c) as [[? c'] l]. intros [= _ <-]. unfold leaves_bodies. simpl. reflexivity.
Qed.

Lemma carries_still taken m w : carries taken m (outs (still_world w)) <-> carries taken m (outs w).
Proof.
  assert (Hl : forall id, outs (still_world w) !! id = still <$> outs w !! id) by (intros id; apply lookup_fmap).
  split; intros [Hs Hk]; split; intros id.
  - intros sp Hsp. destruct (Hs id sp Hsp) as (? & c & Hc & ?). split; [done|]. rewrite Hl in Hc.
    apply fmap_Some in Hc as (c' & Hc' & ->). by exists c'.
  - intros Hn. apply Hk. by rewrite Hl, Hn.
  - intros sp Hsp. destruct (Hs id sp Hsp) as (? & c & Hc & ?). split; [done|]. exists (still c). by rewrite Hl, Hc.
  - intros Hn. apply Hk. rewrite Hl in Hn. by apply fmap_None in Hn.
Qed.

Ltac leaves_tac :=
  let E := fresh "E" in
  intros w ? w'; unfold poll_recv_chan, send_chan, drop_tx_chan, drop_rx_chan;
  destruct (on_chan _ _ _ w) as [[? ?]| |] eqn:E; try done; intros [= _ <-]; revert E;
  first [apply on_res_leaves | apply on_in_leaves | apply on_out_leaves].

Lemma recv_res_leaves id cx register : keeps leaves_bodies (poll_recv_chan (W := world Q A) res_chans id cx register).
Proof. leaves_tac. Qed.
Lemma drop_rx_res_leaves id : keeps leaves_bodies (drop_rx_chan (W := world Q A) res_chans id).
Proof. leaves_tac. Qed.
Lemma drop_tx_res_leaves id : keeps leaves_bodies (drop_tx_chan (W := world Q A) res_chans id).
Proof. leaves_tac. Qed.
Lemma send_res_leaves id v : keeps leaves_bodies (send_chan (W := world Q A) res_chans id v).
Proof. leaves_tac. Qed.
Lemma recv_in_leaves id cx register : keeps leaves_bodies (poll_recv_chan (W := world Q A) in_chans id cx register).
Proof. leaves_tac. Qed.
Lemma drop_rx_in_leaves id : keeps leaves_bodies (drop_rx_chan (W := world Q A) in_chans id).
Proof. leaves_tac. Qed.
Lemma new_res_leaves : keeps leaves_bodies (new_chan (W := world Q A) res_chans 1).
Proof. intros w r w' [= _ <-]. unfold leaves_bodies. simpl. reflexivity. Qed.
Lemma new_out_leaves : keeps leaves_bodies (new_chan (W := world Q A) out_chans 1).
Proof. intros w r w' [= _ <-]. apply calm_insert_new, fresh_chan_none. Qed.
Lemma drop_tx_out_leaves id : keeps leaves_bodies (drop_tx_chan (W := world Q A) out_chans id).
Proof.
  leaves_tac. intros c a c' l. destruct (Mpsc.drop_sender c) eqn:E. apply still_drop_sender in E.
  intros [= _ <- _]. rewrite E. by apply takes_same.
Qed.
Lemma drop_rx_out_leaves id : keeps leaves_bodies (drop_rx_chan (W := world Q A) out_chans id).
Proof.
  leaves_tac. intros c a c' l. destruct (Mpsc.drop_receiver c) eqn:E. apply still_drop_receiver in E.
  intros [= _ <- _]. rewrite E. apply takes_close_rx.
Qed.

Lemma on_reqs_leaves {B} (op : Mpsc.t Q -> B * Mpsc.t Q * list waker) w : leaves_bodies w (on_reqs op w).2.
Proof. unfold on_reqs, leaves_bodies. destruct (op (reqs w)) as [[a c] l]. simpl. reflexivity. Qed.

Lemma drop_each_leaves {B} (drop : B -> io (world Q A) unit) l :
  (forall x, keeps leaves_bodies (drop x)) -> keeps leaves_bodies (drop_each drop l).
Proof. intros Hd. induction l as [|x l IH]; simpl; keeps_tac; auto. Qed.

Lemma poll_body_data_leaves {prof : Profile} fuel cx n :
  keeps (snd_rel leaves_bodies) (RecvStream.poll_body_data (W := world Q A) fuel cx n).
Proof. unfold RecvStream.poll_body_data, RecvStream.body_data_turn. keeps_tac. apply recv_in_leaves. Qed.
End Calm.

#[export] Hint Resolve recv_res_leaves drop_rx_res_leaves drop_tx_res_leaves send_res_leaves recv_in_leaves
  drop_rx_in_leaves new_res_leaves new_out_leaves drop_tx_out_leaves drop_rx_out_leaves : keeps.

(** ** A poll of [send_data] *)

Section Sending.
Context {Q A : Type} {prof : Profile} `{Http} `{Httparse}.
Implicit Types (w : world Q A).

Definition said_now (r : poll (result unit Error.t)) (d : Data) (end_ : bool) : list piece :=
  match r with Ready (Ok _) => [(data_bytes d, end_)] | _ => [] end.

(** A stream after a poll that returned [r]. *)
Definition say (sp : speech) this (r : poll (result unit Error.t)) (d : Data) (end_ : bool) : speech :=
  Speech this (sp_said sp ++ said_now r d end_).

Definition same_rest w w' : Prop := reqs w' = reqs w /\ ress w' = ress w /\ ins w' = ins w.

Lemma initial_advanced l d : initial (advanced l d) = initial l.
Proof. by destruct l. Qed.

Lemma to_send_stream this d end_ r rest this' : sendable this d -> SendStream.to_send d end_ this = Done (r, rest, this') ->
  SendStream.tx_body this' = SendStream.tx_body this /\ initial (SendStream.limit this') = initial (SendStream.limit this).
Proof.
  intros Hs E. destruct (to_send_ok this d end_ Hs) as (rest' & Eo). rewrite Eo in E. destruct (shortcut this d).
  - injection E as _ _ <-. split; [done|apply initial_advanced].
  - pose proof (frame_ok this d end_ Hs) as Hf. destruct (refuses _ _); [destruct Hf as (m & Hf)|]; rewrite Hf in E;
      injection E as _ _ <-; (split; [done|apply initial_advanced]).
Qed.

Lemma ready_out_same id cx w r w' : poll_ready_chan out_chans id cx w = Done (r, w') -> same_rest w w' /\
  exists c c', outs w !! id = Some c /\ outs w' = <[id := c']> (outs w) /\ still c' = still c.
Proof.
  unfold poll_ready_chan, on_chan. simpl. destruct (outs w !! id) as [c|]; [|done].
  destruct (Mpsc.poll_ready cx true c) as [r1 c'] eqn:E. apply still_ready in E as [E _]. intros [= _ <-].
  split; [done|]. exists c, c'. split; [done|]. split; [done|exact E].
Qed.

Lemma send_out_push id v w r w' : send_chan out_chans id v w = Done (r, w') -> same_rest w w' /\
  exists c c', outs w !! id = Some c /\ outs w' = <[id := c']> (outs w) /\ still c' = push v (still c) /\
    r = Ready (Ok (bool_decide (Mpsc.receivers c <> 0%nat))).
Proof.
  unfold send_chan, on_chan. simpl. destruct (outs w !! id) as [c|]; [|done].
  destruct (Mpsc.send v c) as [[ok c'] l] eqn:E. apply still_send in E as [E ->]. intros [= <- <-].
  split; [done|]. by exists c, c'.
Qed.

Lemma put_piece_initial l p : put_piece (initial l) p = put_piece l p.
Proof. by destruct l. Qed.

(** Exactly what was accepted is put on the channel of the stream. *)
Lemma poll_send_puts cx end_ this d w r this' rest w' : sendable this d -> SendStream.ended this = false ->
  SendStream.poll_send_data cx end_ (this, d, w) = Done (r, (this', rest, w')) ->
  same_rest w w' /\ SendStream.tx_body this' = SendStream.tx_body this /\
  initial (SendStream.limit this') = initial (SendStream.limit this) /\
  exists c c', outs w !! SendStream.tx_body this = Some c /\ outs w' = <[SendStream.tx_body this := c']> (outs w) /\
    Mpsc.receivers c' = Mpsc.receivers c /\ Inner.ended (Mpsc.inner c') = Inner.ended (Mpsc.inner c) /\
    (open_ok c -> queue_of c' = queue_of c ++ put_of (SendStream.limit this) (said_now r d end_)) /\
    (said_now r d end_ <> [] -> Mpsc.receivers c <> 0%nat).
Proof.
  intros Hs He. unfold SendStream.poll_send_data, mbind, api_bind, api_get. rewrite He. cbn [andb].
  unfold SendStream.on_world at 1, api_io.
  destruct (poll_ready_chan _ _ _ w) as [[r1 w1]| |] eqn:E1; try done.
  apply ready_out_same in E1 as (Hw1 & c & c1 & Hc & Ho1 & Hc1).
  assert (Hidle : exists c c', outs w !! SendStream.tx_body this = Some c /\
    outs w1 = <[SendStream.tx_body this := c']> (outs w) /\
    Mpsc.receivers c' = Mpsc.receivers c /\ Inner.ended (Mpsc.inner c') = Inner.ended (Mpsc.inner c) /\
    (open_ok c -> queue_of c' = queue_of c ++ put_of (SendStream.limit this) []) /\ (@nil piece <> [] -> Mpsc.receivers c <> 0%nat)).
  { exists c, c1. injection Hc1 as Hq Hen _ Hr _. rewrite app_nil_r. by split_and!. }
  destruct r1 as [|[[]|e]]; simpl; [by intros [= <- <- _ <-]| |by intros [= <- <- _ <-]..].
  unfold api_lift, api_put. simpl. destruct (SendStream.to_send d end_ this) as [[[[v|e] rest2] this2]| |] eqn:Et;
    simpl; try done; pose proof Et as Ht; apply to_send_stream in Ht as [Hid Hl]; try done; [|by intros [= <- <- _ <-]].
  destruct (to_send_accepts _ _ _ _ _ _ Hs Et) as [_ ->].
  unfold SendStream.on_world, api_io. destruct (send_chan _ _ _ w1) as [[r2 w2]| |] eqn:E2; try done.
  apply send_out_push in E2 as (Hw2 & c1' & c2 & Hc1' & Ho2 & Hc2 & ->). rewrite Hid in Hc1', Ho2.
  rewrite Ho1, lookup_insert_eq in Hc1'. injection Hc1' as <-. rewrite Ho1, insert_insert_eq in Ho2.
  assert (Hw : same_rest w w2) by (destruct Hw1 as (? & ? & ?), Hw2 as (? & ? & ?); split_and!; congruence).
  pose proof Hc1 as Hc1'. injection Hc1' as Hq Hen Hb Hr Hse. rewrite Hc1 in Hc2. unfold push in Hc2. cbn [Mpsc.receivers still] in Hc2.
  rewrite Hr. destruct (decide (Mpsc.receivers c = 0%nat)) as [Hz|Hz].
  - rewrite bool_decide_false by (intros []; done). simpl. intros [= <- <- _ <-]. split; [done|]. split; [done|]. split; [done|].
    exists c, c2. injection Hc2 as Hq2 Hen2 _ Hr2 _. rewrite app_nil_r. by split_and!.
  - rewrite bool_decide_true by done. simpl. intros [= <- <- _ <-]. split; [done|]. split; [done|]. split; [done|].
    exists c, c2. split; [done|]. split; [done|]. destruct (Inner.ended (Mpsc.inner c)) eqn:Eend; simpl in Hc2.
    + rewrite Eend in Hc2. injection Hc2 as Hq2 Hen2 _ Hr2 _. split_and!; try done; [by rewrite Hen2|]. intros Hok. by rewrite Hok in Eend.
    + rewrite Eend in Hc2. injection Hc2 as Hq2 Hen2 _ Hr2 _. split_and!; try done. by rewrite Hen2.
Qed.

(** A piece is put at the end of the stream's channel, or nothing. *)
Lemma send_data_gives cx end_ this d w r this' rest w' :
  SendStream.poll_send_data cx end_ (this, d, w) = Done (r, (this', rest, w')) ->
  same_rest w w' /\ forall id, gives (outs w !! id) (outs w' !! id).
Proof.
  assert (Hset : forall w1 w2 i c c', same_rest w1 w2 -> outs w1 !! i = Some c -> outs w2 = <[i := c']> (outs w1) -> gives (Some c) (Some c') ->
    same_rest w1 w2 /\ forall id, gives (outs w1 !! id) (outs w2 !! id)).
  { intros w1 w2 i c c' Hr Hc -> Hg. split; [done|]. intros id. destruct (decide (id = i)) as [->|Hne]; [by rewrite Hc, lookup_insert_eq|].
    rewrite lookup_insert_ne by done. apply gives_refl. }
  assert (Hstill : forall c c' : body_chan, gives (Some (still c)) (Some (still c')) -> gives (Some c) (Some c')).
  { intros c c' (c2 & [= <-] & Hg). by exists c'. }
  unfold SendStream.poll_send_data, mbind, api_bind, api_get.
  destruct (_ && _); [by intros [= _ _ _ <-]|]. destruct (SendStream.ended this); [by intros [= _ _ _ <-]|].
  unfold SendStream.on_world at 1, api_io.
  destruct (poll_ready_chan _ _ _ w) as [[r1 w1]| |] eqn:E1; try done.
  apply ready_out_same in E1 as (Hw1 & c & c1 & Hc & Ho1 & Hc1).
  destruct (Hset w w1 _ c c1 Hw1 Hc Ho1) as [Hr1 Hg1]; [apply Hstill; by rewrite Hc1|].
  destruct r1 as [|[[]|e]]; simpl; [by intros [= _ _ _ <-]| |by intros [= _ _ _ <-]..].
  unfold api_lift, api_put. simpl. destruct (SendStream.to_send d end_ this) as [[[[v|e] rest2] this2]| |]; simpl; try done;
    [|by intros [= _ _ _ <-]].
  unfold SendStream.on_world, api_io. destruct (send_chan _ _ _ w1) as [[r2 w2]| |] eqn:E2; try done.
  apply send_out_push in E2 as (Hw2 & c1' & c2 & Hc1' & Ho2 & Hc2 & _).
  destruct (Hset w1 w2 _ c1' c2 Hw2 Hc1' Ho2) as [Hr2 Hg2]; [apply Hstill; rewrite Hc2; apply gives_push|].
  intros E. assert (w' = w2) as -> by by destruct r2 as [|[[]|e2]]; injection E.
  split; [destruct Hr1 as (? & ? & ?), Hr2 as (? & ? & ?); repeat split; congruence|]. intros id. etransitivity; [apply Hg1|apply Hg2].
Qed.

Lemma carries_send taken (m : gmap chan_id speech) w id sp cx end_ d r this' rest w' : carries taken m (outs w) ->
  m !! id = Some sp -> sendable (sp_stream sp) d -> polite sp (data_bytes d) end_ ->
  SendStream.poll_send_data cx end_ (sp_stream sp, d, w) = Done (r, (this', rest, w')) ->
  carries taken (<[id := say sp this' r d end_]> m) (outs w') /\ same_rest w w' /\
  framing_of (say sp this' r d end_) = framing_of sp.
Proof.
  intros [Hs Hk] Hsp Hd Hpol E. destruct (Hs id sp Hsp) as ((Hid & Hp & Hmax) & c0 & Hc0 & Hok & Hcar).
  apply poll_send_puts in E as (Hw & Hid' & Hl & c & c' & Hc & Ho & Hr & Hen & Hq & Hne); [|done|apply Hpol].
  rewrite Hid in Hc, Ho. rewrite Hc0 in Hc. injection Hc as <-. specialize (Hq Hok).
  assert (Hf : framing_of (say sp this' r d end_) = framing_of sp) by done. split; [|done]. split.
  - intros j spj. rewrite lookup_insert_Some. intros [[<- <-]|[Hj Hspj]].
    + split; [split; [by rewrite <- Hid|rewrite Hf; split; [|done]]|].
      { simpl. destruct r as [|[[]|e]]; simpl; rewrite ?app_nil_r; [done| |done]. by apply proper_polite. }
      exists c'. rewrite Ho, lookup_insert_eq. split; [done|]. rewrite Hf. split.
      { unfold open_ok. by rewrite Hr, Hen. }
      unfold put_of in *. simpl. rewrite fmap_app. destruct Hcar as [-> |(Hz & Hqn & Hpre)].
      * left. rewrite Hq, app_assoc. f_equal. apply list_fmap_ext. intros _ p _. apply put_piece_initial.
      * right. rewrite Hr, Hz, Hq, Hqn. split; [done|]. destruct (said_now r d end_); [simpl; by rewrite !app_nil_r|exfalso; by apply Hne].
    + destruct (Hs j spj Hspj) as (Hsj & cj & Hcj & Hcarj). split; [done|]. exists cj.
      by rewrite Ho, lookup_insert_ne by done.
  - intros j. rewrite Ho, lookup_insert_None. intros [? _]. auto.
Qed.
End Sending.
