(* ===== verification/Machine.v ===== *)
(** * Runs of an abstract machine

    What the abstract machines of the two connections share: a run is a
    sequence of steps with their events. *)

From S2P Require Import Prelude.

Module Machine.
Section Defs.
Context {S E : Type} (step : S -> E -> S -> Prop).

Inductive run : S -> list E -> S -> Prop :=
  | run_nil s : run s [] s
  | run_cons s e s' es s'' : step s e s' -> run s' es s'' -> run s (e :: es) s''.

Lemma run_one s e s' : step s e s' -> run s [e] s'.
Proof. intros. eapply run_cons; [done|apply run_nil]. Qed.

Lemma run_trans s es s' es' s'' : run s es s' -> run s' es' s'' -> run s (es ++ es') s''.
Proof. induction 1; simpl; [done|]. intros. eapply run_cons; eauto. Qed.

(** What every step carries on, a run carries on. *)
Lemma run_extends (P : list E -> S -> Prop) :
  (forall es s e s', P es s -> step s e s' -> P (es ++ [e]) s') ->
  forall s es' s', run s es' s' -> forall es, P es s -> P (es ++ es') s'.
Proof.
  intros HP s es' s'. induction 1 as [s|s e s1 es' s2 Hs _ IH]; intros es Hes; [by rewrite app_nil_r|].
  change (e :: es') with ([e] ++ es'). rewrite app_assoc. by eapply IH, HP.
Qed.
End Defs.
End Machine.
