(* ===== verification/Client.v ===== *)
(** * The client connection (src/client.rs)

    [Connection] drives the transport; [SendRequest], [ResponseFuture],
    [SendStream] and [RecvStream] are the user's handles.  They only meet in
    channels: [world] is the store of all channels of a connection, and every
    operation, of a handle or of the connection, is a function on it.  A
    handle that Rust drops is dropped by hand here: who holds a channel is
    part of its state. *)

From S2P Require Import Prelude.
From S2P Require Import Async.
From S2P Require Import Fast_buf.
From S2P Require Import Transport.
From S2P Require Import Buf_reader.
From S2P Require Import Http_api.
From S2P Require Import Error.
From S2P Require Import Limit.
From S2P Require Import Http11.
From S2P Require Import Mpsc.
From S2P Require Import Share.
From S2P Require Import Channels.
From S2P Require Import Codec.

Definition MAX_REQUEST_SIZE : Z := 8192.
Definition MAX_BODY_READ_SIZE : Z := 8 * 1024 * 1024.

(** ** The channels of a connection *)

Module Handle.
(** A request on its way to the connection, with the connection's ends of its
    two channels. *)
Record t `{Http} := mk {
  req : Request;
  body_rx : option chan_id;   (* receiver of the request body *)
  res_tx : option chan_id;    (* sender of the response *)
}.
Definition set_body_rx `{Http} (o : option chan_id) (h : t) : t := mk _ (req h) o (res_tx h).
Definition set_res_tx `{Http} (o : option chan_id) (h : t) : t := mk _ (req h) (body_rx h) o.
End Handle.

(** [io::Result<http::Response<RecvStream>>] *)
Definition response `{Http} : Type := io_result (Response * RecvStream.t).

Abbreviation world := (Channels.world Handle.t response).

Section World.
Context `{Http}.
Implicit Types (w : world).

(** Dropping a [Handle]: its fields, in order. *)
Definition drop_handle (h : Handle.t) : io world unit :=
  drop_opt (drop_rx_chan out_chans) (Handle.body_rx h);;
  drop_opt (drop_tx_chan res_chans) (Handle.res_tx h).

(** Dropping what a [ResponseFuture] may hold: only an [Ok] has a handle. *)
Definition drop_response (r : response) : io world unit :=
  match r with
  | Ok (_, recv) => drop_rx_chan in_chans (RecvStream.rx_body recv)
  | Err _ => mret tt
  end.

(** [res_tx.send(r)]: a response that cannot be delivered is dropped. *)
Definition send_response (id : chan_id) (r : response) : io world bool :=
  sent ← send_chan res_chans id r;
  (if negb sent then drop_response r else mret tt);;
  mret sent.
End World.

(** ** The user's side *)

Module SendRequest.
Section Defs.
Context `{Http} `{Httparse}.

Definition no_connect : Error.t := Error.User [Lit "hreq-h1 does not support CONNECT"].

(** The channels are made, the handle is sent; what is handed to nobody is
    dropped at the end of the call, in the reverse order of declaration: the
    receiver of a body that is not sent too, whose name is only shadowed. *)
Definition open_request (req : Request) (no_send_body : bool) :
    io world (chan_id * chan_id * bool) :=
  res ← new_chan res_chans 1;
  body ← new_chan out_chans 1;
  let next := Handle.mk _ req (if no_send_body then None else Some body) (Some res) in
  sent ← (fun w => let '(sent, w') := on_reqs (Mpsc.send next) w in Done (Ready (Ok sent), w'));
  (if negb sent then drop_handle next else mret tt);;
  (if no_send_body then drop_rx_chan out_chans body else mret tt);;
  (if negb sent then drop_tx_chan out_chans body;; drop_rx_chan res_chans res else mret tt);;
  mret (res, body, sent).

Definition send_request (req : Request) (no_body : bool) (w : world) :
    exec (result (chan_id * SendStream.t) Error.t * world) :=
  if method_eqb (req_method req) CONNECT then Done (Err no_connect, w)
  else
    let limit := LimitWrite.from_headers (req_headers req) in
    let no_send_body := no_body || LimitWrite.is_no_body limit in
    '(r, w') ← open_request req no_send_body w;
    match r with
    | Ready (Ok (res, body, sent)) =>
        Done (if (sent : bool) then Ok (res, SendStream.new body limit no_send_body false)
              else Error.err_closed "Can't enqueue request, connection is closed", w')
    | _ => Panic (PAssert "open_request does not block")
    end.
End Defs.
End SendRequest.

Module ResponseFuture.
Section Defs.
Context `{Http} `{Httparse}.

(** [poll]; the future is its channel. *)
Definition poll (cx : waker) (id : chan_id) : api Error.t world (Response * RecvStream.t) :=
  res ← api_io Error.from_io (poll_recv_chan res_chans id cx true);
  match res with
  | Some (Ok v) => mret v
  | Some (Err e) => api_err (Error.from_io e)
  | None => fun w => Done (Ready (Error.err_closed "Response failed, connection is closed"), w)
  end.

(** Dropping it drops what is still in the channel. *)
Definition drop (id : chan_id) : io world unit := fun w =>
  match ress w !! id with
  | Some c => (drop_each drop_response (Inner.queue (Mpsc.inner c));; drop_rx_chan res_chans id) w
  | None => Panic (PAssert "dangling channel")
  end.
End Defs.
End ResponseFuture.

(** ** The connection *)

Module Bidirect.
(** Waiting for a response while sending a request body. *)
Record t `{Http} := mk {
  handle : Handle.t;
  response_allows_reuse : bool;
  holder : option (chan_id * LimitRead.t);   (* body_tx and limit *)
}.
Definition set_handle `{Http} (h : Handle.t) (b : t) : t := mk _ h (response_allows_reuse b) (holder b).
Definition set_reuse `{Http} (x : bool) (b : t) : t := mk _ (handle b) x (holder b).
Definition set_holder `{Http} (x : option (chan_id * LimitRead.t)) (b : t) : t :=
  mk _ (handle b) (response_allows_reuse b) x.
End Bidirect.

Module BodyReceiver.
(** Receiving a response body. *)
Record t := mk {
  request_allows_reuse : bool;
  response_allows_reuse : bool;
  cur_read_size : Z;
  limit : LimitRead.t;
  body_tx : chan_id;
}.
Definition set_limit (l : LimitRead.t) (b : t) : t :=
  mk (request_allows_reuse b) (response_allows_reuse b) (cur_read_size b) l (body_tx b).
End BodyReceiver.

Inductive State `{Http} :=
  | SendReq
  | RecvRes (h : Bidirect.t)
  | RecvBody (h : BodyReceiver.t).

(** The connection's mutable parts, with its channels. *)
Abbreviation conn := (Codec.conn world).

Section Connection.
Context {prof : Profile} `{Http} `{Httparse} {R : Type} `{AsyncRead R, AsyncWrite R}.

(** *** [SendReq] *)

(** The head of a request, in a buffer of its own. *)
Definition request_head (req : Request) : exec (io_result bytes) :=
  buf ← FastBuf.with_capacity MAX_REQUEST_SIZE;
  write_to ← FastBuf.borrow buf;
  '(r, out) ← write_http1x_req req (FastBufRef.len write_to);
  match r with
  | Err e => Done (Err e)
  | Ok amount =>
      buf ← FastBufRef.extend amount (FastBufRef.written 0 out write_to);
      v ← FastBuf.deref buf;
      Done (Ok v)
  end.

Definition poll_send_req (fuel : nat) (cx : waker) : io (conn R unit) (option State) :=
  next ← on_world (poll_recv_req cx);
  match next with
  | None => mret None
  | Some handle =>
      or_drop (
        head ← lift (request_head (Handle.req handle));
        head ← io_of head;
        c ← get;
        lift (assert_ (BufIo.can_poll_write (bio c)) "io.can_poll_write()");;
        r ← on_bio (write_all fuel head true);
        match r with
        | Pending => mret tt
        | Ready v => io_of v
        end) (drop_handle handle);;
      mret (Some (RecvRes (Bidirect.mk _ handle false None)))
  end.

(** *** [Bidirect] *)

Definition set_handle (f : Handle.t -> Handle.t) : io (conn R Bidirect.t) unit :=
  on_self (modify (fun b => Bidirect.set_handle (f (Bidirect.handle b)) b)).

Definition is_no_body (req : Request) (res : Response) (limit : LimitRead.t) : bool :=
  let status := res_status res in
  LimitRead.is_no_body limit
  || method_eqb (req_method req) HEAD
  || is_informational status
  || status_eqb status NO_CONTENT
  || status_eqb status NOT_MODIFIED
  || (is_redirection status && negb (headers_indicate_body (res_headers res))).

Definition poll_response (fuel : nat) : io (conn R Bidirect.t) unit :=
  res ← on_bio (poll_for_crlfcrlf fuel try_parse_res);
  res ← io_of res;
  res ← lift (expect res "Parsed partial response");
  on_self (modify (Bidirect.set_reuse (allow_reuse (res_headers res) (res_version res))));;
  let limit := LimitRead.from_headers (res_headers res) true in
  this ← on_self get;
  let is_no_body := is_no_body (Handle.req (Bidirect.handle this)) res limit in
  body ← on_world (new_chan in_chans 1);
  on_self (modify (Bidirect.set_holder (if is_no_body then None else Some (body, limit))));;
  let recv := RecvStream.new body is_no_body false in
  res_tx ← lift (expect (Handle.res_tx (Bidirect.handle this)) "Missing res_tx");
  set_handle (Handle.set_res_tx None);;
  _ ← on_world (send_response res_tx (Ok (res, recv)));
  on_world (drop_tx_chan res_chans res_tx);;
  if is_no_body then on_world (drop_tx_chan in_chans body) else mret tt.

Definition stream_dropped : io_error :=
  io_error_new Other [Lit "SendStream dropped before sending entire body"].

Definition poll_send_body (fuel : nat) (cx : waker) : io (conn R Bidirect.t) unit :=
  this ← on_self get;
  body_rx ← lift (expect (Handle.body_rx (Bidirect.handle this)) "unwrap");
  v ← on_world (poll_recv_chan out_chans body_rx cx true);
  match v with
  | None => io_err stream_dropped
  | Some (chunk, end_) =>
      c ← get;
      lift (assert_ (BufIo.can_poll_write (bio c)) "io.can_poll_write()");;
      (if (end_ : bool) then set_handle (Handle.set_body_rx None);; on_world (drop_rx_chan out_chans body_rx)
       else mret tt);;
      r ← on_bio (write_all fuel chunk end_);
      match r with
      | Pending => io_pending
      | Ready v => io_of v
      end
  end.

(** [Poll::Pending => true, Poll::Ready(v) => { v?; false }]. *)
Definition is_pending_or (m : io (conn R Bidirect.t) unit) : io (conn R Bidirect.t) bool :=
  r ← raw m;
  match r with
  | Pending => mret true
  | Ready v => io_of v;; mret false
  end.

Definition bidirect_turn (fuel : nat) (cx : waker) (_ : unit) : io (conn R Bidirect.t) (unit + unit) :=
  this ← on_self get;
  let h := Bidirect.handle this in
  if bool_decide (Handle.res_tx h = None) && bool_decide (Handle.body_rx h = None) then mret (inr tt)
  else
    res_tx_pending ← (if bool_decide (is_Some (Handle.res_tx h)) then is_pending_or (poll_response fuel) else mret false);
    this ← on_self get;
    body_tx_pending ← (if bool_decide (is_Some (Handle.body_rx (Bidirect.handle this)))
                       then is_pending_or (poll_send_body fuel cx) else mret false);
    this ← on_self get;
    let h := Bidirect.handle this in
    if (res_tx_pending && (body_tx_pending || bool_decide (Handle.body_rx h = None)))
       || (body_tx_pending && (res_tx_pending || bool_decide (Handle.res_tx h = None)))
    then io_pending
    else mret (inl tt).

Definition read_size (limit : LimitRead.t) : Z :=
  default 8192 (LimitRead.body_size limit) `min` MAX_BODY_READ_SIZE.

Definition poll_bidirect (fuel : nat) (cx : waker) : io (conn R Bidirect.t) (option State) :=
  iter fuel (bidirect_turn fuel cx) tt;;
  this ← on_self get;
  let req := Handle.req (Bidirect.handle this) in
  let request_allows_reuse := allow_reuse (req_headers req) (req_version req) in
  on_self (modify (Bidirect.set_holder None));;
  mret match Bidirect.holder this with
       | Some (body_tx, limit) => Some (RecvBody (BodyReceiver.mk request_allows_reuse
           (Bidirect.response_allows_reuse this) (read_size limit) limit body_tx))
       | None => if request_allows_reuse && Bidirect.response_allows_reuse this then Some SendReq else None
       end.

(** *** [BodyReceiver] *)

Definition partial_body : io_error := io_error_new UnexpectedEof [Lit "Partial body"].

(** [self.limit.poll_read(cx, io, buf)] for a buffer of [n] bytes. *)
Definition limit_read (fuel : nat) (n : Z) : io (conn R BodyReceiver.t) bytes := fun c =>
  '(r, (l, b)) ← LimitRead.poll_read fuel n (BodyReceiver.limit (self c), bio c);
  Done (r, mk_conn (BodyReceiver.set_limit l (self c)) b (wld c)).

Definition read_body_turn (fuel : nat) (cx : waker) (_ : unit) : io (conn R BodyReceiver.t) (unit + unit) :=
  this ← on_self get;
  if LimitRead.is_complete (BodyReceiver.limit this) then mret (inr tt)
  else
    _ ← on_world (poll_ready_chan in_chans (BodyReceiver.body_tx this) cx);
    buf ← lift (FastBuf.with_capacity (BodyReceiver.cur_read_size this));
    read_into ← lift (FastBuf.borrow buf);
    d ← limit_read fuel (FastBufRef.len read_into);
    this ← on_self get;
    if 0 <? zlen d then
      buf ← lift (FastBufRef.extend (zlen d) (FastBufRef.written 0 d read_into));
      v ← lift (FastBuf.into_vec buf);
      _ ← on_world (send_chan in_chans (BodyReceiver.body_tx this) (Ok v));
      mret (inl tt)
    else if negb (LimitRead.is_complete (BodyReceiver.limit this)) then io_err partial_body
    else mret (inl tt).

Definition poll_read_body (fuel : nat) (cx : waker) : io (conn R BodyReceiver.t) (option State) :=
  iter fuel (read_body_turn fuel cx) tt;;
  this ← on_self get;
  mret (if BodyReceiver.request_allows_reuse this && BodyReceiver.response_allows_reuse this
           && LimitRead.is_reusable (BodyReceiver.limit this)
        then Some SendReq else None).

(** *** [Codec] *)

(** [self.state = next]: the old state is dropped. *)
Definition drop_state (s : State) : io world unit :=
  match s with
  | SendReq => mret tt
  | RecvRes h => drop_handle (Bidirect.handle h);;
                 drop_opt (drop_tx_chan in_chans) (fst <$> Bidirect.holder h)
  | RecvBody h => drop_tx_chan in_chans (BodyReceiver.body_tx h)
  end.

Definition set_state (next : State) : io (conn R State) unit :=
  old ← on_self get;
  on_self (modify (fun _ => next));;
  on_world (drop_state old).

Definition drive_turn (fuel : nat) (cx : waker) (_ : unit) : io (conn R State) (unit + unit) :=
  on_bio (BufIo.poll_finish_pending_write fuel);;
  state ← on_self get;
  next_state ← (match state with
    | SendReq => on_part (fun _ => SendReq) tt (poll_send_req fuel cx)
    | RecvRes h => on_part RecvRes h (poll_bidirect fuel cx)
    | RecvBody h => on_part RecvBody h (poll_read_body fuel cx)
    end);
  match next_state with
  | Some next_state => set_state next_state;; mret (inl tt)
  | None => mret (inr tt)
  end.

Definition drive (fuel : nat) (cx : waker) : io (conn R State) unit := iter fuel (drive_turn fuel cx) tt.

(** [io::Error::new(e.kind(), e.to_string())]. *)
Definition clone_error (e : io_error) : io_error := io_error_new (err_kind e) (err_msg e).

Definition try_forward_error (e : io_error) : io (conn R State) io_error :=
  state ← on_self get;
  match state with
  | SendReq => mret e
  | RecvRes h =>
      match Handle.res_tx (Bidirect.handle h) with
      | Some res_tx => _ ← on_world (send_response res_tx (Err e)); mret (clone_error e)
      | None => mret e
      end
  | RecvBody h => _ ← on_world (send_chan in_chans (BodyReceiver.body_tx h) (Err e)); mret (clone_error e)
  end.

Definition poll_client (fuel : nat) (cx : waker) : io (conn R State) unit :=
  r ← raw (drive fuel cx);
  match r with
  | Ready (Err e) => e ← try_forward_error e; io_err e
  | r => io_return r
  end.

(** [Codec::new]; its receiver of requests is in the channels. *)
Definition new_codec (io : R) : exec (BufIo.t R * State) :=
  b ← BufIo.with_capacity READ_BUF_INIT_SIZE io;
  Done (b, SendReq).

Definition handshake (io : R) : exec (conn R State) :=
  '(b, state) ← new_codec io;
  Done (mk_conn state b (mk_world (Mpsc.new 100) ∅ ∅ ∅ [])).

(** Dropping the [Connection]: its state and its receiver of requests, with
    those still queued. *)

Definition drop_connection : io (conn R State) unit :=
  state ← on_self get;
  on_world (drop_state state);;
  c ← get;
  on_world (drop_each drop_handle (Inner.queue (Mpsc.inner (reqs (wld c)))));;
  on_world drop_rx_reqs.
End Connection.
