(* ===== verification/Client_spec.v ===== *)
(** * What a client connection promises

    [Protocol] is the abstract machine of a client connection: the phases of
    an HTTP/1.1 exchange over two byte streams, the one that arrives and the
    one that is sent, and over the channels the user holds.  It knows nothing
    of buffers, partial reads and writes, flushes, wakers, loops or polling
    order.  Client_proofs.v shows that every poll of the connection is a run
    of it; here are the properties of its runs.  A [history] is a run with the
    acts of the user in between, and says which: what is taken from a channel
    is what those acts put on it ([history_account]). *)

From S2P Require Import Prelude.
From S2P Require Import Async.
From S2P Require Import Fast_buf.
From S2P Require Import Transport.
From S2P Require Import Buf_reader.
From S2P Require Import Chunked.
From S2P Require Import Http_api.
From S2P Require Import Error.
From S2P Require Import Limit.
From S2P Require Import Http11.
From S2P Require Import Mpsc.
From S2P Require Import Share.
From S2P Require Import Accounts.
From S2P Require Import Channels.
From S2P Require Import Codec.
From S2P Require Import Streams.
From S2P Require Import Machine.
From S2P Require Import Client.

(** ** Delivering a response *)

Section Worlds.
Context `{Http}.
Implicit Types (w : world).

(** A response delivered on [id], its body to come on [body]: if the user has
    given the response up, the receiver of the body goes with it. *)
Definition deliver (id : chan_id) (r : response) (body : chan_id) w : world :=
  let w' := at_res id (push r) w in
  match ress w !! id with
  | Some c => if decide (Mpsc.receivers c = 0%nat) then at_in body close_rx w' else w'
  | None => w'
  end.
End Worlds.

(** ** The machine *)

Module Protocol.
Section Defs.
Context `{Http} `{Httparse}.

Record t := mk {
  phase : State;
  wire_in : bytes;     (* what is still to arrive *)
  wire_out : bytes;    (* what was sent *)
  chans : world;
}.

Inductive event :=
  | Took (h : Handle.t) (head : bytes)                     (* a request, and its head on the wire *)
  | Sent (id : chan_id) (chunk : bytes) (end_ : bool)      (* a piece of the request body *)
  | Responded (id : chan_id) (head : bytes) (res : Response) (body : option chan_id)   (* a response delivered *)
  | Exchanged (next : State)                               (* request sent, response head received *)
  | Received (id : chan_id) (wire body : bytes)            (* a piece of the response body *)
  | Completed.                                             (* the whole response received *)

(** The head of a request, if it fits. *)
Definition head_text (req : Request) (head : bytes) : Prop :=
  exists ver, version_str (req_version req) = Done ver /\
    head = head_of (request_lines req ver) /\ zlen head <= MAX_REQUEST_SIZE.

Definition got (h : Handle.t) : Handle.t := Handle.set_res_tx None h.

(** What follows an exchange: the body of the response if it has one, the
    next request if both sides keep the connection. *)
Definition keeps_alive (req : Request) : bool := allow_reuse (req_headers req) (req_version req).

Definition after_exchange (b : Bidirect.t) : option State :=
  let keep := keeps_alive (Handle.req (Bidirect.handle b)) in
  match Bidirect.holder b with
  | Some (body_tx, limit) => Some (RecvBody
      (BodyReceiver.mk keep (Bidirect.response_allows_reuse b) (read_size limit) limit body_tx))
  | None => if keep && Bidirect.response_allows_reuse b then Some SendReq else None
  end.

Definition after_body (r : BodyReceiver.t) : option State :=
  if BodyReceiver.request_allows_reuse r && BodyReceiver.response_allows_reuse r
     && LimitRead.is_reusable (BodyReceiver.limit r)
  then Some SendReq else None.

Definition is_exchanged (b : Bidirect.t) : Prop :=
  Handle.res_tx (Bidirect.handle b) = None /\ Handle.body_rx (Bidirect.handle b) = None.

Inductive step : t -> event -> t -> Prop :=
  | take_request i o w h head rest :
      queue_of (reqs w) = h :: rest -> head_text (Handle.req h) head ->
      step (mk SendReq i o w) (Took h head)
           (mk (RecvRes (Bidirect.mk _ h false None)) i (o ++ head) (at_reqs pop w))
  | send_chunk b i o w id c chunk (end_ : bool) q :
      Handle.body_rx (Bidirect.handle b) = Some id -> outs w !! id = Some c ->
      queue_of c = (chunk, end_) :: q ->
      step (mk (RecvRes b) i o w) (Sent id chunk end_)
           (mk (RecvRes (if end_ then Bidirect.set_handle (Handle.set_body_rx None (Bidirect.handle b)) b else b))
               i (o ++ chunk) (if end_ then at_out id close_rx (at_out id pop w) else at_out id pop w))
  | get_response b i o w id head rest eos res body :
      Handle.res_tx (Bidirect.handle b) = Some id -> takes_head i head rest eos ->
      try_parse_res head eos = Ok (Some res) -> ins w !! body = None ->
      let limit := LimitRead.from_headers (res_headers res) true in
      let empty := is_no_body (Handle.req (Bidirect.handle b)) res limit in
      let w' := at_res id close_tx (deliver id (Ok (res, RecvStream.new body empty false)) body (new_in body w)) in
      step (mk (RecvRes b) i o w) (Responded id head res (if empty then None else Some body))
           (mk (RecvRes (Bidirect.mk _ (got (Bidirect.handle b)) (allow_reuse (res_headers res) (res_version res))
                  (if empty then None else Some (body, limit))))
               rest o (if empty then at_in body close_tx w' else w'))
  | end_exchange b i o w next :
      is_exchanged b -> after_exchange b = Some next ->
      step (mk (RecvRes b) i o w) (Exchanged next) (mk next i o w)
  | get_body r i o w wire body l' rest :
      LimitRead.is_complete (BodyReceiver.limit r) = false -> i = wire ++ rest ->
      reads (BodyReceiver.limit r) wire body l' ->
      step (mk (RecvBody r) i o w) (Received (BodyReceiver.body_tx r) wire body)
           (mk (RecvBody (BodyReceiver.set_limit l' r)) rest o
               (if decide (body = []) then w else at_in (BodyReceiver.body_tx r) (push (Ok body)) w))
  | end_body r i o w next :
      LimitRead.is_complete (BodyReceiver.limit r) = true -> after_body r = Some next ->
      step (mk (RecvBody r) i o w) Completed
           (mk next i o (at_in (BodyReceiver.body_tx r) close_tx w)).

(** The connection is over: nobody can send requests any more, or the last
    exchange was complete and does not allow another. *)
Definition finished (s : t) : Prop :=
  match phase s with
  | SendReq => queue_of (reqs (chans s)) = [] /\ Mpsc.senders (reqs (chans s)) = 0%nat
  | RecvRes b => is_exchanged b /\ after_exchange b = None
  | RecvBody r => LimitRead.is_complete (BodyReceiver.limit r) = true /\ after_body r = None
  end.

Definition run : t -> list event -> t -> Prop := Machine.run step.

(** How a run can break off in [s], [taken] off the wire that arrives and
    [part] put on the other: in front of a step; at a head that does not parse;
    in the response body; or part of the way through the head of the next
    request, or through the next piece of its body. *)
Definition breaks_off (s : t) (taken part : bytes) : Prop :=
  (taken = [] /\ part = []) \/
  match phase s with
  | SendReq => taken = [] /\ exists h q head, queue_of (reqs (chans s)) = h :: q /\
      head_text (Handle.req h) head /\ part `prefix_of` head
  | RecvRes b =>
      (part = [] /\ Handle.res_tx (Bidirect.handle b) <> None /\
       exists rest eos e, takes_head (wire_in s) taken rest eos /\ try_parse_res taken eos = Err e) \/
      (taken = [] /\ exists id c chunk end_ q, Handle.body_rx (Bidirect.handle b) = Some id /\
         outs (chans s) !! id = Some c /\ queue_of c = (chunk, end_) :: q /\ part `prefix_of` chunk)
  | RecvBody r => part = [] /\ LimitRead.is_complete (BodyReceiver.limit r) = false
  end.

(** *** Histories *)

Definition set_chans (w : world) (s : t) : t := mk (phase s) (wire_in s) (wire_out s) w.

(** What the user did at once, by the channels before and after it; and what
    it may do to those that the machine reads: queue requests, and put pieces
    of bodies. *)
Definition act : Type := world * world.

Record lawful (w w' : world) : Prop := {
  lw_reqs : queue_of (reqs w) `prefix_of` queue_of (reqs w');
  lw_outs : forall id, gives (outs w !! id) (outs w' !! id);
}.

(** The machine's steps, and between them exactly the acts [us] of the user:
    each finds the channels as the machine left them, and the machine goes on
    with them as the act left them. *)
Inductive history (s : t) : list act -> list event -> t -> Prop :=
  | history_nil : history s [] [] s
  | history_step us es s' e s'' : history s us es s' -> step s' e s'' -> history s us (es ++ [e]) s''
  | history_user us es s' w : history s us es s' -> lawful (chans s') w ->
      history s (us ++ [(chans s', w)]) es (set_chans w s').

Lemma run_history s us es s' es' s'' : history s us es s' -> run s' es' s'' -> history s us (es ++ es') s''.
Proof. intros Hh Hr. by eapply (Machine.run_extends step (history s us) (history_step s us)). Qed.

(** The requests that were queued, and the pieces put on a channel. *)
Definition queued (us : list act) : list Handle.t := put_on (fun w => Some (reqs w)) us.
Definition said_on (id : chan_id) (us : list act) : list piece := put_on (fun w => outs w !! id) us.

Lemma queued_snoc us w w' : queued (us ++ [(w, w')]) = queued us ++ drop (length (queue_of (reqs w))) (queue_of (reqs w')).
Proof. exact (put_on_snoc (fun w => Some (reqs w)) us w w'). Qed.
Lemma said_on_snoc id us w w' : said_on id (us ++ [(w, w')]) = said_on id us ++ put_in (outs w !! id) (outs w' !! id).
Proof. exact (put_on_snoc (fun w => outs w !! id) us w w'). Qed.

(** What an event puts on the wire, takes off it, and takes from the queue. *)
Definition sent (e : event) : bytes :=
  match e with Took _ head => head | Sent _ chunk _ => chunk | _ => [] end.
Definition received (e : event) : bytes :=
  match e with Responded _ head _ _ => head | Received _ wire _ => wire | _ => [] end.
Definition took (e : event) : option Handle.t :=
  match e with Took h _ => Some h | _ => None end.

Lemma step_wires s e s' : step s e s' -> wire_out s' = wire_out s ++ sent e /\
  wire_in s = received e ++ wire_in s' /\
  queue_of (reqs (chans s)) = omap took [e] ++ queue_of (reqs (chans s')).
Proof.
  intros Hs. destruct Hs; simpl; rewrite ?app_nil_r; split_and!; try done.
  - unfold pop, queue_of in *. simpl in *. by rewrite H1.
  - by destruct end_.
  - by destruct H2 as [-> _].
  - unfold w', deliver. simpl. destruct empty, (ress w !! id); simpl; try done; by case_decide.
  - by case_decide.
Qed.

Lemma history_wires s us es s' : history s us es s' ->
  wire_out s' = wire_out s ++ (es ≫= sent) /\ wire_in s = (es ≫= received) ++ wire_in s' /\
  queue_of (reqs (chans s)) ++ queued us = omap took es ++ queue_of (reqs (chans s')).
Proof.
  induction 1 as [|us es s' e s'' _ (Ho & Hi & Hq) Hs|us es s' w _ (Ho & Hi & Hq) [[k Hk] _]].
  - simpl. by rewrite !app_nil_r.
  - apply step_wires in Hs as (Ho' & Hi' & Hq'). rewrite !bind_app, omap_app.
    rewrite Ho', Ho, Hi, Hi', Hq, Hq', <- !app_assoc. simpl. by rewrite !app_nil_r.
  - split; [done|]. split; [done|]. rewrite queued_snoc, Hk, drop_app_length, app_assoc, Hq. simpl. by rewrite Hk, app_assoc.
Qed.

(** *** What was sent from a channel *)

Definition chunks (l : list event) : list (chan_id * bytes * bool) :=
  omap (fun e => match e with Sent id chunk end_ => Some (id, chunk, end_) | _ => None end) l.
Definition sent_on (id : chan_id) (es : list event) : list piece := from_chan id (chunks es).

Lemma sent_on_app id es es' : sent_on id (es ++ es') = sent_on id es ++ sent_on id es'.
Proof. unfold sent_on, chunks. by rewrite omap_app, from_chan_app. Qed.

Lemma step_draws s e s' : step s e s' -> draws (fun id => sent_on id [e]) (outs (chans s)) (outs (chans s')).
Proof.
  assert (Hcalm : forall o o', o' = o -> draws nothing o o') by (intros o o' ->; reflexivity).
  intros Hs. destruct Hs as [i o w h head rest Hq Ht|b i o w id c chunk end_ q Hb Hc Hq|b i o w id head rest eos res body Hid Ht Hp Hn limit empty w'
    |b i o w next He Ha|r i o w wire body l' rest Hl Hi Hr|r i o w next Hl Ha]; simpl.
  - by apply Hcalm.
  - apply draws_ext with (f := from_one id [(chunk, end_)]);
      [|intros j; unfold from_one, sent_on; cbn; by repeat case_decide; subst].
    assert (Hpop : draws (from_one id [(chunk, end_)]) (outs w) (outs (at_out id pop w))).
    { apply draws_alter; [|congruence]. intros c' Hc'. rewrite Hc in Hc'. injection Hc' as <-. by eapply takes_pop. }
    destruct end_; [|exact Hpop]. eapply draws_trans; [exact Hpop|apply (calm_alter _ id close_rx takes_close_rx)| |done].
    intros j. by rewrite app_nil_r.
  - apply Hcalm. unfold w', deliver. simpl. destruct empty, (ress w !! id); simpl; try done; by case_decide.
  - by apply Hcalm.
  - apply Hcalm. by case_decide.
  - by apply Hcalm.
Qed.

(** A step makes no channel for a request body. *)
Lemma step_outs_none s e s' id : step s e s' -> outs (chans s) !! id = None -> outs (chans s') !! id = None.
Proof.
  intros Hs Hn. destruct Hs as [| |b i o w id' head rest eos res body Hid Ht Hp Hb limit empty w'| | |]; simpl in *; try done.
  - by destruct end_; simpl; rewrite !lookup_alter_None.
  - unfold w', deliver. simpl. destruct empty, (ress w !! id'); simpl; try done; by case_decide.
  - by case_decide.
Qed.

(** All that was put on a channel was sent from it, in order, or is still in
    it, or was dropped with its receiver; and nothing else was sent. *)
Lemma history_account s us es s' id : history s us es s' -> held (outs (chans s) !! id) = [] ->
  account (said_on id us) (sent_on id es) (outs (chans s') !! id).
Proof.
  intros Hh Hs. induction Hh as [|us es s' e s'' _ IH Hstep|us es s' w _ IH [_ Ho]].
  - by apply account_new.
  - rewrite sent_on_app. apply (account_drawn _ _ _ _ _ IH).
    apply (draws_drawn _ _ _ _ (step_draws _ _ _ Hstep)). by eapply step_outs_none.
  - rewrite said_on_snoc. by apply account_gives.
Qed.

(** *** Exchanges *)

(** A request and what followed it. *)
Record exchange := Exchange { x_handle : Handle.t; x_head : bytes; x_events : list event }.
Definition trace_of (x : exchange) : list event := Took (x_handle x) (x_head x) :: x_events x.

Definition answers (l : list event) : list (chan_id * Response * option chan_id) :=
  omap (fun e => match e with Responded id _ res body => Some (id, res, body) | _ => None end) l.
Definition pieces (l : list event) : list (chan_id * bytes * bytes) :=
  omap (fun e => match e with Received id wire body => Some (id, wire, body) | _ => None end) l.

(** The pieces of a request body, all from the channel [o] that the request
    came with: the last one, and only it, is marked; [o'] is what is left. *)
Definition body_sent (o o' : option chan_id) (l : list (chan_id * bytes * bool)) : Prop :=
  match o with
  | None => o' = None /\ l = []
  | Some id => exists ds, (o' = o /\ l = (fun d => (id, d, false)) <$> ds) \/
      (o' = None /\ exists d, l = ((fun d => (id, d, false)) <$> ds) ++ [(id, d, true)])
  end.

(** The pieces of a response body, read as the response says. *)
Definition framing (res : Response) : LimitRead.t := LimitRead.from_headers (res_headers res) true.

Definition body_read (res : Response) (id : chan_id) (l : list (chan_id * bytes * bytes)) (limit : LimitRead.t) : Prop :=
  Forall (fun p => p.1.1 = id) l /\
  LimitRead.is_read_to_end limit = LimitRead.is_read_to_end (framing res) /\
  if LimitRead.is_read_to_end limit then (l ≫= fun p => p.1.2) = (l ≫= snd)
  else reads (framing res) (l ≫= fun p => p.1.2) (l ≫= snd) limit.

Definition has_body (h : Handle.t) (res : Response) : bool := negb (is_no_body (Handle.req h) res (framing res)).
Definition keeps_open (res : Response) : bool := allow_reuse (res_headers res) (res_version res).

(** Nothing of a response body is received in front of the response. *)
Definition head_first (l : list event) : Prop :=
  forall l1 e l2, l = l1 ++ e :: l2 -> answers [e] <> [] -> pieces l1 = [].

(** A whole exchange, with no other request in it: the request body is sent to
    its end, one response is given to the request, its body, if it has one, is
    complete, and both sides keep the connection. *)
Definition whole (x : exchange) : Prop :=
  let h := x_handle x in
  omap took (x_events x) = [] /\ head_first (x_events x) /\
  body_sent (Handle.body_rx h) None (chunks (x_events x)) /\
  exists id res body, Handle.res_tx h = Some id /\ answers (x_events x) = [(id, res, body)] /\
    keeps_alive (Handle.req h) = true /\ keeps_open res = true /\
    match body with
    | None => has_body h res = false /\ pieces (x_events x) = []
    | Some b => has_body h res = true /\ exists limit, body_read res b (pieces (x_events x)) limit /\
        LimitRead.is_complete limit = true /\ LimitRead.is_read_to_end limit = false
    end.

(** An exchange in a phase. *)
Definition under_way (x : exchange) (ph : State) : Prop :=
  let h := x_handle x in
  omap took (x_events x) = [] /\ head_first (x_events x) /\
  match ph with
  | SendReq => whole x
  | RecvRes b =>
      Handle.req (Bidirect.handle b) = Handle.req h /\ pieces (x_events x) = [] /\
      body_sent (Handle.body_rx h) (Handle.body_rx (Bidirect.handle b)) (chunks (x_events x)) /\
      match answers (x_events x) with
      | [] => Handle.res_tx (Bidirect.handle b) = Handle.res_tx h /\ Bidirect.holder b = None /\
          Bidirect.response_allows_reuse b = false
      | [(id, res, body)] => Handle.res_tx h = Some id /\ Handle.res_tx (Bidirect.handle b) = None /\
          Bidirect.response_allows_reuse b = keeps_open res /\
          Bidirect.holder b = (., framing res) <$> body /\ has_body h res = bool_decide (is_Some body)
      | _ => False
      end
  | RecvBody r =>
      body_sent (Handle.body_rx h) None (chunks (x_events x)) /\
      exists id res, Handle.res_tx h = Some id /\ answers (x_events x) = [(id, res, Some (BodyReceiver.body_tx r))] /\
        has_body h res = true /\ BodyReceiver.request_allows_reuse r = keeps_alive (Handle.req h) /\
        BodyReceiver.response_allows_reuse r = keeps_open res /\
        body_read res (BodyReceiver.body_tx r) (pieces (x_events x)) (BodyReceiver.limit r)
  end.

Definition more (e : event) (x : exchange) : exchange := Exchange (x_handle x) (x_head x) (x_events x ++ [e]).

Lemma chunks_snoc l e : chunks (l ++ [e]) = chunks l ++ chunks [e].
Proof. apply omap_app. Qed.
Lemma answers_snoc l e : answers (l ++ [e]) = answers l ++ answers [e].
Proof. apply omap_app. Qed.
Lemma pieces_snoc l e : pieces (l ++ [e]) = pieces l ++ pieces [e].
Proof. apply omap_app. Qed.

Lemma head_first_more l e : head_first l -> (answers [e] <> [] -> pieces l = []) -> head_first (l ++ [e]).
Proof.
  intros Hl He l1 e' l2 E Ha. destruct (exists_last (l := e' :: l2)) as (l3 & e3 & E3); [done|]. rewrite E3, app_assoc in E.
  apply app_inj_tail in E as [-> ->]. destruct l3 as [|e4 l3]; injection E3 as -> ->; [rewrite app_nil_r in He; auto|].
  by apply (Hl l1 e4 l3).
Qed.

Lemma body_sent_more o id l d (end_ : bool) : body_sent o (Some id) l ->
  body_sent o (if end_ then None else Some id) (l ++ [(id, d, end_)]).
Proof.
  destruct o as [i|]; simpl; [|by intros []]. intros (ds & [[[= ->] ->]|[? _]]); [|done]. destruct end_.
  - exists ds. right. eauto.
  - exists (ds ++ [d]). left. by rewrite fmap_app.
Qed.

Lemma body_read_new res id : body_read res id [] (framing res).
Proof.
  split; [done|]. split; [done|]. destruct (LimitRead.is_read_to_end _) eqn:E; [done|]. simpl.
  unfold framing, LimitRead.from_headers in *. destruct (is_chunked _); simpl; [done|].
  destruct (get_as _ _); simpl; [|done]. split_and!; [done|done|].
  change (zlen (@nil byte)) with 0. lia.
Qed.

Lemma body_read_more res id l limit wire body limit' : body_read res id l limit -> reads limit wire body limit' ->
  body_read res id (l ++ [(id, wire, body)]) limit'.
Proof.
  intros (Hf & Hk & Hr) Hm. pose proof (reads_kind _ _ _ _ Hm) as Hk'. split; [by apply Forall_app; split; [|constructor]|].
  split; [by rewrite Hk', Hk|]. rewrite Hk', !bind_app. simpl. rewrite !app_nil_r.
  destruct (LimitRead.is_read_to_end limit) eqn:E.
  - rewrite Hr. f_equal. destruct limit, limit'; simpl in *; try done. by destruct Hm as [? _].
  - eapply reads_trans; [by rewrite <- Hk|done..].
Qed.


Ltac more_steps := unfold under_way, whole, more; cbn [phase x_handle x_events]; rewrite ?omap_app, ?chunks_snoc, ?answers_snoc, ?pieces_snoc; simpl; rewrite ?app_nil_r.

(** A step continues the exchange under way, or ends it. *)
Lemma step_under_way s e s' x : step s e s' -> phase s <> SendReq -> under_way x (phase s) ->
  under_way (more e x) (phase s').
Proof.
  intros Hs Hne Hu. assert (Hfirst : head_first (x_events x ++ [e])).
  { destruct Hu as (_ & Hf & Hu). apply head_first_more; [done|]. destruct Hs; try done. intros _. by destruct Hu as (_ & ? & _). }
  revert Hfirst Hu. destruct Hs; cbn [phase] in *; [done|..]; more_steps;
    match goal with |- context [head_first (?l ++ ?l')] => generalize (head_first (l ++ l')) end; intros First Hfirst (Ht & _ & Hu); revert Hu.
  - intros (Hreq & Hp & Hb & Ha). rewrite H1 in Hb. apply (body_sent_more _ id _ chunk end_) in Hb.
    destruct end_; simpl in *; [by split_and!|]. rewrite H1. by split_and!.
  - intros (Hreq & Hp & Hb & Ha). destruct (answers (x_events x)) as [|[[i' r] bd] [|]]; try done.
    + destruct Ha as (Hr & Hho & _). simpl. split_and!; try done; [by rewrite <- Hr|..];
      unfold has_body; rewrite <- ?Hreq; unfold framing; fold limit; fold empty; by destruct empty.
    + destruct Ha as (_ & Hr & _). by rewrite H1 in Hr.
  - intros (Hreq & Hp & Hb & Ha). destruct H1 as [Hr1 Hr2]. unfold after_exchange in H2.
    destruct (answers (x_events x)) as [|[[i' r] bd] [|]] eqn:Ean; try done.
    { destruct Ha as (_ & Hh & Hu). rewrite Hh, Hu, andb_false_r in H2. done. }
    destruct Ha as (Hi & _ & Hu & Hh & Hbd). rewrite Hh, Hreq, Hu in H2. rewrite Hr2 in Hb.
    destruct bd as [bid|]; simpl in H2.
    + injection H2 as <-. simpl. split; [done|]. split; [done|]. split; [done|].
      exists i', r. rewrite Hp. split_and!; try done. apply body_read_new.
    + destruct (keeps_alive _ && keeps_open r) eqn:Ek; [|done]. injection H2 as <-.
      apply andb_prop in Ek as [Ek1 Ek2]. simpl. split; [done|]. split; [done|]. split; [done|]. split; [done|]. split; [done|].
      exists i', r, None. rewrite Hp. by split_and!.
  - intros (Hb & id & res & Hid & Ha & Hhb & Hq & Hs & Hr). do 3 (split; [done|]). exists id, res. split_and!; try done.
    by eapply body_read_more.
  - intros (Hb & id & res & Hid & Ha & Hhb & Hq & Hs & Hr). unfold after_body in H2.
    destruct (_ && _) eqn:Ek; [|done]. injection H2 as <-. rewrite Hq, Hs in Ek.
    apply andb_prop in Ek as [[Ek1 Ek2]%andb_prop Ek3]. simpl. do 5 (split; [done|]).
    exists id, res, (Some (BodyReceiver.body_tx r)). split_and!; try done.
    exists (BodyReceiver.limit r). split_and!; try done.
    unfold LimitRead.is_reusable in Ek3. apply andb_prop in Ek3 as [_ Ek3]. by apply negb_true_iff.
Qed.

(** The whole exchanges so far, and the one under way. *)
Definition exchanges (es : list event) (xs : list exchange) (ph : State) : Prop :=
  Forall whole xs /\
  match ph with
  | SendReq => es = xs ≫= trace_of
  | _ => exists x, es = (xs ≫= trace_of) ++ trace_of x /\ under_way x ph
  end.

Lemma trace_more xs x e : (xs ≫= trace_of) ++ trace_of (more e x) = ((xs ≫= trace_of) ++ trace_of x) ++ [e].
Proof. unfold more, trace_of. simpl. by rewrite <- app_assoc. Qed.

Lemma exchanges_go_on xs x ph : Forall whole xs -> under_way x ph ->
  exists xs', exchanges ((xs ≫= trace_of) ++ trace_of x) xs' ph.
Proof.
  intros Hxs Hx. destruct ph; [|by exists xs; split; [|exists x]..].
  exists (xs ++ [x]). split; [apply Forall_app; split; [done|constructor; [apply Hx|done]]|].
  rewrite bind_app. simpl. by rewrite app_nil_r.
Qed.

Lemma exchanges_cases es xs ph : exchanges es xs ph ->
  (ph = SendReq /\ es = xs ≫= trace_of) \/
  (ph <> SendReq /\ exists x, es = (xs ≫= trace_of) ++ trace_of x /\ under_way x ph).
Proof. intros [_ He]. destruct ph; [by left|by right..]. Qed.

Lemma history_exchanges s us es s' : history s us es s' -> phase s = SendReq ->
  exists xs, exchanges es xs (phase s').
Proof.
  intros Hh Hph. induction Hh as [|us es s' e s'' Hh IH Hs|us es s' w Hh IH Hw]; [|..|exact IH].
  - exists []. rewrite Hph. by split.
  - destruct IH as (xs & Hx). pose proof (proj1 Hx) as Hxs.
    destruct (exchanges_cases _ _ _ Hx) as [[Hp ->]|(Hp & x & -> & Hu)].
    + destruct Hs as [i o w h head rest Hq Ht| | | | |]; try done. simpl.
      exists xs. split; [done|]. exists (Exchange h head []). split; [done|]. simpl. unfold body_sent.
      split_and!; try done; [by intros [|? ?]|]. cbn. destruct (Handle.body_rx h); [|done]. exists []. by left.
    + rewrite <- trace_more. apply exchanges_go_on; [done|]. by eapply step_under_way.
Qed.

(** The requests that have their response, by their channel. *)
Definition answered (e : event) : option chan_id := match e with Responded id _ _ _ => Some id | _ => None end.

Lemma answered_trace x : omap answered (trace_of x) = (fun a => a.1.1) <$> answers (x_events x).
Proof.
  unfold trace_of, answers. simpl. induction (x_events x) as [|e l IH]; [done|]. simpl.
  destruct e; simpl; by rewrite IH.
Qed.

Lemma took_trace x : omap took (trace_of x) = x_handle x :: omap took (x_events x).
Proof. done. Qed.

Lemma whole_matched x : whole x ->
  omap answered (trace_of x) = omap Handle.res_tx (omap took (trace_of x)).
Proof.
  intros (Ht & _ & _ & id & res & body & Hid & Ha & _). rewrite answered_trace, Ha, took_trace, Ht.
  simpl. by rewrite Hid.
Qed.

Lemma under_way_matched x ph : under_way x ph ->
  omap answered (trace_of x) `prefix_of` omap Handle.res_tx (omap took (trace_of x)).
Proof.
  intros (Ht & _ & Hu). rewrite answered_trace, took_trace, Ht.
  destruct ph as [|b|r]; simpl in *.
  - destruct Hu as (_ & _ & _ & id & res & body & -> & -> & _). done.
  - destruct Hu as (_ & _ & _ & Ha). destruct (answers _) as [|[[id res] bd] [|]]; [apply prefix_nil| |done].
    by destruct Ha as (-> & _).
  - destruct Hu as (_ & id & res & -> & -> & _). done.
Qed.

Lemma exchanges_matched es xs ph : exchanges es xs ph ->
  omap answered es `prefix_of` omap Handle.res_tx (omap took es).
Proof.
  intros Hx. assert (Hxs : omap answered (xs ≫= trace_of) = omap Handle.res_tx (omap took (xs ≫= trace_of))).
  { destruct Hx as [Hf _]. induction Hf as [|x xs Hw _ IH]; [done|]. cbn [mbind list_bind].
    rewrite !omap_app, IH. f_equal. by apply whole_matched. }
  apply exchanges_cases in Hx as [[_ ->]|(_ & x & -> & Hu)]; [by rewrite Hxs|].
  rewrite !omap_app, Hxs. apply prefix_app. by eapply under_way_matched.
Qed.
End Defs.
End Protocol.
