(* ===== verification/Client_proofs.v ===== *)
(** * The client connection keeps its promises

    Every poll of the connection is a run of [Protocol]: [sim] says that the
    connection stands where a run from [s0] has led, with its buffers in
    order and no more than [budget] stalls of the transport to come, and
    [broke_off] what a poll that fails leaves.  The lemmas follow the code:
    operations on channels, then each handler, then the loops around them. *)

From S2P Require Import Prelude.
From S2P Require Import Async.
From S2P Require Import Std_text.
From S2P Require Import Fast_buf.
From S2P Require Import Transport.
From S2P Require Import Buf_reader.
From S2P Require Import Chunked.
From S2P Require Import Http_api.
From S2P Require Import Error.
From S2P Require Import Limit.
From S2P Require Import Http11.
From S2P Require Import Mpsc.
From S2P Require Import Share.
From S2P Require Import Channels.
From S2P Require Import Codec.
From S2P Require Import Machine.
From S2P Require Import Client.
From S2P Require Import Client_spec.

(** ** Operations on channels *)

Section Worlds.
Context `{Http}.
Implicit Types (w : world).

Lemma send_response_wp id res recv w : is_Some (ress w !! id) -> is_Some (ins w !! RecvStream.rx_body recv) ->
  wp (send_response id (Ok (res, recv))) w (moves (deliver id (Ok (res, recv)) (RecvStream.rx_body recv)) w).
Proof.
  intros Hid Hb. unfold send_response. apply wp_bind. eapply wp_mono; [by apply send_res_wp|].
  intros r w1 ([Hm1 Hg1] & Hi & c & Hc & ->). simpl. apply wp_bind.
  assert (Hl : ress (still_world w) !! id = Some (still c)) by (simpl; by rewrite lookup_fmap, Hc).
  unfold moves, deliver. case_bool_decide as Hr; simpl.
  - wp_steps. split; [eauto|]. split; [|done]. rewrite Hl. simpl. by rewrite decide_False.
  - eapply wp_mono; [apply drop_rx_in_wp; by rewrite Hi|].
    intros r w2 ((a & ->) & [Hm2 Hg2]). wp_steps. split; [eauto|]. split; [|by etransitivity].
    rewrite Hl. simpl. rewrite decide_True by lia. by rewrite Hm2, Hm1.
Qed.
End Worlds.

(** ** A connection in order *)

Section Order.
Context {prof : Profile} `{Http} `{Httparse} {R : Type} `{DuplexSpec R}.
Implicit Types (w : world) (b : BufIo.t R) (c : conn R State).

(** A request the connection can serve: its channels exist, and its version
    is one that can be written. *)
Definition handle_ok w (h : Handle.t) : Prop :=
  (exists ver, version_str (req_version (Handle.req h)) = Done ver) /\
  (forall id, Handle.body_rx h = Some id -> is_Some (outs w !! id)) /\
  (forall id, Handle.res_tx h = Some id -> is_Some (ress w !! id)).

Definition world_ok w : Prop :=
  Forall (handle_ok w) (queue_of (reqs w)) /\
  (forall id ch, outs w !! id = Some ch -> Forall (fun v => zlen v.1 <= isize_max) (queue_of ch)).

Definition phase_ok w (s : State) : Prop :=
  match s with
  | SendReq => True
  | RecvRes b => handle_ok w (Bidirect.handle b) /\
      match Bidirect.holder b with
      | Some (id, l) => Handle.res_tx (Bidirect.handle b) = None /\ is_Some (ins w !! id) /\
          limit_wf l /\ 0 < read_size l
      | None => True
      end
  | RecvBody r => is_Some (ins w !! BodyReceiver.body_tx r) /\ limit_wf (BodyReceiver.limit r) /\
      0 < BodyReceiver.cur_read_size r <= MAX_BODY_READ_SIZE
  end.

(** The channels an error is forwarded on exist. *)
Definition names w (s : State) : Prop :=
  match s with
  | SendReq => True
  | RecvRes b => forall id, Handle.res_tx (Bidirect.handle b) = Some id -> is_Some (ress w !! id)
  | RecvBody r => is_Some (ins w !! BodyReceiver.body_tx r)
  end.

Lemma phase_names w w' s : grows w w' -> phase_ok w s -> names w' s.
Proof.
  intros G. destruct s as [|b|r]; simpl; [done| |].
  - intros [(_ & _ & Hr) _] id Hid. by apply (g_res _ _ G), Hr.
  - intros [Hi _]. by apply (g_in _ _ G).
Qed.

Definition wf c : Prop := io_wf (bio c) /\ world_ok (wld c) /\ phase_ok (wld c) (self c).

(** Fuel for every loop of a poll: for the bytes to come, the bytes to send,
    and the messages in the channels. *)
Definition world_fuel (fuel : nat) w : Prop :=
  (3 * length (queue_of (reqs w)) + 4 < fuel)%nat /\
  out_fuel fuel w.

Definition enough (fuel : nat) c : Prop :=
  MAX_REQUEST_SIZE < Z.of_nat fuel /\ io_room fuel (bio c) /\ world_fuel fuel (wld c).

Lemma handle_ok_grows w w' h : grows w w' -> handle_ok w h -> handle_ok w' h.
Proof. intros G (Hv & Hb & Hr). split_and!; [done| |]; intros id Hid; [by apply (g_out _ _ G), Hb|by apply (g_res _ _ G), Hr]. Qed.

Lemma world_ok_grows w w' : grows w w' -> world_ok w -> world_ok w'.
Proof.
  intros G [Hr Ho]. split.
  - destruct (g_reqs _ _ G) as [k Hk]. rewrite Hk in Hr. apply Forall_app in Hr as [_ Hr].
    eapply Forall_impl; [|exact Hr]. intros h. by apply handle_ok_grows.
  - intros id c' Hc'. destruct (g_outq _ _ G id c' Hc') as (c & Hc & k & Hk). specialize (Ho id c Hc).
    rewrite Hk in Ho. by apply Forall_app in Ho as [_ ?].
Qed.

Lemma world_fuel_grows fuel w w' : grows w w' -> world_fuel fuel w -> world_fuel fuel w'.
Proof.
  intros G [Hr Ho]. split.
  - destruct (g_reqs _ _ G) as [k Hk]. rewrite Hk, length_app in Hr. lia.
  - intros id c' Hc'. destruct (g_outq _ _ G id c' Hc') as (c & Hc & k & Hk). destruct (Ho id c Hc) as [Hl Hf].
    rewrite Hk in Hf, Hl. rewrite length_app in Hl. apply Forall_app in Hf as [_ ?]. split; [lia|done].
Qed.

Lemma phase_ok_grows w w' s : grows w w' -> phase_ok w s -> phase_ok w' s.
Proof.
  intros G. destruct s as [|b|r]; simpl; [done| |].
  - intros [Hh Ho]. split; [by eapply handle_ok_grows|]. revert Ho. destruct (Bidirect.holder b) as [[id l]|]; [|done].
    intros (? & ? & ? & ?). split_and!; auto. by apply (g_in _ _ G).
  - intros (? & ?). split; [by apply (g_in _ _ G)|done].
Qed.

(** Some fuel is always enough. *)
Lemma enough_exists c : exists fuel, enough fuel c.
Proof.
  destruct (out_fuel_exists (wld c)) as [n Hn].
  exists (n + 9 + 3 * length (queue_of (reqs (wld c))) + Z.to_nat (2 * zlen (BufIo.incoming (bio c))) +
          Z.to_nat (zlen (BufIo.unsent (bio c))) + Z.to_nat MAX_REQUEST_SIZE)%nat.
  pose proof (zlen_nonneg (BufIo.incoming (bio c))). pose proof (zlen_nonneg (BufIo.unsent (bio c))).
  unfold enough, MAX_REQUEST_SIZE. split; [lia|]. split; [split; lia|]. split; [lia|]. apply Hn. lia.
Qed.
End Order.

(** ** The connection stands where a run has led *)

Section Simulation.
Context {prof : Profile} `{Http} `{Httparse} {R : Type} `{DuplexSpec R}.
Context (s0 : Protocol.t) (fuel budget : nat) (cx : waker) (Hmax : MAX_REQUEST_SIZE < Z.of_nat fuel).
Implicit Types (w : world) (b : BufIo.t R).

Definition abs {Self} (ph : State) (c : conn R Self) : Protocol.t :=
  Protocol.mk ph (BufIo.incoming (bio c)) (BufIo.outgoing (bio c)) (still_world (wld c)).

Definition in_order (ph : State) b w : Prop :=
  io_wf b /\ io_fuel fuel budget b /\ world_ok w /\ world_fuel fuel w /\ phase_ok w ph.

Definition sim {Self} (ph : State) (c : conn R Self) : Prop :=
  (exists es, Protocol.run s0 es (abs ph c)) /\ in_order ph (bio c) (wld c).

(** A run that broke off: the buffers hold what it leaves of one wire and,
    on the other, what it sends and the part of its next piece. *)
Definition broke_off {Self} (c : conn R Self) : Prop :=
  exists es s taken part, Protocol.run s0 es s /\ Protocol.breaks_off s taken part /\
    Protocol.wire_in s = taken ++ BufIo.incoming (bio c) /\
    BufIo.outgoing (bio c) = Protocol.wire_out s ++ part.

Definition failed {Self} (ph : State) (c : conn R Self) : Prop := broke_off c /\ names (wld c) ph.

(** The one panic a peer can cause. *)
Definition partial_head (p : panic) : Prop :=
  p = PAssert "Parsed partial response" /\ exists head eos, try_parse_res head eos = Ok None.

Lemma sim_failed {Self Self'} ph ph' (c : conn R Self) (c' : conn R Self') taken part : sim ph c ->
  Protocol.breaks_off (abs ph c) taken part -> BufIo.incoming (bio c) = taken ++ BufIo.incoming (bio c') ->
  BufIo.outgoing (bio c') = BufIo.outgoing (bio c) ++ part -> names (wld c') ph' -> failed ph' c'.
Proof. intros [[es Hes] _] Hb Hi Ho Hn. split; [|done]. by exists es, (abs ph c), taken, part. Qed.

(** In front of a step. *)
Lemma failed_idle {Self Self'} ph ph' (c : conn R Self) (c' : conn R Self') : sim ph c ->
  BufIo.incoming (bio c') = BufIo.incoming (bio c) -> BufIo.outgoing (bio c') = BufIo.outgoing (bio c) ->
  names (wld c') ph' -> failed ph' c'.
Proof.
  intros Hs Hi Ho Hn. apply (sim_failed ph ph' c c' [] []); [done|by left|done|by rewrite app_nil_r|done].
Qed.

Lemma sim_names {Self} ph (c : conn R Self) w : sim ph c -> grows (wld c) w -> names w ph.
Proof. intros [_ (_ & _ & _ & _ & Hp)] G. by eapply phase_names. Qed.

Lemma sim_step {Self Self'} ph e ph' (c : conn R Self) (c' : conn R Self') : sim ph c ->
  Protocol.step (abs ph c) e (abs ph' c') -> in_order ph' (bio c') (wld c') -> sim ph' c'.
Proof.
  intros [[es Hes] _] Hs Hw. split; [|done]. exists (es ++ [e]).
  eapply Machine.run_trans; [done|]. by apply Machine.run_one.
Qed.

(** Nothing the machine sees has changed. *)
Lemma sim_same {Self Self'} ph (c : conn R Self) (c' : conn R Self') : sim ph c ->
  abs ph c' = abs ph c -> in_order ph (bio c') (wld c') -> sim ph c'.
Proof. intros [[es Hes] _] He Hw. split; [|done]. exists es. by rewrite He. Qed.

Lemma in_order_grows ph b w w' : in_order ph b w -> grows w w' -> in_order ph b w'.
Proof.
  intros (? & ? & ? & ? & ?) G. split_and!; [done|done|by eapply world_ok_grows|by eapply world_fuel_grows|
    by eapply phase_ok_grows].
Qed.

Lemma abs_moved {Self Self'} ph (c : conn R Self) (c' : conn R Self') : bio c' = bio c ->
  moved (fun w => w) (wld c) (wld c') -> abs ph c' = abs ph c.
Proof. intros Hb [Hs _]. unfold abs. by rewrite Hb, Hs. Qed.

Lemma drop_handle_wp h w : handle_ok w h ->
  wp (drop_handle h) w (fun r w' => (exists a, r = Ready (Ok a)) /\ grows w w').
Proof.
  intros (_ & Hb & Hr). unfold drop_handle. apply wp_bind.
  assert (Hfirst : wp (drop_opt (drop_rx_chan out_chans) (Handle.body_rx h)) w
    (fun r w' => (exists a, r = Ready (Ok a)) /\ grows w w')).
  { destruct (Handle.body_rx h) as [id|]; simpl; [|wp_steps; by split; [eauto|]].
    eapply wp_mono; [apply drop_rx_out_wp; auto|]. by intros r w' [? [_ ?]]. }
  eapply wp_mono; [done|]. intros r w1 [[a ->] G]. simpl.
  destruct (Handle.res_tx h) as [id|] eqn:Hid; simpl; [|wp_steps; by split; [eauto|]].
  eapply wp_mono; [apply drop_tx_res_wp; apply (g_res _ _ G); auto|].
  intros r w' [? [_ ?]]. split; [done|]. by etransitivity.
Qed.

(** *** [SendReq] *)

Lemma request_head_ok req ver : version_str (req_version req) = Done ver ->
  exists r, request_head req = Done r /\
    match r with Ok head => Protocol.head_text req head | Err _ => True end.
Proof.
  intros Hv. unfold request_head.
  destruct (FastBuf.with_capacity_ok MAX_REQUEST_SIZE) as (buf & -> & Hb & Hc);
    [unfold MAX_REQUEST_SIZE, isize_max; lia|]. cbn [mbind exec_bind].
  destruct (FastBuf.borrow_ok buf [] Hb) as (r & sp & -> & Hr & Hs1 & Hs2 & Hs3);
    [rewrite Hc; reflexivity|left; rewrite Hc; reflexivity|]. cbn [mbind exec_bind].
  rewrite Hc in Hs2, Hs3. change (zlen (@nil byte)) with 0 in *.
  specialize (Hs3 ltac:(unfold MAX_REQUEST_SIZE; lia)).
  rewrite (FastBuf.is_ref_len _ _ _ Hr). change (zlen (@nil byte)) with 0. rewrite Hs3.
  destruct (write_http1x_req_ok req ver MAX_REQUEST_SIZE Hv) as (res & -> & Hres);
    [unfold MAX_REQUEST_SIZE; lia|]. cbn [mbind exec_bind].
  set (head := head_of (request_lines req ver)) in *.
  destruct (Z.leb_spec (zlen head) MAX_REQUEST_SIZE) as [Hle|Hgt].
  - subst res. cbn [mbind exec_bind].
    destruct (FastBuf.extend_ok r [] sp head Hr) as (v & E & Hv' & _); [lia|].
    change (zlen (@nil byte)) with 0 in E. rewrite E. cbn [mbind exec_bind].
    rewrite (FastBuf.deref_ok _ _ Hv'). cbn [mbind exec_bind app]. eexists. split; [done|]. by exists ver.
  - destruct res as [[a|e] o]; [by destruct Hres|]. by eexists.
Qed.

Lemma poll_send_req_wp (c : conn R unit) : sim SendReq c -> BufIo.can_poll_write (bio c) = true ->
  wp (poll_send_req fuel cx) c (fun r c' =>
    match r with
    | Pending => sim SendReq c' /\ awaits true cx (reqs (wld c'))
    | Ready (Ok None) => sim SendReq c' /\ Protocol.finished (abs SendReq c')
    | Ready (Ok (Some next)) => sim next c' /\ (exists h, next = RecvRes (Bidirect.mk _ h false None)) /\
        (length (queue_of (reqs (wld c'))) < length (queue_of (reqs (wld c))))%nat
    | Ready (Err _) => failed SendReq c'
    end).
Proof.
  intros Hsim Hcan. pose proof Hsim as [_ (Hio & Hiof & Hw & Hwf & _)]. unfold poll_send_req.
  apply wp_bind, wp_on_world. eapply wp_mono; [apply recv_req_wp|].
  intros r w1 (Ho & Hrs & Hr). cbn [early]. destruct r as [|[[h|]|e]]; [| | |done].
  - destruct Hr as [[Hs G] Hcx]. split; [|done]. apply (sim_same _ c); [done|by apply abs_moved|].
    by apply (in_order_grows _ _ (wld c)); [apply Hsim|].
  - destruct Hr as (q & Hq & Hq1 & [Hs G]). pose proof Hw as [Hall _]. rewrite Hq in Hall.
    apply Forall_cons_1 in Hall as [Hh _]. pose proof Hh as ((ver & Hver) & _).
    assert (Hh1 : handle_ok w1 h) by by eapply handle_ok_grows.
    apply wp_bind, wp_or_drop. apply wp_bind, wp_lift.
    destruct (request_head_ok (Handle.req h) ver Hver) as (hd & -> & Hhd). simpl.
    destruct hd as [head|e].
    2: { apply wp_bind. wp_steps. apply wp_on_world. simpl. eapply wp_mono; [by apply drop_handle_wp|].
         intros r w2 _. by apply (failed_idle SendReq _ c). }
    pose proof Hhd as (ver' & _ & _ & Hlen). wp_steps; [done|]. apply wp_on_bio.
    eapply wp_mono; [apply write_all_wp; [done|lia|unfold isize_max, MAX_REQUEST_SIZE in *; lia]|].
    intros r b1 (r' & -> & Ht). apply (took_wf (fuel := fuel) (budget := budget)) in Ht as (Hio1 & Hin1 & Hpre & _ & _ & Hr'); [|done|done|lia].
    cbn [early]. destruct r' as [|[[]|e]].
    3: { wp_steps. apply wp_on_world. simpl. eapply wp_mono; [by apply drop_handle_wp|].
         intros r w2 _. destruct Hr' as (part & Hpart & Hout). apply (sim_failed SendReq _ c _ [] part); try done.
         right. split; [done|]. by exists h, q, head. }
    all: destruct Hr' as (Hf1 & Hout & _); wp_steps; (split; [|split; [by exists h|]]);
      [|simpl; rewrite Hq, Hq1; simpl; lia].
    all: apply (sim_step SendReq (Protocol.Took h head) _ c);
      [done| |apply (in_order_grows _ _ (wld c)); [|done]; do 4 (split; [done|]); split; [|done];
              by eapply handle_ok_grows].
    all: unfold abs; simpl; rewrite Hin1, Hout, Hs; by apply (Protocol.take_request _ _ _ _ _ q).
  - destruct Hr as ([Hs G] & Hq & Hsn). wp_steps.
    assert (Habs : abs SendReq (set_wld w1 c) = abs SendReq c) by by apply abs_moved.
    split; [|by rewrite Habs]. apply (sim_same _ c); [done|done|].
    by apply (in_order_grows _ _ (wld c)); [apply Hsim|].
Qed.


(** *** [Bidirect] *)

Lemma read_size_pos res : LimitRead.is_no_body (LimitRead.from_headers (res_headers res) true) = false ->
  limit_wf (LimitRead.from_headers (res_headers res) true) /\
  0 < read_size (LimitRead.from_headers (res_headers res) true).
Proof.
  unfold LimitRead.from_headers. destruct (is_chunked _); [split; [|done]|].
  { intros [|]; discriminate. }
  destruct (get_as _ _) as [n|] eqn:En; [|done]. simpl.
  assert (0 <= n <= u64_max).
  { unfold get_as in En. destruct (get_str _ _) as [s|]; [|done]. simpl in En. by eapply parse_u64_range. }
  intros Hn%Z.eqb_neq. unfold cl_wf, read_size, MAX_BODY_READ_SIZE. simpl in *. lia.
Qed.

(** What follows the parse of a response. *)
Lemma respond_wp (c : conn R Bidirect.t) b1 id head eos res : sim (RecvRes (self c)) c ->
  Handle.res_tx (Bidirect.handle (self c)) = Some id ->
  takes_head (BufIo.incoming (bio c)) head (BufIo.incoming b1) eos ->
  try_parse_res head eos = Ok (Some res) ->
  io_wf b1 -> io_fuel fuel budget b1 -> BufIo.outgoing b1 = BufIo.outgoing (bio c) -> BufIo.can_poll_write b1 = true ->
  wp (
    on_self (modify (Bidirect.set_reuse (allow_reuse (res_headers res) (res_version res))));;
    let limit := LimitRead.from_headers (res_headers res) true in
    this ← on_self get;
    let is_no_body := is_no_body (Handle.req (Bidirect.handle this)) res limit in
    body ← on_world (new_chan in_chans 1);
    on_self (modify (Bidirect.set_holder (if is_no_body then None else Some (body, limit))));;
    let recv := RecvStream.new body is_no_body false in
    res_tx ← lift (expect (Handle.res_tx (Bidirect.handle this)) "Missing res_tx");
    set_handle (Handle.set_res_tx None);;
    _ ← on_world (send_response res_tx (Ok (res, recv)));
    on_world (drop_tx_chan res_chans res_tx);;
    if is_no_body then on_world (drop_tx_chan in_chans body) else mret tt) (set_bio b1 c) (fun r c' =>
    match r with
    | Ready (Ok _) => sim (RecvRes (self c')) c' /\ BufIo.can_poll_write (bio c') = true /\
        Handle.res_tx (Bidirect.handle (self c')) = None /\
        Handle.body_rx (Bidirect.handle (self c')) = Handle.body_rx (Bidirect.handle (self c)) /\
        grows (wld c) (wld c')
    | _ => False
    end).
Proof.
  intros Hsim Hid Htake Hparse Hio1 Hf1 Ho1 Hc1. pose proof Hsim as [_ (_ & _ & Hw & Hwf & Hh & _)].
  destruct c as [[h reuse holder] b w]. simpl in Hid, Htake, Ho1, Hw, Hwf, Hh.
  cbv zeta. set (limit := LimitRead.from_headers _ true). conn_steps.
  unfold Bidirect.set_reuse. cbn [Bidirect.handle Bidirect.holder].
  set (empty := is_no_body (Handle.req h) res limit).
  apply wp_on_world. eapply wp_mono; [apply new_in_wp|].
  intros r w1 (body & -> & Hnew & Hin1 & [Hs1 G1] & Hr1). conn_steps. rewrite Hid. simpl.
  unfold set_handle. conn_steps. apply wp_on_world.
  eapply wp_mono; [apply send_response_wp; [cbn; rewrite Hr1; by apply Hh|done]|].
  intros r w2 ((a & ->) & [Hs2 G2]). conn_steps. apply wp_on_world.
  eapply wp_mono; [apply drop_tx_res_wp; apply (g_res _ _ G2); cbn; rewrite Hr1; by apply Hh|].
  intros r w3 ((a3 & ->) & [Hs3 G3]). conn_steps.
  pose (w' := if empty then at_in body close_tx (still_world w3) else still_world w3).
  assert (Hend : forall w4, still_world w4 = w' -> grows w w4 -> is_Some (ins w4 !! body) ->
    let c' := mk_conn (Bidirect.mk _ (Handle.set_res_tx None h) (allow_reuse (res_headers res) (res_version res))
      (if empty then None else Some (body, limit))) b1 w4 in sim (RecvRes (self c')) c').
  { intros w4 Hs4 G4 Hbody c'. apply (sim_step (RecvRes (Bidirect.mk _ h reuse holder))
      (Protocol.Responded id head res (if empty then None else Some body)) _ (mk_conn (Bidirect.mk _ h reuse holder) b w)); [done| |].
    - unfold abs, c'. simpl. rewrite Hs4, Ho1. unfold w'. rewrite Hs3, Hs2, Hs1.
      apply (Protocol.get_response (Bidirect.mk _ h reuse holder) _ _ _ id head _ eos res body); try done.
      simpl. by rewrite lookup_fmap, Hnew.
    - unfold c'. do 2 (split; [done|]). split; [by eapply world_ok_grows|]. split; [by eapply world_fuel_grows|].
      split; [destruct Hh as (Hv & Hb & Hr); split_and!; [done| |done]; intros i Hi; apply (g_out _ _ G4); auto|].
      simpl. destruct empty eqn:Hne; [done|]. split; [done|]. split; [done|]. apply read_size_pos.
      unfold empty, is_no_body in Hne. by repeat (apply orb_false_elim in Hne as [Hne _]). }
  assert (G03 : grows w w3) by (etransitivity; [exact G1|etransitivity; [exact G2|exact G3]]).
  assert (Hb3 : is_Some (ins w3 !! body)) by (apply (g_in _ _ G3), (g_in _ _ G2); done).
  destruct empty; conn_steps.
  - apply wp_on_world. eapply wp_mono; [by apply drop_tx_in_wp|].
    intros r w4 ((a4 & ->) & [Hs4 G4]). simpl. split; [|split_and!; try done; by etransitivity].
    apply Hend; [done|by etransitivity|by apply (g_in _ _ G4)].
  - split; [by apply Hend|]. by split_and!.
Qed.

Lemma poll_response_swp (c : conn R Bidirect.t) id : sim (RecvRes (self c)) c ->
  BufIo.can_poll_write (bio c) = true -> Handle.res_tx (Bidirect.handle (self c)) = Some id ->
  swp partial_head (poll_response fuel) c (fun r c' =>
    match r with
    | Pending => sim (RecvRes (self c')) c' /\ self c' = self c /\ wld c' = wld c /\
        BufIo.can_poll_write (bio c') = true /\ on_hold budget BufIo.pending_rx (bio c')
    | Ready (Ok _) => sim (RecvRes (self c')) c' /\ BufIo.can_poll_write (bio c') = true /\
        Handle.res_tx (Bidirect.handle (self c')) = None /\
        Handle.body_rx (Bidirect.handle (self c')) = Handle.body_rx (Bidirect.handle (self c)) /\
        grows (wld c) (wld c')
    | Ready (Err _) => failed (RecvRes (self c')) c'
    end).
Proof.
  intros Hsim Hcan Hid. pose proof Hsim as [_ (Hio & Hiof & Hw & Hwf & Hh & Hho)].
  unfold poll_response. apply swp_bind, swp_of_wp, wp_on_bio.
  eapply wp_mono; [apply (wp_yields BufIo.lasts (BufIo.held BufIo.pending_rx)); [apply poll_for_crlfcrlf_yields|]; apply (wp_keeps BufIo.tx_same);
    [apply poll_for_crlfcrlf_tx|]; apply poll_for_crlfcrlf_wp; [apply Hio|by apply span_room|destruct Hiof; lia]|].
  intros r b1 ((((Hrd1 & _ & Hsp1 & _) & Htook) & Hsame) & Hlast & Hheld). cbn [early].
  assert (Hlen : zlen (BufIo.incoming b1) <= zlen (BufIo.incoming (bio c))).
  { destruct r as [|[ret|e]]; simpl in Htook; [by destruct Htook as [-> _]| |by destruct Htook as [-> _]].
    destruct Htook as (head & -> & _). zlia. }
  destruct (io_wf_rx (fuel := fuel) (budget := budget) (bio c) b1) as (Hio1 & Hf1 & Ho1 & Hc1); [done..|]. rewrite Hcan in Hc1.
  destruct r as [|[ret|e]].
  - destruct Htook as [Hi _]. split.
    + apply (sim_same _ c); [done| |done]. unfold abs. simpl. by rewrite Hi, Ho1.
    + do 3 (split; [done|]). eapply held_on_hold; [apply Hiof|by apply Hheld].
  - destruct Htook as (head & Hi & Hhead).
    assert (Htake : exists eos, ret = try_parse_res head eos /\
      takes_head (BufIo.incoming (bio c)) head (BufIo.incoming b1) eos).
    { destruct Hhead as [(? & ? & ->)|(? & ? & ? & ->)]; [exists false|exists true]; by split_and!. }
    destruct Htake as (eos & -> & Htake). apply swp_bind.
    destruct (try_parse_res head eos) as [o|e] eqn:Hparse.
    2: { apply swp_of_wp. wp_steps. apply (sim_failed (RecvRes (self c)) _ c _ head []);
         [done| |apply Htake|simpl; by rewrite app_nil_r|by apply (sim_names (RecvRes (self c)) c)].
         right. left. split; [done|]. split; [by rewrite Hid|]. by exists (BufIo.incoming b1), eos, e. }
    apply swp_of_wp. wp_steps. apply swp_bind, swp_lift. destruct o as [res|]; [|split; [done|by eauto]].
    simpl. apply swp_of_wp. eapply wp_mono; [by apply (respond_wp c b1 id head eos res)|]. by intros [|[[]|e]].
  - apply (failed_idle (RecvRes (self c)) _ c); [done|apply Htook|done|by apply (sim_names (RecvRes (self c)) c)].
Qed.


(** The messages still to be sent for a request. *)
Definition qlen w (id : chan_id) : nat :=
  match outs w !! id with Some ch => length (queue_of ch) | None => 0 end.

Definition to_send (c : conn R Bidirect.t) : nat :=
  match Handle.body_rx (Bidirect.handle (self c)) with Some id => S (qlen (wld c) id) | None => 0 end.

Lemma qlen_grows w w' id : grows w w' -> (qlen w' id <= qlen w id)%nat.
Proof.
  intros G. unfold qlen. destruct (outs w' !! id) as [ch'|] eqn:E; [|lia].
  destruct (g_outq _ _ G id ch' E) as (ch & -> & k & ->). rewrite length_app. lia.
Qed.

(** Taking the chunk off its channel, and giving the channel up at the end. *)
Lemma end_of_body_wp (end_ : bool) id (c : conn R Bidirect.t) : is_Some (outs (wld c) !! id) ->
  wp (if end_ then set_handle (Handle.set_body_rx None);; on_world (drop_rx_chan out_chans id)
      else mret tt) c (fun r c' => r = Ready (Ok tt) /\ bio c' = bio c /\
    self c' = (if end_ then Bidirect.set_handle (Handle.set_body_rx None (Bidirect.handle (self c))) (self c)
               else self c) /\
    moved (fun w => if end_ then at_out id close_rx w else w) (wld c) (wld c') /\
    (end_ = false -> wld c' = wld c)).
Proof.
  intros Hid. destruct end_; [|by wp_steps]. unfold set_handle. conn_steps. apply wp_on_world.
  eapply wp_mono; [by apply drop_rx_out_wp|]. intros r w' (([] & ->) & Hm). by split_and!.
Qed.

Lemma poll_send_body_wp (c : conn R Bidirect.t) id : sim (RecvRes (self c)) c ->
  BufIo.can_poll_write (bio c) = true -> Handle.body_rx (Bidirect.handle (self c)) = Some id ->
  wp (poll_send_body fuel cx) c (fun r c' =>
    match r with
    | Pending => sim (RecvRes (self c')) c' /\
        Handle.res_tx (Bidirect.handle (self c')) = Handle.res_tx (Bidirect.handle (self c)) /\
        (BufIo.pending_rx (bio c') = BufIo.pending_rx (bio c) /\ BufIo.lasts (bio c) (bio c')) /\
        (on_hold budget BufIo.pending_tx (bio c') \/
         (self c' = self c /\ exists ch, outs (wld c') !! id = Some ch /\ awaits true cx ch))
    | Ready (Ok _) => sim (RecvRes (self c')) c' /\ BufIo.can_poll_write (bio c') = true /\
        Handle.res_tx (Bidirect.handle (self c')) = Handle.res_tx (Bidirect.handle (self c)) /\
        (to_send c' < to_send c)%nat /\ grows (wld c) (wld c') /\
        BufIo.pending_rx (bio c') = BufIo.pending_rx (bio c) /\ BufIo.lasts (bio c) (bio c')
    | Ready (Err _) => failed (RecvRes (self c')) c'
    end).
Proof.
  intros Hsim Hcan Hid. pose proof Hsim as [_ (Hio & Hiof & Hw & Hwf & Hh & Hho)].
  unfold poll_send_body. conn_steps. rewrite Hid. simpl. conn_steps. apply wp_on_world.
  eapply wp_mono; [apply recv_out_wp; by apply Hh|]. intros r w1 Hr.
  destruct r as [|[[[chunk end_]|]|e]]; [| | |done].
  - destruct Hr as (Hm & ch & Hch & Hcx). cbn [early]. split; [|split_and!; eauto; by intros _].
    apply (sim_same _ c); [done|by apply abs_moved|]. eapply in_order_grows; [apply Hsim|apply Hm].
  - destruct Hr as (ch & q & ch' & Hch & Hq & [Hs1 G1] & Hch' & Hq').
    assert (Hlen : zlen chunk < Z.of_nat fuel /\ zlen chunk <= isize_max).
    { destruct Hwf as [_ Hwf]. destruct (Hwf id ch Hch) as [_ Hf]. destruct Hw as [_ Hw].
      specialize (Hw id ch Hch). rewrite Hq in Hf, Hw. apply Forall_cons_1 in Hf as [? _].
      by apply Forall_cons_1 in Hw as [? _]. }
    conn_steps; [done|]. conn_steps. eapply wp_mono; [apply end_of_body_wp; cbn; by rewrite Hch'|].
    intros r c2 (-> & Hb2 & Hself2 & [Hs2 G2] & Hsame2). conn_steps. apply wp_on_bio.
    eapply wp_mono; [apply write_all_wp; [by rewrite Hb2|tauto..]|].
    intros r b3 (r' & -> & Ht). rewrite Hb2 in Ht.
    apply (took_wf (fuel := fuel) (budget := budget)) in Ht as (Hio3 & Hin3 & Hpre & [Hprx Hl3] & _ & Hr'); [|done|done|tauto]. conn_steps.
    assert (G02 : grows (wld c) (wld c2)) by by etransitivity.
    assert (Hstep : BufIo.outgoing b3 = BufIo.outgoing (bio c) ++ chunk -> io_fuel fuel budget b3 ->
      let c3 := mk_conn (self c2) b3 (wld c2) in sim (RecvRes (self c3)) c3).
    { intros Hout Hf3 c3. apply (sim_step (RecvRes (self c)) (Protocol.Sent id chunk end_) _ c); [done| |].
      - unfold abs, c3. simpl. rewrite Hin3, Hout, Hs2, Hs1, Hself2.
        apply (Protocol.send_chunk _ _ _ _ id (still ch) chunk end_ q); [done|simpl; by rewrite lookup_fmap, Hch|done].
      - unfold c3. simpl. apply (in_order_grows _ _ (wld c)); [|done].
        do 4 (split; [done|]). rewrite Hself2. destruct end_; simpl; [|done].
        split; [|done]. destruct Hh as (? & ? & ?). by split_and!. }
    assert (Hres : Handle.res_tx (Bidirect.handle (self c2)) = Handle.res_tx (Bidirect.handle (self c)))
      by (rewrite Hself2; by destruct end_).
    destruct r' as [|[[]|e]]; conn_steps.
    + destruct Hr' as (Hf3 & Hout & Hp). split_and!; [by apply Hstep|done|done|exact Hl3|by left].
    + destruct Hr' as (Hf3 & Hout & Hc3). split; [by apply Hstep|]. do 2 (split; [done|]). split; [|done].
      unfold to_send. simpl. rewrite Hself2, Hid. destruct end_; simpl; [lia|].
      rewrite Hid, Hsame2 by done. unfold qlen. simpl. rewrite Hch, Hch', Hq, Hq'. simpl. lia.
    + destruct Hr' as (part & Hpart & Hout). apply (sim_failed (RecvRes (self c)) _ c _ [] part); try done.
      * right. right. split; [done|]. exists id, (still ch), chunk, end_, q.
        split_and!; [done|simpl; by rewrite lookup_fmap, Hch|done..].
      * intros id'. simpl. rewrite Hres. by apply (sim_names (RecvRes (self c)) c).
  - conn_steps. apply (failed_idle (RecvRes (self c)) _ c); [done..|].
    apply (sim_names (RecvRes (self c)) c); [done|apply Hr].
Qed.


(** When a poll is [Pending], there was nothing more to do: the transport
    stalled, or a channel was empty, or full, whose other end is still there.
    The task has left its waker with the transport, or in that channel. *)
Definition parked (ph : State) b w : Prop :=
  on_hold budget BufIo.pending_tx b \/
  match ph with
  | SendReq => awaits true cx (reqs w)
  | RecvRes h =>
      (Handle.res_tx (Bidirect.handle h) <> None -> on_hold budget BufIo.pending_rx b) /\
      (forall id, Handle.body_rx (Bidirect.handle h) = Some id ->
         exists ch, outs w !! id = Some ch /\ awaits true cx ch) /\
      (Handle.res_tx (Bidirect.handle h) <> None \/ Handle.body_rx (Bidirect.handle h) <> None)
  | RecvBody h => on_hold budget BufIo.pending_rx b \/
      exists ch, ins w !! BodyReceiver.body_tx h = Some ch /\ backed_up cx ch
  end.

Lemma swp_is_pending_or P (m : io (conn R Bidirect.t) unit) c Q :
  swp P m c (fun r c' => match r with
    | Pending => Q (Ready (Ok true)) c'
    | Ready (Ok _) => Q (Ready (Ok false)) c'
    | Ready (Err e) => Q (Ready (Err e)) c'
    end) -> swp P (is_pending_or m) c Q.
Proof.
  intros Hm. unfold is_pending_or. apply swp_bind, swp_raw. eapply swp_mono; [done|].
  intros [|[[]|e]] c'; cbn [early]; intros HQ; by apply swp_of_wp; wp_steps.
Qed.

Definition exchange_left (c : conn R Bidirect.t) : nat :=
  match Handle.res_tx (Bidirect.handle (self c)) with Some _ => 1 | None => 0 end + to_send c.

Definition exchanging (c0 c : conn R Bidirect.t) : Prop :=
  sim (RecvRes (self c)) c /\ BufIo.can_poll_write (bio c) = true /\ grows (wld c0) (wld c).

(** The second half of a turn: the request's body. *)
Lemma body_half_swp c0 c1 c (res_tx_pending : bool) : exchanging c0 c ->
  (exchange_left c <= exchange_left c1)%nat -> (res_tx_pending = false -> exchange_left c = exchange_left c1 ->
    is_Some (Handle.body_rx (Bidirect.handle (self c)))) ->
  (res_tx_pending = true -> on_hold budget BufIo.pending_rx (bio c) /\ Handle.res_tx (Bidirect.handle (self c)) <> None) ->
  (res_tx_pending = false -> Handle.res_tx (Bidirect.handle (self c)) = None) ->
  swp partial_head (
    this ← on_self get;
    body_tx_pending ← (if bool_decide (is_Some (Handle.body_rx (Bidirect.handle this)))
                       then is_pending_or (poll_send_body fuel cx) else mret false);
    this ← on_self get;
    let h := Bidirect.handle this in
    if (res_tx_pending && (body_tx_pending || bool_decide (Handle.body_rx h = None)))
       || (body_tx_pending && (res_tx_pending || bool_decide (Handle.res_tx h = None)))
    then io_pending
    else mret (inl (B := unit) tt)) c (fun r c' =>
    match r with
    | Pending => sim (RecvRes (self c')) c' /\ parked (RecvRes (self c')) (bio c') (wld c')
    | Ready (Ok (inl _)) => exchanging c0 c' /\ (exchange_left c' < exchange_left c1)%nat
    | Ready (Ok (inr _)) => False
    | Ready (Err _) => failed (RecvRes (self c')) c'
    end).
Proof.
  intros (Hsim & Hcan & G) Hle Hlt Hprx Hres. apply swp_get_self, swp_bind.
  destruct (Handle.body_rx (Bidirect.handle (self c))) as [id|] eqn:Hid.
  - rewrite bool_decide_true by eauto. apply swp_is_pending_or, swp_of_wp.
    eapply wp_mono; [by apply (poll_send_body_wp c id)|]. intros r c' Hr. destruct r as [|[[]|e]]; cbn [early]; [| |done].
    + destruct Hr as (Hsim' & Hr1 & Hr2 & Hp). apply swp_get_self, swp_of_wp. cbv zeta.
      assert (Hpend : (res_tx_pending && (true || bool_decide (Handle.body_rx (Bidirect.handle (self c')) = None)))
        || (true && (res_tx_pending || bool_decide (Handle.res_tx (Bidirect.handle (self c')) = None))) = true).
      { destruct res_tx_pending; [done|]. simpl. rewrite Hr1, Hres by done. done. }
      rewrite Hpend. wp_steps. split; [done|]. destruct Hp as [|[Hs (ch & Hch & Hcx)]]; [by left|]. right.
      rewrite Hs. split_and!.
      * intros Hne. destruct res_tx_pending; [|by rewrite Hres in Hne]. by eapply on_hold_lasts; [apply Hprx|apply Hr2..].
      * intros id'. rewrite Hid. intros [= <-]. eauto.
      * right. by rewrite Hid.
    + destruct Hr as (Hsim' & Hc' & Hr1 & Hm & G' & Hr2 & Hr3). apply swp_get_self, swp_of_wp. cbv zeta. rewrite andb_false_l, orb_false_r. simpl.
      assert (Hless : (exchange_left c' < exchange_left c1)%nat).
      { unfold exchange_left in *. rewrite Hr1. lia. }
      destruct (res_tx_pending && _) eqn:E; wp_steps.
      * split; [done|]. apply andb_prop in E as [-> E]. apply bool_decide_eq_true in E.
        destruct (Hprx eq_refl) as [Hh Hn]. right. split_and!.
        -- intros _. by eapply on_hold_lasts.
        -- intros id'. by rewrite E.
        -- left. by rewrite Hr1.
      * split; [|done]. split; [done|]. split; [done|]. by etransitivity.
  - rewrite bool_decide_false by (by intros []). apply swp_of_wp. wp_steps.
    apply swp_get_self, swp_of_wp. cbv zeta. rewrite Hid, bool_decide_true by done. cbn [orb andb]. rewrite andb_true_r, orb_false_r.
    destruct res_tx_pending; wp_steps.
    + destruct (Hprx eq_refl) as [Hh Hn]. split; [done|]. right. split_and!; [done|intros id; by rewrite Hid|by left].
    + split; [done|]. destruct (decide (exchange_left c = exchange_left c1)); [|lia].
      destruct (Hlt eq_refl) as [? ?]; done.
Qed.


Lemma bidirect_turn_swp c0 c : exchanging c0 c ->
  swp partial_head (bidirect_turn fuel cx tt) c (fun r c' =>
    match r with
    | Pending => sim (RecvRes (self c')) c' /\ parked (RecvRes (self c')) (bio c') (wld c')
    | Ready (Ok (inl _)) => exchanging c0 c' /\ (exchange_left c' < exchange_left c)%nat
    | Ready (Ok (inr _)) => c' = c /\ Protocol.is_exchanged (self c)
    | Ready (Err _) => failed (RecvRes (self c')) c'
    end).
Proof.
  intros Hex. pose proof Hex as (Hsim & Hcan & G). unfold bidirect_turn. apply swp_get_self. cbv zeta.
  set (Q := fun (r : poll (io_result (unit + unit))) (c' : conn R Bidirect.t) => _).
  destruct (Handle.res_tx (Bidirect.handle (self c))) as [id|] eqn:Hid.
  - rewrite bool_decide_false by done. cbn [andb]. rewrite bool_decide_true by eauto.
    apply swp_bind, swp_is_pending_or. eapply swp_mono; [by apply (poll_response_swp c id)|].
    intros [|[[]|e]] c' Hr; cbn [early]; [| |done].
    + destruct Hr as (Hsim' & Hs & Hw & Hc' & Hp).
      eapply swp_mono; [apply (body_half_swp c0 c c' true); try done|by intros [|[[[]|[]]|e]] ?].
      * split; [done|]. by rewrite Hw.
      * unfold exchange_left, to_send. by rewrite Hs, Hw.
      * intros _. split; [done|]. by rewrite Hs, Hid.
    + destruct Hr as (Hsim' & Hc' & Hr & Hb & G').
      assert (exchange_left c' < exchange_left c)%nat.
      { unfold exchange_left, to_send. rewrite Hr, Hid, Hb.
        destruct (Handle.body_rx (Bidirect.handle (self c))) as [i|].
        - pose proof (qlen_grows _ _ i G'). lia.
        - lia. }
      eapply swp_mono; [apply (body_half_swp c0 c c' false); try done; [|lia|intros _ ?; lia]|by intros [|[[[]|[]]|e]] ?].
      split; [done|]. split; [done|]. by etransitivity.
  - rewrite bool_decide_true by done. destruct (Handle.body_rx (Bidirect.handle (self c))) as [id|] eqn:Hb.
    + rewrite bool_decide_false by done. cbn [andb]. rewrite bool_decide_false by (by intros []).
      apply swp_bind, swp_of_wp. wp_steps.
      eapply swp_mono; [apply (body_half_swp c0 c c false); try done; by rewrite Hb|by intros [|[[[]|[]]|e]] ?].
    + rewrite bool_decide_true by done. apply swp_of_wp. wp_steps. by split.
Qed.

(** What a handler that gives the next state promises. *)
Definition handled (ph : State) (c0 c' : conn R Bidirect.t) (next : option State) : Prop :=
  grows (wld c0) (wld c') /\ BufIo.can_poll_write (bio c') = true /\
  Protocol.is_exchanged (self c') /\ Bidirect.holder (self c') = None /\
  match next with
  | Some next => sim next c' /\ match next with RecvRes _ => False | _ => True end
  | None => sim (RecvRes (self c')) c' /\ Protocol.finished (abs (RecvRes (self c')) c')
  end.

Lemma poll_bidirect_swp (c : conn R Bidirect.t) : sim (RecvRes (self c)) c ->
  BufIo.can_poll_write (bio c) = true ->
  swp partial_head (poll_bidirect fuel cx) c (fun r c' =>
    match r with
    | Pending => sim (RecvRes (self c')) c' /\ parked (RecvRes (self c')) (bio c') (wld c')
    | Ready (Ok next) => handled (RecvRes (self c)) c c' next
    | Ready (Err _) => failed (RecvRes (self c')) c'
    end).
Proof.
  intros Hsim Hcan. unfold poll_bidirect. apply swp_bind.
  apply (swp_iter _ (fun _ => exchanging c) (fun _ => exchange_left)).
  - intros [] c1 H1'. eapply swp_mono; [by apply (bidirect_turn_swp c)|].
    intros [|[[[]|[]]|e]] c2; cbn [early]; auto.
    intros [-> Hx]. destruct H1' as (Hsim1 & Hcan1 & G1). apply swp_of_wp. clear Hsim Hcan.
    pose proof Hsim1 as [_ (Hio & Hiof & Hw & Hwf & Hh & Hho)]. conn_steps.
    unfold handled. cbn [bio wld self set_self Bidirect.holder Bidirect.set_holder].
    set (b := self c1) in *.
    assert (Hstep : forall next, Protocol.after_exchange b = Some next -> phase_ok (wld c1) next ->
      sim next (set_self (Bidirect.set_holder None b) c1)).
    { intros next Hn Hok. apply (sim_step (RecvRes b) (Protocol.Exchanged next) _ c1); [done| |by split_and!].
      by apply Protocol.end_exchange. }
    do 4 (split; [done|]).
    assert (Hnext : forall o, Protocol.after_exchange b = o ->
      match o with
      | Some next => phase_ok (wld c1) next /\ match next with RecvRes _ => False | _ => True end
      | None => Bidirect.holder b = None
      end).
    { intros o <-. unfold Protocol.after_exchange. destruct (Bidirect.holder b) as [[id l]|].
      - split; [|done]. destruct Hho as (_ & Hi & Hl & Hs). simpl. split; [done|]. split; [done|].
        split; [done|]. unfold read_size. lia.
      - by destruct (_ && _). }
    destruct (Protocol.after_exchange b) as [next|] eqn:Hn.
    + replace (match Bidirect.holder b with _ => _ end) with (Some next).
      destruct (Hnext _ eq_refl) as [Hok Hk]. split; [by apply Hstep|done].
    + replace (match Bidirect.holder b with _ => _ end) with (@None State).
      specialize (Hnext _ eq_refl). simpl in Hnext.
      assert (Hsame : Bidirect.set_holder None b = b) by (destruct b; simpl in *; by subst).
      rewrite Hsame. split; [by apply (sim_same _ c1)|]. by split.
  - by split_and!.
  - pose proof Hsim as [_ (_ & _ & _ & [_ Hwf] & (_ & Hb & _) & _)]. unfold exchange_left, to_send, qlen.
    destruct (Handle.body_rx _) as [id|] eqn:Hid; [|destruct (Handle.res_tx _); unfold MAX_REQUEST_SIZE in Hmax; lia].
    destruct (Hb id eq_refl) as [ch Hch]. rewrite Hch. destruct (Hwf id ch Hch). destruct (Handle.res_tx _); lia.
Qed.


(** *** [BodyReceiver] *)

Lemma wp_limit_read n (c : conn R BodyReceiver.t) Q :
  wp (LimitRead.poll_read fuel n) (BodyReceiver.limit (self c), bio c)
    (fun r st => Q r (mk_conn (BodyReceiver.set_limit st.1 (self c)) st.2 (wld c))) ->
  wp (limit_read fuel n) c Q.
Proof.
  unfold wp, limit_read. by destruct (LimitRead.poll_read fuel n _) as [[r [l b]]| |].
Qed.

Definition body_left (c : conn R BodyReceiver.t) : nat :=
  (2 * length (BufIo.incoming (bio c)) +
   if LimitRead.is_complete (BodyReceiver.limit (self c)) then 0 else 1)%nat.

Definition receiving (c0 c : conn R BodyReceiver.t) : Prop :=
  sim (RecvBody (self c)) c /\ BufIo.can_poll_write (bio c) = true /\ grows (wld c0) (wld c) /\
  BodyReceiver.body_tx (self c) = BodyReceiver.body_tx (self c0).

(** A piece of the body, read and handed over. *)
Lemma got_body_sim (c : conn R BodyReceiver.t) b1 w1 l1 p d :
  sim (RecvBody (self c)) c -> LimitRead.is_complete (BodyReceiver.limit (self c)) = false ->
  io_wf b1 -> io_fuel fuel budget b1 -> BufIo.outgoing b1 = BufIo.outgoing (bio c) ->
  BufIo.incoming (bio c) = p ++ BufIo.incoming b1 -> reads (BodyReceiver.limit (self c)) p d l1 ->
  limit_wf l1 -> grows (wld c) w1 ->
  still_world w1 = (if decide (d = []) then still_world (wld c)
                    else at_in (BodyReceiver.body_tx (self c)) (push (Ok d)) (still_world (wld c))) ->
  sim (RecvBody (BodyReceiver.set_limit l1 (self c))) (mk_conn (BodyReceiver.set_limit l1 (self c)) b1 w1).
Proof.
  intros Hsim Hnc Hio Hf Ho Hp Hr Hl G Hs. pose proof Hsim as [_ (_ & _ & Hw & Hwf & Hi & _ & Hn)].
  apply (sim_step (RecvBody (self c)) (Protocol.Received (BodyReceiver.body_tx (self c)) p d) _ c); [done| |].
  - unfold abs. simpl. rewrite Ho, Hs. by apply (Protocol.get_body _ _ _ _ p d l1).
  - apply (in_order_grows _ _ (wld c)); [|done]. by do 4 (split; [done|]).
Qed.

Lemma read_body_turn_wp c0 c : receiving c0 c ->
  wp (read_body_turn fuel cx tt) c (fun r c' =>
    match r with
    | Pending => sim (RecvBody (self c')) c' /\ parked (RecvBody (self c')) (bio c') (wld c')
    | Ready (Ok (inl _)) => receiving c0 c' /\ (body_left c' < body_left c)%nat
    | Ready (Ok (inr _)) => c' = c /\ LimitRead.is_complete (BodyReceiver.limit (self c)) = true
    | Ready (Err _) => failed (RecvBody (self c')) c'
    end).
Proof.
  intros (Hsim & Hcan & G & Htx). pose proof Hsim as [_ (Hio & Hiof & Hw & Hwf & Hi & Hl & Hn)].
  unfold read_body_turn. conn_steps.
  destruct (LimitRead.is_complete (BodyReceiver.limit (self c))) eqn:Hnc; [by conn_steps|].
  conn_steps. apply wp_on_world. eapply wp_mono; [by apply ready_in_wp|].
  intros r w1 ([Hs1 G1] & Hr). destruct r as [|[ready|e]]; cbn [early]; [| |done].
  { split; [|right; by right]. apply (sim_same _ c); [done|by apply abs_moved|].
    eapply in_order_grows; [apply Hsim|done]. }
  clear Hr. destruct (lent_buffer (BodyReceiver.cur_read_size (self c))) as (v & rd & Ev & Er & Elen & Hfill);
    [unfold MAX_BODY_READ_SIZE, isize_max in *; lia|].
  rewrite Ev. conn_steps. rewrite Er. conn_steps. rewrite Elen. apply wp_limit_read.
  cbn [self bio wld set_wld].
  eapply wp_mono; [apply (wp_yields (snd_rel BufIo.lasts) (snd_rel (BufIo.held BufIo.pending_rx))); [apply limit_read_yields|];
    apply (wp_keeps (snd_rel BufIo.rd_frame)); [apply limit_read_frame|];
    apply limit_read_wp; [apply Hio|done|lia|destruct Hiof; lia|destruct Hiof; zlen_facts; lia]|].
  intros r [l1 b1] (((Hrd1 & p & Hp & Hr) & [Hsame Hwith]) & Hlast & Hpend). unfold snd_rel in Hlast, Hpend. cbn [fst snd] in *.
  destruct (Hwith (proj1 Hio)) as [_ Hsp1].
  assert (Hlen : zlen (BufIo.incoming b1) <= zlen (BufIo.incoming (bio c))) by (rewrite Hp; zlia).
  destruct (io_wf_rx (fuel := fuel) (budget := budget) (bio c) b1) as (Hio1 & Hf1 & Ho1 & Hc1); [done..|]. rewrite Hcan in Hc1.
  destruct r as [|[d|e]]; cbn [early].
  - destruct Hr as [Hr Hl1]. split; [|right; left; eapply held_on_hold; [apply Hiof|by apply Hpend]].
    by apply (got_body_sim c b1 w1 l1 p []).
  - destruct Hr as (Hr & Hl1 & Hd & Hnil). conn_steps.
    pose proof (reads_out _ _ _ _ Hr) as Hdp. destruct (Z.ltb_spec 0 (zlen d)) as [Hpos|Hz].
    + destruct (Hfill d Hd) as (v' & -> & Hv'). conn_steps. rewrite Hv'. conn_steps.
      apply wp_on_world. eapply wp_mono; [apply send_in_wp; by apply (g_in _ _ G1)|].
      intros r w2 ((a & ->) & [Hs2 G2]). conn_steps.
      split; [split; [|split_and!; try done; etransitivity; [exact G|by etransitivity]]|].
      * apply (got_body_sim c b1 w2 l1 p d); try done; [by etransitivity|].
        rewrite decide_False by (intros ->; by change (zlen (@nil byte)) with 0 in Hpos). by rewrite Hs2, Hs1.
      * unfold body_left. simpl. rewrite Hp, length_app, Hnc. unfold zlen in *.
        destruct (LimitRead.is_complete l1); lia.
    + assert (d = []) as -> by (apply zlen_zero; pose proof (zlen_nonneg d); lia).
      cbn [BodyReceiver.limit BodyReceiver.set_limit].
      destruct (LimitRead.is_complete l1) eqn:Hc; cbn [negb]; conn_steps.
      * split; [split; [|split_and!; try done; by etransitivity]|].
        -- by apply (got_body_sim c b1 w1 l1 p []).
        -- unfold body_left. simpl. rewrite Hc, Hp, length_app, Hnc. lia.
      * apply (sim_failed (RecvBody (self c)) _ c _ p []); [done|by right|done|by rewrite app_nil_r|
          by apply (sim_names (RecvBody (self c)) c)].
  - apply (sim_failed (RecvBody (self c)) _ c _ p []); [done|by right|done|by rewrite app_nil_r|
      by apply (sim_names (RecvBody (self c)) c)].
Qed.


Lemma poll_read_body_wp (c : conn R BodyReceiver.t) : sim (RecvBody (self c)) c ->
  BufIo.can_poll_write (bio c) = true ->
  wp (poll_read_body fuel cx) c (fun r c' =>
    match r with
    | Pending => sim (RecvBody (self c')) c' /\ parked (RecvBody (self c')) (bio c') (wld c')
    | Ready (Ok next) => receiving c c' /\ LimitRead.is_complete (BodyReceiver.limit (self c')) = true /\
        next = Protocol.after_body (self c')
    | Ready (Err _) => failed (RecvBody (self c')) c'
    end).
Proof.
  intros Hsim Hcan. unfold poll_read_body. apply wp_bind.
  apply (wp_iter (fun _ => receiving c) (fun _ => body_left)).
  - intros [] c1 Hrec. eapply wp_mono; [by apply (read_body_turn_wp c)|].
    intros [|[[[]|[]]|e]] c2; cbn [early]; auto. intros [-> Hc]. conn_steps. by split_and!.
  - by split_and!.
  - pose proof Hsim as [_ (_ & [Hf _] & _)]. unfold body_left, zlen in *.
    destruct (LimitRead.is_complete _); lia.
Qed.

(** *** [Codec] *)

(** Between polls there is no bound on what is left to send. *)
Definition stands (c : conn R State) : Prop :=
  (exists es, Protocol.run s0 es (abs (self c) c)) /\ wf c /\ within budget (bio c).

Lemma sim_stands (c : conn R State) : sim (self c) c -> stands c.
Proof. intros [? (? & Hf & ? & _ & ?)]. split; [done|]. split; [by split_and!|apply Hf]. Qed.

Lemma sim_part {Part} ph (c : conn R Part) (c' : conn R State) : sim ph c -> bio c' = bio c -> wld c' = wld c -> sim ph c'.
Proof. intros [? ?] Hb Hw. unfold sim, abs. by rewrite Hb, Hw. Qed.

Definition rank (s : State) : nat := match s with SendReq => 0 | RecvBody _ => 1 | RecvRes _ => 2 end.
Definition turns_left (c : conn R State) : nat := (3 * length (queue_of (reqs (wld c))) + rank (self c))%nat.

Lemma grows_reqs w w' : grows w w' -> (length (queue_of (reqs w')) <= length (queue_of (reqs w)))%nat.
Proof. intros G. destruct (g_reqs _ _ G) as [k ->]. rewrite length_app. lia. Qed.

(** Entering the next state drops the one before. *)
Lemma set_state_wp next (c : conn R State) (f : world -> world) :
  wp (drop_state (self c)) (wld c) (moves f (wld c)) ->
  wp (set_state next) c (fun r c' => r = Ready (Ok tt) /\ self c' = next /\ bio c' = bio c /\
    moved f (wld c) (wld c')).
Proof.
  intros Hd. unfold set_state. conn_steps. apply wp_on_world. cbn [wld set_self].
  eapply wp_mono; [done|]. by intros r w' (([] & ->) & Hm).
Qed.

Lemma moves_ret w : wp (mret tt) w (moves (fun w => w) w).
Proof. wp_steps. split; [eauto|]. by split. Qed.

Definition turned (c : conn R State) (r : poll (io_result (unit + unit))) c' : Prop :=
  match r with
  | Pending => stands c' /\ parked (self c') (bio c') (wld c')
  | Ready (Ok (inl _)) => sim (self c') c' /\ (turns_left c' < turns_left c)%nat
  | Ready (Ok (inr _)) => stands c' /\ Protocol.finished (abs (self c') c')
  | Ready (Err _) => failed (self c') c'
  end.

(** From the answer of a handler to the end of the turn. *)
Lemma next_state_wp c0 next (c : conn R State) f : 
  (match next with Some _ => wp (drop_state (self c)) (wld c) (moves f (wld c)) | None => True end) ->
  match next with
  | Some next => forall c', self c' = next -> bio c' = bio c -> moved f (wld c) (wld c') ->
      sim next c' /\ (turns_left c' < turns_left c0)%nat
  | None => sim (self c) c /\ Protocol.finished (abs (self c) c)
  end ->
  wp (match next with
      | Some next => set_state next;; mret (inl tt)
      | None => mret (inr tt)
      end) c (turned c0).
Proof.
  intros Hd Hn. destruct next as [next|]; wp_steps.
  - eapply wp_mono; [by apply set_state_wp|]. intros r c' (-> & Hs & Hb & Hm). wp_steps.
    unfold turned. rewrite Hs. by apply Hn.
  - destruct Hn as [Hsim Hfin]. split; [by apply sim_stands|done].
Qed.


(** The turn's three handlers. *)
Lemma send_req_turn_swp (c : conn R State) : sim SendReq c -> self c = SendReq ->
  BufIo.can_poll_write (bio c) = true ->
  swp partial_head (
    next ← on_part (fun _ => SendReq) tt (poll_send_req fuel cx);
    match next with
    | Some next => set_state next;; mret (inl tt)
    | None => mret (inr tt)
    end) c (turned c).
Proof.
  intros Hsim Hs Hcan. apply swp_bind, swp_on_part, swp_of_wp.
  eapply wp_mono; [apply poll_send_req_wp; [by eapply sim_part|done]|].
  intros [|[next|e]] c1 Hr; cbn [early]; [| |done].
  - destruct Hr as [Hr Hcx]. split; [|by right]. apply sim_stands. by eapply sim_part.
  - apply swp_of_wp. apply (next_state_wp c _ _ (fun w => w)); cbn [self bio wld].
    + destruct next; [apply moves_ret|done].
    + destruct next as [next|].
      * destruct Hr as (Hr & (h & ->) & Hlt). intros c' Hs' Hb [Hst G]. cbn [bio wld] in *. split.
        -- apply (sim_same _ c1); [done| |].
           ++ unfold abs. by rewrite Hb, Hst.
           ++ rewrite Hb. eapply in_order_grows; [apply Hr|done].
        -- unfold turns_left. rewrite Hs, Hs'. apply grows_reqs in G. simpl. lia.
      * destruct Hr as [Hr Hf]. split; [by eapply sim_part|done].
Qed.

Lemma bidirect_turn_of_drive_swp (c : conn R State) h : sim (RecvRes h) c -> self c = RecvRes h ->
  BufIo.can_poll_write (bio c) = true ->
  swp partial_head (
    next ← on_part RecvRes h (poll_bidirect fuel cx);
    match next with
    | Some next => set_state next;; mret (inl tt)
    | None => mret (inr tt)
    end) c (turned c).
Proof.
  intros Hsim Hs Hcan. apply swp_bind, swp_on_part.
  eapply swp_mono; [apply poll_bidirect_swp; [by apply (sim_part _ c)|done]|].
  intros [|[next|e]] c1 Hr; cbn [early]; [| |done].
  - destruct Hr as [Hr Hp]. split; [|done]. apply sim_stands. by eapply sim_part.
  - destruct Hr as (G & _ & [Hx1 Hx2] & Hho & Hr). cbn [wld] in G.
    apply swp_of_wp. apply (next_state_wp c _ _ (fun w => w)); cbn [self bio wld].
    + destruct next; [|done]. cbn [drop_state]. unfold drop_handle, drop_opt. rewrite Hx1, Hx2, Hho.
      wp_steps. split; [eauto|]. by split.
    + destruct next as [next|].
      * destruct Hr as (Hr & Hk). intros c' Hs' Hb [Hst G']. cbn [bio wld] in *. split.
        -- apply (sim_same _ c1); [done| |].
           ++ unfold abs. by rewrite Hb, Hst.
           ++ rewrite Hb. eapply in_order_grows; [apply Hr|done].
        -- unfold turns_left. rewrite Hs, Hs'. apply grows_reqs in G, G'. destruct next; simpl; [lia|done|lia].
      * destruct Hr as [Hr Hf]. split; [by eapply sim_part|done].
Qed.

Lemma read_body_turn_of_drive_swp (c : conn R State) h : sim (RecvBody h) c -> self c = RecvBody h ->
  BufIo.can_poll_write (bio c) = true ->
  swp partial_head (
    next ← on_part RecvBody h (poll_read_body fuel cx);
    match next with
    | Some next => set_state next;; mret (inl tt)
    | None => mret (inr tt)
    end) c (turned c).
Proof.
  intros Hsim Hs Hcan. apply swp_bind, swp_on_part, swp_of_wp.
  eapply wp_mono; [apply poll_read_body_wp; [by apply (sim_part _ c)|done]|].
  intros [|[next|e]] c1 Hr; cbn [early]; [| |done].
  - destruct Hr as [Hr Hp]. split; [|done]. apply sim_stands. by eapply sim_part.
  - destruct Hr as ((Hr & _ & G & Htx) & Hc & Hnext). cbn [wld] in G.
    pose proof Hr as [_ (_ & _ & _ & _ & Hi & _)].
    apply swp_of_wp. apply (next_state_wp c _ _ (at_in (BodyReceiver.body_tx (self c1)) close_tx)); cbn [self bio wld].
    + destruct next; [|done]. by apply drop_tx_in_wp.
    + destruct next as [next|].
      * intros c' Hs' Hb [Hst G']. cbn [bio wld] in *.
        assert (next = SendReq) as -> by (unfold Protocol.after_body in Hnext; destruct (_ && _); congruence).
        split.
        -- apply (sim_step (RecvBody (self c1)) Protocol.Completed _ c1); [done| |].
           ++ unfold abs. rewrite Hb, Hst. by apply Protocol.end_body.
           ++ rewrite Hb. destruct Hr as [_ Ho]. apply (in_order_grows _ _ (wld c1)); [|done].
              destruct Ho as (? & ? & ? & ? & _). by do 4 (split; [done|]).
        -- unfold turns_left. rewrite Hs, Hs'. apply grows_reqs in G, G'. simpl. lia.
      * split; [by eapply sim_part|]. split; [done|]. by rewrite <- Hnext.
Qed.

Lemma drive_turn_swp (c : conn R State) : sim (self c) c ->
  swp partial_head (drive_turn fuel cx tt) c (turned c).
Proof.
  intros Hsim. pose proof Hsim as [_ (Hio & (Hf1 & Hf2 & Hf3) & Hw & Hwf & Hph)]. unfold drive_turn.
  apply swp_bind, swp_of_wp, wp_on_bio.
  eapply wp_mono; [apply (wp_yields BufIo.lasts (BufIo.held BufIo.pending_tx)); [apply BufIo.poll_finish_pending_write_yields|];
    apply BufIo.poll_finish_pending_write_wp; [apply Hio|done]|].
  intros r b1 ((Htx & Hrx & Hout & Hr) & Hlast & Hheld). pose proof (within_lasts _ _ Hf3 Hlast) as Hf4. destruct (io_wf_tx (bio c) b1 Hio Htx Hrx) as [Hio1 Hin1].
  assert (Habs : abs (self c) (set_bio b1 c) = abs (self c) c) by (unfold abs; simpl; by rewrite Hin1, Hout).
  destruct r as [|[[]|e]]; cbn [early].
  - split; [|left; eapply held_on_hold; [exact Hf3|by apply Hheld]]. split; [|by split]. destruct Hsim as [[es Hes] _]. exists es. simpl. by rewrite Habs.
  - destruct Hr as (Hcan & Hun & _).
    assert (Hsim1 : sim (self c) (set_bio b1 c)).
    { apply (sim_same _ c); [done..|]. cbn [bio wld set_bio]. split_and!; [done| |done..].
      unfold io_fuel. rewrite Hin1, Hun. change (zlen (@nil byte)) with 0. split; [done|].
      pose proof (zlen_nonneg (BufIo.unsent (bio c))). split; [lia|done]. }
    apply swp_get_self. change (self (set_bio b1 c)) with (self c).
    assert (Hturn : forall r c', turned (set_bio b1 c) r c' -> turned c r c') by done.
    destruct (self c) as [|h|h] eqn:Hs; (eapply swp_mono; [|apply Hturn]).
    + by apply send_req_turn_swp.
    + by apply bidirect_turn_of_drive_swp.
    + by apply read_body_turn_of_drive_swp.
  - apply (failed_idle (self c) _ c); [done..|by apply (sim_names (self c) c)].
Qed.

Lemma drive_swp (c : conn R State) : sim (self c) c ->
  swp partial_head (drive fuel cx) c (fun r c' =>
    match r with
    | Pending => stands c' /\ parked (self c') (bio c') (wld c')
    | Ready (Ok _) => stands c' /\ Protocol.finished (abs (self c') c')
    | Ready (Err _) => failed (self c') c'
    end).
Proof.
  intros Hsim. unfold drive. apply (swp_iter _ (fun _ c => sim (self c) c) (fun _ => turns_left)); [|done|].
  - intros [] c1 H1'. eapply swp_mono; [by apply drive_turn_swp|].
    by intros [|[[[]|[]]|e]] c2.
  - destruct Hsim as [_ (_ & _ & _ & [Hf _] & _)]. unfold turns_left. destruct (self c); simpl; lia.
Qed.

(** *** Forwarding an error *)

(** What forwarding an error does to the channels. *)
Definition forwarded (e : io_error) (s : State) (w : world) : world :=
  match s with
  | SendReq => w
  | RecvRes b => match Handle.res_tx (Bidirect.handle b) with
                 | Some id => at_res id (push (Err e)) w
                 | None => w
                 end
  | RecvBody r => at_in (BodyReceiver.body_tx r) (push (Err e)) w
  end.

Lemma send_error_wp id e w : is_Some (ress w !! id) ->
  wp (send_response id (Err e)) w (moves (at_res id (push (Err e))) w).
Proof.
  intros Hid. unfold send_response. apply wp_bind. eapply wp_mono; [by apply send_res_wp|].
  intros r w' (Hm & _ & c & _ & ->). cbn [early]. apply wp_bind.
  assert (Hd : (if negb (bool_decide (Mpsc.receivers c <> 0%nat)) then drop_response (Err e) else mret tt) =
    (mret tt : io world unit)) by by case_bool_decide.
  rewrite Hd. wp_steps. split; [eauto|done].
Qed.

Lemma try_forward_error_wp e (c : conn R State) : names (wld c) (self c) -> wp (try_forward_error e) c (fun r c' =>
  exists e', r = Ready (Ok e') /\ err_kind e' = err_kind e /\ err_msg e' = err_msg e /\
    self c' = self c /\ bio c' = bio c /\ still_world (wld c') = forwarded e (self c) (still_world (wld c))).
Proof.
  intros Hn. unfold try_forward_error. conn_steps. destruct (self c) as [|b|r] eqn:Hs; simpl in Hn.
  - conn_steps. exists e. by rewrite Hs.
  - simpl. destruct (Handle.res_tx (Bidirect.handle b)) as [id|]; [|conn_steps; exists e; by rewrite Hs].
    apply wp_bind, wp_on_world. eapply wp_mono; [apply send_error_wp; by apply Hn|].
    intros r w' ((a & ->) & [Hw _]). conn_steps. exists (clone_error e). split_and!; try done; by rewrite ?Hs.
  - apply wp_bind, wp_on_world. eapply wp_mono; [by apply send_in_wp|].
    intros r' w' ((a & ->) & [Hw _]). conn_steps. exists (clone_error e). split_and!; try done; by rewrite ?Hs.
Qed.

End Simulation.

(** ** A poll of the connection *)

Section Poll.
Context {prof : Profile} `{Http} `{Httparse} {R : Type} `{DuplexSpec R}.
Implicit Types (c : conn R State).

(** What a poll promises. *)
Definition polled (cx : waker) c (r : poll (io_result unit)) c' : Prop :=
  match r with
  | Pending => stands (abs (self c) c) (stalls (BufIo.inner (bio c))) c' /\
      parked (stalls (BufIo.inner (bio c))) cx (self c') (bio c') (wld c')
  | Ready (Ok _) => stands (abs (self c) c) (stalls (BufIo.inner (bio c))) c' /\ Protocol.finished (abs (self c') c')
  | Ready (Err _) => broke_off (abs (self c) c) c'
  end.

Lemma wf_sim fuel c : wf c -> enough fuel c -> sim (abs (self c) c) fuel (stalls (BufIo.inner (bio c))) (self c) c.
Proof.
  intros (Hio & Hw & Hp) (_ & Hf & Hwf). split; [exists []; apply Machine.run_nil|].
  split_and!; try done. by apply io_fuel_room; [|intros _].
Qed.

Lemma poll_client_swp fuel cx c : wf c -> enough fuel c -> swp partial_head (poll_client fuel cx) c (polled cx c).
Proof.
  intros Hwf Hen. unfold poll_client. apply swp_bind, swp_raw.
  eapply swp_mono; [by apply (drive_swp (abs (self c) c) fuel (stalls (BufIo.inner (bio c))) cx (proj1 Hen)), wf_sim|].
  intros r c1 Hr. destruct r as [|[[]|e]]; cbn [early]; apply swp_of_wp.
  - by wp_steps.
  - by wp_steps.
  - destruct Hr as [Hbr Hn]. apply wp_bind. eapply wp_mono; [by apply try_forward_error_wp|].
    intros r c2 (e' & -> & _ & _ & _ & Hb & _). wp_steps. unfold polled, broke_off. by rewrite Hb.
Qed.
End Poll.
