(* ===== verification/Client_session.v ===== *)
(** * Client sessions

    The user and the connection take turns: [user] has every call of the
    client's handles, [session] interleaves them with polls of the
    connection and lists the calls, each by the channels in front of it and
    behind it.  Whatever the user does, the connection stays in order, and a
    session is a history of [Protocol] with exactly these calls; the properties
    of histories are therefore properties of every session.  Concrete sessions at the end. *)

From S2P Require Import Prelude.
From S2P Require Import Async.
From S2P Require Import Std_text.
From S2P Require Import Fast_buf.
From S2P Require Import Transport.
From S2P Require Import Buf_reader.
From S2P Require Import Chunked.
From S2P Require Import Http_api.
From S2P Require Import Error.
From S2P Require Import Limit.
From S2P Require Import Http11.
From S2P Require Import Mpsc.
From S2P Require Import Share.
From S2P Require Import Accounts.
From S2P Require Import Channels.
From S2P Require Import Handles.
From S2P Require Import Codec.
From S2P Require Import Streams.
From S2P Require Import Machine.
From S2P Require Import Client.
From S2P Require Import Client_spec.
From S2P Require Import Client_proofs.

(** ** The user's calls *)

Section User.
Context {prof : Profile} `{Http} `{Httparse}.
Implicit Types (w : world).

(** Calls of the handles that neither make a request nor send a piece of a
    body.  They are those of this connection: a name without a channel would
    be a panic. *)
Inductive call w : world -> Prop :=
  | call_clone : call w (on_reqs (fun c => (tt, Mpsc.clone_sender c, [])) w).2
  | call_drop_clone : call w (on_reqs (fun c => let '(c', l) := Mpsc.drop_sender c in (tt, c', l)) w).2
  | call_poll_response cx id r w' : ResponseFuture.poll cx id w = Done (r, w') -> call w w'
  | call_drop_response id r w' : ResponseFuture.drop id w = Done (r, w') -> call w w'
  | call_drop_send id r w' : drop_tx_chan out_chans id w = Done (r, w') -> call w w'
  | call_read fuel cx n this r this' w' :
      RecvStream.poll_body_data fuel cx n (this, w) = Done (r, (this', w')) -> call w w'
  | call_drop_recv id r w' : drop_rx_chan in_chans id w = Done (r, w') -> call w w'.

(** All calls. *)
Inductive user w : world -> Prop :=
  | user_send_request req no_body r w' ver : version_str (req_version req) = Done ver ->
      SendRequest.send_request req no_body w = Done (r, w') -> user w w'
  | user_send_data cx end_ this d r this' rest w' : sendable this d ->
      SendStream.poll_send_data cx end_ (this, d, w) = Done (r, (this', rest, w')) -> user w w'
  | user_call w' : call w w' -> user w w'.

(** The requests that a call has queued. *)
Definition queued_by w w' : list Handle.t := drop (length (queue_of (reqs w))) (queue_of (reqs w')).

(** What the user may change: channels are added, requests queued at the end,
    and all that is sent can be served. *)
Record amends w w' : Prop := {
  a_res : forall id, is_Some (ress w !! id) -> is_Some (ress w' !! id);
  a_in : forall id, is_Some (ins w !! id) -> is_Some (ins w' !! id);
  a_out : forall id, is_Some (outs w !! id) -> is_Some (outs w' !! id);
  a_reqs : queue_of (reqs w) `prefix_of` queue_of (reqs w');
  a_ok : world_ok w -> world_ok w';
}.

#[export] Instance amends_preorder : PreOrder amends.
Proof.
  split; [intros w; split; auto|]. intros w1 w2 w3 [????E1] [????E2]. split; eauto. by etransitivity.
Qed.

Lemma handle_ok_more w w' h : (forall id, is_Some (ress w !! id) -> is_Some (ress w' !! id)) ->
  (forall id, is_Some (outs w !! id) -> is_Some (outs w' !! id)) -> handle_ok w h -> handle_ok w' h.
Proof. intros Hr Ho (Hv & Hb & Hres). split_and!; [done| |]; eauto. Qed.

Lemma widens_amends w w' : widens w w' -> amends w w'.
Proof.
  intros W. split; try apply W; [by rewrite (wd_reqs _ _ W)|]. intros [Hr Ho].
  split; [|by apply (wd_small _ _ W)]. rewrite (wd_reqs _ _ W). revert Hr. apply Forall_impl. intros h.
  apply handle_ok_more; apply W.
Qed.

(** *** Each call *)

Lemma drop_handle_widens h : keeps widens (drop_handle h).
Proof. unfold drop_handle, drop_opt. keeps_tac. Qed.

Lemma send_request_amends h w : handle_ok w h -> amends w (on_reqs (Mpsc.send h) w).2.
Proof.
  intros Hh. unfold on_reqs. destruct (Mpsc.send h (reqs w)) as [[ok c] l] eqn:E.
  apply still_send in E as [E _]. simpl.
  assert (Hq : exists hs, queue_of c = queue_of (reqs w) ++ hs /\ (hs = [] \/ hs = [h])).
  { rewrite <- (still_queue c), E. unfold push, set_queue. case_decide; [exists []; rewrite app_nil_r; auto|].
    destruct (Inner.ended _); [exists []; rewrite app_nil_r; auto|]. by exists [h]; auto. }
  destruct Hq as (hs & Hq & Hhs). split; simpl; auto; [by exists hs|]. intros [Hr Ho]. split; [|done].
  simpl. rewrite Hq. apply Forall_app. split; [done|].
  destruct Hhs as [-> | ->]; [constructor|by constructor].
Qed.

Lemma open_request_amends req no_send_body w r w' ver : version_str (req_version req) = Done ver ->
  SendRequest.open_request req no_send_body w = Done (r, w') -> amends w w'.
Proof.
  intros Hv E. apply bind_done in E as (r1 & w1 & E1 & E). injection E1 as <- <-.
  apply bind_done in E as (r2 & w2 & E2 & E). injection E2 as <- <-.
  pose (w1 := put res_chans (<[fresh_chan (ress w) := Mpsc.new 1]> (ress w)) w).
  pose (w2 := put out_chans (<[fresh_chan (outs w) := Mpsc.new 1]> (outs w1)) w1).
  assert (A1 : widens w w1) by by apply (new_res_widens w (Ready (Ok (fresh_chan (ress w))))).
  assert (A2 : widens w1 w2) by by apply (new_out_widens w1 (Ready (Ok (fresh_chan (outs w1))))).
  cbv zeta in E. set (h := Handle.mk _ _ _ _) in E.
  apply bind_done in E as (r3 & w3 & E3 & E).
  assert (Hh : handle_ok w2 h).
  { split; [by exists ver|]. unfold h, w2, w1. simpl. split; intros id.
    - destruct no_send_body; [done|]. intros [= <-]. by rewrite lookup_insert_eq.
    - intros [= <-]. by rewrite lookup_insert_eq. }
  destruct (on_reqs (Mpsc.send h) _) as [sent w3'] eqn:Es in E3.
  assert (A3 : amends w2 w3').
  { change w3' with (snd (sent, w3')). rewrite <- Es. by apply send_request_amends. }
  injection E3 as <- <-. transitivity w1; [by apply widens_amends|]. transitivity w2; [by apply widens_amends|].
  etransitivity; [exact A3|]. apply widens_amends. clear -E. revert E.
  assert (Hd : keeps widens (drop_handle h)) by apply drop_handle_widens.
  match goal with |- ?m w3' = _ -> _ => assert (Hm : keeps widens m) by (destruct sent, no_send_body; cbn [negb]; keeps_tac) end.
  apply Hm.
Qed.

Lemma drop_response_widens r : keeps widens (drop_response r).
Proof. destruct r as [[res recv]|e]; simpl; keeps_tac. Qed.

Lemma call_widens w w' : call w w' -> widens w w'.
Proof.
  intros [| |cx id r w1 E|id r w1 E|id r w1 E|fuel cx n this r this' w1 E|id r w1 E].
  - split; simpl; eauto.
  - unfold on_reqs. destruct (Mpsc.drop_sender (reqs w)) as [c l] eqn:E. apply queue_drop_sender in E.
    split; simpl; eauto.
  - revert E. unfold ResponseFuture.poll, mbind, api_bind, api_io.
    lazymatch goal with |- context [poll_recv_chan ?L ?i ?k ?b w] => destruct (poll_recv_chan L i k b w) as [[r1 w2]| |] eqn:E1 end;
      try done. apply recv_res_widens in E1. simpl. by destruct r1 as [|[[[?|?]|]|?]]; intros [= _ <-].
  - unfold ResponseFuture.drop in E. destruct (ress w !! id) as [c|]; [|done]. revert E.
    apply keeps_bind; [exact _|by apply drop_each_widens, drop_response_widens|]. intros _. apply drop_rx_res_widens.
  - by eapply drop_tx_out_widens.
  - change w with (snd (this, w)). change w1 with (snd (this', w1)). by eapply poll_body_data_widens.
  - by eapply drop_rx_in_widens.
Qed.

Lemma send_request_step req no_body w r w' ver : version_str (req_version req) = Done ver ->
  SendRequest.send_request req no_body w = Done (r, w') -> amends w w'.
Proof.
  intros Hv E. unfold SendRequest.send_request in E. destruct (method_eqb _ _); [by injection E as _ <-|]. simpl in E.
  destruct (SendRequest.open_request _ _ w) as [[r1 w2]| |] eqn:Eo; try done. simpl in E.
  destruct r1 as [|[[[res body] sent]|e]]; try done. injection E as _ <-. by eapply open_request_amends.
Qed.

Lemma user_amends w w' : user w w' -> amends w w'.
Proof.
  intros [req no_body r w1 ver Hv E|cx end_ this d r this' rest w1 Hs E|w1 Hc]; [| |by apply widens_amends, call_widens].
  - by eapply send_request_step.
  - apply widens_amends. by eapply send_data_widens.
Qed.

(** *** Bodies *)

Lemma drop_response_leaves r : keeps leaves_bodies (drop_response r).
Proof. destruct r as [[res recv]|e]; simpl; keeps_tac. Qed.

Lemma call_leaves w w' : call w w' -> leaves_bodies w w'.
Proof.
  intros [| |cx id r w1 E|id r w1 E|id r w1 E|fuel cx n this r this' w1 E|id r w1 E].
  - apply on_reqs_leaves.
  - apply on_reqs_leaves.
  - revert E. unfold ResponseFuture.poll, mbind, api_bind, api_io.
    lazymatch goal with |- context [poll_recv_chan ?L ?i ?k ?b w] => destruct (poll_recv_chan L i k b w) as [[r1 w2]| |] eqn:E1 end;
      try done. apply recv_res_leaves in E1. simpl. by destruct r1 as [|[[[?|?]|]|?]]; intros [= _ <-].
  - unfold ResponseFuture.drop in E. destruct (ress w !! id) as [c|]; [|done]. revert E.
    apply keeps_bind; [exact _|by apply drop_each_leaves, drop_response_leaves|]. intros _. apply drop_rx_res_leaves.
  - by eapply drop_tx_out_leaves.
  - change w with (snd (this, w)). change w1 with (snd (this', w1)). by eapply poll_body_data_leaves.
  - by eapply drop_rx_in_leaves.
Qed.

Lemma drop_handle_leaves h : keeps leaves_bodies (drop_handle h).
Proof. unfold drop_handle, drop_opt. keeps_tac. Qed.

Lemma open_request_leaves req none : keeps leaves_bodies (SendRequest.open_request req none).
Proof.
  unfold SendRequest.open_request. keeps_tac; auto using drop_handle_leaves. intros w r w'.
  match goal with |- context [on_reqs ?op w] => pose proof (on_reqs_leaves op w); destruct (on_reqs op w) as [sent w1] end.
  by intros [= _ <-].
Qed.

Lemma send_request_leaves req no_body w r w' : SendRequest.send_request req no_body w = Done (r, w') -> leaves_bodies w w'.
Proof.
  unfold SendRequest.send_request. destruct (method_eqb _ _); [intros [= _ <-]; reflexivity|]. simpl.
  destruct (SendRequest.open_request _ _ w) as [[r1 w1]| |] eqn:E; try done. simpl.
  destruct r1 as [|[[[res body] sent]|e]]; try done. intros [= _ <-]. by eapply open_request_leaves.
Qed.

(** The user's calls are acts of a history. *)
Lemma gives_still {T} (m m' : gmap chan_id (Mpsc.t T)) id : gives (m !! id) (m' !! id) -> gives ((still <$> m) !! id) ((still <$> m') !! id).
Proof.
  rewrite !lookup_fmap. destruct (m !! id) as [c|]; simpl; [|done]. intros (c' & -> & Hg). by exists (still c').
Qed.

Lemma user_lawful w w' : user w w' -> Protocol.lawful (still_world w) (still_world w').
Proof.
  intros Hu. split; [exact (a_reqs _ _ (user_amends _ _ Hu))|]. intros id. apply gives_still.
  destruct Hu as [req no_body r w1 ver Hv E|cx end_ this d r this' rest w1 Hs E|w1 Hc].
  - apply draws_gives. by eapply send_request_leaves.
  - by eapply send_data_gives.
  - apply draws_gives. by eapply call_leaves.
Qed.

End User.

(** ** Sessions *)

Section Session.
Context {prof : Profile} `{Http} `{Httparse} {R : Type} `{DuplexSpec R}.
Implicit Types (c : conn R State).

(** The user's calls and the polls that are [Pending], in any order; [us] are
    the calls, each by the channels in front of it and behind it. *)
Inductive session c0 : list Protocol.act -> conn R State -> Prop :=
  | session_start : session c0 [] c0
  | session_user us c w : session c0 us c -> user (wld c) w ->
      session c0 (us ++ [(still_world (wld c), still_world w)]) (set_wld w c)
  | session_poll us c fuel cx c' : session c0 us c -> enough fuel c ->
      poll_client fuel cx c = Done (Pending, c') -> session c0 us c'.

Lemma handshake_ok (io : R) : fits io -> exists c, handshake io = Done c /\ wf c /\ self c = SendReq /\
  BufIo.incoming (bio c) = r_stream io /\ BufIo.outgoing (bio c) = w_sent io /\ queue_of (reqs (wld c)) = [].
Proof.
  intros Hf. unfold handshake, new_codec. destruct (fresh_buffers io Hf) as (b & -> & Hb & Hi & Ho). simpl.
  eexists. split; [done|]. split; [|by split_and!].
  split; [done|]. split; [|done]. split; [constructor|]. intros id ch. simpl. by rewrite lookup_empty.
Qed.

(** The user's calls leave the connection in order. *)
Lemma user_step c w : user (wld c) w -> wf c -> wf (set_wld w c).
Proof.
  intros Hu (Hio & Hw & Hp). apply user_amends in Hu as A. destruct A as [Ares Ain Aout Areqs Aok].
  split; [done|]. split; [by apply Aok|]. cbn [self wld set_wld]. destruct (self c) as [|b|r]; simpl in *; [done| |].
  - destruct Hp as [Hh Ho]. split; [by eapply handle_ok_more|]. destruct (Bidirect.holder b) as [[id l]|]; [|done].
    destruct Ho as (? & ? & ? & ?). split_and!; auto.
  - destruct Hp as (? & ? & ?). split_and!; auto; lia.
Qed.

Lemma history_call s0 us es c w : Protocol.history s0 us es (abs (self c) c) -> user (wld c) w ->
  Protocol.history s0 (us ++ [(still_world (wld c), still_world w)]) es (abs (self c) (set_wld w c)).
Proof. intros Hes Hu. apply (Protocol.history_user _ _ _ _ (still_world w)) in Hes; [exact Hes|]. by apply user_lawful. Qed.

Lemma poll_step fuel cx c c' : wf c -> enough fuel c -> poll_client fuel cx c = Done (Pending, c') ->
  wf c' /\ exists es, Protocol.run (abs (self c) c) es (abs (self c') c').
Proof.
  intros Hwf Hen E. pose proof (poll_client_swp fuel cx c Hwf Hen) as Hp. unfold swp in Hp. rewrite E in Hp.
  destruct Hp as [(Hr & Hw & _) _]. by split.
Qed.

Lemma session_history c0 us c : wf c0 -> session c0 us c ->
  wf c /\ exists es, Protocol.history (abs (self c0) c0) us es (abs (self c) c).
Proof.
  intros Hwf. induction 1 as [|us c w Hs (Hw & es & Hes) Hu|us c fuel cx c' Hs (Hw & es & Hes) Hen E].
  - split; [done|]. exists []. apply Protocol.history_nil.
  - split; [by apply user_step|]. exists es. exact (history_call _ _ _ c w Hes Hu).
  - destruct (poll_step _ _ _ _ Hw Hen E) as (Hw' & es' & Hr). split; [done|]. exists (es ++ es').
    by eapply Protocol.run_history.
Qed.
End Session.

(** ** What is promised *)

Section Promises.
Context {prof : Profile} `{Http} `{Httparse}.

(** The handles of a new channel, dropped one after the other. *)
Lemma drop_new_sender {T} : Mpsc.drop_sender (Mpsc.new (T := T) 1) = (Mpsc.mk (Inner.new 1) 1 0, []).
Proof. done. Qed.
Lemma drop_new_receiver {T} :
  Mpsc.drop_receiver (Mpsc.new (T := T) 1) = (Mpsc.mk (Inner.mk [] true 1 []) 0 1, []).
Proof. done. Qed.
Lemma drop_last_sender {T} (i : Inner.t T) : Mpsc.drop_sender (Mpsc.mk i 0 1) = (Mpsc.mk i 0 0, []).
Proof. done. Qed.
Lemma drop_last_receiver {T} : Mpsc.drop_receiver (Mpsc.mk (Inner.new (T := T) 1) 1 0) =
  (Mpsc.mk (Inner.mk [] true 1 []) 0 0, []).
Proof. done. Qed.

(** C31. A call of [send_request], on every branch: CONNECT is refused and
    changes nothing; with the connection gone the error is NotConnected and
    nothing is queued; otherwise exactly one handle is queued behind the
    others, with a fresh channel for its response, and one for its body
    unless there is none to send, in which case the stream is ended and its
    channel has no receiver. *)
Theorem send_request_cases req no_body (w : world) :
  (Mpsc.receivers (reqs w) <> 0%nat -> Inner.ended (Mpsc.inner (reqs w)) = false) ->
  let limit := LimitWrite.from_headers (req_headers req) in
  let none := no_body || LimitWrite.is_no_body limit in
  exists r w', SendRequest.send_request req no_body w = Done (r, w') /\
    if method_eqb (req_method req) CONNECT then r = Err SendRequest.no_connect /\ w' = w
    else if decide (Mpsc.receivers (reqs w) = 0%nat) then
      (exists m, r = Err (Error.Io (io_error_new NotConnected m))) /\ queue_of (reqs w') = queue_of (reqs w)
    else exists res body ch, ress w !! res = None /\ outs w !! body = None /\
      r = Ok (res, SendStream.new body limit none false) /\
      queue_of (reqs w') = queue_of (reqs w) ++ [Handle.mk _ req (if none then None else Some body) (Some res)] /\
      outs w' !! body = Some ch /\ Mpsc.receivers ch = (if none then 0%nat else 1%nat).
Proof.
  intros He limit none. unfold SendRequest.send_request. destruct (method_eqb _ _); [eauto|].
  fold limit none. unfold SendRequest.open_request, mbind, exec_bind, io_bind, new_chan, on_reqs, Mpsc.send, Mpsc.upgrade.
  cbn [view put res_chans out_chans channels_world reqs ress outs ins woken].
  set (res := fresh_chan (ress w)). set (body := fresh_chan (outs w)).
  destruct (decide (Mpsc.receivers (reqs w) = 0%nat)) as [Hz|Hz].
  - unfold drop_handle, drop_opt, drop_rx_chan, drop_tx_chan, on_chan, mbind, exec_bind, io_bind.
    destruct none; repeat (cbn -[Mpsc.drop_sender Mpsc.drop_receiver Mpsc.new];
      rewrite ?lookup_insert_eq, ?drop_new_sender, ?drop_new_receiver, ?drop_last_sender, ?drop_last_receiver);
      eexists _, _; (split; [done|]); split; eauto.
  - unfold Inner.enqueue. rewrite (He Hz). cbn. unfold drop_rx_chan, on_chan, mbind, exec_bind, io_bind. cbn.
    destruct none; cbn; rewrite ?lookup_insert_eq; cbn; eexists _, _; (split; [done|]); exists res, body; eexists;
      (split; [apply fresh_chan_none|]); (split; [apply fresh_chan_none|]); (split; [done|]); (split; [done|]);
      cbn; (split; [apply lookup_insert_eq|done]).
Qed.

Context {R : Type} `{DuplexSpec R}.
Implicit Types (c : conn R State).

(** C5. Every poll of the client connection, from a connection in order and
    with enough fuel, which there always is, ends: it neither loops nor
    panics (with one exception: httparse calls a head partial that this
    library took for complete).  What it did is a run of [Protocol]: if it is
    [Pending] or [Ready], the connection stands exactly where that run leads
    and is in order again; [Pending] means that nothing was left to do but to
    wait for the transport, which if it is live has used up a stall in this
    very poll, or for the user, and the task will be woken ([parked]), [Ready]
    that the connection is finished.  If it fails, the run broke off
    ([Protocol.breaks_off]): what is on the wire, or in the buffer for it, is
    what the run sent and nothing else but a part of the next thing to send,
    the head of the request in front of the queue or the next piece of its
    body; and of what arrived the run has left all but what was being read,
    the head that does not parse or bytes of the body. *)
Theorem client_poll_refines c : wf c ->
  (exists fuel, enough fuel c) /\
  forall fuel cx, enough fuel c ->
    match poll_client fuel cx c with
    | Done (Pending, c') => wf c' /\ (exists es, Protocol.run (abs (self c) c) es (abs (self c') c')) /\
        parked (stalls (BufIo.inner (bio c))) cx (self c') (bio c') (wld c')
    | Done (Ready (Ok _), c') => wf c' /\ (exists es, Protocol.run (abs (self c) c) es (abs (self c') c')) /\
        Protocol.finished (abs (self c') c')
    | Done (Ready (Err _), c') => exists es s taken part, Protocol.run (abs (self c) c) es s /\
        Protocol.breaks_off s taken part /\ Protocol.wire_in s = taken ++ BufIo.incoming (bio c') /\
        BufIo.outgoing (bio c') = Protocol.wire_out s ++ part
    | Panic p => partial_head p
    | NoFuel => False
    end.
Proof.
  intros Hwf. split; [apply enough_exists|]. intros fuel cx Hen.
  pose proof (poll_client_swp fuel cx c Hwf Hen) as Hp. unfold swp in Hp.
  destruct (poll_client fuel cx c) as [[[|[[]|e]] c']|p|]; try done; by destruct Hp as [(? & ? & ?) ?].
Qed.

(** What the wires, the queue and the channels of bodies show of a session,
    [us] being the calls of its user and [es] the events of its history. *)
Definition tells (io : R) (us : list Protocol.act) (es : list Protocol.event) c : Prop :=
  BufIo.outgoing (bio c) = w_sent io ++ (es ≫= Protocol.sent) /\
  r_stream io = (es ≫= Protocol.received) ++ BufIo.incoming (bio c) /\
  Protocol.queued us = omap Protocol.took es ++ queue_of (reqs (wld c)) /\
  forall id, account (Protocol.said_on id us) (Protocol.sent_on id es) (outs (wld c) !! id).

Lemma account_still {T} (said got : list T) o : account said got (still <$> o) -> account said got o.
Proof. by destruct o. Qed.

Lemma session_tells (io : R) c0 us c : fits io -> handshake io = Done c0 -> session c0 us c ->
  wf c /\ exists es, Protocol.history (abs SendReq c0) us es (abs (self c) c) /\ tells io us es c.
Proof.
  intros Hfit Hsh Hs. destruct (handshake_ok io Hfit) as (c0' & E & Hwf & Hst & Hin & Hout & Hq).
  rewrite Hsh in E. injection E as <-. destruct (session_history _ _ _ Hwf Hs) as (Hw & es & Hes).
  rewrite Hst in Hes. split; [done|]. exists es. split; [done|].
  pose proof (Protocol.history_wires _ _ _ _ Hes) as (Ho & Hi & Hr). simpl in Ho, Hi.
  change (queue_of (reqs (wld c0)) ++ Protocol.queued us = omap Protocol.took es ++ queue_of (reqs (wld c))) in Hr.
  rewrite Hq in Hr. simpl in Hr. rewrite Hout in Ho. rewrite Hin in Hi. split_and!; try done.
  intros id. apply account_still. rewrite <- lookup_fmap. apply (Protocol.history_account _ _ _ _ id Hes).
  assert (Hnone : outs (wld c0) = ∅).
  { revert Hsh. unfold handshake. destruct (new_codec io) as [[b st]| |]; simpl; [|done..]. by intros [= <-]. }
  simpl. by rewrite Hnone, fmap_empty, lookup_empty.
Qed.

(** C6. However the user's calls and the polls of the connection interleave
    after a handshake, on any segmentation of reads and writes, the
    connection stays in order and the session is a history of [Protocol] in
    which the user does exactly what it did, each call on the channels as the
    machine left them: the wire carries exactly the heads and body pieces of
    that history, in order; the pieces from each channel, with their end
    marks, are those that the user put on it, in order, without a gap, and
    what was not sent is still on the channel or went with its receiver; what
    arrived was taken off in order, without a gap; the requests are those
    that the user queued, in order; and the n-th response goes to the n-th
    request. *)
Theorem client_session_refines (io : R) c0 us c : fits io -> w_sent io = [] -> handshake io = Done c0 ->
  session c0 us c ->
  wf c /\ exists es, Protocol.history (abs SendReq c0) us es (abs (self c) c) /\
    BufIo.outgoing (bio c) = (es ≫= Protocol.sent) /\
    r_stream io = (es ≫= Protocol.received) ++ BufIo.incoming (bio c) /\
    Protocol.queued us = omap Protocol.took es ++ queue_of (reqs (wld c)) /\
    (forall id, account (Protocol.said_on id us) (Protocol.sent_on id es) (outs (wld c) !! id)) /\
    omap Protocol.answered es `prefix_of` omap Handle.res_tx (Protocol.queued us).
Proof.
  intros Hfit Hsent Hsh Hs. destruct (session_tells io c0 us c Hfit Hsh Hs) as (Hw & es & Hes & Ho & Hi & Hr & Ha).
  rewrite Hsent in Ho. split; [done|]. exists es. do 5 (split; [done|]).
  destruct (Protocol.history_exchanges _ _ _ _ Hes eq_refl) as (xs & Hx). rewrite Hr.
  etransitivity; [by eapply Protocol.exchanges_matched|]. rewrite omap_app. by apply prefix_app_r.
Qed.

(** C7. A session is a sequence of whole exchanges and at most one under way,
    by the events of a history in which the user does exactly what it did.
    The requests of the exchanges are those that the user queued, in order.
    In a whole exchange no other request is taken; the request body is sent
    to its end, from the request's own channel: the pieces are those that the
    user put on that channel, and the end is where the user marked it; exactly
    one response is delivered, to the request's own channel; that response has
    a body exactly when the method, the status and the headers say so; the
    body's pieces all go to the channel delivered with the response, come
    after its head, are what its framing makes of the wire, and are complete
    and delimited; and both sides keep the connection.
    The exchange under way is such a one broken off, and stands in the phase
    the connection is in. *)
Theorem client_exchanges_are_whole (io : R) c0 us c : fits io -> handshake io = Done c0 -> session c0 us c ->
  exists es xs, Protocol.history (abs SendReq c0) us es (abs (self c) c) /\
    Protocol.queued us = omap Protocol.took es ++ queue_of (reqs (wld c)) /\
    (forall id, account (Protocol.said_on id us) (Protocol.sent_on id es) (outs (wld c) !! id)) /\
    Forall Protocol.whole xs /\
    match self c with
    | SendReq => es = xs ≫= Protocol.trace_of
    | _ => exists x, es = (xs ≫= Protocol.trace_of) ++ Protocol.trace_of x /\ Protocol.under_way x (self c)
    end.
Proof.
  intros Hfit Hsh Hs. destruct (session_tells io c0 us c Hfit Hsh Hs) as (Hw & es & Hes & _ & _ & Hr & Ha).
  destruct (Protocol.history_exchanges _ _ _ _ Hes eq_refl) as (xs & Hx).
  exists es, xs. do 3 (split; [done|]). destruct Hx as [Hf Hx]. split; [done|]. simpl in Hx. by destruct (self c).
Qed.

(** C29. When the connection fails, the error is returned as it is, kind and
    message, the state is kept, and the same error is put on the channel of
    whoever waits: the response, while it has not been delivered, or the
    response body, while it is being received; nobody else is told. *)
Theorem error_is_forwarded fuel cx c e c1 : wf c -> enough fuel c ->
  drive fuel cx c = Done (Ready (Err e), c1) ->
  exists e' c', poll_client fuel cx c = Done (Ready (Err e'), c') /\
    err_kind e' = err_kind e /\ err_msg e' = err_msg e /\ self c' = self c1 /\ bio c' = bio c1 /\
    still_world (wld c') = forwarded e (self c1) (still_world (wld c1)).
Proof.
  intros Hwf Hen E. pose proof (drive_swp (abs (self c) c) fuel (stalls (BufIo.inner (bio c))) cx (proj1 Hen) c (wf_sim fuel c Hwf Hen)) as Hd.
  unfold swp in Hd. rewrite E in Hd. destruct Hd as [_ Hn].
  pose proof (try_forward_error_wp e c1 Hn) as Hf. unfold wp in Hf.
  destruct (try_forward_error e c1) as [[r c2]| |] eqn:E2; try done.
  simpl in Hf. destruct Hf as (e' & -> & Hk & Hm & Hs & Hb & Hw). exists e', c2. split; [|done].
  unfold poll_client, mbind, io_bind, raw. rewrite E. simpl. by rewrite E2.
Qed.
End Promises.

(** ** Concrete sessions *)

Module ClientExample.
#[local] Existing Instance dev.
Import Plain.

Definition lines (l : list string) : bytes := concat ((fun s => bs s ++ CRLF) <$> l) ++ CRLF.
Definition get_ (h : header_map) : request :=
  {| q_method := bs "GET"; q_uri := {| u_pq := Some (bs "/x"); u_scheme := None; u_host := Some (bs "a.b"); u_port := None |};
     q_version := 11; q_headers := h |}.
Definition post : request := get_ [(bs "transfer-encoding", bs "chunked")].

Definition client := Codec.conn (Channels.world (@Handle.t plain_http) (@Client.response plain_http)) Script.t State.
Definition fuel : nat := Z.to_nat 9000.
Definition start (io : Script.t) : client :=
  mk_conn SendReq (BufIo.mk io (Vec.mk [] READ_BUF_INIT_SIZE) 0 false false None false)
    (mk_world (Mpsc.new 100) ∅ ∅ ∅ []).
(** The transport reads [text], then stalls. *)
Definition reads_then_stalls (text : bytes) : Script.t := Script.mk (Script.data text ++ [Script.RPending]) [] [] [] 0.

Definition ask (q : request) (c : client) : client :=
  match SendRequest.send_request q false (wld c) with Done (_, w) => set_wld w c | _ => c end.
Definition turn (c : client) : client := match poll_client fuel 7%nat c with Done (_, c) => c | _ => c end.

(** A 100 response in front of the one that counts. *)
Definition continue_ : bytes := lines ["HTTP/1.1 100 Continue"] ++
  lines ["HTTP/1.1 200 OK"; "content-length: 5"] ++ bs "hello".
Definition asked : client := ask (get_ []) (start (reads_then_stalls continue_)).
Definition asked_twice : client := ask (get_ []) asked.

Lemma start_ok io : handshake io = Done (start io).
Proof. reflexivity. Qed.

Lemma wf_start io : fits io -> wf (start io).
Proof. intros Hf. destruct (handshake_ok io Hf) as (c & E & Hwf & _). rewrite start_ok in E. by injection E as <-. Qed.

(** The user's call of [ask]. *)
Definition asking (q : request) (c : client) : list (@Protocol.act plain_http) :=
  [(still_world (wld c), still_world (wld (ask q c)))].

Lemma ask_user q c : q_version q = 11 -> (exists r w, SendRequest.send_request q false (wld c) = Done (r, w)) ->
  user (wld c) (wld (ask q c)).
Proof.
  intros Hv (r & w & E). unfold ask. rewrite E. eapply (user_send_request (H := plain_http) _ q false); [|done].
  unfold version_str. simpl. by rewrite Hv.
Qed.

Lemma ask_ok q c : q_version q = 11 -> (exists r w, SendRequest.send_request q false (wld c) = Done (r, w)) ->
  wf c -> wf (ask q c).
Proof.
  intros Hv E Hwf. pose proof (ask_user q c Hv E) as Hu. apply user_step in Hu; [|done].
  destruct E as (r & w & E). unfold ask in *. by rewrite E in *.
Qed.

Lemma fits_continue : fits (reads_then_stalls continue_).
Proof. by vm_compute. Qed.

Lemma nothing_sent : w_sent (reads_then_stalls continue_) = [].
Proof. reflexivity. Qed.

Lemma asked_ok : wf asked.
Proof. apply ask_ok; [done|by eexists _, _|apply wf_start, fits_continue]. Qed.

Lemma enough_asked : enough fuel asked.
Proof.
  split; [by vm_compute|]. split; [by split; vm_compute|]. split; [apply Nat.ltb_lt; by vm_compute|].
  change (map_Forall (fun (_ : chan_id) ch => (length (queue_of ch) + 3 < fuel)%nat /\
    Forall (fun v => zlen v.1 < Z.of_nat fuel) (queue_of ch)) (outs (wld asked))).
  eapply bool_decide_unpack. by vm_compute.
Qed.

Lemma ask_session c0 us q c : q_version q = 11 ->
  (exists r w, SendRequest.send_request q false (wld c) = Done (r, w)) ->
  session c0 us c -> session c0 (us ++ asking q c) (ask q c).
Proof.
  intros Hv E Hs. pose proof (ask_user q c Hv E) as Hu. apply (session_user _ _ _ _ Hs) in Hu.
  destruct E as (r & w & E). unfold asking, ask in *. by rewrite E in *.
Qed.

Lemma asked_session : session (start (reads_then_stalls continue_)) (asking (get_ []) (start (reads_then_stalls continue_)))
  asked.
Proof. apply (ask_session _ []); [done|by eexists _, _|apply session_start]. Qed.

Lemma turn_session : session (start (reads_then_stalls continue_)) (asking (get_ []) (start (reads_then_stalls continue_)))
  (turn asked).
Proof.
  apply (session_poll _ _ _ fuel 7%nat _ asked_session enough_asked).
  assert (Hp : match poll_client fuel 7%nat asked with Done (Pending, _) => true | _ => false end = true)
    by by vm_compute.
  unfold turn. by destruct (poll_client fuel 7%nat asked) as [[[|v] c]| |].
Qed.

(** One response with an empty chunked body, and the end of the connection;
    two requests. *)
Definition only : bytes := lines ["HTTP/1.1 404 Not Found"; "transfer-encoding: chunked"] ++ lines ["0"].
Definition closing : client := ask (get_ []) (ask (get_ []) (start (Script.mk (Script.data only) [] [] [] 0))).

(** A read error while the response is awaited. *)
Definition reset : io_error := io_error_new ConnectionReset [Lit "reset"].
Definition breaks : Script.t := Script.mk [Script.RErr reset] [] [] [] 0.
Definition broken : client := ask (get_ []) (start breaks).

Lemma broken_ok : wf broken /\ enough fuel broken.
Proof.
  split; [apply ask_ok; [done|by eexists _, _|by apply wf_start; vm_compute]|].
  split; [by vm_compute|]. split; [by split; vm_compute|]. split; [apply Nat.ltb_lt; by vm_compute|].
  change (map_Forall (fun (_ : chan_id) ch => (length (queue_of ch) + 3 < fuel)%nat /\
    Forall (fun v => zlen v.1 < Z.of_nat fuel) (queue_of ch)) (outs (wld broken))).
  eapply bool_decide_unpack. by vm_compute.
Qed.

Definition failure : io_error * client :=
  match drive fuel 7%nat broken with Done (Ready (Err e), c) => (e, c) | _ => (reset, broken) end.

Lemma failed_ok : drive fuel 7%nat broken = Done (Ready (Err failure.1), failure.2).
Proof.
  assert (Hf : match drive fuel 7%nat broken with Done (Ready (Err _), _) => true | _ => false end = true)
    by by vm_compute.
  unfold failure. by destruct (drive fuel 7%nat broken) as [[[|[v|e]] c]| |].
Qed.

(** What the user of a request has been told: its responses. *)
Definition told (id : chan_id) (c : client) : list (result Z io_error) :=
  match ress (wld c) !! id with
  | Some ch => (fun r => match r with Ok (res, _) => Ok (s_status res) | Err e => Err e end) <$> queue_of ch
  | None => []
  end.

(** A response whose head arrives before the request is sent, and two bytes
    of its body. *)
Definition early : bytes := lines ["HTTP/1.1 200 OK"; "content-length: 5"] ++ bs "he".
Definition waiting : client := turn (ask post (start (reads_then_stalls early))).
(** The user drops the [SendStream]. *)
Definition dropped : client :=
  match drop_tx_chan out_chans 0%nat (wld waiting) with Done (_, w) => set_wld w waiting | _ => waiting end.

(** The next poll, the drop of the connection, and a read of the body. *)
Definition read_body (c : client) : option (poll (io_result bytes) * bool) :=
  match RecvStream.poll_body_data (prof := dev) 5 8%nat 100 (RecvStream.new 0%nat false false, wld c) with
  | Done (r, (recv, _)) => Some (r, RecvStream.is_end_stream recv)
  | _ => None
  end.
Definition result_of {A} (m : exec (poll (io_result A) * client)) : option (poll (io_result A)) :=
  match m with Done (r, _) => Some r | _ => None end.
Definition gone (c : client) : client := match drop_connection c with Done (_, c) => c | _ => c end.
End ClientExample.

(** A 1xx response is taken for the response: here the server answers 100
    and then 200, the first request is told 100 with an empty body, and the
    200 goes to the second request, whose own response is left for the next. *)
Theorem informational_is_final :
  let c := ClientExample.turn ClientExample.asked_twice in
  ClientExample.told 0%nat ClientExample.asked_twice = [] /\ ClientExample.told 1%nat ClientExample.asked_twice = [] /\
  ClientExample.told 0%nat c = [Ok 100] /\ ClientExample.told 1%nat c = [Ok 200].
Proof. vm_compute. done. Qed.

(** A response that nobody sent: the only response on this connection
    answers the first request with a 404 and an empty chunked body, and the
    connection ends.  The second request is told 200: the line ends that the
    decoder left behind the body are taken for a head at the end of the
    stream, which stands for a response with the status that a response
    builder begins with. *)
Theorem response_made_up :
  ClientExample.only = ClientExample.lines ["HTTP/1.1 404 Not Found"; "transfer-encoding: chunked"] ++ bs "0" ++ CRLF ++ CRLF /\
  let c := ClientExample.turn ClientExample.closing in
  ClientExample.told 0%nat ClientExample.closing = [] /\ ClientExample.told 1%nat ClientExample.closing = [] /\
  ClientExample.told 0%nat c = [Ok 404] /\ ClientExample.told 1%nat c = [Ok 200].
Proof. vm_compute. done. Qed.

(** An error between the head of a response and the end of its request is not
    forwarded to the response body (the law of it is in Client_drop.v): here a SendStream is dropped, the
    connection fails with that error, and the RecvStream of a body of five
    bytes, of which none was handed out, reports a clean end. *)
Example truncated_body_session :
  ClientExample.result_of (poll_client (prof := dev) ClientExample.fuel 7%nat ClientExample.dropped) =
    Some (Ready (Err stream_dropped)) /\
  ClientExample.read_body (ClientExample.gone (ClientExample.turn ClientExample.dropped)) = Some (Ready (Ok []), true).
Proof. vm_compute. done. Qed.

(** The panic a peer can cause: an empty head. *)
Lemma empty_head_panics :
  poll_client (prof := dev) ClientExample.fuel 7%nat
    (ClientExample.ask (ClientExample.get_ []) (ClientExample.start (ClientExample.reads_then_stalls (CRLF ++ CRLF)))) =
  Panic (PAssert "Parsed partial response").
Proof. vm_compute. done. Qed.

Lemma send_request_cases_witness :
  exists r w', SendRequest.send_request (H := Plain.plain_http) (H0 := Plain.plain_httparse) ClientExample.post false
      (wld (ClientExample.start ClientExample.breaks)) = Done (r, w') /\
    exists res body ch, r = Ok (res, SendStream.new body LimitWrite.ChunkedEncoder false false) /\
      queue_of (reqs w') = [Handle.mk _ ClientExample.post (Some body) (Some res)] /\
      outs w' !! body = Some ch /\ Mpsc.receivers ch = 1%nat.
Proof.
  destruct (send_request_cases (H := Plain.plain_http) (H0 := Plain.plain_httparse) ClientExample.post false
    (wld (ClientExample.start ClientExample.breaks))) as (r & w' & E & res & body & ch & _ & _ & Hr & Hq & Hc & Hn);
    [done|]. exists r, w'. split; [exact E|]. exists res, body, ch. split; [exact Hr|]. split; [exact Hq|]. split; [exact Hc|exact Hn].
Defined.

Lemma client_poll_refines_witness :
  match poll_client (prof := dev) ClientExample.fuel 7%nat ClientExample.asked with
  | Done (Pending, c') => wf c' /\
      (exists es, Protocol.run (abs SendReq ClientExample.asked) es (abs (self c') c')) /\
      parked (stalls (BufIo.inner (bio ClientExample.asked))) 7%nat (self c') (bio c') (wld c')
  | _ => False
  end.
Proof.
  pose proof (proj2 (client_poll_refines (prof := dev) ClientExample.asked ClientExample.asked_ok)
    ClientExample.fuel 7%nat ClientExample.enough_asked) as Hp.
  assert (Hr : match poll_client (prof := dev) ClientExample.fuel 7%nat ClientExample.asked with
               | Done (Pending, _) => true | _ => false end = true) by by vm_compute.
  by destruct (poll_client ClientExample.fuel 7%nat ClientExample.asked) as [[[|v] c']| |].
Defined.

Lemma client_session_refines_witness :
  let c := ClientExample.turn ClientExample.asked in
  exists es us, Protocol.history (abs SendReq (ClientExample.start (ClientExample.reads_then_stalls
      ClientExample.continue_))) us es (abs (self c) c) /\
    BufIo.outgoing (bio c) = (es ≫= Protocol.sent) /\
    ClientExample.continue_ = (es ≫= Protocol.received) ++ BufIo.incoming (bio c) /\
    length (Protocol.queued us) = 1%nat.
Proof.
  destruct (client_session_refines _ _ _ _ ClientExample.fits_continue ClientExample.nothing_sent
    (ClientExample.start_ok _) ClientExample.turn_session) as (_ & es & Hh & Ho & Hi & _).
  exists es, (ClientExample.asking (ClientExample.get_ []) (ClientExample.start (ClientExample.reads_then_stalls
    ClientExample.continue_))). split; [exact Hh|]. split; [exact Ho|]. split; [|by vm_compute].
  rewrite <- Hi. by vm_compute.
Defined.

Lemma client_exchanges_are_whole_witness :
  let c := ClientExample.turn ClientExample.asked in
  exists es xs us, Protocol.history (abs SendReq (ClientExample.start (ClientExample.reads_then_stalls
      ClientExample.continue_))) us es (abs (self c) c) /\
    Forall Protocol.whole xs /\ es = xs ≫= Protocol.trace_of.
Proof.
  destruct (client_exchanges_are_whole _ _ _ _ ClientExample.fits_continue (ClientExample.start_ok _)
    ClientExample.turn_session) as (es & xs & Hh & _ & _ & Hx & He).
  exists es, xs. eexists. split; [exact Hh|]. split; [exact Hx|].
  assert (Hs : match self (ClientExample.turn ClientExample.asked) with SendReq => true | _ => false end = true)
    by by vm_compute.
  by destruct (self (ClientExample.turn ClientExample.asked)).
Defined.

Lemma error_is_forwarded_witness :
  exists e' c', poll_client (prof := dev) ClientExample.fuel 7%nat ClientExample.broken = Done (Ready (Err e'), c') /\
    err_kind e' = ConnectionReset /\ queue_of (default (Mpsc.new 1) (ress (still_world (wld c')) !! 0%nat)) =
      [Err ClientExample.reset].
Proof.
  destruct (error_is_forwarded (prof := dev) ClientExample.fuel 7%nat ClientExample.broken _ _
    (proj1 ClientExample.broken_ok) (proj2 ClientExample.broken_ok) ClientExample.failed_ok)
    as (e' & c' & Hp & Hk & _ & _ & _ & Hw). exists e', c'. split; [exact Hp|].
  split; [rewrite Hk; vm_compute; reflexivity|]. rewrite Hw. vm_compute. reflexivity.
Defined.
