(* ===== verification/Client_talk.v ===== *)
(** * What a client says

    [talk] is a session in which the user speaks through the streams that
    [send_request] returned, politely; every other call and every poll may
    come in between.  What the connection sends is then, request after
    request, the head, and the framing of what was said through the request's
    own stream: [client_wrote]. *)

From S2P Require Import Prelude.
From S2P Require Import Async.
From S2P Require Import Fast_buf.
From S2P Require Import Transport.
From S2P Require Import Buf_reader.
From S2P Require Import Chunked.
From S2P Require Import Http_api.
From S2P Require Import Error.
From S2P Require Import Limit.
From S2P Require Import Http11.
From S2P Require Import Mpsc.
From S2P Require Import Share.
From S2P Require Import Accounts.
From S2P Require Import Channels.
From S2P Require Import Handles.
From S2P Require Import Codec.
From S2P Require Import Dialogue.
From S2P Require Import Streams.
From S2P Require Import Machine.
From S2P Require Import Client.
From S2P Require Import Client_spec.
From S2P Require Import Client_proofs.
From S2P Require Import Client_session.

(** ** The calls *)

Section Calls.
Context {prof : Profile} `{Http} `{Httparse}.
Implicit Types (w : world).

Lemma send_queued h w ok w1 : on_reqs (Mpsc.send h) w = (ok, w1) ->
  (queued_by w w1 = [] \/ ok = true /\ queued_by w w1 = [h]) /\ outs w1 = outs w.
Proof.
  unfold on_reqs. destruct (Mpsc.send h (reqs w)) as [[ok' c] l] eqn:E. intros [= <- <-].
  apply still_send in E as [E ->]. split; [|done]. unfold queued_by. simpl. rewrite <- (still_queue c), E. unfold push.
  case_decide as Hz; [left; apply drop_all|]. destruct (Inner.ended _); [left; apply drop_all|].
  right. simpl. rewrite bool_decide_true by done. split; [done|]. exact (drop_app_length (queue_of (reqs w)) [h]).
Qed.

(** A request that is taken on: its stream has a channel of its own. *)
Lemma open_request_opens req (none : bool) w res body sent w' :
  SendRequest.open_request req none w = Done (Ready (Ok (res, body, sent)), w') ->
  outs w !! body = None /\
  (queued_by w w' = [] \/ sent = true /\ queued_by w w' = [Handle.mk _ req (if none then None else Some body) (Some res)]) /\
  (sent = true -> exists c, outs w' !! body = Some c /\ queue_of c = [] /\ open_ok c).
Proof.
  intros E. unfold SendRequest.open_request in E.
  apply bind_ok in E as (r1 & w1 & E1 & E). injection E1 as <- <-.
  apply bind_ok in E as (r2 & w2 & E2 & E). injection E2 as <- <-.
  set (id := fresh_chan (outs w)) in *. set (rid := fresh_chan (ress w)) in *.
  apply bind_ok in E as (r3 & w3 & E3 & E).
  set (h := Handle.mk _ _ _ _) in *. destruct (on_reqs (Mpsc.send h) _) as [ok w3'] eqn:Es.
  injection E3 as <- <-. pose proof Es as Hs. apply send_queued in Hs as [Hq Ho]. simpl in Ho.
  assert (Hid : outs w !! id = None) by apply fresh_chan_none.
  assert (Hw3 : queued_by w w3' = [] \/ ok = true /\ queued_by w w3' = [h]) by exact Hq. clear Hq.
  assert (Hnew : outs w3' !! id = Some (Mpsc.new 1)) by (rewrite Ho; apply lookup_insert_eq).
  apply bind_ok in E as (r4 & w4 & E4 & E). apply bind_ok in E as (r5 & w5 & E5 & E). apply bind_ok in E as (r6 & w6 & E6 & E).
  injection E as <- <- <- <-. split; [done|]. destruct ok; cbn [negb] in E4, E6.
  - injection E4 as <- <-. injection E6 as <- <-. destruct none.
    + unfold drop_rx_chan, on_chan in E5. simpl in E5. rewrite Hnew in E5. injection E5 as <- <-.
      split; [exact Hw3|]. intros _. eexists. split; [apply lookup_insert_eq|]. split; [done|]. intros []. done.
    + injection E5 as <- <-. split; [exact Hw3|]. intros _. eexists. split; [exact Hnew|]. done.
  - assert (Hd : keeps widens (drop_handle h)) by apply drop_handle_widens. apply Hd in E4.
    assert (Hk : keeps widens (if none then drop_rx_chan (W := world) out_chans id else mret tt)) by (destruct none; keeps_tac).
    apply Hk in E5. assert (Hl : keeps widens (drop_tx_chan (W := world) out_chans id;; drop_rx_chan res_chans rid)) by keeps_tac.
    apply Hl in E6. split; [|done]. left. destruct Hw3 as [Hw3|[? _]]; [|done]. unfold queued_by in *.
    by rewrite (wd_reqs _ _ E6), (wd_reqs _ _ E5), (wd_reqs _ _ E4).
Qed.

(** A call of [send_request] that returns a stream. *)
Lemma send_request_opens req no_body w r w' : SendRequest.send_request req no_body w = Done (r, w') ->
  leaves_bodies w w' /\
  match r with
  | Ok (res, s) => outs w !! SendStream.tx_body s = None /\
      SendStream.limit s = LimitWrite.from_headers (req_headers req) /\
      (exists c, outs w' !! SendStream.tx_body s = Some c /\ queue_of c = [] /\ open_ok c) /\
      (queued_by w w' = [] \/ queued_by w w' =
         [Handle.mk _ req (if no_body || LimitWrite.is_no_body (SendStream.limit s) then None else Some (SendStream.tx_body s)) (Some res)])
  | Err _ => queued_by w w' = []
  end.
Proof.
  unfold SendRequest.send_request. destruct (method_eqb _ _).
  { intros [= <- <-]. split; [reflexivity|]. apply drop_all. }
  simpl. destruct (SendRequest.open_request _ _ w) as [[r1 w1]| |] eqn:E; try done. simpl.
  destruct r1 as [|[[[res body] sent]|e]]; try done. intros [= <- <-]. split; [by eapply open_request_leaves|].
  apply open_request_opens in E as (Hn & Hq & Hs). destruct sent.
  - split; [done|]. split; [done|]. split; [by apply Hs|]. simpl. destruct Hq as [|[_ ?]]; auto.
  - by destruct Hq as [|[? _]].
Qed.
End Calls.

(** ** The connection *)

Abbreviation sent_on := Protocol.sent_on.

Section Machine.
Context `{Http} `{Httparse}.

Lemma run_carries m s es s' : Protocol.run s es s' -> forall es0,
  carries (fun id => sent_on id es0) m (outs (Protocol.chans s)) ->
  carries (fun id => sent_on id (es0 ++ es)) m (outs (Protocol.chans s')).
Proof.
  intros Hr es0. apply (Machine.run_extends Protocol.step
    (fun es s => carries (fun id => sent_on id es) m (outs (Protocol.chans s)))) with (s := s); [|done].
  intros es1 s1 e s2 Hc Hs. eapply carries_draws; [exact Hc|by apply Protocol.step_draws|]. intros id. apply Protocol.sent_on_app.
Qed.
End Machine.

(** ** Talking *)

Section Talk.
Context {prof : Profile} `{Http} `{Httparse} {R : Type} `{DuplexSpec R}.
Implicit Types (c : conn R State) (m : gmap chan_id speech).

Definition framing_of_request (h : Handle.t) : LimitWrite.t := LimitWrite.from_headers (req_headers (Handle.req h)).

(** The streams that are spoken through, by their channel.  A request is said
    to have no body only if its headers announce none. *)
Definition opened (r : result (chan_id * SendStream.t) Error.t) m : gmap chan_id speech :=
  match r with Ok (_, s) => <[SendStream.tx_body s := Speech s []]> m | Err _ => m end.

Inductive talk c0 : list Protocol.act -> gmap chan_id speech -> conn R State -> Prop :=
  | talk_start : talk c0 [] ∅ c0
  | talk_request us m c req no_body r w ver : talk c0 us m c -> version_str (req_version req) = Done ver ->
      (no_body = true -> LimitWrite.is_no_body (LimitWrite.from_headers (req_headers req)) = true) ->
      SendRequest.send_request req no_body (wld c) = Done (r, w) ->
      talk c0 (us ++ [(still_world (wld c), still_world w)]) (opened r m) (set_wld w c)
  | talk_piece us m c id sp cx end_ d r this' rest w : talk c0 us m c -> m !! id = Some sp ->
      sendable (sp_stream sp) d -> polite sp (data_bytes d) end_ ->
      SendStream.poll_send_data cx end_ (sp_stream sp, d, wld c) = Done (r, (this', rest, w)) ->
      talk c0 (us ++ [(still_world (wld c), still_world w)]) (<[id := say sp this' r d end_]> m) (set_wld w c)
  | talk_call us m c w : talk c0 us m c -> call (wld c) w ->
      talk c0 (us ++ [(still_world (wld c), still_world w)]) m (set_wld w c)
  | talk_poll us m c fuel cx c' : talk c0 us m c -> enough fuel c ->
      poll_client fuel cx c = Done (Pending, c') -> talk c0 us m c'.

(** A talk is a session. *)
Lemma talk_session c0 us m c : talk c0 us m c -> session c0 us c.
Proof.
  induction 1 as [|us m c req no_body r w ver _ IH Hv Hn E|us m c id sp cx end_ d r this' rest w _ IH Hsp Hs Hp E
    |us m c w _ IH Hc|us m c fuel cx c' _ IH Hen E].
  - apply session_start.
  - apply session_user; [done|]. by eapply user_send_request.
  - apply session_user; [done|]. by eapply user_send_data.
  - apply session_user; [done|]. by apply user_call.
  - by eapply session_poll.
Qed.

(** A request, and its stream. *)
Definition handled m (h : Handle.t) : Prop :=
  match Handle.body_rx h with
  | None => LimitWrite.is_no_body (framing_of_request h) = true
  | Some id => LimitWrite.is_no_body (framing_of_request h) = false /\
      exists sp, m !! id = Some sp /\ framing_of sp = framing_of_request h
  end.

Lemma handled_update m id sp' h : (forall sp, m !! id = Some sp -> framing_of sp' = framing_of sp) ->
  handled m h -> handled (<[id := sp']> m) h.
Proof.
  intros Hf. unfold handled. destruct (Handle.body_rx h) as [j|]; [|done]. intros (Hn & sp & Hsp & E). split; [done|].
  destruct (decide (j = id)) as [->|Hne].
  - exists sp'. rewrite lookup_insert_eq, (Hf sp Hsp). done.
  - exists sp. by rewrite lookup_insert_ne by done.
Qed.

Definition speaks hs m es (w : world) : Prop :=
  carries (fun id => sent_on id es) m (outs w) /\ Forall (handled m) hs /\ NoDup (omap Handle.body_rx hs).

Lemma handled_known hs m id : Forall (handled m) hs -> m !! id = None -> id ∉ omap Handle.body_rx hs.
Proof.
  intros Hh Hm (h & Hin & Hid)%list_elem_of_omap. rewrite list.Forall_forall in Hh. specialize (Hh h Hin).
  unfold handled in Hh. rewrite Hid in Hh. destruct Hh as (_ & sp & Hsp & _). congruence.
Qed.

Lemma speaks_request hs m es w req no_body r w' : speaks hs m es w ->
  (no_body = true -> LimitWrite.is_no_body (LimitWrite.from_headers (req_headers req)) = true) ->
  SendRequest.send_request req no_body w = Done (r, w') ->
  speaks (hs ++ queued_by w w') (opened r m) es w'.
Proof.
  intros (Hc & Hh & Hd) Hn E. apply send_request_opens in E as [Hl E].
  destruct r as [[res s]|e]; simpl; [|rewrite E, app_nil_r; split; [by eapply carries_calm|done]].
  destruct E as (Hnew & Hlim & (ch & Hch & Hq & Hok) & Hqb). set (id := SendStream.tx_body s) in *.
  assert (Hm : m !! id = None).
  { destruct (m !! id) as [sp|] eqn:Em; [|done]. destruct (cs_speech _ _ _ Hc id sp Em) as (_ & c' & ? & _). congruence. }
  assert (Hh' : Forall (handled (<[id := Speech s []]> m)) hs).
  { revert Hh. apply Forall_impl. intros h. apply handled_update. congruence. }
  assert (Hf : framing_of (Speech s []) = LimitWrite.from_headers (req_headers req)).
  { unfold framing_of. simpl. by rewrite Hlim, initial_from_headers. }
  split.
  { apply (carries_new _ _ _ _ ch _ Hc Hl Hnew); [done..|]. by eapply sound_new. }
  destruct Hqb as [-> | ->]; [rewrite app_nil_r; by split|]. rewrite omap_app. split.
  - apply Forall_app. split; [done|]. constructor; [|done]. unfold handled, framing_of_request. simpl. rewrite Hlim.
    destruct no_body; simpl; [by apply Hn|]. destruct (LimitWrite.is_no_body _) eqn:En; [done|]. split; [done|].
    exists (Speech s []). by rewrite lookup_insert_eq.
  - simpl. destruct (no_body || _); simpl; rewrite ?app_nil_r; [done|]. apply list.NoDup_app. split; [done|]. split; [|apply NoDup_singleton].
    intros j Hj ->%list_elem_of_singleton. by apply (handled_known hs m id).
Qed.

Lemma speaks_piece hs m es w id sp cx end_ d r this' rest w' : speaks hs m es w -> m !! id = Some sp ->
  sendable (sp_stream sp) d -> polite sp (data_bytes d) end_ ->
  SendStream.poll_send_data cx end_ (sp_stream sp, d, w) = Done (r, (this', rest, w')) ->
  speaks hs (<[id := say sp this' r d end_]> m) es w'.
Proof.
  intros (Hc & Hh & Hd) Hsp Hs Hp E. apply (carries_send _ _ _ _ _ _ _ _ _ _ _ _ Hc Hsp Hs Hp) in E as (Hc' & _ & Hf).
  split; [done|]. split; [|done]. revert Hh. apply Forall_impl. intros h. apply handled_update. congruence.
Qed.

Lemma speaks_calm hs m es w w' : speaks hs m es w -> leaves_bodies w w' -> speaks hs m es w'.
Proof. intros (Hc & Hh) Hl. split; [|done]. by eapply carries_calm. Qed.

(** What is said in a talk. *)
Definition told c0 us m c : Prop :=
  wf c /\ exists es, Protocol.history (abs (self c0) c0) us es (abs (self c) c) /\ speaks (Protocol.queued us) m es (wld c).

Lemma queued_after us (w w' : world) : Protocol.queued (us ++ [(still_world w, still_world w')]) = Protocol.queued us ++ queued_by w w'.
Proof. exact (Protocol.queued_snoc us (still_world w) (still_world w')). Qed.

Lemma told_user c0 us m c m' w : told c0 us m c -> user (wld c) w ->
  (forall es, speaks (Protocol.queued us) m es (wld c) -> speaks (Protocol.queued us ++ queued_by (wld c) w) m' es w) ->
  told c0 (us ++ [(still_world (wld c), still_world w)]) m' (set_wld w c).
Proof.
  intros (Hw & es & Hes & Hsp) Hu Hs. split; [by apply user_step|]. exists es.
  split; [exact (history_call _ _ _ c w Hes Hu)|]. rewrite queued_after. exact (Hs es Hsp).
Qed.

(** Calls that queue no request. *)
Lemma queued_none (w w' : world) : queue_of (reqs w') = queue_of (reqs w) -> queued_by w w' = [].
Proof. unfold queued_by. intros ->. apply drop_all. Qed.

Lemma talk_told c0 us m c : wf c0 -> talk c0 us m c -> told c0 us m c.
Proof.
  intros Hwf. induction 1 as [|us m c req no_body r w ver _ IH Hv Hn E|us m c id sp cx end_ d r this' rest w _ IH Hid Hs Hp E
    |us m c w _ IH Hc|us m c fuel cx c' _ (Hw & es & Hes & Hsp) Hen E].
  - split; [done|]. exists []. split; [apply Protocol.history_nil|]. split; [by split|]. split; [constructor|apply NoDup_nil_2].
  - eapply told_user; [exact IH|by eapply user_send_request|]. intros es Hes. by eapply speaks_request.
  - eapply told_user; [exact IH|by eapply user_send_data|]. intros es Hes.
    pose proof (send_data_gives _ _ _ _ _ _ _ _ _ E) as [(Hq & _) _]. rewrite queued_none, app_nil_r by by rewrite Hq.
    by eapply speaks_piece.
  - eapply told_user; [exact IH|by apply user_call|]. intros es Hes. rewrite queued_none, app_nil_r by by apply wd_reqs, call_widens.
    by eapply speaks_calm, call_leaves.
  - destruct (poll_step _ _ _ _ Hw Hen E) as (Hw' & es' & Hr). split; [done|]. exists (es ++ es').
    split; [by eapply Protocol.run_history|]. destruct Hsp as (Hc & Hh). split; [|done].
    apply carries_still. apply carries_still in Hc. by apply (run_carries m _ _ _ Hr es Hc).
Qed.
End Talk.

(** ** The messages *)

Section Messages.
Context `{Http} `{Httparse}.
Implicit Types (m : gmap chan_id speech) (x : Protocol.exchange).

(** What was said as the body of a request. *)
Definition spoken m (h : Handle.t) : bytes :=
  match Handle.body_rx h with Some id => from_option (fun sp => data_of (sp_said sp)) [] (m !! id) | None => [] end.

(** A request on the wire. *)
Definition request_message m x (a : said) : Prop :=
  s_head a = Protocol.x_head x /\ s_limit a = framing_of_request (Protocol.x_handle x) /\
  s_wire a = data_of (strip (Protocol.chunks (Protocol.x_events x))) /\
  says (s_limit a) (s_wire a) (s_data a) (s_fin a) /\
  (all_said (s_limit a) (s_data a) (s_fin a) -> s_data a = spoken m (Protocol.x_handle x)) /\
  (Protocol.whole x -> s_fin a = true).

(** The exchanges of a history, with the one under way. *)
Definition settled x ph : Prop := Protocol.whole x \/ Protocol.under_way x ph.
Definition laid_out (es : list Protocol.event) (xs : list Protocol.exchange) (ph : State) : Prop :=
  es = xs ≫= Protocol.trace_of /\
  exists done, Forall Protocol.whole done /\ (xs = done \/ exists x, xs = done ++ [x] /\ Protocol.under_way x ph).

Lemma exchanges_laid_out es xs ph : Protocol.exchanges es xs ph -> exists ys, laid_out es ys ph /\ xs `prefix_of` ys.
Proof.
  intros Hx. pose proof (proj1 Hx) as Hw. apply Protocol.exchanges_cases in Hx as [[_ ->]|(_ & x & -> & Hu)].
  - exists xs. split; [|done]. split; [done|]. exists xs. auto.
  - exists (xs ++ [x]). split; [|by apply prefix_app_r]. split; [by rewrite bind_app; simpl; rewrite app_nil_r|].
    exists xs. split; [done|]. right. eauto.
Qed.

Lemma laid_out_settled es xs ph : laid_out es xs ph -> Forall (fun x => settled x ph) xs.
Proof.
  intros (_ & d & Hd & Hx). assert (Hd' : Forall (fun x => settled x ph) d) by (eapply Forall_impl; [|exact Hd]; intros; by left).
  destruct Hx as [-> |(x & -> & Hu)]; [done|]. apply Forall_app. split; [done|]. constructor; [by right|done].
Qed.

Lemma settled_body x ph : settled x ph -> omap Protocol.took (Protocol.x_events x) = [] /\
  exists o, Protocol.body_sent (Handle.body_rx (Protocol.x_handle x)) o (Protocol.chunks (Protocol.x_events x)).
Proof.
  assert (Hw : Protocol.whole x -> omap Protocol.took (Protocol.x_events x) = [] /\
    exists o, Protocol.body_sent (Handle.body_rx (Protocol.x_handle x)) o (Protocol.chunks (Protocol.x_events x))).
  { intros (Ht & _ & Hb & _). eauto. }
  intros [Hx|(Ht & _ & Hx)]; [by apply Hw|]. split; [done|]. destruct ph as [|b|r]; simpl in Hx; [by apply Hw|..].
  - destruct Hx as (_ & _ & Hb & _). eauto.
  - destruct Hx as (Hb & _). eauto.
Qed.

Lemma body_sent_owned o o' l : Protocol.body_sent o o' l -> owned (o, l).
Proof.
  unfold owned. simpl. destruct o as [id|]; simpl; [|by intros [_ ->]].
  assert (Hds : forall ds : list bytes, Forall (fun p => Some id = Some p.1.1) ((fun d => (id, d, false)) <$> ds))
    by (intros ds; apply Forall_fmap, Forall_true; done).
  intros (ds & [[_ ->]|(_ & d & ->)]); [apply Hds|]. apply Forall_app. split; [apply Hds|by constructor].
Qed.

Definition group x : option chan_id * list (chan_id * bytes * bool) :=
  (Handle.body_rx (Protocol.x_handle x), Protocol.chunks (Protocol.x_events x)).

Lemma chunks_bind (xs : list Protocol.exchange) :
  Protocol.chunks (xs ≫= Protocol.trace_of) = concat (snd <$> (group <$> xs)).
Proof.
  induction xs as [|x xs IH]; [done|]. rewrite bind_cons, !fmap_cons. cbn [concat]. rewrite <- IH. unfold Protocol.chunks.
  by rewrite omap_app.
Qed.

Lemma took_bind xs ph : Forall (fun x => settled x ph) xs ->
  omap Protocol.took (xs ≫= Protocol.trace_of) = Protocol.x_handle <$> xs.
Proof.
  induction 1 as [|x xs Hx _ IH]; [done|]. rewrite bind_cons, omap_app, IH, Protocol.took_trace.
  apply settled_body in Hx as [-> _]. done.
Qed.

Lemma sent_events l : omap Protocol.took l = [] -> l ≫= Protocol.sent = data_of (strip (Protocol.chunks l)).
Proof.
  induction l as [|e l IH]; [done|]. rewrite bind_cons. destruct e; cbn; try done; intros Hl; by rewrite IH.
Qed.

Lemma sent_messages xs ph m (ms : list said) : Forall (fun x => settled x ph) xs -> Forall2 (request_message m) xs ms ->
  (xs ≫= Protocol.trace_of) ≫= Protocol.sent = stream_of ms.
Proof.
  intros Hs Hm. induction Hm as [|x a xs ms (Hh & _ & Hw & _) _ IH]; [done|]. apply Forall_cons_1 in Hs as [Hx Hs].
  unfold stream_of. rewrite !bind_cons, bind_app. fold (stream_of ms). rewrite IH by done.
  unfold Protocol.trace_of at 1. rewrite bind_cons, sent_events by by eapply settled_body. simpl. by rewrite Hh, Hw.
Qed.

Lemma messages_in_turn es xs ph m (ms : list said) : laid_out es xs ph -> Forall2 (request_message m) xs ms -> in_turn ms.
Proof.
  intros (_ & d & Hd & Hx). assert (Hms : forall ms, Forall2 (request_message m) xs ms -> exists ms1 ms2, ms = ms1 ++ ms2 /\
    Forall (fun a => s_fin a = true) ms1 /\ (length ms2 <= 1)%nat).
  { intros ms' Hm. assert (Hfin : forall d ms', Forall Protocol.whole d -> Forall2 (request_message m) d ms' -> Forall (fun a => s_fin a = true) ms').
    { clear. intros d ms' Hd Hm. induction Hm as [|x a d ms' (_ & _ & _ & _ & _ & Hf) _ IH]; [done|].
      apply Forall_cons_1 in Hd as [? ?]. constructor; auto. }
    destruct Hx as [-> |(x & -> & _)]; [exists ms', []; rewrite app_nil_r; split_and!; [done|by eapply Hfin|simpl; lia]|].
    apply Forall2_app_inv_l in Hm as (ms1 & ms2 & Hm1 & Hm2 & ->). exists ms1, ms2. split; [done|]. split; [by eapply Hfin|].
    apply Forall2_length in Hm2. simpl in Hm2. lia. }
  intros Hm. destruct (Hms ms Hm) as (ms1 & ms2 & -> & Hf & Hl). by apply in_turn_last.
Qed.

(** Every request has its message. *)
Lemma message_exists hs m es xs ph w : speaks hs m es w -> es = xs ≫= Protocol.trace_of ->
  Forall (fun x => settled x ph) xs -> Protocol.x_handle <$> xs `prefix_of` hs ->
  exists ms, Forall2 (request_message m) xs ms.
Proof.
  intros (Hc & Hh & Hd) He Hs [k Hk].
  assert (Hex : forall x, x ∈ xs -> exists a, request_message m x a); [|].
  2: { clear -Hex. induction xs as [|x xs IH]; [by exists []|]. destruct (Hex x) as [a Ha]; [by left|].
       destruct IH as [ms Hms]; [intros y Hy; apply Hex; by right|]. exists (a :: ms). by constructor. }
  intros x Hx. pose proof (proj1 (list.Forall_forall _ _) Hs x Hx) as Hsx. apply settled_body in Hsx as (_ & o & Hb).
  assert (Hhx : handled m (Protocol.x_handle x)).
  { apply (proj1 (list.Forall_forall _ _) Hh). rewrite Hk. apply elem_of_app. left. by apply list_elem_of_fmap_2. }
  unfold handled in Hhx. destruct (Handle.body_rx (Protocol.x_handle x)) as [id|] eqn:Eb.
  - destruct Hhx as (Hn & sp & Hsp & Hf).
    assert (Ht : sent_on id es = strip (Protocol.chunks (Protocol.x_events x))).
    { unfold sent_on. rewrite He, chunks_bind. apply from_chan_owner.
      - apply Forall_fmap. revert Hs. apply Forall_impl. intros y (_ & o' & Hy)%settled_body. by eapply body_sent_owned.
      - rewrite Hk in Hd. rewrite omap_app in Hd. apply list.NoDup_app in Hd as (Hd & _ & _). revert Hd. clear.
        match goal with |- NoDup ?a -> NoDup ?b => assert (E : a = b) end; [|by rewrite E].
        induction xs as [|y xs IH]; [done|]. simpl. destruct (Handle.body_rx _); simpl; by f_equal.
      - change (Some id, Protocol.chunks (Protocol.x_events x)) with (Some id, snd (group x)). rewrite <- Eb.
        by apply (list_elem_of_fmap_2 group). }
    destruct (taken_says _ _ _ _ _ Hc Hsp) as (sd & Hpre & Hsays & Hall). rewrite Ht in Hsays, Hall.
    exists (Said (Protocol.x_head x) (framing_of sp) (data_of (strip (Protocol.chunks (Protocol.x_events x)))) (data_of sd)
      (ended_by (strip (Protocol.chunks (Protocol.x_events x))))).
    split; [done|]. split; [by rewrite <- Hf|]. split; [done|]. split; [done|]. simpl. split.
    + intros Ha. unfold spoken. rewrite Eb, Hsp. simpl. destruct (cs_speech _ _ _ Hc id sp Hsp) as ((_ & Hp & _) & _).
      eapply all_said_front; [exact Hp|exact Hpre|exact Hsays| |exact Ha]. done.
    + intros (_ & _ & Hbs & _). rewrite Eb in Hbs. destruct Hbs as (ds & [[? _]|(_ & d & ->)]); [done|].
      unfold strip, ended_by. rewrite fmap_app, existsb_app. simpl. by rewrite orb_true_r.
  - destruct Hb as [_ Hl]. exists (Said (Protocol.x_head x) (framing_of_request (Protocol.x_handle x)) [] [] true).
    unfold request_message. simpl. rewrite Hl. unfold spoken. rewrite Eb. split_and!; try done.
    unfold framing_of_request, LimitWrite.from_headers in *. destruct (is_chunked _); [done|].
    destruct (get_as _ _) as [n|] eqn:En; [|done]. apply get_as_range in En. simpl in *. apply Z.eqb_eq in Hhx. subst n.
    split; [done|]. split; [lia|]. done.
Qed.
End Messages.

(** ** What a talk comes to *)

Section Wrote.
Context {prof : Profile} `{Http} `{Httparse} {R : Type} `{DuplexSpec R}.
Implicit Types (c : conn R State) (m : gmap chan_id speech).

(** The messages a client wrote, and the requests they are. *)
Definition wrote c0 us m c es xs (ms : list said) : Prop :=
  Protocol.history (abs SendReq c0) us es (abs (self c) c) /\ laid_out es xs (self c) /\
  Forall2 (request_message m) xs ms /\ BufIo.outgoing (bio c) = stream_of ms /\ in_turn ms /\
  Protocol.x_handle <$> xs `prefix_of` Protocol.queued us.

Lemma client_wrote (io : R) c0 us m c : fits io -> w_sent io = [] -> handshake io = Done c0 -> talk c0 us m c ->
  exists es xs ms, wrote c0 us m c es xs ms.
Proof.
  intros Hfit Hsent Hsh Ht. destruct (handshake_ok io Hfit) as (c0' & E & Hwf & Hst & Hin & Hout & Hq).
  rewrite Hsh in E. injection E as <-. destruct (talk_told _ _ _ _ Hwf Ht) as (Hw & es & Hes & Hsp). rewrite Hst in Hes.
  pose proof (Protocol.history_wires _ _ _ _ Hes) as (Ho & _ & Hr). simpl in Ho. rewrite Hout, Hsent in Ho. simpl in Ho.
  change (queue_of (reqs (wld c0)) ++ Protocol.queued us = omap Protocol.took es ++ queue_of (reqs (wld c))) in Hr. rewrite Hq in Hr. simpl in Hr.
  destruct (Protocol.history_exchanges _ _ _ _ Hes eq_refl) as (ws & Hws). apply exchanges_laid_out in Hws as (xs & Hx & _).
  pose proof (laid_out_settled _ _ _ Hx) as Hs. pose proof Hx as (Hex & _).
  assert (Hpre : Protocol.x_handle <$> xs `prefix_of` Protocol.queued us).
  { rewrite Hr, Hex, (took_bind _ _ Hs). by apply prefix_app_r. }
  destruct (message_exists _ _ _ _ _ _ Hsp Hex Hs Hpre) as (ms & Hms). exists es, xs, ms. split; [done|]. split; [done|].
  split; [done|]. split; [|split; [by eapply messages_in_turn|done]]. rewrite Ho, Hex. by eapply sent_messages.
Qed.
End Wrote.
