(* ===== verification/Client_progress.v ===== *)
(** * The client gets on

    What a poll of the connection costs, and what a session comes to: over a
    live transport only the user can hold a connection up for ever. *)

From S2P Require Import Prelude.
From S2P Require Import Async.
From S2P Require Import Std_text.
From S2P Require Import Fast_buf.
From S2P Require Import Transport.
From S2P Require Import Buf_reader.
From S2P Require Import Http_api.
From S2P Require Import Error.
From S2P Require Import Limit.
From S2P Require Import Http11.
From S2P Require Import Mpsc.
From S2P Require Import Share.
From S2P Require Import Channels.
From S2P Require Import Handles.
From S2P Require Import Codec.
From S2P Require Import Stalls.
From S2P Require Import Client.
From S2P Require Import Client_spec.
From S2P Require Import Client_proofs.
From S2P Require Import Client_session.
From S2P Require Import Client_talk.

(** ** No poll gives the transport more stalls *)

Section Calm.
Context {prof : Profile} `{Http} `{Httparse} {R : Type} `{DuplexSpec R}.

Lemma poll_send_req_calm fuel cx : keeps calm (poll_send_req (R := R) fuel cx).
Proof. unfold poll_send_req. keeps_tac. apply calm_or_drop. keeps_tac. Qed.

Lemma poll_response_calm fuel : keeps calm (poll_response (R := R) fuel).
Proof. unfold poll_response. keeps_tac. Qed.

Lemma poll_send_body_calm fuel cx : keeps calm (poll_send_body (R := R) fuel cx).
Proof. unfold poll_send_body. keeps_tac. Qed.

Lemma is_pending_or_calm (m : io (conn R Bidirect.t) unit) : keeps calm m -> keeps calm (is_pending_or m).
Proof. intros Hm. unfold is_pending_or. keeps_tac. Qed.

Hint Resolve poll_send_req_calm poll_response_calm poll_send_body_calm is_pending_or_calm : keeps.

Lemma poll_bidirect_calm fuel cx : keeps calm (poll_bidirect (R := R) fuel cx).
Proof. unfold poll_bidirect, bidirect_turn. keeps_tac. Qed.

Lemma limit_read_calm fuel n : keeps calm (limit_read (R := R) fuel n).
Proof. apply calm_limit_read. Qed.
Hint Resolve poll_bidirect_calm limit_read_calm : keeps.

Lemma poll_read_body_calm fuel cx : keeps calm (poll_read_body (R := R) fuel cx).
Proof. unfold poll_read_body, read_body_turn. keeps_tac. Qed.
Hint Resolve poll_read_body_calm : keeps.

Lemma drive_calm fuel cx : keeps calm (drive (R := R) fuel cx).
Proof. unfold drive, drive_turn, set_state. keeps_tac. Qed.
Hint Resolve drive_calm : keeps.

Lemma poll_client_calm fuel cx : keeps calm (poll_client (R := R) fuel cx).
Proof. unfold poll_client, try_forward_error. keeps_tac. Qed.
End Calm.

(** ** What a connection can wait for *)

Section Waiting.
Context {prof : Profile} `{Http} `{Httparse} {R : Type} `{DuplexSpec R}.
Implicit Types (c : conn R State) (w : world).

(** It waits for the user: for a request, while one can still be made; for
    more of the request body, when the response has been delivered; or for
    the response body to be read. *)
Definition waits_for_user (cx : waker) (s : State) w : Prop :=
  match s with
  | SendReq => awaits true cx (reqs w)
  | RecvRes h =>
      Handle.res_tx (Bidirect.handle h) = None /\
      from_option (fun id => from_option (awaits true cx) False (outs w !! id)) False (Handle.body_rx (Bidirect.handle h))
  | RecvBody h => from_option (backed_up cx) False (ins w !! BodyReceiver.body_tx h)
  end.

#[export] Instance waits_for_user_dec cx s w : Decision (waits_for_user cx s w).
Proof. destruct s as [|h|h]; simpl; apply _. Defined.

(** A [Pending] poll of a connection that does not wait for its user was held
    up by the transport. *)
Lemma parked_waits budget cx s (b : BufIo.t R) w : parked budget cx s b w ->
  waits_for_user cx s w \/ (live R -> (stalls (BufIo.inner b) < budget)%nat).
Proof.
  intros [[_ Hb]|Hp]; [by right|]. destruct s as [|h|h]; simpl in *; [by left| |].
  - destruct Hp as (Hres & Hbody & Hsome). destruct (Handle.res_tx _) as [id|].
    + destruct Hres as [_ Hb]; [done|by right].
    + left. split; [done|]. destruct Hsome as [?|Hsome]; [done|]. destruct (Handle.body_rx _) as [id|]; [|done].
      destruct (Hbody id eq_refl) as (ch & Hid & Hch). simpl. by rewrite Hid.
  - destruct Hp as [[_ Hb]|(ch & -> & Hch)]; [by right|by left].
Qed.

Lemma pending_costs fuel cx c c' : live R -> wf c -> enough fuel c -> poll_client fuel cx c = Done (Pending, c') ->
  wf c' /\ (stalls_left c' <= stalls_left c)%nat /\
  (waits_for_user cx (self c') (wld c') \/ (stalls_left c' < stalls_left c)%nat).
Proof.
  intros Hl Hwf Hen E. pose proof (poll_client_swp fuel cx c Hwf Hen) as Hp. unfold swp in Hp. rewrite E in Hp.
  destruct Hp as [(_ & Hw & Hin) Hp]. split; [done|]. split; [by apply Hin|].
  apply parked_waits in Hp as [?|Hs]; [by left|]. right. by apply Hs.
Qed.

(** Polls until the client has ended, or waits for its user: [n] of them were
    held up. *)
Inductive settles (cx : waker) : nat -> conn R State -> Prop :=
  | settles_ready fuel c r c' : enough fuel c -> poll_client fuel cx c = Done (Ready r, c') -> settles cx 0 c
  | settles_panics fuel c p : enough fuel c -> poll_client fuel cx c = Panic p -> partial_head p -> settles cx 0 c
  | settles_waits fuel c c' : enough fuel c -> poll_client fuel cx c = Done (Pending, c') ->
      waits_for_user cx (self c') (wld c') -> settles cx 0 c
  | settles_again fuel c c' n : enough fuel c -> poll_client fuel cx c = Done (Pending, c') ->
      ~ waits_for_user cx (self c') (wld c') -> settles cx n c' -> settles cx (S n) c.

(** C12. A client that is polled gets on: over a transport that stalls only so
    often, at most as many polls are held up, and the one after them either
    ends the connection, or leaves it waiting for its user, by whom it will be
    woken: for a request, for more of a request body, or for a response body
    to be read.  (httparse may still call a head partial, which is a panic.)
    No poll waits for nothing. *)
Theorem client_settles cx c : live R -> wf c -> exists n, (n <= stalls_left c)%nat /\ settles cx n c.
Proof.
  intros Hl. remember (stalls_left c) as m eqn:Hm. revert c Hm.
  induction m as [m IH] using (well_founded_induction lt_wf). intros c -> Hwf.
  destruct (enough_exists c) as [fuel Hen]. pose proof (poll_client_swp fuel cx c Hwf Hen) as Hp. unfold swp in Hp.
  destruct (poll_client fuel cx c) as [[[|v] c']|p|] eqn:E; [| | |done].
  - destruct (pending_costs _ _ _ _ Hl Hwf Hen E) as (Hw & Hle & Hor).
    destruct (decide (waits_for_user cx (self c') (wld c'))) as [Hu|Hu]; [exists 0%nat; split; [lia|by eapply settles_waits]|].
    destruct Hor as [?|Hlt]; [done|]. destruct (IH _ Hlt c' eq_refl Hw) as (n & Hn & Hs).
    exists (S n). split; [lia|by eapply settles_again].
  - exists 0%nat. split; [lia|by eapply settles_ready].
  - exists 0%nat. split; [lia|by eapply settles_panics].
Qed.
End Waiting.

(** ** Sessions *)

Section Sessions.
Context {prof : Profile} `{Http} `{Httparse} {R : Type} `{DuplexSpec R}.
Implicit Types (c : conn R State) (w : world).

(** A session, with the number of its polls that were held up. *)
Inductive paced c0 : nat -> list Protocol.act -> conn R State -> Prop :=
  | paced_start : paced c0 0 [] c0
  | paced_user n us c w : paced c0 n us c -> user (wld c) w ->
      paced c0 n (us ++ [(still_world (wld c), still_world w)]) (set_wld w c)
  | paced_poll n us c fuel cx c' : paced c0 n us c -> enough fuel c -> poll_client fuel cx c = Done (Pending, c') ->
      paced c0 (if decide (waits_for_user cx (self c') (wld c')) then n else S n) us c'.

Lemma handshake_stalls (io : R) c0 : handshake io = Done c0 -> stalls_left c0 = stalls io.
Proof.
  unfold handshake, new_codec. destruct (BufIo.with_capacity _ io) as [b| |] eqn:E; [|done..]. intros [= <-].
  destruct (BufIo.with_capacity_wf READ_BUF_INIT_SIZE io) as (b' & Eb & _ & _ & _ & _ & Hio & _); [by vm_compute|].
  rewrite E in Eb. injection Eb as <-. unfold stalls_left. simpl. by rewrite Hio.
Qed.

Lemma session_paced c0 us c : session c0 us c <-> exists n, paced c0 n us c.
Proof.
  split.
  - induction 1 as [|us c w _ [n IH] Hu|us c fuel cx c' _ [n IH] Hen E].
    + exists 0%nat. apply paced_start.
    + exists n. by apply paced_user.
    + eexists. by eapply paced_poll.
  - intros [n Hp]. induction Hp; [apply session_start|by apply session_user|by eapply session_poll].
Qed.

Lemma paced_stalls c0 n us c : live R -> wf c0 -> paced c0 n us c -> (n + stalls_left c <= stalls_left c0)%nat.
Proof.
  intros Hl Hwf. induction 1 as [|n us c w _ IH _|n us c fuel cx c' Hp IH Hen E]; [done|exact IH|].
  assert (Hw : wf c) by (eapply session_history; [done|]; apply session_paced; eauto).
  destruct (pending_costs _ _ _ _ Hl Hw Hen E) as (_ & Hle & Hor). case_decide; [lia|].
  destruct Hor as [?|?]; [done|lia].
Qed.

(** A session between exchanges, with no request queued: a response, and the
    whole of its body, for each request that was made, by the events of a
    history with exactly these calls of the user. *)
Definition all_answered c0 us c : Prop :=
  exists es xs, Protocol.history (abs SendReq c0) us es (abs SendReq c) /\ es = xs ≫= Protocol.trace_of /\
    Forall Protocol.whole xs /\ Protocol.x_handle <$> xs = Protocol.queued us.

Lemma idle_all_answered (io : R) c0 us c : fits io -> handshake io = Done c0 -> session c0 us c ->
  self c = SendReq -> queue_of (reqs (wld c)) = [] -> all_answered c0 us c.
Proof.
  intros Hfit Hsh Hs Hi Hq. destruct (session_tells io c0 us c Hfit Hsh Hs) as (Hw & es & Hes & _ & _ & Hr & _).
  rewrite Hi in Hes. rewrite Hq, app_nil_r in Hr.
  destruct (Protocol.history_exchanges _ _ _ _ Hes eq_refl) as (xs & Hf & Hx). simpl in Hx.
  exists es, xs. split_and!; try done. rewrite Hr, Hx. symmetry. apply (Client_talk.took_bind _ SendReq).
  eapply Forall_impl; [|exact Hf]. intros x ?. by left.
Qed.

(** C11. However the user's calls and the polls of the connection interleave,
    over a transport that stalls only so often, at most as many polls are held
    up by it.  Once they were, every poll that is [Pending] waits for the
    user: for more of a request body, for a response body to be read, or for a
    request; and then none is queued and each request that was made has its
    response with the whole of its body, in order, by the events of the
    session.  No request is left waiting by the library itself. *)
Theorem client_completes (io : R) c0 n us c : live R -> fits io -> handshake io = Done c0 -> paced c0 n us c ->
  (n + stalls_left c <= stalls io)%nat /\
  (n = stalls io -> forall fuel cx c', enough fuel c -> poll_client fuel cx c = Done (Pending, c') ->
    waits_for_user cx (self c') (wld c') /\ (self c' = SendReq -> all_answered c0 us c')).
Proof.
  intros Hl Hfit Hsh Hp. destruct (handshake_ok io Hfit) as (c0' & E0 & Hwf & _). rewrite Hsh in E0. injection E0 as <-.
  assert (Hio : stalls_left c0 = stalls io) by by apply handshake_stalls.
  pose proof (paced_stalls _ _ _ _ Hl Hwf Hp) as Hn. rewrite Hio in Hn. split; [done|].
  intros Heq fuel cx c' Hen E. assert (Hs : session c0 us c) by (apply session_paced; eauto).
  assert (Hw : wf c) by by eapply session_history.
  destruct (pending_costs _ _ _ _ Hl Hw Hen E) as (_ & _ & [Hu|Hlt]); [|lia].
  split; [done|]. intros Hi. apply (idle_all_answered io); [done..|by eapply session_poll|done|].
  rewrite Hi in Hu. by destruct Hu as [? _].
Qed.
End Sessions.

(** ** A concrete session *)

Module ProgressExample.
#[local] Existing Instance dev.
Import Plain ClientExample.

(** The transport stalls once, then the response arrives. *)
Definition answer_text : bytes := lines ["HTTP/1.1 200 OK"; "content-length: 5"] ++ bs "hello".
Definition late : Script.t := Script.mk (Script.RPending :: Script.data answer_text) [] [] [] 0.
Definition asks : client := ask (get_ []) (start late).
Definition held_up : client := turn asks.

Lemma script_live : live Script.t.
Proof. done. Qed.

Lemma fits_late : fits late.
Proof. by vm_compute. Qed.

Lemma asks_ok : wf asks.
Proof. apply ask_ok; [done|by eexists _, _|apply wf_start, fits_late]. Qed.

#[local] Instance out_fuel_dec (w : Channels.world Handle.t response) : Decision (out_fuel fuel w).
Proof.
  change (out_fuel fuel w) with (map_Forall (fun (_ : chan_id) ch => (length (queue_of ch) + 3 < fuel)%nat /\
    Forall (fun v => zlen v.1 < Z.of_nat fuel) (queue_of ch)) (outs w)). apply _.
Defined.
#[local] Instance progress_enough_dec (c : client) : Decision (enough fuel c).
Proof. unfold enough, io_room, world_fuel. apply _. Defined.

Lemma enough_asks : enough fuel asks /\ enough fuel held_up.
Proof. split; eapply bool_decide_unpack; by vm_compute. Qed.

Definition is_pending {A} (m : exec (poll (io_result A) * client)) : bool :=
  match m with Done (Pending, _) => true | _ => false end.

Lemma turn_pending c : is_pending (poll_client fuel 7%nat c) = true -> poll_client fuel 7%nat c = Done (Pending, turn c).
Proof. unfold turn, is_pending. by destruct (poll_client fuel 7%nat c) as [[[|v] c']| |]. Qed.

Lemma held_up_paced : paced (start late) 1 (asking (get_ []) (start late)) held_up.
Proof.
  assert (Hp : poll_client fuel 7%nat asks = Done (Pending, held_up)) by (apply turn_pending; by vm_compute).
  assert (Hu : user (wld (start late)) (wld asks)) by (apply ask_user; [done|by eexists _, _]).
  pose proof (paced_user _ _ _ _ _ (paced_start (start late)) Hu) as Hs.
  apply (paced_poll (start late) 0 (asking (get_ []) (start late)) asks fuel 7%nat held_up) in Hp; [|exact Hs|apply enough_asks].
  revert Hp. by vm_compute (decide _).
Qed.
End ProgressExample.

Lemma client_settles_witness :
  exists n, (n <= 1)%nat /\ settles (prof := dev) 7%nat n ProgressExample.asks.
Proof.
  destruct (client_settles (prof := dev) 7%nat ProgressExample.asks ProgressExample.script_live ProgressExample.asks_ok)
    as (n & Hn & Hs). exists n. split; [|exact Hs]. etransitivity; [exact Hn|]. apply Nat.leb_le. vm_compute. reflexivity.
Defined.

Lemma client_completes_witness :
  let c' := ClientExample.turn ProgressExample.held_up in
  waits_for_user 7%nat (self c') (wld c') /\
  all_answered (ClientExample.start ProgressExample.late)
    (ClientExample.asking (ClientExample.get_ []) (ClientExample.start ProgressExample.late)) c'.
Proof.
  destruct (client_completes (prof := dev) _ _ _ _ _ ProgressExample.script_live ProgressExample.fits_late
    (ClientExample.start_ok _) ProgressExample.held_up_paced) as [_ Hc].
  destruct (Hc eq_refl _ _ _ (proj2 ProgressExample.enough_asks)
    (ProgressExample.turn_pending ProgressExample.held_up ltac:(vm_compute; reflexivity))) as [Hw Ha].
  split; [exact Hw|]. apply Ha. vm_compute. reflexivity.
Defined.
