(* ===== verification/Client_drop.v ===== *)
(** * Dropping a client connection

    The task that polls the connection may go away at any time, with requests
    queued or a response outstanding.  Every handle the connection holds is
    then dropped, and with it the senders of the responses: [fades] is what
    these drops do to the channels of responses, [told] where they leave one
    that is waited for.  The body of a response loses its sender too, and
    reads as ended even when the connection has failed
    ([truncated_body_ends_cleanly]). *)

From S2P Require Import Prelude.
From S2P Require Import Async.
From S2P Require Import Fast_buf.
From S2P Require Import Transport.
From S2P Require Import Buf_reader.
From S2P Require Import Http_api.
From S2P Require Import Error.
From S2P Require Import Limit.
From S2P Require Import Http11.
From S2P Require Import Mpsc.
From S2P Require Import Share.
From S2P Require Import Channels.
From S2P Require Import Codec.
From S2P Require Import Client.
From S2P Require Import Client_spec.
From S2P Require Import Client_proofs.
From S2P Require Import Client_session.

Section Fades.
Context `{Http}.
Implicit Types (w : world) (ch : Mpsc.t response).

(** A channel only loses senders, and nobody who waits is forgotten. *)
Definition faded (ch ch' : Mpsc.t response) (l : list waker) : Prop :=
  queue_of ch' = queue_of ch /\ Mpsc.receivers ch' = Mpsc.receivers ch /\
  (Mpsc.senders ch' <= Mpsc.senders ch)%nat /\
  forall k, k ∈ wakers_of ch -> k ∈ wakers_of ch' \/ k ∈ l.

Lemma faded_same ch l : faded ch ch l.
Proof. split_and!; auto. Qed.

Record fades w w' : Prop := {
  fd_res : forall id ch, ress w !! id = Some ch -> exists ch', ress w' !! id = Some ch' /\ faded ch ch' (woken w');
  fd_woken : forall k, k ∈ woken w -> k ∈ woken w';
}.

#[export] Instance fades_preorder : PreOrder fades.
Proof.
  split.
  - intros w. split; [|done]. intros id ch Hch. exists ch. split; [done|apply faded_same].
  - intros w1 w2 w3 [A1 A2] [B1 B2]. split; [|auto]. intros id ch Hch.
    destruct (A1 id ch Hch) as (c2 & Hc2 & Q2 & R2 & S2 & K2). destruct (B1 id c2 Hc2) as (c3 & Hc3 & Q3 & R3 & S3 & K3).
    exists c3. unfold faded. split_and!; [done|congruence|congruence|lia|]. intros k Hk. destruct (K2 k Hk) as [?|?]; auto.
Qed.

(** A channel of another kind. *)
Lemma fades_elsewhere w w' l : ress w' = ress w -> woken w' = woken w ++ l -> fades w w'.
Proof.
  intros Hr Hl. split; [|by intros k Hk; rewrite Hl, elem_of_app; left].
  intros id ch Hch. rewrite Hr. exists ch. split; [done|apply faded_same].
Qed.

(** A drop: it never waits or fails. *)
Definition fading (m : io world unit) : Prop :=
  forall w r w', m w = Done (r, w') -> r = Ready (Ok tt) /\ fades w w' /\ reqs w' = reqs w.

Lemma fading_ret : fading (mret tt).
Proof. by intros w r w' [= <- <-]. Qed.

Lemma fading_bind m m' : fading m -> fading m' -> fading (m;; m').
Proof.
  intros Hm Hm' w r w' (r1 & w1 & (-> & F1 & Q1)%Hm & (-> & F2 & Q2)%Hm')%bind_done.
  split; [done|]. split; [by etransitivity|congruence].
Qed.

Lemma drop_rx_out_fading id : fading (drop_rx_chan out_chans id).
Proof.
  intros w r w'. unfold drop_rx_chan, on_chan. simpl. destruct (outs w !! id) as [c|]; [|done].
  destruct (Mpsc.drop_receiver c) as [c' l]. intros [= <- <-]. split; [done|]. split; [by eapply fades_elsewhere|done].
Qed.

Lemma drop_tx_in_fading id : fading (drop_tx_chan in_chans id).
Proof.
  intros w r w'. unfold drop_tx_chan, on_chan. simpl. destruct (ins w !! id) as [c|]; [|done].
  destruct (Mpsc.drop_sender c) as [c' l]. intros [= <- <-]. split; [done|]. split; [by eapply fades_elsewhere|done].
Qed.

Lemma drop_rx_reqs_fades : keeps fades drop_rx_reqs.
Proof. intros w r w' [= _ <-]. by eapply fades_elsewhere. Qed.

(** The sender of a response. *)
Lemma drop_sender_fades ch ch' l : Mpsc.drop_sender ch = (ch', l) ->
  faded ch ch' l /\ Mpsc.senders ch' = pred (Mpsc.senders ch) /\
  (Mpsc.receivers ch <> 0%nat -> forall k, k ∈ wakers_of ch -> k ∈ l).
Proof.
  unfold Mpsc.drop_sender, Mpsc.drop_sender_body, Mpsc.upgrade. destruct (decide _) as [Hz|Hz]; intros [= <- <-];
    (split; [split_and!; simpl; auto; lia|]); by split.
Qed.

Lemma drop_tx_res_inv id w r w' : drop_tx_chan res_chans id w = Done (r, w') ->
  r = Ready (Ok tt) /\ exists ch ch' l, ress w !! id = Some ch /\ Mpsc.drop_sender ch = (ch', l) /\
    ress w' = <[id := ch']> (ress w) /\ woken w' = woken w ++ l /\ reqs w' = reqs w.
Proof.
  unfold drop_tx_chan, on_chan. simpl. destruct (ress w !! id) as [ch|]; [|done].
  destruct (Mpsc.drop_sender ch) as [ch' l] eqn:E. intros [= <- <-]. split; [done|]. by exists ch, ch', l.
Qed.

Lemma drop_tx_res_fading id : fading (drop_tx_chan res_chans id).
Proof.
  intros w r w' (-> & ch & ch' & l & Hch & (Hf & _)%drop_sender_fades & Hr & Hw & Hq)%drop_tx_res_inv. split; [done|]. split; [|done].
  split; [|by intros k Hk; rewrite Hw, elem_of_app; left]. intros j cj Hj. rewrite Hr, Hw.
  destruct (decide (id = j)) as [<-|Hne].
  - rewrite lookup_insert_eq. exists ch'. split; [done|]. rewrite Hch in Hj. injection Hj as <-.
    destruct Hf as (? & ? & ? & Hk). split_and!; try done. intros k [?|?]%Hk; [by left|right].
    by apply elem_of_app; right.
  - rewrite lookup_insert_ne by done. exists cj. split; [done|apply faded_same].
Qed.

Lemma fading_opt drop o : (forall id, fading (drop id)) -> fading (drop_opt drop o).
Proof. intros Hd. destruct o; simpl; [apply Hd|apply fading_ret]. Qed.

Lemma fading_each {B} (drop : B -> io world unit) l : (forall x, fading (drop x)) -> fading (drop_each drop l).
Proof. intros Hd. induction l; simpl; [apply fading_ret|by apply fading_bind]. Qed.

Lemma drop_handle_fading h : fading (drop_handle h).
Proof. apply fading_bind; apply fading_opt; [apply drop_rx_out_fading|apply drop_tx_res_fading]. Qed.

Lemma drop_state_fading s : fading (drop_state s).
Proof.
  destruct s; simpl; [apply fading_ret| |apply drop_tx_in_fading].
  apply fading_bind; [apply drop_handle_fading|apply fading_opt, drop_tx_in_fading].
Qed.

(** *** Who is told *)

(** Of a channel that was [ch] at first: its senders are gone, and all who
    waited are woken. *)
Definition told id ch w : Prop := exists ch', ress w !! id = Some ch' /\ queue_of ch' = queue_of ch /\
  Mpsc.senders ch' = 0%nat /\ forall k, k ∈ wakers_of ch -> k ∈ woken w.

Lemma told_fades id ch w w' : told id ch w -> fades w w' -> told id ch w'.
Proof.
  intros (c1 & Hc1 & Hq & Hs & Hk) [F1 F2]. destruct (F1 id c1 Hc1) as (c2 & Hc2 & Hq2 & _ & Hs2 & _).
  exists c2. split_and!; [done|congruence|lia|auto].
Qed.

(** One that waits gets the end of the channel. *)
Lemma told_ends id ch w cx : told id ch w -> queue_of ch = [] ->
  exists w', poll_recv_chan res_chans id cx true w = Done (Ready (Ok None), w').
Proof.
  intros (ch' & Hch & Hq & Hs & _) Hn. unfold poll_recv_chan, on_chan. simpl. rewrite Hch.
  unfold Mpsc.poll_recv, Inner.poll_dequeue. unfold queue_of in *. rewrite Hq, Hn. simpl. rewrite Hs. by eexists.
Qed.

(** The handles are dropped after [w0], in which the channel was [ch]. *)
Section Waiting.
Context (id : chan_id) (ch : Mpsc.t response) (w0 : world).
Context (Hch : ress w0 !! id = Some ch) (Hs : Mpsc.senders ch = 1%nat) (Hr : Mpsc.receivers ch <> 0%nat).

Lemma told_by_sender w r w' : fades w0 w -> drop_tx_chan res_chans id w = Done (r, w') -> told id ch w'.
Proof.
  intros [F1 F2] (_ & c1 & c2 & l & Hc1 & (Hf & Hsn & Hk)%drop_sender_fades & Hres & Hw & _)%drop_tx_res_inv.
  destruct (F1 id ch Hch) as (c & Hc & Hq & Hrc & Hsc & Hkc). rewrite Hc in Hc1. injection Hc1 as ->.
  exists c2. rewrite Hres, Hw, lookup_insert_eq. split; [done|]. split; [by rewrite (proj1 Hf)|]. split; [lia|].
  intros k [?|?]%Hkc; apply elem_of_app; [right|by left]. apply Hk; congruence.
Qed.

Lemma told_by_handle h w r w' : fades w0 w -> Handle.res_tx h = Some id ->
  drop_handle h w = Done (r, w') -> told id ch w'.
Proof.
  intros F Hh E. unfold drop_handle in E. rewrite Hh in E.
  apply bind_done in E as (r1 & w1 & (-> & F1 & _)%(fading_opt _ _ drop_rx_out_fading) & E).
  eapply told_by_sender; [|exact E]. by etransitivity.
Qed.

Lemma told_by_queue hs w r w' h : fades w0 w -> h ∈ hs -> Handle.res_tx h = Some id ->
  drop_each drop_handle hs w = Done (r, w') -> told id ch w'.
Proof.
  intros F Hin Hh. revert w F. induction hs as [|h' hs IH]; [by apply not_elem_of_nil in Hin|]. intros w F E. simpl in E.
  apply bind_done in E as (r1 & w1 & E1 & E). destruct (drop_handle_fading _ _ _ _ E1) as (-> & F1 & _).
  apply elem_of_cons in Hin as [->|Hin]; [|apply (IH Hin w1); [by etransitivity|done]].
  eapply told_fades; [by eapply told_by_handle|by eapply (fading_each _ _ drop_handle_fading)].
Qed.
End Waiting.

(** *** That the drops go through *)

Definition goes (m : io world unit) w : Prop := exists w', m w = Done (Ready (Ok tt), w') /\ grows w w'.

Lemma goes_wp m w : wp m w (fun r w' => (exists a, r = Ready (Ok a)) /\ grows w w') -> goes m w.
Proof.
  unfold wp. intros Hm. apply ewp_done in Hm as ([r w'] & E & Hm). simpl in Hm.
  destruct Hm as (([] & ->) & G). by exists w'.
Qed.

Lemma goes_moves (f : world -> world) m w : wp m w (moves f w) -> goes m w.
Proof. intros Hm. apply goes_wp. eapply wp_mono; [done|]. by intros r w' [? [_ ?]]. Qed.

Lemma goes_ret w : goes (mret tt) w.
Proof. by exists w. Qed.

Lemma goes_bind m m' w : goes m w -> (forall w', grows w w' -> goes m' w') -> goes (m;; m') w.
Proof.
  intros (w1 & E & G) Hm'. destruct (Hm' w1 G) as (w2 & E2 & G2). exists w2.
  split; [by rewrite (run_bind _ _ _ _ _ E)|by etransitivity].
Qed.

Lemma drop_state_goes w s : phase_ok w s -> goes (drop_state s) w.
Proof.
  destruct s as [|b|r]; simpl; [intros _; apply goes_ret| |].
  - intros [Hh Ho]. apply goes_bind; [by apply goes_wp, drop_handle_wp|]. intros w' G.
    destruct (Bidirect.holder b) as [[id l]|]; simpl; [|apply goes_ret].
    destruct Ho as (_ & Hi & _). by eapply goes_moves, drop_tx_in_wp, (g_in _ _ G).
  - intros [Hi _]. by eapply goes_moves, drop_tx_in_wp.
Qed.

Lemma drop_queue_goes hs w : Forall (handle_ok w) hs -> goes (drop_each drop_handle hs) w.
Proof.
  revert w. induction hs as [|h hs IH]; intros w Hok; simpl; [apply goes_ret|].
  inversion Hok as [|? ? Hh Hok']; subst. apply goes_bind; [by apply goes_wp, drop_handle_wp|].
  intros w' G. apply IH. revert Hok'. apply Forall_impl. intros h'. by apply handle_ok_grows.
Qed.
End Fades.

(** ** What is promised *)

Section Promises.
Context {prof : Profile} `{Http} `{Httparse} {R : Type} `{DuplexSpec R}.
Implicit Types (c : conn R State).

(** The drop of a connection, in its three parts. *)
Lemma drop_connection_parts c : wf c -> exists w1 w2 w3, drop_connection c = Done (Ready (Ok tt), set_wld w3 c) /\
  drop_state (self c) (wld c) = Done (Ready (Ok tt), w1) /\
  drop_each drop_handle (queue_of (reqs (wld c))) w1 = Done (Ready (Ok tt), w2) /\
  drop_rx_reqs w2 = Done (Ready (Ok tt), w3).
Proof.
  intros (_ & [Hr _] & Hp). destruct (drop_state_goes _ _ Hp) as (w1 & E1 & G1).
  destruct (drop_state_fading _ _ _ _ E1) as (_ & _ & Q1).
  assert (Hr1 : Forall (handle_ok w1) (queue_of (reqs w1))).
  { rewrite Q1. revert Hr. apply Forall_impl. intros h. by apply handle_ok_grows. }
  destruct (drop_queue_goes _ _ Hr1) as (w2 & E2 & _). pose proof E2 as E2'. rewrite Q1 in E2'.
  exists w1, w2, (on_reqs (fun q => let '(q', l) := Mpsc.drop_receiver q in (tt, q', l)) w2).2.
  split_and!; [|done..]. unfold drop_connection.
  etransitivity; [by apply (run_bind _ _ _ (self c) c); destruct c|].
  etransitivity; [apply (run_bind _ _ _ tt (set_wld w1 c)), run_zoom, E1|].
  etransitivity; [by apply (run_bind _ _ _ (set_wld w1 c) (set_wld w1 c))|].
  etransitivity; [apply (run_bind _ _ _ tt (set_wld w2 (set_wld w1 c))), run_zoom, E2|]. done.
Qed.

(** The requests that have not been answered: the one under way, if its
    response was not given, and those queued. *)
Definition unanswered c : list Handle.t :=
  match self c with RecvRes b => [Bidirect.handle b] | _ => [] end ++ queue_of (reqs (wld c)).

Lemma drop_connection_tells c h id ch : wf c -> h ∈ unanswered c -> Handle.res_tx h = Some id ->
  ress (wld c) !! id = Some ch -> Mpsc.senders ch = 1%nat -> Mpsc.receivers ch <> 0%nat ->
  exists c', drop_connection c = Done (Ready (Ok tt), c') /\ told id ch (wld c').
Proof.
  intros Hwf Hin Hh Hch Hs Hr. destruct (drop_connection_parts c Hwf) as (w1 & w2 & w3 & E & E1 & E2 & E3).
  exists (set_wld w3 c). split; [done|]. apply (told_fades _ _ w2); [|by eapply drop_rx_reqs_fades].
  destruct (drop_state_fading _ _ _ _ E1) as (_ & F1 & _). destruct (fading_each _ _ drop_handle_fading _ _ _ E2) as (_ & F2 & _).
  unfold unanswered in Hin. apply elem_of_app in Hin as [Hin|Hin]; [|by eapply told_by_queue].
  destruct (self c) as [|b|r]; [by apply not_elem_of_nil in Hin| |by apply not_elem_of_nil in Hin].
  apply list_elem_of_singleton in Hin as ->. simpl in E1. apply bind_done in E1 as (r & w' & Eh & E1).
  destruct (drop_handle_fading _ _ _ _ Eh) as (-> & F & _). eapply told_fades; [|exact F2].
  eapply told_fades; [by apply (told_by_handle _ _ _ Hch Hs Hr _ _ _ _ (reflexivity _) Hh Eh)|].
  by eapply (fading_opt _ _ drop_tx_in_fading) in E1 as (_ & ? & _).
Qed.

(** C30. Dropping a client connection, in whatever state it is and with
    whatever requests are queued, goes through and leaves nobody waiting:
    for every request that was not answered, all tasks that wait for its
    response are woken, and the next poll of the [ResponseFuture] reports
    that the connection is closed; and the connection's end of the channel of
    requests is gone, so that every later [send_request] is refused. *)
Theorem dropped_connection_tells_all c : wf c ->
  exists c', drop_connection c = Done (Ready (Ok tt), c') /\
    Mpsc.receivers (reqs (wld c')) = pred (Mpsc.receivers (reqs (wld c))) /\
    forall h id ch, h ∈ unanswered c -> Handle.res_tx h = Some id -> ress (wld c) !! id = Some ch ->
      Mpsc.senders ch = 1%nat -> Mpsc.receivers ch <> 0%nat -> queue_of ch = [] ->
      (forall task, task ∈ wakers_of ch -> task ∈ woken (wld c')) /\
      forall cx, exists w, ResponseFuture.poll cx id (wld c') =
        Done (Ready (Error.err_closed "Response failed, connection is closed"), w).
Proof.
  intros Hwf. destruct (drop_connection_parts c Hwf) as (w1 & w2 & w3 & E & E1 & E2 & E3).
  exists (set_wld w3 c). split; [done|]. split.
  - destruct (drop_state_fading _ _ _ _ E1) as (_ & _ & Q1).
    destruct (fading_each _ _ drop_handle_fading _ _ _ E2) as (_ & _ & Q2). injection E3 as <-.
    cbn [wld set_wld]. unfold on_reqs. rewrite Q2, Q1. by destruct (reqs (wld c)).
  - intros h id ch Hin Hh Hch Hs Hr Hq. destruct (drop_connection_tells c h id ch) as (c' & E' & Ht); [done..|].
    rewrite E in E'. injection E' as <-. split; [by destruct Ht as (? & _ & _ & _ & ?)|].
    intros cx. destruct (told_ends _ _ _ cx Ht Hq) as (w & Ep). exists w.
    unfold ResponseFuture.poll, mbind, api_bind, api_io.
    lazymatch goal with |- context [poll_recv_chan ?L ?i ?k ?b ?x] =>
      assert (poll_recv_chan L i k b x = Done (Ready (Ok None), w)) as -> by exact Ep end. done.
Qed.

(** *** The body of a response *)

(** Handles have no channel of a response body. *)
Definition same_ins (w w' : world) : Prop := ins w' = ins w.

#[local] Instance same_ins_preorder : PreOrder same_ins.
Proof. split; unfold same_ins; [done|]. intros a b d; congruence. Qed.

Lemma drop_rx_out_ins id : keeps same_ins (drop_rx_chan out_chans id).
Proof.
  intros w r w'. unfold drop_rx_chan, on_chan. simpl. destruct (outs w !! id) as [ch|]; [|done].
  destruct (Mpsc.drop_receiver ch). by intros [= _ <-].
Qed.
Lemma drop_tx_res_ins id : keeps same_ins (drop_tx_chan res_chans id).
Proof.
  intros w r w'. unfold drop_tx_chan, on_chan. simpl. destruct (ress w !! id) as [ch|]; [|done].
  destruct (Mpsc.drop_sender ch). by intros [= _ <-].
Qed.
#[local] Hint Resolve drop_rx_out_ins drop_tx_res_ins : keeps.

Lemma drop_handle_ins h : keeps same_ins (drop_handle h).
Proof. unfold drop_handle, drop_opt. keeps_tac. Qed.

Lemma drop_handles_ins hs : keeps same_ins (drop_each drop_handle hs).
Proof. induction hs; simpl; [by apply keeps_ret; exact _|]. apply keeps_bind; [exact _|apply drop_handle_ins|done]. Qed.

(** The body of a response that was delivered loses its sender. *)
Lemma drop_state_body b id l (w w' : world) r ch : Bidirect.holder b = Some (id, l) -> ins w !! id = Some ch ->
  drop_state (RecvRes b) w = Done (r, w') -> exists ch', ins w' !! id = Some ch' /\ still ch' = close_tx (still ch).
Proof.
  intros Hh Hch E. cbn [drop_state] in E. apply bind_done in E as (r1 & w1 & E1 & E).
  pose proof (drop_handle_ins _ _ _ _ E1 : ins w1 = ins w) as Hi. apply drop_handle_fading in E1 as (-> & _).
  rewrite Hh in E. cbn [fst fmap option_fmap option_map drop_opt] in E. unfold drop_tx_chan, on_chan in E. simpl in E.
  rewrite Hi, Hch in E. destruct (Mpsc.drop_sender ch) as [ch' lw] eqn:Ed. injection E as _ <-.
  exists ch'. split; [apply lookup_insert_eq|by eapply still_drop_sender].
Qed.

Lemma drop_connection_body c c' r b id l ch : self c = RecvRes b -> Bidirect.holder b = Some (id, l) ->
  ins (wld c) !! id = Some ch -> drop_connection c = Done (r, c') ->
  exists ch', ins (wld c') !! id = Some ch' /\ still ch' = close_tx (still ch).
Proof.
  intros Hs Hh Hch E. unfold drop_connection in E.
  apply bind_done in E as (r0 & c0 & E0 & E). injection E0 as <- <-.
  apply bind_done in E as (r1 & c1 & E1 & E). unfold on_world, zoom in E1. rewrite Hs in E1. cbn [wld set_self] in E1.
  destruct (drop_state (RecvRes b) (wld c)) as [[r1' w1]| |] eqn:Ed; [|done..]. injection E1 as <- <-.
  destruct (drop_state_body _ _ _ _ _ _ _ Hh Hch Ed) as (ch' & Hch' & Hst). apply drop_state_fading in Ed as (-> & _).
  exists ch'. split; [|done]. apply bind_done in E as (r2 & c2 & E2 & E). injection E2 as <- <-.
  apply bind_done in E as (r3 & c3 & E3 & E). unfold on_world, zoom in E3. cbn [wld set_wld] in E3.
  destruct (drop_each drop_handle _ w1) as [[r3' w3]| |] eqn:Eh; [|done..]. injection E3 as <- <-.
  pose proof (drop_handles_ins _ _ _ _ Eh : ins w3 = ins w1) as Hi.
  apply (fading_each _ _ drop_handle_fading) in Eh as (-> & _).
  injection E as _ <-. cbn [wld set_wld ins]. by rewrite Hi.
Qed.

(** A body whose sender is gone and whose channel is empty reads as ended. *)
Lemma empty_body_ends fuel cx n recv (w : world) ch : RecvStream.ended recv = false -> RecvStream.ready recv = None ->
  ins w !! RecvStream.rx_body recv = Some ch -> queue_of ch = [] -> Mpsc.senders ch = 0%nat ->
  exists w', RecvStream.poll_body_data (S fuel) cx n (recv, w) = Done (Ready (Ok []), (RecvStream.set_ended true recv, w')).
Proof.
  intros He Hr Hch Hq Hs.
  assert (Ep : exists w', poll_recv_chan in_chans (RecvStream.rx_body recv) cx true w = Done (Ready (Ok None), w')).
  { unfold poll_recv_chan, on_chan. simpl. rewrite Hch. unfold Mpsc.poll_recv, Inner.poll_dequeue. unfold queue_of in Hq.
    rewrite Hq. simpl. rewrite Hs. by eexists. }
  destruct Ep as (w' & Ep). exists w'. unfold RecvStream.poll_body_data.
  etransitivity; [by apply (run_bind _ _ _ recv (recv, w))|]. rewrite He. cbn [iter].
  etransitivity; [apply (run_bind _ _ _ (inr []) (RecvStream.set_ended true recv, w'))|done]. unfold RecvStream.body_data_turn.
  etransitivity; [by apply (run_bind _ _ _ recv (recv, w))|]. rewrite Hr.
  etransitivity; [apply (run_bind _ _ _ None (recv, w')); unfold on_snd, zoom; cbn [snd]; by rewrite Ep|]. done.
Qed.

(** C37. An error between the head of a response and the end of its request
    body is not forwarded to the response body.  When the connection fails in
    that phase, with the response delivered and its body announced, no channel
    is told of the error; and once the connection is dropped, as a connection
    that failed is, the [RecvStream] of the body reports a clean end, whatever
    was still to come of the body. *)
Theorem truncated_body_ends_cleanly fuel cx c e c1 b id limit ch :
  drive fuel cx c = Done (Ready (Err e), c1) -> self c1 = RecvRes b -> Handle.res_tx (Bidirect.handle b) = None ->
  Bidirect.holder b = Some (id, limit) -> ins (wld c1) !! id = Some ch -> queue_of ch = [] -> Mpsc.senders ch = 1%nat ->
  poll_client fuel cx c = Done (Ready (Err e), c1) /\
  forall r c2, drop_connection c1 = Done (r, c2) ->
    forall fuel' cx' n recv, RecvStream.rx_body recv = id -> RecvStream.ended recv = false -> RecvStream.ready recv = None ->
      exists w, RecvStream.poll_body_data (S fuel') cx' n (recv, wld c2) =
        Done (Ready (Ok []), (RecvStream.set_ended true recv, w)).
Proof.
  intros E Hs Hres Hh Hch Hq Hsn. split.
  - unfold poll_client. etransitivity; [apply (run_bind _ _ _ (Ready (Err e)) c1), run_raw, E|].
    etransitivity; [apply (run_bind _ _ _ e c1)|done]. unfold try_forward_error.
    etransitivity; [by apply (run_bind _ _ _ (self c1) c1); destruct c1|]. by rewrite Hs, Hres.
  - intros r c2 Ed fuel' cx' n recv <- He Hr.
    destruct (drop_connection_body _ _ _ _ _ _ _ Hs Hh Hch Ed) as (ch' & Hch' & Hst).
    apply (empty_body_ends fuel' cx' n recv (wld c2) ch' He Hr Hch').
    + change (queue_of (still ch') = []). by rewrite Hst.
    + change (Mpsc.senders (still ch') = 0%nat). rewrite Hst. simpl. by rewrite Hsn.
Qed.
End Promises.

(** A request is still queued when the connection is dropped. *)
Lemma dropped_connection_tells_all_witness :
  exists c, drop_connection ClientExample.asked = Done (Ready (Ok tt), c) /\
    forall cx, exists w, ResponseFuture.poll cx 0%nat (wld c) =
      Done (Ready (Error.err_closed "Response failed, connection is closed"), w).
Proof.
  destruct (dropped_connection_tells_all (R := Script.t) ClientExample.asked ClientExample.asked_ok) as (c & E & _ & Hw).
  exists c. split; [exact E|].
  assert (Hh : exists h ch, h ∈ unanswered ClientExample.asked /\ Handle.res_tx h = Some 0%nat /\
    ress (wld ClientExample.asked) !! 0%nat = Some ch /\ Mpsc.senders ch = 1%nat /\ Mpsc.receivers ch <> 0%nat /\ queue_of ch = []).
  { eexists _, _. split; [apply list_elem_of_here|]. by vm_compute. }
  destruct Hh as (h & ch & Hin & Hid & Hch & Hs & Hr & Hq). apply (Hw h 0%nat ch Hin Hid Hch Hs Hr Hq).
Defined.

(** The SendStream of a request is dropped when its response has arrived, and
    two of the five bytes of its body. *)
Module LateError.
#[local] Existing Instance dev.
Import ClientExample.

Definition failure_of (c : client) : io_error * client :=
  match drive fuel 7%nat c with Done (Ready (Err e), c') => (e, c') | _ => (reset, c) end.
Definition late : io_error * client := failure_of dropped.
Definition phase_of (c : client) : Bidirect.t :=
  match self c with RecvRes b => b | _ => Bidirect.mk _ (Handle.mk _ post None None) false None end.
Definition body_limit : LimitRead.t :=
  match Bidirect.holder (phase_of late.2) with Some (_, l) => l | None => LimitRead.NoBody end.

Lemma late_ok : drive fuel 7%nat dropped = Done (Ready (Err late.1), late.2).
Proof.
  assert (Hf : match drive fuel 7%nat dropped with Done (Ready (Err _), _) => true | _ => false end = true) by by vm_compute.
  unfold late, failure_of. by destruct (drive fuel 7%nat dropped) as [[[|[v|e]] c]| |].
Qed.
End LateError.

Lemma truncated_body_ends_cleanly_witness :
  LateError.late.1 = stream_dropped /\ LimitRead.is_complete LateError.body_limit = false /\
  poll_client (prof := dev) ClientExample.fuel 7%nat ClientExample.dropped = Done (Ready (Err LateError.late.1), LateError.late.2) /\
  exists c2 w, drop_connection LateError.late.2 = Done (Ready (Ok tt), c2) /\
    RecvStream.poll_body_data (prof := dev) 5 8%nat 100 (RecvStream.new 0%nat false false, wld c2) =
      Done (Ready (Ok []), (RecvStream.set_ended true (RecvStream.new 0%nat false false), w)).
Proof.
  split; [by vm_compute|]. split; [by vm_compute|].
  assert (Hch : match ins (wld LateError.late.2) !! 0%nat with
    | Some ch => bool_decide (queue_of ch = []) && bool_decide (Mpsc.senders ch = 1%nat) | None => false end = true) by by vm_compute.
  destruct (ins (wld LateError.late.2) !! 0%nat) as [ch|] eqn:E; [|discriminate Hch].
  apply andb_prop in Hch as [Hq%bool_decide_eq_true Hs%bool_decide_eq_true].
  destruct (truncated_body_ends_cleanly (prof := dev) ClientExample.fuel 7%nat ClientExample.dropped LateError.late.1
    LateError.late.2 (LateError.phase_of LateError.late.2) 0%nat LateError.body_limit ch LateError.late_ok) as [Hp Hd];
    [by vm_compute|by vm_compute|by vm_compute|exact E|exact Hq|exact Hs|].
  split; [exact Hp|].
  assert (Hr : match drop_connection LateError.late.2 with Done (Ready (Ok _), _) => true | _ => false end = true) by by vm_compute.
  destruct (drop_connection LateError.late.2) as [[[|[[]|e]] c2]| |] eqn:Ed; try discriminate Hr.
  destruct (Hd _ c2 eq_refl 4%nat 8%nat 100 (RecvStream.new 0%nat false false)) as (w & Ew); [reflexivity..|].
  exists c2, w. split; [reflexivity|exact Ew].
Defined.
