(* ===== verification/Server.v ===== *)
(** * The server connection (src/server.rs)

    The codec sits behind a mutex that the [Connection] and the handles of a
    request share; each of them drives it.  A handle holds the connection
    through a [SyncDriveExternal]: an [Arc] and a sender of the channel the
    [Connection] waits on, always together, so that the number of holders is
    the number of that channel's senders ([reqs]; nothing is ever sent on
    it).  The lock is held during one poll, so that a poll is one step. *)

From S2P Require Import Prelude.
From S2P Require Import Async.
From S2P Require Import Fast_buf.
From S2P Require Import Transport.
From S2P Require Import Buf_reader.
From S2P Require Import Http_api.
From S2P Require Import Error.
From S2P Require Import Limit.
From S2P Require Import Http11.
From S2P Require Import Mpsc.
From S2P Require Import Share.
From S2P Require Import Channels.
From S2P Require Import Codec.

Definition MAX_RESPONSE_SIZE : Z := 8192.
Definition MAX_BODY_READ_SIZE : Z := 8 * 1024 * 1024.

(** What a [SendResponse] sends: the response, whether it has no body, and
    the receiver of its body. *)
Definition answer `{Http} : Type := Response * bool * chan_id.

Abbreviation world := (Channels.world unit answer).
Abbreviation conn := (Codec.conn world).

(** The channels of a connection, for the handles that drive it. *)
#[export] Instance conn_world {W R Self} `{World W} : World (Codec.conn W R Self) := {|
  out_chans := {| view c := view out_chans (wld c); put x c := set_wld (put out_chans x (wld c)) c |};
  in_chans := {| view c := view in_chans (wld c); put x c := set_wld (put in_chans x (wld c)) c |};
  wake l c := set_wld (wake l (wld c)) c;
|}.

(** ** Holding and dropping *)

Section Holds.
Context `{Http}.
Implicit Types (w : world).

(** [SyncDriveExternal]: clone, drop, and how many there are. *)
Definition clone_drive : io world unit := fun w =>
  Done (Ready (Ok tt), (on_reqs (fun c => (tt, Mpsc.clone_sender c, [])) w).2).
Definition drop_drive : io world unit := fun w =>
  Done (Ready (Ok tt), (on_reqs (fun c => let '(c', l) := Mpsc.drop_sender c in (tt, c', l)) w).2).
Definition count_external w : nat := Mpsc.senders (reqs w).

Definition poll_pending_external (cx : waker) : io world unit :=
  w ← get;
  if decide (count_external w = 1%nat) then mret tt
  else
    poll_recv_req cx;;
    lift (Panic (PAssert "unreachable")).

(** Dropping the receiver of a response drops one that is still in it. *)
Definition drop_answer (a : answer) : io world unit := drop_rx_chan out_chans a.2.

Definition drop_rx_res (id : chan_id) : io world unit :=
  w ← get;
  match ress w !! id with
  | Some c => drop_each drop_answer (Inner.queue (Mpsc.inner c))
  | None => mret tt
  end;;
  drop_rx_chan res_chans id.
End Holds.

(** ** The state machine *)

Module Bidirect.
(** Receiving a request body while waiting for a response, or sending it. *)
Record t := mk {
  limit : LimitRead.t;
  request_allows_reuse : bool;
  tx_body : option chan_id;
  rx_res : option chan_id;
  holder : option (bool * LimitWrite.t * chan_id);
  cur_read_size : Z;
}.
Definition set_limit l (b : t) : t :=
  mk l (request_allows_reuse b) (tx_body b) (rx_res b) (holder b) (cur_read_size b).
Definition set_tx_body x (b : t) : t :=
  mk (limit b) (request_allows_reuse b) x (rx_res b) (holder b) (cur_read_size b).
Definition set_rx_res x (b : t) : t :=
  mk (limit b) (request_allows_reuse b) (tx_body b) x (holder b) (cur_read_size b).
Definition set_holder x (b : t) : t :=
  mk (limit b) (request_allows_reuse b) (tx_body b) (rx_res b) x (cur_read_size b).
End Bidirect.

Module BodySender.
Record t := mk { request_allows_reuse : bool; rx_body : chan_id }.
End BodySender.

Inductive State :=
  | RecvReq
  | SendRes (h : Bidirect.t)
  | SendBody (h : BodySender.t)
  | Closed.

Module SendResponse.
Record t := mk { tx_res : chan_id; req_expects_no_body : bool }.
End SendResponse.

(** What [accept] gives the user. *)
Definition package `{Http} : Type := Request * RecvStream.t * SendResponse.t.

Section Connection.
Context {prof : Profile} `{Http} `{Httparse} {R : Type} `{AsyncRead R, AsyncWrite R}.

(** *** [RecvReq] *)

Definition no_request : io_error := io_error_new InvalidData [Lit "Failed to parse request"].

Definition bidirect_of (req : Request) (body res : chan_id) : Bidirect.t :=
  let limit := LimitRead.from_headers (req_headers req) false in
  Bidirect.mk limit (allow_reuse (req_headers req) (req_version req))
    (if LimitRead.is_no_body limit then None else Some body) (Some res) None
    (default 8192 (LimitRead.body_size limit) `min` MAX_BODY_READ_SIZE).

Definition package_of (req : Request) (body res : chan_id) : package :=
  (req, RecvStream.new body (LimitRead.is_no_body (LimitRead.from_headers (req_headers req) false)) true,
   SendResponse.mk res (method_eqb (req_method req) HEAD)).

Definition poll_next_req (fuel : nat) : io (conn R unit) (option package * State) :=
  r ← raw (on_bio (poll_for_crlfcrlf fuel try_parse_req));
  match r with
  | Pending => io_pending
  | Ready r =>
      match (match r with Ok v => v | Err e => Err e end) with
      | Err e => if is_closed_kind (err_kind e) then mret (None, Closed) else io_err e
      | Ok None => io_err no_request
      | Ok (Some req) =>
          body ← on_world (new_chan in_chans 1);
          res ← on_world (new_chan res_chans 1);
          on_world clone_drive;;
          (if LimitRead.is_no_body (LimitRead.from_headers (req_headers req) false)
           then on_world (drop_tx_chan in_chans body) else mret tt);;
          mret (Some (package_of req body res), SendRes (bidirect_of req body res))
      end
  end.

(** *** [Bidirect] *)

Definition set_part (f : Bidirect.t -> Bidirect.t) : io (conn R Bidirect.t) unit := on_self (modify f).

(** The head of a response, in a buffer of its own. *)
Definition response_head (res : Response) : exec (io_result bytes) :=
  buf ← FastBuf.with_capacity MAX_RESPONSE_SIZE;
  write_to ← FastBuf.borrow buf;
  '(r, out) ← write_http1x_res res (FastBufRef.len write_to);
  match r with
  | Err e => Done (Err e)
  | Ok amount =>
      buf ← FastBufRef.extend amount (FastBufRef.written 0 out write_to);
      v ← FastBuf.deref buf;
      Done (Ok v)
  end.

Definition response_dropped : io_error :=
  Error.into_io (Error.User [Lit "SendResponse dropped before sending any response"]).

Definition poll_send_resp (fuel : nat) (cx : waker) (register_on_user_input : bool) : io (conn R Bidirect.t) unit :=
  this ← on_self get;
  rx_res ← lift (expect (Bidirect.rx_res this) "unwrap");
  v ← on_world (poll_recv_chan res_chans rx_res cx register_on_user_input);
  match v with
  | None => io_err response_dropped
  | Some (res, end_, rx_body) =>
      set_part (Bidirect.set_holder (Some (end_, LimitWrite.from_headers (res_headers res), rx_body)));;
      head ← lift (response_head res);
      head ← io_of head;
      c ← get;
      lift (assert_ (BufIo.can_poll_write (bio c)) "io.can_poll_write()");;
      r ← on_bio (write_all fuel head true);
      match r with
      | Pending => mret tt
      | Ready v => io_of v
      end;;
      set_part (Bidirect.set_rx_res None);;
      on_world (drop_rx_res rx_res)
  end.

Definition early_eof : io_error := io_error_new UnexpectedEof [Lit "EOF before complete body received"].
Definition partial_body : io_error := io_error_new UnexpectedEof [Lit "Partial body"].

(** [self.limit.poll_read(cx, io, buf)] for a buffer of [n] bytes. *)
Definition limit_read (fuel : nat) (n : Z) : io (conn R Bidirect.t) bytes := fun c =>
  '(r, (l, b)) ← LimitRead.poll_read fuel n (Bidirect.limit (self c), bio c);
  Done (r, mk_conn (Bidirect.set_limit l (self c)) b (wld c)).

(** A part of the read buffer, or all of it: the two ways to a chunk. *)
Definition take_chunk : io (conn R Bidirect.t) bytes := fun c =>
  '(v, b) ← BufIo.take_read_buf (bio c);
  l ← LimitRead.accept_entire_vec v (Bidirect.limit (self c));
  Done (Ready (Ok v), mk_conn (Bidirect.set_limit l (self c)) b (wld c)).

Definition copy_chunk (fuel : nat) (available_bytes : Z) : io (conn R Bidirect.t) bytes :=
  chunk ← lift (FastBuf.with_capacity available_bytes);
  read_into ← lift (FastBuf.borrow chunk);
  d ← limit_read fuel (FastBufRef.len read_into);
  chunk ← lift (FastBufRef.extend (zlen d) (FastBufRef.written 0 d read_into));
  lift (FastBuf.into_vec chunk).

Definition poll_read_body (fuel : nat) (cx : waker) : io (conn R Bidirect.t) unit :=
  this ← on_self get;
  tx_body ← lift (expect (Bidirect.tx_body this) "unwrap");
  _ ← on_world (poll_ready_chan in_chans tx_body cx);
  on_bio (b ← get; b ← lift (BufIo.ensure_read_capacity (Bidirect.cur_read_size this) b); modify (fun _ => b));;
  buf ← on_bio (BufIo.poll_fill_buf false);
  if bool_decide (buf = []) then io_err early_eof
  else
    c ← get;
    chunk ← (if LimitRead.can_read_entire_vec (Bidirect.limit (self c)) && BufIo.can_take_read_buf (bio c)
             then take_chunk else copy_chunk fuel (zlen buf));
    this ← on_self get;
    (if negb (bool_decide (chunk = [])) then _ ← on_world (send_chan in_chans tx_body (Ok chunk)); mret tt
     else if negb (LimitRead.is_complete (Bidirect.limit this)) then io_err partial_body
     else mret tt);;
    if LimitRead.is_complete (Bidirect.limit this)
    then set_part (Bidirect.set_tx_body None);; on_world (drop_tx_chan in_chans tx_body)
    else mret tt.

(** [Poll::Pending => true, Poll::Ready(v) => { v?; false }]. *)
Definition is_pending_or (m : io (conn R Bidirect.t) unit) : io (conn R Bidirect.t) bool :=
  r ← raw m;
  match r with
  | Pending => mret true
  | Ready v => io_of v;; mret false
  end.

Definition bidirect_turn (fuel : nat) (cx : waker) (register_on_user_input : bool) (_ : unit) :
    io (conn R Bidirect.t) (unit + unit) :=
  this ← on_self get;
  if bool_decide (Bidirect.rx_res this = None) && bool_decide (Bidirect.tx_body this = None) then mret (inr tt)
  else
    send_resp_pending ← (if bool_decide (is_Some (Bidirect.rx_res this))
      then is_pending_or (poll_send_resp fuel cx register_on_user_input) else mret false);
    this ← on_self get;
    if send_resp_pending && (register_on_user_input || bool_decide (Bidirect.tx_body this = None)) then io_pending
    else
      (if bool_decide (is_Some (Bidirect.tx_body this)) then poll_read_body fuel cx else mret tt);;
      mret (inl tt).

Definition poll_bidirect (fuel : nat) (cx : waker) (register_on_user_input : bool) : io (conn R Bidirect.t) State :=
  iter fuel (bidirect_turn fuel cx register_on_user_input) tt;;
  this ← on_self get;
  holder ← lift (expect (Bidirect.holder this) "Holder of rx_body");
  set_part (Bidirect.set_holder None);;
  let '(no_body, limit, rx_body) := holder in
  if no_body || LimitWrite.is_no_body limit then
    on_world (drop_rx_chan out_chans rx_body);;
    mret (if Bidirect.request_allows_reuse this then RecvReq else Closed)
  else mret (SendBody (BodySender.mk (Bidirect.request_allows_reuse this) rx_body)).

(** *** [BodySender] *)

Definition unexpected_end : io_error := io_error_new Other [Lit "Unexpected end of body"].

Definition send_body_turn (fuel : nat) (cx : waker) (register_on_user_input : bool) (_ : unit) :
    io (conn R BodySender.t) (unit + State) :=
  this ← on_self get;
  next ← on_world (poll_recv_chan out_chans (BodySender.rx_body this) cx register_on_user_input);
  c ← get;
  lift (assert_ (BufIo.can_poll_write (bio c)) "io.can_poll_write()");;
  match next with
  | None => io_err unexpected_end
  | Some (chunk, end_) =>
      r ← on_bio (write_all fuel chunk end_);
      match r with
      | Pending => io_pending
      | Ready v =>
          io_of v;;
          mret (if (end_ : bool)
                then inr (if BodySender.request_allows_reuse this then RecvReq else Closed)
                else inl tt)
      end
  end.

Definition poll_send_body (fuel : nat) (cx : waker) (register_on_user_input : bool) : io (conn R BodySender.t) State :=
  iter fuel (send_body_turn fuel cx register_on_user_input) tt.

(** *** [Codec] *)

(** [self.state = next]: the old state is dropped, field by field. *)
Definition drop_state (s : State) : io world unit :=
  match s with
  | RecvReq | Closed => mret tt
  | SendRes h =>
      drop_opt (drop_tx_chan in_chans) (Bidirect.tx_body h);;
      drop_opt drop_rx_res (Bidirect.rx_res h);;
      drop_opt (drop_rx_chan out_chans) (snd <$> Bidirect.holder h)
  | SendBody h => drop_rx_chan out_chans (BodySender.rx_body h)
  end.

Definition set_state (next : State) : io (conn R State) unit :=
  old ← on_self get;
  on_self (modify (fun _ => next));;
  on_world (drop_state old).

(** [Poll<Option<Result<package, io::Error>>>] is [poll (io_result (option package))]. *)
Definition drive_turn (fuel : nat) (cx : waker) (want_next_req register_on_user_input : bool) (_ : unit) :
    io (conn R State) (unit + option package) :=
  on_bio (BufIo.poll_finish_pending_write fuel);;
  state ← on_self get;
  match state with
  | RecvReq =>
      if want_next_req then
        next ← on_part (fun _ => RecvReq) tt (poll_next_req fuel);
        set_state next.2;;
        mret (inr next.1)
      else mret (inr None)
  | SendRes h =>
      next_state ← on_part SendRes h (poll_bidirect fuel cx register_on_user_input);
      set_state next_state;; mret (inl tt)
  | SendBody h =>
      next_state ← on_part SendBody h (poll_send_body fuel cx register_on_user_input);
      set_state next_state;; mret (inl tt)
  | Closed => mret (inr None)
  end.

(** The drop of [want_next_req], unless it went into a package. *)
Definition or_drop_want (want_next_req : bool) (m : io (conn R State) (option package)) :
    io (conn R State) (option package) := fun c =>
  '(r, c') ← m c;
  match r with
  | Ready (Ok (Some _)) => Done (r, c')
  | _ => if want_next_req then '(_, c'') ← on_world drop_drive c'; Done (r, c'') else Done (r, c')
  end.

Definition drive (fuel : nat) (cx : waker) (want_next_req register_on_user_input : bool) :
    io (conn R State) (option package) :=
  or_drop_want want_next_req (iter fuel (drive_turn fuel cx want_next_req register_on_user_input) tt).

Definition poll_server (fuel : nat) (cx : waker) (want_next_req register_on_user_input : bool) :
    io (conn R State) (option package) :=
  r ← raw (drive fuel cx want_next_req register_on_user_input);
  match r with
  | Ready (Err e) => set_state Closed;; io_err e
  | r => io_return r
  end.

(** *** [Connection] *)

(** [Codec::new]. *)
Definition new_codec (io : R) : exec (BufIo.t R * State) :=
  b ← BufIo.with_capacity READ_BUF_INIT_SIZE io;
  Done (b, RecvReq).

(** The codec, and the one hold that [Connection] keeps. *)
Definition handshake (io : R) : exec (conn R State) :=
  '(b, state) ← new_codec io;
  Done (mk_conn state b (mk_world (Mpsc.new 1) ∅ ∅ ∅ [])).

Definition poll_accept (fuel : nat) (cx : waker) : io (conn R State) (option package) :=
  on_world (poll_pending_external cx);;
  on_world clone_drive;;
  poll_server fuel cx true true.

(** [accept], polled. *)
Definition accept (fuel : nat) (cx : waker) : api Error.t (conn R State) (option package) :=
  api_io Error.from_io (poll_accept fuel cx).

(** Whatever it returns, if it is not [Pending]. *)
Definition poll_close (fuel : nat) (cx : waker) : io (conn R State) unit :=
  r ← raw (poll_server fuel cx false true);
  match r with
  | Pending => io_pending
  | Ready _ => mret tt
  end.

(** Dropping the [Connection]: its hold, and the receiver that waits for
    those of the handles, which drive the codec as before. *)
Definition drop_connection : io world unit := drop_drive;; drop_rx_reqs.

(** [close], polled; it drops the [Connection]. *)
Definition close (fuel : nat) (cx : waker) : io (conn R State) unit :=
  poll_close fuel cx;;
  on_world drop_connection.

(** [DriveExternal for Arc<Mutex<Codec>>]. *)
Definition poll_drive_external (fuel : nat) (cx : waker) : io (conn R State) unit :=
  r ← raw (poll_server fuel cx false false);
  match r with
  | Pending =>
      c ← get;
      if BufIo.pending_rx (bio c) || BufIo.pending_tx (bio c) then io_pending else mret tt
  | Ready (Ok (Some _)) => lift (Panic (PAssert "Got next request in poll_drive_external"))
  | Ready (Ok None) => mret tt
  | Ready (Err e) => io_err e
  end.

(** *** The user's handles *)

Definition drop_send_response (s : SendResponse.t) : io world unit :=
  drop_drive;; drop_tx_chan res_chans (SendResponse.tx_res s).

Definition drop_send_stream (s : SendStream.t) : io world unit :=
  drop_tx_chan out_chans (SendStream.tx_body s);; drop_drive.

Definition drop_recv_stream (s : RecvStream.t) : io world unit :=
  drop_rx_chan in_chans (RecvStream.rx_body s);; drop_drive.

Definition connection_closed : io_error := io_error_new Other [Lit "Connection closed"].

(** No body whatever the headers say. *)
Definition has_no_body (s : SendResponse.t) (response : Response) (no_body : bool) : bool :=
  let status := res_status response in
  no_body
  || SendResponse.req_expects_no_body s
  || LimitWrite.is_no_body (LimitWrite.from_headers (res_headers response))
  || is_informational status
  || status_eqb status NO_CONTENT
  || status_eqb status NOT_MODIFIED.

(** [send_response] up to its await: the response is handed to the codec. *)
Definition enqueue_response (s : SendResponse.t) (response : Response) (no_body : bool) :
    io world (result SendStream.t io_error) :=
  body ← new_chan out_chans 1;
  let limit := LimitWrite.from_headers (res_headers response) in
  let ended := has_no_body s response no_body in
  clone_drive;;
  let send := SendStream.new body limit ended true in
  sent ← send_chan res_chans (SendResponse.tx_res s) ((response, ended, body) : answer);
  if negb sent then
    drop_answer (response, ended, body);;
    drop_send_stream send;;
    drop_send_response s;;
    mret (Err connection_closed)
  else mret (Ok send).

(** The await, polled until it is ready; then [self] is dropped. *)
Definition finish_response (fuel : nat) (cx : waker) (s : SendResponse.t) (send : SendStream.t) :
    io (conn R State) (result SendStream.t io_error) :=
  r ← raw (poll_drive_external fuel cx);
  match r with
  | Pending => io_pending
  | Ready (Ok _) => on_world (drop_send_response s);; mret (Ok send)
  | Ready (Err e) => on_world (drop_send_stream send);; on_world (drop_send_response s);; mret (Err e)
  end.

(** [SendStream::send_data] and [RecvStream::poll_read], on this codec. *)
Definition poll_do_send (fuel : nat) : waker -> bool -> SendStream.send_stage ->
    SendStream.send_state (W := conn R State) -> exec (poll (result unit Error.t) * SendStream.send_stage * SendStream.send_state) :=
  SendStream.poll_do_send (poll_drive_external fuel) fuel.
Definition poll_read (fuel : nat) (cx : waker) (n : Z) : io (RecvStream.t * conn R State) bytes :=
  RecvStream.poll_read (poll_drive_external fuel) fuel cx n.
End Connection.
