(* ===== verification/Server_spec.v ===== *)
(** * What a server connection promises

    [Service] is the abstract machine of a server connection: the phases of an
    HTTP/1.1 exchange seen from the server, over the two byte streams and the
    channels of the user's handles.  It knows nothing of buffers, partial
    reads and writes, flushes, wakers, polling order, or of which handle
    drives it.  Server_proofs.v shows that every poll is a run of it; here are
    the properties of its runs.  A [history] is a run with the acts of the
    user in between, and says which: what is taken from a channel is what those
    acts put on it ([in_turn_given], [accounted]). *)

From S2P Require Import Prelude.
From S2P Require Import Async.
From S2P Require Import Fast_buf.
From S2P Require Import Transport.
From S2P Require Import Buf_reader.
From S2P Require Import Chunked.
From S2P Require Import Http_api.
From S2P Require Import Error.
From S2P Require Import Limit.
From S2P Require Import Http11.
From S2P Require Import Mpsc.
From S2P Require Import Share.
From S2P Require Import Accounts.
From S2P Require Import Channels.
From S2P Require Import Codec.
From S2P Require Import Streams.
From S2P Require Import Machine.
From S2P Require Import Server.

Module Service.
Section Defs.
Context `{Http} `{Httparse}.
Implicit Types (w : world).

Record t := mk {
  phase : State;
  wire_in : bytes;     (* what is still to arrive *)
  wire_out : bytes;    (* what was sent *)
  chans : world;
}.

Inductive event :=
  | Accepted (head : bytes) (req : Request) (body res : chan_id)   (* a request given to the user *)
  | Answered (id : chan_id) (a : answer) (head : bytes)            (* the user's response, its head sent *)
  | Received (wire body : bytes)                                   (* a piece of the request body *)
  | Completed                                                      (* the whole request body received *)
  | Exchanged (next : State)                                       (* both of these *)
  | Sent (id : chan_id) (chunk : bytes) (end_ at_once : bool)      (* a piece of the response body *)
  | HungUp                                                         (* the peer closed between requests *)
  | Failed (taken part : bytes).                                   (* an error: what it took, and sent of a piece *)

(** The head of a response, if it fits. *)
Definition head_text (res : Response) (head : bytes) : Prop :=
  exists ver, version_str (res_version res) = Done ver /\
    head = head_of (response_lines res ver) /\ zlen head <= MAX_RESPONSE_SIZE.

(** A new request: its two channels, and one more hold on the connection. *)
Definition open_channels (req : Request) (body res : chan_id) w : world :=
  let w' := at_reqs Mpsc.clone_sender (new_res res (new_in body w)) in
  if LimitRead.is_no_body (LimitRead.from_headers (req_headers req) false) then at_in body close_tx w' else w'.

(** Dropping a receiver of responses, with those still in it. *)
Fixpoint drop_answers (l : list answer) w : world :=
  match l with [] => w | a :: l => drop_answers l (at_out a.2 close_rx w) end.
Definition close_res (id : chan_id) w : world :=
  at_res id close_rx (drop_answers (from_option queue_of [] (ress w !! id)) w).

(** Dropping a state. *)
Definition if_some {A} (o : option A) (f : A -> world -> world) w : world :=
  match o with Some x => f x w | None => w end.
Definition abandon (ph : State) w : world :=
  match ph with
  | RecvReq | Closed => w
  | SendRes b =>
      if_some (Bidirect.holder b) (fun hd => at_out hd.2 close_rx)
        (if_some (Bidirect.rx_res b) close_res (if_some (Bidirect.tx_body b) (fun id => at_in id close_tx) w))
  | SendBody s => at_out (BodySender.rx_body s) close_rx w
  end.

(** A piece that was begun: a part of it is sent. *)
Inductive begins : State -> world -> bytes -> State -> world -> Prop :=
  | begin_nothing ph w : begins ph w [] ph w
  | begin_response b w id c res end_ body q d :
      Bidirect.rx_res b = Some id -> ress w !! id = Some c -> queue_of c = (res, end_, body) :: q ->
      d = [] \/ (exists head, head_text res head /\ d `prefix_of` head) ->
      begins (SendRes b) w d
        (SendRes (Bidirect.set_holder (Some (end_, LimitWrite.from_headers (res_headers res), body)) b)) (at_res id pop w)
  | begin_chunk s w c chunk (end_ : bool) q d :
      outs w !! BodySender.rx_body s = Some c -> queue_of c = (chunk, end_) :: q -> d `prefix_of` chunk ->
      begins (SendBody s) w d (SendBody s) (at_out (BodySender.rx_body s) pop w).

Definition after_body (allows_reuse : bool) : State := if allows_reuse then RecvReq else Closed.

(** What follows an exchange. *)
Definition no_body_to_send (hd : bool * LimitWrite.t * chan_id) : bool := hd.1.1 || LimitWrite.is_no_body hd.1.2.
Definition after_exchange (b : Bidirect.t) (hd : bool * LimitWrite.t * chan_id) : State :=
  if no_body_to_send hd then after_body (Bidirect.request_allows_reuse b)
  else SendBody (BodySender.mk (Bidirect.request_allows_reuse b) hd.2).

Inductive step : t -> event -> t -> Prop :=
  | take_request i o w head rest eos req body res :
      takes_head i head rest eos -> try_parse_req head eos = Ok (Some req) ->
      ins w !! body = None -> ress w !! res = None ->
      step (mk RecvReq i o w) (Accepted head req body res)
           (mk (SendRes (bidirect_of req body res)) rest o (open_channels req body res w))
  | hang_up i o w : step (mk RecvReq i o w) HungUp (mk Closed i o w)
  | give_response b i o w id c res end_ body q head :
      Bidirect.rx_res b = Some id -> ress w !! id = Some c -> queue_of c = (res, end_, body) :: q ->
      head_text res head ->
      step (mk (SendRes b) i o w) (Answered id (res, end_, body) head)
           (mk (SendRes (Bidirect.set_rx_res None
                  (Bidirect.set_holder (Some (end_, LimitWrite.from_headers (res_headers res), body)) b)))
               i (o ++ head) (close_res id (at_res id pop w)))
  | get_body b i o w id wire body l' rest :
      Bidirect.tx_body b = Some id -> i = wire ++ rest -> reads (Bidirect.limit b) wire body l' ->
      step (mk (SendRes b) i o w) (Received wire body)
           (mk (SendRes (Bidirect.set_limit l' b)) rest o
               (if decide (body = []) then w else at_in id (push (Ok body)) w))
  | end_body b i o w id :
      Bidirect.tx_body b = Some id -> LimitRead.is_complete (Bidirect.limit b) = true ->
      step (mk (SendRes b) i o w) Completed
           (mk (SendRes (Bidirect.set_tx_body None b)) i o (at_in id close_tx w))
  | end_exchange b i o w hd :
      Bidirect.rx_res b = None -> Bidirect.tx_body b = None -> Bidirect.holder b = Some hd ->
      step (mk (SendRes b) i o w) (Exchanged (after_exchange b hd))
           (mk (after_exchange b hd) i o (if no_body_to_send hd then at_out hd.2 close_rx w else w))
  | send_chunk s i o w c chunk (end_ at_once : bool) q :
      outs w !! BodySender.rx_body s = Some c -> queue_of c = (chunk, end_) :: q ->
      step (mk (SendBody s) i o w) (Sent (BodySender.rx_body s) chunk end_ at_once)
           (mk (if end_ && at_once then after_body (BodySender.request_allows_reuse s) else SendBody s) i (o ++ chunk)
               (if end_ && at_once then at_out (BodySender.rx_body s) close_rx (at_out (BodySender.rx_body s) pop w)
                else at_out (BodySender.rx_body s) pop w))
  | fail ph i o w taken i' d ph' w' :
      ph <> Closed -> i = taken ++ i' -> begins ph w d ph' w' ->
      step (mk ph i o w) (Failed taken d) (mk Closed i' (o ++ d) (abandon ph' w')).

Definition run : t -> list event -> t -> Prop := Machine.run step.

Definition set_chans (w : world) (s : t) : t := mk (phase s) (wire_in s) (wire_out s) w.

(** What the user did at once, by the channels before and after it; and what
    it may do to those that the machine reads: give answers, and put pieces
    of bodies. *)
Definition act : Type := world * world.

Record lawful (w w' : world) : Prop := {
  lw_ress : forall id, gives (ress w !! id) (ress w' !! id);
  lw_outs : forall id, gives (outs w !! id) (outs w' !! id);
}.

(** Nothing but the number of holds on the connection differs. *)
Definition same_bodies (w w' : world) : Prop := ress w' = ress w /\ outs w' = outs w /\ ins w' = ins w.

(** The machine's steps, and between them exactly the acts [us] of the user,
    each on the channels as the machine left them; and holds on the connection
    that are taken and given up. *)
Inductive history (s : t) : list act -> list event -> t -> Prop :=
  | history_nil : history s [] [] s
  | history_step us es s' e s'' : history s us es s' -> step s' e s'' -> history s us (es ++ [e]) s''
  | history_user us es s' w : history s us es s' -> lawful (chans s') w ->
      history s (us ++ [(chans s', w)]) es (set_chans w s')
  | history_holds us es s' w : history s us es s' -> same_bodies (chans s') w -> history s us es (set_chans w s').

Lemma server_run_history s us es s' es' s'' : history s us es s' -> run s' es' s'' -> history s us (es ++ es') s''.
Proof. intros Hh Hr. by eapply (Machine.run_extends step (history s us) (history_step s us)). Qed.

(** The answers given on a channel, and the pieces put on one. *)
Definition given_on (id : chan_id) (us : list act) : list answer := put_on (fun w => ress w !! id) us.
Definition said_on (id : chan_id) (us : list act) : list piece := put_on (fun w => outs w !! id) us.

Lemma given_on_snoc id us w w' : given_on id (us ++ [(w, w')]) = given_on id us ++ put_in (ress w !! id) (ress w' !! id).
Proof. exact (put_on_snoc (fun w => ress w !! id) us w w'). Qed.
Lemma server_said_on_snoc id us w w' : said_on id (us ++ [(w, w')]) = said_on id us ++ put_in (outs w !! id) (outs w' !! id).
Proof. exact (put_on_snoc (fun w => outs w !! id) us w w'). Qed.

(** Failures. *)
Definition fails (e : event) : bool := match e with Failed _ _ => true | _ => false end.
Definition unfailed (es : list event) : Prop := Forall (fun e => fails e = false) es.

Lemma unfailed_app es es' : unfailed (es ++ es') <-> unfailed es /\ unfailed es'.
Proof. apply Forall_app. Qed.

(** *** Exchanges *)

(** A request and what followed it. *)
Record exchange := Exchange { x_head : bytes; x_req : Request; x_body : chan_id; x_res : chan_id; x_events : list event }.
Definition trace_of (x : exchange) : list event := Accepted (x_head x) (x_req x) (x_body x) (x_res x) :: x_events x.

Definition accepted (e : event) : option Request := match e with Accepted _ req _ _ => Some req | _ => None end.
Definition answers (l : list event) : list answer :=
  omap (fun e => match e with Answered _ a _ => Some a | _ => None end) l.
Definition answered_on (id : chan_id) (l : list event) : list answer :=
  omap (fun e => match e with Answered i a _ => if decide (i = id) then Some a else None | _ => None end) l.
Definition pieces (l : list event) : list (bytes * bytes) :=
  omap (fun e => match e with Received wire body => Some (wire, body) | _ => None end) l.
Definition chunks (l : list event) : list (chan_id * bytes * bool * bool) :=
  omap (fun e => match e with Sent id chunk end_ at_once => Some (id, chunk, end_, at_once) | _ => None end) l.

Definition framing (req : Request) : LimitRead.t := LimitRead.from_headers (req_headers req) false.
Definition keeps_open (req : Request) : bool := allow_reuse (req_headers req) (req_version req).
Definition body_read (req : Request) (l : list (bytes * bytes)) (limit : LimitRead.t) : Prop :=
  reads (framing req) (l ≫= fst) (l ≫= snd) limit.

(** The whole request body, as its headers frame it. *)
Definition body_received (req : Request) (l : list (bytes * bytes)) : Prop :=
  if LimitRead.is_no_body (framing req) then l = []
  else exists limit, body_read req l limit /\ LimitRead.is_complete limit = true.

(** The pieces of a response body, all from the channel that came with the
    response: none if it has none, otherwise up to one that is marked as the
    last and written at once. *)
Definition from_channel (id : chan_id) (l : list (chan_id * bytes * bool * bool)) : Prop :=
  Forall (fun c => c.1.1.1 = id) l.
Definition open_end (l : list (chan_id * bytes * bool * bool)) : Prop := Forall (fun c => c.1.2 && c.2 = false) l.
Definition answer_has_no_body (a : answer) : bool :=
  a.1.2 || LimitWrite.is_no_body (LimitWrite.from_headers (res_headers a.1.1)).
Definition body_sent (a : answer) (l : list (chan_id * bytes * bool * bool)) : Prop :=
  from_channel a.2 l /\
  if answer_has_no_body a then l = [] else exists l' d, l = l' ++ [(a.2, d, true, true)] /\ open_end l'.

(** The answer is sent in front of its body, and nothing fails. *)
Definition answer_first (l : list event) : Prop := exists l1 l2, l = l1 ++ l2 /\ chunks l1 = [] /\ answers l2 = [].
Definition orderly (l : list event) : Prop := unfailed l /\ answer_first l.

(** A whole exchange: no other request is accepted in it, the request body is
    received to its end, exactly one response is given, on the channel that
    came with the request, and its body sent behind it. *)
Definition whole (x : exchange) : Prop :=
  omap accepted (x_events x) = [] /\ orderly (x_events x) /\ body_received (x_req x) (pieces (x_events x)) /\
  exists a, answers (x_events x) = [a] /\ answered_on (x_res x) (x_events x) = [a] /\ body_sent a (chunks (x_events x)).

(** An exchange in a phase. *)
Definition under_way (x : exchange) (ph : State) : Prop :=
  let req := x_req x in let l := x_events x in
  omap accepted l = [] /\ orderly l /\
  match ph with
  | RecvReq => whole x /\ keeps_open req = true
  | SendRes b =>
      Bidirect.request_allows_reuse b = keeps_open req /\ chunks l = [] /\
      match Bidirect.tx_body b with
      | Some id => id = x_body x /\ LimitRead.is_no_body (framing req) = false /\ body_read req (pieces l) (Bidirect.limit b)
      | None => body_received req (pieces l)
      end /\
      match answers l with
      | [] => Bidirect.rx_res b = Some (x_res x) /\ Bidirect.holder b = None
      | [(res, no_body, body)] => Bidirect.rx_res b = None /\
          Bidirect.holder b = Some (no_body, LimitWrite.from_headers (res_headers res), body) /\
          answered_on (x_res x) l = [(res, no_body, body)]
      | _ => False
      end
  | SendBody s =>
      BodySender.request_allows_reuse s = keeps_open req /\ body_received req (pieces l) /\
      exists a, answers l = [a] /\ answered_on (x_res x) l = [a] /\ answer_has_no_body a = false /\ BodySender.rx_body s = a.2 /\
        from_channel a.2 (chunks l) /\ open_end (chunks l)
  | Closed => whole x /\ keeps_open req = false
  end.

Definition more (e : event) (x : exchange) : exchange :=
  Exchange (x_head x) (x_req x) (x_body x) (x_res x) (x_events x ++ [e]).

Lemma server_answers_snoc l e : answers (l ++ [e]) = answers l ++ answers [e].
Proof. apply omap_app. Qed.
Lemma server_pieces_snoc l e : pieces (l ++ [e]) = pieces l ++ pieces [e].
Proof. apply omap_app. Qed.
Lemma server_chunks_snoc l e : chunks (l ++ [e]) = chunks l ++ chunks [e].
Proof. apply omap_app. Qed.

Lemma answered_on_snoc id l e : answered_on id (l ++ [e]) = answered_on id l ++ answered_on id [e].
Proof. apply omap_app. Qed.
Lemma answered_on_none id l : answers l = [] -> answered_on id l = [].
Proof. induction l as [|e l IH]; [done|]. destruct e; simpl; auto. done. Qed.

Lemma answer_first_new l e : chunks l = [] -> chunks [e] = [] -> answer_first (l ++ [e]).
Proof. intros Hl He. exists (l ++ [e]), []. rewrite app_nil_r, server_chunks_snoc, Hl. by split. Qed.

Lemma answer_first_more l e : answer_first l -> answers [e] = [] -> answer_first (l ++ [e]).
Proof. intros (l1 & l2 & -> & Hc & Ha) He. exists l1, (l2 ++ [e]). rewrite app_assoc, server_answers_snoc, Ha. by split. Qed.

Lemma orderly_one l e : fails e = false -> unfailed l -> answer_first (l ++ [e]) -> orderly (l ++ [e]).
Proof. intros Hf Hl Ha. split; [|done]. apply unfailed_app. by split; [|constructor]. Qed.

Lemma framing_delimited req : LimitRead.is_read_to_end (framing req) = false.
Proof.
  unfold framing, LimitRead.from_headers. destruct (is_chunked _); [done|]. by destruct (get_as _ _).
Qed.

Lemma server_body_read_more req l limit wire body limit' : body_read req l limit -> reads limit wire body limit' ->
  body_read req (l ++ [(wire, body)]) limit'.
Proof.
  intros Hr Hm. unfold body_read. rewrite !bind_app. simpl. rewrite !app_nil_r.
  eapply reads_trans; [apply framing_delimited|done..].
Qed.

Ltac more_steps := unfold under_way, whole, more; cbn [phase x_head x_req x_body x_res x_events];
  rewrite ?omap_app, ?server_chunks_snoc, ?server_answers_snoc, ?answered_on_snoc, ?server_pieces_snoc; simpl; rewrite ?app_nil_r.

(** A step continues the exchange under way, or ends it. *)
Lemma server_step_under_way s e s' x : step s e s' -> phase s <> RecvReq -> fails e = false -> under_way x (phase s) ->
  under_way (more e x) (phase s').
Proof.
  intros Hs Hne Hnf Hu. assert (Hfirst : orderly (x_events x ++ [e])).
  { destruct Hu as (_ & [Hnx Hf] & Hu). apply orderly_one; [done..|]. destruct Hs; try (by apply answer_first_more).
    apply answer_first_new; [|done]. by destruct Hu as (_ & ? & _). }
  revert Hfirst Hu. destruct Hs; cbn [phase] in *; [done|done|..|done]; more_steps;
    match goal with |- context [orderly (?l ++ ?l')] => generalize (orderly (l ++ l')) end; intros First Hfirst (Ht & _ & Hu); revert Hu.
  - intros (Hk & Hc & Hb & Ha). destruct (answers (x_events x)) as [|[[r nb] bd] [|]] eqn:Ean; try done.
    + destruct Ha as (Hr & _). rewrite H1 in Hr. injection Hr as ->. rewrite (answered_on_none _ _ Ean), decide_True by done. done.
    + destruct Ha as (Hr & _). by rewrite H1 in Hr.
  - intros (Hk & Hc & Hb & Ha). rewrite H1 in *. destruct Hb as (-> & Hn & Hb). split_and!; try done.
    by eapply server_body_read_more.
  - intros (Hk & Hc & Hb & Ha). rewrite H1 in Hb. destruct Hb as (_ & Hn & Hb). split_and!; try done.
    unfold body_received. rewrite Hn. eauto.
  - intros (Hk & Hc & Hb & Ha). rewrite H2 in Hb. unfold after_exchange.
    destruct (answers (x_events x)) as [|[[r nb] bd] [|]] eqn:Ean; try done; [by destruct Ha as (_ & ?); congruence|].
    destruct Ha as (_ & Hh & Hon). rewrite Hh in H3. injection H3 as <-.
    assert (Hn : answer_has_no_body (r, nb, bd) = no_body_to_send (nb, LimitWrite.from_headers (res_headers r), bd)) by done.
    destruct (no_body_to_send _) eqn:En.
    + assert (Hw : omap accepted (x_events x) = [] /\ First /\ body_received (x_req x) (pieces (x_events x)) /\
        exists a, [(r, nb, bd)] = [a] /\ answered_on (x_res x) (x_events x) = [a] /\ body_sent a (chunks (x_events x))).
      { split_and!; [done..|]. exists (r, nb, bd). split; [done|]. split; [done|]. unfold body_sent. rewrite Hn, Hc. split; [constructor|done]. }
      unfold after_body. rewrite Hk. destruct (keeps_open _); exact (conj Ht (conj Hfirst (conj Hw eq_refl))).
    + simpl. split_and!; try done. exists (r, nb, bd). rewrite Hc. split_and!; [done..|constructor|constructor].
  - intros (Hk & Hb & a & Ha & Hon & Hn & Hid & Hf & Hc). rewrite Hid.
    assert (Hf' : forall e_ o_, from_channel a.2 (chunks (x_events x) ++ [(a.2, chunk, e_, o_)]))
      by (intros; apply Forall_app; split; [done|by constructor]).
    destruct (end_ && at_once) eqn:Ee.
    + apply andb_prop in Ee as [-> ->].
      assert (Hw : omap accepted (x_events x) = [] /\ First /\ body_received (x_req x) (pieces (x_events x)) /\
        exists a', answers (x_events x) = [a'] /\ answered_on (x_res x) (x_events x) = [a'] /\ body_sent a' (chunks (x_events x) ++ [(a.2, chunk, true, true)])).
      { split_and!; [done..|]. exists a. split; [done|]. split; [done|]. unfold body_sent. rewrite Hn. eauto. }
      unfold after_body. rewrite Hk. destruct (keeps_open _); exact (conj Ht (conj Hfirst (conj Hw eq_refl))).
    + split_and!; try done. exists a. split_and!; try done. apply Forall_app. by split; [|constructor].
Qed.

(** *** Histories *)

(** What the connection's life comes to: whole exchanges that each allow the
    next, and then nothing more yet, or one under way, or the end. *)
Inductive ending : State -> list event -> Prop :=
  | end_waiting : ending RecvReq []
  | end_under_way ph x : ph <> RecvReq -> under_way x ph -> ending ph (trace_of x)
  | end_hung_up : ending Closed [HungUp]
  | end_failed ph l taken part : ph <> Closed -> ending ph l -> ending Closed (l ++ [Failed taken part]).

Definition exchanges (es : list event) (xs : list exchange) (ph : State) : Prop :=
  Forall (fun x => under_way x RecvReq) xs /\ exists l, ending ph l /\ es = (xs ≫= trace_of) ++ l.

Lemma server_trace_more x e : trace_of (more e x) = trace_of x ++ [e].
Proof. done. Qed.

Lemma server_exchanges_go_on xs x ph : Forall (fun x => under_way x RecvReq) xs -> under_way x ph ->
  exists xs', exchanges ((xs ≫= trace_of) ++ trace_of x) xs' ph.
Proof.
  intros Hxs Hx. destruct ph as [|b|s|].
  1: { exists (xs ++ [x]). split; [apply Forall_app; split; [done|by constructor]|]. exists []. split; [constructor|].
       rewrite bind_app. simpl. by rewrite !app_nil_r. }
  all: exists xs; split; [done|]; exists (trace_of x); split; [by apply end_under_way|done].
Qed.

Lemma under_way_new head req body res :
  under_way (Exchange head req body res []) (SendRes (bidirect_of req body res)).
Proof.
  unfold under_way. cbn. split; [done|]. split; [split; [constructor|by exists [], []]|]. split; [done|]. split; [done|]. split; [|done].
  unfold body_received. fold (framing req).
  destruct (LimitRead.is_no_body (framing req)) eqn:E; [done|]. split; [done|]. split; [done|].
  apply reads_nil, framing_delimited.
Qed.

Lemma closed_stays s e s' : step s e s' -> phase s <> Closed.
Proof. by destruct 1. Qed.

Lemma step_exchanges s e s' es xs : step s e s' -> exchanges es xs (phase s) ->
  exists xs', exchanges (es ++ [e]) xs' (phase s').
Proof.
  intros Hs (Hxs & l & Hl & ->). destruct (fails e) eqn:Hne.
  { destruct e as [| | | | | | |taken part]; try done. exists xs. split; [done|]. exists (l ++ [Failed taken part]). rewrite app_assoc. split; [|done].
    pose proof (closed_stays _ _ _ Hs). assert (phase s' = Closed) as -> by by inversion Hs. by apply (end_failed (phase s)). }
  pose proof (closed_stays _ _ _ Hs) as Hnc. inversion Hl as [Hp|ph x Hp Hx Ep|Hp|ph l' Hp Hl' Ep]; try congruence; subst.
  - rewrite app_nil_r. rewrite <- Hp in *. destruct Hs; try done; cbn [phase] in *.
    + assert (E : [Accepted head req body res] = trace_of (Exchange head req body res [])) by done.
      rewrite E. apply server_exchanges_go_on; [done|]. apply under_way_new.
    + exists xs. split; [done|]. exists [HungUp]. split; [constructor|done].
  - rewrite <- app_assoc, <- server_trace_more. apply server_exchanges_go_on; [done|]. by eapply server_step_under_way.
Qed.

Lemma server_history_exchanges s us es s' : history s us es s' -> phase s = RecvReq -> exists xs, exchanges es xs (phase s').
Proof.
  intros Hh Hph. induction Hh as [|us es s' e s'' Hh [xs IH] Hs|us es s' w Hh IH Hw|us es s' w Hh IH Hw]; [|by eapply step_exchanges|exact IH|exact IH].
  exists []. rewrite Hph. split; [done|]. exists []. split; [constructor|done].
Qed.

(** *** The two streams *)

Definition received (e : event) : bytes :=
  match e with Accepted head _ _ _ => head | Received wire _ => wire | Failed taken _ => taken | _ => [] end.
Definition sent (e : event) : bytes :=
  match e with Answered _ _ head => head | Sent _ chunk _ _ => chunk | Failed _ part => part | _ => [] end.

Lemma server_step_wires s e s' : step s e s' ->
  wire_out s' = wire_out s ++ sent e /\ wire_in s = received e ++ wire_in s' /\ (fails e = true -> phase s' = Closed).
Proof.
  intros Hs. destruct Hs; cbn [wire_in wire_out phase sent received fails]; rewrite ?app_nil_r; split_and!; try done.
  by destruct H1 as [-> _].
Qed.

(** What was sent and received is what the events say, to the byte; and
    nothing follows a failure. *)
Lemma server_history_wires s us es s' : history s us es s' ->
  wire_out s' = wire_out s ++ (es ≫= sent) /\ wire_in s = (es ≫= received) ++ wire_in s' /\
  (unfailed es \/ phase s' = Closed).
Proof.
  induction 1 as [|us es s' e s'' Hh (IHo & IHi & IHf) Hs|us es s' w Hh IH Hw|us es s' w Hh IH Hw]; [|..|exact IH|exact IH].
  - simpl. rewrite app_nil_r. split_and!; try done. left. constructor.
  - destruct IHf as [IHf|IHf]; [|by apply closed_stays in Hs]. apply server_step_wires in Hs as (Ho & Hi & Hf).
    rewrite !bind_app. simpl. rewrite !app_nil_r, Ho, IHo, IHi, Hi, !app_assoc. split_and!; try done.
    destruct (fails e) eqn:E; [right; auto|left]. apply unfailed_app. by split; [|constructor].
Qed.

(** *** What was sent from a channel *)

Definition untimed (l : list (chan_id * bytes * bool * bool)) : list (chan_id * bytes * bool) := fst <$> l.
Definition server_sent_on (id : chan_id) (es : list event) : list piece := from_chan id (untimed (chunks es)).

Lemma server_sent_on_app id es es' : server_sent_on id (es ++ es') = server_sent_on id es ++ server_sent_on id es'.
Proof. unfold server_sent_on, chunks, untimed. by rewrite omap_app, fmap_app, from_chan_app. Qed.

Lemma drop_answers_ress (l : list answer) w : ress (drop_answers l w) = ress w.
Proof. revert w. induction l as [|a l IH]; intros w; [done|]. simpl. by rewrite IH. Qed.

Lemma drop_answers_leaves (l : list answer) w : leaves_bodies w (drop_answers l w).
Proof.
  revert w. induction l as [|a l IH]; intros w; simpl; [reflexivity|]. etransitivity; [|apply IH].
  apply (calm_alter _ a.2 close_rx takes_close_rx).
Qed.

Lemma close_res_leaves id w : leaves_bodies w (close_res id w).
Proof. apply drop_answers_leaves. Qed.

Lemma server_step_draws s e s' : step s e s' -> fails e = false ->
  draws (fun id => server_sent_on id [e]) (outs (chans s)) (outs (chans s')).
Proof.
  assert (Hsame : forall o o', o' = o -> draws nothing o o') by (intros o o' ->; reflexivity).
  intros Hs Hf. destruct Hs as [i o w head rest eos req body res Ht Hp Hb Hr|i o w|b i o w id c res end_ body q head Hb Hc Hq Ht
    |b i o w id wire body l' rest Hb Hi Hr|b i o w id Hb Hl|b i o w hd Hr Ht Hh|s i o w c chunk end_ at_once q Hc Hq|]; simpl; [..|done].
  - apply Hsame. unfold open_channels. by destruct (LimitRead.is_no_body _).
  - by apply Hsame.
  - change (leaves_bodies w (close_res id (at_res id pop w))).
    transitivity (at_res id pop w); [by apply Hsame|apply close_res_leaves].
  - apply Hsame. by case_decide.
  - by apply Hsame.
  - destruct (no_body_to_send hd); [apply (calm_alter _ hd.2 close_rx takes_close_rx)|by apply Hsame].
  - set (id := BodySender.rx_body s) in *. apply draws_ext with (f := from_one id [(chunk, end_)]);
      [|intros j; unfold from_one, server_sent_on; cbn; by repeat case_decide; subst].
    assert (Hpop : draws (from_one id [(chunk, end_)]) (outs w) (outs (at_out id pop w))).
    { apply draws_alter; [|congruence]. intros c' Hc'. rewrite Hc in Hc'. injection Hc' as <-. by eapply takes_pop. }
    destruct (end_ && at_once); [|exact Hpop].
    eapply draws_trans; [exact Hpop|apply (calm_alter _ id close_rx takes_close_rx)| |done].
    intros j. by rewrite app_nil_r.
Qed.

(** A step makes no channel for a body. *)
Lemma drop_answers_none id (l : list answer) w : outs w !! id = None -> outs (drop_answers l w) !! id = None.
Proof. revert w. induction l as [|a l IH]; intros w Hn; [done|]. simpl. apply IH. simpl. by rewrite lookup_alter_None. Qed.

Lemma server_step_outs_none s e s' id : step s e s' -> fails e = false -> outs (chans s) !! id = None -> outs (chans s') !! id = None.
Proof.
  intros Hs Hf Hn. destruct Hs; simpl in *; try done.
  - unfold open_channels. by destruct (LimitRead.is_no_body _).
  - by apply drop_answers_none.
  - by case_decide.
  - destruct (no_body_to_send hd); simpl; [by rewrite lookup_alter_None|done].
  - destruct (end_ && at_once); simpl; by rewrite !lookup_alter_None.
Qed.

(** A step takes an answer from the front of its channel, or none. *)
Lemma step_answered s e s' id : step s e s' -> fails e = false ->
  drawn (answered_on id [e]) (ress (chans s) !! id) (ress (chans s') !! id).
Proof.
  intros Hs Hf. destruct Hs as [i o w head rest eos req body res Ht Hp Hb Hr|i o w|b i o w j c res end_ body q head Hb Hc Hq Ht
    |b i o w j wire body l' rest Hb Hi Hr|b i o w j Hb Hl|b i o w hd Hr Ht Hh|s i o w c chunk end_ at_once q Hc Hq|]; simpl; [..|done].
  - assert (E : ress (open_channels req body res w) = <[res := Mpsc.new 1]> (ress w)).
    { unfold open_channels. by destruct (LimitRead.is_no_body _). }
    rewrite E. destruct (decide (id = res)) as [->|Hne]; [rewrite Hr, lookup_insert_eq; done|].
    rewrite lookup_insert_ne by done. apply drawn_refl.
  - apply drawn_refl.
  - unfold close_res. simpl. rewrite drop_answers_ress. simpl. case_decide as Hj.
    + subst j. rewrite !lookup_alter_eq. assert (Ec : ress w !! id = Some (c : Mpsc.t answer)) by exact Hc. rewrite Ec.
      apply (drawn_trans [(res, end_, body) : answer] [] _ (Some (pop c)) (Some (close_rx (pop c)))); [by eapply drawn_pop|apply drawn_close_rx].
    + rewrite !lookup_alter_ne by done. apply drawn_refl.
  - case_decide; apply drawn_refl.
  - apply drawn_refl.
  - destruct (no_body_to_send hd); apply drawn_refl.
  - destruct (end_ && at_once); apply drawn_refl.
Qed.

(** All that was put on a channel was sent from it, in order, or is still in
    it, or was dropped with its receiver; and nothing else was sent. *)
Definition accounted (us : list act) (es : list event) (w : world) : Prop :=
  (forall id, account (given_on id us) (answered_on id es) (ress w !! id)) /\
  (forall id, account (said_on id us) (server_sent_on id es) (outs w !! id)).

Lemma accounted_step us es s e s' : accounted us es (chans s) -> step s e s' -> fails e = false -> accounted us (es ++ [e]) (chans s').
Proof.
  intros [Hr Ho] Hs Hf. split; intros id.
  - rewrite answered_on_snoc. eapply account_drawn; [apply Hr|by apply step_answered].
  - rewrite server_sent_on_app. eapply account_drawn; [apply Ho|].
    apply (draws_drawn _ _ _ _ (server_step_draws _ _ _ Hs Hf)). by eapply server_step_outs_none.
Qed.

Lemma accounted_user us es w w' : accounted us es w -> lawful w w' -> accounted (us ++ [(w, w')]) es w'.
Proof.
  intros [Hr Ho] [Lr Lo]. split; intros id.
  - rewrite given_on_snoc. by apply account_gives.
  - rewrite server_said_on_snoc. by apply account_gives.
Qed.

Lemma server_history_account s us es s' : history s us es s' ->
  (forall id, held (ress (chans s) !! id) = [] /\ held (outs (chans s) !! id) = []) -> unfailed es -> accounted us es (chans s').
Proof.
  intros Hh Hs. induction Hh as [|us es s' e s'' _ IH Hstep|us es s' w _ IH Hl|us es s' w _ IH (Er & Eo & _)]; intros Hu.
  - split; intros id; apply account_new, Hs.
  - apply unfailed_app in Hu as [Hu [Hf _]%Forall_cons_1]. eapply accounted_step; [by apply IH|exact Hstep|exact Hf].
  - apply accounted_user; [by apply IH|exact Hl].
  - unfold accounted. simpl. rewrite Er, Eo. by apply IH.
Qed.

(** With a failure, the pieces and answers before it. *)
Definition in_turn_given (us : list act) (es : list event) : Prop :=
  (forall id, answered_on id es `prefix_of` given_on id us) /\ (forall id, server_sent_on id es `prefix_of` said_on id us).

Lemma accounted_in_turn us es w : accounted us es w -> in_turn_given us es.
Proof. intros [Hr Ho]. split; intros id; by eapply account_prefix. Qed.

Lemma server_history_in_turn s us es s' : history s us es s' ->
  (forall id, held (ress (chans s) !! id) = [] /\ held (outs (chans s) !! id) = []) -> in_turn_given us es.
Proof.
  intros Hh Hs. induction Hh as [|us es s' e s'' Hh IH Hstep|us es s' w _ IH Hl|us es s' w _ IH _]; [|..|done].
  - split; intros id; apply prefix_nil.
  - destruct (fails e) eqn:E.
    + destruct e as [| | | | | | |taken part]; try done. destruct IH as [Hr Ho].
      split; intros id; [rewrite answered_on_snoc|rewrite server_sent_on_app]; cbn; rewrite app_nil_r; auto.
    + apply server_history_wires in Hh as W. destruct W as (_ & _ & [Hu|Hc]); [|by apply closed_stays in Hstep].
      eapply accounted_in_turn, server_history_account; [by eapply history_step|done|]. apply unfailed_app. by split; [|constructor].
  - destruct IH as [Hr Ho]. split; intros id; [rewrite given_on_snoc|rewrite server_said_on_snoc]; by apply prefix_app_r.
Qed.

End Defs.
End Service.
