(* ===== verification/Server_proofs.v ===== *)
(** * The server connection keeps its promises

    Every poll of the connection is a run of [Service]: [sim] says that the
    connection stands where a run from [s0] has led, with its buffers and
    channels in order and no more than [budget] stalls of the transport to
    come; [becomes] that a handler is done and the next state
    only has to be entered.  The lemmas follow the code: operations on
    channels, then each handler, then the loops around them. *)

From S2P Require Import Prelude.
From S2P Require Import Async.
From S2P Require Import Std_text.
From S2P Require Import Fast_buf.
From S2P Require Import Transport.
From S2P Require Import Buf_reader.
From S2P Require Import Chunked.
From S2P Require Import Http_api.
From S2P Require Import Error.
From S2P Require Import Limit.
From S2P Require Import Http11.
From S2P Require Import Mpsc.
From S2P Require Import Share.
From S2P Require Import Channels.
From S2P Require Import Codec.
From S2P Require Import Machine.
From S2P Require Import Server.
From S2P Require Import Server_spec.

(** ** Operations on channels *)

Section Worlds.
Context `{Http}.
Implicit Types (w : world).

(** A poll adds channels and takes from the queues it reads. *)
Record drains w w' : Prop := {
  d_res : forall id, is_Some (ress w !! id) -> is_Some (ress w' !! id);
  d_in : forall id, is_Some (ins w !! id) -> is_Some (ins w' !! id);
  d_out : forall id, is_Some (outs w !! id) -> is_Some (outs w' !! id);
  d_resq : forall id c', ress w' !! id = Some c' -> queue_of c' = [] \/
    exists c, ress w !! id = Some c /\ queue_of c' `suffix_of` queue_of c;
  d_outq : forall id c', outs w' !! id = Some c' ->
    exists c, outs w !! id = Some c /\ queue_of c' `suffix_of` queue_of c;
}.

#[export] Instance drains_preorder : PreOrder drains.
Proof.
  split; [intros w; split; eauto|].
  intros w1 w2 w3 [A1 A2 A3 A4 A5] [B1 B2 B3 B4 B5]. split; eauto.
  - intros id c Hc. destruct (B4 id c Hc) as [|(c2 & Hc2 & Hq)]; [by left|].
    destruct (A4 id c2 Hc2) as [Hn|(c1 & ? & ?)].
    + left. rewrite Hn in Hq. by apply suffix_nil_inv in Hq.
    + right. exists c1. split; [done|]. by etransitivity.
  - intros id c Hc. destruct (B5 id c Hc) as (c2 & Hc2 & ?). destruct (A5 id c2 Hc2) as (c1 & ? & ?).
    exists c1. split; [done|]. by etransitivity.
Qed.

(** Only the channels count, not their wakers. *)
Lemma still_some {T} (m : gmap chan_id (Mpsc.t T)) id : is_Some ((still <$> m) !! id) <-> is_Some (m !! id).
Proof. by rewrite lookup_fmap, fmap_is_Some. Qed.

Lemma still_lookup {T} (m : gmap chan_id (Mpsc.t T)) id c : m !! id = Some c -> (still <$> m) !! id = Some (still c).
Proof. intros E. by rewrite lookup_fmap, E. Qed.

Lemma still_lookup_inv {T} (m : gmap chan_id (Mpsc.t T)) id c : (still <$> m) !! id = Some c ->
  exists c0, m !! id = Some c0 /\ queue_of c0 = queue_of c.
Proof. rewrite lookup_fmap. destruct (m !! id) as [c0|]; [|done]. intros [= <-]. by exists c0. Qed.

Lemma drains_still w : drains w (still_world w) /\ drains (still_world w) w.
Proof.
  split; split; intros id; try (intros Hid; by apply still_some); simpl.
  - intros c (c0 & Hc & <-)%still_lookup_inv. right. by exists c0.
  - intros c (c0 & Hc & <-)%still_lookup_inv. by exists c0.
  - intros c Hc. right. exists (still c). split; [by apply still_lookup|done].
  - intros c Hc. exists (still c). split; [by apply still_lookup|done].
Qed.

(** An effect that only drains. *)
Definition draining (f : world -> world) : Prop := forall w, drains w (f w).

Lemma moved_drains f w w' : draining f -> moved f w w' -> drains w w'.
Proof.
  intros Hf [E _]. transitivity (still_world w); [apply drains_still|].
  transitivity (still_world w'); [rewrite E; apply Hf|apply drains_still].
Qed.

Lemma alter_some {T} (m : gmap chan_id T) f i id : is_Some (m !! id) -> is_Some (alter f i m !! id).
Proof. intros [x Hx]. destruct (decide (i = id)) as [<-|]; [rewrite lookup_alter_eq|rewrite lookup_alter_ne by done]; rewrite Hx; eauto. Qed.

Lemma draining_id : draining (fun w => w).
Proof. intros w. done. Qed.

Lemma draining_trans f g : draining f -> draining g -> draining (fun w => g (f w)).
Proof. intros Hf Hg w. transitivity (f w); auto. Qed.

Lemma draining_reqs f : draining (at_reqs f).
Proof. intros w. split; simpl; eauto. Qed.

Lemma draining_in id f : draining (at_in id f).
Proof. intros w. split; simpl; eauto using alter_some. Qed.

Lemma draining_new_in id : draining (new_in id).
Proof. intros w. split; simpl; eauto using insert_is_some. Qed.

Lemma draining_new_res id : draining (new_res id).
Proof.
  intros w. split; simpl; eauto using insert_is_some. intros j c. rewrite lookup_insert_Some.
  intros [[<- <-]|[_ Hc]]; [by left|]. eauto.
Qed.

Definition shrinking {T} (f : Mpsc.t T -> Mpsc.t T) : Prop := forall c, queue_of (f c) `suffix_of` queue_of c.

Lemma alter_queue {T} (m : gmap chan_id (Mpsc.t T)) f i id c' : shrinking f -> alter f i m !! id = Some c' ->
  exists c, m !! id = Some c /\ queue_of c' `suffix_of` queue_of c.
Proof.
  intros Hf. destruct (decide (i = id)) as [<-|]; [rewrite lookup_alter_eq|rewrite lookup_alter_ne by done; eauto].
  destruct (m !! i) as [c|]; [|done]. intros [= <-]. by exists c.
Qed.

Lemma draining_res id f : shrinking f -> draining (at_res id f).
Proof. intros Hf w. split; simpl; eauto using alter_some. intros j c Hc. right. by eapply alter_queue. Qed.

Lemma draining_out id f : shrinking f -> draining (at_out id f).
Proof. intros Hf w. split; simpl; eauto using alter_some, alter_queue. Qed.

Lemma shrinking_pop {T} : shrinking (pop (T := T)).
Proof. intros c. unfold pop, queue_of. simpl. destruct (Inner.queue _) as [|x q]; [done|]. by exists [x]. Qed.

Lemma shrinking_close_rx {T} : shrinking (close_rx (T := T)).
Proof. intros c. unfold close_rx, queue_of. simpl. case_decide; simpl; [apply suffix_nil|done]. Qed.

Lemma shrinking_close_tx {T} : shrinking (close_tx (T := T)).
Proof. by intros c. Qed.

Lemma draining_answers l : draining (Service.drop_answers l).
Proof.
  induction l as [|a l IH]; [apply draining_id|].
  apply (draining_trans (at_out a.2 close_rx)); [|done]. apply draining_out, shrinking_close_rx.
Qed.

Lemma draining_close_res id : draining (Service.close_res id).
Proof.
  intros w. unfold Service.close_res. etransitivity; [apply draining_answers|]. apply draining_res, shrinking_close_rx.
Qed.

Lemma draining_if_some {A} (o : option A) f : (forall x, draining (f x)) -> draining (Service.if_some o f).
Proof. intros Hf. destruct o; simpl; [apply Hf|apply draining_id]. Qed.
End Worlds.

Create HintDb drain discriminated.
#[export] Hint Resolve draining_id draining_reqs draining_in draining_new_in draining_new_res draining_res
  draining_out shrinking_pop shrinking_close_rx shrinking_close_tx draining_close_res draining_if_some : drain.

(** *** What the server does to them *)

Section Effects.
Context `{Http}.
Implicit Types (w : world).

Lemma draining_abandon ph : draining (Service.abandon ph).
Proof.
  destruct ph as [|b|s|]; try apply draining_id; [|apply draining_out, shrinking_close_rx].
  intros w. simpl. etransitivity; [|apply draining_if_some; intros; apply draining_out, shrinking_close_rx].
  etransitivity; [|apply draining_if_some, draining_close_res].
  apply draining_if_some. intros. apply draining_in.
Qed.

(** Nothing happened. *)
Lemma server_moves_ret w : wp (mret tt) w (moves (fun w => w) w).
Proof. wp_steps. split; [eauto|]. by split. Qed.

Lemma moves_bind {A B} f g (m : io world A) (k : A -> io world B) w : wp m w (moves f w) ->
  (forall a w', moved f w w' -> wp (k a) w' (moves g w')) -> wp (m ≫= k) w (moves (fun w => g (f w)) w).
Proof.
  intros Hm Hk. apply wp_bind. eapply wp_mono; [done|]. intros r w1 ((a & ->) & Hm1). cbn [early].
  eapply wp_mono; [by apply Hk|]. intros r w2 (? & Hm2). split; [done|]. by eapply moved_trans.
Qed.

Lemma drop_opt_wp (drop : chan_id -> io world unit) f o w :
  (forall id, o = Some id -> wp (drop id) w (moves (f id) w)) ->
  wp (drop_opt drop o) w (moves (Service.if_some o f) w).
Proof. destruct o; simpl; [auto|intros _; apply server_moves_ret]. Qed.

Lemma drop_answers_wp l w : Forall (fun a => is_Some (outs w !! a.2)) l ->
  wp (drop_each drop_answer l) w (moves (Service.drop_answers l) w).
Proof.
  revert w. induction l as [|a l IH]; intros w Hl; simpl; [apply server_moves_ret|].
  apply Forall_cons_1 in Hl as [Ha Hl]. apply (moves_bind (at_out a.2 close_rx) (Service.drop_answers l)).
  - by apply drop_rx_out_wp.
  - intros _ w' [_ G]. apply IH. revert Hl. apply Forall_impl. intros x. apply (g_out _ _ G).
Qed.

Lemma drop_rx_chan_res_wp id w : is_Some (ress w !! id) ->
  wp (drop_rx_chan res_chans id) w (moves (at_res id close_rx) w).
Proof.
  intros Hid. set (op := fun c : Mpsc.t answer => let '(c', l) := Mpsc.drop_receiver c in (tt, c', l)).
  destruct (on_res_moved id op close_rx w Hid) as (c & a & c' & l & w' & _ & _ & E & ? & _).
  { intros c a c' l _. unfold op. destruct (Mpsc.drop_receiver c) eqn:E. intros [= _ <- _]. by eapply still_drop_receiver. }
  unfold wp, drop_rx_chan. fold op. rewrite E. simpl. split; [eauto | done].
Qed.

Lemma drop_rx_res_wp id w : (exists c : Mpsc.t answer, ress w !! id = Some c /\ Forall (fun a => is_Some (outs w !! a.2)) (queue_of c)) ->
  wp (drop_rx_res id) w (moves (Service.close_res id) w).
Proof.
  intros (c & Hc & Hq). unfold drop_rx_res. apply wp_bind, wp_get. cbn [early]. rewrite Hc.
  eapply wp_mono; [eapply (moves_bind (Service.drop_answers (queue_of c)) (at_res id close_rx)); [by apply drop_answers_wp|]|].
  - intros _ w' [_ G]. apply drop_rx_chan_res_wp. apply (g_res _ _ G). eauto.
  - intros r w' (? & Hs & G). split; [done|]. split; [|done]. rewrite Hs. unfold Service.close_res. simpl.
    by rewrite (still_lookup _ _ _ Hc).
Qed.

Lemma new_res_wp w : wp (new_chan res_chans 1) w (fun r w' => exists id, r = Ready (Ok id) /\
  ress w !! id = None /\ is_Some (ress w' !! id) /\ moved (new_res id) w w' /\ ins w' = ins w).
Proof.
  unfold wp, new_chan. simpl. eexists. split; [done|]. split; [apply fresh_chan_none|].
  split; [by rewrite lookup_insert_eq|]. split; [|done]. split.
  - unfold still_world, new_res. simpl. by rewrite fmap_insert.
  - split; simpl; eauto using insert_is_some.
Qed.

Lemma clone_drive_wp w : wp clone_drive w (moves (at_reqs Mpsc.clone_sender) w).
Proof. unfold wp, clone_drive, on_reqs. simpl. split; [eauto|]. split; [done|]. split; simpl; eauto. Qed.

Lemma drop_drive_wp w : wp drop_drive w (moves (at_reqs close_tx) w).
Proof.
  unfold wp, drop_drive, on_reqs. destruct (Mpsc.drop_sender (reqs w)) as [c l] eqn:E.
  apply still_drop_sender in E. simpl. split; [eauto|]. split.
  - unfold still_world, at_reqs. simpl. by rewrite E.
  - split; simpl; eauto. by rewrite <- (still_queue c), E.
Qed.

(** The effects on the hold and on the rest do not interfere. *)
Lemma drop_answers_reqs f l w : Service.drop_answers l (at_reqs f w) = at_reqs f (Service.drop_answers l w).
Proof. revert w. induction l as [|a l IH]; intros w; [done|]. apply (IH (at_out a.2 close_rx w)). Qed.

Lemma abandon_reqs f ph w : Service.abandon ph (at_reqs f w) = at_reqs f (Service.abandon ph w).
Proof.
  destruct ph as [|b|s|]; try done. destruct b as [l u tx rx hd n]. simpl.
  assert (Hclose : forall id w, Service.close_res id (at_reqs f w) = at_reqs f (Service.close_res id w)).
  { intros id v. unfold Service.close_res at 1. rewrite drop_answers_reqs. done. }
  destruct tx; simpl; destruct rx; simpl; rewrite ?Hclose; destruct hd; simpl; try done.
  all: change (at_in c close_tx (at_reqs f w)) with (at_reqs f (at_in c close_tx w)); by rewrite Hclose.
Qed.
End Effects.

(** ** A connection in order *)

Section Order.
Context {prof : Profile} `{Http} `{Httparse} {R : Type} `{DuplexSpec R}.
Implicit Types (w : world) (b : BufIo.t R) (c : conn R State).

(** A response the connection can send: its version is one that can be
    written, and its body's channel exists. *)
Definition answer_ok w (a : answer) : Prop :=
  (exists ver, version_str (res_version a.1.1) = Done ver) /\ is_Some (outs w !! a.2).

Definition world_ok w : Prop :=
  (forall id ch, ress w !! id = Some ch -> Forall (answer_ok w) (queue_of ch)) /\
  (forall id ch, outs w !! id = Some ch -> Forall (fun v => zlen v.1 <= isize_max) (queue_of ch)).

(** The reader of a request body.  A content length may have been exceeded,
    but then nothing is left in the read buffer in front of its position. *)
Definition reader_ok (l : LimitRead.t) b : Prop :=
  match l with
  | LimitRead.ChunkedDecoder d => DecoderSpec.dec_wf d
  | LimitRead.ContentLength v =>
      0 <= ContentLengthRead.total v /\ 0 <= ContentLengthRead.limit v <= u64_max /\
      ContentLengthRead.total v + zlen (BufIo.incoming b) <= MAX_CAPACITY /\
      (ContentLengthRead.limit v < ContentLengthRead.total v -> BufIo.pos b = 0)
  | _ => False
  end.

(** The channels that a state holds exist. *)
Definition names w (s : State) : Prop :=
  match s with
  | RecvReq | Closed => True
  | SendRes h =>
      (forall id, Bidirect.tx_body h = Some id -> is_Some (ins w !! id)) /\
      (forall id, Bidirect.rx_res h = Some id -> is_Some (ress w !! id)) /\
      (forall hd, Bidirect.holder h = Some hd -> is_Some (outs w !! hd.2))
  | SendBody s => is_Some (outs w !! BodySender.rx_body s)
  end.

Definition phase_ok w b (s : State) : Prop :=
  names w s /\
  match s with
  | SendRes h =>
      (Bidirect.rx_res h = None <-> Bidirect.holder h <> None) /\
      (Bidirect.tx_body h <> None -> reader_ok (Bidirect.limit h) b) /\
      Bidirect.cur_read_size h <= MAX_BODY_READ_SIZE
  | _ => True
  end.

Definition wf c : Prop := io_wf (bio c) /\ world_ok (wld c) /\ phase_ok (wld c) (bio c) (self c).

(** Fuel for every loop of a poll: for the bytes to come, the bytes to send,
    and the messages in the channels. *)
Definition enough (fuel : nat) c : Prop :=
  MAX_RESPONSE_SIZE < Z.of_nat fuel /\ io_room fuel (bio c) /\ out_fuel fuel (wld c).

Lemma answer_ok_drains w w' a : drains w w' -> answer_ok w a -> answer_ok w' a.
Proof. intros D [Hv Ho]. split; [done|]. by apply (d_out _ _ D). Qed.

Lemma Forall_suffix {A} (P : A -> Prop) l l' : l' `suffix_of` l -> Forall P l -> Forall P l'.
Proof. by intros [k ->] [_ ?]%Forall_app. Qed.

Lemma world_ok_drains w w' : drains w w' -> world_ok w -> world_ok w'.
Proof.
  intros D [Hr Ho]. split; intros id c' Hc'.
  - destruct (d_resq _ _ D id c' Hc') as [->|(c & Hc & Hq)]; [constructor|].
    specialize (Hr id c Hc). apply (Forall_suffix _ _ _ Hq) in Hr. revert Hr. apply Forall_impl.
    intros a. by apply answer_ok_drains.
  - destruct (d_outq _ _ D id c' Hc') as (c & Hc & Hq). eapply Forall_suffix; eauto.
Qed.

Lemma out_fuel_drains fuel w w' : drains w w' -> out_fuel fuel w -> out_fuel fuel w'.
Proof.
  intros D Ho id c' Hc'. destruct (d_outq _ _ D id c' Hc') as (c & Hc & Hq). destruct (Ho id c Hc) as [Hl Hf].
  split; [|by eapply Forall_suffix]. destruct Hq as [k Hk]. rewrite Hk, length_app in Hl. lia.
Qed.

Lemma names_drains w w' s : drains w w' -> names w s -> names w' s.
Proof.
  intros D. destruct s as [|h|s|]; simpl; [done| |apply (d_out _ _ D)|done].
  intros (? & ? & ?). split_and!; intros; [apply (d_in _ _ D)|apply (d_res _ _ D)|apply (d_out _ _ D)]; eauto.
Qed.

Lemma phase_ok_drains w w' b s : drains w w' -> phase_ok w b s -> phase_ok w' b s.
Proof. intros D [Hn Hs]. split; [by eapply names_drains|done]. Qed.

(** Only what is read matters to a reader. *)
Lemma reader_ok_same l b b' : BufIo.incoming b' = BufIo.incoming b -> BufIo.pos b' = BufIo.pos b ->
  reader_ok l b -> reader_ok l b'.
Proof. destruct l; simpl; try done. by intros -> ->. Qed.

Lemma phase_ok_same w b b' s : BufIo.incoming b' = BufIo.incoming b -> BufIo.pos b' = BufIo.pos b ->
  phase_ok w b s -> phase_ok w b' s.
Proof.
  intros Hi Hp [Hn Hs]. split; [done|]. destruct s as [|h|s|]; try done. destruct Hs as (Hh & Hl & ?).
  split; [exact Hh|]. split; [|done]. intros. by apply (reader_ok_same _ b), Hl.
Qed.

(** The channels a queued answer names. *)
Lemma answers_named w id ch : world_ok w -> ress w !! id = Some ch ->
  Forall (fun a : answer => is_Some (outs w !! a.2)) (queue_of ch).
Proof. intros [Hr _] Hch. specialize (Hr id ch Hch). revert Hr. apply Forall_impl. by intros a [_ ?]. Qed.

(** A state is dropped. *)
Lemma drop_state_wp w s : names w s -> world_ok w -> wp (drop_state s) w (moves (Service.abandon s) w).
Proof.
  intros Hn Hw. destruct s as [|h|s|]; simpl in *; [apply server_moves_ret| |by apply drop_rx_out_wp|apply server_moves_ret].
  destruct Hn as (Ht & Hr & Hh).
  assert (Hd : draining (Service.if_some (Bidirect.tx_body h) (fun id => at_in id close_tx))) by auto with drain.
  eapply wp_mono; [eapply (moves_bind (Service.if_some (Bidirect.tx_body h) (fun id => at_in id close_tx)))|].
  - apply drop_opt_wp. intros id Hid. by apply drop_tx_in_wp, Ht.
  - intros _ w1 Hm1. apply (moved_drains _ _ _ Hd) in Hm1 as D1.
    eapply (moves_bind (Service.if_some (Bidirect.rx_res h) Service.close_res)).
    + apply drop_opt_wp. intros id Hid. apply drop_rx_res_wp. destruct (d_res _ _ D1 id) as [ch Hch]; [by apply Hr|].
      exists ch. split; [done|]. apply (answers_named _ id); [by eapply world_ok_drains|done].
    + intros _ w2 Hm2. apply (drop_opt_wp _ (fun id => at_out id close_rx)). intros id Hid.
      apply drop_rx_out_wp. apply (moved_drains _ _ _ (draining_if_some _ _ draining_close_res)) in Hm2 as D2.
      apply (d_out _ _ D2), (d_out _ _ D1). destruct (Bidirect.holder h) as [hd|]; [|done].
      injection Hid as <-. by apply Hh.
  - intros r w' [? Hm]. split; [done|]. destruct Hm as [Hs G]. split; [|done]. rewrite Hs. simpl. by destruct (Bidirect.holder h).
Qed.

(** Some fuel is always enough. *)
Lemma server_enough_exists c : exists fuel, enough fuel c.
Proof.
  destruct (out_fuel_exists (wld c)) as [n Hn].
  exists (n + 9 + Z.to_nat (2 * zlen (BufIo.incoming (bio c))) + Z.to_nat (zlen (BufIo.unsent (bio c))) +
          Z.to_nat MAX_RESPONSE_SIZE)%nat.
  pose proof (zlen_nonneg (BufIo.incoming (bio c))). pose proof (zlen_nonneg (BufIo.unsent (bio c))).
  unfold enough, MAX_RESPONSE_SIZE. split; [lia|]. split; [split; lia|]. apply Hn. lia.
Qed.
End Order.

#[export] Instance closed_dec (s : State) : Decision (s = Closed).
Proof. destruct s; first [by left | by right]. Defined.

(** ** The connection stands where a run has led *)

Section Simulation.
Context {prof : Profile} `{Http} `{Httparse} {R : Type} `{DuplexSpec R}.
Context (s0 : Service.t) (fuel budget : nat) (cx : waker) (register : bool) (Hmax : MAX_RESPONSE_SIZE < Z.of_nat fuel).
Implicit Types (w : world) (b : BufIo.t R).

Definition abs {Self} (ph : State) (c : conn R Self) : Service.t :=
  Service.mk ph (BufIo.incoming (bio c)) (BufIo.outgoing (bio c)) (still_world (wld c)).

(** A run on which no request is accepted and nothing fails. *)
Definition quiet (es : list Service.event) : Prop :=
  Forall (fun e => Service.accepted e = None /\ Service.fails e = false) es.

Lemma quiet_app es es' : quiet es -> quiet es' -> quiet (es ++ es').
Proof. intros. by apply Forall_app. Qed.

Definition in_order (ph : State) b w : Prop :=
  io_wf b /\ io_fuel fuel budget b /\ world_ok w /\ out_fuel fuel w /\ phase_ok w b ph.

Definition leads (s : Service.t) : Prop := exists es, Service.run s0 es s /\ quiet es.

Definition sim {Self} (ph : State) (c : conn R Self) : Prop := leads (abs ph c) /\ in_order ph (bio c) (wld c).

(** The machine is in [next]; the connection has still to drop [ph]. *)
Definition dropped {Self} (next ph : State) (c : conn R Self) : Service.t :=
  Service.mk next (BufIo.incoming (bio c)) (BufIo.outgoing (bio c)) (Service.abandon ph (still_world (wld c))).

Definition becomes {Self} (next ph : State) (c : conn R Self) : Prop :=
  leads (dropped next ph c) /\ names (wld c) ph /\ in_order next (bio c) (wld c).

(** A failure: the machine is closed, or was before. *)
Definition failed {Self} (ph : State) (c : conn R Self) : Prop :=
  (exists es es', Service.run s0 (es ++ es') (dropped Closed ph c) /\ quiet es /\ (es' = [] \/ exists taken part, es' = [Service.Failed taken part])) /\
  names (wld c) ph /\ io_wf (bio c) /\ world_ok (wld c).

Lemma leads_step s e s' : leads s -> Service.step s e s' -> quiet [e] -> leads s'.
Proof.
  intros (es & Hes & Hq) Hs He. exists (es ++ [e]). split; [|by apply quiet_app].
  eapply Machine.run_trans; [done|]. by apply Machine.run_one.
Qed.

Lemma quiet_one e : Service.accepted e = None -> Service.fails e = false -> quiet [e].
Proof. intros. by constructor. Qed.
Hint Resolve quiet_one : core.

Lemma server_sim_step {Self Self'} ph e ph' (c : conn R Self) (c' : conn R Self') : sim ph c ->
  Service.step (abs ph c) e (abs ph' c') -> quiet [e] -> in_order ph' (bio c') (wld c') -> sim ph' c'.
Proof. intros [Hl _] Hs He Hw. split; [|done]. by eapply leads_step. Qed.

Lemma sim_becomes {Self Self'} ph e next ph' (c : conn R Self) (c' : conn R Self') : sim ph c ->
  Service.step (abs ph c) e (dropped next ph' c') -> quiet [e] -> names (wld c') ph' ->
  in_order next (bio c') (wld c') -> becomes next ph' c'.
Proof. intros [Hl _] Hs He Hn Hw. split; [|done]. by eapply leads_step. Qed.

(** A poll that fails after it has begun the next piece. *)
Lemma server_sim_failed {Self Self'} ph ph' taken d (c : conn R Self) (c' : conn R Self') : sim ph c -> ph <> Closed ->
  BufIo.incoming (bio c) = taken ++ BufIo.incoming (bio c') ->
  Service.begins ph (still_world (wld c)) d ph' (still_world (wld c')) ->
  BufIo.outgoing (bio c') = BufIo.outgoing (bio c) ++ d ->
  io_wf (bio c') -> world_ok (wld c') -> names (wld c') ph' -> failed ph' c'.
Proof.
  intros [(es & Hes & Hq) _] Hne Hi Hb Ho Hio Hw Hn. split; [|done]. exists es, [Service.Failed taken d].
  split; [|by split; [|right; eauto]]. eapply Machine.run_trans; [done|]. apply Machine.run_one.
  unfold abs, dropped. rewrite Ho. by apply (Service.fail _ _ _ _ taken).
Qed.

(** Nothing was begun. *)
Lemma sim_failed_idle {Self Self'} ph ph' taken (c : conn R Self) (c' : conn R Self') : sim ph c -> ph <> Closed -> ph' = ph ->
  BufIo.incoming (bio c) = taken ++ BufIo.incoming (bio c') -> BufIo.outgoing (bio c') = BufIo.outgoing (bio c) ->
  io_wf (bio c') -> moved (fun w => w) (wld c) (wld c') -> failed ph' c'.
Proof.
  intros Hsim Hne -> Hi Ho Hio Hm. pose proof Hsim as [_ (_ & _ & Hw & _ & Hn & _)].
  assert (D : drains (wld c) (wld c')) by by apply (moved_drains (fun w => w)); [auto with drain|].
  apply (server_sim_failed ph ph taken [] c); rewrite ?app_nil_r; auto.
  - destruct Hm as [-> _]. apply Service.begin_nothing.
  - by eapply world_ok_drains.
  - by eapply names_drains.
Qed.

(** Nothing the machine sees has changed. *)
Lemma server_sim_same {Self Self'} ph (c : conn R Self) (c' : conn R Self') : sim ph c ->
  abs ph c' = abs ph c -> in_order ph (bio c') (wld c') -> sim ph c'.
Proof. intros [(es & Hes) _] He Hw. split; [|done]. exists es. by rewrite He. Qed.

Lemma in_order_drains ph b w w' : in_order ph b w -> drains w w' -> in_order ph b w'.
Proof.
  intros (? & ? & ? & ? & ?) D. split_and!; [done|done|by eapply world_ok_drains|by eapply out_fuel_drains|
    by eapply phase_ok_drains].
Qed.

Lemma sim_moved {Self Self'} ph (c : conn R Self) (c' : conn R Self') : sim ph c -> bio c' = bio c ->
  moved (fun w => w) (wld c) (wld c') -> sim ph c'.
Proof.
  intros Hsim Hb Hm. apply (server_sim_same _ c); [done| |].
  - unfold abs. rewrite Hb. by destruct Hm as [-> _].
  - rewrite Hb. apply (in_order_drains _ _ (wld c)); [apply Hsim|]. by apply (moved_drains (fun w => w)); [auto with drain|].
Qed.

(** The buffers may have moved what is still to come. *)
Lemma sim_quiet {Self Self'} ph (c : conn R Self) (c' : conn R Self') : sim ph c ->
  BufIo.incoming (bio c') = BufIo.incoming (bio c) -> BufIo.outgoing (bio c') = BufIo.outgoing (bio c) ->
  BufIo.pos (bio c') = BufIo.pos (bio c) -> io_wf (bio c') -> io_fuel fuel budget (bio c') ->
  moved (fun w => w) (wld c) (wld c') -> sim ph c'.
Proof.
  intros Hsim Hi Ho Hp Hio Hf Hm. apply (server_sim_same _ c); [done| |].
  - unfold abs. rewrite Hi, Ho. by destruct Hm as [-> _].
  - pose proof Hsim as [_ Hord]. apply (moved_drains (fun w => w)) in Hm; [|auto with drain].
    apply (in_order_drains _ _ _ (wld c')) in Hord as (_ & _ & ? & ? & Hph); [|done].
    do 4 (split; [done|]). by apply (phase_ok_same _ (bio c)).
Qed.

(** *** [RecvReq] *)

Lemma try_parse_req_kind head eos e : try_parse_req head eos = Err e -> is_closed_kind (err_kind e) = false.
Proof.
  unfold try_parse_req. destruct (parse_request _ _) as [[st p]|err]; [|by intros [= <-]].
  destruct (is_partial st); [done|]. destruct (uri_build _) as [uri|err]; [|by intros [= <-]].
  match goal with |- context [match reqb_body ?x with _ => _ end] => destruct (reqb_body x) end; [done|by intros [= <-]].
Qed.

Lemma bidirect_ok req body res w b : is_Some (ins w !! body) -> is_Some (ress w !! res) -> io_wf b ->
  phase_ok w b (SendRes (bidirect_of req body res)).
Proof.
  intros Hi Hr Hio. pose proof (span_room b Hio) as Hroom. destruct Hio as (Hrd & _ & Hsp). rewrite BufIo.span_eq in Hsp by done.
  unfold bidirect_of. set (l := LimitRead.from_headers _ false).
  assert (Hl : LimitRead.is_no_body l = false -> reader_ok l b).
  { subst l. unfold LimitRead.from_headers. destruct (is_chunked _); [by intros _ [|]|].
    destruct (get_as _ _) as [n|] eqn:En; [|done]. intros _. simpl.
    assert (0 <= n <= u64_max).
    { unfold get_as in En. destruct (get_str _ _) as [s|]; [|done]. simpl in En. by eapply parse_u64_range. }
    destruct Hrd as (_ & _ & ? & _). unfold READ_BUF_INIT_SIZE in *. lia. }
  split; [|split; [split; [by intros|by intros []]|split]].
  - simpl. split_and!; [|by intros ? [= <-]|done]. destruct (LimitRead.is_no_body l); [done|]. by intros ? [= <-].
  - simpl. destruct (LimitRead.is_no_body l); [done|auto].
  - simpl. lia.
Qed.

(** A request is handed to the user. *)
Lemma accept_request_wp (c : conn R unit) b1 req head eos : sim RecvReq c ->
  takes_head (BufIo.incoming (bio c)) head (BufIo.incoming b1) eos -> try_parse_req head eos = Ok (Some req) ->
  io_wf b1 -> io_fuel fuel budget b1 -> BufIo.outgoing b1 = BufIo.outgoing (bio c) ->
  wp (
    body ← on_world (new_chan in_chans 1);
    res ← on_world (new_chan res_chans 1);
    on_world clone_drive;;
    (if LimitRead.is_no_body (LimitRead.from_headers (req_headers req) false)
     then on_world (drop_tx_chan in_chans body) else mret tt);;
    mret (Some (package_of req body res), SendRes (bidirect_of req body res))) (set_bio b1 c) (fun r c' =>
    exists body res, r = Ready (Ok (Some (package_of req body res), SendRes (bidirect_of req body res))) /\
      in_order (SendRes (bidirect_of req body res)) (bio c') (wld c') /\
      exists es, quiet es /\ Service.run s0 (es ++ [Service.Accepted head req body res])
        (abs (SendRes (bidirect_of req body res)) c')).
Proof.
  intros Hsim Htake Hparse Hio1 Hf1 Ho1. pose proof Hsim as [(es & Hes & Hq) (_ & _ & Hw & Hwf & _)].
  apply wp_bind, wp_on_world. eapply wp_mono; [apply new_in_wp|].
  intros r w1 (body & -> & Hnew & Hin1 & Hm1 & Hr1). cbn [early wld set_wld set_bio] in *.
  apply wp_bind, wp_on_world. eapply wp_mono; [apply new_res_wp|].
  intros r w2 (res & -> & Hnew2 & Hres2 & Hm2 & Hi2). cbn [early wld set_wld set_bio] in *.
  apply wp_bind, wp_on_world. eapply wp_mono; [apply clone_drive_wp|].
  intros r w3 ((a & ->) & Hm3). cbn [early wld set_wld set_bio] in *.
  set (empty := LimitRead.is_no_body _).
  assert (Hlast : wp (if empty then on_world (drop_tx_chan in_chans body) else mret tt)
      (set_wld w3 (set_wld w2 (set_wld w1 (set_bio b1 c)))) (fun r c' => r = Ready (Ok tt) /\ bio c' = b1 /\
      moved (fun w => if empty then at_in body close_tx w else w) w3 (wld c'))).
  { destruct empty; [|by wp_steps; split_and!]. apply wp_on_world. eapply wp_mono; [apply drop_tx_in_wp|].
    - apply (g_in _ _ (proj2 Hm3)). simpl. by rewrite Hi2.
    - by intros r w4 (([] & ->) & Hm). }
  apply wp_bind. eapply wp_mono; [exact Hlast|]. intros r [x b4 w4] (-> & Hb4 & Hm4). cbn [early bio wld] in *. subst b4.
  wp_steps. exists body, res. split; [done|].
  assert (D : drains (wld c) w4).
  { etransitivity; [apply (moved_drains _ _ _ (draining_new_in body) Hm1)|].
    etransitivity; [apply (moved_drains _ _ _ (draining_new_res res) Hm2)|].
    etransitivity; [apply (moved_drains _ _ _ (draining_reqs _) Hm3)|].
    apply (moved_drains _ _ _) in Hm4; [done|]. destruct empty; auto with drain. }
  split.
  - do 2 (split; [done|]). split; [by eapply world_ok_drains|]. split; [by eapply out_fuel_drains|].
    apply bidirect_ok; [| |done].
    + apply (g_in _ _ (proj2 Hm4)), (g_in _ _ (proj2 Hm3)). by rewrite Hi2.
    + by apply (g_res _ _ (proj2 Hm4)), (g_res _ _ (proj2 Hm3)).
  - exists es. split; [done|]. eapply Machine.run_trans; [done|]. apply Machine.run_one. unfold abs. simpl.
    destruct Hm4 as [-> _], Hm3 as [-> _], Hm2 as [-> _], Hm1 as [-> G1]. rewrite Ho1.
    assert (E : (if empty then at_in body close_tx (at_reqs Mpsc.clone_sender (new_res res (new_in body (still_world (wld c)))))
      else at_reqs Mpsc.clone_sender (new_res res (new_in body (still_world (wld c))))) =
      Service.open_channels req body res (still_world (wld c))) by done.
    rewrite E. apply (Service.take_request _ _ _ head _ eos); [done..| |].
    + simpl. by rewrite lookup_fmap, Hnew.
    + simpl. rewrite lookup_fmap. assert (Hn : ress (wld c) !! res = None).
      { destruct (ress (wld c) !! res) eqn:E2; [|done]. destruct (g_res _ _ G1 res); [by eauto|congruence]. }
      by rewrite Hn.
Qed.

(** The result of [poll_next_req], on [unit] in place of the state. *)
Definition next_request (r : poll (io_result (option package * State))) (c' : conn R unit) : Prop :=
  match r with
  | Pending => sim RecvReq c' /\ on_hold budget BufIo.pending_rx (bio c')
  | Ready (Ok (None, next)) => next = Closed /\ becomes Closed RecvReq c'
  | Ready (Ok (Some pkg, next)) => exists head req body res, pkg = package_of req body res /\
      next = SendRes (bidirect_of req body res) /\ in_order next (bio c') (wld c') /\
      exists es, quiet es /\ Service.run s0 (es ++ [Service.Accepted head req body res]) (abs next c')
  | Ready (Err _) => failed RecvReq c'
  end.

Lemma poll_next_req_wp (c : conn R unit) : sim RecvReq c -> wp (poll_next_req fuel) c next_request.
Proof.
  intros Hsim. pose proof Hsim as [_ (Hio & Hiof & Hw & Hwf & _)].
  unfold poll_next_req. apply wp_bind, wp_raw, wp_on_bio.
  eapply wp_mono; [apply (wp_yields BufIo.lasts (BufIo.held BufIo.pending_rx)); [apply poll_for_crlfcrlf_yields|];
    apply (wp_keeps BufIo.tx_same); [apply poll_for_crlfcrlf_tx|]; apply poll_for_crlfcrlf_wp;
    [apply Hio|by apply span_room|destruct Hiof; lia]|].
  intros r b1 ((((Hrd1 & _ & Hsp1 & _) & Htook) & Hsame) & Hlast & Hheld). cbn [early].
  assert (Hlen : zlen (BufIo.incoming b1) <= zlen (BufIo.incoming (bio c))).
  { destruct r as [|[ret|e]]; simpl in Htook; [by destruct Htook as [-> _]| |by destruct Htook as [-> _]].
    destruct Htook as (head & -> & _). zlia. }
  destruct (io_wf_rx (fuel := fuel) (budget := budget) (bio c) b1) as (Hio1 & Hf1 & Ho1 & _); [done..|].
  destruct r as [|[ret|e]].
  - destruct Htook as [Hi Hp]. wp_steps. split; [|eapply held_on_hold; [apply Hiof|by apply Hheld]].
    apply (server_sim_same _ c); [done|unfold abs; simpl; by rewrite Hi, Ho1|by split_and!].
  - destruct Htook as (head & Hi & Hhead).
    assert (Htake : exists eos, ret = try_parse_req head eos /\
      takes_head (BufIo.incoming (bio c)) head (BufIo.incoming b1) eos).
    { destruct Hhead as [(? & ? & ->)|(? & ? & ? & ->)]; [exists false|exists true]; by split_and!. }
    destruct Htake as (eos & -> & Htake).
    destruct (try_parse_req head eos) as [[req|]|e] eqn:Hparse.
    + eapply wp_mono; [by apply (accept_request_wp c b1 req head eos)|].
      intros r c' (body & res & -> & Hord & Hrun). exists head, req, body, res. by split_and!.
    + wp_steps. by apply (sim_failed_idle RecvReq _ head c).
    + rewrite (try_parse_req_kind _ _ _ Hparse). wp_steps. by apply (sim_failed_idle RecvReq _ head c).
  - destruct Htook as [Hi _]. destruct (is_closed_kind (err_kind e)); wp_steps.
    + split; [done|]. apply (sim_becomes RecvReq Service.HungUp _ _ c); [done| |by apply quiet_one|done|by split_and!].
      unfold abs, dropped. simpl. rewrite Hi, Ho1. apply Service.hang_up.
    + by apply (sim_failed_idle RecvReq _ [] c).
Qed.

(** *** [Bidirect] *)

Lemma response_head_ok res ver : version_str (res_version res) = Done ver ->
  exists r, response_head res = Done r /\ match r with Ok head => Service.head_text res head | Err _ => True end.
Proof.
  intros Hv. unfold response_head.
  destruct (lent_buffer MAX_RESPONSE_SIZE) as (v & rd & -> & Er & Elen & Hfill);
    [unfold MAX_RESPONSE_SIZE, isize_max; lia|]. cbn [mbind exec_bind]. rewrite Er. cbn [mbind exec_bind]. rewrite Elen.
  destruct (write_http1x_res_ok res ver MAX_RESPONSE_SIZE Hv) as (r & -> & Hr);
    [unfold MAX_RESPONSE_SIZE; lia|]. cbn [mbind exec_bind].
  set (head := head_of (response_lines res ver)) in *.
  destruct (Z.leb_spec (zlen head) MAX_RESPONSE_SIZE) as [Hle|Hgt].
  - subst r. destruct (Hfill head Hle) as (v' & -> & Hv'). cbn [mbind exec_bind].
    change (FastBuf.deref v') with (FastBuf.into_vec v'). rewrite Hv'. eexists. split; [done|]. by exists ver.
  - destruct r as [[a|e] o]; [by destruct Hr|]. by eexists.
Qed.

Definition waits_for_response (h : Bidirect.t) w : Prop :=
  exists id ch, Bidirect.rx_res h = Some id /\ ress w !! id = Some ch /\ awaits register cx ch.

Definition responded (c : conn R Bidirect.t) (r : poll (io_result unit)) (c' : conn R Bidirect.t) : Prop :=
  match r with
  | Pending => sim (SendRes (self c')) c' /\ self c' = self c /\ bio c' = bio c /\
      waits_for_response (self c) (wld c')
  | Ready (Ok _) => sim (SendRes (self c')) c' /\ Bidirect.rx_res (self c') = None /\
      Bidirect.tx_body (self c') = Bidirect.tx_body (self c) /\
      BufIo.incoming (bio c') = BufIo.incoming (bio c)
  | Ready (Err _) => failed (SendRes (self c')) c'
  end.

(** The user's response is taken from its channel. *)
Section Answer.
Context (c : conn R Bidirect.t) (id : chan_id) (ch : Mpsc.t answer) (w1 : world).
Context (res : Response) (end_ : bool) (body : chan_id) (q : list answer).
Context (Hsim : sim (SendRes (self c)) c) (Hid : Bidirect.rx_res (self c) = Some id).
Context (Hch : ress (wld c) !! id = Some ch) (Hq : queue_of ch = (res, end_, body) :: q).
Context (Hm : moved (at_res id pop) (wld c) w1).

Let h1 : Bidirect.t := Bidirect.set_holder (Some (end_, LimitWrite.from_headers (res_headers res), body)) (self c).

Lemma answer_drains : drains (wld c) w1.
Proof. apply (moved_drains _ _ _) in Hm; auto with drain. Qed.

Lemma answer_known : answer_ok (wld c) (res, end_, body).
Proof.
  pose proof Hsim as [_ (_ & _ & [Hw _] & _)]. specialize (Hw id ch Hch). rewrite Hq in Hw.
  by apply Forall_cons_1 in Hw as [? _].
Qed.

Lemma answer_names : names w1 (SendRes h1).
Proof.
  pose proof Hsim as [_ (_ & _ & _ & _ & (Hnt & Hnr & Hnh) & _)]. pose proof answer_drains as D.
  split_and!; [intros i Hi; by apply (d_in _ _ D), Hnt|intros i Hi; by apply (d_res _ _ D), Hnr|].
  intros hd [= <-]. apply (d_out _ _ D), answer_known.
Qed.

(** A failure while its head is sent. *)
Lemma answer_failed b2 d : BufIo.incoming b2 = BufIo.incoming (bio c) ->
  BufIo.outgoing b2 = BufIo.outgoing (bio c) ++ d -> io_wf b2 ->
  d = [] \/ (exists head, Service.head_text res head /\ d `prefix_of` head) ->
  failed (SendRes h1) (mk_conn h1 b2 w1).
Proof.
  intros Hi2 Ho2 Hio2 Hd. pose proof Hsim as [_ (_ & _ & Hw & _)].
  apply (server_sim_failed (SendRes (self c)) _ [] d c); try done;
    [simpl|by apply (world_ok_drains _ _ answer_drains)|apply answer_names].
  rewrite (proj1 Hm). apply (Service.begin_response _ _ id (still ch) res end_ body q); try done.
  simpl. by apply still_lookup.
Qed.

(** Its head is sent, or about to be. *)
Lemma answer_sent_wp b2 head : Service.head_text res head -> io_wf b2 -> io_fuel fuel budget b2 ->
  BufIo.incoming b2 = BufIo.incoming (bio c) -> BufIo.outgoing b2 = BufIo.outgoing (bio c) ++ head ->
  BufIo.pos b2 = BufIo.pos (bio c) ->
  wp (set_part (Bidirect.set_rx_res None);; on_world (drop_rx_res id)) (mk_conn h1 b2 w1) (responded c).
Proof.
  intros Hhd Hio2 Hf2 Hin2 Ho2 Hpos2. pose proof Hsim as [_ (_ & _ & Hw & Hwf & _ & _ & Hl & Hcur)].
  pose proof answer_drains as D1. unfold set_part. conn_steps. apply wp_on_world. cbn [wld self set_self].
  destruct (d_res _ _ D1 id) as [ch1 Hch1]; [by eauto|]. eapply wp_mono; [apply drop_rx_res_wp; exists ch1; split; [done|]|].
  { apply (answers_named _ id); [by eapply world_ok_drains|done]. }
  intros r w2 (([] & ->) & Hm2). pose proof Hm2 as [Hs2 _].
  assert (D2 : drains w1 w2) by (apply (moved_drains _ _ _) in Hm2; auto with drain).
  assert (D12 : drains (wld c) w2) by by etransitivity.
  cbn. split; [|by split_and!].
  apply (server_sim_step (SendRes (self c)) (Service.Answered id (res, end_, body) head) _ c); [done| |by apply quiet_one|].
  - unfold abs. simpl. rewrite Hin2, Ho2, Hs2, (proj1 Hm).
    apply (Service.give_response _ _ _ _ id (still ch) res end_ body q); try done. simpl. by apply still_lookup.
  - do 2 (split; [done|]). split; [by eapply world_ok_drains|]. split; [by eapply out_fuel_drains|].
    pose proof answer_names as Hn1. apply (names_drains _ _ _ D2) in Hn1 as (? & ? & ?).
    split; [by split_and!|]. split; [done|]. split; [|done]. intros Ht. apply (reader_ok_same _ (bio c)); auto.
Qed.
End Answer.

Lemma poll_send_resp_wp (c : conn R Bidirect.t) id : sim (SendRes (self c)) c ->
  BufIo.can_poll_write (bio c) = true -> Bidirect.rx_res (self c) = Some id ->
  wp (poll_send_resp fuel cx register) c (responded c).
Proof.
  intros Hsim Hcan Hid. pose proof Hsim as [_ (Hio & Hiof & _ & _ & (_ & Hnr & _) & _)].
  unfold poll_send_resp. conn_steps. rewrite Hid. simpl. conn_steps. apply wp_on_world.
  eapply wp_mono; [apply recv_res_wp; by apply Hnr|]. intros r w1 Hr.
  destruct r as [|[[[[res end_] body]|]|e]]; [| | |done]; cbn [early].
  - destruct Hr as (Hm & ch & Hch & Hcx). split; [by apply (sim_moved _ c)|]. split; [done|]. split; [done|].
    by exists id, ch.
  - destruct Hr as (ch & q & Hch & Hq & Hm1).
    destruct (answer_known c id ch res end_ body q Hsim Hch Hq) as [(ver & Hver) _].
    pose proof (answer_failed c id ch w1 res end_ body q Hsim Hid Hch Hq Hm1) as Hfail.
    unfold set_part. conn_steps. destruct (response_head_ok res ver Hver) as (hd & -> & Hhd). simpl.
    destruct hd as [head|e].
    2: { conn_steps. apply (Hfail _ []); try done; [by rewrite app_nil_r|by left]. }
    pose proof Hhd as (_ & _ & _ & Hlen). conn_steps; [done|]. conn_steps. apply wp_on_bio.
    eapply wp_mono; [apply write_all_wp; [done|lia|unfold isize_max, MAX_RESPONSE_SIZE in *; lia]|].
    intros r b2 (r' & -> & Ht). apply (took_wf (fuel := fuel) (budget := budget)) in Ht as (Hio2 & Hin2 & _ & _ & Hpos2 & Hr'); [|done|done|lia].
    cbn [bio] in *. conn_steps.
    pose proof (fun Hf Ho => answer_sent_wp c id ch w1 res end_ body q Hsim Hid Hch Hq Hm1 b2 head Hhd Hio2 Hf Hin2 Ho Hpos2) as Hend.
    destruct r' as [|[[]|e]]; conn_steps.
    + by apply Hend; apply Hr'.
    + by apply Hend; apply Hr'.
    + destruct Hr' as (d & Hd & Ho2). apply (Hfail _ d); try done. right. by exists head.
  - conn_steps. by apply (sim_failed_idle (SendRes (self c)) _ [] c).
Qed.


(** A piece of the request body, taken out of the read buffer. *)
Definition taken_from (c : conn R Bidirect.t) (r : poll (io_result bytes)) (c' : conn R Bidirect.t) : Prop :=
  wld c' = wld c /\ io_wf (bio c') /\ io_fuel fuel budget (bio c') /\ BufIo.outgoing (bio c') = BufIo.outgoing (bio c) /\
  BufIo.can_poll_write (bio c') = BufIo.can_poll_write (bio c) /\
  exists l p, self c' = Bidirect.set_limit l (self c) /\ BufIo.incoming (bio c) = p ++ BufIo.incoming (bio c') /\
  match r with
  | Pending => reads (Bidirect.limit (self c)) p [] l /\ reader_ok l (bio c') /\ on_hold budget BufIo.pending_rx (bio c')
  | Ready (Ok d) => reads (Bidirect.limit (self c)) p d l /\ reader_ok l (bio c')
  | Ready (Err _) => True
  end.

Lemma wp_server_limit_read n (c : conn R Bidirect.t) Q :
  wp (LimitRead.poll_read fuel n) (Bidirect.limit (self c), bio c)
    (fun r st => Q r (mk_conn (Bidirect.set_limit st.1 (self c)) st.2 (wld c))) ->
  wp (limit_read fuel n) c Q.
Proof.
  unfold wp, limit_read. by destruct (LimitRead.poll_read fuel n _) as [[r [l b]]| |].
Qed.

Lemma take_chunk_wp (c : conn R Bidirect.t) : io_wf (bio c) -> io_fuel fuel budget (bio c) ->
  reader_ok (Bidirect.limit (self c)) (bio c) ->
  LimitRead.can_read_entire_vec (Bidirect.limit (self c)) = true -> BufIo.can_take_read_buf (bio c) = true ->
  wp take_chunk c (taken_from c).
Proof.
  intros Hio Hf Hl Hcan Htake. pose proof Hio as (Hrd & _ & Hsp).
  destruct (BufIo.take_read_buf_ok (bio c) Hrd Htake) as (b' & E & Hrd' & Htx & Hin & _ & Hinner & Hpos).
  assert (Hlen : zlen (BufIo.incoming b') <= zlen (BufIo.incoming (bio c))) by (rewrite Hin; zlia).
  rewrite BufIo.span_eq in Hsp by done. pose proof Hrd as (_ & _ & Hp0 & _).
  destruct (io_wf_rx (fuel := fuel) (budget := budget) (bio c) b') as (Hio' & Hf' & Ho' & Hc'); [done..| | |done| |].
  { split; [done|by rewrite Hinner]. }
  { rewrite !BufIo.span_eq by done. lia. }
  { unfold BufIo.lasts. by rewrite Hinner. }
  unfold wp, take_chunk. rewrite E. simpl. destruct (Bidirect.limit (self c)) as [|v| |] eqn:El; try done.
  destruct Hl as (Ht & Hlim & Hsum & _). simpl. zlen_facts. rewrite Hin, zlen_app in Hsum.
  rewrite uadd_ok by (unfold MAX_CAPACITY, u64_max in *; zlia). simpl.
  unfold taken_from. cbn [wld bio self]. split_and!; try done.
  eexists _, (BufIo.buffered (bio c)). split; [done|]. split; [done|]. rewrite El. simpl. split_and!; try done; zlia.
Qed.

Lemma copy_chunk_wp n (c : conn R Bidirect.t) : io_wf (bio c) -> io_fuel fuel budget (bio c) -> 0 < n <= isize_max ->
  reader_ok (Bidirect.limit (self c)) (bio c) -> limit_wf (Bidirect.limit (self c)) ->
  wp (copy_chunk fuel n) c (taken_from c).
Proof.
  intros Hio Hf Hn Hl Hwf. destruct (lent_buffer n Hn) as (v & rd & Ev & Er & Elen & Hfill).
  unfold copy_chunk. rewrite Ev. conn_steps. rewrite Er. conn_steps. rewrite Elen. apply wp_server_limit_read.
  eapply wp_mono; [apply (wp_yields (snd_rel BufIo.lasts) (snd_rel (BufIo.held BufIo.pending_rx))); [apply limit_read_yields|];
    apply (wp_keeps (snd_rel BufIo.rd_frame)); [apply limit_read_frame|];
    apply limit_read_wp; [apply Hio|done|lia|destruct Hf; lia|destruct Hf; zlen_facts; lia]|].
  intros r [l1 b1] (((Hrd1 & p & Hp & Hr) & [Hsame Hwith]) & Hlast & Hpend). unfold snd_rel in Hlast, Hpend. cbn [fst snd] in *.
  destruct (Hwith (proj1 Hio)) as [_ Hsp1].
  assert (Hlen : zlen (BufIo.incoming b1) <= zlen (BufIo.incoming (bio c))) by (rewrite Hp; zlia).
  destruct (io_wf_rx (fuel := fuel) (budget := budget) (bio c) b1) as (Hio1 & Hf1 & Ho1 & Hc1); [done..|].
  assert (Hok : forall d, reads (Bidirect.limit (self c)) p d l1 -> limit_wf l1 -> reader_ok l1 b1).
  { intros d Hrd2 Hl1. destruct (Bidirect.limit (self c)) as [|v0| |], l1 as [|v1| |]; try done.
    destruct Hl as (? & ? & Hsum & _), Hrd2 as (-> & Hlim & Htot), Hl1 as [? ?]. simpl.
    rewrite Hp, zlen_app in Hsum. rewrite Hlim, Htot in *. split_and!; lia. }
  destruct r as [|[d|e]]; cbn [early].
  - destruct Hr as [Hr Hl1]. unfold taken_from. cbn [wld bio self]. split_and!; try done.
    exists l1, p. split_and!; try done; [by eapply Hok|]. eapply held_on_hold; [apply Hf|by apply Hpend].
  - destruct Hr as (Hr & Hl1 & Hd & _). conn_steps. destruct (Hfill d Hd) as (v' & -> & Hv'). conn_steps. rewrite Hv'.
    conn_steps. unfold taken_from. cbn [wld bio self]. split_and!; try done.
    exists l1, p. split_and!; try done. by eapply Hok.
  - unfold taken_from. cbn [wld bio self]. split_and!; try done. by exists l1, p.
Qed.

Lemma next_chunk_wp (c : conn R Bidirect.t) : io_wf (bio c) -> io_fuel fuel budget (bio c) ->
  reader_ok (Bidirect.limit (self c)) (bio c) -> BufIo.buffered (bio c) <> [] ->
  wp (if LimitRead.can_read_entire_vec (Bidirect.limit (self c)) && BufIo.can_take_read_buf (bio c)
      then take_chunk else copy_chunk fuel (zlen (BufIo.buffered (bio c)))) c (taken_from c).
Proof.
  intros Hio Hf Hl Hne. destruct (_ && _) eqn:E.
  - apply andb_prop in E as [? ?]. by apply take_chunk_wp.
  - apply copy_chunk_wp; try done.
    + assert (zlen (BufIo.buffered (bio c)) <> 0) by by rewrite zlen_zero.
      pose proof Hio as (Hrd & _ & Hsp). rewrite BufIo.span_eq in Hsp by done. destruct Hrd as (_ & _ & ? & _).
      unfold BufIo.incoming in Hsp. unfold MAX_CAPACITY, READ_BUF_INIT_SIZE, isize_max in *. zlia.
    + destruct (Bidirect.limit (self c)) as [d|v| |]; try done. destruct Hl as (? & ? & _ & Hpos). simpl in *.
      unfold BufIo.can_take_read_buf in E. apply Z.eqb_neq in E. split; [|lia]. lia.
Qed.


Definition body_left (c : conn R Bidirect.t) : nat :=
  (length (BufIo.incoming (bio c)) + match Bidirect.tx_body (self c) with Some _ => 1 | None => 0 end)%nat.

Definition waits_for_body (h : Bidirect.t) b w : Prop :=
  on_hold budget BufIo.pending_rx b \/
  exists id ch, Bidirect.tx_body h = Some id /\ ins w !! id = Some ch /\ backed_up cx ch.

Definition got_body (c : conn R Bidirect.t) (r : poll (io_result unit)) (c' : conn R Bidirect.t) : Prop :=
  match r with
  | Pending => sim (SendRes (self c')) c' /\ waits_for_body (self c') (bio c') (wld c')
  | Ready (Ok _) => sim (SendRes (self c')) c' /\ Bidirect.rx_res (self c') = Bidirect.rx_res (self c) /\
      BufIo.can_poll_write (bio c') = BufIo.can_poll_write (bio c) /\ (body_left c' < body_left c)%nat
  | Ready (Err _) => failed (SendRes (self c')) c'
  end.

(** A piece that was read, with its effect on the channels. *)
Lemma got_piece_sim (c c' : conn R Bidirect.t) id l p d f : sim (SendRes (self c)) c ->
  Bidirect.tx_body (self c) = Some id -> self c' = Bidirect.set_limit l (self c) ->
  io_wf (bio c') -> io_fuel fuel budget (bio c') -> BufIo.outgoing (bio c') = BufIo.outgoing (bio c) ->
  BufIo.incoming (bio c) = p ++ BufIo.incoming (bio c') -> reads (Bidirect.limit (self c)) p d l ->
  reader_ok l (bio c') -> moved f (wld c) (wld c') -> f = (if decide (d = []) then fun w => w else at_in id (push (Ok d))) ->
  sim (SendRes (self c')) c'.
Proof.
  intros Hsim Hid Hself Hio Hf Ho Hi Hr Hl Hm Hfd.
  pose proof Hsim as [_ (_ & _ & Hw & Hwf & Hn & Hho & _ & Hcur)].
  assert (D : drains (wld c) (wld c')) by (apply (moved_drains _ _ _) in Hm; [done|]; subst f; destruct (decide _); auto with drain).
  apply (server_sim_step (SendRes (self c)) (Service.Received p d) _ c); [done| |by apply quiet_one|].
  - unfold abs. rewrite Ho, Hself. destruct Hm as [-> _]. subst f.
    assert (E : (if decide (d = []) then fun w : world => w else at_in id (push (Ok d))) (still_world (wld c)) =
      (if decide (d = []) then still_world (wld c) else at_in id (push (Ok d)) (still_world (wld c)))) by by case_decide.
    rewrite E. by apply Service.get_body.
  - do 2 (split; [done|]). split; [by eapply world_ok_drains|]. split; [by eapply out_fuel_drains|].
    apply (names_drains _ _ _ D) in Hn. rewrite Hself. split; [done|]. by split; [|split].
Qed.

(** What becomes of the piece: it is handed over, and the end is noted. *)
Lemma hand_over_wp (c c1 : conn R Bidirect.t) id l p d : sim (SendRes (self c)) c ->
  Bidirect.tx_body (self c) = Some id -> self c1 = Bidirect.set_limit l (self c) ->
  io_wf (bio c1) -> io_fuel fuel budget (bio c1) -> BufIo.outgoing (bio c1) = BufIo.outgoing (bio c) ->
  BufIo.can_poll_write (bio c1) = BufIo.can_poll_write (bio c) ->
  BufIo.incoming (bio c) = p ++ BufIo.incoming (bio c1) -> reads (Bidirect.limit (self c)) p d l ->
  reader_ok l (bio c1) -> moved (fun w => w) (wld c) (wld c1) ->
  wp (
    this ← on_self get;
    (if negb (bool_decide (d = [])) then _ ← on_world (send_chan in_chans id (Ok d)); mret tt
     else if negb (LimitRead.is_complete (Bidirect.limit this)) then io_err partial_body
     else mret tt);;
    if LimitRead.is_complete (Bidirect.limit this)
    then set_part (Bidirect.set_tx_body None);; on_world (drop_tx_chan in_chans id)
    else mret tt) c1 (got_body c).
Proof.
  intros Hsim Hid Hself Hio Hf Ho Hcan Hi Hr Hl Hm. pose proof Hsim as [_ (_ & _ & _ & _ & (Hnt & _) & _)].
  assert (Hin1 : is_Some (ins (wld c1) !! id)) by (apply (g_in _ _ (proj2 Hm)); auto).
  apply wp_get_self. rewrite Hself. cbn [Bidirect.limit Bidirect.set_limit].
  assert (Hfirst : wp (if negb (bool_decide (d = [])) then _ ← on_world (send_chan in_chans id (Ok d)); mret tt
     else if negb (LimitRead.is_complete l) then io_err partial_body else mret tt) c1 (fun r c' =>
     match r with
     | Ready (Ok _) => sim (SendRes (self c')) c' /\ self c' = self c1 /\ bio c' = bio c1 /\ is_Some (ins (wld c') !! id) /\
         (d = [] -> LimitRead.is_complete l = true)
     | Ready (Err _) => failed (SendRes (self c')) c'
     | Pending => False
     end)).
  { case_bool_decide as Hd; cbn [negb].
    - assert (Hs1 : sim (SendRes (self c1)) c1).
      { apply (got_piece_sim c c1 id l p d (fun w => w)); try done. by rewrite decide_True. }
      destruct (LimitRead.is_complete l); wp_steps; [by split_and!|]. by apply (sim_failed_idle (SendRes (self c1)) _ [] c1).
    - conn_steps. apply wp_on_world. eapply wp_mono; [by apply send_in_wp|]. intros r w2 ((a & ->) & Hm2). conn_steps.
      split; [|split_and!; try done; by apply (g_in _ _ (proj2 Hm2))].
      change (self c1) with (self (set_wld w2 c1)).
      apply (got_piece_sim c (set_wld w2 c1) id l p d (at_in id (push (Ok d)))); try done; [|by rewrite decide_False].
      by apply (moved_trans _ _ _ _ _ Hm Hm2). }
  apply wp_bind. eapply wp_mono; [exact Hfirst|]. intros [|[[]|e]] c2; cbn [early]; [done| |done].
  intros (Hs2 & Hself2 & Hb2 & Hin2 & Hnil).
  assert (Hlen : d <> [] -> (length (BufIo.incoming (bio c1)) < length (BufIo.incoming (bio c)))%nat).
  { intros Hd. apply reads_out in Hr. rewrite Hi, length_app. assert (zlen d <> 0) by by rewrite zlen_zero.
    zlen_facts. unfold zlen in *. lia. }
  destruct (LimitRead.is_complete l) eqn:Hcomp.
  - unfold set_part. conn_steps. apply wp_on_world. cbn [wld set_self]. eapply wp_mono; [by apply drop_tx_in_wp|].
    intros r w3 (([] & ->) & Hm3). cbn. assert (D3 : drains (wld c2) w3) by (apply (moved_drains _ _ _) in Hm3; auto with drain).
    split; [|rewrite Hb2, Hself2, Hself; split_and!; try done].
    + apply (server_sim_step (SendRes (self c2)) Service.Completed _ c2); [done| |by apply quiet_one|].
      * unfold abs. simpl. destruct Hm3 as [-> _]. apply Service.end_body; rewrite Hself2, Hself; done.
      * destruct Hs2 as [_ Hord]. apply (in_order_drains _ _ _ w3) in Hord; [|done].
        destruct Hord as (? & ? & ? & ? & (Ht & ? & ?) & ? & ? & ?). do 4 (split; [done|]).
        split; [by split_and!|]. by split; [|split; [intros []|]].
    + unfold body_left. cbn. rewrite Hb2, Hid. rewrite Hi, length_app. lia.
  - wp_steps. split; [done|]. rewrite Hself2, Hself, Hb2. split_and!; try done.
    unfold body_left. rewrite Hself2, Hself, Hb2, Hid. cbn. rewrite Hid.
    destruct (decide (d = [])) as [Hd|Hd]; [by specialize (Hnil Hd)|]. specialize (Hlen Hd). lia.
Qed.


(** The read buffer, made larger if it is too small, and filled if it is
    empty. *)
Lemma fill_wp n (c : conn R Bidirect.t) : io_wf (bio c) -> io_fuel fuel budget (bio c) -> n <= MAX_CAPACITY ->
  wp (on_bio (b ← get; b ← lift (BufIo.ensure_read_capacity n b); modify (fun _ => b));;
      on_bio (BufIo.poll_fill_buf false)) c (fun r c' =>
    self c' = self c /\ wld c' = wld c /\ io_wf (bio c') /\ io_fuel fuel budget (bio c') /\
    BufIo.outgoing (bio c') = BufIo.outgoing (bio c) /\ BufIo.can_poll_write (bio c') = BufIo.can_poll_write (bio c) /\
    BufIo.incoming (bio c') = BufIo.incoming (bio c) /\ BufIo.pos (bio c') = BufIo.pos (bio c) /\
    match r with
    | Pending => on_hold budget BufIo.pending_rx (bio c')
    | Ready (Ok buf) => buf = BufIo.buffered (bio c')
    | Ready (Err _) => True
    end).
Proof.
  intros Hio Hf Hn. pose proof Hio as (Hrd & _ & _).
  destruct (BufIo.ensure_read_capacity_ok n (bio c) Hrd Hn) as (b1 & E & Hrd1 & Htx1 & Hinner1 & Hpos1 & Hc1 & _).
  apply wp_bind, wp_on_bio. wp_steps. rewrite E. wp_steps. apply wp_on_bio. cbn [bio set_bio].
  assert (Hin1 : BufIo.incoming b1 = BufIo.incoming (bio c)).
  { unfold BufIo.incoming, BufIo.buffered. by rewrite Hpos1, Hc1, Hinner1. }
  eapply wp_mono; [apply (wp_yields BufIo.lasts (BufIo.held BufIo.pending_rx)); [apply BufIo.poll_fill_buf_yields|];
    apply (wp_keeps BufIo.tx_same); [apply BufIo.poll_fill_buf_tx|]; by apply BufIo.poll_fill_buf_wp|].
  intros r b2 (((Hrd2 & _ & Hpos2 & Hfill) & [Htx2 Hsent2]) & Hlast & Hheld).
  assert (Hlast2 : BufIo.lasts (bio c) b2) by (unfold BufIo.lasts in *; by rewrite <- Hinner1).
  assert (Hin2 : BufIo.incoming b2 = BufIo.incoming (bio c)).
  { rewrite <- Hin1. destruct r as [|[d|e]]; apply Hfill. }
  destruct (io_wf_rx (fuel := fuel) (budget := budget) (bio c) b2) as (? & Hf2 & ? & ?); try done; [|rewrite !BufIo.span_eq by done; rewrite Hin2, Hpos2, Hpos1; lia|by rewrite Hin2|].
  { split; [by rewrite Htx2|]. by rewrite Hsent2, Hinner1. }
  cbn [self wld bio set_bio]. rewrite Hpos2. split_and!; try done. destruct r as [|[d|e]]; [|apply Hfill|done].
  eapply (held_on_hold _ b1); [unfold within in *; rewrite Hinner1; apply Hf|by apply Hheld].
Qed.

Lemma server_poll_read_body_wp (c : conn R Bidirect.t) id : sim (SendRes (self c)) c -> Bidirect.tx_body (self c) = Some id ->
  wp (poll_read_body fuel cx) c (got_body c).
Proof.
  intros Hsim Hid. pose proof Hsim as [_ (Hio & Hiof & Hw & Hwf & (Hnt & _) & Hho & Hl & Hcur)].
  unfold poll_read_body. conn_steps. rewrite Hid. simpl. conn_steps. apply wp_on_world.
  eapply wp_mono; [by apply ready_in_wp; auto|]. intros r w1 (Hm1 & Hr).
  destruct r as [|[ready|e]]; cbn [early]; [| |done].
  { split; [by apply (sim_moved _ c)|]. right. destruct Hr as (ch & ? & ?). by exists id, ch. }
  clear Hr.
  apply wp_assoc, wp_bind. eapply wp_mono; [apply fill_wp; try done; unfold MAX_BODY_READ_SIZE, MAX_CAPACITY in *; lia|].
  intros r c2 (Hself2 & Hw2 & Hio2 & Hf2 & Ho2 & Hc2 & Hi2 & Hp2 & Hr). cbn [self bio wld set_wld] in *.
  assert (Hm2 : moved (fun w => w) (wld c) (wld c2)) by by rewrite Hw2.
  assert (Hl2 : reader_ok (Bidirect.limit (self c2)) (bio c2)).
  { rewrite Hself2. apply (reader_ok_same _ (bio c)); auto. apply Hl. by rewrite Hid. }
  destruct r as [|[buf|e]]; cbn [early].
  - split; [|by left]. rewrite Hself2. apply (sim_quiet _ c); try done; congruence.
  - subst buf. case_bool_decide as Hbuf.
    { conn_steps. unfold got_body. rewrite Hself2. by apply (sim_failed_idle (SendRes (self c)) _ [] c). }
    conn_steps. eapply wp_mono; [by apply next_chunk_wp|].
    intros r c3 (Hw3 & Hio3 & Hf3 & Ho3 & Hc3 & l & p & Hself3 & Hi3 & Hr). rewrite Hself2 in *.
    rewrite Hi2 in Hi3. rewrite Ho2 in Ho3. rewrite Hc2 in Hc3. rewrite <- Hw3 in Hm2.
    destruct r as [|[d|e]]; cbn [early].
    + destruct Hr as (Hr & Hl3 & Hp3). split; [|by left].
      apply (got_piece_sim c c3 id l p [] (fun w => w)); try done. 
    + destruct Hr as [Hr Hl3]. by apply (hand_over_wp c c3 id l p d).
    + unfold got_body. rewrite Hself3. by apply (sim_failed_idle (SendRes (self c)) (SendRes (self c)) p c).
  - unfold got_body. rewrite Hself2. by apply (sim_failed_idle (SendRes (self c)) _ [] c).
Qed.


(** When a poll is [Pending], there was nothing more to do: the transport
    stalled, or a channel was empty, or full, whose other end is still there.
    The task has left its waker with the transport, or in that channel; or
    nowhere, if it was not to wait for the user and only the user can let it
    go on. *)
Definition parked (ph : State) b w : Prop :=
  on_hold budget BufIo.pending_tx b \/
  match ph with
  | RecvReq => on_hold budget BufIo.pending_rx b
  | SendRes h => waits_for_body h b w \/
      (waits_for_response h w /\ (register = false -> Bidirect.tx_body h = None))
  | SendBody s => exists ch, outs w !! BodySender.rx_body s = Some ch /\ awaits register cx ch
  | Closed => False
  end.

Definition exchange_left (c : conn R Bidirect.t) : nat :=
  (body_left c + match Bidirect.rx_res (self c) with Some _ => 1 | None => 0 end)%nat.

Definition exchanging (c : conn R Bidirect.t) : Prop :=
  sim (SendRes (self c)) c /\ (Bidirect.rx_res (self c) <> None -> BufIo.can_poll_write (bio c) = true).

Definition took_turn (c : conn R Bidirect.t) (r : poll (io_result (unit + unit))) (c' : conn R Bidirect.t) : Prop :=
  match r with
  | Pending => sim (SendRes (self c')) c' /\ parked (SendRes (self c')) (bio c') (wld c')
  | Ready (Ok (inl _)) => exchanging c' /\ (exchange_left c' < exchange_left c)%nat
  | Ready (Ok (inr _)) => c' = c /\ Bidirect.rx_res (self c) = None /\ Bidirect.tx_body (self c) = None
  | Ready (Err _) => failed (SendRes (self c')) c'
  end.

Lemma wp_is_pending_or (m : io (conn R Bidirect.t) unit) c Q :
  wp m c (fun r c' => match r with
    | Pending => Q (Ready (Ok true)) c'
    | Ready (Ok _) => Q (Ready (Ok false)) c'
    | Ready (Err e) => Q (Ready (Err e)) c'
    end) -> wp (is_pending_or m) c Q.
Proof.
  intros Hm. unfold is_pending_or. apply wp_bind, wp_raw. eapply wp_mono; [done|].
  intros [|[[]|e]] c'; cbn [early]; intros HQ; by wp_steps.
Qed.

(** The second half of a turn: the request's body. *)
Lemma body_half_wp (c0 c : conn R Bidirect.t) : exchanging c -> (exchange_left c <= exchange_left c0)%nat ->
  (Bidirect.tx_body (self c) = None -> (exchange_left c < exchange_left c0)%nat) ->
  wp ((if bool_decide (is_Some (Bidirect.tx_body (self c))) then poll_read_body fuel cx else mret tt);;
      mret (inl tt)) c (took_turn c0).
Proof.
  intros [Hsim Hcan] Hle Hlt. destruct (Bidirect.tx_body (self c)) as [id|] eqn:Hid.
  - rewrite bool_decide_true by eauto. apply wp_bind. eapply wp_mono; [by apply (server_poll_read_body_wp c id)|].
    intros [|[[]|e]] c'; cbn [early got_body]; [|intros (Hs & Hr & Hc & Hl); wp_steps|done].
    + intros [Hs Hw]. split; [done|]. right. by left.
    + split; [split; [done|by rewrite Hr, Hc]|]. unfold exchange_left in *. rewrite Hr. lia.
  - rewrite bool_decide_false by (by intros []). wp_steps. split; [done|]. by apply Hlt.
Qed.

Lemma bidirect_turn_wp (c : conn R Bidirect.t) : exchanging c ->
  wp (bidirect_turn fuel cx register tt) c (took_turn c).
Proof.
  intros Hex. pose proof Hex as [Hsim Hcan]. unfold bidirect_turn. apply wp_get_self.
  destruct (Bidirect.rx_res (self c)) as [id|] eqn:Hid.
  - rewrite bool_decide_false by done. cbn [andb]. rewrite bool_decide_true by eauto.
    apply wp_bind, wp_is_pending_or. eapply wp_mono; [apply (poll_send_resp_wp c id); auto; by apply Hcan|].
    intros [|[[]|e]] c' Hr; cbn [early responded] in *; [| |done].
    + destruct Hr as (Hs & Hself & Hb & Hw). apply wp_get_self. cbn [andb].
      destruct (register || bool_decide (Bidirect.tx_body (self c') = None)) eqn:E.
      * wp_steps. split; [done|]. right. right. rewrite Hself. split; [done|]. intros Hreg.
        rewrite Hreg, Hself in E. by apply bool_decide_eq_true in E.
      * apply orb_false_elim in E as [_ E%bool_decide_eq_false].
        apply body_half_wp; [|unfold exchange_left, body_left; by rewrite Hself, Hb|done].
        split; [done|]. rewrite Hself, Hb. intros _. by apply Hcan.
    + destruct Hr as (Hs & Hr & Ht & Hi). apply wp_get_self. cbn [andb].
      assert (exchange_left c' < exchange_left c)%nat.
      { unfold exchange_left, body_left. rewrite Hr, Ht, Hi, Hid. lia. }
      apply body_half_wp; [|lia|done]. by split.
  - rewrite bool_decide_true by done. cbn [andb]. destruct (Bidirect.tx_body (self c)) as [id|] eqn:Ht.
    + rewrite bool_decide_false by done. rewrite bool_decide_false by (by intros []). apply wp_bind, wp_ret. cbn [early]. apply wp_get_self. cbn [andb].
      apply body_half_wp; [done|done|by rewrite Ht].
    + rewrite bool_decide_true by done. wp_steps. by split.
Qed.

Lemma poll_bidirect_wp (c : conn R Bidirect.t) : sim (SendRes (self c)) c -> BufIo.can_poll_write (bio c) = true ->
  wp (poll_bidirect fuel cx register) c (fun r c' =>
    match r with
    | Pending => sim (SendRes (self c')) c' /\ parked (SendRes (self c')) (bio c') (wld c')
    | Ready (Ok next) => becomes next (SendRes (self c')) c' /\ match next with SendRes _ => False | _ => True end
    | Ready (Err _) => failed (SendRes (self c')) c'
    end).
Proof.
  intros Hsim Hcan. unfold poll_bidirect. apply wp_bind.
  apply (wp_iter (fun _ => exchanging) (fun _ => exchange_left)).
  - intros [] c1 H1'. eapply wp_mono; [by apply bidirect_turn_wp|].
    intros [|[[[]|[]]|e]] c2; cbn [early took_turn]; auto.
    intros (-> & Hrx & Htx). destruct H1' as [Hsim1 _]. clear Hsim Hcan.
    pose proof Hsim1 as [_ (Hio & Hiof & Hw & Hwf & (_ & _ & Hnh) & [Hho _] & _)].
    apply wp_get_self. destruct (Bidirect.holder (self c1)) as [[[no_body l] body]|] eqn:Hh; [|by destruct (Hho Hrx)].
    simpl. unfold set_part. conn_steps. specialize (Hnh _ eq_refl). simpl in Hnh.
    pose proof (Service.end_exchange (self c1) (BufIo.incoming (bio c1)) (BufIo.outgoing (bio c1)) (still_world (wld c1))
      (no_body, l, body) Hrx Htx Hh) as Hstep.
    unfold Service.after_exchange, Service.no_body_to_send in Hstep. cbn [fst snd] in Hstep.
    set (b' := Bidirect.set_holder None (self c1)) in *.
    assert (Hab : forall w, Service.abandon (SendRes b') w = w) by (intros w; simpl; by rewrite Hrx, Htx).
    assert (Hn : forall w, names w (SendRes b')) by (intros w; split_and!; simpl; rewrite ?Hrx, ?Htx; by intros).
    destruct (no_body || LimitWrite.is_no_body l).
    + conn_steps. apply wp_on_world. cbn [wld set_self]. eapply wp_mono; [by apply drop_rx_out_wp|].
      intros r w2 (([] & ->) & Hm2). wp_steps. unfold Service.after_body in Hstep.
      assert (D : drains (wld c1) w2) by (apply (moved_drains _ _ _) in Hm2; auto with drain).
      split; [|by destruct (Bidirect.request_allows_reuse (self c1))].
      eapply (sim_becomes (SendRes (self c1)) (Service.Exchanged _) _ _ c1); [done| |by apply quiet_one|apply Hn|].
      * unfold abs, dropped. rewrite Hab. simpl. destruct Hm2 as [-> _]. exact Hstep.
      * do 2 (split; [done|]). split; [by eapply world_ok_drains|]. split; [by eapply out_fuel_drains|].
        by destruct (Bidirect.request_allows_reuse (self c1)).
    + wp_steps. split; [|done].
      eapply (sim_becomes (SendRes (self c1)) (Service.Exchanged _) _ _ c1); [done| |by apply quiet_one|apply Hn|by split_and!].
      unfold abs, dropped. rewrite Hab. exact Hstep.
  - by split.
  - pose proof Hsim as [_ (_ & [Hf _] & _)]. unfold exchange_left, body_left. zlen_facts. unfold zlen in *.
    destruct (Bidirect.tx_body _), (Bidirect.rx_res _); lia.
Qed.


(** *** [BodySender] *)

Definition chunks_left (c : conn R BodySender.t) : nat :=
  match outs (wld c) !! BodySender.rx_body (self c) with Some ch => length (queue_of ch) | None => 0 end.

Definition sending (c : conn R BodySender.t) : Prop :=
  sim (SendBody (self c)) c /\ BufIo.can_poll_write (bio c) = true.

Definition sent_chunk (c : conn R BodySender.t) (r : poll (io_result (unit + State))) (c' : conn R BodySender.t) : Prop :=
  match r with
  | Pending => sim (SendBody (self c')) c' /\ parked (SendBody (self c')) (bio c') (wld c')
  | Ready (Ok (inl _)) => sending c' /\ (chunks_left c' < chunks_left c)%nat
  | Ready (Ok (inr next)) => becomes next (SendBody (self c')) c' /\ (next = RecvReq \/ next = Closed)
  | Ready (Err _) => failed (SendBody (self c')) c'
  end.

Lemma send_body_turn_wp (c : conn R BodySender.t) : sending c ->
  wp (send_body_turn fuel cx register tt) c (sent_chunk c).
Proof.
  intros [Hsim Hcan]. pose proof Hsim as [_ (Hio & Hiof & Hw & Hwf & Hn & _)]. simpl in Hn.
  unfold send_body_turn. conn_steps. apply wp_on_world. eapply wp_mono; [by apply recv_out_wp|].
  intros r w1 Hr. destruct r as [|[[[chunk end_]|]|e]]; [| | |done]; cbn [early].
  - destruct Hr as (Hm & ch & Hch & Hcx). split; [by apply (sim_moved _ c)|]. right. by exists ch.
  - destruct Hr as (ch & q & ch' & Hch & Hq & Hm1 & Hch' & Hq').
    assert (Hlen : zlen chunk < Z.of_nat fuel /\ zlen chunk <= isize_max).
    { destruct (Hwf _ ch Hch) as [_ Hf]. destruct Hw as [_ Hw].
      specialize (Hw _ ch Hch). rewrite Hq in Hf, Hw. apply Forall_cons_1 in Hf as [? _].
      by apply Forall_cons_1 in Hw as [? _]. }
    assert (D1 : drains (wld c) w1) by (apply (moved_drains _ _ _) in Hm1; auto with drain).
    pose proof (world_ok_drains _ _ D1 Hw) as Hw1. pose proof (out_fuel_drains _ _ _ D1 Hwf) as Hwf1.
    assert (Hn1 : is_Some (outs w1 !! BodySender.rx_body (self c))) by by apply (d_out _ _ D1).
    conn_steps; [done|]. conn_steps. apply wp_on_bio.
    eapply wp_mono; [apply write_all_wp; [done|tauto..]|].
    intros r b2 (r' & -> & Ht). apply (took_wf (fuel := fuel) (budget := budget)) in Ht as (Hio2 & Hin2 & _ & _ & _ & Hr'); [|done|done|tauto].
    cbn [bio] in *. conn_steps.
    assert (Hq1 : forall at_once, Service.step (abs (SendBody (self c)) c) (Service.Sent (BodySender.rx_body (self c)) chunk end_ at_once)
      (Service.mk (if end_ && at_once then Service.after_body (BodySender.request_allows_reuse (self c)) else SendBody (self c))
        (BufIo.incoming (bio c)) (BufIo.outgoing (bio c) ++ chunk)
        (if end_ && at_once then at_out (BodySender.rx_body (self c)) close_rx (still_world w1) else still_world w1))).
    { intros at_once. destruct Hm1 as [-> _]. apply (Service.send_chunk _ _ _ _ (still ch) chunk end_ at_once q); [|done].
      simpl. by apply still_lookup. }
    destruct r' as [|[[]|e]]; conn_steps.
    + destruct Hr' as (Hf2 & Ho2 & Hp2). split; [|by left].
      apply (server_sim_step (SendBody (self c)) (Service.Sent (BodySender.rx_body (self c)) chunk end_ false) _ c); [done| |by apply quiet_one|by split_and!].
      specialize (Hq1 false). rewrite andb_false_r in Hq1. unfold abs. simpl. by rewrite Hin2, Ho2.
    + destruct Hr' as (Hf2 & Ho2 & Hc2). specialize (Hq1 true). rewrite andb_true_r in Hq1. destruct end_; wp_steps.
      * split; [|destruct (BodySender.request_allows_reuse (self c)); auto].
        eapply (sim_becomes (SendBody (self c)) (Service.Sent (BodySender.rx_body (self c)) chunk true true) _ _ c); [done| |by apply quiet_one|done|].
        -- unfold dropped. simpl. rewrite Hin2, Ho2. exact Hq1.
        -- do 4 (split; [done|]). by destruct (BodySender.request_allows_reuse (self c)).
      * split; [split; [|done]|].
        -- apply (server_sim_step (SendBody (self c)) (Service.Sent (BodySender.rx_body (self c)) chunk false true) _ c); [done| |by apply quiet_one|by split_and!].
           unfold abs at 2. simpl. by rewrite Hin2, Ho2.
        -- unfold chunks_left. simpl. rewrite Hch, Hch', Hq, Hq'. simpl. lia.
    + destruct Hr' as (d & Hd & Ho2). apply (server_sim_failed (SendBody (self c)) _ [] d c); try done.
      simpl. destruct Hm1 as [-> _]. apply (Service.begin_chunk _ _ (still ch) chunk end_ q); try done.
      simpl. by apply still_lookup.
  - conn_steps; [done|]. conn_steps. by apply (sim_failed_idle (SendBody (self c)) _ [] c).
Qed.

Lemma server_poll_send_body_wp (c : conn R BodySender.t) : sending c ->
  wp (poll_send_body fuel cx register) c (fun r c' =>
    match r with
    | Pending => sim (SendBody (self c')) c' /\ parked (SendBody (self c')) (bio c') (wld c')
    | Ready (Ok next) => becomes next (SendBody (self c')) c' /\ (next = RecvReq \/ next = Closed)
    | Ready (Err _) => failed (SendBody (self c')) c'
    end).
Proof.
  intros Hs. unfold poll_send_body. apply (wp_iter (fun _ => sending) (fun _ => chunks_left)); [|done|].
  - intros [] c1 H1'. eapply wp_mono; [by apply send_body_turn_wp|]. by intros [|[[[]|next]|e]] c2.
  - destruct Hs as [[_ (_ & _ & _ & Hwf & Hn & _)] _]. unfold chunks_left. destruct Hn as [ch Hch].
    rewrite Hch. destruct (Hwf _ ch Hch). lia.
Qed.


(** *** [Codec] *)

(** Between polls there is no bound on what is left to send. *)
Definition stands (c : conn R State) : Prop := leads (abs (self c) c) /\ wf c /\ within budget (bio c).

Lemma in_order_wf (c : conn R State) : in_order (self c) (bio c) (wld c) -> wf c.
Proof. intros (? & _ & ? & _ & ?). by split_and!. Qed.

Lemma server_sim_stands (c : conn R State) : sim (self c) c -> stands c.
Proof. intros [? Hord]. split; [done|]. split; [by apply in_order_wf|]. by destruct Hord as (_ & (_ & _ & ?) & _). Qed.

(** Only the transport and the channels count. *)
Lemma server_sim_part {Self Self'} ph (c : conn R Self) (c' : conn R Self') : sim ph c -> bio c' = bio c -> wld c' = wld c -> sim ph c'.
Proof. intros [? ?] Hb Hw. unfold sim, abs. by rewrite Hb, Hw. Qed.

Lemma server_set_state_wp next (c : conn R State) : names (wld c) (self c) -> world_ok (wld c) ->
  wp (set_state next) c (fun r c' => r = Ready (Ok tt) /\ self c' = next /\ bio c' = bio c /\
    moved (Service.abandon (self c)) (wld c) (wld c')).
Proof.
  intros Hn Hw. unfold set_state. conn_steps. apply wp_on_world. cbn [wld set_self].
  eapply wp_mono; [by apply drop_state_wp|]. by intros r w' (([] & ->) & Hm).
Qed.

(** Entering the state a handler has led to. *)
Lemma enter_wp next (c : conn R State) : becomes next (self c) c ->
  wp (set_state next) c (fun r c' => r = Ready (Ok tt) /\ self c' = next /\ sim next c').
Proof.
  intros (Hl & Hn & Hord). eapply wp_mono; [apply server_set_state_wp; [done|apply Hord]|].
  intros r c' (-> & Hs & Hb & Hm). do 2 (split; [done|]). split.
  - unfold dropped in Hl. unfold abs. rewrite Hb. by destruct Hm as [-> _].
  - rewrite Hb. apply (in_order_drains _ _ (wld c)); [done|]. by apply (moved_drains _ _ _ (draining_abandon _) Hm).
Qed.

Definition rank (s : State) : nat := match s with SendRes _ => 3 | SendBody _ => 2 | _ => 1 end.

Definition finished (want : bool) (o : option package) (c : conn R State) : Prop :=
  wf c /\ within budget (bio c) /\
  match o with
  | Some pkg => want = true /\ exists head req body res es, pkg = package_of req body res /\
      self c = SendRes (bidirect_of req body res) /\ quiet es /\
      Service.run s0 (es ++ [Service.Accepted head req body res]) (abs (self c) c)
  | None => leads (abs (self c) c) /\ (self c = Closed \/ (want = false /\ self c = RecvReq))
  end.

Definition turned (want : bool) (c : conn R State) (r : poll (io_result (unit + option package))) c' : Prop :=
  match r with
  | Pending => stands c' /\ parked (self c') (bio c') (wld c')
  | Ready (Ok (inl _)) => sim (self c') c' /\ (rank (self c') < rank (self c))%nat
  | Ready (Ok (inr o)) => finished want o c'
  | Ready (Err _) => failed (self c') c'
  end.

Lemma next_req_turn_wp (c : conn R State) : sim RecvReq c -> self c = RecvReq ->
  wp (next ← on_part (fun _ => RecvReq) tt (poll_next_req fuel);
      set_state next.2;;
      mret (inr next.1)) c (turned true c).
Proof.
  intros Hsim Hs. apply wp_bind, wp_on_part. eapply wp_mono; [apply poll_next_req_wp; by eapply server_sim_part|].
  intros [|[[[pkg|] next]|e]] c1 Hr; cbn [early next_request] in *; [| | |done].
  - destruct Hr as [Hr Hp]. split; [apply server_sim_stands; by eapply server_sim_part|by right].
  - destruct Hr as (head & req & body & res & -> & -> & Hord & es & Hq & Hrun). cbn [snd fst].
    apply wp_bind. eapply wp_mono; [apply server_set_state_wp; [done|apply Hord]|].
    intros r c2 (-> & Hs2 & Hb & Hm). wp_steps. cbn [bio wld self Service.abandon] in *.
    split; [|split; [rewrite Hb; by destruct Hord as (_ & (_ & _ & ?) & _)|split; [done|]]].
    + apply in_order_wf. rewrite Hs2, Hb. apply (in_order_drains _ _ (wld c1)); [done|].
      by apply (moved_drains _ _ _ draining_id Hm).
    + exists head, req, body, res, es. split_and!; try done. unfold abs. rewrite Hs2, Hb.
      destruct Hm as [-> _]. exact Hrun.
  - destruct Hr as [-> Hr]. cbn [snd fst]. apply wp_bind. eapply wp_mono; [apply enter_wp; exact Hr|].
    intros r c2 (-> & Hs2 & Hsim2). wp_steps. rewrite <- Hs2 in Hsim2. destruct (server_sim_stands _ Hsim2) as (? & ? & ?).
    do 3 (split; [done|]). by left.
Qed.

Lemma bidirect_turn_of_drive_wp want (c : conn R State) h : sim (SendRes h) c -> self c = SendRes h ->
  BufIo.can_poll_write (bio c) = true ->
  wp (next_state ← on_part SendRes h (poll_bidirect fuel cx register);
      set_state next_state;; mret (inl tt)) c (turned want c).
Proof.
  intros Hsim Hs Hcan. apply wp_bind, wp_on_part. eapply wp_mono; [apply poll_bidirect_wp; [by apply (server_sim_part _ c)|done]|].
  intros [|[next|e]] c1 Hr; cbn [early]; [| |done].
  - destruct Hr as [Hr Hp]. split; [apply server_sim_stands; by eapply server_sim_part|done].
  - destruct Hr as [Hr Hk]. apply wp_bind. eapply wp_mono; [apply enter_wp; exact Hr|].
    intros r c2 (-> & Hs2 & Hsim2). wp_steps. unfold turned. rewrite Hs2, Hs. split; [done|]. by destruct next; simpl; [lia| |lia..].
Qed.

Lemma send_body_turn_of_drive_wp want (c : conn R State) h : sim (SendBody h) c -> self c = SendBody h ->
  BufIo.can_poll_write (bio c) = true ->
  wp (next_state ← on_part SendBody h (poll_send_body fuel cx register);
      set_state next_state;; mret (inl tt)) c (turned want c).
Proof.
  intros Hsim Hs Hcan. apply wp_bind, wp_on_part.
  eapply wp_mono; [apply server_poll_send_body_wp; split; [by apply (server_sim_part _ c)|done]|].
  intros [|[next|e]] c1 Hr; cbn [early]; [| |done].
  - destruct Hr as [Hr Hp]. split; [apply server_sim_stands; by eapply server_sim_part|done].
  - destruct Hr as [Hr Hk]. apply wp_bind. eapply wp_mono; [apply enter_wp; exact Hr|].
    intros r c2 (-> & Hs2 & Hsim2). wp_steps. unfold turned. rewrite Hs2, Hs. split; [done|].
    destruct Hk as [-> | ->]; simpl; lia.
Qed.

Lemma drive_turn_wp want (c : conn R State) : sim (self c) c ->
  wp (drive_turn fuel cx want register tt) c (turned want c).
Proof.
  intros Hsim. pose proof Hsim as [_ (Hio & (Hf1 & Hf2 & Hf3) & Hw & Hwf & Hph)]. unfold drive_turn.
  apply wp_bind, wp_on_bio.
  eapply wp_mono; [apply (wp_yields BufIo.lasts (BufIo.held BufIo.pending_tx)); [apply BufIo.poll_finish_pending_write_yields|];
    apply BufIo.poll_finish_pending_write_wp; [apply Hio|done]|].
  intros r b1 ((Htx & Hrx & Hout & Hr) & Hlast & Hheld). pose proof (within_lasts _ _ Hf3 Hlast) as Hf4. destruct (io_wf_tx (bio c) b1 Hio Htx Hrx) as [Hio1 Hin1].
  assert (Hpos : BufIo.pos b1 = BufIo.pos (bio c)) by (unfold BufIo.rx_fields in Hrx; by injection Hrx).
  destruct r as [|[[]|e]]; cbn [early].
  - split; [|left; eapply held_on_hold; [exact Hf3|by apply Hheld]].
    split; [|split; [by split_and!; try apply (phase_ok_same _ (bio c))|done]].
    destruct Hsim as [Hl _]. unfold abs in *. simpl. by rewrite Hin1, Hout.
  - destruct Hr as (Hcan & Hun & _).
    assert (Hsim1 : sim (self c) (set_bio b1 c)).
    { apply (sim_quiet _ c); try done. unfold io_fuel. cbn [bio set_bio]. rewrite Hin1, Hun.
      change (zlen (@nil byte)) with 0. pose proof (zlen_nonneg (BufIo.unsent (bio c))). split_and!; [done|lia|done]. }
    apply wp_get_self. change (self (set_bio b1 c)) with (self c).
    assert (Hturn : forall r c', turned want (set_bio b1 c) r c' -> turned want c r c') by done.
    assert (Hstay : self c = Closed \/ (want = false /\ self c = RecvReq) -> turned want (set_bio b1 c) (Ready (Ok (inr None))) (set_bio b1 c)).
    { intros Hst. destruct (server_sim_stands (set_bio b1 c) Hsim1) as (? & ? & ?). by split_and!. }
    destruct (self c) as [|h|h|] eqn:Hs; (eapply wp_mono; [|apply Hturn]).
    + destruct want; [by apply next_req_turn_wp|]. apply wp_ret, Hstay. by right.
    + by apply bidirect_turn_of_drive_wp.
    + by apply send_body_turn_of_drive_wp.
    + apply wp_ret, Hstay. by left.
  - destruct (decide (self c = Closed)) as [Hc|Hc].
    + split; [|cbn [bio wld set_bio self]; by rewrite Hc]. destruct Hsim as [(es & Hes & Hq) _]. exists es, []. rewrite app_nil_r.
      split; [|by split; [|left]]. unfold dropped, abs in *. cbn [bio wld set_bio self]. rewrite Hin1, Hout, Hc in *. exact Hes.
    + apply (sim_failed_idle (self c) _ [] c); try done.
Qed.

Lemma drive_loop_wp want (c : conn R State) : sim (self c) c ->
  wp (iter fuel (drive_turn fuel cx want register) tt) c (fun r c' =>
    match r with
    | Pending => stands c' /\ parked (self c') (bio c') (wld c')
    | Ready (Ok o) => finished want o c'
    | Ready (Err _) => failed (self c') c'
    end).
Proof.
  intros Hsim. apply (wp_iter (fun _ c => sim (self c) c) (fun _ c => rank (self c))); [|done|].
  - intros [] c1 H1'. eapply wp_mono; [by apply drive_turn_wp|]. by intros [|[[[]|o]|e]] c2.
  - unfold MAX_RESPONSE_SIZE in Hmax. destruct (self c); simpl; lia.
Qed.

End Simulation.

(** ** A poll of the connection *)

Section Poll.
Context {prof : Profile} `{Http} `{Httparse} {R : Type} `{DuplexSpec R}.
Implicit Types (c : conn R State).

(** The hold that a poll was given, unless a package took it. *)
Definition release (want : bool) (r : poll (io_result (option package))) (s : Service.t) : Service.t :=
  match r with
  | Ready (Ok (Some _)) => s
  | _ => if want then Service.set_chans (at_reqs close_tx (Service.chans s)) s else s
  end.

(** What a poll promises; [budget] is what the transport could still stall
    when it began. *)
Definition came_to (budget : nat) (cx : waker) (want register : bool) (r : poll (io_result (option package)))
    (es : list Service.event) c' : Prop :=
  match r with
  | Pending => quiet es /\ within budget (bio c') /\ parked budget cx register (self c') (bio c') (wld c')
  | Ready (Ok None) => quiet es /\ within budget (bio c') /\ (self c' = Closed \/ (want = false /\ self c' = RecvReq))
  | Ready (Ok (Some pkg)) => want = true /\ within budget (bio c') /\ exists es' head req body res, es = es' ++ [Service.Accepted head req body res] /\
      quiet es' /\ pkg = package_of req body res /\ self c' = SendRes (bidirect_of req body res)
  | Ready (Err _) => self c' = Closed /\ exists es' es'', es = es' ++ es'' /\ quiet es' /\
      (es'' = [] \/ exists taken part, es'' = [Service.Failed taken part])
  end.

Definition polled (budget : nat) (cx : waker) (want register : bool) c (r : poll (io_result (option package))) c' : Prop :=
  wf c' /\ exists es s, Service.run (abs (self c) c) es s /\ abs (self c') c' = release want r s /\
    came_to budget cx want register r es c'.

Lemma server_wf_sim fuel c : wf c -> enough fuel c ->
  sim (abs (self c) c) fuel (stalls (BufIo.inner (bio c))) (self c) c.
Proof.
  intros (Hio & Hw & Hp) (_ & Hf & Hwf). split; [exists []; split; [apply Machine.run_nil|constructor]|].
  split_and!; try done. by apply io_fuel_room; [|intros _].
Qed.

Lemma parked_reqs budget cx register ph (b : BufIo.t R) w w' : ress w' = ress w -> ins w' = ins w -> outs w' = outs w ->
  parked budget cx register ph b w -> parked budget cx register ph b w'.
Proof.
  intros Hr Hi Ho. unfold parked, waits_for_body, waits_for_response. rewrite Hr, Hi, Ho. done.
Qed.

(** Dropping the hold. *)
Lemma or_drop_want_wp (want : bool) (m : io (conn R State) (option package)) c Q :
  wp m c (fun r c' => match r with
    | Ready (Ok (Some _)) => Q r c'
    | _ => forall w', ress w' = ress (wld c') -> ins w' = ins (wld c') -> outs w' = outs (wld c') ->
        (if want then moved (at_reqs close_tx) (wld c') w' else w' = wld c') -> Q r (set_wld w' c')
    end) -> wp (or_drop_want want m) c Q.
Proof.
  unfold wp, or_drop_want. destruct (m c) as [[r c']| |]; [|done..].
  pose proof (drop_drive_wp (wld c')) as Hd. unfold wp in Hd.
  assert (Hgo : (forall w' : world, ress w' = ress (wld c') -> ins w' = ins (wld c') -> outs w' = outs (wld c') ->
      (if want then moved (at_reqs close_tx) (wld c') w' else w' = wld c') -> Q r (set_wld w' c')) ->
    ewp (if want then '(_, c'') ← on_world drop_drive c'; Done (r, c'') else Done (r, c')) (fun p => Q p.1 p.2)).
  { intros HQ. destruct want; simpl; [|specialize (HQ (wld c')); destruct c'; by apply HQ].
    unfold on_world, zoom, drop_drive, on_reqs in *. destruct (Mpsc.drop_sender (reqs (wld c'))) as [ch l].
    simpl in *. apply HQ; try done. apply Hd. }
  destruct r as [|[[pkg|]|e]]; simpl; auto.
Qed.

Definition released (want : bool) (w w' : world) : Prop :=
  if want then moved (at_reqs close_tx) w w' else w' = w.

Lemma released_drains want w w' : released want w w' -> drains w w'.
Proof. destruct want; simpl; [|by intros ->]. apply moved_drains. auto with drain. Qed.

Lemma released_wf want c w' : released want (wld c) w' -> wf c -> wf (set_wld w' c).
Proof.
  intros D%released_drains (Hio & Hw & Hp). split; [done|]. split; [by eapply world_ok_drains|by eapply phase_ok_drains].
Qed.

Lemma released_still want w w' : released want w w' ->
  still_world w' = if want then at_reqs close_tx (still_world w) else still_world w.
Proof. destruct want; simpl; [by intros [? _]|by intros ->]. Qed.

Lemma released_abs want c w' r : released want (wld c) w' -> match r with Ready (Ok (Some _)) => False | _ => True end ->
  abs (self c) (set_wld w' c) = release want r (abs (self c) c).
Proof.
  intros Hr%released_still Hp. unfold abs. simpl. rewrite Hr. destruct r as [|[[?|]|?]]; by destruct want.
Qed.

Lemma poll_server_wp fuel cx want register c : wf c -> enough fuel c ->
  wp (poll_server fuel cx want register) c (polled (stalls (BufIo.inner (bio c))) cx want register c).
Proof.
  intros Hwf Hen. unfold poll_server. apply wp_bind, wp_raw, or_drop_want_wp.
  eapply wp_mono; [by apply (drive_loop_wp (abs (self c) c) fuel (stalls (BufIo.inner (bio c))) cx register (proj1 Hen) want), server_wf_sim|].
  intros r c1 Hr. destruct r as [|[[pkg|]|e]]; cbn [early].
  - intros w' Hrs Hi Ho Hw. destruct Hr as [((es & Hes & Hq) & Hwf1 & Hin) Hp]. wp_steps. split; [by apply (released_wf want)|].
    exists es, (abs (self c1) c1). split; [done|]. split; [exact (released_abs want c1 w' Pending Hw I)|]. split; [done|].
    split; [done|]. by apply (parked_reqs _ _ _ _ _ (wld c1)).
  - destruct Hr as (Hwf1 & Hin & Hwant & head & req & body & res & es & Hpkg & Hs & Hq & Hes). wp_steps. split; [done|].
    exists (es ++ [Service.Accepted head req body res]), (abs (self c1) c1). do 3 (split; [done|]).
    split; [done|]. exists es, head, req, body, res. by split_and!.
  - intros w' Hrs Hi Ho Hw. destruct Hr as (Hwf1 & Hin & (es & Hes & Hq) & Hst). wp_steps. split; [by apply (released_wf want)|].
    exists es, (abs (self c1) c1). split; [done|]. split; [exact (released_abs want c1 w' (Ready (Ok None)) Hw I)|]. by split.
  - intros w' Hrs Hi Ho Hw. destruct Hr as ((es & es' & Hes & Hq & He) & Hn & Hio & Hwo).
    pose proof (released_drains want _ _ Hw) as D. apply wp_bind.
    eapply wp_mono; [apply server_set_state_wp; [by eapply names_drains|by eapply world_ok_drains]|].
    intros r c2 (-> & Hs & Hb & Hm). cbn [early]. wp_steps. pose proof (moved_drains _ _ _ (draining_abandon _) Hm) as D2.
    split.
    { unfold wf. rewrite Hs, Hb. split; [done|]. split; [|by split]. cbn [wld set_wld] in *.
      eapply world_ok_drains; [|done]. by etransitivity. }
    exists (es ++ es'), (dropped Closed (self c1) c1). split; [done|]. split; [|split; [done|by exists es, es']].
    destruct Hm as [Hst _]. cbn [wld set_wld self] in Hst. rewrite (released_still _ _ _ Hw) in Hst.
    unfold abs, dropped. rewrite Hs, Hb, Hst. simpl. by destruct want; rewrite ?abandon_reqs.
Qed.
End Poll.
