(* ===== verification/Server_session.v ===== *)
(** * Server sessions

    The user and the connection take turns: [user] has every call of a
    request's handles, [session] interleaves them with accepts, closes, and
    the polls that the handles make on the connection's behalf, lists the
    calls, each by the channels in front of it and behind it, and notes
    whether a poll has failed.  Whatever the user does, the connection stays in
    order, and a session is a history of [Service] with exactly these calls,
    and a failure only if a poll has failed; the properties of histories are
    therefore properties of every session.  Concrete sessions at the end. *)

From S2P Require Import Prelude.
From S2P Require Import Async.
From S2P Require Import Std_text.
From S2P Require Import Fast_buf.
From S2P Require Import Transport.
From S2P Require Import Buf_reader.
From S2P Require Import Chunked.
From S2P Require Import Http_api.
From S2P Require Import Error.
From S2P Require Import Limit.
From S2P Require Import Http11.
From S2P Require Import Mpsc.
From S2P Require Import Share.
From S2P Require Import Accounts.
From S2P Require Import Channels.
From S2P Require Import Handles.
From S2P Require Import Codec.
From S2P Require Import Streams.
From S2P Require Import Machine.
From S2P Require Import Server.
From S2P Require Import Server_spec.
From S2P Require Import Server_proofs.

(** ** The user's calls *)

Section User.
Context {prof : Profile} `{Http} `{Httparse}.
Implicit Types (w : world).

(** Calls of the handles, without the polls of the connection they make,
    that neither give a response nor send a piece of a body.  They are those
    of this connection: a name without a channel would be a panic. *)
Inductive call w : world -> Prop :=
  | call_read fuel cx n this r this' w' :
      RecvStream.poll_body_data fuel cx n (this, w) = Done (r, (this', w')) -> call w w'
  | call_drop_response s r w' : drop_send_response s w = Done (r, w') -> call w w'
  | call_drop_send s r w' : drop_send_stream s w = Done (r, w') -> call w w'
  | call_drop_recv s r w' : drop_recv_stream s w = Done (r, w') -> call w w'.

Inductive user w : world -> Prop :=
  | user_respond s response no_body r w' ver : version_str (res_version response) = Done ver ->
      enqueue_response s response no_body w = Done (r, w') -> user w w'
  | user_send_data cx end_ this d r this' rest w' : sendable this d ->
      SendStream.poll_send_data cx end_ (this, d, w) = Done (r, (this', rest, w')) -> user w w'
  | user_call w' : call w w' -> user w w'.

(** What the user may change: channels are added, and all that is sent can be
    served. *)
Record adds w w' : Prop := {
  ad_res : forall id, is_Some (ress w !! id) -> is_Some (ress w' !! id);
  ad_in : forall id, is_Some (ins w !! id) -> is_Some (ins w' !! id);
  ad_out : forall id, is_Some (outs w !! id) -> is_Some (outs w' !! id);
  ad_ok : world_ok w -> world_ok w';
}.

#[export] Instance adds_preorder : PreOrder adds.
Proof. split; [intros w; split; auto|]. intros w1 w2 w3 [????] [????]. split; auto. Qed.

Lemma answer_ok_more w w' a : (forall id, is_Some (outs w !! id) -> is_Some (outs w' !! id)) ->
  answer_ok w a -> answer_ok w' a.
Proof. intros Ho [? ?]. split; auto. Qed.

Lemma widens_adds w w' : widens w w' -> adds w w'.
Proof.
  intros W. split; try apply W. intros [Hr Ho]. split; [|by apply (wd_small _ _ W)].
  intros id c' Hc'. destruct (wd_resq _ _ W id c' Hc') as [->|(c & Hc & Hq)]; [constructor|].
  apply (Forall_suffix _ _ _ Hq). specialize (Hr id c Hc). revert Hr. apply Forall_impl. intros a.
  apply answer_ok_more, W.
Qed.

(** The holds, and the answer that is queued. *)
Lemma on_reqs_adds {B} (op : Mpsc.t unit -> B * Mpsc.t unit * list waker) w : adds w (on_reqs op w).2.
Proof. unfold on_reqs. destruct (op (reqs w)) as [[a c] l]. simpl. split; auto. Qed.

Lemma clone_drive_adds : keeps adds clone_drive.
Proof. intros w r w' [= _ <-]. exact (on_reqs_adds (fun c => (tt, Mpsc.clone_sender c, [])) w). Qed.
Lemma drop_drive_adds : keeps adds drop_drive.
Proof.
  intros w r w' [= _ <-]. exact (on_reqs_adds (fun c => let '(c', l) := Mpsc.drop_sender c in (tt, c', l)) w).
Qed.

Lemma send_answer_adds id a w r w' : answer_ok w a -> send_chan res_chans id a w = Done (r, w') -> adds w w'.
Proof.
  intros Ha. unfold send_chan, on_chan. simpl. destruct (ress w !! id) as [c|] eqn:Hc; [|done].
  destruct (Mpsc.send a c) as [[ok c'] l] eqn:E. intros [= _ <-]. apply queue_send in E.
  split; simpl; eauto using insert_is_some. intros [Hr Ho]. split; [|done].
  intros j cj. simpl. rewrite lookup_insert_Some. intros [[<- <-]|[_ Hj]]; [|by apply (Hr j)].
  specialize (Hr id c Hc). destruct E as [-> | ->]; [done|]. apply Forall_app. split; [done|by constructor].
Qed.

Lemma keeps_adds {B} (m : io world B) : keeps widens m -> keeps adds m.
Proof. intros Hm w r w' E. apply widens_adds. by eapply Hm. Qed.

Lemma drop_send_response_adds s : keeps adds (drop_send_response s).
Proof. unfold drop_send_response. keeps_tac; auto using drop_drive_adds, keeps_adds, drop_tx_res_widens. Qed.
Lemma drop_send_stream_adds s : keeps adds (drop_send_stream s).
Proof. unfold drop_send_stream. keeps_tac; auto using drop_drive_adds, keeps_adds, drop_tx_out_widens. Qed.
Lemma drop_recv_stream_adds s : keeps adds (drop_recv_stream s).
Proof. unfold drop_recv_stream. keeps_tac; auto using drop_drive_adds, keeps_adds, drop_rx_in_widens. Qed.

Lemma enqueue_response_adds s response no_body ver w r w' : version_str (res_version response) = Done ver ->
  enqueue_response s response no_body w = Done (r, w') -> adds w w'.
Proof.
  intros Hv E. unfold enqueue_response in E.
  apply bind_done in E as (r1 & w1 & E1 & E). pose proof E1 as W1. apply new_out_widens in W1. injection E1 as <- <-.
  cbv zeta in E. apply bind_done in E as (r2 & w2 & E2 & E). pose proof E2 as A2. apply clone_drive_adds in A2. injection E2 as <- <-.
  apply bind_done in E as (r3 & w3 & E3 & E).
  set (id := fresh_chan (outs w)) in *. set (ended := has_no_body s response no_body) in *.
  assert (A12 : adds w (on_reqs (fun c => (tt, Mpsc.clone_sender c, [])) (put out_chans (<[id := Mpsc.new 1]> (outs w)) w)).2).
  { etransitivity; [by apply widens_adds|done]. }
  assert (A3 : adds w w3).
  { etransitivity; [exact A12|]. eapply send_answer_adds; [|exact E3]. split; [by exists ver|]. simpl. by rewrite lookup_insert_eq. }
  etransitivity; [exact A3|]. destruct r3 as [|[sent|e]]; [by subst w'| |by subst w']. revert E.
  match goal with |- ?m w3 = _ -> _ => assert (Hm : keeps adds m) end; [|apply Hm].
  destruct sent; cbn [negb]; keeps_tac; auto using drop_send_stream_adds, drop_send_response_adds.
  by apply keeps_adds, drop_rx_out_widens.
Qed.

Lemma call_adds w w' : call w w' -> adds w w'.
Proof.
  intros [fuel cx n this r this' w1 E|s r w1 E|s r w1 E|s r w1 E].
  - apply widens_adds. change w with (snd (this, w)). change w1 with (snd (this', w1)). by eapply poll_body_data_widens.
  - by eapply drop_send_response_adds.
  - by eapply drop_send_stream_adds.
  - by eapply drop_recv_stream_adds.
Qed.

Lemma user_adds w w' : user w w' -> adds w w'.
Proof.
  intros [s response no_body r w1 ver Hv E|cx end_ this d r this' rest w1 Hs E|w1 Hc]; [| |by apply call_adds].
  - by eapply enqueue_response_adds.
  - apply widens_adds. by eapply send_data_widens.
Qed.

(** *** Answers and bodies *)

(** Answers are only put at the end of a channel. *)
Definition gives_answers w w' : Prop := forall id, gives (ress w !! id) (ress w' !! id).

#[local] Instance gives_answers_preorder : PreOrder gives_answers.
Proof. split; [intros w id; apply gives_refl|intros w1 w2 w3 G1 G2 id; exact (gives_trans _ _ _ (G1 id) (G2 id))]. Qed.

Lemma same_answers w w' : ress w' = ress w -> gives_answers w w'.
Proof. intros E id. rewrite E. apply gives_refl. Qed.

Lemma on_out_answers {B} id (op : body_chan -> B * body_chan * list waker) w a w' :
  on_chan out_chans id op w = Done (a, w') -> gives_answers w w'.
Proof.
  unfold on_chan. simpl. destruct (outs w !! id) as [c|]; [|done]. destruct (op c) as [[? c'] l]. intros [= _ <-]. by apply same_answers.
Qed.
Lemma on_in_answers {B} id (op : Mpsc.t (io_result bytes) -> B * Mpsc.t (io_result bytes) * list waker) w a w' :
  on_chan in_chans id op w = Done (a, w') -> gives_answers w w'.
Proof.
  unfold on_chan. simpl. destruct (ins w !! id) as [c|]; [|done]. destruct (op c) as [[? c'] l]. intros [= _ <-]. by apply same_answers.
Qed.
Lemma on_res_answers {B} id (op : Mpsc.t answer -> B * Mpsc.t answer * list waker) w a w' :
  (forall c a c' l, op c = (a, c', l) -> gives (Some (still c)) (Some (still c'))) ->
  on_chan res_chans id op w = Done (a, w') -> gives_answers w w'.
Proof.
  intros Hop. unfold on_chan. simpl. destruct (ress w !! id) as [c|] eqn:Hc; [|done]. destruct (op c) as [[? c'] l] eqn:E.
  intros [= _ <-] j. simpl. destruct (decide (j = id)) as [->|Hne]; [|rewrite lookup_insert_ne by done; apply gives_refl].
  rewrite lookup_insert_eq, Hc. destruct (Hop _ _ _ _ E) as (c2 & [= <-] & Hg). by exists c'.
Qed.

Ltac answers_tac :=
  let E := fresh "E" in
  intros w ? w'; unfold poll_recv_chan, send_chan, drop_tx_chan, drop_rx_chan;
  destruct (on_chan _ _ _ w) as [[? ?]| |] eqn:E; try done; intros [= _ <-]; revert E;
  first [apply on_in_answers | apply on_out_answers | apply on_res_answers].

Lemma recv_in_answers id cx register : keeps gives_answers (poll_recv_chan in_chans id cx register).
Proof. answers_tac. Qed.
Lemma drop_rx_in_answers id : keeps gives_answers (drop_rx_chan in_chans id).
Proof. answers_tac. Qed.
Lemma drop_rx_out_answers id : keeps gives_answers (drop_rx_chan out_chans id).
Proof. answers_tac. Qed.
Lemma drop_tx_out_answers id : keeps gives_answers (drop_tx_chan out_chans id).
Proof. answers_tac. Qed.
Lemma drop_tx_res_answers id : keeps gives_answers (drop_tx_chan res_chans id).
Proof.
  answers_tac. intros c a c' l. destruct (Mpsc.drop_sender c) eqn:E. apply still_drop_sender in E. intros [= _ <- _].
  rewrite E. by apply gives_same.
Qed.
Lemma send_res_answers id (a : answer) : keeps gives_answers (send_chan res_chans id a).
Proof. answers_tac. intros c a0 c' l [E _]%still_send. rewrite E. apply gives_push. Qed.
Lemma new_out_answers : keeps gives_answers (new_chan out_chans 1).
Proof. intros w r w' [= _ <-]. by apply same_answers. Qed.
Lemma clone_drive_answers : keeps gives_answers clone_drive.
Proof. intros w r w' [= _ <-]. by apply same_answers. Qed.
Lemma drop_drive_answers : keeps gives_answers drop_drive.
Proof. intros w r w'. unfold drop_drive, on_reqs. destruct (Mpsc.drop_sender (reqs w)). intros [= _ <-]. by apply same_answers. Qed.

Lemma clone_drive_leaves : keeps leaves_bodies clone_drive.
Proof. intros w r w' [= _ <-]. apply (on_reqs_leaves (fun c => (tt, Mpsc.clone_sender c, []))). Qed.
Lemma drop_drive_leaves : keeps leaves_bodies drop_drive.
Proof. intros w r w' [= _ <-]. apply (on_reqs_leaves (fun c => let '(c', l) := Mpsc.drop_sender c in (tt, c', l))). Qed.

#[local] Hint Resolve recv_in_answers drop_rx_in_answers drop_rx_out_answers drop_tx_out_answers drop_tx_res_answers send_res_answers
  new_out_answers clone_drive_answers drop_drive_answers clone_drive_leaves drop_drive_leaves : keeps.

(** Calls that give and draw as a history allows. *)
Definition acts w w' : Prop := gives_answers w w' /\ forall id, gives (outs w !! id) (outs w' !! id).

Lemma keeps_acts {B} (m : io world B) : keeps gives_answers m -> keeps leaves_bodies m -> keeps acts m.
Proof. intros Ha Hl w r w' E. split; [by eapply Ha|]. intros id. apply draws_gives. by eapply Hl. Qed.

Lemma drop_send_response_acts s : keeps acts (drop_send_response s).
Proof. unfold drop_send_response. apply keeps_acts; keeps_tac. Qed.
Lemma drop_send_stream_acts s : keeps acts (drop_send_stream s).
Proof. unfold drop_send_stream. apply keeps_acts; keeps_tac. Qed.
Lemma drop_recv_stream_acts s : keeps acts (drop_recv_stream s).
Proof. unfold drop_recv_stream. apply keeps_acts; keeps_tac. Qed.
Lemma enqueue_response_acts s response no_body : keeps acts (enqueue_response s response no_body).
Proof.
  unfold enqueue_response, drop_answer, drop_send_stream, drop_send_response. apply keeps_acts; keeps_tac.
Qed.

Lemma poll_body_data_answers fuel cx n : keeps (snd_rel gives_answers) (RecvStream.poll_body_data (W := world) fuel cx n).
Proof. unfold RecvStream.poll_body_data, RecvStream.body_data_turn. keeps_tac. Qed.

(** The user's calls are acts of a history. *)
Lemma user_acts w w' : user w w' -> acts w w'.
Proof.
  intros [s response no_body r w1 ver Hv E|cx end_ this d r this' rest w1 Hs E|w1 Hc].
  - by eapply enqueue_response_acts.
  - apply send_data_gives in E as [(_ & Hr & _) Hg]. split; [by apply same_answers|exact Hg].
  - destruct Hc as [fuel cx n this r this' w1 E|s r w1 E|s r w1 E|s r w1 E].
    + change w with (snd (this, w)). change w1 with (snd (this', w1)). split; [by eapply poll_body_data_answers|].
      intros id. apply draws_gives. by apply (poll_body_data_leaves (Q := unit) (A := answer) _ _ _ _ _ _ E).
    + by eapply drop_send_response_acts.
    + by eapply drop_send_stream_acts.
    + by eapply drop_recv_stream_acts.
Qed.

Lemma server_user_lawful w w' : user w w' -> Service.lawful (still_world w) (still_world w').
Proof.
  intros [Ha Ho]%user_acts.
  assert (Hst : forall T (m m' : gmap chan_id (Mpsc.t T)) id, gives (m !! id) (m' !! id) -> gives ((still <$> m) !! id) ((still <$> m') !! id)).
  { intros T m m' id. rewrite !lookup_fmap. destruct (m !! id) as [c|]; simpl; [|done]. intros (c' & -> & Hg). by exists (still c'). }
  split; intros id; apply Hst; auto.
Qed.
End User.

(** ** Sessions *)

Section Session.
Context {prof : Profile} `{Http} `{Httparse} {R : Type} `{DuplexSpec R}.
Implicit Types (c : conn R State).

(** A poll that returned an error; [close] returns none, whatever the poll
    beneath it did. *)
Definition is_err {A} (r : poll (io_result A)) : bool := match r with Ready (Err _) => true | _ => false end.
Definition close_fails fuel cx c : bool :=
  match poll_server fuel cx false true c with Done (r, _) => is_err r | _ => false end.

(** The user's calls, and the polls: of [accept], of [close], and those made
    by the handles, whatever they return, in any order; and the drop of the
    [Connection], which does not stop the handles.  [us] are the calls, each
    by the channels in front of it and behind it, and the flag says whether a
    poll has failed. *)
Inductive session c0 : list Service.act -> bool -> conn R State -> Prop :=
  | session_start : session c0 [] false c0
  | session_user us f c w : session c0 us f c -> user (wld c) w ->
      session c0 (us ++ [(still_world (wld c), still_world w)]) f (set_wld w c)
  | session_accept us f c fuel cx r c' : session c0 us f c -> enough fuel c ->
      poll_accept fuel cx c = Done (r, c') -> session c0 us (f || is_err r) c'
  | session_close us f c fuel cx r c' : session c0 us f c -> enough fuel c ->
      poll_close fuel cx c = Done (r, c') -> session c0 us (f || close_fails fuel cx c) c'
  | session_drive us f c fuel cx r c' : session c0 us f c -> enough fuel c ->
      poll_drive_external fuel cx c = Done (r, c') -> session c0 us (f || is_err r) c'
  | session_drop us f c r w : session c0 us f c -> drop_connection (wld c) = Done (r, w) -> session c0 us f (set_wld w c).

Lemma server_handshake_ok (io : R) : fits io -> exists c, handshake io = Done c /\ wf c /\ self c = RecvReq /\
  BufIo.incoming (bio c) = r_stream io /\ BufIo.outgoing (bio c) = w_sent io.
Proof.
  intros Hf. unfold handshake, new_codec. destruct (fresh_buffers io Hf) as (b & -> & Hb & Hi & Ho). simpl.
  eexists. split; [done|]. split; [|by split_and!]. split; [done|]. split; [|done].
  split; intros id ch; simpl; by rewrite lookup_empty.
Qed.

Lemma wf_world c w : (forall id, is_Some (ress (wld c) !! id) -> is_Some (ress w !! id)) ->
  (forall id, is_Some (ins (wld c) !! id) -> is_Some (ins w !! id)) ->
  (forall id, is_Some (outs (wld c) !! id) -> is_Some (outs w !! id)) -> world_ok w -> wf c -> wf (set_wld w c).
Proof.
  intros Hr Hi Ho Hok (Hio & _ & Hn & Hp). split; [done|]. split; [done|]. split; [|done].
  cbn [self wld set_wld]. destruct (self c) as [|h|s|]; simpl in *; auto. destruct Hn as (? & ? & ?). split_and!; auto.
Qed.

Lemma wf_adds c w : adds (wld c) w -> wf c -> wf (set_wld w c).
Proof. intros [??? Hok] Hwf. apply wf_world; auto. apply Hok, Hwf. Qed.

Lemma wf_user c w : user (wld c) w -> wf c -> wf (set_wld w c).
Proof. intros ?%user_adds. by apply wf_adds. Qed.

Lemma drop_rx_reqs_adds : keeps adds drop_rx_reqs.
Proof.
  intros w r w' [= _ <-]. exact (on_reqs_adds (fun q => let '(q', l) := Mpsc.drop_receiver q in (tt, q', l)) w).
Qed.
Lemma drop_connection_adds : keeps adds drop_connection.
Proof. unfold drop_connection. keeps_tac; auto using drop_drive_adds, drop_rx_reqs_adds. Qed.

Lemma wf_drains c w : drains (wld c) w -> wf c -> wf (set_wld w c).
Proof. intros D (? & ? & ?). split; [done|]. split; [by eapply world_ok_drains|by eapply phase_ok_drains]. Qed.

(** What happens to a connection in a poll: a run, but for the holds; without
    a failure, unless the poll failed. *)
Definition moves_on c (f : bool) (es : list Service.event) c' : Prop :=
  wf c' /\ (f = false -> Service.unfailed es) /\ exists w s w', Service.same_bodies (still_world (wld c)) w /\
    Service.run (Service.set_chans w (abs (self c) c)) es s /\
    Service.same_bodies (Service.chans s) w' /\ abs (self c') c' = Service.set_chans w' s.

Lemma quiet_unfailed es : quiet es -> Service.unfailed es.
Proof. apply Forall_impl. by intros e [_ ?]. Qed.

Lemma came_to_unfailed budget cx want register r es c' : came_to budget cx want register r es c' -> is_err r = false ->
  Service.unfailed es.
Proof.
  intros Hr Hf. destruct r as [|[[pkg|]|e]]; [by apply quiet_unfailed, Hr| |by apply quiet_unfailed, Hr|done].
  destruct Hr as (_ & _ & es' & head & req & body & res & -> & Hq & _). apply Service.unfailed_app.
  split; [by apply quiet_unfailed|by apply Forall_singleton].
Qed.

Lemma server_moves fuel cx want register c r c' : wf c -> enough fuel c ->
  poll_server fuel cx want register c = Done (r, c') -> exists es, moves_on c (is_err r) es c'.
Proof.
  intros Hwf Hen E. pose proof (poll_server_wp fuel cx want register c Hwf Hen) as Hp. unfold wp in Hp. rewrite E in Hp.
  assert (polled (stalls (BufIo.inner (bio c))) cx want register c r c') as (Hw & es & s & Hrun & Habs & Hr) by exact Hp. exists es. split; [done|].
  split; [by eapply came_to_unfailed|].
  exists (still_world (wld c)), s, (Service.chans (abs (self c') c')). split; [done|]. split; [exact Hrun|]. rewrite Habs.
  unfold release. destruct r as [|[[pkg|]|e]]; destruct want; (split; [done|]); by destruct s.
Qed.

Lemma moves_on_world c w : Service.same_bodies (wld c) w -> wf (set_wld w c) -> moves_on c false [] (set_wld w c).
Proof.
  intros (Hr & Ho & Hi) Hwf. split; [done|]. split; [by constructor|]. exists (still_world (wld c)), (abs (self c) c), (still_world w).
  split; [done|]. split; [apply Machine.run_nil|]. split; [|done]. unfold still_world, Service.same_bodies. simpl. by rewrite Hr, Ho, Hi.
Qed.

(** [accept] waits for the holds of the previous request, or polls. *)
Definition with_hold c : conn R State := set_wld (on_reqs (fun ch => (tt, Mpsc.clone_sender ch, [])) (wld c)).2 c.

Lemma poll_accept_cases fuel cx c : poll_accept fuel cx c =
  if decide (count_external (wld c) = 1%nat) then poll_server fuel cx true true (with_hold c)
  else match Mpsc.poll_recv cx true (reqs (wld c)) with
  | (Pending, ch, l) => Done (Pending, set_wld (wake l (at_reqs (fun _ => ch) (wld c))) c)
  | _ => Panic (PAssert "unreachable")
  end.
Proof.
  unfold poll_accept, poll_pending_external, with_hold. unfold mbind, io_bind, on_world at 1, zoom, get at 1.
  destruct (decide _); [done|]. unfold poll_recv_req, on_reqs at 1.
  by destruct (Mpsc.poll_recv cx true (reqs (wld c))) as [[[|v] ch] l].
Qed.

Lemma accept_moves fuel cx c r c' : wf c -> enough fuel c -> poll_accept fuel cx c = Done (r, c') ->
  exists es, moves_on c (is_err r) es c'.
Proof.
  intros Hwf Hen. rewrite poll_accept_cases. destruct (decide _).
  - intros E. assert (Hwf' : wf (with_hold c)) by (apply wf_drains; [split; simpl; eauto|done]).
    apply (server_moves _ _ _ _ _ _ _ Hwf' Hen) in E as (es & Hw & Hu & w & s & w' & Hb & Hm). exists es. split; [done|].
    split; [done|]. exists w, s, w'. by split; [|exact Hm].
  - destruct (Mpsc.poll_recv _ _ _) as [[[|v] ch] l]; [|done]. intros [= <- <-]. exists [].
    apply moves_on_world; [done|]. apply wf_drains; [|done]. split; simpl; eauto.
Qed.

Lemma close_moves fuel cx c r c' : wf c -> enough fuel c -> poll_close fuel cx c = Done (r, c') ->
  exists es, moves_on c (close_fails fuel cx c) es c'.
Proof.
  intros Hwf Hen E. unfold poll_close in E. apply bind_done in E as (r1 & c1 & E1 & E). unfold raw in E1. unfold close_fails.
  destruct (poll_server fuel cx false true c) as [[r2 c2]| |] eqn:Ep; try done. injection E1 as <- <-.
  apply (server_moves _ _ _ _ _ _ _ Hwf Hen) in Ep. by destruct r2; injection E as _ <-.
Qed.

Lemma drive_moves fuel cx c r c' : wf c -> enough fuel c -> poll_drive_external fuel cx c = Done (r, c') ->
  exists es, moves_on c (is_err r) es c'.
Proof.
  intros Hwf Hen E. unfold poll_drive_external in E. apply bind_done in E as (r1 & c1 & E1 & E). unfold raw in E1.
  destruct (poll_server fuel cx false false c) as [[r2 c2]| |] eqn:Ep; try done. injection E1 as <- <-.
  apply (server_moves _ _ _ _ _ _ _ Hwf Hen) in Ep. destruct r2 as [|[[pkg|]|e]]; try done; try by injection E as <- <-.
  unfold mbind, io_bind, get in E. by destruct (_ || _); injection E as <- <-.
Qed.

Lemma drop_connection_same w r w' : drop_connection w = Done (r, w') -> Service.same_bodies w w'.
Proof.
  unfold drop_connection. intros E. apply bind_done in E as (r1 & w1 & E1 & E). injection E1 as <- <-.
  injection E as _ <-. unfold on_reqs. simpl. by repeat case_match.
Qed.

Lemma drop_moves c r w : wf c -> drop_connection (wld c) = Done (r, w) -> moves_on c false [] (set_wld w c).
Proof.
  intros Hwf E. apply moves_on_world; [by eapply drop_connection_same|].
  apply wf_adds; [by eapply drop_connection_adds|done].
Qed.

(** The state of a history, up to what the user did last. *)
Definition reached s0 us (f : bool) c : Prop :=
  wf c /\ exists es, Service.history s0 us es (abs (self c) c) /\ (f = false -> Service.unfailed es).

Lemma history_moves s0 us es c f es' c' : Service.history s0 us es (abs (self c) c) -> moves_on c f es' c' ->
  Service.history s0 us (es ++ es') (abs (self c') c').
Proof.
  intros Hes (_ & _ & w & s & w' & Hb & Hrun & Hb' & ->). apply Service.history_holds; [|exact Hb'].
  eapply Service.server_run_history; [|exact Hrun]. by apply Service.history_holds.
Qed.

Lemma server_history_call s0 us es c w : Service.history s0 us es (abs (self c) c) -> user (wld c) w ->
  Service.history s0 (us ++ [(still_world (wld c), still_world w)]) es (abs (self c) (set_wld w c)).
Proof. intros Hes Hu. apply (Service.history_user _ _ _ _ (still_world w)) in Hes; [exact Hes|]. by apply server_user_lawful. Qed.

Lemma reached_moves s0 us f f' c c' : reached s0 us f c -> (exists es, moves_on c f' es c') -> reached s0 us (f || f') c'.
Proof.
  intros [_ (es & Hes & Hu)] (es' & Hm). split; [apply Hm|]. exists (es ++ es'). split; [by eapply history_moves|].
  intros [Hf Hf']%orb_false_iff. apply Service.unfailed_app. split; [auto|]. by apply Hm.
Qed.

Lemma reached_user s0 us f c w : reached s0 us f c -> user (wld c) w ->
  reached s0 (us ++ [(still_world (wld c), still_world w)]) f (set_wld w c).
Proof.
  intros [Hwf (es & Hes & Hf)] Hu. split; [by apply wf_user|]. exists es. split; [|done]. exact (server_history_call _ _ _ _ _ Hes Hu).
Qed.

Lemma session_reached c0 us f c : wf c0 -> session c0 us f c -> reached (abs (self c0) c0) us f c.
Proof.
  intros Hwf. induction 1 as [|us f c w _ IH Hu|us f c fuel cx r c' _ IH Hen E|us f c fuel cx r c' _ IH Hen E
    |us f c fuel cx r c' _ IH Hen E|us f c r w _ IH E].
  - split; [done|]. exists []. split; [apply Service.history_nil|intros _; constructor].
  - by apply reached_user.
  - eapply reached_moves; [done|]. by eapply accept_moves; [apply IH|..].
  - eapply reached_moves; [done|]. by eapply close_moves; [apply IH|..].
  - eapply reached_moves; [done|]. by eapply drive_moves; [apply IH|..].
  - rewrite <- (orb_false_r f). eapply reached_moves; [done|]. exists []. by eapply drop_moves; [apply IH|..].
Qed.
End Session.

(** ** What is promised *)

Section Promises.
Context {prof : Profile} `{Http} `{Httparse} {R : Type} `{DuplexSpec R}.
Implicit Types (c : conn R State) (w : world).

(** C8. Every poll of the server connection, whoever makes it, from a
    connection in order and with enough fuel, which there always is, ends: it
    neither loops nor panics, and leaves the connection in order.  What it
    did is a run of [Service], and the connection stands exactly where that
    run leads, the hold it was given aside.  It returns a request exactly when
    the run ends with accepting it, and then that request with its handles;
    it is [Pending] only with nothing left to do but to wait for the transport,
    which if it is live has used up a stall in this very poll, or for the user,
    and where it will be woken ([parked]); it returns nothing only when the
    connection is closed, or when no request was wanted and none is under way;
    and after an error the connection is closed. *)
Theorem server_poll_refines c : wf c ->
  (exists fuel, enough fuel c) /\
  forall fuel cx want register, enough fuel c ->
    exists r c', poll_server fuel cx want register c = Done (r, c') /\ wf c' /\
      exists es s, Service.run (abs (self c) c) es s /\ abs (self c') c' = release want r s /\
      match r with
      | Pending => quiet es /\ parked (stalls (BufIo.inner (bio c))) cx register (self c') (bio c') (wld c')
      | Ready (Ok None) => quiet es /\ (self c' = Closed \/ (want = false /\ self c' = RecvReq))
      | Ready (Ok (Some pkg)) => want = true /\
          exists es' head req body res, es = es' ++ [Service.Accepted head req body res] /\ quiet es' /\
            pkg = package_of req body res /\ self c' = SendRes (bidirect_of req body res)
      | Ready (Err _) => self c' = Closed /\
          exists es' es'', es = es' ++ es'' /\ quiet es' /\ (es'' = [] \/ exists taken part, es'' = [Service.Failed taken part])
      end.
Proof.
  intros Hwf. split; [apply server_enough_exists|]. intros fuel cx want register Hen.
  pose proof (poll_server_wp fuel cx want register c Hwf Hen) as Hp. unfold wp in Hp.
  apply ewp_done in Hp as ([r c'] & E & Hw & es & s & Hrun & Habs & Hr). exists r, c'. do 2 (split; [done|]).
  exists es, s. do 2 (split; [done|]). by destruct r as [|[[pkg|]|e]]; [destruct Hr as (? & _ & ?)|destruct Hr as (? & _ & ?)..|].
Qed.

Lemma server_session_history (io : R) c0 us f c : fits io -> handshake io = Done c0 -> session c0 us f c ->
  wf c /\ exists es, Service.history (abs RecvReq c0) us es (abs (self c) c) /\ (f = false -> Service.unfailed es) /\
    BufIo.outgoing (bio c) = w_sent io ++ (es ≫= Service.sent) /\
    r_stream io = (es ≫= Service.received) ++ BufIo.incoming (bio c) /\ (Service.unfailed es \/ self c = Closed) /\
    Service.in_turn_given us es /\ (Service.unfailed es -> Service.accounted us es (wld c)).
Proof.
  intros Hfit Hsh Hs. destruct (server_handshake_ok io Hfit) as (c0' & E & Hwf & Hst & Hin & Hout).
  rewrite Hsh in E. injection E as <-. destruct (session_reached _ _ _ _ Hwf Hs) as (Hw & es & Hes & Hf).
  rewrite Hst in Hes. split; [done|]. exists es. do 2 (split; [done|]).
  pose proof (Service.server_history_wires _ _ _ _ Hes) as (Ho & Hi & Hc). simpl in Ho, Hi. rewrite Hout in Ho. rewrite Hin in Hi.
  assert (Hnone : forall id, held (ress (still_world (wld c0)) !! id) = [] /\ held (outs (still_world (wld c0)) !! id) = []).
  { revert Hsh. unfold handshake. destruct (new_codec io) as [[b st]| |]; simpl; [|done..]. intros [= <-] id. simpl.
    by rewrite !fmap_empty, !lookup_empty. }
  split_and!; try done; [by apply (Service.server_history_in_turn _ _ _ _ Hes)|]. intros Hu.
  pose proof (Service.server_history_account _ _ _ _ Hes Hnone Hu) as [Hr Hb]. simpl in Hr, Hb.
  assert (Hst' : forall T (said got : list T) o, account said got (still <$> o) -> account said got o) by (intros T said got o; by destruct o).
  split; intros id; apply Hst'; rewrite <- lookup_fmap; auto.
Qed.

(** C9. However the user's calls, accepts, closes and the polls made by the
    handles interleave after a handshake, on any segmentation of reads and
    writes, the connection stays in order and the session is a history of
    [Service] in which the user does exactly what it did, each call on the
    channels as the machine left them.  The wire carries exactly the response
    heads and body pieces of that history, in order, and nothing else; what
    arrived was taken off in order, without a gap; a failure, which only a poll
    that returns an error brings about, may leave a part of the next piece and
    have taken a part of the stream, and after it the connection is closed.
    The answers taken from each channel, and the pieces sent from each with
    their end marks, are those that the user put on it, in order, without a
    gap; and while nothing failed, what was not taken is still on the channel
    or went with its receiver. *)
Theorem server_session_refines (io : R) c0 us f c : fits io -> w_sent io = [] -> handshake io = Done c0 -> session c0 us f c ->
  wf c /\ exists es, Service.history (abs RecvReq c0) us es (abs (self c) c) /\
    BufIo.outgoing (bio c) = (es ≫= Service.sent) /\
    r_stream io = (es ≫= Service.received) ++ BufIo.incoming (bio c) /\
    (f = false -> Service.unfailed es) /\ (Service.unfailed es \/ self c = Closed) /\
    Service.in_turn_given us es /\ (Service.unfailed es -> Service.accounted us es (wld c)).
Proof.
  intros Hfit Hsent Hsh Hs. destruct (server_session_history io c0 us f c Hfit Hsh Hs) as (Hw & es & Hes & Hf & Ho & Hi & Hc & Ht & Ha).
  rewrite Hsent in Ho. split; [done|]. exists es. by split_and!.
Qed.

(** C10. A session is a sequence of whole exchanges whose requests all let the
    connection be kept, and then nothing, one exchange under way, or the end:
    a last exchange whose request does not allow reuse, the peer hanging up
    between requests, or a failure, which only a poll that returns an error
    brings about; by the events of a history in which the user does exactly
    what it did.  In a whole exchange no other request is
    accepted; the request body is received to its end, as its headers frame
    it; exactly one response is given, on the channel that came with the
    request; and behind its head its body is sent, from its own channel, up to
    a piece marked as the last, or is empty if the response has none.  Answers
    and pieces, with their end marks, are those that the user put on their
    channels, in order.  The exchange under way is such a one broken off, and
    stands in the phase the connection is in. *)
Theorem server_exchanges_are_whole (io : R) c0 us f c : fits io -> handshake io = Done c0 -> session c0 us f c ->
  exists es xs l, Service.history (abs RecvReq c0) us es (abs (self c) c) /\ (f = false -> Service.unfailed es) /\
    Service.in_turn_given us es /\ (Service.unfailed es -> Service.accounted us es (wld c)) /\
    es = (xs ≫= Service.trace_of) ++ l /\
    Forall (fun x => Service.whole x /\ Service.keeps_open (Service.x_req x) = true) xs /\
    Service.ending (self c) l.
Proof.
  intros Hfit Hsh Hs. destruct (server_session_history io c0 us f c Hfit Hsh Hs) as (Hw & es & Hes & Hf & _ & _ & _ & Ht & Ha).
  destruct (Service.server_history_exchanges _ _ _ _ Hes eq_refl) as (xs & Hxs & l & Hl & He).
  exists es, xs, l. split_and!; try done. revert Hxs. apply Forall_impl. by intros x (_ & _ & Hx).
Qed.

(** C32. [accept] waits until every handle of the previous request is gone:
    with another hold on the connection it is [Pending], leaves everything as
    it was, and its task is registered where the drop of any hold wakes it;
    that drop lowers the number of holds, and with no other hold left [accept]
    polls the connection for a request. *)
Theorem accept_waits_for_handles fuel cx c : queue_of (reqs (wld c)) = [] -> Mpsc.receivers (reqs (wld c)) <> 0%nat ->
  count_external (wld c) <> 0%nat ->
  if decide (count_external (wld c) = 1%nat)
  then poll_accept fuel cx c = poll_server fuel cx true true (with_hold c)
  else exists w w', poll_accept fuel cx c = Done (Pending, set_wld w c) /\ still_world w = still_world (wld c) /\
    drop_drive w = Done (Ready (Ok tt), w') /\ cx ∈ woken w' /\ count_external (wld c) = S (count_external w').
Proof.
  intros Hq Hr Hn. rewrite poll_accept_cases. destruct (decide _) as [|Hne]; [done|].
  destruct (Mpsc.poll_recv cx true (reqs (wld c))) as [[r ch] l] eqn:E.
  assert (Hrcv : Mpsc.receivers ch = Mpsc.receivers (reqs (wld c)) /\ Mpsc.senders ch = Mpsc.senders (reqs (wld c))).
  { unfold Mpsc.poll_recv in E. by destruct (Inner.poll_dequeue _ _ _) as [[? ?] ?]; destruct (decide _); injection E as _ <- _. }
  apply still_recv in E. destruct r as [|[x|]]; [|destruct E as [E _]; by rewrite Hq in E|].
  2: { destruct E as (_ & E & _). unfold count_external in Hn. congruence. }
  destruct E as (Hq' & _ & Hst & Hcx). specialize (Hcx eq_refl). eexists _, _. split; [done|].
  destruct Hrcv as [Hrcv Hsnd]. split; [unfold still_world; simpl; by rewrite Hst|].
  unfold drop_drive, on_reqs, Mpsc.drop_sender, Mpsc.drop_sender_body, Mpsc.upgrade. simpl.
  rewrite decide_False by congruence. simpl. split; [done|]. split.
  - simpl. rewrite elem_of_app. right. exact Hcx.
  - unfold count_external in *. simpl. rewrite Hsnd. lia.
Qed.

(** The drops of handles, one by one. *)
Lemma drop_rx_out_done id w : is_Some (outs w !! id) -> exists w', drop_rx_chan out_chans id w = Done (Ready (Ok tt), w') /\
  reqs w' = reqs w /\ ress w' = ress w /\ forall i, is_Some (outs w !! i) -> is_Some (outs w' !! i).
Proof.
  intros [ch Hch]. unfold drop_rx_chan, on_chan. simpl. rewrite Hch. destruct (Mpsc.drop_receiver ch). simpl. eexists. split_and!; try done. simpl. auto using insert_is_some.
Qed.

Lemma drop_tx_out_done id w : is_Some (outs w !! id) -> exists w', drop_tx_chan out_chans id w = Done (Ready (Ok tt), w') /\
  reqs w' = reqs w /\ ress w' = ress w.
Proof.
  intros [ch Hch]. unfold drop_tx_chan, on_chan. simpl. rewrite Hch. destruct (Mpsc.drop_sender ch). simpl. eexists. by split_and!.
Qed.

Lemma drop_tx_res_done id w : is_Some (ress w !! id) -> exists w', drop_tx_chan res_chans id w = Done (Ready (Ok tt), w') /\
  reqs w' = reqs w.
Proof.
  intros [ch Hch]. unfold drop_tx_chan, on_chan. simpl. rewrite Hch. destruct (Mpsc.drop_sender ch). simpl. eexists. by split_and!.
Qed.

Lemma drop_drive_done w : exists w', drop_drive w = Done (Ready (Ok tt), w') /\
  Mpsc.senders (reqs w') = pred (Mpsc.senders (reqs w)) /\ ress w' = ress w.
Proof.
  unfold drop_drive, on_reqs. destruct (Mpsc.drop_sender (reqs w)) as [c l] eqn:E. simpl. eexists. split; [done|].
  split; [|done]. simpl. apply still_drop_sender in E. change (Mpsc.senders c) with (Mpsc.senders (still c)). by rewrite E.
Qed.

(** C33. [send_response] up to its await, on every branch: with the connection
    gone it is an error, and the handle's hold is given up; otherwise exactly
    the response is queued, with whether it has a body and a fresh channel for
    it, and the stream that is returned has its own hold, and is ended from
    the start if the flag, a HEAD request, the status or the headers say that
    there is no body. *)
Theorem send_response_cases s response no_body (w : world) (ch : Mpsc.t answer) : ress w !! SendResponse.tx_res s = Some ch ->
  (Mpsc.receivers ch <> 0%nat -> Inner.ended (Mpsc.inner ch) = false) ->
  let limit := LimitWrite.from_headers (res_headers response) in
  let status := res_status response in
  let none := no_body || SendResponse.req_expects_no_body s || LimitWrite.is_no_body limit || is_informational status ||
    status_eqb status NO_CONTENT || status_eqb status NOT_MODIFIED in
  exists r w', enqueue_response s response no_body w = Done (Ready (Ok r), w') /\
    if decide (Mpsc.receivers ch = 0%nat) then r = Err connection_closed /\ count_external w' = pred (count_external w)
    else exists body ch', outs w !! body = None /\ r = Ok (SendStream.new body limit none true) /\
      ress w' !! SendResponse.tx_res s = Some ch' /\ queue_of ch' = queue_of ch ++ [(response, none, body)] /\
      outs w' !! body = Some (Mpsc.new 1) /\ count_external w' = S (count_external w).
Proof.
  intros Hch He limit status none. set (body := fresh_chan (outs w)).
  assert (Hbody : outs w !! body = None) by apply fresh_chan_none. pose proof (lookup_insert_eq (outs w) body (Mpsc.new 1)) as Hnew.
  unfold enqueue_response, mbind, io_bind. unfold new_chan, clone_drive, on_reqs, send_chan, on_chan at 1.
  cbn [view put res_chans out_chans channels_world reqs ress outs ins woken wake snd fst].
  change (has_no_body s response no_body) with none. fold body. rewrite Hch.
  unfold Mpsc.send, Mpsc.upgrade. destruct (decide (Mpsc.receivers ch = 0%nat)) as [Hz|Hz].
  - cbn [mbind exec_bind negb]. set (w1 := mk_world _ _ _ _ _).
    destruct (drop_rx_out_done body w1) as (w2 & E2 & Hq2 & Hr2 & Ho2); [by exists (Mpsc.new 1)|].
    unfold drop_answer. cbn [snd]. rewrite E2.
    destruct (drop_tx_out_done body w2) as (w3 & E3 & Hq3 & Hr3); [apply Ho2; by exists (Mpsc.new 1)|].
    destruct (drop_drive_done w3) as (w4 & E4 & Hq4 & Hr4). unfold drop_send_stream, mbind, io_bind. cbn [SendStream.tx_body SendStream.new]. rewrite E3, E4.
    destruct (drop_drive_done w4) as (w5 & E5 & Hq5 & Hr5). unfold drop_send_response, mbind, io_bind. rewrite E5.
    destruct (drop_tx_res_done (SendResponse.tx_res s) w5) as (w6 & E6 & Hq6); [rewrite Hr5, Hr4, Hr3, Hr2; simpl; rewrite lookup_insert_eq; eauto|].
    rewrite E6. eexists _, _. split; [done|]. split; [done|]. unfold count_external in *. rewrite Hq6, Hq5, Hq4, Hq3, Hq2. done.
  - unfold Inner.enqueue. rewrite (He Hz). cbn. eexists _, _. split; [done|]. exists body. eexists. split; [done|].
    split; [done|]. cbn. split; [apply lookup_insert_eq|]. split; [done|]. split; [done|done].
Qed.

(** The response was sent, and the channel of the request body is full. *)
Definition waits_for_reader c : Prop := exists h id ch,
  self c = SendRes h /\ Bidirect.rx_res h = None /\ Bidirect.tx_body h = Some id /\
  ins (wld c) !! id = Some ch /\ Mpsc.receivers ch <> 0%nat /\ Inner.ended (Mpsc.inner ch) = false /\
  Inner.bound (Mpsc.inner ch) <= Z.of_nat (length (queue_of ch)) /\
  BufIo.can_poll_write (bio c) = true /\ BufIo.pending_rx (bio c) = false.

Lemma drive_waits fuel cx c : waits_for_reader c -> exists c', poll_drive_external (S fuel) cx c = Done (Ready (Ok tt), c') /\
  waits_for_reader c' /\ outs (wld c') = outs (wld c).
Proof.
  intros (h & id & ch & Hs & Hrx & Htx & Hch & Hr & He & Hb & Hc & Hp).
  set (w := wld c) in *. set (ch' := (Mpsc.poll_ready cx true ch).2).
  pose (w' := wake [] (put in_chans (<[id := ch']> (ins w)) w) : world).
  assert (Er : Mpsc.poll_ready cx true ch = (Pending, ch')).
  { subst ch'. unfold Mpsc.poll_ready, Mpsc.upgrade. rewrite decide_False by done. unfold Inner.poll_ready, queue_of in *.
    rewrite He, (proj2 (Z.leb_le _ _)) by done. done. }
  assert (E1 : poll_ready_chan in_chans id cx w = Done (Pending, w')).
  { unfold poll_ready_chan, on_chan. simpl. by rewrite Hch, Er. }
  assert (E2 : poll_read_body (S fuel) cx (mk_conn h (bio c) w) = Done (Pending, mk_conn h (bio c) w')).
  { unfold poll_read_body. etransitivity; [by apply (run_bind _ _ _ h (mk_conn h (bio c) w))|].
    etransitivity; [apply (run_bind _ _ _ id (mk_conn h (bio c) w)); unfold lift; by rewrite Htx|].
    apply run_bind_pending. by apply (run_zoom wld set_wld _ (mk_conn h (bio c) w)). }
  assert (E3 : poll_bidirect (S fuel) cx false (mk_conn h (bio c) w) = Done (Pending, mk_conn h (bio c) w')).
  { unfold poll_bidirect. apply run_bind_pending. cbn [iter]. apply run_bind_pending. unfold bidirect_turn.
    etransitivity; [by apply (run_bind _ _ _ h (mk_conn h (bio c) w))|]. rewrite Hrx, Htx. simpl.
    etransitivity; [by apply (run_bind _ _ _ false (mk_conn h (bio c) w))|].
    etransitivity; [by apply (run_bind _ _ _ h (mk_conn h (bio c) w))|]. rewrite Htx. simpl.
    apply run_bind_pending, E2. }
  assert (E4 : drive (S fuel) cx false false c = Done (Pending, set_wld w' c)).
  { unfold drive, or_drop_want. cbn [iter]. 
    assert (Et : drive_turn (S fuel) cx false false tt c = Done (Pending, set_wld w' c)).
    { unfold drive_turn. etransitivity; [apply (run_bind _ _ _ tt c)|].
      - etransitivity; [apply (run_zoom bio set_bio _ c), BufIo.poll_finish_idle, Hc|]. by destruct c.
      - etransitivity; [apply (run_bind _ _ _ (self c) c); by destruct c|]. rewrite Hs. apply run_bind_pending.
        unfold on_part. fold w. rewrite E3. destruct c. simpl in *. by rewrite Hs. }
    by rewrite (run_bind_pending _ _ _ _ Et). }
  exists (set_wld w' c). split; [|split; [|done]].
  - unfold poll_drive_external. etransitivity; [apply (run_bind _ _ _ Pending (set_wld w' c)), run_raw|].
    + unfold poll_server. etransitivity; [apply (run_bind _ _ _ Pending (set_wld w' c)), run_raw, E4|]. done.
    + etransitivity; [by apply (run_bind _ _ _ (set_wld w' c) (set_wld w' c))|]. simpl.
      apply BufIo.can_poll_write_iff in Hc as (_ & _ & Hc). by rewrite Hp, Hc.
  - assert (Hch' : Inner.ended (Mpsc.inner ch') = false /\ Mpsc.receivers ch' <> 0%nat /\
      Inner.bound (Mpsc.inner ch') <= Z.of_nat (length (queue_of ch'))).
    { apply still_ready in Er as [Es _]. 
      change (Inner.ended (Mpsc.inner (still ch')) = false /\ Mpsc.receivers (still ch') <> 0%nat /\
        Inner.bound (Mpsc.inner (still ch')) <= Z.of_nat (length (queue_of (still ch')))). by rewrite Es. }
    destruct Hch' as (? & ? & ?). exists h, id, ch'. split_and!; try done. simpl. apply lookup_insert_eq.
Qed.

(** C40. The flush at the end of a response body can spin for ever: with the
    response sent and the request body still arriving, its channel full
    because the user has not read it yet, a poll of the connection is ready
    without any progress, so that [send_data] with the last piece of a body,
    which drives the connection until that piece is taken, neither returns
    nor is ever [Pending], whatever the fuel. *)
Theorem flush_spins fuel cx end_ this d c out : waits_for_reader c ->
  SendStream.ended this = true -> SendStream.drive_external this = true ->
  outs (wld c) !! SendStream.tx_body this = Some out -> Mpsc.receivers out <> 0%nat -> queue_of out <> [] ->
  poll_do_send fuel cx end_ SendStream.Flush (this, d, c) = NoFuel.
Proof.
  intros Hw Hend Hdrive Hout Hr Hq. unfold poll_do_send. destruct fuel as [|fuel]; [done|].
  generalize (S fuel) at 2. intros n. revert c Hw Hout. induction n as [|n IH]; intros c Hw Hout; [done|].
  destruct (drive_waits fuel cx c Hw) as (c' & E & Hw' & Ho). cbn [SendStream.poll_do_send].
  assert (He : SendStream.queue_is_empty this c = false).
  { unfold SendStream.queue_is_empty. simpl. rewrite Hout. unfold Mpsc.is_empty, Mpsc.len, Mpsc.upgrade.
    rewrite decide_False by done. apply Z.eqb_neq. unfold queue_of in Hq. by destruct (Inner.queue _). }
  rewrite Hend, Hdrive, He. cbn [andb negb].
  unfold SendStream.poll_drive_server, mbind, api_bind, api_get. simpl. rewrite Hdrive.
  unfold SendStream.on_world, api_io. simpl. rewrite E. simpl. apply IH; [done|by rewrite Ho].
Qed.
End Promises.

(** ** Concrete sessions *)

Module ServerExample.
#[local] Existing Instance dev.
Import Plain.

Definition lines (l : list string) : bytes := concat ((fun s => bs s ++ CRLF) <$> l) ++ CRLF.
Definition get_x : bytes := lines ["GET /x HTTP/1.1"].
Definition post_x : bytes := lines ["POST /x HTTP/1.1"; "content-length: 5"].
Definition status200 : response := {| s_status := 200; s_version := 11; s_headers := [(bs "content-length", bs "2")] |}.

Definition server := Codec.conn (Channels.world unit (@answer plain_http)) Script.t State.
Definition fuel : nat := Z.to_nat 9000.
Definition start (io : Script.t) : server :=
  mk_conn RecvReq (BufIo.mk io (Vec.mk [] READ_BUF_INIT_SIZE) 0 false false None false)
    (mk_world (Mpsc.new 1) ∅ ∅ ∅ []).
(** The transport reads these segments, then stalls; writes go as [wr] says,
    then at once. *)
Definition peer (segments : list bytes) (wr : list Script.wr_event) : Script.t :=
  Script.mk ((segments ≫= Script.data) ++ [Script.RPending]) wr [] [] 0.

(** What the user does: accept, respond, and send a body in one piece. *)
Definition accept (c : server) : option (package * server) :=
  match poll_accept fuel 7%nat c with Done (Ready (Ok (Some p)), c) => Some (p, c) | _ => None end.
Definition respond (s : SendResponse.t) (c : server) : option (SendStream.t * server) :=
  match on_world (enqueue_response s status200 false) c with
  | Done (Ready (Ok (Ok send)), c) =>
      match finish_response fuel 7%nat s send c with Done (Ready (Ok (Ok send)), c) => Some (send, c) | _ => None end
  | _ => None
  end.
Fixpoint send (polls : nat) (stage : SendStream.send_stage) (d : Data) (this : SendStream.t) (c : server) :
    option (SendStream.t * server) :=
  match polls with
  | O => None
  | S polls =>
      match poll_do_send fuel 7%nat true stage (this, d, c) with
      | Done (Pending, stage, (this, d, c)) => send polls stage d this c
      | Done (Ready (Ok _), _, (this, _, c)) => Some (this, c)
      | _ => None
      end
  end.
(** Both, and the drop of every handle. *)
Definition serve (io : Script.t) : option server :=
  p ← accept (start io);
  s ← respond p.1.2 p.2;
  t ← send 3 SendStream.DriveBefore (Shared (bs "ok")) s.1 s.2;
  match (on_world (drop_send_stream t.1);; on_world (drop_recv_stream p.1.1.2)) t.2 with
  | Done (_, c) => Some c
  | _ => None
  end.

(** What is on the wire, and what the next [accept] says. *)
Definition sent_all (io : Script.t) : option bytes := c ← serve io; Some (Script.out (BufIo.inner (bio c))).
Definition accept_next (io : Script.t) : option (poll (io_result (option package)) * State) :=
  c ← serve io; match poll_accept fuel 7%nat c with Done (r, c) => Some (r, self c) | _ => None end.

(** Two reads of a request body. *)
Definition read_twice (io : Script.t) : option (poll (io_result bytes) * poll (io_result bytes)) :=
  p ← accept (start io);
  match poll_read fuel 7%nat 100 (p.1.1.2, p.2) with
  | Done (r1, st) => match poll_read fuel 7%nat 100 st with Done (r2, _) => Some (r1, r2) | _ => None end
  | _ => None
  end.

(** *** Inputs of the theorems *)

Definition io : Script.t := peer [get_x] [].
Lemma fits_io : fits io.
Proof. by vm_compute. Qed.
Lemma server_nothing_sent : w_sent io = [].
Proof. reflexivity. Qed.
Lemma server_start_ok io : handshake io = Done (start io).
Proof. reflexivity. Qed.

Lemma server_wf_start io : fits io -> wf (start io).
Proof. intros Hf. destruct (server_handshake_ok io Hf) as (c & E & Hwf & _). rewrite server_start_ok in E. by injection E as <-. Qed.

Lemma enough_start : enough fuel (start io).
Proof.
  split; [by vm_compute|]. split; [by split; vm_compute|]. intros id ch. simpl. by rewrite lookup_empty.
Qed.

(** The connection once the request was accepted: two handles hold it. *)
Definition accepted : server := match accept (start io) with Some (_, c) => c | None => start io end.

Lemma accepted_session : session (start io) [] false accepted.
Proof.
  assert (Hr : match poll_accept fuel 7%nat (start io) with Done (Ready (Ok (Some _)), _) => true | _ => false end = true)
    by by vm_compute.
  unfold accepted, accept. destruct (poll_accept fuel 7%nat (start io)) as [[[|[[p|]|e]] c]| |] eqn:E;
    try discriminate Hr.
  exact (session_accept _ _ _ _ fuel 7%nat _ _ (session_start _) enough_start E).
Qed.

(** A response sent, its body queued, and the first bytes of a request body
    in their channel. *)
Definition replied : option (SendStream.t * server) :=
  p ← accept (start (peer [post_x ++ bs "he"] []));
  s ← respond p.1.2 p.2;
  match SendStream.poll_send_data 7%nat true (s.1, Shared (bs "ok"), s.2) with
  | Done (Ready (Ok _), (this, _, c)) => Some (this, c)
  | _ => None
  end.
Definition ended_stream : SendStream.t := from_option fst (SendStream.new 0%nat (LimitWrite.ChunkedEncoder) true true) replied.
Definition waiting : server := from_option snd (start io) replied.

(** What [waits_for_reader] asks for, as a test. *)
Definition waits (c : server) : bool :=
  match self c with
  | SendRes h =>
      match Bidirect.rx_res h, Bidirect.tx_body h with
      | None, Some id =>
          match ins (wld c) !! id with
          | Some ch => bool_decide (Mpsc.receivers ch <> 0%nat) && negb (Inner.ended (Mpsc.inner ch)) &&
              (Inner.bound (Mpsc.inner ch) <=? Z.of_nat (length (queue_of ch))) &&
              BufIo.can_poll_write (bio c) && negb (BufIo.pending_rx (bio c))
          | None => false
          end
      | _, _ => false
      end
  | _ => false
  end.

Lemma waits_ok (c : server) : waits c = true -> waits_for_reader c.
Proof.
  unfold waits. destruct (self c) as [|h| |] eqn:Hs; try done. destruct (Bidirect.rx_res h) eqn:Hr; [done|].
  destruct (Bidirect.tx_body h) as [id|] eqn:Ht; [|done]. destruct (ins (wld c) !! id) as [ch|] eqn:Hc; [|done].
  intros ((((H1%bool_decide_eq_true & H2%negb_true_iff)%andb_prop & H3%Z.leb_le)%andb_prop & H4)%andb_prop &
    H5%negb_true_iff)%andb_prop. exists h, id, ch. by split_and!.
Qed.
End ServerExample.

(** The end of a response can get lost (the law of it is in Server_faults.v).
    Here the same exchange is served over two
    transports; both get the whole response, but on the one that stalls once,
    at the last piece, the next [accept] fails with an unexpected end of body
    and the connection is closed. *)
Example stalled_last_piece_session :
  let whole := ServerExample.peer [ServerExample.get_x] [] in
  let stalls := ServerExample.peer [ServerExample.get_x] [Script.WAccept 500; Script.WPending] in
  ServerExample.sent_all stalls = ServerExample.sent_all whole /\ is_Some (ServerExample.sent_all whole) /\
  ServerExample.accept_next whole = Some (Pending, RecvReq) /\
  ServerExample.accept_next stalls = Some (Ready (Err unexpected_end), Closed).
Proof. vm_compute. split; [reflexivity|]. split; [eexists; reflexivity|]. split; reflexivity. Qed.

(** A request body can be longer than its content length (again see
    Server_faults.v).  Here five bytes were announced, and the user gets these and the request behind
    them, which is then never accepted; the body does not end.  With head and
    body in one segment the user gets the five bytes, and the end. *)
Example content_length_session :
  let next := bs "hello" ++ ServerExample.get_x in
  ServerExample.read_twice (ServerExample.peer [ServerExample.post_x; next] []) = Some (Ready (Ok next), Pending) /\
  ServerExample.read_twice (ServerExample.peer [ServerExample.post_x ++ next] []) =
    Some (Ready (Ok (bs "hello")), Ready (Ok [])).
Proof. vm_compute. split; reflexivity. Qed.

Lemma server_poll_refines_witness :
  exists c', match poll_server (prof := dev) ServerExample.fuel 7%nat true true (ServerExample.start ServerExample.io) with
             | Done (Ready (Ok (Some _)), c) => c = c' /\ wf c' /\ exists head req body res, 
                 self c' = SendRes (bidirect_of req body res) /\
                 exists es, Service.run (abs RecvReq (ServerExample.start ServerExample.io))
                   (es ++ [Service.Accepted head req body res]) (abs (self c') c')
             | _ => False
             end.
Proof.
  pose proof (proj2 (server_poll_refines (prof := dev) (ServerExample.start ServerExample.io)
    (ServerExample.server_wf_start _ ServerExample.fits_io)) ServerExample.fuel 7%nat true true ServerExample.enough_start) as Hp.
  assert (Hr : match poll_server (prof := dev) ServerExample.fuel 7%nat true true (ServerExample.start ServerExample.io) with
               | Done (Ready (Ok (Some _)), _) => true | _ => false end = true) by by vm_compute.
  destruct Hp as (r & c' & E & Hwf & es & s & Hrun & Habs & Hp). exists c'. rewrite E in Hr |- *.
  destruct r as [|[[pkg|]|e]]; try discriminate Hr. destruct Hp as (_ & es' & head & req & body & res & -> & _ & _ & Hs).
  split; [reflexivity|]. split; [exact Hwf|]. exists head, req, body, res. split; [exact Hs|]. exists es'.
  rewrite Habs. exact Hrun.
Defined.

Lemma server_session_refines_witness :
  exists es, Service.history (abs RecvReq (ServerExample.start ServerExample.io)) [] es
      (abs (self ServerExample.accepted) ServerExample.accepted) /\ Service.unfailed es /\
    ServerExample.get_x = es ≫= Service.received.
Proof.
  destruct (server_session_refines _ _ _ _ _ ServerExample.fits_io ServerExample.server_nothing_sent (ServerExample.server_start_ok _)
    ServerExample.accepted_session) as (_ & es & Hh & _ & Hi & Hf & _).
  exists es. split; [exact Hh|]. split; [by apply Hf|].
  assert (Hn : BufIo.incoming (bio ServerExample.accepted) = []) by by vm_compute.
  rewrite Hn, app_nil_r in Hi. rewrite <- Hi. by vm_compute.
Defined.

Lemma server_exchanges_are_whole_witness :
  exists es l, Service.history (abs RecvReq (ServerExample.start ServerExample.io)) [] es
      (abs (self ServerExample.accepted) ServerExample.accepted) /\ Service.unfailed es /\
    exists xs, es = (xs ≫= Service.trace_of) ++ l /\ Service.ending (self ServerExample.accepted) l.
Proof.
  destruct (server_exchanges_are_whole _ _ _ _ _ ServerExample.fits_io (ServerExample.server_start_ok _)
    ServerExample.accepted_session) as (es & xs & l & Hh & Hf & _ & _ & He & _ & Hl).
  exists es, l. split; [exact Hh|]. split; [by apply Hf|]. exists xs. split; [exact He|exact Hl].
Defined.

Lemma accept_waits_for_handles_witness :
  count_external (wld ServerExample.accepted) = 3%nat /\
  exists w, poll_accept (prof := dev) ServerExample.fuel 7%nat ServerExample.accepted =
    Done (Pending, set_wld w ServerExample.accepted).
Proof.
  assert (Hc : count_external (wld ServerExample.accepted) = 3%nat) by by vm_compute.
  pose proof (accept_waits_for_handles (prof := dev) ServerExample.fuel 7%nat ServerExample.accepted) as Hp.
  rewrite Hc in Hp. destruct Hp as (w & w' & E & _); [by vm_compute|by vm_compute|done|].
  split; [reflexivity|]. exists w. exact E.
Defined.

Lemma send_response_cases_witness :
  let w := wld ServerExample.accepted in
  exists r w', enqueue_response (SendResponse.mk 0%nat false) ServerExample.status200 true w = Done (Ready (Ok r), w') /\
    count_external w' = 4%nat /\ exists body, r = Ok (SendStream.new body
      (LimitWrite.from_headers (Plain.s_headers ServerExample.status200)) true true).
Proof.
  intros w. destruct (ress w !! 0%nat) as [ch|] eqn:Hch; [|by vm_compute in Hch].
  assert (Hr : Mpsc.receivers ch = 1%nat) by (vm_compute in Hch; by injection Hch as <-).
  assert (He : Inner.ended (Mpsc.inner ch) = false) by (vm_compute in Hch; by injection Hch as <-).
  destruct (send_response_cases (H := Plain.plain_http) (SendResponse.mk 0%nat false) ServerExample.status200 true w ch Hch
    (fun _ => He)) as (r & w' & E & Hres). exists r, w'. split; [exact E|].
  rewrite Hr in Hres. destruct Hres as (body & ch' & _ & Hr' & _ & _ & _ & Hn).
  split; [rewrite Hn; by vm_compute|]. exists body. exact Hr'.
Defined.

Lemma flush_spins_witness :
  poll_do_send (prof := dev) 100 7%nat true SendStream.Flush (ServerExample.ended_stream, Empty, ServerExample.waiting) = NoFuel.
Proof.
  assert (Hout : match outs (wld ServerExample.waiting) !! SendStream.tx_body ServerExample.ended_stream with
    | Some out => bool_decide (Mpsc.receivers out <> 0%nat) && bool_decide (length (queue_of out) = 1%nat)
    | None => false end = true) by by vm_compute.
  destruct (outs (wld ServerExample.waiting) !! SendStream.tx_body ServerExample.ended_stream) as [out|] eqn:Ho; [|discriminate Hout].
  apply andb_prop in Hout as [Hr%bool_decide_eq_true Hq%bool_decide_eq_true].
  apply (flush_spins (prof := dev) 100 7%nat true ServerExample.ended_stream Empty ServerExample.waiting out);
    [apply ServerExample.waits_ok; by vm_compute|by vm_compute|by vm_compute|exact Ho|exact Hr|].
  intros Hn. rewrite Hn in Hq. discriminate Hq.
Defined.
