(* ===== verification/Server_faults.v ===== *)
(** * What the server connection gets wrong

    Two laws of the code as it is, against what it means to do: the end of a
    response is forgotten when its last piece cannot be written at once, and a
    request body that starts a segment is handed over with whatever follows
    it, however long it was announced to be. *)

From S2P Require Import Prelude.
From S2P Require Import Async.
From S2P Require Import Std_text.
From S2P Require Import Fast_buf.
From S2P Require Import Transport.
From S2P Require Import Buf_reader.
From S2P Require Import Http_api.
From S2P Require Import Error.
From S2P Require Import Limit.
From S2P Require Import Mpsc.
From S2P Require Import Share.
From S2P Require Import Channels.
From S2P Require Import Codec.
From S2P Require Import Server.
From S2P Require Import Server_spec.
From S2P Require Import Server_proofs.
From S2P Require Import Server_session.

(** ** A poll that stops early *)

Section Stops.
Context {prof : Profile} `{Http} `{Httparse} {R : Type} `{DuplexSpec R}.
Implicit Types (c : conn R State) (h : BodySender.t).

(** [Pending], or an error. *)
Definition stopped {A} (o : option io_error) : poll (io_result A) :=
  match o with None => Pending | Some e => Ready (Err e) end.

Lemma run_stopped {St A B} (m : io St A) (f : A -> io St B) st o st' :
  m st = Done (stopped o, st') -> (m ≫= f) st = Done (stopped o, st').
Proof. unfold mbind, io_bind. intros ->. by destruct o. Qed.

(** A poll in [SendBody] stops where its handler does. *)
Lemma send_body_stops fuel cx (want register : bool) c h b o (c1 : conn R BodySender.t) : self c = SendBody h ->
  BufIo.poll_finish_pending_write (S fuel) (bio c) = Done (Ready (Ok tt), b) ->
  poll_send_body (S fuel) cx register (mk_conn h b (wld c)) = Done (stopped o, c1) ->
  exists w, drive (S fuel) cx want register c = Done (stopped o, mk_conn (SendBody (self c1)) (bio c1) w) /\
    outs w = outs (wld c1).
Proof.
  intros Hs Hb Hp. set (c2 := mk_conn (SendBody (self c1)) (bio c1) (wld c1) : conn R State).
  assert (Et : drive_turn (S fuel) cx want register tt c = Done (stopped o, c2)).
  { unfold drive_turn. etransitivity; [apply (run_bind _ _ _ tt (set_bio b c)), (run_zoom bio set_bio _ c), Hb|].
    etransitivity; [by apply (run_bind _ _ _ (self c) (set_bio b c))|]. rewrite Hs. apply run_stopped.
    unfold on_part. cbn [bio wld set_bio]. by rewrite Hp. }
  assert (Ei : iter (S fuel) (drive_turn (S fuel) cx want register) tt c = Done (stopped o, c2)).
  { cbn [iter]. by apply run_stopped. }
  unfold drive, or_drop_want. rewrite Ei. cbn [mbind exec_bind].
  assert (Hlast : exists w, (if want then '(_, c') ← on_world drop_drive c2; Done (stopped o, c')
      else Done (stopped o, c2)) = Done (stopped (A := option package) o, set_wld w c2) /\ outs w = outs (wld c1)).
  { destruct want; [|by exists (wld c1)]. unfold on_world, zoom, drop_drive, on_reqs.
    cbn [wld c2]. destruct (Mpsc.drop_sender (reqs (wld c1))). by eexists. }
  destruct Hlast as (w & E & Ho). exists w. split; [|done]. by destruct o.
Qed.

(** The end of [poll_server]: an error closes the connection. *)
Lemma poll_server_stops fuel cx want register c o c1 :
  drive fuel cx want register c = Done (stopped o, c1) ->
  (o <> None -> exists r w, drop_state (self c1) (wld c1) = Done (Ready (Ok r), w)) ->
  exists c2, poll_server fuel cx want register c = Done (stopped o, c2) /\ bio c2 = bio c1 /\
    match o with None => c2 = c1 | Some _ => self c2 = Closed end.
Proof.
  intros E Hd. destruct o as [e|]; cbn [stopped] in *.
  - destruct Hd as ([] & w & Ed); [done|]. exists (set_wld w (set_self Closed c1)). split; [|done].
    unfold poll_server. etransitivity; [apply (run_bind _ _ _ (Ready (Err e)) c1), run_raw, E|].
    etransitivity; [apply (run_bind _ _ _ tt (set_wld w (set_self Closed c1)))|done].
    unfold set_state. etransitivity; [by apply (run_bind _ _ _ (self c1) c1); destruct c1|].
    etransitivity; [by apply (run_bind _ _ _ tt (set_self Closed c1)); destruct c1|].
    by apply (run_zoom wld set_wld _ (set_self Closed c1)).
  - exists c1. split; [|done]. unfold poll_server.
    by rewrite (run_bind _ _ _ Pending c1) by (by apply run_raw).
Qed.

(** The piece at the front of the body's channel, and the channel without it. *)
Lemma take_piece cx register id (w : world) ch piece q : outs w !! id = Some ch -> queue_of ch = piece :: q ->
  exists w' ch', poll_recv_chan out_chans id cx register w = Done (Ready (Ok (Some piece)), w') /\
    outs w' !! id = Some ch' /\ queue_of ch' = q.
Proof.
  intros Hch Hq. unfold poll_recv_chan, on_chan. simpl. rewrite Hch.
  destruct (Mpsc.poll_recv cx register ch) as [[r ch'] l] eqn:E. apply still_recv in E.
  destruct r as [|[x|]]; [by destruct E as [E _]; rewrite Hq in E| |by destruct E as [E _]; rewrite Hq in E].
  destruct E as [E _]. rewrite Hq in E. injection E as <- E. cbn. eexists _, ch'.
  split; [done|]. split; [apply lookup_insert_eq|done].
Qed.

Lemma no_piece cx register id (w : world) ch : outs w !! id = Some ch -> queue_of ch = [] -> Mpsc.senders ch = 0%nat ->
  exists w', poll_recv_chan out_chans id cx register w = Done (Ready (Ok None), w') /\ is_Some (outs w' !! id).
Proof.
  intros Hch Hq Hs. unfold poll_recv_chan, on_chan. simpl. rewrite Hch.
  destruct (Mpsc.poll_recv cx register ch) as [[r ch'] l] eqn:E. apply still_recv in E.
  destruct r as [|[x|]]; [by destruct E as (_ & E & _)|by destruct E as [E _]; rewrite Hq in E|].
  cbn. eexists. split; [done|]. simpl. rewrite lookup_insert_eq. eauto.
Qed.

(** The handler on the last piece, when the write is held up; and on a channel
    that nothing will come on. *)
Lemma last_piece_pends fuel cx register h b (w : world) ch chunk b1 : BufIo.can_poll_write b = true ->
  outs w !! BodySender.rx_body h = Some ch -> queue_of ch = [(chunk, true)] ->
  write_all (S fuel) chunk true b = Done (Ready (Ok Pending), b1) ->
  exists w' ch', poll_send_body (S fuel) cx register (mk_conn h b w) = Done (Pending, mk_conn h b1 w') /\
    outs w' !! BodySender.rx_body h = Some ch' /\ queue_of ch' = [].
Proof.
  intros Hcan Hch Hq Hw. destruct (take_piece cx register _ w ch _ _ Hch Hq) as (w' & ch' & E & Hch' & Hq').
  exists w', ch'. split; [|done]. unfold poll_send_body. cbn [iter]. apply run_bind_pending. unfold send_body_turn.
  etransitivity; [by apply (run_bind _ _ _ h (mk_conn h b w))|].
  etransitivity; [apply (run_bind _ _ _ (Some (chunk, true)) (mk_conn h b w')), (run_zoom wld set_wld _ (mk_conn h b w)), E|].
  etransitivity; [by apply (run_bind _ _ _ (mk_conn h b w') (mk_conn h b w'))|].
  etransitivity; [apply (run_bind _ _ _ tt (mk_conn h b w')); cbn; by rewrite Hcan|].
  etransitivity; [apply (run_bind _ _ _ Pending (mk_conn h b1 w')), (run_zoom bio set_bio _ (mk_conn h b w')), Hw|]. done.
Qed.

Lemma no_piece_fails fuel cx register h b (w : world) ch : BufIo.can_poll_write b = true ->
  outs w !! BodySender.rx_body h = Some ch -> queue_of ch = [] -> Mpsc.senders ch = 0%nat ->
  exists w', poll_send_body (S fuel) cx register (mk_conn h b w) = Done (Ready (Err unexpected_end), mk_conn h b w') /\
    is_Some (outs w' !! BodySender.rx_body h).
Proof.
  intros Hcan Hch Hq Hs. destruct (no_piece cx register _ w ch Hch Hq Hs) as (w' & E & Hch').
  exists w'. split; [|done]. unfold poll_send_body. cbn [iter]. apply (run_stopped _ _ _ (Some unexpected_end)). unfold send_body_turn.
  etransitivity; [by apply (run_bind _ _ _ h (mk_conn h b w))|].
  etransitivity; [apply (run_bind _ _ _ None (mk_conn h b w')), (run_zoom wld set_wld _ (mk_conn h b w)), E|].
  etransitivity; [by apply (run_bind _ _ _ (mk_conn h b w') (mk_conn h b w'))|].
  etransitivity; [apply (run_bind _ _ _ tt (mk_conn h b w')); cbn; by rewrite Hcan|]. done.
Qed.

(** C38. The end of a response can get lost.  When the piece marked last is
    the only one in the body's channel and cannot be written at once, or the
    flush behind it, the poll is [Pending] and the connection does not note
    that it was the last: it stays in [SendBody] with an empty channel.  Any
    later poll, by whatever call, that finds the SendStream dropped and can
    finish the write sends all that was left of the response, its last byte
    included, and then fails with an unexpected end of body, and the
    connection is closed. *)
Theorem stalled_last_piece_fails fuel cx (want register : bool) c h ch chunk b1 : (0 < fuel)%nat -> self c = SendBody h ->
  BufIo.can_poll_write (bio c) = true -> zlen chunk < Z.of_nat fuel -> zlen chunk <= isize_max ->
  outs (wld c) !! BodySender.rx_body h = Some ch -> queue_of ch = [(chunk, true)] ->
  write_all fuel chunk true (bio c) = Done (Ready (Ok Pending), b1) ->
  exists c1 ch1, poll_server fuel cx want register c = Done (Pending, c1) /\
    self c1 = SendBody h /\ bio c1 = b1 /\ outs (wld c1) !! BodySender.rx_body h = Some ch1 /\ queue_of ch1 = [] /\
    forall w ch2 fuel' cx' (want' register' : bool) b2, outs w !! BodySender.rx_body h = Some ch2 ->
      queue_of ch2 = [] -> Mpsc.senders ch2 = 0%nat -> (0 < fuel')%nat -> zlen chunk < Z.of_nat fuel' ->
      BufIo.poll_finish_pending_write fuel' b1 = Done (Ready (Ok tt), b2) ->
      exists c2, poll_server fuel' cx' want' register' (set_wld w c1) = Done (Ready (Err unexpected_end), c2) /\
        self c2 = Closed /\ w_sent (BufIo.inner (bio c2)) = BufIo.outgoing (bio c) ++ chunk.
Proof.
  intros Hf0 Hs Hcan Hf Hm Hch Hq Hw. destruct fuel as [|fuel]; [lia|].
  destruct (last_piece_pends fuel cx register h (bio c) (wld c) ch chunk b1 Hcan Hch Hq Hw) as (w1 & ch1 & E & Hch1 & Hq1).
  destruct (send_body_stops fuel cx want register c h (bio c) None _ Hs (BufIo.poll_finish_idle _ _ Hcan) E) as (w2 & Ed & Ho).
  destruct (poll_server_stops (S fuel) cx want register c None _ Ed) as (c1 & Ep & _ & ->); [done|].
  cbn [self bio wld] in *. eexists _, ch1. split; [exact Ep|]. cbn [self bio wld]. split; [done|]. split; [done|].
  split; [by rewrite Ho|]. split; [done|]. intros w ch2 fuel' cx' want' register' b2 Hch2 Hq2 Hs2 Hf0' Hf' Hb2.
  destruct fuel' as [|fuel']; [lia|].
  pose proof (write_all_wp (fuel := S fuel) true chunk (bio c) Hcan Hf Hm) as Htook. unfold wp in Htook. rewrite Hw in Htook.
  destruct Htook as (r' & [= <-] & (Htx1 & _ & _ & Hout & _ & Hlen) & _).
  cbn [snd] in Htx1, Hout, Hlen.
  pose proof (BufIo.poll_finish_pending_write_wp (S fuel') b1 Htx1 ltac:(lia)) as Hfin. unfold wp in Hfin. rewrite Hb2 in Hfin.
  destruct Hfin as (_ & _ & Hout2 & Hcan2 & Hun & _).
  destruct (no_piece_fails fuel' cx' register' h b2 w ch2 Hcan2 Hch2 Hq2 Hs2) as (w3 & E3 & Hch3).
  set (c1 := set_wld w _).
  destruct (send_body_stops fuel' cx' want' register' c1 h b2 (Some unexpected_end) _ eq_refl Hb2 E3) as (w4 & Ed4 & Ho4).
  destruct (poll_server_stops (S fuel') cx' want' register' c1 (Some unexpected_end) _ Ed4) as (c2 & Ep2 & Hbio2 & Hself2).
  { intros _. cbn [self wld drop_state] in *. rewrite <- Ho4 in Hch3.
    destruct (drop_rx_out_done (BodySender.rx_body h) w4 Hch3) as (w5 & E5 & _). by exists tt, w5. }
  exists c2. split; [exact Ep2|]. split; [done|]. rewrite Hbio2. cbn [bio].
  unfold BufIo.outgoing in Hout2 at 1. rewrite Hun in Hout2. cbn [snd] in Hout2. rewrite app_nil_r in Hout2. by rewrite Hout2, Hout.
Qed.
End Stops.

(** ** A body longer than its length *)

Section Overrun.
Context {prof : Profile} `{Http} `{Httparse} {R : Type} `{DuplexSpec R}.
Implicit Types (c : conn R Bidirect.t).

(** The next piece of a request body with a content length, announced by [v],
    starts a segment: the read buffer holds nothing that was used. *)
Record at_segment (id : chan_id) (v : ContentLengthRead.t) c : Prop := {
  seg_buf : BufIo.rd_wf (bio c);
  seg_body : Bidirect.tx_body (self c) = Some id;
  seg_chan : is_Some (ins (wld c) !! id);
  seg_limit : Bidirect.limit (self c) = LimitRead.ContentLength v;
  seg_reader : reader_ok (Bidirect.limit (self c)) (bio c);
  seg_size : Bidirect.cur_read_size (self c) <= MAX_BODY_READ_SIZE;
  seg_pos : BufIo.pos (bio c) = 0;
}.

(** As it is of a connection in order. *)
Lemma segment_starts (c : conn R State) h id v : wf c -> self c = SendRes h -> Bidirect.tx_body h = Some id ->
  Bidirect.limit h = LimitRead.ContentLength v -> BufIo.pos (bio c) = 0 -> at_segment id v (mk_conn h (bio c) (wld c)).
Proof.
  intros ((Hrd & _) & _ & Hp) Hs Hid Hl H0'. rewrite Hs in Hp. destruct Hp as ((Hn & _) & _ & Hr & Hsz).
  split; cbn [self bio wld]; try done; [by apply Hn|apply Hr; by rewrite Hid].
Qed.

(** All that the read buffer holds is taken, and counted. *)
Lemma take_chunk_all c id v : at_segment id v c ->
  wp take_chunk c (fun r c' => r = Ready (Ok (BufIo.buffered (bio c))) /\ wld c' = wld c /\
    self c' = Bidirect.set_limit (LimitRead.ContentLength (ContentLengthRead.mk (ContentLengthRead.limit v)
      (ContentLengthRead.total v + zlen (BufIo.buffered (bio c))))) (self c) /\
    BufIo.incoming (bio c) = BufIo.buffered (bio c) ++ BufIo.incoming (bio c') /\
    BufIo.buffered (bio c') = [] /\ BufIo.inner (bio c') = BufIo.inner (bio c) /\ BufIo.pos (bio c') = 0 /\
    BufIo.rd_wf (bio c')).
Proof.
  intros Hs. pose proof (seg_reader _ _ _ Hs) as Hl. rewrite (seg_limit _ _ _ Hs) in Hl.
  destruct Hl as (Ht & _ & Hsum & _). pose proof (seg_buf _ _ _ Hs) as Hrd.
  destruct (BufIo.take_read_buf_ok (bio c) Hrd) as (b' & E & Hrd' & _ & Hin & Hnil & Hinner & Hpos).
  { apply Z.eqb_eq, Hs. }
  unfold wp, take_chunk. rewrite E. simpl. rewrite (seg_limit _ _ _ Hs). simpl. rewrite Hin, zlen_app in Hsum. zlen_facts.
  rewrite uadd_ok by (unfold MAX_CAPACITY, u64_max in *; zlia). simpl. by split_and!.
Qed.

(** The read buffer, filled if there was nothing in it. *)
Lemma fill_all n c : BufIo.rd_wf (bio c) -> n <= MAX_CAPACITY ->
  wp (on_bio (b ← get; b ← lift (BufIo.ensure_read_capacity n b); modify (fun _ => b));;
      on_bio (BufIo.poll_fill_buf false)) c (fun r c' => self c' = self c /\ wld c' = wld c /\
    BufIo.rd_wf (bio c') /\ BufIo.incoming (bio c') = BufIo.incoming (bio c) /\ BufIo.pos (bio c') = BufIo.pos (bio c) /\
    match r with
    | Ready (Ok buf) => buf = BufIo.buffered (bio c') /\ exists more, buf = BufIo.buffered (bio c) ++ more /\
        r_stream (BufIo.inner (bio c)) = more ++ r_stream (BufIo.inner (bio c'))
    | _ => True
    end).
Proof.
  intros Hrd Hn.
  destruct (BufIo.ensure_read_capacity_ok n (bio c) Hrd Hn) as (b1 & E & Hrd1 & _ & Hinner1 & Hpos1 & Hc1 & _).
  apply wp_bind, wp_on_bio. wp_steps. rewrite E. wp_steps. apply wp_on_bio. cbn [bio set_bio].
  assert (Hbuf1 : BufIo.buffered b1 = BufIo.buffered (bio c)) by (unfold BufIo.buffered; by rewrite Hpos1, Hc1).
  assert (Hin1 : BufIo.incoming b1 = BufIo.incoming (bio c)) by (unfold BufIo.incoming; by rewrite Hbuf1, Hinner1).
  eapply wp_mono; [by apply BufIo.poll_fill_buf_wp|]. intros r b2 (Hrd2 & _ & Hpos2 & Hfill).
  unfold BufIo.fills in Hfill. rewrite Hbuf1, Hinner1, Hin1 in Hfill. cbn [self wld bio set_bio]. rewrite Hpos2.
  destruct r as [|[buf|e]]; [by destruct Hfill| |by destruct Hfill].
  destruct Hfill as (-> & Hi & more & Hm & Hs & _). split_and!; try done. by exists more.
Qed.

(** What a poll does in that case: nothing, or it hands over [d]. *)
Definition whole_segment (id : chan_id) (v : ContentLengthRead.t) c (r : poll (io_result unit)) c' : Prop :=
  match r with
  | Ready (Ok _) => exists d more,
      d = BufIo.buffered (bio c) ++ more /\ d <> [] /\
      r_stream (BufIo.inner (bio c)) = more ++ r_stream (BufIo.inner (bio c')) /\ BufIo.buffered (bio c') = [] /\
      let total := ContentLengthRead.total v + zlen d in
      let v' := ContentLengthRead.mk (ContentLengthRead.limit v) total in
      let full := total =? ContentLengthRead.limit v in
      still_world (wld c') = (if full then at_in id close_tx else fun w => w)
        (at_in id (push (Ok d)) (still_world (wld c))) /\
      Bidirect.limit (self c') = LimitRead.ContentLength v' /\
      Bidirect.tx_body (self c') = (if full then None else Some id) /\
      (ContentLengthRead.limit v < total -> at_segment id v' c' /\ LimitRead.is_complete (Bidirect.limit (self c')) = false)
  | _ => self c' = self c /\ BufIo.incoming (bio c') = BufIo.incoming (bio c) /\
      still_world (wld c') = still_world (wld c)
  end.

Ltac parts := cbn [wld self bio set_wld set_self Bidirect.limit Bidirect.tx_body Bidirect.set_limit Bidirect.set_tx_body].

(** The end of the handler, with a piece in hand. *)
Lemma hand_segment_wp c c1 id v d more : at_segment id v c ->
  still_world (wld c1) = still_world (wld c) -> is_Some (ins (wld c1) !! id) -> d = BufIo.buffered (bio c) ++ more -> d <> [] ->
  r_stream (BufIo.inner (bio c)) = more ++ r_stream (BufIo.inner (bio c1)) -> BufIo.buffered (bio c1) = [] ->
  BufIo.rd_wf (bio c1) -> BufIo.pos (bio c1) = 0 ->
  self c1 = Bidirect.set_limit (LimitRead.ContentLength (ContentLengthRead.mk (ContentLengthRead.limit v)
    (ContentLengthRead.total v + zlen d))) (self c) ->
  wp (
    this ← on_self get;
    (if negb (bool_decide (d = [])) then _ ← on_world (send_chan in_chans id (Ok d)); mret tt
     else if negb (LimitRead.is_complete (Bidirect.limit this)) then io_err partial_body
     else mret tt);;
    if LimitRead.is_complete (Bidirect.limit this)
    then set_part (Bidirect.set_tx_body None);; on_world (drop_tx_chan in_chans id)
    else mret tt) c1 (whole_segment id v c).
Proof.
  intros Hs Hw Hch Hd Hne Hst Hnil Hrd Hpos Hself.
  apply wp_get_self. rewrite Hself. rewrite bool_decide_false by done. cbn [negb Bidirect.limit Bidirect.set_limit].
  apply wp_bind. conn_steps. apply wp_on_world. eapply wp_mono; [by apply send_in_wp|].
  intros r w2 ((a & ->) & [Hs2 G2]). conn_steps. cbn [LimitRead.is_complete].
  unfold ContentLengthRead.is_end. cbn [ContentLengthRead.total ContentLengthRead.limit].
  assert (Hch2 : is_Some (ins w2 !! id)) by by apply (g_in _ _ G2).
  rewrite Hw in Hs2. destruct (Z.eqb_spec (ContentLengthRead.total v + zlen d) (ContentLengthRead.limit v)) as [E|E].
  - unfold set_part. conn_steps. apply wp_on_world. cbn [wld set_self]. eapply wp_mono; [by apply drop_tx_in_wp|].
    intros r w3 ((b & ->) & [Hs3 _]). exists d, more. cbv zeta. rewrite (proj2 (Z.eqb_eq _ _) E). parts. rewrite ?Hself. parts.
    split_and!; try done; [by rewrite Hs3; cbn [wld set_wld]; rewrite Hs2|]. lia.
  - wp_steps. exists d, more. cbv zeta. rewrite (proj2 (Z.eqb_neq _ _) E). parts. rewrite ?Hself. parts. rewrite (seg_body _ _ _ Hs).
    split_and!; try done. intros Hlt. split; [|by apply Z.eqb_neq].
    pose proof (seg_reader _ _ _ Hs) as Hl. rewrite (seg_limit _ _ _ Hs) in Hl. destruct Hl as (Ht & Hlim & Hsum & _).
    split; cbn [wld self bio set_wld]; rewrite ?Hself; try done; [by apply Hs| |by apply Hs].
    simpl. zlen_facts. split_and!; try done; try zlia.
    unfold BufIo.incoming in *. rewrite Hnil. rewrite Hst, Hd in *. rewrite !zlen_app in *. zlia.
Qed.
(** C39. A request body can be longer than its content length.  When the next
    piece of such a body starts a segment, what [poll_read_body] takes is all
    that the read buffer holds and all that a read brings to it, however
    little of the length is left; all of it goes to the user as one piece of
    the body, and is counted ([whole_segment]).  If it was more than was left
    the body does not end: its channel is kept, the reader is not complete,
    and the next piece starts a segment again, so that it goes on like this
    with whatever follows the body, the next requests among it. *)
Theorem content_length_overrun fuel cx c id v : at_segment id v c ->
  match poll_read_body fuel cx c with
  | Done (r, c') => whole_segment id v c r c'
  | _ => False
  end.
Proof.
  intros Hs. pose proof (seg_chan _ _ _ Hs) as Hch. pose proof (seg_pos _ _ _ Hs) as Hp0.
  enough (Hw : wp (poll_read_body fuel cx) c (whole_segment id v c)).
  { unfold wp in Hw. by destruct (poll_read_body fuel cx c) as [[r c']| |]. }
  unfold poll_read_body. conn_steps. rewrite (seg_body _ _ _ Hs). simpl. conn_steps. apply wp_on_world.
  eapply wp_mono; [by apply ready_in_wp|]. intros r w1 ([Hs1 G1] & Hr).
  destruct r as [|[ready|e]]; cbn [early]; [done| |done]. clear Hr.
  apply wp_assoc, wp_bind. eapply wp_mono; [apply fill_all; [apply Hs|]|].
  { pose proof (seg_size _ _ _ Hs). parts. unfold MAX_BODY_READ_SIZE, MAX_CAPACITY in *. lia. }
  intros r c2 (Hself2 & Hw2 & Hrd2 & Hi2 & Hp2 & Hr). parts.
  destruct r as [|[buf|e]]; cbn [early]; [split_and!; try done; by rewrite Hw2| |split_and!; try done; by rewrite Hw2].
  destruct Hr as (-> & more & Hd & Hst). case_bool_decide as Hne; [conn_steps; split_and!; try done; by rewrite Hw2|].
  assert (Hs2 : at_segment id v c2).
  { destruct Hs. split; rewrite ?Hself2, ?Hp2; try done; [rewrite Hw2; by apply (g_in _ _ G1)|].
    by apply (reader_ok_same _ (bio c)). }
  conn_steps. rewrite (seg_limit _ _ _ Hs2). cbn [LimitRead.can_read_entire_vec andb].
  rewrite (proj2 (Z.eqb_eq _ _) (seg_pos _ _ _ Hs2) : BufIo.can_take_read_buf (bio c2) = true).
  eapply wp_mono; [by apply (take_chunk_all c2 id v)|].
  intros r c3 (-> & Hw3 & Hself3 & Hi3 & Hnil3 & Hinner3 & Hp3 & Hrd3). cbn [early].
  apply (hand_segment_wp c c3 id v _ more); try done; rewrite ?Hw3, ?Hw2, ?Hinner3, ?Hself3, ?Hself2; try done.
  by apply (g_in _ _ G1).
Qed.
End Overrun.

(** ** Concrete connections *)

Module FaultExample.
#[local] Existing Instance dev.
Import ServerExample.

(** A request whose head fills a segment, its body in the next one with the
    next request behind it; the connection once the request was accepted. *)
Definition segments : Script.t := peer [post_x; bs "hello" ++ get_x] [].
Definition head_read : server := from_option snd (start segments) (accept (start segments)).
Definition head_part : Bidirect.t :=
  match self head_read with SendRes h => h | _ => Bidirect.mk LimitRead.NoBody false None None None 0 end.

Lemma head_read_wf : wf head_read.
Proof.
  assert (Hr : match poll_accept fuel 7%nat (start segments) with Done (Ready (Ok (Some _)), _) => true | _ => false end = true)
    by by vm_compute.
  assert (Hs : session (start segments) [] false head_read).
  { unfold head_read, accept. destruct (poll_accept fuel 7%nat (start segments)) as [[[|[[p|]|e]] c]| |] eqn:E;
      try discriminate Hr.
    refine (session_accept _ _ _ _ fuel 7%nat _ _ (session_start _) _ E).
    split; [by vm_compute|]. split; [by split; vm_compute|]. intros id ch. simpl. by rewrite lookup_empty. }
  apply session_reached in Hs as [Hwf _]; [exact Hwf|]. by apply server_wf_start; vm_compute.
Qed.

Definition body_next : Codec.conn (Channels.world unit (@answer Plain.plain_http)) Script.t Bidirect.t :=
  mk_conn head_part (bio head_read) (wld head_read).

Lemma head_segment : at_segment 0%nat (ContentLengthRead.mk 5 0) body_next.
Proof. apply segment_starts; [exact head_read_wf|by vm_compute..]. Qed.

(** A body of one piece in its channel, over a transport that takes the head
    of the response and then stalls once; and the drop of its stream. *)
Definition stalling : Script.t := peer [get_x] [Script.WAccept 500; Script.WPending].
Definition queued : option (SendStream.t * server) :=
  p ← accept (start stalling);
  s ← respond p.1.2 p.2;
  match SendStream.poll_send_data 7%nat true (s.1, Shared (bs "ok"), s.2) with
  | Done (Ready (Ok _), (this, _, c)) => Some (this, c)
  | _ => None
  end.
Definition last_queued : server := from_option snd (start stalling) queued.
Definition body_part : BodySender.t := match self last_queued with SendBody h => h | _ => BodySender.mk false 0%nat end.
Definition turn (c : server) : server := match poll_server fuel 7%nat true true c with Done (_, c) => c | _ => c end.
Definition held_up : server := turn last_queued.
Definition stream_gone : Channels.world unit (@answer Plain.plain_http) :=
  match drop_tx_chan out_chans (BodySender.rx_body body_part) (wld held_up) with Done (_, w) => w | _ => wld held_up end.
Definition after {A} (b : BufIo.t Script.t) (m : exec (A * BufIo.t Script.t)) : BufIo.t Script.t :=
  match m with Done (_, b) => b | _ => b end.
Definition written : BufIo.t Script.t := after (bio last_queued) (write_all fuel (bs "ok") true (bio last_queued)).
Definition flushed : BufIo.t Script.t := after written (BufIo.poll_finish_pending_write fuel written).
End FaultExample.

Lemma stalled_last_piece_fails_witness :
  exists c1 c2, poll_server (prof := dev) ServerExample.fuel 7%nat true true FaultExample.last_queued = Done (Pending, c1) /\
    self c1 = SendBody FaultExample.body_part /\
    poll_server (prof := dev) ServerExample.fuel 7%nat true true (set_wld FaultExample.stream_gone c1) =
      Done (Ready (Err unexpected_end), c2) /\
    self c2 = Closed /\ w_sent (BufIo.inner (bio c2)) = BufIo.outgoing (bio FaultExample.last_queued) ++ bs "ok".
Proof.
  assert (Hch : match outs (wld FaultExample.last_queued) !! BodySender.rx_body FaultExample.body_part with
    | Some ch => bool_decide (queue_of ch = [(bs "ok", true)]) | None => false end = true) by by vm_compute.
  destruct (outs (wld FaultExample.last_queued) !! BodySender.rx_body FaultExample.body_part) as [ch|] eqn:E; [|discriminate Hch].
  apply bool_decide_eq_true in Hch.
  assert (Hch2 : match outs FaultExample.stream_gone !! BodySender.rx_body FaultExample.body_part with
    | Some ch => bool_decide (queue_of ch = []) && bool_decide (Mpsc.senders ch = 0%nat) | None => false end = true) by by vm_compute.
  destruct (outs FaultExample.stream_gone !! BodySender.rx_body FaultExample.body_part) as [ch2|] eqn:E2; [|discriminate Hch2].
  apply andb_prop in Hch2 as [Hq2%bool_decide_eq_true Hs2%bool_decide_eq_true].
  destruct (stalled_last_piece_fails (prof := dev) ServerExample.fuel 7%nat true true FaultExample.last_queued
    FaultExample.body_part ch (bs "ok") FaultExample.written) as (c1 & ch1 & Hp & Hs1 & _ & _ & _ & Hnext);
    [by apply Nat.ltb_lt; vm_compute|by vm_compute|by vm_compute|by vm_compute|by vm_compute|exact E|exact Hch|by vm_compute|].
  destruct (Hnext FaultExample.stream_gone ch2 ServerExample.fuel 7%nat true true FaultExample.flushed) as (c2 & Hp2 & Hc2 & Ho2);
    [exact E2|exact Hq2|exact Hs2|by apply Nat.ltb_lt; vm_compute|by vm_compute|by vm_compute|].
  exists c1, c2. split; [exact Hp|]. split; [exact Hs1|]. split; [exact Hp2|]. split; [exact Hc2|exact Ho2].
Defined.

Lemma content_length_overrun_witness :
  exists c' d, poll_read_body (prof := dev) 10 7%nat FaultExample.body_next = Done (Ready (Ok tt), c') /\
    zlen d = 5 + zlen ServerExample.get_x /\ Bidirect.tx_body (self c') = Some 0%nat /\
    still_world (wld c') = at_in 0%nat (push (Ok d)) (still_world (wld FaultExample.body_next)).
Proof.
  pose proof (content_length_overrun (prof := dev) 10 7%nat _ _ _ FaultExample.head_segment) as Hp.
  assert (Hr : match poll_read_body (prof := dev) 10 7%nat FaultExample.body_next with
    | Done (Ready (Ok _), c') => match Bidirect.limit (self c') with
        | LimitRead.ContentLength v => ContentLengthRead.total v =? 5 + zlen ServerExample.get_x | _ => false end
    | _ => false end = true) by by vm_compute.
  destruct (poll_read_body (prof := dev) 10 7%nat FaultExample.body_next) as [[[|[[]|e]] c']| |]; try discriminate Hr.
  destruct Hp as (d & more & _ & _ & _ & _ & Hw & Hl & Htx & _). rewrite Hl in Hr.
  apply Z.eqb_eq in Hr. unfold ContentLengthRead.total in Hr at 1. rewrite Z.add_0_l in Hr.
  exists c', d. split; [reflexivity|]. split; [exact Hr|].
  cbn [ContentLengthRead.total ContentLengthRead.limit] in Hw, Htx. rewrite Z.add_0_l, Hr in Hw, Htx.
  split; [exact Htx|exact Hw].
Defined.
