(* ===== verification/Server_talk.v ===== *)
(** * What a server says

    [talk] is a session in which the user speaks through the streams that
    [send_response] returned, politely; every other call and every poll may
    come in between.  Until the connection fails, what it sends is then,
    answer after answer, the head, and the framing of what was said through
    the answer's own stream: [server_wrote]. *)

From S2P Require Import Prelude.
From S2P Require Import Async.
From S2P Require Import Fast_buf.
From S2P Require Import Transport.
From S2P Require Import Buf_reader.
From S2P Require Import Chunked.
From S2P Require Import Http_api.
From S2P Require Import Error.
From S2P Require Import Limit.
From S2P Require Import Http11.
From S2P Require Import Mpsc.
From S2P Require Import Share.
From S2P Require Import Channels.
From S2P Require Import Handles.
From S2P Require Import Codec.
From S2P Require Import Dialogue.
From S2P Require Import Streams.
From S2P Require Import Machine.
From S2P Require Import Server.
From S2P Require Import Server_spec.
From S2P Require Import Server_proofs.
From S2P Require Import Server_session.

(** ** Answers that wait *)

Section Waiting.
Context `{Http}.
Implicit Types (rs : gmap chan_id (Mpsc.t answer)) (c : Mpsc.t answer) (a b : answer).

Definition answer_chan (a : answer) : chan_id := a.2.
Definition waits rs (a : answer) : Prop := exists id c, rs !! id = Some c /\ a ∈ queue_of c.

(** Answers are only taken. *)
Definition shrinks rs rs' : Prop := forall id c', rs' !! id = Some c' ->
  queue_of c' = [] \/ exists c, rs !! id = Some c /\ queue_of c' `suffix_of` queue_of c.

(** No two answers have the same channel for their body. *)
Record distinct rs : Prop := {
  ds_one : forall id (c : Mpsc.t answer), rs !! id = Some c -> NoDup (answer_chan <$> queue_of c);
  ds_two : forall i j (ci cj : Mpsc.t answer) (a b : answer), rs !! i = Some ci -> rs !! j = Some cj ->
    a ∈ queue_of ci -> b ∈ queue_of cj -> a.2 = b.2 -> i = j;
}.

#[export] Instance shrinks_preorder : PreOrder shrinks.
Proof.
  split; [intros rs id c Hc; right; eauto|]. intros r1 r2 r3 S1 S2 id c3 H3.
  destruct (S2 id c3 H3) as [|(c2 & H2 & Hs2)]; [by left|]. destruct (S1 id c2 H2) as [Hn|(c1 & ? & ?)].
  - left. rewrite Hn in Hs2. by apply suffix_nil_inv in Hs2.
  - right. exists c1. split; [done|]. by etransitivity.
Qed.

Lemma shrinks_waits rs rs' a : shrinks rs rs' -> waits rs' a -> waits rs a.
Proof.
  intros Hs (id & c' & Hc' & Ha). destruct (Hs id c' Hc') as [Hn|(c & Hc & [k Hk])]; [rewrite Hn in Ha; by apply not_elem_of_nil in Ha|].
  exists id, c. split; [done|]. rewrite Hk. apply elem_of_app. by right.
Qed.

Lemma shrinks_distinct rs rs' : shrinks rs rs' -> distinct rs -> distinct rs'.
Proof.
  intros Hs [H1 H2]. assert (Hin : forall id c' a, rs' !! id = Some c' -> a ∈ queue_of c' -> exists c, rs !! id = Some c /\ a ∈ queue_of c).
  { intros id c' a Hc' Ha. destruct (Hs id c' Hc') as [Hn|(c & Hc & [k Hk])]; [rewrite Hn in Ha; by apply not_elem_of_nil in Ha|].
    exists c. split; [done|]. rewrite Hk. apply elem_of_app. by right. }
  split.
  - intros id c' Hc'. destruct (Hs id c' Hc') as [->|(c & Hc & [k Hk])]; [apply NoDup_nil_2|].
    specialize (H1 id c Hc). rewrite Hk, fmap_app in H1. by apply list.NoDup_app in H1 as (_ & _ & ?).
  - intros i j ci cj a b Hi Hj Ha Hb. destruct (Hin i ci a Hi Ha) as (ci0 & Hi0 & Ha0), (Hin j cj b Hj Hb) as (cj0 & Hj0 & Hb0). eauto.
Qed.

(** The answer at the front of a queue is taken. *)
Lemma distinct_take rs rs' id c a q : distinct rs -> rs !! id = Some c -> queue_of c = a :: q -> shrinks rs rs' ->
  (forall c', rs' !! id = Some c' -> queue_of c' `suffix_of` q) -> forall b, waits rs' b -> b.2 <> a.2.
Proof.
  intros [H1 H2] Hc Hq Hs Hid b (j & c' & Hc' & Hb) E. assert (Ha : a ∈ queue_of c) by (rewrite Hq; by left).
  destruct (decide (j = id)) as [->|Hne].
  - specialize (H1 id c Hc). rewrite Hq in H1. apply list.NoDup_cons in H1 as [Hn _]. apply Hn.
    apply list_elem_of_fmap. exists b. split; [done|].
    destruct (Hid c' Hc') as [k ->]. apply elem_of_app. by right.
  - destruct (Hs j c' Hc') as [Hn|(cj & Hcj & [k Hk])]; [rewrite Hn in Hb; by apply not_elem_of_nil in Hb|].
    apply Hne. apply (H2 j id cj c b a); try done. rewrite Hk. apply elem_of_app. by right.
Qed.

(** An answer is queued, with a channel no other has. *)
Lemma distinct_push rs id c c' a : distinct rs -> rs !! id = Some c -> queue_of c' = queue_of c ++ [a] ->
  (forall b, waits rs b -> b.2 <> a.2) -> distinct (<[id := c']> rs).
Proof.
  intros [H1 H2] Hc Hq Hn. assert (Hin : forall j cj b, <[id := c']> rs !! j = Some cj -> b ∈ queue_of cj ->
    (exists cj0, rs !! j = Some cj0 /\ b ∈ queue_of cj0) \/ (j = id /\ b = a)).
  { intros j cj b. rewrite lookup_insert_Some. intros [[<- <-]|[_ Hj]] Hb; [|by left; exists cj].
    rewrite Hq in Hb. apply elem_of_app in Hb as [|Hb%list_elem_of_singleton]; [left; eauto|by right]. }
  split.
  - intros j cj. rewrite lookup_insert_Some. intros [[<- <-]|[_ Hj]]; [|eauto]. rewrite Hq, fmap_app. apply list.NoDup_app.
    split; [eauto|]. split; [|apply NoDup_singleton]. intros x (b & -> & Hb)%list_elem_of_fmap E%list_elem_of_singleton.
    apply (Hn b); [|done]. by exists id, c.
  - intros i j ci cj b d Hi Hj Hb Hd E. destruct (Hin i ci b Hi Hb) as [(ci0 & Hi0 & Hb0)|[-> ->]],
      (Hin j cj d Hj Hd) as [(cj0 & Hj0 & Hd0)|[-> ->]]; [by eauto| | |done].
    + exfalso. apply (Hn b); [by exists i, ci0|done].
    + exfalso. apply (Hn d); [by exists j, cj0|done].
Qed.

Lemma push_waits rs id c c' a b : rs !! id = Some c -> queue_of c' = queue_of c ++ [a] -> waits (<[id := c']> rs) b ->
  waits rs b \/ b = a.
Proof.
  intros Hc Hq (j & cj & Hj & Hb). apply lookup_insert_Some in Hj as [[<- <-]|[_ Hj]]; [|left; by exists j, cj].
  rewrite Hq in Hb. apply elem_of_app in Hb as [|Hb%list_elem_of_singleton]; [left; by exists id, c|by right].
Qed.
End Waiting.

(** ** The calls *)

Section Calls.
Context {prof : Profile} `{Http} `{Httparse}.
Implicit Types (w : world) (a : answer).

(** Calls that leave bodies alone, and add no answer. *)
Definition calm w w' : Prop := leaves_bodies w w' /\ shrinks (ress w) (ress w').

#[export] Instance calm_preorder : PreOrder calm.
Proof.
  split; [intros w; split; reflexivity|]. intros w1 w2 w3 [A1 A2] [B1 B2]. split; by etransitivity.
Qed.

Lemma widens_shrinks w w' : widens w w' -> shrinks (ress w) (ress w').
Proof. intros W. exact (wd_resq _ _ W). Qed.

Lemma keeps_calm {B} (m : io world B) : keeps widens m -> keeps leaves_bodies m -> keeps calm m.
Proof. intros Hw Hl w r w' E. split; [by eapply Hl|]. apply widens_shrinks. by eapply Hw. Qed.

Lemma drop_drive_calm : keeps calm drop_drive.
Proof.
  intros w r w' [= _ <-]. split; [apply on_reqs_leaves|]. unfold on_reqs. destruct (Mpsc.drop_sender (reqs w)) as [c l].
  simpl. reflexivity.
Qed.

Lemma drop_send_response_calm s : keeps calm (drop_send_response s).
Proof. unfold drop_send_response. keeps_tac; auto using drop_drive_calm, keeps_calm, drop_tx_res_widens, drop_tx_res_leaves. Qed.
Lemma drop_send_stream_calm s : keeps calm (drop_send_stream s).
Proof. unfold drop_send_stream. keeps_tac; auto using drop_drive_calm, keeps_calm, drop_tx_out_widens, drop_tx_out_leaves. Qed.
Lemma drop_recv_stream_calm s : keeps calm (drop_recv_stream s).
Proof. unfold drop_recv_stream. keeps_tac; auto using drop_drive_calm, keeps_calm, drop_rx_in_widens, drop_rx_in_leaves. Qed.

Lemma call_calm w w' : call w w' -> calm w w'.
Proof.
  intros [fuel cx n this r this' w1 E|s r w1 E|s r w1 E|s r w1 E].
  - change w with (snd (this, w)). change w1 with (snd (this', w1)). split; [by eapply poll_body_data_leaves|].
    apply widens_shrinks. by eapply poll_body_data_widens.
  - by eapply drop_send_response_calm.
  - by eapply drop_send_stream_calm.
  - by eapply drop_recv_stream_calm.
Qed.

(** A call of [send_response] that returns a stream. *)
Lemma enqueue_opens s response no_body w r w' : enqueue_response s response no_body w = Done (Ready (Ok r), w') ->
  leaves_bodies w w' /\
  match r with
  | Ok st => outs w !! SendStream.tx_body st = None /\
      SendStream.limit st = LimitWrite.from_headers (res_headers response) /\
      (exists c, outs w' !! SendStream.tx_body st = Some c /\ queue_of c = [] /\ open_ok c) /\
      exists ch ch' : Mpsc.t answer, ress w !! SendResponse.tx_res s = Some ch /\ ress w' = <[SendResponse.tx_res s := ch']> (ress w) /\
        (queue_of ch' = queue_of ch \/
         queue_of ch' = queue_of ch ++ [(response, has_no_body s response no_body, SendStream.tx_body st) : answer])
  | Err _ => shrinks (ress w) (ress w')
  end.
Proof.
  intros E. unfold enqueue_response in E. apply bind_ok in E as (r1 & w1 & E1 & E). injection E1 as <- <-.
  cbv zeta in E. apply bind_ok in E as (r2 & w2 & E2 & E). injection E2 as _ <-.
  apply bind_ok in E as (sent & w3 & E3 & E). set (id := fresh_chan (outs w)) in *.
  assert (Hid : outs w !! id = None) by apply fresh_chan_none.
  unfold send_chan, on_chan in E3. cbn in E3. destruct (ress w !! SendResponse.tx_res s) as [ch|] eqn:Hch; [|done].
  destruct (Mpsc.send _ ch) as [[ok ch'] l] eqn:Es. injection E3 as <- <-. pose proof Es as Hs.
  pose proof Es as Es'. apply still_send in Hs as [_ Hok]. apply queue_send in Es.
  match type of E with _ ?w3 = _ => set (w3' := w3) in * end.
  assert (Hl : leaves_bodies w w3') by (apply calm_insert_new; exact Hid). 
  destruct (decide (Mpsc.receivers ch = 0%nat)) as [Hz|Hz];
    [rewrite bool_decide_false in Hok by (intros Hn; by apply Hn)|rewrite bool_decide_true in Hok by done]; subst ok; cbn [negb] in E; swap 1 2.
  - injection E as <- <-. split; [done|]. split; [done|]. split; [done|]. split.
    + exists (Mpsc.new 1). split; [apply lookup_insert_eq|done].
    + by exists ch, ch'.
  - assert (Hq : queue_of ch' = queue_of ch).
    { apply still_send in Es' as [Es' _]. rewrite <- (still_queue ch'), Es'. unfold push. by rewrite decide_True by done. }
    assert (Hs3 : shrinks (ress w) (ress w3')).
    { intros j cj. simpl. rewrite lookup_insert_Some. intros [[<- <-]|[_ Hj]]; right; [exists ch; by rewrite Hq|eauto]. }
    assert (Hc3 : calm w w3') by by split. apply bind_ok in E as (r4 & w4 & E4 & E).
    assert (Hc4 : calm w3' w4).
    { eapply keeps_calm; [apply drop_rx_out_widens|apply drop_rx_out_leaves|exact E4]. }
    apply bind_ok in E as (r5 & w5 & E5 & E). apply drop_send_stream_calm in E5.
    apply bind_ok in E as (r6 & w6 & E6 & E). apply drop_send_response_calm in E6. injection E as <- <-.
    destruct Hc3 as [? ?], Hc4 as [? ?], E5 as [? ?], E6 as [? ?].
    split; [etransitivity; [exact Hl|]|etransitivity; [exact Hs3|]]; (etransitivity; [eassumption|]); by etransitivity.
Qed.
End Calls.

(** ** The connection *)

Abbreviation untimed := Service.untimed.
Abbreviation server_sent_on := Service.server_sent_on.

Section Machine.
Context `{Http} `{Httparse}.
Implicit Types (w : world) (a : answer) (m : gmap chan_id speech).

Lemma queue_close_rx (c : Mpsc.t answer) : queue_of (close_rx c) `suffix_of` queue_of c.
Proof. unfold close_rx, queue_of. simpl. case_decide; simpl; [apply suffix_nil|done]. Qed.

Lemma shrinks_alter (rs : gmap chan_id (Mpsc.t answer)) id f : (forall c : Mpsc.t answer, queue_of (f c) `suffix_of` queue_of c) ->
  shrinks rs (alter f id rs).
Proof.
  intros Hf j c'. destruct (decide (j = id)) as [->|Hne].
  - rewrite lookup_alter_eq. intros (c & Hc & ->)%fmap_Some. right. eauto.
  - rewrite lookup_alter_ne by done. right. eauto.
Qed.

(** A step takes an answer from the front of its queue, or none. *)
Lemma step_answers s e s' : Service.step s e s' -> Service.fails e = false ->
  shrinks (ress (Service.chans s)) (ress (Service.chans s')) /\
  (Service.answers [e] = [] \/
   exists id (c : Mpsc.t answer) a q, Service.answers [e] = [a] /\ ress (Service.chans s) !! id = Some c /\ queue_of c = a :: q /\
     forall c', ress (Service.chans s') !! id = Some c' -> queue_of c' `suffix_of` q).
Proof.
  assert (Hsame : forall rs rs' : gmap chan_id (Mpsc.t answer), rs' = rs -> shrinks rs rs') by (intros rs rs' ->; reflexivity).
  intros Hs Hf. destruct Hs as [i o w head rest eos req body res Ht Hp Hb Hr|i o w|b i o w id c res end_ body q head Hb Hc Hq Ht
    |b i o w id wire body l' rest Hb Hi Hr|b i o w id Hb Hl|b i o w hd Hr Ht Hh|s i o w c chunk end_ at_once q Hc Hq|]; simpl; [..|done].
  - split; [|by left]. intros j cj. unfold Service.open_channels.
    destruct (LimitRead.is_no_body _); simpl; rewrite lookup_insert_Some; (intros [[<- <-]|[_ Hj]]; [by left|right; eauto]).
  - split; [by apply Hsame|by left].
  - assert (Hpop : forall c : Mpsc.t answer, queue_of (pop c) `suffix_of` queue_of c).
    { intros c0. unfold pop, queue_of. simpl. destruct (Inner.queue (Mpsc.inner c0)) as [|x l]; [done|]. by exists [x]. }
    split.
    + unfold Service.close_res. simpl. rewrite Service.drop_answers_ress. simpl.
      transitivity (alter pop id (ress w)); apply shrinks_alter; [done|apply queue_close_rx].
    + right. exists id, c, (res, end_, body), q. split_and!; try done. intros c'. unfold Service.close_res. simpl.
      rewrite Service.drop_answers_ress. simpl. rewrite !lookup_alter_eq. intros (c1 & (c2 & Hc2 & ->)%fmap_Some & ->)%fmap_Some.
      assert (c2 = c) as -> by (assert (E : Some c2 = Some c) by (transitivity (ress w !! id); [by symmetry|exact Hc]); by injection E).
      etransitivity; [apply queue_close_rx|]. exists []. symmetry. exact (f_equal tail Hq).
  - split; [apply Hsame; by case_decide|by left].
  - split; [by apply Hsame|by left].
  - split; [apply Hsame; by destruct (Service.no_body_to_send hd)|by left].
  - split; [apply Hsame; by destruct (end_ && at_once)|by left].
Qed.
End Machine.

(** ** Talking *)

Section Speaks.
Context {prof : Profile} `{Http} `{Httparse}.
Implicit Types (w : world) (a b : answer) (m : gmap chan_id speech).

(** An answer that the user gave, one of [gs], and its stream. *)
Definition framing_of_response (res : Response) : LimitWrite.t := LimitWrite.from_headers (res_headers res).
Definition handled (gs : list answer) m a : Prop := a ∈ gs /\ exists sp, m !! a.2 = Some sp /\ framing_of sp = framing_of_response a.1.1.

Lemma server_handled_update gs gs' m id sp' a : (forall sp, m !! id = Some sp -> framing_of sp' = framing_of sp) ->
  gs `prefix_of` gs' -> handled gs m a -> handled gs' (<[id := sp']> m) a.
Proof.
  intros Hf [k ->] (Hin & sp & Hsp & E). split; [apply elem_of_app; by left|]. destruct (decide (a.2 = id)) as [Ha|Hne].
  - exists sp'. rewrite Ha in *. by rewrite lookup_insert_eq, (Hf sp Hsp).
  - exists sp. by rewrite lookup_insert_ne by done.
Qed.

(** The bodies that were sent are those of the answers, each from a channel
    of its own. *)
Record speaks gs m (es : list Service.event) w : Prop := {
  sp_carries : carries (fun id => server_sent_on id es) m (outs w);
  sp_waits : forall a, waits (ress w) a -> handled gs m a;
  sp_answers : Forall (handled gs m) (Service.answers es);
  sp_distinct : distinct (ress w);
  sp_nodup : NoDup (answer_chan <$> Service.answers es);
  sp_apart : forall a, waits (ress w) a -> a.2 ∉ (answer_chan <$> Service.answers es);
}.

Lemma speaks_carries gs gs' m m' es w w' : speaks gs m es w -> carries (fun id => server_sent_on id es) m' (outs w') ->
  shrinks (ress w) (ress w') -> (forall a, handled gs m a -> handled gs' m' a) -> speaks gs' m' es w'.
Proof.
  intros [Hc Hw Ha Hd Hn Hp] Hc' Hs Hh. split; auto.
  - intros a Ha'. eapply Hh, Hw, shrinks_waits; done.
  - revert Ha. apply Forall_impl. auto.
  - by eapply shrinks_distinct.
  - intros a Ha'. by eapply Hp, shrinks_waits.
Qed.

Lemma speaks_step gs m es s e s' : Service.step s e s' -> Service.fails e = false -> speaks gs m es (Service.chans s) ->
  speaks gs m (es ++ [e]) (Service.chans s').
Proof.
  intros Hs Hf Hsp. pose proof (Service.server_step_draws _ _ _ Hs Hf) as Hdraw. destruct (step_answers _ _ _ Hs Hf) as [Hsh Han].
  assert (Hc' : carries (fun id => server_sent_on id (es ++ [e])) m (outs (Service.chans s'))).
  { eapply carries_draws; [apply Hsp|exact Hdraw|]. intros id. apply Service.server_sent_on_app. }
  assert (Hold : speaks gs m es (Service.chans s) -> forall a, waits (ress (Service.chans s')) a -> waits (ress (Service.chans s)) a)
    by (intros _ a; by apply shrinks_waits).
  specialize (Hold Hsp). destruct Hsp as [Hc Hw Ha Hd Hn Hp].
  destruct Han as [Han|(id & c & a & q & Han & Hid & Hq & Hid')].
  - split; rewrite ?Service.server_answers_snoc, ?Han, ?app_nil_r; auto. by eapply shrinks_distinct.
  - assert (Hwa : waits (ress (Service.chans s)) a) by (exists id, c; split; [done|]; rewrite Hq; by left).
    split; rewrite ?Service.server_answers_snoc, ?Han, ?fmap_app; auto.
    + apply Forall_app. split; [done|]. constructor; [by apply Hw|done].
    + by eapply shrinks_distinct.
    + apply list.NoDup_app. split; [done|]. split; [|apply NoDup_singleton]. intros x Hx Ex%list_elem_of_singleton.
      subst x. by apply (Hp a).
    + intros b Hb [Hin|Hin%list_elem_of_singleton]%elem_of_app; [by apply (Hp b); auto|].
      by apply (distinct_take _ _ _ _ _ _ Hd Hid Hq Hsh Hid' b Hb).
Qed.

Lemma speaks_run gs m s es s' : Service.run s es s' -> forall es0, (Service.unfailed es0 -> speaks gs m es0 (Service.chans s)) ->
  Service.unfailed (es0 ++ es) -> speaks gs m (es0 ++ es) (Service.chans s').
Proof.
  intros Hr es0 Hs. revert Hr. intros Hr.
  apply (Machine.run_extends Service.step (fun es s => Service.unfailed es -> speaks gs m es (Service.chans s))) with (s := s); [|done..].
  intros es1 s1 e s2 IH Hstep [Hu [Hf _]%Forall_cons_1]%Service.unfailed_app. by apply (speaks_step gs m es1 s1 e s2 Hstep); [|apply IH].
Qed.

(** *** The user's calls *)

Lemma server_speaks_calm gs m es w w' : speaks gs m es w -> calm w w' -> speaks gs m es w'.
Proof.
  intros Hs [Hl Hr]. apply (speaks_carries gs gs m m es w w' Hs); [|done|done]. eapply carries_calm; [apply Hs|exact Hl].
Qed.

Lemma server_speaks_piece gs m es w id sp cx end_ d r this' rest w' : speaks gs m es w -> m !! id = Some sp ->
  sendable (sp_stream sp) d -> polite sp (data_bytes d) end_ ->
  SendStream.poll_send_data cx end_ (sp_stream sp, d, w) = Done (r, (this', rest, w')) ->
  speaks gs (<[id := say sp this' r d end_]> m) es w'.
Proof.
  intros Hs Hsp Hd Hp E. apply (carries_send _ _ _ _ _ _ _ _ _ _ _ _ (sp_carries _ _ _ _ Hs) Hsp Hd Hp) in E as (Hc' & (_ & Hr & _) & Hf).
  apply (speaks_carries gs gs m _ es w w' Hs); [done|by rewrite Hr|]. intros a. apply server_handled_update; [congruence|done].
Qed.

(** The streams that are spoken through, by their channel. *)
Definition opened (r : result SendStream.t io_error) m : gmap chan_id speech :=
  match r with Ok s => <[SendStream.tx_body s := Speech s []]> m | Err _ => m end.

(** The answers that were given. *)
Definition given_by (s : SendResponse.t) (response : Response) (no_body : bool) (r : result SendStream.t io_error) (gs : list answer) :
    list answer :=
  match r with Ok st => gs ++ [(response, has_no_body s response no_body, SendStream.tx_body st)] | Err _ => gs end.

Lemma speaks_response gs m es w s response no_body r w' : speaks gs m es w ->
  enqueue_response s response no_body w = Done (Ready (Ok r), w') -> speaks (given_by s response no_body r gs) (opened r m) es w'.
Proof.
  intros Hs E. apply enqueue_opens in E as [Hl E]. pose proof Hs as [Hc Hw Ha Hd Hn Hp].
  destruct r as [st|e]; simpl; [|by apply (server_speaks_calm gs m es w w')].
  destruct E as (Hnew & Hlim & (ch & Hch & Hq & Hok) & c & c' & Hr & Hr' & Hqc). set (id := SendStream.tx_body st) in *.
  assert (Hm : m !! id = None).
  { destruct (m !! id) as [sp|] eqn:Em; [|done]. destruct (cs_speech _ _ _ Hc id sp Em) as (_ & cc & ? & _). congruence. }
  assert (Hc' : carries (fun id => server_sent_on id es) (<[id := Speech st []]> m) (outs w')).
  { apply (carries_new _ _ _ _ ch _ Hc Hl Hnew); [done..|]. by eapply sound_new. }
  set (a := (response, has_no_body s response no_body, id) : answer) in *.
  assert (Hh : forall b, handled gs m b -> handled (gs ++ [a]) (<[id := Speech st []]> m) b)
    by (intros b; apply server_handled_update; [congruence|by apply prefix_app_r]).
  assert (Hfresh : forall a, handled gs m a -> a.2 <> id) by (intros b (_ & sp & Hsp & _) E; congruence).
  destruct Hqc as [Hqc|Hqc].
  { apply (speaks_carries gs _ m _ es w w' Hs); [done| |done]. rewrite Hr'. intros j cj. rewrite lookup_insert_Some.
    intros [[<- <-]|[_ Hj]]; right; [exists c; by rewrite Hqc|eauto]. }
  assert (Hpush : forall b, waits (ress w') b -> waits (ress w) b \/ b = a) by (intros b; rewrite Hr'; by eapply push_waits).
  split; auto.
  - intros b [Hb| ->]%Hpush; [auto|]. split; [apply elem_of_app; right; by apply list_elem_of_singleton|]. exists (Speech st []). simpl. split; [apply lookup_insert_eq|].
    unfold framing_of. simpl. by rewrite Hlim, initial_from_headers.
  - revert Ha. by apply Forall_impl.
  - rewrite Hr'. apply (distinct_push _ _ c _ a); [done..|]. intros b Hb. apply Hfresh. auto.
  - intros b [Hb| ->]%Hpush; [auto|]. intros (b & Eb & Hb)%list_elem_of_fmap.
    apply (Hfresh b); [by apply (proj1 (list.Forall_forall _ _) Ha)|]. symmetry. exact Eb.
Qed.
End Speaks.

(** ** Sessions *)

Section Talk.
Context {prof : Profile} `{Http} `{Httparse} {R : Type} `{DuplexSpec R}.
Implicit Types (c : conn R State) (m : gmap chan_id speech).

(** [gs] are the answers that were given; the calls and the flag are those of
    the session. *)
Inductive talk c0 : list Service.act -> bool -> list answer -> gmap chan_id speech -> conn R State -> Prop :=
  | talk_start : talk c0 [] false [] ∅ c0
  | talk_response us f gs m c s response no_body r w ver : talk c0 us f gs m c -> version_str (res_version response) = Done ver ->
      enqueue_response s response no_body (wld c) = Done (Ready (Ok r), w) ->
      talk c0 (us ++ [(still_world (wld c), still_world w)]) f (given_by s response no_body r gs) (opened r m) (set_wld w c)
  | talk_piece us f gs m c id sp cx end_ d r this' rest w : talk c0 us f gs m c -> m !! id = Some sp ->
      sendable (sp_stream sp) d -> polite sp (data_bytes d) end_ ->
      SendStream.poll_send_data cx end_ (sp_stream sp, d, wld c) = Done (r, (this', rest, w)) ->
      talk c0 (us ++ [(still_world (wld c), still_world w)]) f gs (<[id := say sp this' r d end_]> m) (set_wld w c)
  | talk_call us f gs m c w : talk c0 us f gs m c -> call (wld c) w ->
      talk c0 (us ++ [(still_world (wld c), still_world w)]) f gs m (set_wld w c)
  | talk_accept us f gs m c fuel cx r c' : talk c0 us f gs m c -> enough fuel c -> poll_accept fuel cx c = Done (r, c') ->
      talk c0 us (f || is_err r) gs m c'
  | talk_close us f gs m c fuel cx r c' : talk c0 us f gs m c -> enough fuel c -> poll_close fuel cx c = Done (r, c') ->
      talk c0 us (f || close_fails fuel cx c) gs m c'
  | talk_drive us f gs m c fuel cx r c' : talk c0 us f gs m c -> enough fuel c ->
      poll_drive_external fuel cx c = Done (r, c') -> talk c0 us (f || is_err r) gs m c'
  | talk_drop us f gs m c r w : talk c0 us f gs m c -> drop_connection (wld c) = Done (r, w) -> talk c0 us f gs m (set_wld w c).

(** A talk is a session. *)
Lemma server_talk_session c0 us f gs m c : talk c0 us f gs m c -> session c0 us f c.
Proof.
  induction 1 as [|us f gs m c s response no_body r w ver _ IH Hv E|us f gs m c id sp cx end_ d r this' rest w _ IH Hsp Hs Hp E
    |us f gs m c w _ IH Hc|us f gs m c fuel cx r c' _ IH Hen E|us f gs m c fuel cx r c' _ IH Hen E
    |us f gs m c fuel cx r c' _ IH Hen E|us f gs m c r w _ IH E].
  - apply session_start.
  - apply session_user; [done|]. by eapply user_respond.
  - apply session_user; [done|]. by eapply user_send_data.
  - apply session_user; [done|]. by apply user_call.
  - by eapply session_accept.
  - by eapply session_close.
  - by eapply session_drive.
  - by eapply session_drop.
Qed.

Lemma speaks_same gs m es (w w' : world) : Service.same_bodies w w' -> speaks gs m es w -> speaks gs m es w'.
Proof. intros (Hr & Ho & _) [Hc Hw Ha Hd Hn Hp]. split; rewrite ?Hr, ?Ho; done. Qed.

Lemma shrinks_still (w : world) : shrinks (ress w) (ress (still_world w)) /\ shrinks (ress (still_world w)) (ress w).
Proof.
  split; intros id c' Hc'; right.
  - simpl in Hc'. rewrite lookup_fmap in Hc'. apply fmap_Some in Hc' as (c & Hc & ->). by exists c.
  - exists (still c'). simpl. by rewrite lookup_fmap, Hc'.
Qed.

Lemma speaks_still gs m es (w : world) : speaks gs m es (still_world w) <-> speaks gs m es w.
Proof.
  destruct (shrinks_still w) as [S1 S2]. split; intros Hs; (eapply speaks_carries; [exact Hs| |done|done]).
  - apply carries_still, Hs.
  - apply carries_still, Hs.
Qed.

(** What is said in a talk, until a failure. *)
Definition told c0 us (f : bool) gs m c : Prop :=
  wf c /\ exists es, Service.history (abs (self c0) c0) us es (abs (self c) c) /\ (f = false -> Service.unfailed es) /\
    (Service.unfailed es -> speaks gs m es (wld c)).

Lemma server_told_user c0 us f gs m c gs' m' w : told c0 us f gs m c -> user (wld c) w ->
  (forall es, speaks gs m es (wld c) -> speaks gs' m' es w) ->
  told c0 (us ++ [(still_world (wld c), still_world w)]) f gs' m' (set_wld w c).
Proof.
  intros (Hw & es & Hes & Hf & Hsp) Hu Hs. split; [by apply wf_user|]. exists es.
  split; [exact (server_history_call _ _ _ _ _ Hes Hu)|]. split; [done|]. intros Hn. by apply Hs, Hsp.
Qed.

Lemma told_moves c0 us f gs m c f' es' c' : told c0 us f gs m c -> moves_on c f' es' c' -> told c0 us (f || f') gs m c'.
Proof.
  intros (Hw & es & Hes & Hf & Hsp) Hm. split; [apply Hm|]. exists (es ++ es'). split; [by eapply history_moves|].
  destruct Hm as (_ & Hf' & w & s & w' & Hb & Hrun & Hb' & Habs). split.
  { intros [? ?]%orb_false_iff. apply Service.unfailed_app. auto. }
  intros Hn. apply speaks_still.
  change (still_world (wld c')) with (Service.chans (abs (self c') c')). rewrite Habs. apply (speaks_same _ _ _ _ _ Hb').
  apply (speaks_run gs m _ es' s Hrun es); [|done]. intros Hn'. apply (speaks_same _ _ _ _ _ Hb), speaks_still. by apply Hsp.
Qed.

Lemma speaks_start (w : world) : ress w = ∅ -> speaks [] ∅ [] w.
Proof.
  intros Hr. assert (Hn : forall a : answer, ~ waits (ress w) a).
  { intros a (id & c & Hc & _). by rewrite Hr, lookup_empty in Hc. }
  split; try done; try (by intros a Ha%Hn).
  - split; intros id; by rewrite Hr, lookup_empty.
  - apply NoDup_nil_2.
Qed.

Lemma server_talk_told c0 us f gs m c : wf c0 -> ress (wld c0) = ∅ -> talk c0 us f gs m c -> told c0 us f gs m c.
Proof.
  intros Hwf Hr0. induction 1 as [|us f gs m c s response no_body r w ver _ IH Hv E|us f gs m c id sp cx end_ d r this' rest w _ IH Hsp Hs Hp E
    |us f gs m c w _ IH Hc|us f gs m c fuel cx r c' _ IH Hen E|us f gs m c fuel cx r c' _ IH Hen E
    |us f gs m c fuel cx r c' _ IH Hen E|us f gs m c r w _ IH E].
  - split; [done|]. exists []. split; [apply Service.history_nil|]. split; [intros _; constructor|]. intros _.
    by apply speaks_start.
  - eapply server_told_user; [exact IH|by eapply user_respond|]. intros es Hes. by eapply speaks_response.
  - eapply server_told_user; [exact IH|by eapply user_send_data|]. intros es Hes. by eapply server_speaks_piece.
  - eapply server_told_user; [exact IH|by apply user_call|]. intros es Hes. by eapply server_speaks_calm, call_calm.
  - destruct (accept_moves _ _ _ _ _ (proj1 IH) Hen E) as (es & Hm). by eapply told_moves.
  - destruct (close_moves _ _ _ _ _ (proj1 IH) Hen E) as (es & Hm). by eapply told_moves.
  - destruct (drive_moves _ _ _ _ _ (proj1 IH) Hen E) as (es & Hm). by eapply told_moves.
  - rewrite <- (orb_false_r f). eapply told_moves; [exact IH|]. by eapply drop_moves; [apply IH|].
Qed.
End Talk.

(** ** The messages *)

Section Messages.
Context `{Http} `{Httparse}.
Implicit Types (m : gmap chan_id speech) (x : Service.exchange) (a : answer).

(** The framing of an answer on the wire, and what was said as its body. *)
Definition framing_of_answer a : LimitWrite.t :=
  if Service.answer_has_no_body a then LimitWrite.NoBody else framing_of_response a.1.1.
Definition answer_body m a : bytes :=
  if Service.answer_has_no_body a then [] else from_option (fun sp => data_of (sp_said sp)) [] (m !! a.2).

(** The answers with their heads. *)
Definition given (l : list Service.event) : list (answer * bytes) :=
  omap (fun e => match e with Service.Answered _ a head => Some (a, head) | _ => None end) l.
Definition payload x : list piece := strip (untimed (Service.chunks (Service.x_events x))).

(** An answer on the wire. *)
Definition answer_message m x (s : said) : Prop :=
  exists a, given (Service.x_events x) = [(a, s_head s)] /\ s_limit s = framing_of_answer a /\
    s_wire s = data_of (payload x) /\ says (s_limit s) (s_wire s) (s_data s) (s_fin s) /\
    (all_said (s_limit s) (s_data s) (s_fin s) -> s_data s = answer_body m a) /\
    (Service.whole x -> s_fin s = true).

Lemma given_answers l : fst <$> given l = Service.answers l.
Proof. unfold given, Service.answers. induction l as [|e l IH]; [done|]. destruct e; simpl; by f_equal. Qed.

(** Where an exchange stands: unanswered, or answered with a part of the body. *)
Definition settled x : Prop :=
  let l := Service.x_events x in
  omap Service.accepted l = [] /\ Service.orderly l /\
  ((Service.answers l = [] /\ Service.chunks l = []) \/
   exists a, Service.answers l = [a] /\ Service.from_channel a.2 (Service.chunks l) /\
     (Service.answer_has_no_body a = true -> Service.chunks l = [])).

Lemma under_way_settled x ph : Service.under_way x ph -> settled x.
Proof.
  assert (Hw : Service.whole x -> settled x).
  { intros (Ht & Hf & _ & a & Ha & _ & Hc & Hb). split; [done|]. split; [done|]. right. exists a. split; [done|]. split; [done|].
    intros E. by rewrite E in Hb. }
  intros (Ht & Hf & Hu). destruct ph as [|b|s|]; [by apply Hw, Hu|..|by apply Hw, Hu].
  - destruct Hu as (_ & Hc & _ & Ha). split; [done|]. split; [done|]. rewrite Hc.
    destruct (Service.answers _) as [|a [|]]; [by left|right|by destruct a as [[??]?]]. exists a. split; [done|]. split; [constructor|done].
  - destruct Hu as (_ & _ & a & Ha & _ & Hn & _ & Hc & _). split; [done|]. split; [done|]. right. exists a. split_and!; [done..|].
    by rewrite Hn.
Qed.

Definition server_group x : option chan_id * list (chan_id * bytes * bool) :=
  (answer_chan <$> head (Service.answers (Service.x_events x)), untimed (Service.chunks (Service.x_events x))).

Lemma settled_owned x : settled x -> owned (server_group x).
Proof.
  intros (_ & _ & [[Ha Hc]|(a & Ha & Hc & _)]); unfold owned, server_group; simpl; rewrite Ha; [by rewrite Hc|].
  unfold untimed. apply Forall_fmap. revert Hc. apply Forall_impl. intros [[[id d] e] o]. simpl. by intros ->.
Qed.

Lemma server_chunks_bind (xs : list Service.exchange) :
  untimed (Service.chunks (xs ≫= Service.trace_of)) = concat (snd <$> (server_group <$> xs)).
Proof.
  induction xs as [|x xs IH]; [done|]. rewrite bind_cons, !fmap_cons. cbn [concat]. rewrite <- IH.
  unfold Service.chunks, untimed. by rewrite omap_app, fmap_app.
Qed.

Lemma server_answers_bind (xs : list Service.exchange) : Forall settled xs ->
  answer_chan <$> Service.answers (xs ≫= Service.trace_of) = omap fst (server_group <$> xs).
Proof.
  induction 1 as [|x xs Hx _ IH]; [done|]. rewrite bind_cons. unfold Service.answers. rewrite omap_app, fmap_app.
  fold (Service.answers (xs ≫= Service.trace_of)). rewrite IH. destruct Hx as (_ & _ & [[Ha _]|(a & Ha & _)]).
  - change (omap _ (Service.trace_of x)) with (Service.answers (Service.x_events x)). unfold server_group at 2. simpl. by rewrite Ha.
  - change (omap _ (Service.trace_of x)) with (Service.answers (Service.x_events x)). unfold server_group at 2. simpl. by rewrite Ha.
Qed.

Lemma server_sent_events l : omap Service.accepted l = [] -> Service.orderly l ->
  l ≫= Service.sent = concat (snd <$> given l) ++ data_of (strip (untimed (Service.chunks l))).
Proof.
  intros Ht [Hnf (l1 & l2 & -> & Hc & Ha)]. apply Service.unfailed_app in Hnf as [Hn1 Hn2]. rewrite bind_app. unfold given. rewrite omap_app. fold (given l1) (given l2).
  assert (H2 : given l2 = []) by (apply (fmap_nil_inv fst); by rewrite given_answers). rewrite H2, app_nil_r.
  unfold Service.chunks. rewrite omap_app. fold (Service.chunks l1) (Service.chunks l2). rewrite Hc. simpl. f_equal.
  - clear -Hc Hn1. induction Hn1 as [|e l Hf _ IH]; [done|]. rewrite bind_cons. destruct e; simpl in Hc; try done; rewrite IH by done; done.
  - clear -Ha Hn2. induction Hn2 as [|e l Hf _ IH]; [done|]. rewrite bind_cons. destruct e; simpl in Ha; try done; rewrite IH by done; done.
Qed.

(** The exchanges of a history that did not fail: the whole ones, one that
    was answered, and one that was not. *)
Definition server_laid_out (es : list Service.event) (zs ys : list Service.exchange) : Prop :=
  exists tail, es = (ys ≫= Service.trace_of) ++ tail /\ (tail = [] \/ tail = [Service.HungUp]) /\
    Forall settled ys /\ (ys = zs \/ exists x, ys = zs ++ [x] /\ Service.answers (Service.x_events x) = []) /\
    Forall (fun x => Service.answers (Service.x_events x) <> []) zs /\
    exists xs, Forall Service.whole xs /\ (zs = xs \/ exists x, zs = xs ++ [x]) /\ (ys = xs \/ exists x, ys = xs ++ [x]).

Lemma whole_answered x : Service.whole x -> Service.answers (Service.x_events x) <> [].
Proof. intros (_ & _ & _ & a & -> & _). done. Qed.

Lemma exchanges_server_laid_out es xs ph : Service.exchanges es xs ph -> Service.unfailed es ->
  exists zs ys, server_laid_out es zs ys /\ xs `prefix_of` ys.
Proof.
  intros (Hxs & l & Hl & ->) Hf. assert (Hs : Forall settled xs) by (revert Hxs; apply Forall_impl; intros x; apply under_way_settled).
  assert (Hw : Forall Service.whole xs) by (revert Hxs; apply Forall_impl; by intros x (_ & _ & ? & _)).
  assert (Ha : Forall (fun x => Service.answers (Service.x_events x) <> []) xs) by (revert Hw; apply Forall_impl, whole_answered).
  assert (Hrest : exists ys tail, (xs ≫= Service.trace_of) ++ l = (ys ≫= Service.trace_of) ++ tail /\ (tail = [] \/ tail = [Service.HungUp]) /\
    Forall settled ys /\ (ys = xs \/ exists x, ys = xs ++ [x])).
  { destruct Hl as [|ph x Hp Hx| |ph l Hp Hl].
    - exists xs, []. auto.
    - exists (xs ++ [x]), []. split; [rewrite bind_app; simpl; by rewrite !app_nil_r|]. split; [by left|]. split; [|by right; eauto].
      apply Forall_app. split; [done|]. constructor; [by eapply under_way_settled|done].
    - exists xs, [Service.HungUp]. auto.
    - exfalso. rewrite app_assoc in Hf. by apply Service.unfailed_app in Hf as [_ [? _]%Forall_cons_1]. }
  destruct Hrest as (ys & tail & E & Ht & Hys & Hx). destruct Hx as [-> |(x & ->)].
  - exists xs, xs. split; [|done]. exists tail. split_and!; auto. exists xs. auto.
  - destruct (Service.answers (Service.x_events x)) as [|a l'] eqn:Ex.
    + exists xs, (xs ++ [x]). split; [|by apply prefix_app_r]. exists tail. split_and!; auto; [right; eauto|]. exists xs. eauto 6.
    + exists (xs ++ [x]), (xs ++ [x]). split; [|by apply prefix_app_r]. exists tail. split_and!; auto.
      * apply Forall_app. split; [done|]. constructor; [by rewrite Ex|done].
      * exists xs. split; [done|]. split; right; by exists x.
Qed.

(** Every answer has its message. *)
Lemma server_message_exists gs m es (w : world) zs ys x : speaks gs m es w -> server_laid_out es zs ys -> x ∈ zs ->
  exists s, answer_message m x s.
Proof.
  intros Hs (tail & He & Ht & Hys & Hz & Haz & _) Hx.
  assert (Hxy : x ∈ ys) by (destruct Hz as [-> |(y & -> & _)]; [done|apply elem_of_app; by left]).
  pose proof (proj1 (list.Forall_forall _ _) Hys x Hxy) as (Hacc & Hfirst & Hsx).
  pose proof (proj1 (list.Forall_forall _ _) Haz x Hx) as Hne. simpl in Hne.
  destruct Hsx as [[? _]|(a & Ha & Hc & Hnb)]; [done|].
  assert (Hg : exists head, given (Service.x_events x) = [(a, head)]).
  { pose proof (given_answers (Service.x_events x)) as Hg. rewrite Ha in Hg.
    destruct (given (Service.x_events x)) as [|[a' head] [|]]; try done. injection Hg as ->. by exists head. }
  destruct Hg as (head & Hg). assert (Hes : Service.answers es = Service.answers (ys ≫= Service.trace_of) /\ Service.chunks es = Service.chunks (ys ≫= Service.trace_of)).
  { rewrite He. unfold Service.answers, Service.chunks. rewrite !omap_app. by destruct Ht as [-> | ->]; rewrite !app_nil_r. }
  destruct Hes as [Hea Hec]. assert (Hin : a ∈ Service.answers es).
  { rewrite Hea. apply list_elem_of_split in Hxy as (y1 & y2 & ->). rewrite bind_app, bind_cons. unfold Service.answers.
    rewrite !omap_app. apply elem_of_app. right. apply elem_of_app. left.
    change (a ∈ Service.answers (Service.x_events x)). rewrite Ha. by left. }
  pose proof (proj1 (list.Forall_forall _ _) (sp_answers _ _ _ _ Hs) a Hin) as (_ & sp & Hsp & Hfr).
  destruct (Service.answer_has_no_body a) eqn:En.
  - exists (Said head LimitWrite.NoBody [] [] true). exists a. unfold framing_of_answer, answer_body, payload. rewrite En, Hnb by done.
    by split_and!.
  - assert (Hto : server_sent_on a.2 es = payload x).
    { unfold server_sent_on. rewrite Hec, server_chunks_bind. apply from_chan_owner.
      - apply Forall_fmap. revert Hys. apply Forall_impl, settled_owned.
      - pose proof (sp_nodup _ _ _ _ Hs) as Hnd. rewrite Hea, server_answers_bind in Hnd by done. exact Hnd.
      - assert (Ex : server_group x = (Some a.2, untimed (Service.chunks (Service.x_events x)))) by (unfold server_group; by rewrite Ha).
        rewrite <- Ex. by apply list_elem_of_fmap_2. }
    destruct (taken_says _ _ _ _ _ (sp_carries _ _ _ _ Hs) Hsp) as (sd & Hpre & Hsays & Hall). rewrite Hto in Hsays, Hall.
    exists (Said head (framing_of sp) (data_of (payload x)) (data_of sd) (ended_by (payload x))). exists a.
    unfold framing_of_answer, answer_body. rewrite En, Hsp. split_and!; try done.
    + intros Hsaid. destruct (cs_speech _ _ _ (sp_carries _ _ _ _ Hs) a.2 sp Hsp) as ((_ & Hp & _) & _).
      by eapply all_said_front.
    + intros (_ & _ & _ & a' & Ha' & _ & _ & Hb). rewrite Ha in Ha'. injection Ha' as <-. rewrite En in Hb.
      destruct Hb as (l' & d & El & _). simpl. unfold payload, strip, untimed, ended_by. rewrite El, !fmap_app, existsb_app. simpl.
      by rewrite orb_true_r.
Qed.

Lemma answer_sent m x s : settled x -> answer_message m x s -> Service.trace_of x ≫= Service.sent = s_head s ++ s_wire s.
Proof.
  intros (Hacc & Hf & _) (a & Hg & _ & Hw & _). unfold Service.trace_of. rewrite bind_cons, server_sent_events, Hg by done.
  simpl. rewrite app_nil_r, Hw. done.
Qed.

(** What was sent is the messages, in turn. *)
Lemma server_says gs m es (w : world) zs ys : speaks gs m es w -> server_laid_out es zs ys ->
  exists ss, Forall2 (answer_message m) zs ss /\ es ≫= Service.sent = stream_of ss /\ in_turn ss.
Proof.
  intros Hs Hlay. assert (Hex : exists ss, Forall2 (answer_message m) zs ss).
  { assert (Hall : forall x, x ∈ zs -> exists s, answer_message m x s) by (intros x Hx; by eapply server_message_exists).
    clear -Hall. induction zs as [|x zs IH]; [by exists []|]. destruct (Hall x) as [s Hx]; [by left|].
    destruct IH as [ss Hss]; [intros y Hy; apply Hall; by right|]. exists (s :: ss). by constructor. }
  destruct Hex as [ss Hss]. exists ss. split; [done|]. destruct Hlay as (tail & He & Ht & Hys & Hz & Haz & xs & Hxs & Hzx & _). split.
  - rewrite He, bind_app. assert (Htail : tail ≫= Service.sent = []) by by destruct Ht as [-> | ->]. rewrite Htail, app_nil_r.
    assert (Hzs : (zs ≫= Service.trace_of) ≫= Service.sent = stream_of ss).
    { assert (Hzs : Forall settled zs) by (destruct Hz as [-> |(y & -> & _)]; [done|by apply Forall_app in Hys as [? _]]).
      clear -Hss Hzs. induction Hss as [|x s zs ss Hx _ IH]; [done|]. apply Forall_cons_1 in Hzs as [? ?].
      unfold stream_of. rewrite !bind_cons, bind_app. fold (stream_of ss). rewrite IH, (answer_sent m x s) by done. done. }
    destruct Hz as [-> |(y & -> & Hy)]; [done|]. rewrite bind_app, bind_app, Hzs. simpl. rewrite app_nil_r.
    apply Forall_app in Hys as [_ [Hsy _]%Forall_cons_1]. destruct Hsy as (Hacc & Hf & [[_ Hc]|(a & Ha & _)]); [|congruence].
    rewrite server_sent_events by done. rewrite Hc. assert (Hg : given (Service.x_events y) = []) by (apply (fmap_nil_inv fst); by rewrite given_answers).
    rewrite Hg. simpl. by rewrite app_nil_r.
  - assert (Hfin : forall d ss', Forall Service.whole d -> Forall2 (answer_message m) d ss' -> Forall (fun s => s_fin s = true) ss').
    { clear. intros d ss' Hd Hm. induction Hm as [|x s d ss' (a & _ & _ & _ & _ & _ & Hf) _ IH]; [done|].
      apply Forall_cons_1 in Hd as [? ?]. constructor; auto. }
    destruct Hzx as [-> |(x & ->)].
    + rewrite <- (app_nil_r ss). apply in_turn_last; [by eapply Hfin|simpl; lia].
    + apply Forall2_app_inv_l in Hss as (s1 & s2 & H1 & H2 & ->). apply in_turn_last; [by eapply Hfin|].
      apply Forall2_length in H2. simpl in H2. lia.
Qed.
End Messages.

(** ** What a talk comes to *)

Section Wrote.
Context {prof : Profile} `{Http} `{Httparse} {R : Type} `{DuplexSpec R}.
Implicit Types (c : conn R State) (m : gmap chan_id speech).

(** The messages a server wrote, and the exchanges they answer. *)
Definition wrote m c (es : list Service.event) zs ys (ss : list said) : Prop :=
  server_laid_out es zs ys /\ Forall2 (answer_message m) zs ss /\ BufIo.outgoing (bio c) = stream_of ss /\ in_turn ss.

Lemma server_wrote (io : R) c0 us f gs m c : fits io -> w_sent io = [] -> handshake io = Done c0 -> talk c0 us f gs m c ->
  exists es, Service.history (abs RecvReq c0) us es (abs (self c) c) /\ (f = false -> Service.unfailed es) /\
    (Service.unfailed es -> Forall (fun a => a ∈ gs) (Service.answers es) /\ exists zs ys ss, wrote m c es zs ys ss).
Proof.
  intros Hfit Hsent Hsh Ht. destruct (server_handshake_ok io Hfit) as (c0' & E & Hwf & Hst & Hin & Hout).
  rewrite Hsh in E. injection E as <-.
  assert (Hr : ress (wld c0) = ∅).
  { revert Hsh. unfold handshake. destruct (new_codec io) as [[b st]| |]; simpl; [|done..]. by intros [= <-]. }
  destruct (server_talk_told _ _ _ _ _ _ Hwf Hr Ht) as (Hw & es & Hes & Hnf & Hsp). rewrite Hst in Hes. exists es. do 2 (split; [done|]).
  intros Hf. destruct (Service.server_history_wires _ _ _ _ Hes) as (Ho & _).
  simpl in Ho. rewrite Hout, Hsent in Ho. simpl in Ho.
  destruct (Service.server_history_exchanges _ _ _ _ Hes eq_refl) as (xs & Hxs).
  destruct (exchanges_server_laid_out _ _ _ Hxs Hf) as (zs & ys & Hlay & _).
  destruct (server_says _ _ _ _ _ _ (Hsp Hf) Hlay) as (ss & Hss & Hsent' & Hturn).
  split; [generalize (sp_answers _ _ _ _ (Hsp Hf)); apply Forall_impl; by intros a [? _]|]. exists zs, ys, ss.
  split; [done|]. split; [done|]. split; [|done]. by rewrite Ho.
Qed.
End Wrote.
