(* ===== verification/Server_progress.v ===== *)
(** * The server gets on

    What a poll of the connection costs, and what a session comes to: over a
    live transport only the user can hold a connection up for ever. *)

From S2P Require Import Prelude.
From S2P Require Import Async.
From S2P Require Import Std_text.
From S2P Require Import Fast_buf.
From S2P Require Import Transport.
From S2P Require Import Buf_reader.
From S2P Require Import Http_api.
From S2P Require Import Error.
From S2P Require Import Limit.
From S2P Require Import Http11.
From S2P Require Import Mpsc.
From S2P Require Import Share.
From S2P Require Import Channels.
From S2P Require Import Handles.
From S2P Require Import Codec.
From S2P Require Import Stalls.
From S2P Require Import Machine.
From S2P Require Import Server.
From S2P Require Import Server_spec.
From S2P Require Import Server_proofs.
From S2P Require Import Server_session.

(** ** No poll gives the transport more stalls *)

Section Calm.
Context {prof : Profile} `{Http} `{Httparse} {R : Type} `{DuplexSpec R}.

Lemma poll_next_req_calm fuel : keeps calm (poll_next_req (R := R) fuel).
Proof. unfold poll_next_req. keeps_tac. Qed.

Lemma poll_send_resp_calm fuel cx register : keeps calm (poll_send_resp (R := R) fuel cx register).
Proof. unfold poll_send_resp, set_part. keeps_tac. Qed.

Lemma take_chunk_calm : keeps calm (take_chunk (R := R)).
Proof.
  intros c r c'. unfold take_chunk, BufIo.take_read_buf.
  destruct (FastBuf.with_capacity _) as [v| |]; [|done..]. simpl. destruct (FastBuf.into_vec _) as [d| |]; [|done..]. simpl.
  destruct (LimitRead.accept_entire_vec _ _) as [l| |]; [|done..]. simpl. by intros [= _ <-] ?.
Qed.

(** Room in the read buffer costs nothing. *)
Lemma ensure_calm n : keeps BufIo.lasts (b ← get; b ← lift (BufIo.ensure_read_capacity n b); modify (fun _ : BufIo.t R => b)).
Proof.
  intros b r b'. unfold mbind, io_bind, get, lift, modify, BufIo.ensure_read_capacity.
  destruct (FastBuf.ensure_capacity _ _) as [v| |]; [|done..]. by intros [= _ <-] ?.
Qed.

Lemma limit_read_server_calm fuel n : keeps calm (limit_read (R := R) fuel n).
Proof. apply calm_limit_read. Qed.
Hint Resolve poll_next_req_calm poll_send_resp_calm take_chunk_calm ensure_calm limit_read_server_calm : keeps.

Lemma copy_chunk_calm fuel n : keeps calm (copy_chunk (R := R) fuel n).
Proof. unfold copy_chunk. keeps_tac. Qed.
Hint Resolve copy_chunk_calm : keeps.

Lemma server_poll_read_body_calm fuel cx : keeps calm (poll_read_body (R := R) fuel cx).
Proof.
  unfold poll_read_body, set_part. apply keeps_bind; [exact _|auto with keeps|intros this].
  repeat (apply keeps_bind; [exact _|first [apply calm_bio, ensure_calm|keeps_tac]|intros ?]). keeps_tac.
Qed.

Lemma server_is_pending_or_calm (m : io (conn R Bidirect.t) unit) : keeps calm m -> keeps calm (is_pending_or m).
Proof. intros Hm. unfold is_pending_or. keeps_tac. Qed.
Hint Resolve server_poll_read_body_calm server_is_pending_or_calm : keeps.

Lemma server_poll_bidirect_calm fuel cx register : keeps calm (poll_bidirect (R := R) fuel cx register).
Proof. unfold poll_bidirect, bidirect_turn, set_part. keeps_tac. Qed.

Lemma server_poll_send_body_calm fuel cx register : keeps calm (poll_send_body (R := R) fuel cx register).
Proof. unfold poll_send_body, send_body_turn. keeps_tac. Qed.
Hint Resolve server_poll_bidirect_calm server_poll_send_body_calm : keeps.

Lemma server_set_state_calm next : keeps calm (set_state (R := R) next).
Proof. unfold set_state. keeps_tac. Qed.
Hint Resolve server_set_state_calm : keeps.

Lemma or_drop_want_calm want (m : io (conn R State) (option package)) : keeps calm m -> keeps calm (or_drop_want want m).
Proof.
  intros Hm c r c'. unfold or_drop_want. destruct (m c) as [[r1 c1]| |] eqn:E; [|done..]. apply Hm in E.
  assert (Hd : forall v c2, (if want then '(_, c'') ← on_world drop_drive c1; Done (v, c'') else Done (v, c1)) = Done (r, c2) -> calm c c2).
  { intros v c2. destruct want; simpl; [|by intros [= _ <-]]. by intros [= _ <-]. }
  simpl. destruct r1 as [|[[pkg|]|e]]; [apply Hd|by intros [= _ <-]|apply Hd..].
Qed.
Hint Resolve or_drop_want_calm : keeps.

Lemma server_drive_calm fuel cx want register : keeps calm (drive (R := R) fuel cx want register).
Proof. unfold drive, drive_turn. apply or_drop_want_calm. keeps_tac. Qed.
Hint Resolve server_drive_calm : keeps.

Lemma poll_server_calm fuel cx want register : keeps calm (poll_server (R := R) fuel cx want register).
Proof. unfold poll_server. keeps_tac. Qed.
End Calm.

(** ** What a connection can wait for *)

Section Waiting.
Context {prof : Profile} `{Http} `{Httparse} {R : Type} `{DuplexSpec R}.
Implicit Types (c : conn R State) (w : world).

(** It waits for the user: for the request body to be read; for the response;
    or for more of its body.  A poll that a handle makes leaves no waker where
    only the user can let it go on. *)
Definition waits_for_user (cx : waker) (register : bool) (s : State) w : Prop :=
  match s with
  | RecvReq | Closed => False
  | SendRes h =>
      from_option (fun id => from_option (backed_up cx) False (ins w !! id)) False (Bidirect.tx_body h) \/
      (from_option (fun id => from_option (awaits register cx) False (ress w !! id)) False (Bidirect.rx_res h) /\
       (register = false -> Bidirect.tx_body h = None))
  | SendBody s => from_option (awaits register cx) False (outs w !! BodySender.rx_body s)
  end.

#[export] Instance server_waits_dec cx register s w : Decision (waits_for_user cx register s w).
Proof. destruct s as [|h|h|]; simpl; apply _. Defined.

Lemma server_parked_waits budget cx register s (b : BufIo.t R) w : parked budget cx register s b w ->
  waits_for_user cx register s w \/ (live R -> (stalls (BufIo.inner b) < budget)%nat).
Proof.
  intros [[_ Hb]|Hp]; [by right|]. destruct s as [|h|h|]; simpl in *; [by right; apply Hp| | |done].
  - destruct Hp as [[[_ Hb]|(id & ch & -> & Hid & Hch)]|[(id & ch & -> & Hid & Hch) Hreg]]; [by right|left..].
    + left. simpl. by rewrite Hid.
    + right. simpl. by rewrite Hid.
  - destruct Hp as (ch & -> & Hch). by left.
Qed.

Lemma server_poll_costs fuel cx want register c r c' : live R -> wf c -> enough fuel c ->
  poll_server fuel cx want register c = Done (r, c') ->
  wf c' /\ (stalls_left c' <= stalls_left c)%nat /\
  (r = Pending -> waits_for_user cx register (self c') (wld c') \/ (stalls_left c' < stalls_left c)%nat).
Proof.
  intros Hl Hwf Hen E. pose proof (poll_server_wp fuel cx want register c Hwf Hen) as Hp. unfold wp in Hp. rewrite E in Hp.
  destruct Hp as (Hw & es & s & _ & _ & Hr). split; [done|]. split; [by eapply poll_server_calm|].
  intros ->. destruct Hr as (_ & _ & Hr). apply server_parked_waits in Hr as [?|Hs]; [by left|]. right. by apply Hs.
Qed.

Lemma drop_answers_holds l w : reqs (Service.drop_answers l w) = reqs w.
Proof. revert w. induction l as [|a l IH]; intros w; [done|]. simpl. by rewrite IH. Qed.

(** A quiet run leaves the holds alone. *)
Lemma quiet_holds s es s' : Service.run s es s' -> quiet es -> reqs (Service.chans s') = reqs (Service.chans s).
Proof.
  induction 1 as [|s e s1 es s2 Hs Hr IH]; [done|]. intros [[Ha Hf] Hq]%Forall_cons_1. rewrite (IH Hq).
  destruct Hs; simpl in *; try done; repeat case_match; try done. by rewrite drop_answers_holds.
Qed.

(** [accept] of a [Connection] without handles polls it, and if it is
    [Pending] its hold is given back. *)
Definition alone c : Prop := count_external (wld c) = 1%nat.
#[export] Instance alone_dec c : Decision (alone c).
Proof. unfold alone. apply _. Defined.

Lemma with_hold_wf c : wf c -> wf (with_hold c).
Proof. by apply wf_drains; split; simpl; eauto. Qed.

Lemma alone_again fuel cx c c' : wf c -> enough fuel c -> alone c -> 
  poll_server fuel cx true true (with_hold c) = Done (Pending, c') -> alone c'.
Proof.
  intros Hwf%with_hold_wf Hen Hal E.
  pose proof (poll_server_wp fuel cx true true _ Hwf Hen) as Hp. unfold wp in Hp. rewrite E in Hp.
  destruct Hp as (_ & es & s & Hrun & Habs & Hq & _). apply (quiet_holds _ _ _ Hrun) in Hq.
  apply (f_equal (fun s => Mpsc.senders (reqs (Service.chans s)))) in Habs. simpl in Habs. rewrite Hq in Habs.
  simpl in Habs. unfold alone, count_external in *. rewrite Habs, Hal. done.
Qed.

(** A poll, of whatever kind: it returns, and if it is [Pending] it waits for
    the user or has used up a stall. *)
Definition costs {A} (cx : waker) (register : bool) c (m : exec (poll (io_result A) * conn R State)) : Prop :=
  exists r c', m = Done (r, c') /\ wf c' /\ (stalls_left c' <= stalls_left c)%nat /\
    (r = Pending -> waits_for_user cx register (self c') (wld c') \/ (stalls_left c' < stalls_left c)%nat).

Lemma poll_returns fuel cx want register c : live R -> wf c -> enough fuel c ->
  costs cx register c (poll_server fuel cx want register c).
Proof.
  intros Hl Hwf Hen. pose proof (poll_server_wp fuel cx want register c Hwf Hen) as Hp. unfold wp in Hp.
  apply ewp_done in Hp as ([r c'] & E & _). exists r, c'. split; [done|]. by eapply server_poll_costs.
Qed.

Lemma accept_costs fuel cx c : live R -> wf c -> enough fuel c -> alone c -> costs cx true c (poll_accept fuel cx c).
Proof.
  intros Hl Hwf Hen Hal. rewrite poll_accept_cases, decide_True by done.
  destruct (poll_returns fuel cx true true (with_hold c) Hl (with_hold_wf _ Hwf) Hen) as (r & c' & E & Hp).
  by exists r, c'.
Qed.

Lemma close_costs fuel cx c : live R -> wf c -> enough fuel c -> costs cx true c (poll_close fuel cx c).
Proof.
  intros Hl Hwf Hen. destruct (poll_returns fuel cx false true c Hl Hwf Hen) as (r & c' & E & Hw & Hle & Hp).
  unfold poll_close, mbind, io_bind, raw. rewrite E. simpl.
  destruct r as [|v]; eexists _, c'; (do 3 (split; [done|])); [intros _; by apply Hp|done].
Qed.

Lemma drive_costs fuel cx c : live R -> wf c -> enough fuel c -> costs cx false c (poll_drive_external fuel cx c).
Proof.
  intros Hl Hwf Hen. pose proof (poll_server_wp fuel cx false false c Hwf Hen) as Hp. unfold wp in Hp.
  apply ewp_done in Hp as ([r c'] & E & _ & es & s & _ & _ & Hr).
  destruct (server_poll_costs _ _ _ _ _ _ _ Hl Hwf Hen E) as (Hw & Hle & Hp).
  unfold poll_drive_external, mbind, io_bind, raw. rewrite E. simpl. unfold get. simpl.
  destruct r as [|[[pkg|]|e]]; [|by destruct Hr|..].
  - destruct (_ || _); eexists _, c'; (do 3 (split; [done|])); [intros _; by apply Hp|done].
  - eexists _, c'; by split_and!.
  - eexists _, c'; by split_and!.
Qed.

(** Polls until one returns, or waits for the user: [n] of them were held
    up. *)
Inductive settles {A} (op : nat -> io (conn R State) A) (cx : waker) (register : bool) : nat -> conn R State -> Prop :=
  | settles_ready fuel c r c' : enough fuel c -> op fuel c = Done (Ready r, c') -> settles op cx register 0 c
  | settles_waits fuel c c' : enough fuel c -> op fuel c = Done (Pending, c') ->
      waits_for_user cx register (self c') (wld c') -> settles op cx register 0 c
  | settles_again fuel c c' n : enough fuel c -> op fuel c = Done (Pending, c') ->
      ~ waits_for_user cx register (self c') (wld c') -> settles op cx register n c' -> settles op cx register (S n) c.

Lemma settles_in_time {A} (op : nat -> io (conn R State) A) cx register (good : conn R State -> Prop) :
  (forall fuel c, wf c -> good c -> enough fuel c -> costs cx register c (op fuel c)) ->
  (forall fuel c c', wf c -> good c -> enough fuel c -> op fuel c = Done (Pending, c') -> good c') ->
  forall c, wf c -> good c -> exists n, (n <= stalls_left c)%nat /\ settles op cx register n c.
Proof.
  intros Hcost Hgood c. remember (stalls_left c) as m eqn:Hm. revert c Hm.
  induction m as [m IH] using (well_founded_induction lt_wf). intros c -> Hwf Hg.
  destruct (server_enough_exists c) as [fuel Hen]. destruct (Hcost fuel c Hwf Hg Hen) as (r & c' & E & Hw & Hle & Hor).
  destruct r as [|v]; [|exists 0%nat; split; [lia|by eapply settles_ready]].
  destruct (decide (waits_for_user cx register (self c') (wld c'))) as [Hu|Hu]; [exists 0%nat; split; [lia|by eapply settles_waits]|].
  destruct (Hor eq_refl) as [?|Hlt]; [done|].
  destruct (IH _ Hlt c' eq_refl Hw) as (n & Hn & Hs); [by apply (Hgood fuel c)|].
  exists (S n). split; [lia|by eapply settles_again].
Qed.

(** C14. A server that is polled gets on: over a transport that stalls only so
    often, at most as many polls are held up, and the one after them returns,
    or waits for the user, for a request body to be read, a response to be
    given or its body to be continued.  It is so for [accept], once the
    handles of the previous request are gone, which then returns the next
    request, the end, or an error; for [close]; and for the polls that the
    handles make. *)
Theorem server_settles cx c : live R -> wf c ->
  (count_external (wld c) = 1%nat ->
    exists n, (n <= stalls_left c)%nat /\ settles (fun fuel => poll_accept fuel cx) cx true n c) /\
  (exists n, (n <= stalls_left c)%nat /\ settles (fun fuel => poll_close fuel cx) cx true n c) /\
  (exists n, (n <= stalls_left c)%nat /\ settles (fun fuel => poll_drive_external fuel cx) cx false n c).
Proof.
  intros Hl Hwf. split; [|split].
  - intros Hal. apply (settles_in_time _ _ _ alone); [|clear c Hwf Hal|done..].
    + intros. by apply accept_costs.
    + intros fuel c c' Hwf Hal Hen E. rewrite poll_accept_cases, decide_True in E by done. by eapply alone_again.
  - apply (settles_in_time _ _ _ (fun _ => True)); [|done..]. intros. by apply close_costs.
  - apply (settles_in_time _ _ _ (fun _ => True)); [|done..]. intros. by apply drive_costs.
Qed.
End Waiting.

(** ** Sessions *)

Section Sessions.
Context {prof : Profile} `{Http} `{Httparse} {R : Type} `{DuplexSpec R}.
Implicit Types (c : conn R State) (w : world).

(** Whether a poll was held up. *)
Definition held_up {A} (cx : waker) (register : bool) (r : poll (io_result A)) c : nat :=
  match r with
  | Pending => if decide (waits_for_user cx register (self c) (wld c)) then 0 else 1
  | Ready _ => 0
  end.

(** A session, with the number of its polls that were held up; an [accept]
    that waits for handles does not poll the connection. *)
Inductive paced c0 : nat -> conn R State -> Prop :=
  | paced_start : paced c0 0 c0
  | paced_user n c w : paced c0 n c -> user (wld c) w -> paced c0 n (set_wld w c)
  | paced_accept n c fuel cx r c' : paced c0 n c -> enough fuel c -> poll_accept fuel cx c = Done (r, c') ->
      paced c0 (n + if decide (alone c) then held_up cx true r c' else 0) c'
  | paced_close n c fuel cx r c' : paced c0 n c -> enough fuel c -> poll_close fuel cx c = Done (r, c') ->
      paced c0 (n + held_up cx true r c') c'
  | paced_drive n c fuel cx r c' : paced c0 n c -> enough fuel c -> poll_drive_external fuel cx c = Done (r, c') ->
      paced c0 (n + held_up cx false r c') c'
  | paced_drop n c r w : paced c0 n c -> drop_connection (wld c) = Done (r, w) -> paced c0 n (set_wld w c).

Lemma server_session_paced c0 c : (exists us f, session c0 us f c) <-> exists n, paced c0 n c.
Proof.
  split.
  - intros (us & f & Hs). induction Hs as [|us f c w _ [n IH] Hu|us f c fuel cx r c' _ [n IH] Hen E|us f c fuel cx r c' _ [n IH] Hen E
      |us f c fuel cx r c' _ [n IH] Hen E|us f c r w _ [n IH] E]; eexists.
    + apply paced_start.
    + by apply paced_user.
    + by eapply paced_accept.
    + by eapply paced_close.
    + by eapply paced_drive.
    + by eapply paced_drop.
  - intros [n Hp]. induction Hp; [|destruct IHHp as (us & f & IH)..]; do 2 eexists; [apply session_start|by apply session_user
      |by eapply session_accept|by eapply session_close|by eapply session_drive|by eapply session_drop].
Qed.

Lemma paced_wf c0 n c : wf c0 -> paced c0 n c -> wf c.
Proof.
  intros Hwf Hp. assert (Hs : exists us f, session c0 us f c) by (apply server_session_paced; eauto).
  destruct Hs as (us & f & Hs). by eapply session_reached.
Qed.

(** What a poll costs is what it was held up. *)
Lemma costs_held {A} cx register c (m : exec (poll (io_result A) * conn R State)) r c' : costs cx register c m ->
  m = Done (r, c') -> (held_up cx register r c' + stalls_left c' <= stalls_left c)%nat.
Proof.
  intros (r1 & c1 & -> & _ & Hle & Hp) [= -> ->]. unfold held_up. destruct r; [|lia]. case_decide; [lia|].
  destruct (Hp eq_refl) as [?|?]; [done|lia].
Qed.

Lemma server_paced_stalls c0 n c : live R -> wf c0 -> paced c0 n c -> (n + stalls_left c <= stalls_left c0)%nat.
Proof.
  intros Hl Hwf. induction 1 as [|n c w _ IH _|n c fuel cx r c' Hp IH Hen E|n c fuel cx r c' Hp IH Hen E
    |n c fuel cx r c' Hp IH Hen E|n c r w _ IH _]; try done; try exact IH;
    assert (Hw : wf c) by by eapply paced_wf.
  - case_decide as Hal.
    + pose proof (costs_held _ _ _ _ _ _ (accept_costs fuel cx c Hl Hw Hen Hal) E). lia.
    + rewrite poll_accept_cases, decide_False in E by done. destruct (Mpsc.poll_recv _ _ _) as [[[|v] ch] l]; [|done].
      injection E as _ <-. change (stalls_left (set_wld _ c)) with (stalls_left c). lia.
  - pose proof (costs_held _ _ _ _ _ _ (close_costs fuel cx c Hl Hw Hen) E). lia.
  - pose proof (costs_held _ _ _ _ _ _ (drive_costs fuel cx c Hl Hw Hen) E). lia.
Qed.

Lemma server_handshake_stalls (io : R) c0 : handshake io = Done c0 -> stalls_left c0 = stalls io.
Proof.
  unfold handshake, new_codec. destruct (BufIo.with_capacity _ io) as [b| |] eqn:E; [|done..]. intros [= <-].
  destruct (BufIo.with_capacity_wf READ_BUF_INIT_SIZE io) as (b' & Eb & _ & _ & _ & _ & Hio & _); [by vm_compute|].
  rewrite E in Eb. injection Eb as <-. unfold stalls_left. simpl. by rewrite Hio.
Qed.

(** C13. However the user's calls, accepts, closes and the polls made by the
    handles interleave, over a transport that stalls only so often, at most as
    many polls are held up by it.  Once they were, every poll that is
    [Pending] waits for the user: an [accept] for the handles of the request
    before to be dropped; and otherwise an exchange is under way, whose
    request body is not read, or whose response or response body is not
    given.  Where a task waits for the user, its waker is left in the channel;
    the polls that handles make leave none where a response is awaited. *)
Theorem server_completes (io : R) c0 n c : live R -> fits io -> handshake io = Done c0 -> paced c0 n c ->
  (n + stalls_left c <= stalls io)%nat /\
  (n = stalls io -> forall fuel cx c', enough fuel c ->
    (poll_accept fuel cx c = Done (Pending, c') ->
       count_external (wld c) <> 1%nat \/ waits_for_user cx true (self c') (wld c')) /\
    (poll_close fuel cx c = Done (Pending, c') -> waits_for_user cx true (self c') (wld c')) /\
    (poll_drive_external fuel cx c = Done (Pending, c') -> waits_for_user cx false (self c') (wld c'))).
Proof.
  intros Hl Hfit Hsh Hp. destruct (server_handshake_ok io Hfit) as (c0' & E0 & Hwf & _). rewrite Hsh in E0. injection E0 as <-.
  pose proof (server_paced_stalls _ _ _ Hl Hwf Hp) as Hn. rewrite (server_handshake_stalls io c0 Hsh) in Hn. split; [done|].
  intros Heq fuel cx c' Hen.
  assert (Hw : wf c) by by eapply paced_wf.
  assert (Hheld : forall A register (m : exec (poll (io_result A) * conn R State)), costs cx register c m ->
    m = Done (Pending, c') -> waits_for_user cx register (self c') (wld c')).
  { intros A register m Hc E. pose proof (costs_held _ _ _ _ _ _ Hc E) as Hh. unfold held_up in Hh.
    case_decide; [done|]. lia. }
  split_and!.
  - intros E. destruct (decide (alone c)) as [Hal|]; [right|by left]. by eapply Hheld; [apply accept_costs|].
  - intros E. by eapply Hheld; [apply close_costs|].
  - intros E. by eapply Hheld; [apply drive_costs|].
Qed.
End Sessions.

(** ** A concrete session *)

Module ServerProgressExample.
#[local] Existing Instance dev.
Import Plain ServerExample.

(** The transport stalls once, then a request arrives. *)
Definition late : Script.t := Script.mk (Script.RPending :: Script.data get_x) [] [] [] 0.
Definition accept_turn (c : server) : server := match poll_accept fuel 7%nat c with Done (_, c) => c | _ => c end.
Definition close_turn (c : server) : server := match poll_close fuel 7%nat c with Done (_, c) => c | _ => c end.
Definition stalled : server := accept_turn (start late).
Definition requested : server := accept_turn stalled.

#[local] Instance out_fuel_dec (w : Channels.world unit (@answer plain_http)) : Decision (out_fuel fuel w).
Proof.
  change (out_fuel fuel w) with (map_Forall (fun (_ : chan_id) ch => (length (queue_of ch) + 3 < fuel)%nat /\
    Forall (fun v => zlen v.1 < Z.of_nat fuel) (queue_of ch)) (outs w)). apply _.
Defined.
#[local] Instance server_progress_enough_dec (c : server) : Decision (enough fuel c).
Proof. unfold enough, io_room. apply _. Defined.

Lemma script_is_live : live Script.t.
Proof. done. Qed.
Lemma server_fits_late : fits late.
Proof. by vm_compute. Qed.

Lemma enough_late : enough fuel (start late) /\ enough fuel stalled /\ enough fuel requested.
Proof. split_and!; eapply bool_decide_unpack; by vm_compute. Qed.

Definition outcome {A} (m : exec (poll (io_result A) * server)) : option (poll (io_result A)) :=
  match m with Done (r, _) => Some r | _ => None end.

Lemma accept_turn_is c r : outcome (poll_accept fuel 7%nat c) = Some r -> poll_accept fuel 7%nat c = Done (r, accept_turn c).
Proof. unfold accept_turn, outcome. destruct (poll_accept fuel 7%nat c) as [[r1 c1]| |]; [|done..]. by intros [= ->]. Qed.
Lemma close_turn_is c r : outcome (poll_close fuel 7%nat c) = Some r -> poll_close fuel 7%nat c = Done (r, close_turn c).
Proof. unfold close_turn, outcome. destruct (poll_close fuel 7%nat c) as [[r1 c1]| |]; [|done..]. by intros [= ->]. Qed.

Lemma requested_paced : paced (start late) 1 requested.
Proof.
  assert (E1 : poll_accept fuel 7%nat (start late) = Done (Pending, stalled)) by (apply accept_turn_is; by vm_compute).
  apply (paced_accept (start late) 0 (start late) fuel 7%nat Pending stalled (paced_start _) (proj1 enough_late)) in E1.
  assert (E2 : exists r, poll_accept fuel 7%nat stalled = Done (Ready r, requested)).
  { assert (Ho : match outcome (poll_accept fuel 7%nat stalled) with Some (Ready _) => true | _ => false end = true) by by vm_compute.
    destruct (outcome (poll_accept fuel 7%nat stalled)) as [[|r]|] eqn:E; try discriminate Ho. exists r. by apply accept_turn_is. }
  destruct E2 as (r & E2).
  apply (paced_accept (start late) _ _ _ _ _ _ E1 (proj1 (proj2 enough_late))) in E2.
  revert E2. by vm_compute (decide _).
Qed.
End ServerProgressExample.

Lemma server_settles_witness :
  exists n, (n <= 1)%nat /\
    settles (fun fuel => poll_accept (prof := dev) fuel 7%nat) 7%nat true n (ServerExample.start ServerProgressExample.late).
Proof.
  destruct (server_settles (prof := dev) 7%nat (ServerExample.start ServerProgressExample.late) ServerProgressExample.script_is_live
    (ServerExample.server_wf_start _ ServerProgressExample.server_fits_late)) as [Ha _].
  destruct (Ha eq_refl) as (n & Hn & Hs). exists n. split; [|exact Hs].
  etransitivity; [exact Hn|]. apply Nat.leb_le. vm_compute. reflexivity.
Defined.

Lemma server_completes_witness :
  let c' := ServerProgressExample.close_turn ServerProgressExample.requested in
  waits_for_user 7%nat true (self c') (wld c').
Proof.
  destruct (server_completes (prof := dev) _ _ _ _ ServerProgressExample.script_is_live ServerProgressExample.server_fits_late
    (ServerExample.server_start_ok _) ServerProgressExample.requested_paced) as [_ Hc].
  apply (proj1 (proj2 (Hc eq_refl ServerExample.fuel 7%nat _ (proj2 (proj2 ServerProgressExample.enough_late))))).
  apply ServerProgressExample.close_turn_is. vm_compute. reflexivity.
Defined.
