(* ===== verification/Conversation.v ===== *)
(** * A client and a server on one connection

    What the client of this library writes is what its server reads, and the
    other way round: the requests arrive in order, each with its own body,
    and the responses come back to the requests they answer.  Each side's
    history is laid against the messages of the other ([listens_said] of
    Dialogue.v); [conversation] puts both directions together, and with the
    progress of the client [every_request_is_answered].  The last part runs
    the two on each other's bytes. *)

From S2P Require Import Prelude.
From S2P Require Import Async.
From S2P Require Import Std_text.
From S2P Require Import Fast_buf.
From S2P Require Import Transport.
From S2P Require Import Buf_reader.
From S2P Require Import Chunked.
From S2P Require Import Http_api.
From S2P Require Import Error.
From S2P Require Import Limit.
From S2P Require Import Http11.
From S2P Require Import Mpsc.
From S2P Require Import Share.
From S2P Require Import Channels.
From S2P Require Import Handles.
From S2P Require Import Codec.
From S2P Require Import Stalls.
From S2P Require Import Dialogue.
From S2P Require Import Streams.
From S2P Require Import Machine.
From S2P Require Client.
From S2P Require Import Client_spec.
From S2P Require Client_proofs.
From S2P Require Client_session.
From S2P Require Client_talk.
From S2P Require Client_progress.
From S2P Require Server.
From S2P Require Import Server_spec.
From S2P Require Server_proofs.
From S2P Require Server_session.
From S2P Require Server_talk.

(** ** What the server hears *)

Section ServerHears.
Context `{Http} `{Httparse}.

Definition request_reader (req : Request) : option LimitRead.t :=
  if LimitRead.is_no_body (Service.framing req) then None else Some (Service.framing req).

(** A request as it was accepted, with its body. *)
Definition request_heard (x : Service.exchange) (h : heard) : Prop :=
  h_head h = Service.x_head x /\ try_parse_req (h_head h) (h_eos h) = Ok (Some (Service.x_req x)) /\
  h_reader h = request_reader (Service.x_req x) /\
  h_wire h = Service.pieces (Service.x_events x) ≫= fst /\ h_body h = Service.pieces (Service.x_events x) ≫= snd.

Lemma server_history_split s us es1 e es2 s' : Service.history s us (es1 ++ e :: es2) s' ->
  exists us1 us2 s1 s2, Service.history s us1 es1 s1 /\ Service.step s1 e s2 /\ Service.history s2 us2 es2 s'.
Proof.
  intros Hh. remember (es1 ++ e :: es2) as es eqn:E. revert es2 E.
  induction Hh as [|us es s' e' s'' Hh IH Hs|us es s' w Hh IH Hw|us es s' w Hh IH Hw]; intros es2 E; [by destruct es1| | |].
  - destruct (exists_last (l := e :: es2)) as (es3 & e3 & E3); [done|]. rewrite E3, app_assoc in E.
    apply app_inj_tail in E as [-> ->]. destruct es3 as [|e4 es3]; injection E3 as -> ->.
    + exists us, [], s', s''. rewrite app_nil_r in Hh. split; [done|]. split; [done|]. apply Service.history_nil.
    + destruct (IH es3 eq_refl) as (u1 & u2 & s1 & s2 & ? & ? & ?). exists u1, u2, s1, s2. split; [done|]. split; [done|].
      by eapply Service.history_step.
  - destruct (IH es2 E) as (u1 & u2 & s1 & s2 & ? & ? & ?). do 4 eexists. split; [done|]. split; [done|]. by apply Service.history_user.
  - destruct (IH es2 E) as (u1 & u2 & s1 & s2 & ? & ? & ?). exists u1, u2, s1, s2. split; [done|]. split; [done|].
    by apply Service.history_holds.
Qed.

(** A head is taken from where the stream stands. *)
Lemma server_takes s us es1 head req body res es2 s' fin :
  Service.history s us (es1 ++ Service.Accepted head req body res :: es2) s' ->
  Service.wire_in s = ((es1 ++ Service.Accepted head req body res :: es2) ≫= Service.received) ++ fin ->
  exists eos, takes_head (head ++ (es2 ≫= Service.received) ++ fin) head ((es2 ≫= Service.received) ++ fin) eos /\
    try_parse_req head eos = Ok (Some req).
Proof.
  intros (us1 & us2 & s1 & s2 & H1 & Hs & H2)%server_history_split E.
  apply Service.server_history_wires in H1 as (_ & Hi & _).
  inversion Hs as [i o w hd rest eos rq bd rs Ht Hparse| | | | | | |]; subst. simpl in Hi.
  exists eos. split; [|done]. rewrite bind_app, bind_cons in E. cbn [Service.received] in E. rewrite Hi, <- !app_assoc in E.
  apply app_inv_head in E. rewrite <- E. destruct Ht as [-> Ht]. apply app_inv_head in E. rewrite <- E. by split.
Qed.

Lemma pieces_received l : omap Service.accepted l = [] -> Service.unfailed l -> l ≫= Service.received = Service.pieces l ≫= fst.
Proof.
  intros Ht Hu. revert Ht. induction Hu as [|e l Hf _ IH]; [done|]. rewrite bind_cons. destruct e; simpl; try done; intros Hl; by rewrite IH.
Qed.

Lemma whole_read x h : Service.whole x -> request_heard x h -> reads_whole (h_reader h) (h_wire h) (h_body h).
Proof.
  intros (_ & _ & Hb & _) (_ & _ & -> & -> & ->). unfold Service.body_received, request_reader in *.
  destruct (LimitRead.is_no_body _); [by rewrite Hb|]. destruct Hb as (l & Hr & Hc). exists l. split; [done|]. split; [done|].
  apply Service.framing_delimited.
Qed.

(** The whole exchanges, as they are heard. *)
Lemma server_listens s us (xs : list Service.exchange) s' fin tail : Forall Service.whole xs -> forall es1,
  Service.history s us (es1 ++ (xs ≫= Service.trace_of) ++ tail) s' ->
  Service.wire_in s = ((es1 ++ (xs ≫= Service.trace_of) ++ tail) ≫= Service.received) ++ fin ->
  exists hs, Forall2 request_heard xs hs /\
    listens ((((xs ≫= Service.trace_of) ++ tail) ≫= Service.received) ++ fin) hs ((tail ≫= Service.received) ++ fin).
Proof.
  intros Hw. induction Hw as [|x xs Hx _ IH]; intros es1 Hh E; [exists []; split; [done|constructor]|].
  rewrite bind_cons in *. set (rest := (xs ≫= Service.trace_of) ++ tail) in *. rewrite <- app_assoc in Hh, E. fold rest in Hh, E.
  destruct (server_takes s us es1 (Service.x_head x) (Service.x_req x) (Service.x_body x) (Service.x_res x) (Service.x_events x ++ rest) s' fin Hh E)
    as (eos & Ht & Hp).
  destruct (IH (es1 ++ Service.trace_of x)) as (hs & Hhs & Hl).
  { rewrite <- app_assoc. exact Hh. } { rewrite <- app_assoc. exact E. }
  set (h := Heard (Service.x_head x) eos (request_reader (Service.x_req x)) (Service.pieces (Service.x_events x) ≫= fst)
    (Service.pieces (Service.x_events x) ≫= snd)).
  assert (Hheard : request_heard x h) by by split_and!. exists (h :: hs). split; [by constructor|].
  assert (Hr : Service.x_events x ≫= Service.received = h_wire h) by (apply pieces_received; apply Hx).
  apply (listens_cons _ _ ((rest ≫= Service.received) ++ fin)); [|by apply (whole_read x)|exact Hl].
  rewrite bind_app, Hr, <- app_assoc in Ht. rewrite <- app_assoc. fold rest. rewrite bind_app.
  change (Service.trace_of x ≫= Service.received) with (Service.x_head x ++ (Service.x_events x ≫= Service.received)).
  rewrite Hr, <- !app_assoc. exact Ht.
Qed.
End ServerHears.

(** ** What the client hears *)

Section ClientHears.
Context `{Http} `{Httparse}.

Definition response_reader (h : Client.Handle.t) (res : Response) : option LimitRead.t :=
  if Protocol.has_body h res then Some (Protocol.framing res) else None.

(** A response as it was delivered, with its body. *)
Definition response_heard (x : Protocol.exchange) (h : heard) : Prop :=
  exists id res body, Protocol.answers (Protocol.x_events x) = [(id, res, body)] /\
    try_parse_res (h_head h) (h_eos h) = Ok (Some res) /\ h_reader h = response_reader (Protocol.x_handle x) res /\
    h_wire h = (Protocol.pieces (Protocol.x_events x) ≫= fun p => p.1.2) /\
    h_body h = Protocol.pieces (Protocol.x_events x) ≫= snd.

Lemma client_history_split s us es1 e es2 s' : Protocol.history s us (es1 ++ e :: es2) s' ->
  exists us1 us2 s1 s2, Protocol.history s us1 es1 s1 /\ Protocol.step s1 e s2 /\ Protocol.history s2 us2 es2 s'.
Proof.
  intros Hh. remember (es1 ++ e :: es2) as es eqn:E. revert es2 E.
  induction Hh as [|us es s' e' s'' Hh IH Hs|us es s' w Hh IH Hw]; intros es2 E; [by destruct es1| |].
  - destruct (exists_last (l := e :: es2)) as (es3 & e3 & E3); [done|]. rewrite E3, app_assoc in E.
    apply app_inj_tail in E as [-> ->]. destruct es3 as [|e4 es3]; injection E3 as -> ->.
    + exists us, [], s', s''. rewrite app_nil_r in Hh. split; [done|]. split; [done|]. apply Protocol.history_nil.
    + destruct (IH es3 eq_refl) as (u1 & u2 & s1 & s2 & ? & ? & ?). exists u1, u2, s1, s2. split; [done|]. split; [done|].
      by eapply Protocol.history_step.
  - destruct (IH es2 E) as (u1 & u2 & s1 & s2 & ? & ? & ?). do 4 eexists. split; [done|]. split; [done|]. by apply Protocol.history_user.
Qed.

Lemma client_takes s us es1 id head res body es2 s' fin :
  Protocol.history s us (es1 ++ Protocol.Responded id head res body :: es2) s' ->
  Protocol.wire_in s = ((es1 ++ Protocol.Responded id head res body :: es2) ≫= Protocol.received) ++ fin ->
  exists eos, takes_head (head ++ (es2 ≫= Protocol.received) ++ fin) head ((es2 ≫= Protocol.received) ++ fin) eos /\
    try_parse_res head eos = Ok (Some res).
Proof.
  intros (u1 & u2 & s1 & s2 & H1 & Hs & H2)%client_history_split E.
  apply Protocol.history_wires in H1 as (_ & Hi & _).
  inversion Hs as [| |b i o w id' hd rest eos rs bd Hid Ht Hparse| | |]; subst. simpl in Hi.
  exists eos. split; [|done]. rewrite bind_app, bind_cons in E. cbn [Protocol.received] in E. rewrite Hi, <- !app_assoc in E.
  apply app_inv_head in E. rewrite <- E. destruct Ht as [-> Ht]. apply app_inv_head in E. rewrite <- E. by split.
Qed.

(** The response among the events of an exchange. *)
Lemma answers_split l id res body : Protocol.answers l = [(id, res, body)] ->
  exists l1 head l2, l = l1 ++ Protocol.Responded id head res body :: l2 /\ Protocol.answers l1 = [] /\ Protocol.answers l2 = [].
Proof.
  induction l as [|e l IH]; [done|]. destruct e; cbn; intros Ha;
    try (destruct (IH Ha) as (l1 & hd & l2 & -> & H1 & H2); eexists (_ :: l1), hd, l2; by split_and!).
  injection Ha as -> -> -> Ha. exists [], head, l. by split_and!.
Qed.

Lemma no_answer_received l : Protocol.answers l = [] ->
  l ≫= Protocol.received = Protocol.pieces l ≫= fun p => p.1.2.
Proof.
  induction l as [|e l IH]; [done|]. rewrite bind_cons. destruct e; cbn; try done; intros Hl; by rewrite IH.
Qed.

Lemma client_whole_read x h : Protocol.whole x -> response_heard x h -> reads_whole (h_reader h) (h_wire h) (h_body h).
Proof.
  intros (_ & _ & _ & id & res & body & _ & Ha & _ & _ & Hb) (id' & res' & body' & Ha' & _ & -> & -> & ->).
  rewrite Ha in Ha'. injection Ha' as <- <- <-. unfold response_reader.
  destruct body as [bd|]; destruct Hb as [-> Hb]; [|by rewrite Hb].
  destruct Hb as (l & (_ & Hk & Hr) & Hc & Hn). rewrite Hn in Hr. exists l. split; [done|]. split; [done|]. by rewrite <- Hk.
Qed.

(** The whole exchanges, as they are heard. *)
Lemma client_listens s us (xs : list Protocol.exchange) s' fin tail : Forall Protocol.whole xs -> forall es1,
  Protocol.history s us (es1 ++ (xs ≫= Protocol.trace_of) ++ tail) s' ->
  Protocol.wire_in s = ((es1 ++ (xs ≫= Protocol.trace_of) ++ tail) ≫= Protocol.received) ++ fin ->
  exists hs, Forall2 response_heard xs hs /\
    listens ((((xs ≫= Protocol.trace_of) ++ tail) ≫= Protocol.received) ++ fin) hs ((tail ≫= Protocol.received) ++ fin).
Proof.
  intros Hw. induction Hw as [|x xs Hx _ IH]; intros es1 Hh E; [exists []; split; [done|constructor]|].
  rewrite bind_cons in *. set (rest := (xs ≫= Protocol.trace_of) ++ tail) in *. rewrite <- app_assoc in Hh, E. fold rest in Hh, E.
  pose proof Hx as (_ & Hf & _ & id & res & body & _ & Ha & _).
  destruct (answers_split _ _ _ _ Ha) as (l1 & head & l2 & El & H1 & H2).
  assert (Hp1 : Protocol.pieces l1 = []) by (by apply (Hf l1 _ l2 El)).
  assert (Et : Protocol.trace_of x ++ rest = (Protocol.Took (Protocol.x_handle x) (Protocol.x_head x) :: l1) ++
    Protocol.Responded id head res body :: l2 ++ rest) by (unfold Protocol.trace_of; rewrite El; cbn; by rewrite <- app_assoc).
  rewrite Et, app_assoc in Hh, E. destruct (client_takes s _ _ _ _ _ _ _ s' fin Hh E) as (eos & Ht & Hp).
  destruct (IH (es1 ++ Protocol.trace_of x)) as (hs & Hhs & Hl).
  { rewrite <- app_assoc, Et, app_assoc. exact Hh. } { rewrite <- app_assoc, Et, app_assoc. exact E. }
  set (h := Heard head eos (response_reader (Protocol.x_handle x) res) (Protocol.pieces (Protocol.x_events x) ≫= fun p => p.1.2)
    (Protocol.pieces (Protocol.x_events x) ≫= snd)).
  assert (Hheard : response_heard x h) by (exists id, res, body; by split_and!). exists (h :: hs). split; [by constructor|].
  assert (Hr1 : l1 ≫= Protocol.received = []) by by rewrite no_answer_received, Hp1.
  assert (Hr2 : l2 ≫= Protocol.received = h_wire h).
  { rewrite no_answer_received by done. unfold h. cbn [h_wire]. rewrite El. unfold Protocol.pieces. rewrite omap_app.
    fold (Protocol.pieces l1). by rewrite Hp1. }
  apply (listens_cons _ _ ((rest ≫= Protocol.received) ++ fin)); [|by apply (client_whole_read x)|exact Hl].
  rewrite bind_app, Hr2, <- app_assoc in Ht. rewrite <- app_assoc. fold rest. rewrite Et, bind_app, bind_cons, bind_cons, bind_app.
  cbn [Protocol.received]. rewrite Hr1, Hr2, <- !app_assoc. exact Ht.
Qed.
End ClientHears.

(** ** Heads and framings *)

Section Understanding.
Context `{Http} `{Httparse}.

(** Headers that frame the same body. *)
Definition same_framing (h1 h2 : HeaderMap) : Prop :=
  is_chunked h1 = is_chunked h2 /\ get_as h1 "content-length" = get_as h2 "content-length".

Definition plain_request (req : Request) : Prop :=
  forall ver, version_str (req_version req) = Done ver -> Forall plain_line (request_lines req ver).
Definition plain_response (res : Response) : Prop :=
  forall ver, version_str (res_version res) = Done ver -> Forall plain_line (response_lines res ver).

Lemma reader_same h1 h2 : same_framing h1 h2 ->
  (if LimitRead.is_no_body (LimitRead.from_headers h1 false) then None else Some (LimitRead.from_headers h1 false)) =
  reader_of (LimitWrite.from_headers h2).
Proof.
  intros [Hc Hl]. unfold LimitRead.from_headers, LimitWrite.from_headers, reader_of. rewrite Hc, Hl.
  destruct (is_chunked h2); [done|]. destruct (get_as h2 _) as [n|]; [|done]. simpl. by destruct (n =? 0).
Qed.

(** What the parser makes of the heads of the requests: the framing is kept,
    and what a chunked body leaves behind is no request. *)
Record requests_understood (hs : list Client.Handle.t) : Prop := {
  ru_plain : Forall (fun h => plain_request (Client.Handle.req h)) hs;
  ru_framing : forall h lo head req, h ∈ hs -> gap lo -> Protocol.head_text (Client.Handle.req h) head ->
    try_parse_req (lo ++ head) false = Ok (Some req) -> same_framing (req_headers req) (req_headers (Client.Handle.req h));
  ru_leftover : forall lo req, lo `prefix_of` line_ends -> try_parse_req lo false <> Ok (Some req);
}.

(** And of the heads of responses, each for the request it answers. *)
Record responses_understood (hs : list Client.Handle.t) (l : list Server.answer) : Prop := {
  rs_plain : Forall (fun a => plain_response a.1.1) l;
  rs_reader : forall i h a lo head res, hs !! i = Some h -> l !! i = Some a -> gap lo -> Service.head_text a.1.1 head ->
    try_parse_res (lo ++ head) false = Ok (Some res) -> response_reader h res = reader_of (Server_talk.framing_of_answer a);
}.

Lemma plain_head_of (lines : list bytes) : lines <> [] -> Forall plain_line lines -> plain_head (head_of lines).
Proof. intros Hn Hl. by exists lines. Qed.

Lemma request_head_plain req head : plain_request req -> Protocol.head_text req head -> plain_head head.
Proof. intros Hp (ver & Hv & -> & _). apply plain_head_of; [done|]. by apply Hp. Qed.

Lemma response_head_plain res head : plain_response res -> Service.head_text res head -> plain_head head.
Proof. intros Hp (ver & Hv & -> & _). apply plain_head_of; [done|]. by apply Hp. Qed.

(** Heads in a history are those of their messages. *)
Lemma took_head s us es s' h head : Protocol.history s us es s' -> Protocol.Took h head ∈ es ->
  Protocol.head_text (Client.Handle.req h) head.
Proof.
  intros Hh (es1 & es2 & ->)%list_elem_of_split. apply client_history_split in Hh as (? & ? & s1 & s2 & _ & Hs & _).
  by inversion Hs.
Qed.

Lemma answered_head s us es s' id a head : Service.history s us es s' -> Service.Answered id a head ∈ es ->
  Service.head_text a.1.1 head.
Proof.
  intros Hh (es1 & es2 & ->)%list_elem_of_split. apply server_history_split in Hh as (? & ? & s1 & s2 & _ & Hs & _).
  by inversion Hs.
Qed.
End Understanding.

(** ** The requests arrive *)

Section Requests.
Context `{Http} `{Httparse}.

(** The exchange [x] at the server is that of the request [h]. *)
Definition arrives (m : gmap chan_id speech) (h : Client.Handle.t) (x : Service.exchange) : Prop :=
  (exists lo head, gap lo /\ Protocol.head_text (Client.Handle.req h) head /\ Service.x_head x = lo ++ head /\
     try_parse_req (lo ++ head) false = Ok (Some (Service.x_req x))) /\
  (Service.whole x -> Service.pieces (Service.x_events x) ≫= snd = Client_talk.spoken m h).

(** The requests that were accepted: whole exchanges, and one under way. *)
Definition accepted_in (es : list Service.event) (ys : list Service.exchange) : Prop :=
  exists tail, es = (ys ≫= Service.trace_of) ++ tail /\ omap Service.accepted tail = [] /\
    exists done, Forall Service.whole done /\ (ys = done \/ exists x, ys = done ++ [x]).

Lemma trace_received (x : Service.exchange) : omap Service.accepted (Service.x_events x) = [] -> Service.unfailed (Service.x_events x) ->
  Service.trace_of x ≫= Service.received = Service.x_head x ++ (Service.pieces (Service.x_events x) ≫= fst).
Proof. intros Ht Hu. unfold Service.trace_of. by rewrite bind_cons, pieces_received. Qed.

(** The messages are the requests [hs]. *)
Definition request_messages (m : gmap chan_id speech) (hs : list Client.Handle.t) (ms : list said) : Prop :=
  Forall said_ok ms /\ in_turn ms /\
  forall i a, ms !! i = Some a -> exists h, hs !! i = Some h /\ Protocol.head_text (Client.Handle.req h) (s_head a) /\
    s_limit a = Client_talk.framing_of_request h /\ (all_said (s_limit a) (s_data a) (s_fin a) -> s_data a = Client_talk.spoken m h).

Lemma wrote_messages {prof : Profile} {R : Type} `{DuplexSpec R} (c0 : Client.conn R Client.State) us m c es xs ms :
  Client_talk.wrote c0 us m c es xs ms -> Forall (fun h => plain_request (Client.Handle.req h)) (Protocol.queued us) ->
  request_messages m (Protocol.queued us) ms.
Proof.
  intros (Hh & (Hes & _) & Hms & _ & Hturn & [k Hk]) Hplain. set (hs := Protocol.queued us) in *.
  assert (Hi : forall i a, ms !! i = Some a -> exists x, xs !! i = Some x /\ Client_talk.request_message m x a /\
    hs !! i = Some (Protocol.x_handle x) /\ Protocol.head_text (Client.Handle.req (Protocol.x_handle x)) (s_head a)).
  { intros i a Ha. destruct (Forall2_lookup_r _ _ _ _ _ Hms Ha) as (x & Hx & Hxa). exists x. split; [done|]. split; [done|]. split.
    - rewrite Hk. apply lookup_app_l_Some. by rewrite list_lookup_fmap, Hx.
    - rewrite (proj1 Hxa). eapply took_head; [exact Hh|]. rewrite Hes. apply list_elem_of_lookup_2, list_elem_of_split in Hx as (x1 & x2 & ->).
      rewrite bind_app, bind_cons. apply elem_of_app. right. apply elem_of_app. left. by left. }
  split; [|split; [done|]].
  - apply Forall_lookup_2. intros i a Ha. destruct (Hi i a Ha) as (x & _ & (_ & Hl & _ & Hs & _) & Hhx & Hhead).
    split; [|done]. eapply request_head_plain; [|exact Hhead]. by apply (Forall_lookup_1 _ _ _ _ Hplain Hhx).
  - intros i a Ha. destruct (Hi i a Ha) as (x & _ & (_ & Hl & _ & _ & Hd & _) & Hhx & Hhead). eauto.
Qed.

Lemma requests_read ms hs ds heards m : request_messages m hs ms -> requests_understood hs ->
  Forall2 request_heard ds heards -> understands ms heards.
Proof.
  intros (_ & _ & Hms) [_ Hfr _] Hds i a h lo Ha Hh Hlo _ Ehead.
  destruct (Hms i a Ha) as (hd & Hhd & Htext & Hlim & _).
  destruct (Forall2_lookup_r _ _ _ _ _ Hds Hh) as (x & _ & (_ & Hp & -> & _)). rewrite Hlim.
  apply reader_same. eapply (Hfr hd lo (s_head a)); [by eapply list_elem_of_lookup_2|done|done|]. by rewrite <- Ehead.
Qed.

(** The requests of whole exchanges, and what is left of the stream. *)
Lemma hears_whole_requests m hs ms us (s0 s : Service.t) ds tail fin : request_messages m hs ms -> requests_understood hs ->
  Forall Service.whole ds -> Service.history s0 us ((ds ≫= Service.trace_of) ++ tail) s ->
  Service.wire_in s0 = (((ds ≫= Service.trace_of) ++ tail) ≫= Service.received) ++ fin -> Service.wire_in s0 = stream_of ms ->
  (forall i x, ds !! i = Some x -> exists h, hs !! i = Some h /\ arrives m h x) /\
  exists lo, in_front lo (drop (length ds) ms) /\ (tail ≫= Service.received) ++ fin = lo ++ stream_of (drop (length ds) ms).
Proof.
  intros Hms Hu Hd Hh Hi Hw. destruct (server_listens s0 us ds s fin tail Hd [] Hh Hi) as (heards & Hheard & Hl).
  rewrite <- Hi, Hw in Hl. pose proof Hms as (Hok & Hturn & Hmsg).
  assert (Hfront : in_front [] ms) by (split; [apply prefix_nil|by left]).
  destruct (listens_said heards [] ms ((tail ≫= Service.received) ++ fin) Hfront Hok Hturn) as (hs1 & hs2 & -> & Hall & Hend);
    [by eapply requests_read|exact Hl|].
  assert (Hnoph : forall h, phantom h -> h ∈ hs1 ++ hs2 -> False).
  { intros h [_ Hp] [j Hj]%list_elem_of_lookup. destruct (Forall2_lookup_r _ _ _ _ _ Hheard Hj) as (x & _ & (_ & Hparse & _)).
    by apply (ru_leftover _ Hu (h_head h) (Service.x_req x) Hp). }
  destruct Hend as [[-> (lo' & Hfront' & Hrest)]|(h & -> & Hph & _)].
  2: { exfalso. apply (Hnoph h Hph), elem_of_app. right. by apply list_elem_of_singleton. }
  rewrite app_nil_r in *. assert (Hlen : length hs1 = length ds) by (symmetry; by eapply Forall2_length). rewrite Hlen in *.
  split; [|eauto]. intros i x Hx. destruct (Forall2_lookup_l _ _ _ _ _ Hheard Hx) as (hd & Hhd & (Hhead & Hp & _ & _ & Hbody)).
  destruct (Forall2_lookup_r _ _ _ _ _ Hall Hhd) as (a & Ha & ((lo & Hlo & Ehead) & Heos & Ebody & Hsaid)).
  apply lookup_take_Some in Ha as [Ha _]. destruct (Hmsg i a Ha) as (h & Hhi & Htext & _ & Hdata). exists h. split; [done|]. split.
  - exists lo, (s_head a). rewrite <- Ehead, <- Hhead. by split_and!.
  - intros _. rewrite <- Hbody, Ebody. auto.
Qed.

Lemma hears_requests m hs ms us (s0 s : Service.t) es ys : request_messages m hs ms -> requests_understood hs ->
  Service.history s0 us es s -> accepted_in es ys -> Service.wire_in s0 = stream_of ms ->
  forall i x, ys !! i = Some x -> exists h, hs !! i = Some h /\ arrives m h x.
Proof.
  intros Hms Hu Hh (tail & -> & Ht & d & Hd & Hys) Hw.
  destruct (Service.server_history_wires _ _ _ _ Hh) as (_ & Hi & _). set (fin := Service.wire_in s) in *.
  destruct Hys as [-> |(y & ->)]; [by eapply hears_whole_requests|]. assert (Hwhole : Service.whole y ->
    forall i x, (d ++ [y]) !! i = Some x -> exists h, hs !! i = Some h /\ arrives m h x).
  { intros Hy. eapply hears_whole_requests; try done. apply Forall_app. by split; [|constructor]. }
  rewrite bind_app in Hh, Hi.
  simpl in Hh, Hi. rewrite app_nil_r, <- app_assoc in Hh, Hi. set (tail' := Service.trace_of y ++ tail) in *.
  destruct (hears_whole_requests m hs ms us s0 s d tail' fin) as (Hold & lo & Hfront & Hrest); [done..|].
  intros i x [Hx|[Hge Hx]]%lookup_app_Some; [by apply Hold|]. apply list_lookup_singleton_Some in Hx as [Hi0 <-].
  assert (Ei : i = length d) by lia. subst i.
  destruct (server_takes s0 us (d ≫= Service.trace_of) (Service.x_head y) (Service.x_req y) (Service.x_body y) (Service.x_res y)
    (Service.x_events y ++ tail) s fin Hh Hi) as (eos & Htake & Hparse).
  assert (E : Service.x_head y ++ ((Service.x_events y ++ tail) ≫= Service.received) ++ fin = lo ++ stream_of (drop (length d) ms)).
  { rewrite <- Hrest. unfold tail', Service.trace_of. cbn [app]. rewrite bind_cons, <- app_assoc. done. }
  rewrite E in Htake. destruct Hms as (Hok & _ & Hmsg). apply next_message in Htake; [|done|by apply Forall_drop].
  destruct Htake as [(a & k & Ek & Eeos & lo' & Hlo' & Ehead)|[_ Hpre]]; [|by destruct (ru_leftover _ Hu (Service.x_head y) (Service.x_req y) Hpre)].
  assert (Ha : ms !! length d = Some a).
  { rewrite <- (Nat.add_0_r (length d)), <- lookup_drop, Ek. done. }
  destruct (Hmsg _ a Ha) as (h & Hhi & Htext & _ & _). exists h. split; [done|]. split.
  - exists lo', (s_head a). rewrite <- Ehead. by split_and!.
  - intros Hy. destruct (Hwhole Hy (length d) y) as (h' & Hh' & [_ Hb]); [by apply list_lookup_middle|]. rewrite Hhi in Hh'.
    injection Hh' as <-. auto.
Qed.
End Requests.

Section RequestsArrive.
Context `{Http} `{Httparse}.

Lemma exchanges_accepted es xs ph : Service.exchanges es xs ph -> exists ys, accepted_in es ys /\ xs `prefix_of` ys.
Proof.
  intros (Hxs & l & Hl & ->). assert (Hw : Forall Service.whole xs) by (revert Hxs; apply Forall_impl; by intros x (_ & _ & ? & _)).
  assert (Hrest : exists ys tail, (xs ≫= Service.trace_of) ++ l = (ys ≫= Service.trace_of) ++ tail /\ omap Service.accepted tail = [] /\
    (ys = xs \/ exists x, ys = xs ++ [x])).
  { induction Hl as [|ph x Hp Hx| |ph l taken part Hp Hl IH].
    - exists xs, []. auto.
    - exists (xs ++ [x]), []. split; [rewrite bind_app; simpl; by rewrite !app_nil_r|]. split; [done|]. right. eauto.
    - exists xs, [Service.HungUp]. auto.
    - destruct IH as (ys & tail & E & Ht & Hys). exists ys, (tail ++ [Service.Failed taken part]). rewrite !app_assoc, E, omap_app, Ht. auto. }
  destruct Hrest as (ys & tail & -> & Ht & Hys). exists ys. split; [exists tail; eauto 6|].
  destruct Hys as [-> |(x & ->)]; [done|by apply prefix_app_r].
Qed.
End RequestsArrive.

(** ** The responses come back *)

Section Responses.
Context `{Http} `{Httparse}.

(** The exchange [x] at the client got the answer [a]. *)
Definition returns (m : gmap chan_id speech) (a : Server.answer) (x : Protocol.exchange) : Prop :=
  exists id res body lo head, Protocol.answers (Protocol.x_events x) = [(id, res, body)] /\
    gap lo /\ Service.head_text a.1.1 head /\ try_parse_res (lo ++ head) false = Ok (Some res) /\
    (Protocol.whole x -> Protocol.pieces (Protocol.x_events x) ≫= snd = Server_talk.answer_body m a).

(** It got a response made up from the end of the stream. *)
Definition made_up (x : Protocol.exchange) : Prop :=
  exists id res body lo, Protocol.answers (Protocol.x_events x) = [(id, res, body)] /\
    lo `prefix_of` line_ends /\ try_parse_res lo true = Ok (Some res).

(** The messages are the answers [l]. *)
Definition response_messages (m : gmap chan_id speech) (l : list Server.answer) (ms : list said) : Prop :=
  Forall said_ok ms /\ in_turn ms /\
  forall i s, ms !! i = Some s -> exists a, l !! i = Some a /\ Service.head_text a.1.1 (s_head s) /\
    s_limit s = Server_talk.framing_of_answer a /\ (all_said (s_limit s) (s_data s) (s_fin s) -> s_data s = Server_talk.answer_body m a).

(** The exchanges that were begun: whole ones, and one under way. *)
Definition begun_in (es : list Protocol.event) (xs : list Protocol.exchange) : Prop :=
  es = xs ≫= Protocol.trace_of /\
  exists done, Forall Protocol.whole done /\ (xs = done \/ exists x ph, xs = done ++ [x] /\ Protocol.under_way x ph).

Lemma responses_read ms hs l ds heards m : response_messages m l ms -> responses_understood hs l ->
  Protocol.x_handle <$> ds `prefix_of` hs -> Forall2 response_heard ds heards -> understands ms heards.
Proof.
  intros (_ & _ & Hms) [_ Hrd] [k Hk] Hds i s h lo Hs Hh Hlo Heos Ehead.
  destruct (Hms i s Hs) as (a & Ha & Htext & Hlim & _).
  destruct (Forall2_lookup_r _ _ _ _ _ Hds Hh) as (x & Hx & (id & res & body & _ & Hp & -> & _)). rewrite Hlim.
  rewrite Heos, Ehead in Hp. apply (Hrd i _ a lo (s_head s)); try done.
  rewrite Hk. apply lookup_app_l_Some. by rewrite list_lookup_fmap, Hx.
Qed.

(** The responses of whole exchanges, and what is left of the stream: unless
    the last one was made up. *)
Lemma hears_whole_responses m hs0 hs l ms (s0 s : Protocol.t) ds tail fin : response_messages m l ms ->
  responses_understood hs l -> Protocol.x_handle <$> ds `prefix_of` hs -> Forall Protocol.whole ds ->
  Protocol.history s0 hs0 ((ds ≫= Protocol.trace_of) ++ tail) s ->
  Protocol.wire_in s0 = (((ds ≫= Protocol.trace_of) ++ tail) ≫= Protocol.received) ++ fin -> Protocol.wire_in s0 = stream_of ms ->
  ((forall i x, ds !! i = Some x -> exists a, l !! i = Some a /\ returns m a x) /\
   exists lo, in_front lo (drop (length ds) ms) /\ (tail ≫= Protocol.received) ++ fin = lo ++ stream_of (drop (length ds) ms)) \/
  (exists ds' x, ds = ds' ++ [x] /\ made_up x /\ (tail ≫= Protocol.received) ++ fin = [] /\ drop (length ds') ms = [] /\
   forall i y, ds' !! i = Some y -> exists a, l !! i = Some a /\ returns m a y).
Proof.
  intros Hms Hu Hpre Hd Hh Hi Hw. destruct (client_listens s0 hs0 ds s fin tail Hd [] Hh Hi) as (heards & Hheard & Hl).
  rewrite <- Hi, Hw in Hl. pose proof Hms as (Hok & Hturn & Hmsg).
  assert (Hfront : in_front [] ms) by (split; [apply prefix_nil|by left]).
  destruct (listens_said heards [] ms ((tail ≫= Protocol.received) ++ fin) Hfront Hok Hturn) as (hs1 & hs2 & -> & Hall & Hend);
    [by eapply responses_read|exact Hl|].
  assert (Hone : forall i x h, ds !! i = Some x -> hs1 !! i = Some h -> response_heard x h -> exists a, l !! i = Some a /\ returns m a x).
  { intros i x hd Hx Hhd (id & res & body & Ha & Hp & _ & _ & Hbody).
    destruct (Forall2_lookup_r _ _ _ _ _ Hall Hhd) as (t & Ht & ((lo & Hlo & Ehead) & Heos & Ebody & Hsaid)).
    apply lookup_take_Some in Ht as [Ht _]. destruct (Hmsg i t Ht) as (a & Hai & Htext & _ & Hdata). exists a. split; [done|].
    exists id, res, body, lo, (s_head t). rewrite Heos, Ehead in Hp. split_and!; try done.
    intros _. rewrite <- Hbody, Ebody. auto. }
  destruct Hend as [[-> (lo' & Hfront' & Hrest)]|(h & -> & [Heos Hp] & Hrest & Hdrop)].
  - left. rewrite app_nil_r in *. assert (Hlen : length hs1 = length ds) by (symmetry; by eapply Forall2_length). rewrite Hlen in *.
    split; [|eauto]. intros i x Hx. destruct (Forall2_lookup_l _ _ _ _ _ Hheard Hx) as (hd & Hhd & Hhx). by eapply Hone.
  - right. apply Forall2_app_inv_r in Hheard as (ds1 & ds2 & H1 & H2 & ->). inversion H2 as [|x ? ds3 ? Hx H3]; subst. inversion H3; subst.
    assert (Hlen : length hs1 = length ds1) by (symmetry; by eapply Forall2_length). rewrite Hlen in *.
    exists ds1, x. split; [done|]. split; [|split; [done|split; [done|]]].
    + destruct Hx as (id & res & body & Ha & Hparse & _). rewrite Heos in Hparse. by exists id, res, body, (h_head h).
    + intros i y Hy. destruct (Forall2_lookup_l _ _ _ _ _ H1 Hy) as (hd & Hhd & Hhy). eapply Hone; [|exact Hhd|done].
      by apply lookup_app_l_Some.
Qed.

Lemma under_way_answer x ph : Protocol.under_way x ph -> Protocol.answers (Protocol.x_events x) <> [] ->
  exists id res body l1 head l2, Protocol.answers (Protocol.x_events x) = [(id, res, body)] /\
    Protocol.x_events x = l1 ++ Protocol.Responded id head res body :: l2 /\ l1 ≫= Protocol.received = [].
Proof.
  intros (_ & Hf & Hu) Hne. assert (Ha : exists id res body, Protocol.answers (Protocol.x_events x) = [(id, res, body)]).
  { destruct ph as [|b|r]; simpl in Hu.
    - destruct Hu as (_ & _ & _ & id & res & body & _ & Ha & _). eauto.
    - destruct Hu as (_ & _ & _ & Ha). destruct (Protocol.answers _) as [|[[id res] body] [|]]; [done|eauto|done].
    - destruct Hu as (_ & id & res & _ & Ha & _). eauto. }
  destruct Ha as (id & res & body & Ha). destruct (answers_split _ _ _ _ Ha) as (l1 & head & l2 & El & H1 & H2).
  exists id, res, body, l1, head, l2. split; [done|]. split; [done|]. by rewrite no_answer_received, (Hf l1 _ l2 El) by done.
Qed.

(** The response of the exchange under way. *)
Lemma hears_last_response m hs0 l ms (s0 s : Protocol.t) ds x ph lo fin : response_messages m l ms ->
  Protocol.history s0 hs0 ((ds ≫= Protocol.trace_of) ++ Protocol.trace_of x) s ->
  Protocol.wire_in s0 = (((ds ≫= Protocol.trace_of) ++ Protocol.trace_of x) ≫= Protocol.received) ++ fin ->
  Protocol.under_way x ph -> Protocol.answers (Protocol.x_events x) <> [] -> in_front lo (drop (length ds) ms) ->
  (Protocol.trace_of x ≫= Protocol.received) ++ fin = lo ++ stream_of (drop (length ds) ms) ->
  made_up x \/ (drop (length ds) ms <> [] /\ exists a, l !! length ds = Some a /\
    exists id res body lo head, Protocol.answers (Protocol.x_events x) = [(id, res, body)] /\
      gap lo /\ Service.head_text a.1.1 head /\ try_parse_res (lo ++ head) false = Ok (Some res)).
Proof.
  intros (Hok & _ & Hmsg) Hh Hi Hux Hne Hfront Hrest.
  destruct (under_way_answer x ph Hux Hne) as (id & res & body & l1 & head & l2 & Ha & El & Hr1).
  set (took := Protocol.Took (Protocol.x_handle x) (Protocol.x_head x)) in *.
  assert (Et : Protocol.trace_of x = (took :: l1) ++ Protocol.Responded id head res body :: l2) by (unfold Protocol.trace_of; by rewrite El).
  rewrite Et in Hh, Hi, Hrest. rewrite app_assoc in Hh, Hi. destruct (client_takes s0 _ _ _ _ _ _ _ s fin Hh Hi) as (eos & Ht & Hp).
  assert (E : head ++ (l2 ≫= Protocol.received) ++ fin = lo ++ stream_of (drop (length ds) ms)).
  { rewrite <- Hrest, bind_app, bind_cons, bind_cons, Hr1. cbn [Protocol.received took app]. by rewrite <- app_assoc. }
  rewrite E in Ht. apply next_message in Ht; [|done|by apply Forall_drop].
  destruct Ht as [(t & k & Ek & -> & lo' & Hlo' & ->)|[-> Hpre]]; [right|left; by exists id, res, body, head].
  assert (Hk : ms !! length ds = Some t) by by rewrite <- (Nat.add_0_r (length ds)), <- lookup_drop, Ek.
  split; [by rewrite Ek|]. destruct (Hmsg _ t Hk) as (a & Hai & Htext & _). exists a. split; [done|].
  exists id, res, body, lo', (s_head t). by split_and!.
Qed.

(** No exchange after the [i]th got a response. *)
Definition last_answered (xs : list Protocol.exchange) (i : nat) : Prop :=
  forall j y, (i < j)%nat -> xs !! j = Some y -> Protocol.answers (Protocol.x_events y) = [].

Lemma hears_whole_only m hs0 hs l ms (s0 s : Protocol.t) xs : response_messages m l ms ->
  responses_understood hs l -> Protocol.x_handle <$> xs `prefix_of` hs -> Forall Protocol.whole xs ->
  Protocol.history s0 hs0 (xs ≫= Protocol.trace_of) s -> Protocol.wire_in s0 = stream_of ms -> forall i x, xs !! i = Some x ->
  (exists a, l !! i = Some a /\ returns m a x) \/ (made_up x /\ last_answered xs i /\ drop i ms = []).
Proof.
  intros Hms Hu Hpre Hxs Hh Hw i x Hx. destruct (Protocol.history_wires _ _ _ _ Hh) as (_ & Hi & _).
  rewrite <- (app_nil_r (xs ≫= _)) in Hh, Hi.
  destruct (hears_whole_responses m hs0 hs l ms s0 s xs [] (Protocol.wire_in s)) as [(Hold & _)|(ds' & y & -> & Hy & _ & Hdrop & Hold)];
    try done; [left; by apply Hold|].
  apply lookup_app_Some in Hx as [Hx|[Hge Hx]]; [left; by apply Hold|]. apply list_lookup_singleton_Some in Hx as [Hi0 <-].
  assert (i = length ds') as -> by lia. right. split; [done|]. split; [|done]. intros j z Hj Hz.
  apply lookup_lt_Some in Hz. rewrite length_app in Hz. simpl in Hz. lia.
Qed.

Lemma nothing_left hs0 (s0 s : Protocol.t) ds x ph fin :
  Protocol.history s0 hs0 ((ds ≫= Protocol.trace_of) ++ Protocol.trace_of x) s ->
  Protocol.wire_in s0 = (((ds ≫= Protocol.trace_of) ++ Protocol.trace_of x) ≫= Protocol.received) ++ fin ->
  Protocol.under_way x ph -> (Protocol.trace_of x ≫= Protocol.received) ++ fin = [] -> Protocol.answers (Protocol.x_events x) = [].
Proof.
  intros Hh Hi Hux Hnil. destruct (decide (Protocol.answers (Protocol.x_events x) = [])) as [|Hne]; [done|].
  destruct (under_way_answer x ph Hux Hne) as (id & res & body & l1 & head & l2 & Ha & El & Hr1).
  assert (Et : Protocol.trace_of x = (Protocol.Took (Protocol.x_handle x) (Protocol.x_head x) :: l1) ++
    Protocol.Responded id head res body :: l2) by (unfold Protocol.trace_of; by rewrite El).
  rewrite Et in Hh, Hi, Hnil. rewrite app_assoc in Hh, Hi. destruct (client_takes s0 _ _ _ _ _ _ _ s fin Hh Hi) as (eos & Ht & _).
  rewrite bind_app, bind_cons, bind_cons, Hr1 in Hnil. cbn [Protocol.received app] in Hnil. rewrite <- app_assoc in Hnil.
  rewrite Hnil in Ht. by apply takes_end in Ht as (_ & _ & _ & ?); [|apply prefix_nil].
Qed.

Lemma hears_responses m hs0 hs l ms (s0 s : Protocol.t) es xs : response_messages m l ms ->
  responses_understood hs l -> Protocol.x_handle <$> xs `prefix_of` hs -> Protocol.history s0 hs0 es s -> begun_in es xs ->
  Protocol.wire_in s0 = stream_of ms -> forall i x, xs !! i = Some x -> Protocol.answers (Protocol.x_events x) <> [] ->
  (exists a, l !! i = Some a /\ returns m a x) \/ (made_up x /\ last_answered xs i).
Proof.
  intros Hms Hu Hpre Hh (-> & d & Hd & Hxs) Hw i x Hx Hne.
  assert (Hwhole : Forall Protocol.whole xs -> (exists a, l !! i = Some a /\ returns m a x) \/
    (made_up x /\ last_answered xs i /\ drop i ms = [])) by (intros Hall; by eapply hears_whole_only).
  destruct Hxs as [-> |(y & ph & -> & Hy)]; [destruct (Hwhole Hd) as [|(? & ? & _)]; auto|].
  destruct (Protocol.history_wires _ _ _ _ Hh) as (_ & Hi & _). set (fin := Protocol.wire_in s) in *.
  rewrite fmap_app in Hpre. assert (Hpre' : Protocol.x_handle <$> d `prefix_of` hs) by (etransitivity; [by apply prefix_app_r|done]).
  rewrite bind_app in Hh, Hi. simpl in Hh, Hi. rewrite app_nil_r in Hh, Hi.
  destruct (hears_whole_responses m hs0 hs l ms s0 s d (Protocol.trace_of y) fin) as [(Hold & lo & Hfront & Hrest)|(ds' & z & -> & Hz & Hnil & Hdrop & Hold)]; try done.
  - apply lookup_app_Some in Hx as [Hx|[Hge Hx]]; [left; by apply Hold|]. apply list_lookup_singleton_Some in Hx as [Hi0 <-].
    assert (i = length d) as -> by lia.
    destruct (hears_last_response m hs0 l ms s0 s d y ph lo fin) as [Hm|(Hnd & a & Ha & id & res & body & lo' & head & Han & Hlo' & Htext & Hp)]; try done.
    { right. split; [done|]. intros j z Hj Hz. apply lookup_lt_Some in Hz. rewrite length_app in Hz. simpl in Hz. lia. }
    left. exists a. split; [done|]. exists id, res, body, lo', head. split_and!; try done. intros Hwy.
    destruct Hwhole as [(a' & Ha' & (? & ? & ? & ? & ? & ? & ? & ? & ? & Hb))|(_ & _ & ?)]; [by apply Forall_app; split; [|constructor]| |done].
    injection (eq_trans (eq_sym Ha) Ha') as <-. auto.
  - pose proof (nothing_left hs0 s0 s (ds' ++ [z]) y ph fin Hh Hi Hy Hnil) as Hya.
    apply lookup_app_Some in Hx as [Hx|[Hge Hx]]; [|by apply list_lookup_singleton_Some in Hx as [_ <-]].
    apply lookup_app_Some in Hx as [Hx|[Hge Hx]]; [left; by apply Hold|]. apply list_lookup_singleton_Some in Hx as [Hi0 <-].
    assert (i = length ds') as -> by lia. right. split; [done|]. intros j w Hj.
    rewrite lookup_app_r by (rewrite length_app; simpl; lia). by intros [_ <-]%list_lookup_singleton_Some.
Qed.
End Responses.

(** *** The messages of a server *)

Section ServerMessages.
Context {prof : Profile} `{Http} `{Httparse} {R : Type} `{DuplexSpec R}.

Lemma laid_out_answers es zs ys : Server_talk.server_laid_out es zs ys ->
  Forall2 (fun z a => Service.answers (Service.x_events z) = [a]) zs (Service.answers es).
Proof.
  intros (tail & -> & Ht & Hys & Hz & Haz & _). unfold Service.answers at 2. rewrite omap_app. fold (Service.answers tail).
  fold (Service.answers (ys ≫= Service.trace_of)).
  assert (Et : Service.answers tail = []) by by destruct Ht as [-> | ->]. rewrite Et, app_nil_r.
  assert (Hzs : Forall Server_talk.settled zs -> Forall2 (fun z a => Service.answers (Service.x_events z) = [a]) zs
    (Service.answers (zs ≫= Service.trace_of))).
  { clear -Haz. induction Haz as [|z zs Hne _ IH]; [constructor|]. intros [Hz Hzs]%Forall_cons_1. rewrite bind_cons.
    destruct Hz as (_ & _ & [[? _]|(a & Ha & _)]); [done|]. unfold Service.answers at 2. rewrite omap_app.
    change (omap _ (Service.trace_of z)) with (Service.answers (Service.x_events z)). rewrite Ha. simpl. constructor; [done|]. by apply IH. }
  destruct Hz as [-> |(y & -> & Hy)]; [by apply Hzs|]. apply Forall_app in Hys as [Hys _].
  assert (E : Service.answers ((zs ++ [y]) ≫= Service.trace_of) =
    Service.answers (zs ≫= Service.trace_of) ++ Service.answers (Service.x_events y)).
  { rewrite bind_app. simpl. rewrite app_nil_r. unfold Service.answers. by rewrite omap_app. }
  rewrite E, Hy, app_nil_r. by apply Hzs.
Qed.

Lemma server_messages us (s0 s : Server.conn R Server.State) m es zs ys ss :
  Service.history (Server_proofs.abs Server.RecvReq s0) us es (Server_proofs.abs (self s) s) -> Server_talk.wrote m s es zs ys ss ->
  Forall (fun a => plain_response a.1.1) (Service.answers es) -> response_messages m (Service.answers es) ss.
Proof.
  intros Hh (Hlay & Hss & _ & Hturn) Hplain. pose proof (laid_out_answers _ _ _ Hlay) as Hans.
  assert (Hi : forall i t, ss !! i = Some t -> exists a, Service.answers es !! i = Some a /\ Service.head_text a.1.1 (s_head t) /\
    s_limit t = Server_talk.framing_of_answer a /\ says (s_limit t) (s_wire t) (s_data t) (s_fin t) /\
    (all_said (s_limit t) (s_data t) (s_fin t) -> s_data t = Server_talk.answer_body m a)).
  { intros i t Ht. destruct (Forall2_lookup_r _ _ _ _ _ Hss Ht) as (z & Hz & (a & Hg & Hl & _ & Hs & Hd & _)).
    destruct (Forall2_lookup_l _ _ _ _ _ Hans Hz) as (a' & Ha' & Hza).
    pose proof (Server_talk.given_answers (Service.x_events z)) as Hga. rewrite Hg, Hza in Hga. injection Hga as <-.
    exists a. split; [done|]. split; [|done].
    assert (Hin : exists id, Service.Answered id a (s_head t) ∈ Service.x_events z).
    { assert (Hgin : (a, s_head t) ∈ Server_talk.given (Service.x_events z)) by (rewrite Hg; by left).
      unfold Server_talk.given in Hgin. apply list_elem_of_omap in Hgin as (e & He & Ee). destruct e; try done. injection Ee as -> ->. eauto. }
    destruct Hin as (id & Hin). apply (answered_head _ _ _ _ id _ _ Hh). destruct Hlay as (tail & -> & _ & _ & Hzy & _). apply elem_of_app. left.
    assert (Hzin : z ∈ ys) by (apply list_elem_of_lookup_2 in Hz; destruct Hzy as [-> |(y & -> & _)]; [done|apply elem_of_app; by left]).
    apply list_elem_of_split in Hzin as (y1 & y2 & ->). rewrite bind_app, bind_cons. apply elem_of_app. right. apply elem_of_app. left. by right. }
  split; [|split; [done|]].
  - apply Forall_lookup_2. intros i t Ht. destruct (Hi i t Ht) as (a & Ha & Htext & _ & Hs & _). split; [|done].
    eapply response_head_plain; [|exact Htext]. by apply (Forall_lookup_1 _ _ _ _ Hplain Ha).
  - intros i t Ht. destruct (Hi i t Ht) as (a & Ha & Htext & Hl & _ & Hd). eauto.
Qed.

(** The exchange of the [i]th answer is the [i]th that was accepted. *)
Lemma answer_exchange es zs ys i a : Server_talk.server_laid_out es zs ys -> Service.answers es !! i = Some a ->
  exists y, ys !! i = Some y /\ Service.answers (Service.x_events y) = [a].
Proof.
  intros Hlay Ha. destruct (Forall2_lookup_r _ _ _ _ _ (laid_out_answers _ _ _ Hlay) Ha) as (z & Hz & Hza).
  exists z. split; [|done]. destruct Hlay as (_ & _ & _ & _ & [-> |(y & -> & _)] & _); [done|]. by apply lookup_app_l_Some.
Qed.

Lemma laid_out_accepted es zs ys : Server_talk.server_laid_out es zs ys -> accepted_in es ys.
Proof.
  intros (tail & -> & Ht & _ & _ & _ & xs & Hxs & _ & Hys). exists tail. split; [done|]. split; [by destruct Ht as [-> | ->]|].
  by exists xs.
Qed.
End ServerMessages.

(** ** What is promised *)

Section Promises.
Context {prof : Profile} `{Http} `{Httparse} {Rc Rs : Type} `{!AsyncRead Rc, !ReadSpec Rc, !AsyncWrite Rc, !WriteSpec Rc, !DuplexSpec Rc}
  `{!AsyncRead Rs, !ReadSpec Rs, !AsyncWrite Rs, !WriteSpec Rs, !DuplexSpec Rs}.

Abbreviation client := (Client.conn Rc Client.State).
Abbreviation server := (Server.conn Rs Server.State).

(** C2. What a client of this library sends arrives at a server of this
    library.  However the client's user talks, and whatever the user of the
    server does, with the server's stream being what the client has sent: the
    requests that the server accepts are, in order, those that were made; each
    is what the parser makes of the head that the client wrote (behind what
    the chunked body before it left on the connection); and the body that is
    received in a whole exchange is exactly what was said through the stream
    of that request.  To talk is to make requests and to put pieces on the
    streams that these return, politely: as the headers announce them.  The
    parser is supposed to keep the framing of a request, and not to make one
    out of line ends alone. *)
Theorem requests_arrive (ioc : Rc) (ios : Rs) (c0 : client) us m (c : client) (s0 : server) vs f (s : server) :
  fits ioc -> w_sent ioc = [] -> Client.handshake ioc = Done c0 -> Client_talk.talk c0 us m c ->
  fits ios -> Server.handshake ios = Done s0 -> Server_session.session s0 vs f s ->
  r_stream ios = BufIo.outgoing (bio c) -> requests_understood (Protocol.queued us) ->
  exists es ys, Service.history (Server_proofs.abs Server.RecvReq s0) vs es (Server_proofs.abs (self s) s) /\
    (f = false -> Service.unfailed es) /\
    accepted_in es ys /\ forall i y, ys !! i = Some y -> exists h, Protocol.queued us !! i = Some h /\ arrives m h y.
Proof.
  intros Hfc Hsc Hhc Htc Hfs Hhs Hss Hio Hu.
  destruct (Client_talk.client_wrote _ _ _ _ _ Hfc Hsc Hhc Htc) as (esc & xs & msg & Hw).
  pose proof (wrote_messages _ _ _ _ _ _ _ Hw (ru_plain _ Hu)) as Hmsg. destruct Hw as (_ & _ & _ & Hout & _).
  destruct (Server_session.server_session_history _ _ _ _ _ Hfs Hhs Hss) as (_ & es & Hes & Hf & _).
  destruct (Service.server_history_exchanges _ _ _ _ Hes eq_refl) as (ws & Hws).
  destruct (exchanges_accepted _ _ _ Hws) as (ys & Hys & _). exists es, ys. do 3 (split; [done|]).
  apply (hears_requests m _ msg _ _ _ es ys Hmsg Hu Hes Hys). rewrite <- Hout, <- Hio.
  destruct (Server_session.server_handshake_ok ios Hfs) as (s0' & E & _ & _ & Hin & _). rewrite Hhs in E. by injection E as <-.
Qed.

(** Every request that was made was begun, or is queued; and between
    exchanges, those that were begun are complete: each has its response, with
    the whole of its body. *)
Definition accounts_for us (c : client) (xs : list Protocol.exchange) : Prop :=
  Protocol.queued us = (Protocol.x_handle <$> xs) ++ queue_of (reqs (wld c)) /\ (self c = Client.SendReq -> Forall Protocol.whole xs).

(** What a client gets of the answers [l]: the response of its n-th request
    is the n-th, or one that was made up, after which there is none. *)
Definition gets m (l : list Server.answer) (xs : list Protocol.exchange) : Prop :=
  forall i x, xs !! i = Some x -> Protocol.answers (Protocol.x_events x) <> [] ->
    (exists a, l !! i = Some a /\ returns m a x) \/ (made_up x /\ last_answered xs i).

(** The client's side of a session whose stream is what the server said. *)
Lemma client_hears (ioc : Rc) (c0 : client) us (c : client) m l msg : fits ioc -> Client.handshake ioc = Done c0 ->
  Client_session.session c0 us c -> r_stream ioc = stream_of msg -> response_messages m l msg ->
  responses_understood (Protocol.queued us) l ->
  exists es xs, Protocol.history (Client_proofs.abs Client.SendReq c0) us es (Client_proofs.abs (self c) c) /\ begun_in es xs /\
    accounts_for us c xs /\ gets m l xs.
Proof.
  intros Hf Hh Hs Hio Hmsg Hu. destruct (Client_session.session_tells ioc c0 us c Hf Hh Hs) as (_ & es & Hes & _ & _ & Hr & _).
  destruct (Client_session.handshake_ok ioc Hf) as (c0' & E & _ & _ & Hin & _). rewrite Hh in E. injection E as <-.
  destruct (Protocol.history_exchanges _ _ _ _ Hes eq_refl) as (ws & Hws). apply Client_talk.exchanges_laid_out in Hws as (xs & Hx & _).
  pose proof (Client_talk.laid_out_settled _ _ _ Hx) as Hset. pose proof Hx as (Hex & d & Hd & Hxs).
  rewrite Hex, (Client_talk.took_bind _ _ Hset) in Hr.
  assert (Hb : begun_in es xs) by (split; [done|]; exists d; split; [done|]; destruct Hxs as [|(x & ? & ?)]; eauto).
  exists es, xs. split; [done|]. split; [done|]. split.
  - split; [done|]. intros Hidle. simpl in Hxs. rewrite Hidle in Hxs. destruct Hxs as [-> |(x & -> & _ & _ & Hw)]; [done|].
    apply Forall_app. by split; [|constructor].
  - unfold gets. eapply (hears_responses m us _ l msg _ _ es xs Hmsg Hu); [|exact Hes|exact Hb|simpl; by rewrite Hin].
    rewrite Hr. by apply prefix_app_r.
Qed.

(** C3. What a server of this library answers comes back to a client of this
    library.  The server's user talks: it gives answers, and puts pieces on the
    streams that these return, politely, as the headers announce them; the
    user of the client does whatever it likes; no poll of the server returned
    an error; and the client's stream is what the server has sent.  Then the
    response of the client's n-th request is what the parser makes of the head
    of the server's n-th answer, one of those its user gave, and the body
    received in a whole exchange is exactly what was said through the stream
    of that answer.  This holds of a server that was closed after its last
    exchange as well as of an open one.  Every request made is still
    queued or got as far as [xs], and between exchanges all of these are
    complete.  The one exception is a response
    after which there is none: it may be made up from the line ends that a
    chunked body leaves at the end of the stream.  The parser is supposed to
    read from each head whether there is a body, and its length, as the server
    wrote it. *)
Theorem responses_arrive (ioc : Rc) (ios : Rs) (c0 : client) us (c : client) (s0 : server) vs gs m (s : server) :
  fits ios -> w_sent ios = [] -> Server.handshake ios = Done s0 -> Server_talk.talk s0 vs false gs m s ->
  fits ioc -> Client.handshake ioc = Done c0 -> Client_session.session c0 us c ->
  r_stream ioc = BufIo.outgoing (bio s) ->
  exists ess, Service.history (Server_proofs.abs Server.RecvReq s0) vs ess (Server_proofs.abs (self s) s) /\
    Service.unfailed ess /\ Forall (fun a => a ∈ gs) (Service.answers ess) /\
    (responses_understood (Protocol.queued us) (Service.answers ess) ->
      exists es xs, Protocol.history (Client_proofs.abs Client.SendReq c0) us es (Client_proofs.abs (self c) c) /\
        begun_in es xs /\ accounts_for us c xs /\ gets m (Service.answers ess) xs).
Proof.
  intros Hfs Hss Hhs Hts Hfc Hhc Hsc Hio. destruct (Server_talk.server_wrote _ _ _ _ _ _ _ Hfs Hss Hhs Hts) as (ess & Hess & Hnf & Hwrote).
  exists ess. split; [done|]. specialize (Hnf eq_refl). split; [done|]. destruct (Hwrote Hnf) as (Hgs & zs & ys & msg & Hw).
  split; [done|]. intros Hu.
  pose proof (server_messages _ _ _ _ _ _ _ _ Hess Hw (rs_plain _ _ Hu)) as Hmsg. destruct Hw as (_ & _ & Hout & _).
  rewrite Hout in Hio. by apply (client_hears ioc c0 us c m (Service.answers ess) msg).
Qed.

(** The exchange [x] at the client is the [i]th, [y] at the server, in which
    [a] was answered: what was asked in [x] arrived in [y], and what was
    answered in [y] came back in [x]. *)
Definition matches mc ms (ys : list Service.exchange) (i : nat) (x : Protocol.exchange) : Prop :=
  exists y a, ys !! i = Some y /\ Service.answers (Service.x_events y) = [a] /\ arrives mc (Protocol.x_handle x) y /\ returns ms a x.

(** Client and server on one connection, each reading what the other sends. *)
Lemma client_and_server (ioc : Rc) (ios : Rs) (c0 : client) us mc (c : client) (s0 : server) vs f gs ms (s : server) :
  fits ioc -> w_sent ioc = [] -> Client.handshake ioc = Done c0 -> Client_talk.talk c0 us mc c ->
  fits ios -> w_sent ios = [] -> Server.handshake ios = Done s0 -> Server_talk.talk s0 vs f gs ms s ->
  r_stream ios = BufIo.outgoing (bio c) -> r_stream ioc = BufIo.outgoing (bio s) -> requests_understood (Protocol.queued us) ->
  exists ess, Service.history (Server_proofs.abs Server.RecvReq s0) vs ess (Server_proofs.abs (self s) s) /\
    (f = false -> Service.unfailed ess) /\
    (Service.unfailed ess ->
     Forall (fun a => a ∈ gs) (Service.answers ess) /\
     (responses_understood (Protocol.queued us) (Service.answers ess) ->
      exists es xs ys, Protocol.history (Client_proofs.abs Client.SendReq c0) us es (Client_proofs.abs (self c) c) /\
        begun_in es xs /\ accounts_for us c xs /\ accepted_in ess ys /\
        forall i x, xs !! i = Some x -> Protocol.answers (Protocol.x_events x) <> [] ->
          matches mc ms ys i x \/ (made_up x /\ last_answered xs i))).
Proof.
  intros Hfc Hsc Hhc Htc Hfs Hss Hhs Hts Hios Hioc Hru.
  destruct (Client_talk.client_wrote _ _ _ _ _ Hfc Hsc Hhc Htc) as (esc & xc & msgc & Hwc).
  pose proof (wrote_messages _ _ _ _ _ _ _ Hwc (ru_plain _ Hru)) as Hmsgc. destruct Hwc as (_ & _ & _ & Houtc & _).
  destruct (Server_talk.server_wrote _ _ _ _ _ _ _ Hfs Hss Hhs Hts) as (ess & Hess & Hnof & Hwrote). exists ess. do 2 (split; [done|]). intros Hnf.
  destruct (Hwrote Hnf) as (Hgs & zs & ys & msgs & Hws). split; [done|]. intros Hu.
  pose proof (server_messages _ _ _ _ _ _ _ _ Hess Hws (rs_plain _ _ Hu)) as Hmsgs.
  destruct Hws as (Hlay & _ & Houts & _). rewrite Houts in Hioc.
  destruct (client_hears ioc c0 us c ms (Service.answers ess) msgs) as (es & xs & Hes & Hb & Hacf & Hall); try done.
  { by eapply Client_talk.talk_session. }
  exists es, xs, ys. split; [done|]. split; [done|]. split; [done|]. pose proof (laid_out_accepted _ _ _ Hlay) as Hacc. split; [done|].
  intros i x Hx Hne. destruct (Hall i x Hx Hne) as [(a & Ha & Hret)|]; [left|by right].
  destruct (answer_exchange _ _ _ _ _ Hlay Ha) as (y & Hy & Hya). exists y, a. split; [done|]. split; [done|]. split; [|done].
  destruct (Server_session.server_handshake_ok ios Hfs) as (s0' & E & Hwf & Hst & Hin & _). rewrite Hhs in E. injection E as <-.
  destruct (hears_requests mc _ msgc vs _ _ ess ys Hmsgc Hru Hess Hacc) with (i := i) (x := y) as (h & Hh & Harr); [|done|].
  { simpl. by rewrite Hin, Hios, Houtc. }
  assert (Hxh : Protocol.queued us !! i = Some (Protocol.x_handle x)).
  { destruct Hacf as [-> _]. apply lookup_app_l_Some. by rewrite list_lookup_fmap, Hx. }
  rewrite Hxh in Hh. by injection Hh as <-.
Qed.

(** C1. Client and server on one connection, each reading what the other
    sends, of a server none of whose polls returned an error: the n-th
    response at the client was given by the server's user in the n-th exchange
    of the server, and that is the exchange of the client's n-th request: the
    request accepted in it is what the parser makes of that request's head,
    with the body that was said through that request's stream once it is
    complete; and the response is what it makes of the head of the answer
    given there, with the body that was said through that answer's stream once
    it is complete.  The two users speak politely, putting on their streams
    what the headers announce, and otherwise do what they like; on whatever
    polls, partial reads and writes and order of calls, requests and responses
    never go astray, up to the last exchange of a server that is then closed.
    A client that waits for another request, with none queued, has got a
    response with its whole body to every request it was given.  The
    exception and the suppositions on the parser are those of the two theorems
    above. *)
Theorem conversation (ioc : Rc) (ios : Rs) (c0 : client) us mc (c : client) (s0 : server) vs gs ms (s : server) :
  fits ioc -> w_sent ioc = [] -> Client.handshake ioc = Done c0 -> Client_talk.talk c0 us mc c ->
  fits ios -> w_sent ios = [] -> Server.handshake ios = Done s0 -> Server_talk.talk s0 vs false gs ms s ->
  r_stream ios = BufIo.outgoing (bio c) -> r_stream ioc = BufIo.outgoing (bio s) -> requests_understood (Protocol.queued us) ->
  exists ess, Service.history (Server_proofs.abs Server.RecvReq s0) vs ess (Server_proofs.abs (self s) s) /\
    Service.unfailed ess /\ Forall (fun a => a ∈ gs) (Service.answers ess) /\
    (responses_understood (Protocol.queued us) (Service.answers ess) ->
      exists es xs ys, Protocol.history (Client_proofs.abs Client.SendReq c0) us es (Client_proofs.abs (self c) c) /\
        begun_in es xs /\ accounts_for us c xs /\ accepted_in ess ys /\
        forall i x, xs !! i = Some x -> Protocol.answers (Protocol.x_events x) <> [] ->
          matches mc ms ys i x \/ (made_up x /\ last_answered xs i)).
Proof.
  intros Hfc Hsc Hhc Htc Hfs Hss Hhs Hts Hios Hioc Hru.
  destruct (client_and_server ioc ios c0 us mc c s0 vs false gs ms s) as (ess & Hess & Hnf & Hr); [done..|].
  exists ess. split; [done|]. specialize (Hnf eq_refl). split; [done|]. by apply Hr.
Qed.

(** Nothing is left to do for the client's user: nobody waits for a piece of a
    request body, or for room in a response body. *)
Definition user_done (cx : waker) (w : Client.world) : Prop :=
  map_Forall (fun (_ : chan_id) ch => ~ awaits true cx ch) (outs w) /\
  map_Forall (fun (_ : chan_id) ch => ~ backed_up cx ch) (ins w).

Lemma user_done_idle cx (s : Client.State) w : user_done cx w -> Client_progress.waits_for_user cx s w -> s = Client.SendReq.
Proof.
  intros [Ho Hi]. destruct s as [|h|h]; simpl; [done| |].
  - intros [_ Hw]. destruct (Client.Handle.body_rx _) as [id|]; [|done]. simpl in Hw.
    destruct (outs w !! id) as [ch|] eqn:E; [|done]. by destruct (Ho id ch E).
  - destruct (ins w !! _) as [ch|] eqn:E; [|done]. intros Hw. by destruct (Hi _ ch E).
Qed.

(** C4. Every request is answered.  A client and a server of this library on
    one connection, each reading what the other sends; the transport of the
    client stalls no more, its user has nothing left to do, and a poll is
    [Pending].  Then, unless the server failed, each request that the client's
    user made has got its response, with the whole of its body: the one that
    the server's user gave to this very request, as the server accepted it,
    with the body that was said through that answer's stream; or, for the last
    one only, one made up from the line ends at the end of the stream.  The
    suppositions are those of the theorems above. *)
Theorem every_request_is_answered (ioc : Rc) (ios : Rs) (c0 : client) us mc (c : client) (s0 : server) vs f gs ms (s : server)
    fuel cx (c' : client) :
  fits ioc -> w_sent ioc = [] -> Client.handshake ioc = Done c0 -> Client_talk.talk c0 us mc c ->
  fits ios -> w_sent ios = [] -> Server.handshake ios = Done s0 -> Server_talk.talk s0 vs f gs ms s ->
  live Rc -> stalls_left c = 0%nat -> Client_proofs.enough fuel c -> Client.poll_client fuel cx c = Done (Pending, c') ->
  user_done cx (wld c') ->
  r_stream ios = BufIo.outgoing (bio c') -> r_stream ioc = BufIo.outgoing (bio s) -> requests_understood (Protocol.queued us) ->
  exists ess, Service.history (Server_proofs.abs Server.RecvReq s0) vs ess (Server_proofs.abs (self s) s) /\
    (f = false -> Service.unfailed ess) /\
    (Service.unfailed ess ->
     Forall (fun a => a ∈ gs) (Service.answers ess) /\
     (responses_understood (Protocol.queued us) (Service.answers ess) ->
      exists xs ys, accepted_in ess ys /\
        forall i h, Protocol.queued us !! i = Some h -> exists x, xs !! i = Some x /\ Protocol.x_handle x = h /\ Protocol.whole x /\
          (matches mc ms ys i x \/ (made_up x /\ last_answered xs i)))).
Proof.
  intros Hfc Hsc Hhc Htc Hfs Hss Hhs Hts Hlive Hst Hen E Hdone Hios Hioc Hru.
  assert (Hwf : Client_proofs.wf c).
  { destruct (Client_session.handshake_ok ioc Hfc) as (c0' & E0 & Hwf & _). rewrite Hhc in E0. injection E0 as <-.
    eapply Client_session.session_history; [done|]. by eapply Client_talk.talk_session. }
  destruct (Client_progress.pending_costs _ _ _ _ Hlive Hwf Hen E) as (_ & _ & [Hw|?]); [|lia].
  pose proof (user_done_idle _ _ _ Hdone Hw) as Hidle. rewrite Hidle in Hw. destruct Hw as [Hq _].
  pose proof (Client_talk.talk_poll _ _ _ _ _ _ _ Htc Hen E) as Htc'.
  destruct (client_and_server ioc ios c0 us mc c' s0 vs f gs ms s) as (ess & Hess & Hf & Hr); [done..|].
  exists ess. do 2 (split; [done|]). intros Hnf. destruct (Hr Hnf) as [Hgs Hu]. split; [done|]. intros Hru'.
  destruct (Hu Hru') as (es & xs & ys & _ & _ & [Hacf Hwhole] & Hacc & Hall). exists xs, ys. split; [done|].
  rewrite Hq, app_nil_r in Hacf. specialize (Hwhole Hidle). intros i h Hh.
  rewrite Hacf, list_lookup_fmap in Hh. destruct (xs !! i) as [x|] eqn:Hx; [|done]. injection Hh as <-.
  pose proof (Forall_lookup_1 _ _ _ _ Hwhole Hx) as Hxw. exists x. split; [done|]. split; [done|]. split; [done|].
  apply Hall; [done|]. destruct Hxw as (_ & _ & _ & id & res & body & _ & Ha & _). by rewrite Ha.
Qed.
End Promises.

(** ** A conversation *)

Module ConversationExample.
#[local] Existing Instance dev.
Import Plain.

Definition fuel : nat := Z.to_nat 9000.
#[local] Arguments fuel : simpl never.

#[local] Instance polite_dec sp d end_ : Decision (polite sp d end_).
Proof. unfold polite. destruct (framing_of sp); apply _. Defined.
#[local] Instance data_dec : EqDecision Data.
Proof. solve_decision. Defined.
#[local] Instance sendable_dec this d : Decision (sendable this d).
Proof. unfold sendable, in_range. destruct (SendStream.limit this); apply _. Defined.

(** What the users do, and the polls. *)
Inductive client_act := Ask (q : request) | Say (id : chan_id) (d : bytes) (end_ : bool) | Turn.
Inductive server_act := Accept | Read (id : chan_id) | Respond (id : chan_id) (res : response) | Reply (id : chan_id) (d : bytes) (end_ : bool) | Drive.

Definition client := Codec.conn (Channels.world (@Client.Handle.t plain_http) (@Client.response plain_http)) Script.t Client.State.
Definition server := Codec.conn (Channels.world unit (@Server.answer plain_http)) Script.t Server.State.

#[local] Instance out_fuel_dec {Q A} (w : Channels.world Q A) : Decision (out_fuel fuel w).
Proof.
  change (out_fuel fuel w) with (map_Forall (fun (_ : chan_id) ch => (length (queue_of ch) + 3 < fuel)%nat /\
    Forall (fun v => zlen v.1 < Z.of_nat fuel) (queue_of ch)) (outs w)). apply _.
Defined.
#[local] Instance client_enough_dec (c : client) : Decision (Client_proofs.enough fuel c).
Proof. unfold Client_proofs.enough, io_room, Client_proofs.world_fuel. apply _. Defined.
#[local] Instance server_enough_dec (c : server) : Decision (Server_proofs.enough fuel c).
Proof. unfold Server_proofs.enough, io_room. apply _. Defined.

(** Checked steps: of a client, with its user's calls and streams, and of a
    server, with the answers given and the streams; polls that fail are left
    out. *)
Definition client_step (st : list Protocol.act * gmap chan_id speech * client) (a : client_act) :
    option (list Protocol.act * gmap chan_id speech * client) :=
  let '(us, m, c) := st in
  match a with
  | Ask q =>
      match Client.SendRequest.send_request q false (wld c) with
      | Done (r, w) => if q_version q =? 11
          then Some (us ++ [(still_world (wld c), still_world w)], Client_talk.opened r m, set_wld w c) else None
      | _ => None
      end
  | Say id d end_ =>
      sp ← m !! id;
      if bool_decide (sendable (sp_stream sp) (Shared d) /\ polite sp d end_) then
        match SendStream.poll_send_data 7%nat end_ (sp_stream sp, Shared d, wld c) with
        | Done (r, (this, _, w)) =>
            Some (us ++ [(still_world (wld c), still_world w)], <[id := say sp this r (Shared d) end_]> m, set_wld w c)
        | _ => None
        end
      else None
  | Turn =>
      if bool_decide (Client_proofs.enough fuel c) then
        match Client.poll_client fuel 7%nat c with Done (Pending, c) => Some (us, m, c) | _ => None end
      else None
  end.

(** A poll that did not fail. *)
Definition polled {A} (m : exec (poll (io_result A) * server)) : option server :=
  match m with Done (r, c) => if Server_session.is_err r then None else Some c | _ => None end.

Definition server_step (st : list Server.answer * gmap chan_id speech * server) (a : server_act) :
    option (list Server.answer * gmap chan_id speech * server) :=
  let '(gs, m, c) := st in
  match a with
  | Accept =>
      if bool_decide (Server_proofs.enough fuel c) then (fun c => (gs, m, c)) <$> polled (Server.poll_accept fuel 7%nat c) else None
  | Read id =>
      match RecvStream.poll_body_data fuel 7%nat 100 (RecvStream.new id false true, wld c) with
      | Done (_, (_, w)) => Some (gs, m, set_wld w c)
      | _ => None
      end
  | Respond id res =>
      let s := Server.SendResponse.mk id false in
      match Server.enqueue_response s res false (wld c) with
      | Done (Ready (Ok r), w) => if s_version res =? 11
          then Some (Server_talk.given_by s res false r gs, Server_talk.opened r m, set_wld w c) else None
      | _ => None
      end
  | Reply id d end_ =>
      sp ← m !! id;
      if bool_decide (sendable (sp_stream sp) (Shared d) /\ polite sp d end_) then
        match SendStream.poll_send_data 7%nat end_ (sp_stream sp, Shared d, wld c) with
        | Done (r, (this, _, w)) => Some (gs, <[id := say sp this r (Shared d) end_]> m, set_wld w c)
        | _ => None
        end
      else None
  | Drive =>
      if bool_decide (Server_proofs.enough fuel c) then (fun c => (gs, m, c)) <$> polled (Server.poll_drive_external fuel 7%nat c) else None
  end.

Fixpoint runs {S A} (step : S -> A -> option S) (s : S) (l : list A) : option S :=
  match l with [] => Some s | a :: l => s ← step s a; runs step s l end.

(** Checked steps are those of talks. *)
Lemma client_step_talk c0 st a st' : client_step st a = Some st' ->
  Client_talk.talk c0 st.1.1 st.1.2 st.2 -> Client_talk.talk c0 st'.1.1 st'.1.2 st'.2.
Proof.
  destruct st as [[us m] c]. cbn [fst snd]. intros E Ht. destruct a as [q|id d end_|]; cbn [client_step] in E.
  - destruct (Client.SendRequest.send_request (H := plain_http) q false (wld c)) as [[r w]| |] eqn:Es; try done.
    destruct (Z.eqb_spec (q_version q) 11) as [Ev|]; [|done]. injection E as <-.
    eapply (Client_talk.talk_request (H := plain_http) _ _ _ _ q false); [exact Ht| |done|exact Es]. unfold version_str. simpl. by rewrite Ev.
  - destruct (m !! id) as [sp|] eqn:Em; [|done].
    cbn [mbind option_bind] in E. destruct (bool_decide_reflect (sendable (sp_stream sp) (Shared d) /\ polite sp d end_))
      as [[Hs Hp]|]; [|done].
    destruct (SendStream.poll_send_data _ _ _) as [[r [[this rest] w]]| |] eqn:Es; try done. injection E as <-.
    by eapply Client_talk.talk_piece.
  - destruct (bool_decide_reflect (Client_proofs.enough fuel c)) as [Hen|]; [|done].
    destruct (Client.poll_client fuel 7%nat c) as [[[|] c']| |] eqn:Ep; try done. injection E as <-. by eapply Client_talk.talk_poll.
Qed.

Lemma polled_done {A} (m : exec (poll (io_result A) * server)) (gs : list Server.answer) (s : gmap chan_id speech) st :
  (fun c => (gs, s, c)) <$> polled m = Some st -> exists r c, m = Done (r, c) /\ Server_session.is_err r = false /\ st = (gs, s, c).
Proof.
  unfold polled. destruct m as [[r c]| |]; try done. destruct (Server_session.is_err r) eqn:E; [done|]. intros [= <-]. by exists r, c.
Qed.

(** A talk in which no poll fails. *)
Definition speaking (c0 : server) (st : list Server.answer * gmap chan_id speech * server) : Prop :=
  exists us, Server_talk.talk c0 us false st.1.1 st.1.2 st.2.

Lemma server_step_talk c0 st a st' : server_step st a = Some st' -> speaking c0 st -> speaking c0 st'.
Proof.
  destruct st as [[gs m] c]. unfold speaking. cbn [fst snd]. intros E (us & Ht).
  destruct a as [|id|id res|id d end_|]; cbn [server_step] in E.
  - destruct (bool_decide_reflect (Server_proofs.enough fuel c)) as [Hen|]; [|done].
    apply polled_done in E as (r & c' & Ep & Er & ->). exists us. pose proof (Server_talk.talk_accept _ _ _ _ _ _ _ _ _ _ Ht Hen Ep) as Ht'.
    by rewrite Er in Ht'.
  - destruct (RecvStream.poll_body_data _ _ _ _) as [[r [this w]]| |] eqn:Er; try done. injection E as <-.
    eexists. eapply Server_talk.talk_call; [exact Ht|]. by eapply Server_session.call_read.
  - destruct (Server.enqueue_response (H := plain_http) _ res _ _) as [[[|[r|e]] w]| |] eqn:Es; try done.
    destruct (Z.eqb_spec (s_version res) 11) as [Ev|]; [|done]. injection E as <-. eexists.
    eapply (Server_talk.talk_response (H := plain_http)); [exact Ht| |exact Es]. unfold version_str. simpl. by rewrite Ev.
  - destruct (m !! id) as [sp|] eqn:Em; [|done].
    cbn [mbind option_bind] in E. destruct (bool_decide_reflect (sendable (sp_stream sp) (Shared d) /\ polite sp d end_))
      as [[Hs Hp]|]; [|done].
    destruct (SendStream.poll_send_data _ _ _) as [[r [[this rest] w]]| |] eqn:Es; try done. injection E as <-. eexists.
    by eapply Server_talk.talk_piece.
  - destruct (bool_decide_reflect (Server_proofs.enough fuel c)) as [Hen|]; [|done].
    apply polled_done in E as (r & c' & Ep & Er & ->). exists us. pose proof (Server_talk.talk_drive _ _ _ _ _ _ _ _ _ _ Ht Hen Ep) as Ht'.
    by rewrite Er in Ht'.
Qed.

Lemma client_runs_talk c0 l : forall st st', runs client_step st l = Some st' ->
  Client_talk.talk c0 st.1.1 st.1.2 st.2 -> Client_talk.talk c0 st'.1.1 st'.1.2 st'.2.
Proof.
  induction l as [|a l IH]; intros st st' E Ht; [by injection E as <-|]. simpl in E.
  destruct (client_step st a) as [st1|] eqn:E1; [|done]. eapply IH; [exact E|]. by eapply client_step_talk.
Qed.

Lemma server_runs_talk c0 l : forall st st', runs server_step st l = Some st' -> speaking c0 st -> speaking c0 st'.
Proof.
  induction l as [|a l IH]; intros st st' E Ht; [by injection E as <-|]. simpl in E.
  destruct (server_step st a) as [st1|] eqn:E1; [|done]. eapply IH; [exact E|]. by eapply server_step_talk.
Qed.

Definition post : request :=
  {| q_method := bs "POST"; q_uri := {| u_pq := Some (bs "/x"); u_scheme := None; u_host := Some (bs "a.b"); u_port := None |};
     q_version := 11; q_headers := [(bs "transfer-encoding", bs "chunked")] |}.
Definition status200 : response := {| s_status := 200; s_version := 11; s_headers := [(bs "content-length", bs "2")] |}.
(** The transport reads [text], then stalls for a while, or ends. *)
Definition reads_then_stalls (text : bytes) : Script.t := Script.mk (Script.data text ++ replicate 8 Script.RPending) [] [] [] 0.
Definition reads_all (text : bytes) : Script.t := Script.mk (Script.data text) [] [] [] 0.
Definition client_start (io : Script.t) : client :=
  mk_conn Client.SendReq (BufIo.mk io (Vec.mk [] READ_BUF_INIT_SIZE) 0 false false None false)
    (mk_world (Mpsc.new 100) ∅ ∅ ∅ []).
Definition server_start (io : Script.t) : server :=
  mk_conn Server.RecvReq (BufIo.mk io (Vec.mk [] READ_BUF_INIT_SIZE) 0 false false None false)
    (mk_world (Mpsc.new 1) ∅ ∅ ∅ []).

Definition client_script : list client_act := [Ask post; Turn; Say 0%nat (bs "hi!") false; Turn; Say 0%nat (bs "") true; Turn; Turn].
Definition server_script : list server_act := [Accept; Respond 0%nat status200; Drive; Read 0%nat; Drive; Reply 0%nat (bs "ok") true; Drive].

Definition request_text : bytes :=
  match runs client_step ([], ∅, client_start (reads_then_stalls [])) client_script with Some (_, _, c) => BufIo.outgoing (bio c) | None => [] end.
Definition response_text : bytes :=
  match runs server_step ([], ∅, server_start (reads_then_stalls request_text)) server_script with Some (_, _, c) => BufIo.outgoing (bio c) | None => [] end.

(** The two sides, each reading what the other has written. *)
Definition client_io : Script.t := reads_all response_text.
Definition server_io : Script.t := reads_then_stalls request_text.
Definition asked := default ([], ∅, client_start client_io) (runs client_step ([], ∅, client_start client_io) client_script).
Definition served := default ([], ∅, server_start server_io) (runs server_step ([], ∅, server_start server_io) server_script).

Lemma asked_runs : runs client_step ([], ∅, client_start client_io) client_script = Some asked.
Proof.
  assert (Hs : is_Some (runs client_step ([], ∅, client_start client_io) client_script)) by (apply is_Some_alt; by vm_compute).
  unfold asked. by destruct Hs as [st ->].
Qed.
Lemma served_runs : runs server_step ([], ∅, server_start server_io) server_script = Some served.
Proof.
  assert (Hs : is_Some (runs server_step ([], ∅, server_start server_io) server_script)) by (apply is_Some_alt; by vm_compute).
  unfold served. by destruct Hs as [st ->].
Qed.

Lemma asked_talk : Client_talk.talk (client_start client_io) asked.1.1 asked.1.2 asked.2.
Proof. exact (client_runs_talk _ _ _ _ asked_runs (Client_talk.talk_start _)). Qed.
Lemma served_talk : speaking (server_start server_io) served.
Proof. apply (server_runs_talk _ _ _ _ served_runs). exists []. apply Server_talk.talk_start. Qed.

Lemma client_reads : r_stream client_io = BufIo.outgoing (bio served.2).
Proof. by vm_compute. Qed.
Lemma server_reads : r_stream server_io = BufIo.outgoing (bio asked.2).
Proof. by vm_compute. Qed.
Lemma fits_client : fits client_io.
Proof. by vm_compute. Qed.
Lemma fits_server : fits server_io.
Proof. by vm_compute. Qed.

Lemma all_sent_nothing text : w_sent (reads_all text) = [].
Proof. done. Qed.
Lemma stalls_sent_nothing text : w_sent (reads_then_stalls text) = [].
Proof. done. Qed.
Lemma client_starts io : Client.handshake io = Done (client_start io).
Proof. done. Qed.
Lemma server_starts io : Server.handshake io = Done (server_start io).
Proof. done. Qed.

(** The messages are understood by the toy parser. *)
Definition plain_lineb (l : bytes) : bool :=
  negb (bool_decide (l = [])) && forallb (fun c => negb (Byte.eqb c CR) && negb (Byte.eqb c LF)) l.
Lemma plain_lines_ok (ls : list bytes) : forallb plain_lineb ls = true -> Forall plain_line ls.
Proof.
  intros Hb. apply list.Forall_forall. intros l Hl. eapply forallb_forall in Hb; [|by apply list_elem_of_In].
  apply andb_prop in Hb as [Hn Hb]. split; [by apply negb_true_iff, bool_decide_eq_false in Hn|].
  apply list.Forall_forall. intros c Hc. eapply forallb_forall in Hb; [|by apply list_elem_of_In].
  apply andb_prop in Hb as [H1 H2]. split; intros ->; by vm_compute in H1, H2.
Qed.

Lemma post_plain : plain_request post.
Proof. intros ver [= <-]. by apply plain_lines_ok. Qed.
Lemma status200_plain : plain_response status200.
Proof. intros ver [= <-]. by apply plain_lines_ok. Qed.

Abbreviation requests := (@Protocol.queued plain_http asked.1.1).

Lemma asked_requests h : h ∈ requests -> Client.Handle.req h = post.
Proof.
  intros Hh. apply (list_elem_of_fmap_2 Client.Handle.req) in Hh.
  assert (E : Client.Handle.req <$> requests = [post]) by by vm_compute. rewrite E in Hh. by apply list_elem_of_singleton in Hh.
Qed.

Lemma asked_understood : requests_understood requests.
Proof.
  split.
  - apply list.Forall_forall. intros h ->%asked_requests. apply post_plain.
  - intros h lo head req ->%asked_requests Hlo (ver & [= <-] & -> & _) Hp.
    destruct Hlo as [-> | ->]; vm_compute in Hp; injection Hp as <-; by vm_compute.
  - intros lo req Hlo Hp. assert (Hin : lo ∈ [[]; [LF]; [LF; CR]; line_ends]).
    { destruct Hlo as [k Hk]. unfold line_ends in Hk. destruct lo as [|a [|b [|c [|d lo]]]]; simplify_eq/=; set_solver. }
    repeat (apply elem_of_cons in Hin as [-> |Hin]; [by vm_compute in Hp|]). by apply not_elem_of_nil in Hin.
Qed.

Lemma served_answers a : a ∈ served.1.1 -> a = (status200, false, 0%nat).
Proof.
  assert (E : served.1.1 = [(status200, false, 0%nat)]) by by vm_compute. rewrite E. by intros ?%list_elem_of_singleton.
Qed.

Lemma served_understood l : Forall (fun a => a ∈ served.1.1) l -> responses_understood requests l.
Proof.
  intros Hl. rewrite list.Forall_forall in Hl. split.
  - apply list.Forall_forall. intros a ->%Hl%served_answers. apply status200_plain.
  - intros i h a lo head res Hh%list_elem_of_lookup_2%asked_requests ->%list_elem_of_lookup_2%Hl%served_answers Hlo (ver & [= <-] & -> & _) Hp.
    unfold response_reader, Protocol.has_body. rewrite Hh.
    destruct Hlo as [-> | ->]; vm_compute in Hp; injection Hp as <-; by vm_compute.
Qed.

(** A request and a response without a length, on their own. *)
Definition plain_get : request :=
  {| q_method := bs "GET"; q_uri := {| u_pq := Some (bs "/x"); u_scheme := None; u_host := Some (bs "a.b"); u_port := None |};
     q_version := 11; q_headers := [] |}.
Definition no_length : response := {| s_status := 200; s_version := 11; s_headers := [] |}.
Definition client_of (input : bytes) := snd <$> runs client_step ([], ∅, client_start (reads_then_stalls input)) [Ask plain_get; Turn; Turn].
Definition server_of (input : bytes) :=
  snd <$> runs server_step ([], ∅, server_start (reads_then_stalls input)) [Accept; Respond 0%nat no_length; Drive; Drive].
Definition get_text : bytes := from_option (fun c : client => BufIo.outgoing (bio c)) [] (client_of []).
Definition no_length_text : bytes := from_option (fun c : server => BufIo.outgoing (bio c)) [] (server_of get_text).

(** One more poll of the client: it waits for another request. *)
Definition idle : client := match Client.poll_client fuel 7%nat asked.2 with Done (_, c) => c | _ => asked.2 end.

Lemma idle_pending : Client.poll_client fuel 7%nat asked.2 = Done (Pending, idle).
Proof.
  assert (Hp : match Client.poll_client fuel 7%nat asked.2 with Done (Pending, _) => true | _ => false end = true) by by vm_compute.
  unfold idle. by destruct (Client.poll_client fuel 7%nat asked.2) as [[[|v] c]| |].
Qed.
Lemma client_enough_asked : Client_proofs.enough fuel asked.2.
Proof. refine (@bool_decide_unpack _ (client_enough_dec _) _). by vm_compute. Qed.
Lemma idle_user_done : user_done 7%nat (wld idle).
Proof. split; eapply bool_decide_unpack; by vm_compute. Qed.
Lemma no_stalls_left : stalls_left asked.2 = 0%nat.
Proof. by vm_compute. Qed.
Lemma client_live : live Script.t.
Proof. done. Qed.
Lemma server_reads_idle : r_stream server_io = BufIo.outgoing (bio idle).
Proof. by vm_compute. Qed.
End ConversationExample.

(** What the supposition on the framing of responses excludes: a response with
    neither a length nor a chunked body.  The server sends it as one without a
    body, and waits for the next request; the client goes on to read its body
    up to the end of the connection.  Neither will speak again. *)
Lemma no_length_stalls :
  (fun c : ConversationExample.server => match self c with Server.RecvReq => true | _ => false end) <$>
    ConversationExample.server_of ConversationExample.get_text = Some true /\
  (fun c : ConversationExample.client => (match self c with Client.RecvBody b => LimitRead.is_read_to_end (Client.BodyReceiver.limit b) | _ => false end,
     Client.BodyReceiver.response_allows_reuse <$> match self c with Client.RecvBody b => Some b | _ => None end)) <$>
    ConversationExample.client_of ConversationExample.no_length_text = Some (true, Some true).
Proof. by vm_compute. Qed.

Lemma requests_arrive_witness :
  BufIo.outgoing (bio ConversationExample.asked.2) = ConversationExample.request_text /\
  self ConversationExample.served.2 = Server.RecvReq /\
  exists vs es ys, Service.history (Server_proofs.abs Server.RecvReq (ConversationExample.server_start ConversationExample.server_io)) vs es
      (Server_proofs.abs (self ConversationExample.served.2) ConversationExample.served.2) /\
    accepted_in es ys /\ forall i y, ys !! i = Some y ->
      exists h, ConversationExample.requests !! i = Some h /\ arrives ConversationExample.asked.1.2 h y.
Proof.
  split; [by vm_compute|]. split; [by vm_compute|]. destruct ConversationExample.served_talk as (vs & Ht).
  destruct (requests_arrive _ _ _ _ _ _ _ _ _ _ ConversationExample.fits_client (ConversationExample.all_sent_nothing _) (ConversationExample.client_starts _)
    ConversationExample.asked_talk
    ConversationExample.fits_server (ConversationExample.server_starts _) (Server_talk.server_talk_session _ _ _ _ _ _ Ht)
    ConversationExample.server_reads ConversationExample.asked_understood) as (es & ys & Hes & _ & Hys & Hall).
  exists vs, es, ys. split; [exact Hes|]. split; [exact Hys|exact Hall].
Defined.

Lemma responses_arrive_witness :
  BufIo.outgoing (bio ConversationExample.served.2) = ConversationExample.response_text /\
  self ConversationExample.asked.2 = Client.SendReq /\
  exists l es xs, Forall (fun a => a ∈ ConversationExample.served.1.1) l /\
    Protocol.history (Client_proofs.abs Client.SendReq (ConversationExample.client_start ConversationExample.client_io))
      ConversationExample.asked.1.1 es (Client_proofs.abs (self ConversationExample.asked.2) ConversationExample.asked.2) /\
    begun_in es xs /\ accounts_for ConversationExample.asked.1.1 ConversationExample.asked.2 xs /\
    gets ConversationExample.served.1.2 l xs.
Proof.
  split; [by vm_compute|]. split; [by vm_compute|]. destruct ConversationExample.served_talk as (vs & Ht).
  destruct (responses_arrive _ _ _ _ _ _ _ _ _ _ ConversationExample.fits_server (ConversationExample.stalls_sent_nothing _) (ConversationExample.server_starts _)
    Ht
    ConversationExample.fits_client (ConversationExample.client_starts _) (Client_talk.talk_session _ _ _ _ ConversationExample.asked_talk)
    ConversationExample.client_reads) as (ess & Hess & _ & Hl & Hu).
  destruct (Hu (ConversationExample.served_understood _ Hl)) as (es & xs & Hes & Hb & Hacf & Hx).
  exists (Service.answers ess), es, xs. split; [exact Hl|]. split; [exact Hes|]. split; [exact Hb|].
  split; [exact Hacf|exact Hx].
Defined.

Lemma conversation_witness :
  BufIo.outgoing (bio ConversationExample.asked.2) = ConversationExample.request_text /\
  BufIo.outgoing (bio ConversationExample.served.2) = ConversationExample.response_text /\
  exists x, Protocol.whole x /\
    ((exists ys, matches ConversationExample.asked.1.2 ConversationExample.served.1.2 ys 0 x) \/ made_up x).
Proof.
  split; [by vm_compute|]. split; [by vm_compute|]. destruct ConversationExample.served_talk as (vs & Ht).
  destruct (conversation _ _ _ _ _ _ _ _ _ _ _ ConversationExample.fits_client (ConversationExample.all_sent_nothing _)
    (ConversationExample.client_starts _) ConversationExample.asked_talk ConversationExample.fits_server
    (ConversationExample.stalls_sent_nothing _) (ConversationExample.server_starts _) Ht
    ConversationExample.server_reads ConversationExample.client_reads ConversationExample.asked_understood) as (ess & Hess & _ & Hl & Hu).
  destruct (Hu (ConversationExample.served_understood _ Hl)) as (es & xs & ys & _ & _ & [Hacf Hidle] & _ & Hx).
  assert (Hq : queue_of (reqs (wld ConversationExample.asked.2)) = []) by by vm_compute.
  assert (Hn : length ConversationExample.requests = 1%nat) by by vm_compute.
  rewrite Hq, app_nil_r in Hacf. rewrite Hacf, length_fmap in Hn. destruct xs as [|x [|]]; [discriminate Hn| |discriminate Hn].
  assert (Hw : Protocol.whole x) by (apply Forall_singleton, Hidle; by vm_compute).
  exists x. split; [exact Hw|]. destruct (Hx 0%nat x eq_refl) as [Hm|[Hm _]]; [|left; exists ys; exact Hm|right; exact Hm].
  destruct Hw as (_ & _ & _ & id & res & body & _ & Ha & _). by rewrite Ha.
Defined.

Lemma every_request_is_answered_witness :
  exists x h, ConversationExample.requests !! 0%nat = Some h /\ Protocol.x_handle x = h /\ Protocol.whole x /\
    ((exists ys, matches ConversationExample.asked.1.2 ConversationExample.served.1.2 ys 0 x) \/ made_up x).
Proof.
  destruct ConversationExample.served_talk as (vs & Ht).
  destruct (every_request_is_answered _ _ _ _ _ _ _ _ _ _ _ _ ConversationExample.fuel 7%nat ConversationExample.idle
    ConversationExample.fits_client (ConversationExample.all_sent_nothing _)
    (ConversationExample.client_starts _) ConversationExample.asked_talk ConversationExample.fits_server
    (ConversationExample.stalls_sent_nothing _) (ConversationExample.server_starts _) Ht
    ConversationExample.client_live ConversationExample.no_stalls_left ConversationExample.client_enough_asked
    ConversationExample.idle_pending ConversationExample.idle_user_done
    ConversationExample.server_reads_idle ConversationExample.client_reads ConversationExample.asked_understood) as (ess & Hess & Hnf & Hr).
  destruct (Hr (Hnf eq_refl)) as (Hl & Hu).
  destruct (Hu (ConversationExample.served_understood _ Hl)) as (xs & ys & _ & Hx).
  assert (Hn : length ConversationExample.requests = 1%nat) by by vm_compute.
  destruct (Protocol.queued ConversationExample.asked.1.1) as [|h [|]] eqn:Eh; [discriminate Hn| |discriminate Hn].
  destruct (Hx 0%nat h eq_refl) as (x & _ & Hh & Hw & Hor). exists x, h.
  split; [reflexivity|]. split; [exact Hh|]. split; [exact Hw|].
  destruct Hor as [Hm|[Hm _]]; [left; exists ys; exact Hm|right; exact Hm].
Defined.
